(* ===== verification/_CoqProject ===== *)
-Q . S2P
Prelude.v
Arrays.v
CLib.v
QQueue.v
QListQueue.v
QPriorityQueue.v
ConfigReader.v
MD5Spec.v
QMD5.v
MD5.v
Sockets.v
Protocol.v
TcpClient.v
FileSystem.v
MongoClient.v
StringUtil.v
IdfsServer.v
TcpServer.v
IdfsProcess.v
IdfsInit.v
EndToEnd.v
Threads.v
ServerConfig.v
Spool.v
Base64.v
MultiSort.v
Heap.v
BitMap.v
Crc.v
Sorts.v
QuickSort.v
StrSearch.v
StrEdit.v
UrlCodec.v
RedBlack.v
RBInsert.v
RBTree.v
HashMap.v
LinearHash.v
Allocator.v
PoolAllocator.v
Stdio.v
HashSearch.v
StrId.v
StoreManager.v
StoreMap.v
LBScheduler.v
AdList.v
Distance.v
