(* ===== verification/Prelude.v ===== *)
(** * A verification of ImageDFS

    ImageDFS is an image store: clients send an image over TCP, the server
    names it by its MD5 digest, writes it into a numbered subdirectory,
    records it in MongoDB and answers with a small XML text.  The server
    proper is src/src/idfsserver.cc; it is built on the class library under
    src/include/common/.  This library models the server, the framework it
    runs in and the parts of the class library they use as functions and step
    relations, and proves what they do.

    ** The program and the files

    - A client ([QTcpClient], qtcpsocket.cc) packs a request, sends it, and
      unpacks the reply: TcpClient.v, with the packet layouts and return codes
      of qtcpsocket.h in Protocol.v and the send and receive loops of
      qglobal.h in Sockets.v.
    - The framework ([QTcpServer], qtcpsocket.cc): ServerConfig.v has the
      settings and [load_server_config]; Threads.v has [comm_thread] and
      [work_thread], the two queues between them and [QTrigger], as
      interleaved steps; TcpServer.v has what a working thread does with one
      request, over the class [ServerHooks] of the virtual functions; Spool.v
      has [write_data_file], [send_thread], [backup_file] and [q_repair_file].
    - The image server ([IDFSServer], idfsserver.cc): IdfsInit.v has
      [initialize], IdfsProcess.v [server_header] and [server_process],
      IdfsServer.v [server_main], [save_image] and the reply text.
      IdfsProcess.v is an instance of [ServerHooks] and discharges its laws.
    - What these rely on: QQueue.v ([QQueue], with the interface
      [BoundedFifo] Threads.v is proved against), QListQueue.v and
      QPriorityQueue.v (the other two queues of qqueue.h), ConfigReader.v
      ([QConfigReader]), QMD5.v and MD5.v (the two MD5 classes, qmd5.h and
      MD5.cc, both against RFC 1321 in MD5Spec.v), MongoClient.v
      ([QMongoClient]), FileSystem.v ([QDir::mkdir] and the system calls on
      files), StringUtil.v (three functions of qfunc.h), CLib.v (the C
      library functions the source calls).
    - EndToEnd.v puts client, network, framework and server together.
    - The rest of the class library, which the image server is shipped with:
      Base64.v (base64.c), Crc.v (qcrc.h), UrlCodec.v, StrSearch.v and
      StrEdit.v (the URL and number codecs, the searches and the editing
      functions of qfunc.h), MultiSort.v, Sorts.v and QuickSort.v (the three
      groups of sorts and searches of qalgorithm.h), Heap.v (qheap.h),
      BitMap.v (qbitmap.h), RedBlack.v (qredblacktree.h) with its proofs in
      RBInsert.v and RBTree.v, HashMap.v and LinearHash.v (the three tables of
      qhashmap.h), AdList.v (the doubly linked list of qadlist.cc, over a
      memory in which every wrong access is a fault), LBScheduler.v (the
      choice of servers of qlbscheduler.cc) and Distance.v (the edit distance
      of qdistance.h).  Arrays.v has what they share: bounded arrays indexed
      by [Z], and the class [Key] of [operator<] with its laws.
    - Memory and storage: Allocator.v and PoolAllocator.v (qallocator.cc) over
      a heap of blocks, with the interface [Allocator] and its laws;
      HashSearch.v (qhashsearch.h), a hash table on any allocators that keep
      the laws, its persistence included; StrId.v (qstridallocator.h), the
      numbering of strings that puts MD5, the hash table, an allocator and a
      file together; StoreManager.v (qstoremanager.h), a hash table in two
      files, with its proofs in StoreMap.v.  Stdio.v has binary files behind
      a [FILE] pointer.

    ** How code is modelled

    A byte is [byte], a string or buffer a list of bytes, a machine integer a
    [Z] wrapped where the code wraps it.  A structure overlaid on a buffer is
    read and written by [get_] and [put_] at the offsets of its fields.  State
    is passed explicitly; [server_main] is written in a state and error monad
    whose error is the code returned.  [Q_ASSERT] ends the process, so a
    function that asserts returns an [outcome].  Reads and writes outside a
    buffer are [None] where they can happen.  Uninitialised memory, the
    clock, incomplete writes, the segments in which data arrives and what the
    kernel takes per call are arguments, so the theorems hold for all of
    them.  Blocking loops are modelled by one turn, which is absent while the
    caller waits.

    Code outside the repository is a parameter: the MongoDB driver is the
    class [MongoDriver] with the laws [MongoLaws] (instances: an in-memory
    database, with and without faults), the image decoder and the download of
    a page are functions.

    ** What is proved

    - EndToEnd.v: a request of the client is answered with the result of
      [server_main], whatever the segmentation, the memory and the previous
      contents of the buffers.
    - IdfsServer.v: what storing a new image leaves on disk, in the database
      and in the reply; that storing it again changes nothing while the driver
      throws on no lookup; that on every path the mutex is released and
      nothing is stored past the end of the reply buffer.
    - Threads.v: in every reachable state each client record is in one place,
      no push ever waits, and a queued client can be served without another
      connection.
    - TcpServer.v and IdfsProcess.v: which requests are refused and how, that
      stale buffer contents never reach a reply, which requests end the
      process.
    - IdfsInit.v: after start-up every image can be saved.  ServerConfig.v and
      ConfigReader.v: what a configuration file means.
    - Spool.v: writing to an open file is all or nothing; when repair keeps
      exactly the whole records and when it loses some; a turn of the sender
      removes the file only after every record has been acknowledged.
    - QQueue.v, QListQueue.v, QPriorityQueue.v: refinement of bounded lists.
      QMD5.v, MD5.v: equality with MD5, for any division into pieces.
    - Base64.v, UrlCodec.v: decoding gives back what was encoded.  Crc.v: the
      table-driven checksums are division of polynomials.
    - MultiSort.v, Sorts.v, QuickSort.v: every sort returns an ordered
      permutation, under the conditions stated (the sorts by two and three
      keys order by the first key only; the quick sort of one array only when
      no key is there three times: with equal keys at both ends it does not
      end); binary searches agree with the sequential ones.
    - StrSearch.v: the KMP search finds the first occurrence.  StrEdit.v: what
      replacing and splitting write, and when there is no room.
    - Heap.v, BitMap.v, RBTree.v: refinement of a bag, of a set, and of a
      sorted list; a search in the red-black tree visits at most 2 log2(n+1)
      nodes; a removal can break the tree.  HashMap.v, LinearHash.v,
      HashSearch.v, StoreMap.v: refinement of finite maps, with a traversal
      that gives every entry once where the class has one; for [QLinearHash]
      until it is cleared, for the file store for keys other than 0.
    - AdList.v: a client that creates a list, uses it in any way and releases
      it gets the answers of a list of values, without a fault and without a
      cell left behind.  The rules for single accesses are those of a Hoare
      logic, and each function is proved once against them.
    - LBScheduler.v: what a file of servers means, the cycle in which servers
      are chosen by weight, and the choice in turn and by hash.  Distance.v:
      the least number of edits between two strings.
    - Allocator.v, PoolAllocator.v: the pieces in use lie inside live blocks
      and share no byte, requests are refused exactly when the limits are
      reached, and all memory goes back to the heap once.
    - HashSearch.v, StoreMap.v, StrId.v: what a file holds after any sequence
      of calls, and that reading it again restores the table (the insertions
      into a file store that is opened again need its overflow counter, which
      the file does not hold; [QHashSearch::load] itself refuses every
      prepared table).
    - Defects of the code are theorems too: the EAGAIN branch of [q_recvbuf]
      that does not retry, the failed lookup reported as success, the
      truncated image that is kept, the mark [q_repair_file] misses, and
      others named at their statements.

    ** Bounds and fuel

    Loops whose recursion is not structural take fuel, and each is proved to
    have enough: the receive and send loops consume an event or a step of the
    plan per round, the scan of a configuration file a line, the spool loops
    a record, [mkdir] a component, [q_repair_file] a block, the printing of
    a number a digit, the loops over arrays an index or a part of the range,
    the walks in the red-black tree a level, of which there are fewer than
    nodes, the walks along a chain of a hash table a node, the loops that
    read a file back a record of at least one byte, the loops over a linked
    list a node, of which memory has at least as many, and the choice by
    weight an index, for at most two passes over the servers.  Where a loop
    does not end, the theorem says so for every fuel.  Sizes are bounded where
    the code has 32-bit ones: images and messages are shorter than 2^31 bytes,
    positions in the files of [QStoreManager] fit 32 bits, an allocator has
    fewer than 2^32 blocks of less than 4 GiB, a heap at most 2^30 elements, a
    [QLinearHash] at most 46340^2 buckets, and a linked list fewer than 2^32
    nodes.

    ** What is not modelled

    Logging, process control (daemon mode, pid file), timers and statistics
    output; the creation of threads and sockets; the memory the allocator
    returns is assumed to be granted except where a theorem is about its
    failure (so the [assert] on the buffer of a downloaded page does not fire).
    The [_id] the database driver adds to a document is left out.  Of the class library, the remaining containers (vectors,
    stacks, strings and graphs) and codecs, text processing and the distances
    that compute with doubles, the HTTP, mail and other network clients, the
    database clients, the disk cache and the dense index manager are not
    modelled, nor are the bundled JSON and XML libraries; the image server
    does not use them.  Pieces of memory are kept by their address: that they
    do not overlap is what Allocator.v and PoolAllocator.v prove.  Two threads that
    write the same file at the same time are not modelled: the image files
    and the database are written under one mutex. *)
From stdpp Require Export base option list list_numbers gmap strings sorting.
From Stdlib Require Export ZArith Lia Permutation.
From Corelib Require Export Init.Byte.
From Stdlib Require Strings.Byte Strings.String.

#[global] Open Scope Z_scope.

(** ** Bytes *)

Abbreviation bytes := (list byte).

(** The value of an [unsigned char]. *)
Definition byte_val (b : byte) : Z := Z.of_N (Byte.to_N b).

(** Conversion of an integer to [unsigned char]: truncation modulo 256. *)
Definition byte_of (z : Z) : byte :=
  match Byte.of_N (Z.to_N (z mod 256)) with
  | Some b => b
  | None => x00
  end.

(** The value of a (signed) [char]. *)
Definition char_val (b : byte) : Z :=
  if byte_val b <? 128 then byte_val b else byte_val b - 256.

#[global] Instance byte_eq_decision : EqDecision byte := Byte.byte_eq_dec.

#[global] Program Instance byte_countable : Countable byte :=
  inj_countable Byte.to_N Byte.of_N _.
Next Obligation. intros b. apply Byte.of_to_N. Qed.

Lemma byte_val_range b : 0 <= byte_val b < 256.
Proof.
  unfold byte_val. pose proof (Byte.to_N_bounded b). lia.
Qed.

Lemma byte_val_of z : byte_val (byte_of z) = z mod 256.
Proof.
  unfold byte_val, byte_of.
  pose proof (Z.mod_pos_bound z 256 ltac:(lia)).
  destruct (Byte.of_N (Z.to_N (z mod 256))) as [b|] eqn:E.
  - apply Byte.to_of_N in E. rewrite E. lia.
  - apply Byte.of_N_None_iff in E. lia.
Qed.

Lemma byte_val_inj b1 b2 : byte_val b1 = byte_val b2 -> b1 = b2.
Proof.
  unfold byte_val. intros H%N2Z.inj.
  pose proof (Byte.of_to_N b1) as E1. pose proof (Byte.of_to_N b2) as E2.
  rewrite H in E1. congruence.
Qed.

Lemma byte_of_val b : byte_of (byte_val b) = b.
Proof.
  apply byte_val_inj. rewrite byte_val_of.
  apply Z.mod_small, byte_val_range.
Qed.

Lemma byte_of_mod z : byte_of (z mod 256) = byte_of z.
Proof.
  apply byte_val_inj. rewrite !byte_val_of. apply Z.mod_mod. lia.
Qed.

(** A C string literal without its terminating NUL. *)
Definition str (s : string) : bytes := String.list_byte_of_string s.

(** ** Machine integers

    Values are kept in [Z]; the wrap-around of each width is explicit. *)

Definition u8 (z : Z) : Z := z mod 2 ^ 8.
Definition u16 (z : Z) : Z := z mod 2 ^ 16.
Definition u32 (z : Z) : Z := z mod 2 ^ 32.
Definition u64 (z : Z) : Z := z mod 2 ^ 64.

(** Two's complement reading of an unsigned [n]-bit value. *)
Definition sgn (n z : Z) : Z :=
  let m := z mod 2 ^ n in if m <? 2 ^ (n - 1) then m else m - 2 ^ n.

Definition i8 (z : Z) : Z := sgn 8 z.
Definition i16 (z : Z) : Z := sgn 16 z.
Definition i32 (z : Z) : Z := sgn 32 z.
Definition i64 (z : Z) : Z := sgn 64 z.

Definition INT32_MAX : Z := 2 ^ 31 - 1.
Definition INT32_MIN : Z := - 2 ^ 31.

Definition is_i32 (z : Z) : Prop := INT32_MIN <= z <= INT32_MAX.
Definition is_u16 (z : Z) : Prop := 0 <= z < 2 ^ 16.
Definition is_u32 (z : Z) : Prop := 0 <= z < 2 ^ 32.
Definition is_u64 (z : Z) : Prop := 0 <= z < 2 ^ 64.

Lemma u32_range z : is_u32 (u32 z).
Proof. apply Z.mod_pos_bound. lia. Qed.

Lemma u16_range z : is_u16 (u16 z).
Proof. apply Z.mod_pos_bound. lia. Qed.

Lemma u64_range z : is_u64 (u64 z).
Proof. apply Z.mod_pos_bound. lia. Qed.

Lemma u32_small z : is_u32 z -> u32 z = z.
Proof. apply Z.mod_small. Qed.

Lemma u16_small z : is_u16 z -> u16 z = z.
Proof. apply Z.mod_small. Qed.

Lemma u64_small z : is_u64 z -> u64 z = z.
Proof. apply Z.mod_small. Qed.

Lemma sgn_small n z : 0 < n -> 0 <= z < 2 ^ (n - 1) -> sgn n z = z.
Proof.
  intros Hn Hz. unfold sgn. assert (2 ^ n = 2 * 2 ^ (n - 1)) by (rewrite <- Z.pow_succ_r by lia; f_equal; lia).
  rewrite Z.mod_small by lia. destruct (Z.ltb_spec z (2 ^ (n - 1))); lia.
Qed.

Lemma i64_pos z : 0 <= z < 2 ^ 63 -> i64 z = z.
Proof. intros Hz. apply (sgn_small 64); lia. Qed.

Lemma i64_add x y : i64 (i64 x + y) = i64 (x + y).
Proof.
  assert (E : (i64 x + y) mod 2 ^ 64 = (x + y) mod 2 ^ 64); [| unfold i64 at 1 3; unfold sgn; by rewrite E].
  unfold i64, sgn. cbv zeta. destruct (_ <? _); [apply Zplus_mod_idemp_l |].
  replace (x mod 2 ^ 64 - 2 ^ 64 + y) with (x mod 2 ^ 64 + y + (-1) * 2 ^ 64) by lia. rewrite Z_mod_plus_full. apply Zplus_mod_idemp_l.
Qed.

Lemma i32_range z : is_i32 (i32 z).
Proof.
  unfold is_i32, i32, sgn, INT32_MIN, INT32_MAX.
  pose proof (Z.mod_pos_bound z (2 ^ 32) ltac:(lia)).
  destruct (Z.ltb_spec (z mod 2 ^ 32) (2 ^ (32 - 1))); lia.
Qed.

Lemma i32_small z : is_i32 z -> i32 z = z.
Proof.
  unfold is_i32, i32, sgn, INT32_MIN, INT32_MAX. intros H.
  destruct (Z.leb_spec 0 z).
  - rewrite Z.mod_small by lia. destruct (Z.ltb_spec z (2 ^ (32 - 1))); lia.
  - replace (z mod 2 ^ 32) with (z + 2 ^ 32).
    + destruct (Z.ltb_spec (z + 2 ^ 32) (2 ^ (32 - 1))); lia.
    + symmetry. rewrite <- (Z.mod_add z 1 (2 ^ 32)) by lia.
      apply Z.mod_small. lia.
Qed.

Lemma i32_u32 z : i32 (u32 z) = i32 z.
Proof. unfold i32, sgn, u32. by rewrite Z.mod_mod by lia. Qed.

Lemma u32_i32 z : u32 (i32 z) = u32 z.
Proof.
  unfold i32, sgn, u32. destruct (Z.ltb_spec (z mod 2 ^ 32) (2 ^ (32 - 1))).
  - by rewrite Z.mod_mod by lia.
  - rewrite <- (Z.mod_add _ 1) by lia. replace (z mod 2 ^ 32 - 2 ^ 32 + 1 * 2 ^ 32) with (z mod 2 ^ 32) by lia.
    by rewrite Z.mod_mod by lia.
Qed.

(** ** Little-endian memory layout *)

Fixpoint le_decode (bs : bytes) : Z :=
  match bs with
  | [] => 0
  | b :: bs => byte_val b + 256 * le_decode bs
  end.

Fixpoint le_encode (n : nat) (z : Z) : bytes :=
  match n with
  | O => []
  | S n => byte_of z :: le_encode n (z / 256)
  end.

Lemma length_le_encode n z : length (le_encode n z) = n.
Proof. revert z. induction n; intros z; simpl; auto. Qed.

Lemma le_encode_nonempty k z : (0 < k)%nat -> le_encode k z <> [].
Proof. intros H. rewrite <- length_zero_iff_nil, length_le_encode. lia. Qed.

Lemma le_decode_range bs : 0 <= le_decode bs < 256 ^ Z.of_nat (length bs).
Proof.
  induction bs as [|b bs IH]; simpl; [lia|].
  pose proof (byte_val_range b).
  replace (Z.of_nat (S (length bs))) with (Z.of_nat (length bs) + 1) by lia.
  rewrite Z.pow_add_r by lia. lia.
Qed.

Lemma le_decode_encode n z : le_decode (le_encode n z) = z mod 256 ^ Z.of_nat n.
Proof.
  revert z. induction n as [|n IH]; intros z.
  - simpl. by rewrite Z.mod_1_r.
  - cbn [le_encode le_decode]. rewrite IH, byte_val_of.
    replace (Z.of_nat (S n)) with (1 + Z.of_nat n) by lia.
    rewrite Z.pow_add_r, Z.pow_1_r by lia.
    rewrite Z.rem_mul_r by lia. lia.
Qed.

Lemma le_encode_decode bs : le_encode (length bs) (le_decode bs) = bs.
Proof.
  induction bs as [|b bs IH]; cbn [le_encode le_decode length]; [done|].
  pose proof (byte_val_range b). f_equal.
  - rewrite <- byte_of_mod, Z.mul_comm, Z.mod_add, byte_of_mod by lia.
    apply byte_of_val.
  - rewrite Z.mul_comm, Z.div_add, Z.div_small, Z.add_0_l by lia. apply IH.
Qed.

Lemma le_decode_app bs1 bs2 :
  le_decode (bs1 ++ bs2) =
  le_decode bs1 + 256 ^ Z.of_nat (length bs1) * le_decode bs2.
Proof.
  induction bs1 as [|b bs IH]; cbn [app le_decode length].
  - simpl. lia.
  - rewrite IH. replace (Z.of_nat (S (length bs))) with (1 + Z.of_nat (length bs)) by lia.
    rewrite Z.pow_add_r by lia. lia.
Qed.

Lemma le_decode_inj bs1 bs2 :
  length bs1 = length bs2 -> le_decode bs1 = le_decode bs2 -> bs1 = bs2.
Proof.
  intros Hl Hd. rewrite <- (le_encode_decode bs1), <- (le_encode_decode bs2).
  by rewrite Hl, Hd.
Qed.

(** A 32-bit field read back as [int32_t]. *)
Lemma i32_le_decode v : i32 (le_decode (le_encode 4 v)) = i32 v.
Proof. rewrite le_decode_encode. apply (i32_u32 v). Qed.

Lemma le_encode_mod n z : le_encode n (z mod 256 ^ Z.of_nat n) = le_encode n z.
Proof. rewrite <- le_decode_encode, <- (length_le_encode n z) at 1. apply le_encode_decode. Qed.

Lemma le_encode_i32 v : le_encode 4 (i32 v) = le_encode 4 v.
Proof.
  rewrite <- (le_encode_mod 4 (i32 v)), <- (le_encode_mod 4 v). f_equal.
  change (256 ^ Z.of_nat 4) with (2 ^ 32). apply u32_i32.
Qed.

(** ** Regions of a byte buffer *)

(** [len] bytes of a buffer from offset [off]. *)
Definition slice {A} (off len : nat) (l : list A) : list A := take len (drop off l).

Lemma length_slice {A} off len (l : list A) :
  (off + len <= length l)%nat -> length (slice off len l) = len.
Proof. intros. unfold slice. rewrite length_take, length_drop. lia. Qed.

Lemma slice_app_exact {A} (a m z : list A) off len :
  off = length a -> len = length m -> slice off len (a ++ m ++ z) = m.
Proof. intros -> ->. unfold slice. by rewrite drop_app_length, take_app_length. Qed.

Lemma slice_full {A} (l : list A) : slice 0 (length l) l = l.
Proof. unfold slice. by rewrite drop_0, firstn_all. Qed.

Lemma slice_skip {A} (a l : list A) off len :
  (length a <= off)%nat -> slice off len (a ++ l) = slice (off - length a) len l.
Proof. intros. unfold slice. by rewrite drop_app_ge. Qed.

Lemma slice_here {A} (m z : list A) len : len = length m -> slice 0 len (m ++ z) = m.
Proof. intros. by apply (slice_app_exact [] m z). Qed.

Lemma slice_app_l {A} (a z : list A) off len :
  (off + len <= length a)%nat -> slice off len (a ++ z) = slice off len a.
Proof.
  intros. unfold slice. rewrite drop_app_le, take_app_le; [done| |lia].
  rewrite length_drop. lia.
Qed.

(** Overwriting a region by one of the same length. *)
Lemma inserts_middle {A} (v a w z : list A) i :
  i = length a -> length w = length v -> list_inserts i v (a ++ w ++ z) = a ++ v ++ z.
Proof.
  intros ->. revert a w. induction v as [|x v IH]; intros a [|y w] Hl; try done.
  cbn. replace (a ++ y :: w ++ z) with ((a ++ [y]) ++ w ++ z) by by rewrite <- app_assoc.
  replace (S (length a)) with (length (a ++ [y])) by (rewrite length_app; cbn; lia).
  rewrite IH by (cbn in Hl; lia). rewrite <- app_assoc. cbn.
  rewrite insert_app_r_alt by done. by rewrite Nat.sub_diag.
Qed.

Lemma inserts_prefix {A} (v w z : list A) :
  length w = length v -> list_inserts 0 v (w ++ z) = v ++ z.
Proof. intros. by apply (inserts_middle v [] w z). Qed.

Lemma inserts_app_r {A} (v a l : list A) i :
  (length a <= i)%nat -> list_inserts i v (a ++ l) = a ++ list_inserts (i - length a) v l.
Proof.
  intros H. revert i H. induction v as [|x v IH]; intros i H; cbn; [done|].
  rewrite IH by lia. rewrite insert_app_r_alt by done.
  do 3 f_equal. lia.
Qed.

Lemma inserts_here {A} (v w l : list A) i :
  i = 0%nat -> length w = length v -> list_inserts i v (w ++ l) = v ++ l.
Proof. intros ->. apply inserts_prefix. Qed.

Lemma inserts_all {A} (v w : list A) i :
  i = 0%nat -> length w = length v -> list_inserts i v w = v.
Proof.
  intros -> H. rewrite <- (app_nil_r w), inserts_prefix by done. apply app_nil_r.
Qed.

Lemma inserts_zero {A} (v l : list A) :
  (length v <= length l)%nat -> list_inserts 0 v l = v ++ drop (length v) l.
Proof.
  intros H. rewrite <- (take_drop (length v) l) at 1. apply inserts_prefix.
  rewrite length_take. lia.
Qed.

(** A buffer cut after [n] bytes. *)
Lemma cut_at {A} n (l : list A) :
  (n <= length l)%nat -> exists a b, l = a ++ b /\ length a = n /\ length b = (length l - n)%nat.
Proof.
  intros. exists (take n l), (drop n l). rewrite take_drop, length_take, length_drop.
  repeat split; lia.
Qed.

Lemma lookup_slice {A} off len (l : list A) i :
  (i < len)%nat -> slice off len l !! i = l !! (off + i)%nat.
Proof. intros. unfold slice. by rewrite lookup_take_lt, lookup_drop. Qed.

Lemma length_slice_le {A} off len (l : list A) : (length (slice off len l) <= len)%nat.
Proof. unfold slice. rewrite length_take. lia. Qed.

Lemma slice_ext {A} off len (l l' : list A) :
  (forall i, (off <= i < off + len)%nat -> l !! i = l' !! i) -> slice off len l = slice off len l'.
Proof.
  intros H. apply list_eq. intros i. destruct (Nat.lt_ge_cases i len).
  - rewrite !lookup_slice by done. apply H. lia.
  - pose proof (length_slice_le off len l). pose proof (length_slice_le off len l').
    rewrite !lookup_ge_None_2; [done|lia..].
Qed.

Lemma slice_slice {A} o l off n (f : list A) :
  (o + l <= n)%nat -> slice o l (slice off n f) = slice (off + o) l f.
Proof.
  intros H. unfold slice. rewrite skipn_firstn_comm, drop_drop, take_take. f_equal. lia.
Qed.

Lemma take_min_length {A} n (l : list A) : take (n `min` length l) l = take n l.
Proof.
  destruct (Nat.le_gt_cases n (length l)); [by rewrite Nat.min_l|].
  by rewrite Nat.min_r, firstn_all, take_ge by lia.
Qed.

(** A region written and read back, and a region left alone. *)
Lemma slice_inserts_same {A} off len (v l : list A) :
  len = length v -> (off + length v <= length l)%nat -> slice off len (list_inserts off v l) = v.
Proof.
  intros -> H. apply list_eq. intros i. destruct (Nat.lt_ge_cases i (length v)).
  - rewrite lookup_slice by done. rewrite list_lookup_inserts by lia. f_equal. lia.
  - pose proof (length_slice_le off (length v) (list_inserts off v l)).
    rewrite !lookup_ge_None_2; [done|lia..].
Qed.

Lemma slice_inserts_other {A} off len off' (v l : list A) :
  (off + len <= off' \/ off' + length v <= off)%nat ->
  slice off len (list_inserts off' v l) = slice off len l.
Proof.
  intros H. apply slice_ext. intros i Hi. destruct H.
  - apply list_lookup_inserts_lt. lia.
  - apply list_lookup_inserts_ge. lia.
Qed.

Lemma drop_inserts_lt {A} n i (v l : list A) :
  (i + length v <= n)%nat -> drop n (list_inserts i v l) = drop n l.
Proof.
  intros H. apply list_eq. intros j. rewrite !lookup_drop. apply list_lookup_inserts_ge. lia.
Qed.

(** ** Aborting computations

    [Q_ASSERT] and [Q_CHECK_PTR] end the process when their condition fails,
    in every build. *)

Inductive outcome (A : Type) : Type :=
  | Ret (a : A)
  | Abort.
Arguments Ret {A}.
Arguments Abort {A}.

#[global] Instance outcome_ret : MRet outcome := @Ret.
#[global] Instance outcome_bind : MBind outcome := fun A B f m =>
  match m with Ret a => f a | Abort => Abort end.

(** [Q_ASSERT(b); k] *)
Definition q_assert {A} (b : bool) (k : outcome A) : outcome A := if b then k else Abort.

Declare Scope dfs_scope.
Delimit Scope dfs_scope with dfs.
Notation "'ASSERT' b 'THEN' k" := (q_assert b k)
  (at level 10, b at level 100, k at level 200) : dfs_scope.
#[global] Open Scope dfs_scope.

(** ** Automation *)

Create HintDb dfs.
Create Rewrite HintDb dfs_len.
#[export] Hint Resolve byte_val_range u16_range u32_range u64_range i32_range
  le_decode_range : dfs.
#[export] Hint Rewrite @length_app @length_fmap @length_insert @length_replicate @length_drop
  @length_take @length_inserts length_le_encode : dfs_len.

(** Decide an equation between closed terms by the virtual machine. *)
Ltac by_vm := match goal with |- _ = ?b => vm_cast_no_check (@eq_refl _ b) end.

(** Arithmetic on the lengths of composed lists. *)
Ltac len := repeat progress (autorewrite with dfs_len in *; cbn [length] in *); lia.

(** A region of a buffer given as a concatenation of its regions. *)
Ltac region :=
  repeat rewrite slice_skip by len;
  match goal with |- context [slice ?o ?n (?m ++ ?z)] => replace o with 0%nat by len end;
  rewrite slice_here by len.

(** Writes into a buffer given as a concatenation of its regions. *)
Ltac layout :=
  repeat first
    [rewrite inserts_here by len | rewrite inserts_all by len | rewrite inserts_app_r by len].

(** Case analysis on the conditions of the goal, discarding absurd branches. *)
Ltac cases := repeat (case_match; try discriminate; try lia).

(** A property of the numbers below a literal, checked at each of them. *)
Lemma below (n : Z) (P : Z -> Prop) : Forall P (seqZ 0 n) -> forall v, 0 <= v < n -> P v.
Proof. rewrite Forall_forall. intros H v Hv. apply H, elem_of_seqZ. lia. Qed.

Ltac by_table n v :=
  revert v; apply (below n);
  let l := eval vm_compute in (seqZ 0 n) in change (seqZ 0 n) with l;
  repeat first [apply Forall_nil_2 | apply Forall_cons_2; [repeat split; vm_compute; reflexivity |]].

(** Disjoint fields are put together by addition. *)
Lemma lor_add x k y : 0 <= k -> 0 <= y < 2 ^ k -> Z.lor (x * 2 ^ k) y = x * 2 ^ k + y.
Proof.
  intros Hk Hy. assert (Hd : Z.land (x * 2 ^ k) y = 0).
  { apply Z.bits_inj'. intros i Hi. rewrite Z.land_spec, Z.bits_0.
    destruct (Z.lt_ge_cases i k).
    - rewrite Z.mul_pow2_bits_low by lia. reflexivity.
    - rewrite <- (Z.mod_small y (2 ^ k)), Z.mod_pow2_bits_high by lia. apply andb_false_r. }
  rewrite Z.add_nocarry_lxor, Z.lxor_lor by exact Hd. reflexivity.
Qed.
