(* ===== verification/Arrays.v ===== *)
(** * Arrays indexed by machine integers

    The templates of src/include/common/ work on arrays through [int32_t]
    positions.  An array is a list, a position a [Z]; a read or write outside
    the array is [None].  The file also has the vocabulary of the sorting and
    heap proofs: a part of an array that is permuted, sorted or bounded while
    the rest stays as it was. *)

From S2P Require Import Prelude.

Module Arrays.

Section arrays.
Context {A : Type}.
Implicit Types (v w : list A) (i j : Z).

(** [v[i]] *)
Definition get v i : option A := if 0 <=? i then v !! Z.to_nat i else None.

(** [v[i]=x] *)
Definition set v i (x : A) : option (list A) :=
  if (0 <=? i) && (i <? Z.of_nat (length v)) then Some (<[Z.to_nat i := x]> v) else None.

(** [temp=v[i]; v[i]=v[j]; v[j]=temp] *)
Definition swap v i j : option (list A) :=
  temp ← get v i; x ← get v j; v1 ← set v i x; set v1 j temp.

(** ** Reads and writes *)

Lemma get_Some v i x : get v i = Some x <-> 0 <= i /\ v !! Z.to_nat i = Some x.
Proof. unfold get. destruct (Z.leb_spec 0 i); split; [auto | tauto | done | intros []; lia]. Qed.

Lemma get_range v i x : get v i = Some x -> 0 <= i < Z.of_nat (length v).
Proof. rewrite get_Some. intros [H E]. apply lookup_lt_Some in E. lia. Qed.

Lemma get_is_Some v i : 0 <= i < Z.of_nat (length v) -> exists x, get v i = Some x.
Proof.
  intros H. destruct (lookup_lt_is_Some_2 v (Z.to_nat i)) as [x E]; [lia |].
  exists x. apply get_Some. split; [lia | exact E].
Qed.

Lemma get_None v i : get v i = None <-> ~ (0 <= i < Z.of_nat (length v)).
Proof.
  split.
  - intros E H. destruct (get_is_Some v i H). congruence.
  - intros H. destruct (get v i) as [x|] eqn:E; [| done]. apply get_range in E. tauto.
Qed.

Lemma set_in v i x : 0 <= i < Z.of_nat (length v) -> set v i x = Some (<[Z.to_nat i := x]> v).
Proof.
  intros H. unfold set. destruct (Z.leb_spec 0 i), (Z.ltb_spec i (Z.of_nat (length v))); cbn; [done | lia ..].
Qed.

Lemma set_Some v i x w :
  set v i x = Some w <-> 0 <= i < Z.of_nat (length v) /\ w = <[Z.to_nat i := x]> v.
Proof.
  unfold set. destruct (Z.leb_spec 0 i), (Z.ltb_spec i (Z.of_nat (length v))); cbn;
    split; try lia; try (intros [= <-]; split; [lia | done]); try done; by intros [_ ->].
Qed.

Lemma get_insert v i j x : 0 <= i < Z.of_nat (length v) ->
  get (<[Z.to_nat i := x]> v) j = if i =? j then Some x else get v j.
Proof.
  intros H. unfold get. destruct (Z.eqb_spec i j) as [<-|Hne].
  - destruct (Z.leb_spec 0 i); [| lia]. apply list_lookup_insert_eq. lia.
  - destruct (Z.leb_spec 0 j); [| done]. apply list_lookup_insert_ne. lia.
Qed.

Lemma get_ext v w : length v = length w -> (forall i, get v i = get w i) -> v = w.
Proof.
  intros Hl H. apply list_eq. intros i. specialize (H (Z.of_nat i)). unfold get in H.
  destruct (Z.leb_spec 0 (Z.of_nat i)); [| lia]. by rewrite Nat2Z.id in H.
Qed.

(** The result of an exchange inside the array. *)
Lemma swap_in v i j x y : get v i = Some x -> get v j = Some y ->
  swap v i j = Some (<[Z.to_nat j := x]> (<[Z.to_nat i := y]> v)).
Proof.
  intros Hi Hj. unfold swap. rewrite Hi, Hj. cbn.
  rewrite set_in by (eapply get_range; eauto). cbn.
  apply set_in. rewrite length_insert. eapply get_range; eauto.
Qed.

Lemma swap_Some v i j w : swap v i j = Some w ->
  exists x y, get v i = Some x /\ get v j = Some y /\ w = <[Z.to_nat j := x]> (<[Z.to_nat i := y]> v).
Proof.
  intros H. pose proof H as H0. unfold swap in H0.
  destruct (get v i) as [x|] eqn:Hi; [| done]. destruct (get v j) as [y|] eqn:Hj; [| done].
  exists x, y. rewrite (swap_in v i j x y) in H by done. by injection H as <-.
Qed.

Lemma swap_get v i j w k x y : swap v i j = Some w -> get v i = Some x -> get v j = Some y ->
  get w k = if j =? k then Some x else if i =? k then Some y else get v k.
Proof.
  intros H Hi Hj. rewrite (swap_in _ _ _ x y) in H by done. injection H as <-.
  rewrite get_insert, get_insert; [done | ..]; rewrite ?length_insert; eapply get_range; eauto.
Qed.

Lemma swap_length v i j w : swap v i j = Some w -> length w = length v.
Proof. intros (x & y & _ & _ & ->)%swap_Some. by rewrite !length_insert. Qed.

Lemma swap_perm v i j w : swap v i j = Some w -> w ≡ₚ v.
Proof.
  intros (x & y & [Hi Ex]%get_Some & [Hj Ey]%get_Some & ->)%swap_Some.
  apply Permutation_sym, Permutation_inj. split; [by rewrite !length_insert |].
  exists (fun k => if decide (k = Z.to_nat i) then Z.to_nat j else if decide (k = Z.to_nat j) then Z.to_nat i else k).
  split; [intros a b; repeat case_decide; congruence |].
  intros k. repeat case_decide; subst.
  - rewrite list_lookup_insert_eq; [done |]. rewrite length_insert. by eapply lookup_lt_Some.
  - rewrite list_lookup_insert_ne by congruence. rewrite list_lookup_insert_eq by (by eapply lookup_lt_Some). done.
  - by rewrite !list_lookup_insert_ne by congruence.
Qed.

(** Moving the hole of an array with [temp] put in it is an exchange. *)
Lemma fill_swap v i j (temp y : A) :
  0 <= j < Z.of_nat (length v) -> i <> j -> get v i = Some y ->
  swap (<[Z.to_nat j := temp]> v) j i = Some (<[Z.to_nat i := temp]> (<[Z.to_nat j := y]> v)).
Proof.
  intros Hj Hne Hi. rewrite (swap_in _ _ _ temp y).
  - by rewrite list_insert_insert_eq.
  - by rewrite get_insert, Z.eqb_refl.
  - rewrite get_insert by done. by destruct (Z.eqb_spec j i).
Qed.

End arrays.

(** ** Ranges *)

Section ranges.
Context {A : Type}.
Implicit Types (v w u : list A) (P : A -> Prop) (R : relation A) (m n i j : Z).

(** [w] is [v] with the positions [m] to [n] permuted. *)
Definition within m n v w : Prop :=
  w ≡ₚ v /\ forall i, ~ (m <= i <= n) -> get w i = get v i.

(** Every element, or every pair in order, of a range. *)
Definition all_in P m n v : Prop := forall i x, m <= i <= n -> get v i = Some x -> P x.
Definition sorted_in R m n v : Prop :=
  forall i j x y, m <= i -> i < j -> j <= n -> get v i = Some x -> get v j = Some y -> R x y.

Lemma within_refl m n v : within m n v v.
Proof. done. Qed.

Lemma within_trans m n v w u : within m n v w -> within m n w u -> within m n v u.
Proof.
  intros [P1 H1] [P2 H2]. split; [by rewrite P2 |]. intros i Hi. by rewrite H2, H1.
Qed.

Lemma within_weaken m n m' n' v w : m <= m' -> n' <= n -> within m' n' v w -> within m n v w.
Proof. intros ? ? [H1 H2]. split; [done |]. intros i Hi. apply H2. lia. Qed.

Lemma within_swap m n v i j w : m <= i <= n -> m <= j <= n -> swap v i j = Some w -> within m n v w.
Proof.
  intros Hi Hj H. split; [by eapply swap_perm |]. intros k Hk.
  destruct (swap_Some _ _ _ _ H) as (x & y & Ex & Ey & _).
  rewrite (swap_get _ _ _ _ k x y H Ex Ey).
  destruct (Z.eqb_spec j k), (Z.eqb_spec i k); try lia. done.
Qed.

Lemma within_length m n v w : within m n v w -> length w = length v.
Proof. intros [H _]. by apply Permutation_length. Qed.

Lemma take_same k v w : (forall i, 0 <= i < Z.of_nat k -> get w i = get v i) -> take k w = take k v.
Proof.
  intros H. apply list_eq. intros i. destruct (decide (i < k)%nat).
  - rewrite !lookup_take_lt by done. specialize (H (Z.of_nat i) ltac:(lia)). unfold get in H.
    destruct (Z.leb_spec 0 (Z.of_nat i)); [| lia]. by rewrite Nat2Z.id in H.
  - by rewrite !lookup_take_ge by lia.
Qed.

Lemma drop_same k v w : (forall i, Z.of_nat k <= i -> get w i = get v i) -> drop k w = drop k v.
Proof.
  intros H. apply list_eq. intros i. rewrite !lookup_drop.
  specialize (H (Z.of_nat (k + i)) ltac:(lia)). unfold get in H.
  destruct (Z.leb_spec 0 (Z.of_nat (k + i))); [| lia]. by rewrite Nat2Z.id in H.
Qed.

(** An element of the permuted range comes from the range. *)
Lemma within_from m n v w i x :
  within m n v w -> m <= i <= n -> get w i = Some x -> exists j, m <= j <= n /\ get v j = Some x.
Proof.
  intros [Hp Ho] Hi Hx. pose proof (get_range _ _ _ Hx) as Hr.
  remember (Z.to_nat m) as a eqn:Ea. remember (Z.to_nat (n + 1)) as b eqn:Eb.
  assert (Ha : take a w = take a v) by (apply take_same; intros; apply Ho; lia).
  assert (Hb : drop b w = drop b v) by (apply drop_same; intros; apply Ho; lia).
  assert (Hs : forall u, u = take a u ++ slice a (b - a) u ++ drop b u).
  { intros u. unfold slice. replace (drop b u) with (drop (b - a) (drop a u)).
    - by rewrite !take_drop.
    - rewrite drop_drop. f_equal. lia. }
  rewrite (Hs w), (Hs v), Ha, Hb in Hp. apply Permutation_app_inv_l, Permutation_app_inv_r in Hp.
  apply get_Some in Hx as [_ Hx].
  assert (Hin : x ∈ slice a (b - a) w).
  { apply list_elem_of_lookup. exists (Z.to_nat i - a)%nat. rewrite lookup_slice by lia.
    by replace (a + (Z.to_nat i - a))%nat with (Z.to_nat i) by lia. }
  rewrite Hp in Hin. apply list_elem_of_lookup in Hin as [k Hk].
  assert (k < b - a)%nat by (apply lookup_lt_Some in Hk; pose proof (length_slice_le a (b - a) v); lia).
  rewrite lookup_slice in Hk by lia. exists (Z.of_nat (a + k)). split; [lia |].
  apply get_Some. rewrite Nat2Z.id. split; [lia | done].
Qed.

Lemma within_all P m n v w : within m n v w -> all_in P m n v -> all_in P m n w.
Proof. intros Hw HP i x Hi Hx. destruct (within_from _ _ _ _ _ _ Hw Hi Hx) as (j & Hj & E). eauto. Qed.

Lemma all_in_outside P m n m' n' v w :
  within m n v w -> (n' < m \/ n < m') -> all_in P m' n' v -> all_in P m' n' w.
Proof. intros [_ Hw] Hd HP i x Hi Hx. rewrite Hw in Hx by lia. eauto. Qed.

Lemma sorted_outside R m n m' n' v w :
  within m n v w -> (n' < m \/ n < m') -> sorted_in R m' n' v -> sorted_in R m' n' w.
Proof. intros [_ Hw] Hd HR i j x y ? ? ? Hx Hy. rewrite Hw in Hx, Hy by lia. eauto. Qed.

Lemma all_in_weaken P m n m' n' v : m <= m' -> n' <= n -> all_in P m n v -> all_in P m' n' v.
Proof. intros ? ? H i x Hi. apply H. lia. Qed.

Lemma sorted_small R m n v : n <= m -> sorted_in R m n v.
Proof. intros H i j x y. lia. Qed.

Lemma within_take n v w : 0 <= n -> within 0 (n - 1) v w -> take (Z.to_nat n) w ≡ₚ take (Z.to_nat n) v.
Proof.
  intros Hn [Hp Ho]. assert (Hd : drop (Z.to_nat n) w = drop (Z.to_nat n) v) by (apply drop_same; intros; apply Ho; lia).
  rewrite <- (take_drop (Z.to_nat n) w), <- (take_drop (Z.to_nat n) v), Hd in Hp.
  by apply Permutation_app_inv_r in Hp.
Qed.

(** Two sorted ranges with a bound between them. *)
Lemma sorted_join R (HR : Transitive R) m k n v (mid : A) :
  sorted_in R m (k - 1) v -> sorted_in R k n v ->
  all_in (fun x => R x mid) m (k - 1) v -> all_in (R mid) k n v -> sorted_in R m n v.
Proof.
  intros H1 H2 H3 H4 i j x y Hi Hij Hj Hx Hy.
  destruct (Z.lt_ge_cases j k); [apply (H1 i j); try done; lia |].
  destruct (Z.lt_ge_cases i k); [| apply (H2 i j); try done; lia].
  transitivity mid; [apply (H3 i); [lia | done] | apply (H4 j); [lia | done]].
Qed.

Lemma sorted_in_whole R v : sorted_in R 0 (Z.of_nat (length v) - 1) v -> StronglySorted R v.
Proof.
  intros H. assert (Hn : forall (i j : nat) x y, (i < j)%nat -> v !! i = Some x -> v !! j = Some y -> R x y).
  { intros i j x y Hij Hx Hy. pose proof (lookup_lt_Some _ _ _ Hy).
    apply (H (Z.of_nat i) (Z.of_nat j) x y); try lia; apply get_Some; rewrite Nat2Z.id; (split; [lia | done]). }
  clear H. induction v as [|x v IH]; constructor.
  - apply IH. intros i j a b Hij. apply (Hn (S i) (S j)). lia.
  - apply Forall_lookup. intros i y Hy. by apply (Hn 0%nat (S i)); [lia | |].
Qed.

End ranges.

(** ** Keys *)

(** [operator<] of a key type; [a > b] is [b < a]. *)
Class Key (A : Type) := ltb : A -> A -> bool.
Definition gtb {A} `{Key A} (a b : A) : bool := ltb b a.

#[export] Instance key_Z : Key Z := Z.ltb.

(** [operator<] is a strict weak order. *)
Class KeyLaws (A : Type) {key : Key A} : Prop := {
  ltb_irrefl a : ltb a a = false;
  ltb_asym a b : ltb a b = true -> ltb b a = false;
  ltb_cotrans a b c : ltb a b = false -> ltb b c = false -> ltb a c = false
}.

#[export] Instance key_Z_ok : KeyLaws Z.
Proof. constructor; unfold ltb, key_Z; intros *; rewrite ?Z.ltb_ge, ?Z.ltb_lt; lia. Qed.

Section keys.
Context {A : Type} {key : Key A} {laws : KeyLaws A}.
Implicit Types (a b c : A).

(** [!(b < a)] *)
Definition kle a b : Prop := ltb b a = false.

Lemma kle_refl a : kle a a.
Proof. apply ltb_irrefl. Qed.

#[export] Instance kle_trans : Transitive kle.
Proof. intros a b c H1 H2. exact (ltb_cotrans _ _ _ H2 H1). Qed.

Lemma ltb_kle a b : ltb a b = true -> kle a b.
Proof. apply ltb_asym. Qed.

Lemma kle_total a b : kle a b \/ kle b a.
Proof. unfold kle. destruct (ltb b a) eqn:E; [right; by apply ltb_asym | by left]. Qed.

Lemma kle_ltb a b c : kle a b -> ltb b c = true -> ltb a c = true.
Proof.
  unfold kle. intros H1 H2. destruct (ltb a c) eqn:E; [done |].
  by rewrite (ltb_cotrans _ _ _ H1 E) in H2.
Qed.

Lemma ltb_kle_trans a b c : ltb a b = true -> kle b c -> ltb a c = true.
Proof.
  unfold kle. intros H1 H2. destruct (ltb a c) eqn:E; [done |].
  by rewrite (ltb_cotrans _ _ _ E H2) in H1.
Qed.

End keys.

End Arrays.
