(* ===== verification/CLib.v ===== *)
(** * CLib: the C and C++ standard library calls the sources rely on

    Strings in memory are byte lists read up to their first NUL (the end of
    the list stands for a NUL); numbers are printed and read digit by digit,
    with the saturation of [strtol]; [fgets] and [std::string::find] are the
    list functions they compute. *)

From S2P Require Import Prelude.

Definition NUL : byte := x00.

Definition beqb (a b : byte) : bool := byte_val a =? byte_val b.

Lemma beqb_spec a b : reflect (a = b) (beqb a b).
Proof.
  unfold beqb. destruct (Z.eqb_spec (byte_val a) (byte_val b)); constructor.
  - by apply byte_val_inj.
  - congruence.
Qed.

Lemma beqb_refl a : beqb a a = true.
Proof. unfold beqb. apply Z.eqb_refl. Qed.

(** ** C strings *)

(** The characters before the first NUL. *)
Fixpoint cstr (s : bytes) : bytes :=
  match s with
  | [] => []
  | b :: s => if beqb b NUL then [] else b :: cstr s
  end.

Definition strlen (s : bytes) : Z := Z.of_nat (length (cstr s)).

(** A string without embedded NUL. *)
Definition no_nul (s : bytes) : Prop := Forall (fun b => b <> NUL) s.

Lemma no_nul_cstr s : no_nul (cstr s).
Proof.
  induction s as [|b s IH]; cbn; [constructor|].
  destruct (beqb_spec b NUL); constructor; done.
Qed.

Lemma cstr_no_nul s : no_nul s -> cstr s = s.
Proof.
  induction 1 as [|b s Hb Hs IH]; cbn; [done|].
  destruct (beqb_spec b NUL); congruence.
Qed.

Lemma cstr_app_nul s t : no_nul s -> cstr (s ++ NUL :: t) = s.
Proof.
  induction 1 as [|b s Hb Hs IH]; cbn; [done|].
  destruct (beqb_spec b NUL); congruence.
Qed.

Lemma length_cstr s : (length (cstr s) <= length s)%nat.
Proof. induction s as [|b s IH]; cbn; [lia|]. destruct (beqb b NUL); cbn; lia. Qed.

Definition tolower (b : byte) : byte :=
  let v := byte_val b in if (65 <=? v) && (v <=? 90) then byte_of (v + 32) else b.

(** [strncasecmp]; [n] characters at most. *)
Fixpoint strncasecmp (a b : bytes) (n : nat) : Z :=
  match n with
  | O => 0
  | S n =>
      let ca := hd NUL a in
      let cb := hd NUL b in
      let d := byte_val (tolower ca) - byte_val (tolower cb) in
      if negb (d =? 0) then d
      else if beqb ca NUL then 0 else strncasecmp (tl a) (tl b) n
  end.

Definition strcasecmp (a b : bytes) : Z := strncasecmp a b (S (length a)).

Lemma tolower_nul b : tolower b = NUL -> b = NUL.
Proof. by destruct b. Qed.

(** Equal prefixes up to the case of ASCII letters. *)
Lemma strncasecmp_0 n a b :
  no_nul b -> length b = n ->
  strncasecmp a b n = 0 <-> (n <= length a)%nat /\ tolower <$> take n a = tolower <$> b.
Proof.
  revert a b. induction n as [|n IH]; intros a b Hb Hl.
  - destruct b; [|done]. cbn. split; [intros _; split; [lia|done]|done].
  - destruct b as [|cb b]; [done|]. inversion Hb as [|?? Hcb Hb']; subst.
    injection Hl as Hl. cbn [strncasecmp hd tl].
    destruct (Z.eqb_spec (byte_val (tolower (hd NUL a)) - byte_val (tolower cb)) 0) as [E|E]; cbn.
    + assert (tolower (hd NUL a) = tolower cb) as Et by (apply byte_val_inj; lia).
      destruct a as [|ca a]; cbn in *.
      { symmetry in Et. by apply tolower_nul in Et. }
      destruct (beqb_spec ca NUL) as [->|Hca].
      { symmetry in Et. by apply tolower_nul in Et. }
      rewrite IH by done. rewrite Et. split; intros [H1 H2]; split; (lia || congruence).
    + split; [lia|]. destruct a as [|ca a]; cbn; [lia|]. intros [_ H]. cbn in E.
      injection H as H _. rewrite H in E. lia.
Qed.

(** ** Reading integers *)

Definition isspace (b : byte) : bool :=
  let v := byte_val b in (v =? 32) || ((9 <=? v) && (v <=? 13)).
Definition isdigit (b : byte) : bool :=
  let v := byte_val b in (48 <=? v) && (v <=? 57).

Fixpoint skip_space (s : bytes) : bytes :=
  match s with
  | b :: s' => if isspace b then skip_space s' else s
  | [] => []
  end.

Fixpoint read_digits (acc : Z) (s : bytes) : Z :=
  match s with
  | b :: s' => if isdigit b then read_digits (10 * acc + (byte_val b - 48)) s' else acc
  | [] => acc
  end.

(** Sign and magnitude of the leading decimal number. *)
Definition read_int (s : bytes) : bool * Z :=
  match skip_space s with
  | b :: s' =>
      if beqb b x2d then (true, read_digits 0 s')
      else if beqb b x2b then (false, read_digits 0 s')
      else (false, read_digits 0 (b :: s'))
  | [] => (false, 0)
  end.

Definition LONG_MAX : Z := 2 ^ 63 - 1.
Definition LONG_MIN : Z := - 2 ^ 63.
Definition ULONG_MAX : Z := 2 ^ 64 - 1.

Definition strtol (s : bytes) : Z :=
  let '(neg, v) := read_int s in
  if neg then Z.max LONG_MIN (- v) else Z.min LONG_MAX v.

Definition atol (s : bytes) : Z := strtol s.
Definition atoi (s : bytes) : Z := i32 (strtol s).

Definition strtoul (s : bytes) : Z :=
  let '(neg, v) := read_int s in
  if ULONG_MAX <? v then ULONG_MAX else if neg then u64 (- v) else v.

(** A number ends at the NUL. *)
Lemma read_digits_nul acc s t : read_digits acc (s ++ NUL :: t) = read_digits acc s.
Proof.
  revert acc. induction s as [|b s IH]; intros acc; cbn [app read_digits]; [done|].
  destruct (isdigit b); [apply IH|done].
Qed.

Lemma read_int_nul s t : read_int (s ++ NUL :: t) = read_int s.
Proof.
  unfold read_int. induction s as [|b s IH]; cbn [app skip_space]; [done|].
  destruct (isspace b); [exact IH|]. change (b :: s ++ NUL :: t) with ((b :: s) ++ NUL :: t).
  by rewrite !read_digits_nul.
Qed.

Lemma atoi_nul s t : atoi (s ++ NUL :: t) = atoi s.
Proof. unfold atoi, strtol. by rewrite read_int_nul. Qed.

Lemma strncasecmp_nul s t b n m :
  (length s < n)%nat -> (length s < m)%nat -> strncasecmp (s ++ NUL :: t) b n = strncasecmp s b m.
Proof.
  revert b n m. induction s as [|a s IH]; intros b [|n] [|m] Hn Hm; cbn in Hn, Hm; try lia; cbn [app strncasecmp hd tl].
  - done.
  - by rewrite (IH (tl b) n m) by lia.
Qed.

Lemma strcasecmp_nul s t b : strcasecmp (s ++ NUL :: t) b = strcasecmp s b.
Proof. apply strncasecmp_nul; rewrite ?length_app; cbn; lia. Qed.

(** ** Printing integers *)

(** The digits of [n] in base [base], most significant first. *)
Fixpoint digits (fuel : nat) (base n : Z) : list Z :=
  match fuel with
  | O => [n]
  | S fuel => if n <? base then [n] else digits fuel base (n / base) ++ [n mod base]
  end.

(** [n] halves at least at every division, so its binary length is fuel enough. *)
Definition to_base (base n : Z) : list Z := digits (Z.to_nat (Z.log2 n)) base n.

Definition digit_char (d : Z) : byte := byte_of (if d <? 10 then 48 + d else 87 + d).

Definition fmt_u (n : Z) : bytes := digit_char <$> to_base 10 n.
Definition fmt_x (n : Z) : bytes := digit_char <$> to_base 16 n.
Definition fmt_d (n : Z) : bytes := if n <? 0 then x2d :: fmt_u (- n) else fmt_u n.

Definition pad0 (w : nat) (s : bytes) : bytes := replicate (w - length s) x30 ++ s.

(** [%03d] and [%02x] *)
Definition fmt_03d (n : Z) : bytes :=
  if n <? 0 then x2d :: pad0 2 (fmt_u (- n)) else pad0 3 (fmt_u n).
Definition fmt_02x (n : Z) : bytes := pad0 2 (fmt_x n).

Lemma digits_range fuel base n :
  2 <= base -> 0 <= n < base ^ Z.of_nat (S fuel) -> Forall (fun d => 0 <= d < base) (digits fuel base n).
Proof.
  intros Hb. revert n. induction fuel as [|fuel IH]; intros n Hn; cbn [digits].
  - constructor; [|constructor]. change (Z.of_nat 1) with 1 in Hn. lia.
  - destruct (Z.ltb_spec n base); [repeat constructor; lia|].
    apply Forall_app. split.
    + apply IH. rewrite Nat2Z.inj_succ, Z.pow_succ_r in Hn by lia.
      split; [apply Z.div_pos; lia|]. apply Z.div_lt_upper_bound; lia.
    + constructor; [|constructor]. apply Z.mod_pos_bound. lia.
Qed.

Lemma log2_fuel base n :
  2 <= base -> 0 <= n -> n < base ^ Z.of_nat (S (Z.to_nat (Z.log2 n))).
Proof.
  intros Hb Hn. rewrite Nat2Z.inj_succ, Z2Nat.id by apply Z.log2_nonneg.
  apply Z.lt_le_trans with (2 ^ Z.succ (Z.log2 n)).
  - destruct (Z.eq_dec n 0) as [->|]; [done|]. apply Z.log2_spec. lia.
  - apply Z.pow_le_mono_l. lia.
Qed.

Lemma to_base_range base n :
  2 <= base -> 0 <= n -> Forall (fun d => 0 <= d < base) (to_base base n).
Proof. intros. apply digits_range; [done|]. split; [done|]. by apply log2_fuel. Qed.

(** Horner evaluation of a digit string. *)
Definition horner (base : Z) (ds : list Z) : Z := foldl (fun acc d => base * acc + d) 0 ds.

Lemma horner_snoc base ds d : horner base (ds ++ [d]) = base * horner base ds + d.
Proof. unfold horner. by rewrite foldl_app. Qed.

Lemma horner_digits fuel base n : 2 <= base -> horner base (digits fuel base n) = n.
Proof.
  intros Hb. revert n. induction fuel as [|fuel IH]; intros n; cbn [digits].
  - unfold horner. cbn. lia.
  - destruct (Z.ltb_spec n base); [unfold horner; cbn; lia|].
    rewrite horner_snoc, IH. pose proof (Z.div_mod n base). lia.
Qed.

Lemma horner_to_base base n : 2 <= base -> horner base (to_base base n) = n.
Proof. apply horner_digits. Qed.

Lemma length_digits fuel base n k :
  2 <= base -> 0 <= n < base ^ Z.of_nat (S k) -> (length (digits fuel base n) <= S k)%nat.
Proof.
  intros Hb. revert n k. induction fuel as [|fuel IH]; intros n k Hn; cbn [digits]; [cbn; lia|].
  destruct (Z.ltb_spec n base); [cbn; lia|]. rewrite length_app. cbn.
  destruct k as [|k]; [change (Z.of_nat 1) with 1 in Hn; lia|].
  enough (length (digits fuel base (n / base)) <= S k)%nat by lia.
  apply IH. rewrite Nat2Z.inj_succ, Z.pow_succ_r in Hn by lia.
  split; [apply Z.div_pos; lia|]. apply Z.div_lt_upper_bound; lia.
Qed.

Lemma length_to_base base n k :
  2 <= base -> 0 <= n < base ^ Z.of_nat (S k) -> (length (to_base base n) <= S k)%nat.
Proof. apply length_digits. Qed.

Lemma to_base_nonempty base n : to_base base n <> [].
Proof.
  unfold to_base. destruct (Z.to_nat (Z.log2 n)); cbn; [done|].
  destruct (n <? base); [done|]. intros H. by apply app_eq_nil in H as [_ H].
Qed.

Lemma digit_char_inj a b :
  0 <= a < 16 -> 0 <= b < 16 -> digit_char a = digit_char b -> a = b.
Proof.
  intros Ha Hb H. apply (f_equal byte_val) in H. unfold digit_char in H.
  rewrite !byte_val_of in H.
  destruct (Z.ltb_spec a 10), (Z.ltb_spec b 10); rewrite !Z.mod_small in H by lia; lia.
Qed.

Lemma digit_char_val d : 0 <= d < 10 -> byte_val (digit_char d) = 48 + d.
Proof.
  intros. unfold digit_char. rewrite byte_val_of.
  destruct (Z.ltb_spec d 10); [|lia]. apply Z.mod_small. lia.
Qed.

Lemma digit_char_no_nul ds base :
  base <= 16 -> Forall (fun d => 0 <= d < base) ds -> no_nul (digit_char <$> ds).
Proof.
  intros Hb H. apply Forall_fmap. eapply Forall_impl; [exact H|]. cbn. intros d Hd E.
  apply (f_equal byte_val) in E. unfold digit_char in E. rewrite byte_val_of in E.
  change (byte_val NUL) with 0 in E.
  destruct (Z.ltb_spec d 10); rewrite Z.mod_small in E by lia; lia.
Qed.

Lemma to_base_inj base a b :
  2 <= base <= 16 -> 0 <= a -> 0 <= b ->
  digit_char <$> to_base base a = digit_char <$> to_base base b -> a = b.
Proof.
  intros Hb Ha Hb' H. rewrite <- (horner_to_base base a), <- (horner_to_base base b) by lia.
  f_equal. pose proof (to_base_range base a ltac:(lia) Ha) as Ra.
  pose proof (to_base_range base b ltac:(lia) Hb') as Rb. revert H Ra Rb.
  generalize (to_base base a), (to_base base b). clear -Hb.
  intros l. induction l as [|x l IH]; intros [|y l'] H Ra Rb; try done.
  inversion Ra; inversion Rb; subst. cbn in H. injection H as ? ?. f_equal; [|by apply IH].
  apply digit_char_inj; [lia..|done].
Qed.

Lemma fmt_u_inj a b : 0 <= a -> 0 <= b -> fmt_u a = fmt_u b -> a = b.
Proof. apply to_base_inj. lia. Qed.

Lemma fmt_x_inj a b : 0 <= a -> 0 <= b -> fmt_x a = fmt_x b -> a = b.
Proof. apply to_base_inj. lia. Qed.

Lemma fmt_u_no_nul n : 0 <= n -> no_nul (fmt_u n).
Proof. intros. eapply digit_char_no_nul, to_base_range; lia. Qed.

Lemma fmt_x_no_nul n : 0 <= n -> no_nul (fmt_x n).
Proof. intros. eapply (digit_char_no_nul _ 16), to_base_range; lia. Qed.

Lemma length_fmt_u n k :
  0 <= n < 10 ^ Z.of_nat (S k) -> (length (fmt_u n) <= S k)%nat.
Proof. intros. unfold fmt_u. rewrite length_fmap. by apply length_to_base. Qed.

Lemma length_fmt_x n k :
  0 <= n < 16 ^ Z.of_nat (S k) -> (length (fmt_x n) <= S k)%nat.
Proof. intros. unfold fmt_x. rewrite length_fmap. by apply length_to_base. Qed.

Lemma read_digits_spec acc ds rest :
  Forall (fun d => 0 <= d < 10) ds -> (hd NUL rest = NUL \/ isdigit (hd NUL rest) = false) ->
  read_digits acc ((digit_char <$> ds) ++ rest) = foldl (fun acc d => 10 * acc + d) acc ds.
Proof.
  intros H Hr. revert acc. induction H as [|d ds Hd _ IH]; intros acc; cbn.
  - destruct rest as [|b rest]; cbn in *; [done|].
    destruct Hr as [->| ->]; done.
  - unfold isdigit. rewrite digit_char_val by done.
    destruct (Z.leb_spec 48 (48 + d)), (Z.leb_spec (48 + d) 57); try lia. cbn.
    rewrite IH. f_equal. lia.
Qed.

Lemma digit_not_special b :
  48 <= byte_val b <= 57 -> isspace b = false /\ beqb b x2d = false /\ beqb b x2b = false.
Proof.
  intros H. unfold isspace, beqb. change (byte_val x2d) with 45. change (byte_val x2b) with 43.
  repeat split; lia.
Qed.

(** Reading back a printed number, whatever non-digit follows. *)
Lemma read_int_fmt_u n rest :
  0 <= n -> isdigit (hd NUL rest) = false -> read_int (fmt_u n ++ rest) = (false, n).
Proof.
  intros Hn Hr. pose proof (to_base_range 10 n ltac:(lia) Hn) as Hd.
  pose proof (read_digits_spec 0 _ rest Hd (or_intror Hr)) as E.
  fold (horner 10 (to_base 10 n)) in E. rewrite horner_to_base in E by lia.
  unfold read_int, fmt_u. destruct (to_base 10 n) as [|d ds] eqn:Ed.
  { by apply to_base_nonempty in Ed. }
  pose proof (Forall_inv Hd) as Hd0. cbn [fmap list_fmap app] in *. cbn [skip_space].
  destruct (digit_not_special (digit_char d)) as (-> & -> & ->); [rewrite digit_char_val; lia|].
  by rewrite E.
Qed.

Lemma strtol_fmt_u n rest :
  0 <= n <= LONG_MAX -> isdigit (hd NUL rest) = false -> strtol (fmt_u n ++ rest) = n.
Proof. intros. unfold strtol. rewrite read_int_fmt_u by (done || lia). lia. Qed.

Lemma strtol_fmt_d n rest :
  LONG_MIN <= n <= LONG_MAX -> isdigit (hd NUL rest) = false -> strtol (fmt_d n ++ rest) = n.
Proof.
  intros Hn Hr. unfold fmt_d. destruct (Z.ltb_spec n 0).
  - unfold strtol, read_int. cbn [app skip_space]. change (isspace x2d) with false. cbn iota.
    rewrite beqb_refl. pose proof (to_base_range 10 (- n) ltac:(lia) ltac:(lia)) as Hd.
    unfold fmt_u. rewrite (read_digits_spec 0 _ rest Hd (or_intror Hr)).
    fold (horner 10 (to_base 10 (- n))). rewrite horner_to_base by lia. lia.
  - apply strtol_fmt_u; [lia|done].
Qed.

(** [atoi] reads back every [int32_t] printed with [%d]. *)
Lemma atoi_fmt_d n rest :
  is_i32 n -> isdigit (hd NUL rest) = false -> atoi (fmt_d n ++ rest) = n.
Proof.
  intros Hn Hr. unfold atoi. rewrite strtol_fmt_d; [by apply i32_small| |done].
  unfold is_i32, INT32_MIN, INT32_MAX, LONG_MIN, LONG_MAX in *. lia.
Qed.

(** ** Searching *)

Fixpoint starts_with (p s : bytes) : bool :=
  match p, s with
  | [], _ => true
  | a :: p, b :: s => beqb a b && starts_with p s
  | _ :: _, [] => false
  end.

(** [s.find(p)]: the first position of [p] in [s]. *)
Fixpoint find_sub (p s : bytes) : option nat :=
  if starts_with p s then Some 0%nat
  else match s with
       | [] => None
       | _ :: s => S <$> find_sub p s
       end.

(** [memchr]/[strchr]/[find(char)]: the first position of a byte. *)
Definition find_byte (b : byte) (s : bytes) : option nat := find_sub [b] s.

Lemma starts_with_spec p s : starts_with p s = true <-> exists t, s = p ++ t.
Proof.
  revert s. induction p as [|a p IH]; intros s; cbn.
  - split; [eauto|done].
  - destruct s as [|b s]; [split; [done|intros (? & ?); done]|].
    rewrite andb_true_iff, IH. destruct (beqb_spec a b) as [->|Hne].
    + split; [intros [_ (t & ->)]; eauto|intros (t & [= ->]); eauto].
    + split; [intros [? _]; done|intros (t & [= ? _]); congruence].
Qed.

Lemma starts_with_app p t : starts_with p (p ++ t) = true.
Proof. apply starts_with_spec. eauto. Qed.

Lemma find_sub_some p s i :
  find_sub p s = Some i -> exists t, s = take i s ++ p ++ t /\ i = length (take i s).
Proof.
  revert i. induction s as [|b s IH]; intros i; cbn.
  - destruct (starts_with p []) eqn:E; [|done]. intros [= <-].
    apply starts_with_spec in E as [t E]. exists t. by rewrite <- E.
  - destruct (starts_with p (b :: s)) eqn:E.
    + intros [= <-]. apply starts_with_spec in E as [t E]. exists t. by rewrite E.
    + destruct (find_sub p s) as [j|]; [|done]. intros [= <-].
      destruct (IH j eq_refl) as (t & Hs & Hl). exists t. cbn. by rewrite <- Hs, <- Hl.
Qed.

(** [find] returns the first occurrence when none starts earlier. *)
Lemma find_sub_first p a t :
  (forall i, (i < length a)%nat -> starts_with p (drop i (a ++ p ++ t)) = false) ->
  find_sub p (a ++ p ++ t) = Some (length a).
Proof.
  induction a as [|b a IH]; intros H.
  - cbn [app length]. destruct (p ++ t) eqn:E; cbn [find_sub]; rewrite <- E, starts_with_app; done.
  - pose proof (H 0%nat ltac:(cbn; lia)) as H0. rewrite drop_0 in H0.
    cbn [app find_sub]. cbn [app] in H0. rewrite H0, IH; [done|].
    intros i Hi. specialize (H (S i)). cbn in H. apply H. lia.
Qed.

Lemma find_byte_first b a t : b ∉ a -> find_byte b (a ++ b :: t) = Some (length a).
Proof.
  intros H. apply (find_sub_first [b] a t). intros i Hi.
  change ([b] ++ t) with (b :: t). destruct (drop i (a ++ b :: t)) as [|c s] eqn:E; cbn; [done|].
  destruct (beqb_spec b c) as [<-|]; cbn; [|done]. exfalso. apply H.
  apply list_elem_of_lookup_2 with i. rewrite <- (lookup_app_l a (b :: t)) by done.
  rewrite <- (Nat.add_0_r i), <- lookup_drop. by rewrite E.
Qed.

(** [s.substr(pos, n)] for [pos] inside the string. *)
Definition substr (pos n : nat) (s : bytes) : bytes := take n (drop pos s).

(** ** Formatted output and line input *)

(** [snprintf(buf, size, ...)] producing [s]: what is stored at [buf]; the
    value returned is the length of [s]. *)
Definition snprintf_out (size : Z) (s : bytes) : bytes :=
  if size <=? 0 then [] else take (Z.to_nat (size - 1)) s ++ [NUL].

Fixpoint get_line (n : nat) (file : bytes) : bytes * bytes :=
  match n, file with
  | S n, b :: file =>
      if beqb b x0a then ([b], file)
      else let '(l, rest) := get_line n file in (b :: l, rest)
  | _, _ => ([], file)
  end.

(** [fgets(buf, size, fp)]: the characters stored (before the NUL) and the
    rest of the file; [None] at end of file. *)
Definition fgets (size : nat) (file : bytes) : option (bytes * bytes) :=
  match file with
  | [] => None
  | _ => Some (get_line (size - 1) file)
  end.

Lemma get_line_app n file l rest : get_line n file = (l, rest) -> l ++ rest = file.
Proof.
  revert file l. induction n as [|n IH]; intros [|b file] l; cbn; intros; simplify_eq/=; [done..|].
  destruct (beqb b x0a); [by simplify_eq|].
  destruct (get_line n file) as [l' rest'] eqn:E. simplify_eq. cbn. f_equal. by apply IH.
Qed.

Lemma length_get_line n file : (length (get_line n file).1 <= n)%nat.
Proof.
  revert file. induction n as [|n IH]; intros [|b file]; cbn; try lia.
  destruct (beqb b x0a); cbn; [lia|]. specialize (IH file).
  destruct (get_line n file); cbn in *; lia.
Qed.

(** A line that fits is read whole, newline included. *)
Lemma get_line_newline n l rest :
  x0a ∉ l -> (length l < n)%nat -> get_line n (l ++ x0a :: rest) = (l ++ [x0a], rest).
Proof.
  revert n. induction l as [|b l IH]; intros n Hl Hn; destruct n as [|n]; cbn in *; try lia; [done|].
  apply not_elem_of_cons in Hl as [Hb Hl]. destruct (beqb_spec b x0a) as [->|]; [done|].
  rewrite IH by (done || lia). done.
Qed.

(** A last line without newline is read whole. *)
Lemma get_line_eof n l : x0a ∉ l -> (length l <= n)%nat -> get_line n l = (l, []).
Proof.
  revert n. induction l as [|b l IH]; intros n Hl Hn; destruct n as [|n]; cbn in *; try lia; [done..|].
  apply not_elem_of_cons in Hl as [Hb Hl]. destruct (beqb_spec b x0a) as [->|]; [done|].
  rewrite IH by (done || lia). done.
Qed.

Lemma fgets_shorter size file l rest :
  (2 <= size)%nat -> fgets size file = Some (l, rest) -> (length rest < length file)%nat.
Proof.
  unfold fgets. intros Hs. destruct file as [|b file]; [done|]. intros [= H].
  pose proof (get_line_app _ _ _ _ H) as E. rewrite <- E, length_app.
  destruct (size - 1)%nat as [|n] eqn:En; [lia|]. cbn in H.
  destruct (beqb b x0a); [simplify_eq; cbn; lia|].
  destruct (get_line n file). simplify_eq. cbn. lia.
Qed.

Lemma length_fgets size file l rest :
  fgets size file = Some (l, rest) -> (length l <= size - 1)%nat.
Proof.
  unfold fgets. destruct file as [|b file]; [done|]. intros [= H].
  pose proof (length_get_line (size - 1) (b :: file)) as Hl. by rewrite H in Hl.
Qed.
