(* ===== verification/QQueue.v ===== *)
(** * QQueue: the circular queue of src/include/common/qqueue.h

    [BoundedFifo] is what a client may assume of a bounded first-in first-out
    queue; [Ring] models [QQueue], the circular buffer the server keeps its
    client records in, and discharges the interface. *)
From S2P Require Import Prelude.

(** ** What a client may assume of a bounded first-in first-out queue *)

Class BoundedFifo (A Q : Type) : Type := {
  fifo_ok : Q -> Prop;
  fifo_items : Q -> list A;
  fifo_cap : Q -> Z;
  fifo_push : A -> Q -> option Q;
  fifo_pop : Q -> option (A * Q);
  fifo_bound q : fifo_ok q -> Z.of_nat (length (fifo_items q)) <= fifo_cap q;
  fifo_push_room x q :
    fifo_ok q -> Z.of_nat (length (fifo_items q)) < fifo_cap q ->
    exists q', fifo_push x q = Some q' /\ fifo_ok q' /\
               fifo_items q' = fifo_items q ++ [x] /\ fifo_cap q' = fifo_cap q;
  fifo_push_full x q :
    fifo_ok q -> Z.of_nat (length (fifo_items q)) = fifo_cap q -> fifo_push x q = None;
  fifo_pop_nil q : fifo_ok q -> fifo_items q = [] -> fifo_pop q = None;
  fifo_pop_cons x xs q :
    fifo_ok q -> fifo_items q = x :: xs ->
    exists q', fifo_pop q = Some (x, q') /\ fifo_ok q' /\ fifo_items q' = xs /\
               fifo_cap q' = fifo_cap q
}.

(** ** QQueue: circular buffer holding at most [max_size_ - 1] items *)
Module Ring.

Record QQueue (A : Type) : Type := mkQQueue {
  queue_ : list A;
  max_size_ : Z;
  front_ : Z;
  rear_ : Z
}.
Arguments mkQQueue {A}.
Arguments queue_ {A}.
Arguments max_size_ {A}.
Arguments front_ {A}.
Arguments rear_ {A}.

Abbreviation max_size := max_size_ (only parsing).

Section ops.
Context {A : Type}.
Implicit Types (q : QQueue A) (x : A).

(** The constructor: no storage, everything zero. *)
Definition QQueue_new : QQueue A := mkQQueue [] 0 0 0.

(** [init]; [mem] is what [q_new_array] returned, [None] for NULL. *)
Definition init (size : Z) (mem : option (list A)) (q : QQueue A) : Z * QQueue A :=
  if size <=? 0 then (-1, q)
  else match mem with
       | None => (-2, mkQQueue [] size (front_ q) (rear_ q))
       | Some l => (0, mkQQueue l size 0 0)
       end.

Definition clear q : QQueue A := mkQQueue (queue_ q) (max_size_ q) 0 0.

(** [(rear_-front_+max_size_)%max_size_] in [int32_t] arithmetic. *)
Definition size q : Z := Z.rem (i32 (rear_ q - front_ q + max_size_ q)) (max_size_ q).

Definition full q : bool := Z.rem (i32 (rear_ q + 1)) (max_size_ q) =? front_ q.

Definition empty q : bool := front_ q =? rear_ q.

(** The two statements executed with the mutex held and room available. *)
Definition enqueue x q : QQueue A :=
  mkQQueue (<[Z.to_nat (rear_ q) := x]> (queue_ q)) (max_size_ q) (front_ q)
           (Z.rem (i32 (rear_ q + 1)) (max_size_ q)).

Definition dequeue q : option (A * QQueue A) :=
  x ← queue_ q !! Z.to_nat (front_ q);
  Some (x, mkQQueue (queue_ q) (max_size_ q)
                    (Z.rem (i32 (front_ q + 1)) (max_size_ q)) (rear_ q)).

(** One turn of the loop of [push]: [None] when the queue is full and the
    caller sleeps and tries again. *)
Definition push x q : option (QQueue A) :=
  if full q then None else Some (enqueue x q).

(** One turn of the loop of [pop]: [None] when the queue is empty. *)
Definition pop q : option (A * QQueue A) :=
  if empty q then None else dequeue q.

Definition push_non_blocking x q : Z * QQueue A :=
  if full q then (-1, q) else (0, enqueue x q).

(** The result code, the item stored through the reference, the new queue. *)
Definition pop_non_blocking q : Z * option A * QQueue A :=
  if empty q then (-1, None, q)
  else match dequeue q with
       | Some (x, q') => (0, Some x, q')
       | None => (0, None, q)
       end.

(** *** Abstraction: the items from [front_] up to [rear_] *)

Fixpoint ring_read (l : list A) (m pos : Z) (n : nat) : list A :=
  match n with
  | O => []
  | S n => match l !! Z.to_nat pos with
           | Some x => x :: ring_read l m ((pos + 1) mod m) n
           | None => []
           end
  end.

Definition count q : Z := (rear_ q - front_ q) mod max_size_ q.

Definition contents q : list A :=
  ring_read (queue_ q) (max_size_ q) (front_ q) (Z.to_nat (count q)).

(** Type invariant: storage of the declared size, indices inside it. *)
Definition wf q : Prop :=
  0 < max_size_ q <= INT32_MAX /\
  Z.of_nat (length (queue_ q)) = max_size_ q /\
  0 <= front_ q < max_size_ q /\
  0 <= rear_ q < max_size_ q.

(** *** Arithmetic of ring positions *)

Lemma next_pos m p :
  0 < m <= INT32_MAX -> 0 <= p < m -> Z.rem (i32 (p + 1)) m = (p + 1) mod m.
Proof.
  intros Hm Hp. rewrite i32_small by (unfold is_i32, INT32_MIN; lia).
  apply Z.rem_mod_nonneg; lia.
Qed.

Lemma mod_wrap m p : 0 < m -> 0 <= p < 2 * m -> p mod m = if p <? m then p else p - m.
Proof.
  intros Hm Hp. destruct (Z.ltb_spec p m).
  - apply Z.mod_small. lia.
  - rewrite <- (Z.mod_add p (-1) m) by lia. apply Z.mod_small. lia.
Qed.

Lemma count_cases q :
  wf q -> count q = if front_ q <=? rear_ q then rear_ q - front_ q
                    else rear_ q - front_ q + max_size_ q.
Proof.
  intros (Hm & _ & Hf & Hr). unfold count.
  destruct (Z.leb_spec (front_ q) (rear_ q)).
  - apply Z.mod_small. lia.
  - rewrite <- (Z.mod_add _ 1) by lia. rewrite Z.mod_small; lia.
Qed.

Lemma count_range q : wf q -> 0 <= count q < max_size_ q.
Proof. intros (Hm & _). apply Z.mod_pos_bound. lia. Qed.

Lemma full_spec q : wf q -> full q = (count q =? max_size_ q - 1).
Proof.
  intros Hq. pose proof Hq as (Hm & _ & Hf & Hr).
  unfold full. rewrite next_pos, count_cases, mod_wrap by (done || lia).
  destruct (Z.ltb_spec (rear_ q + 1) (max_size_ q));
    destruct (Z.leb_spec (front_ q) (rear_ q)); lia.
Qed.

Lemma empty_spec q : wf q -> empty q = (count q =? 0).
Proof.
  intros Hq. pose proof Hq as (Hm & _ & Hf & Hr).
  unfold empty. rewrite count_cases by done.
  destruct (Z.leb_spec (front_ q) (rear_ q)); lia.
Qed.

(** *** Reading the ring *)

Lemma ring_read_snoc l m pos n x :
  0 < m -> Z.of_nat (length l) = m -> 0 <= pos < m ->
  l !! Z.to_nat ((pos + Z.of_nat n) mod m) = Some x ->
  ring_read l m pos (S n) = ring_read l m pos n ++ [x].
Proof.
  intros Hm Hl. revert pos. induction n as [|n IH]; intros pos Hp Hx.
  - simpl. rewrite Z.add_0_r, Z.mod_small in Hx by lia. by rewrite Hx.
  - destruct (lookup_lt_is_Some_2 l (Z.to_nat pos)) as [y Hy]; [lia|].
    assert (ring_read l m ((pos + 1) mod m) (S n)
            = ring_read l m ((pos + 1) mod m) n ++ [x]) as E.
    { apply IH; [apply Z.mod_pos_bound; lia|].
      rewrite Z.add_mod_idemp_l by lia.
      by replace (pos + 1 + Z.of_nat n) with (pos + Z.of_nat (S n)) by lia. }
    cbn [ring_read] in E |- *. rewrite Hy. cbn [app]. by rewrite <- E.
Qed.

Lemma ring_read_insert l m pos n k x :
  0 < m -> Z.of_nat (length l) = m -> 0 <= pos < m ->
  (forall i, 0 <= i < Z.of_nat n -> Z.to_nat ((pos + i) mod m) <> k) ->
  ring_read (<[k := x]> l) m pos n = ring_read l m pos n.
Proof.
  intros Hm Hl. revert pos. induction n as [|n IH]; intros pos Hp Hk; [done|].
  cbn [ring_read]. rewrite list_lookup_insert_ne.
  2: { specialize (Hk 0 ltac:(lia)). rewrite Z.add_0_r, Z.mod_small in Hk; lia. }
  rewrite IH; [done|apply Z.mod_pos_bound; lia|].
  intros i Hi. rewrite Z.add_mod_idemp_l by lia.
  specialize (Hk (i + 1) ltac:(lia)). by replace (pos + 1 + i) with (pos + (i + 1)) by lia.
Qed.

Lemma length_ring_read l m pos n :
  0 < m -> Z.of_nat (length l) = m -> 0 <= pos < m ->
  length (ring_read l m pos n) = n.
Proof.
  intros Hm Hl. revert pos. induction n as [|n IH]; intros pos Hp; [done|].
  cbn [ring_read].
  destruct (lookup_lt_is_Some_2 l (Z.to_nat pos)) as [y Hy]; [lia|]. rewrite Hy.
  cbn [length]. f_equal. apply IH, Z.mod_pos_bound. lia.
Qed.

Lemma length_contents q : wf q -> Z.of_nat (length (contents q)) = count q.
Proof.
  intros Hq. pose proof (count_range q Hq). destruct Hq as (Hm & Hl & Hf & Hr).
  unfold contents. rewrite length_ring_read; lia.
Qed.

(** *** Each operation against the list it represents *)

Lemma init_spec size l q :
  0 < size <= INT32_MAX -> Z.of_nat (length l) = size ->
  exists q', init size (Some l) q = (0, q') /\ wf q' /\ contents q' = [].
Proof.
  intros Hs Hl. unfold init. destruct (Z.leb_spec size 0); [lia|].
  eexists. split; [done|]. unfold wf, contents, count. cbn.
  rewrite Z.mod_0_l by lia. repeat split; (done || lia).
Qed.

Lemma clear_spec q : wf q -> wf (clear q) /\ contents (clear q) = [].
Proof.
  intros (Hm & Hl & Hf & Hr). unfold wf, contents, count, clear; cbn.
  rewrite Z.mod_0_l by lia. repeat split; (done || lia).
Qed.

Lemma size_spec q :
  wf q -> max_size_ q <= 2 ^ 30 -> size q = Z.of_nat (length (contents q)).
Proof.
  intros Hq Hb. rewrite length_contents by done.
  pose proof Hq as (Hm & _ & Hf & Hr). unfold size, count.
  rewrite i32_small by (unfold is_i32, INT32_MIN, INT32_MAX; lia).
  rewrite Z.rem_mod_nonneg by lia.
  rewrite <- (Z.mod_add (rear_ q - front_ q) 1) by lia. f_equal. lia.
Qed.

Lemma empty_contents q : wf q -> empty q = true <-> contents q = [].
Proof.
  intros Hq. rewrite empty_spec by done. rewrite Z.eqb_eq.
  pose proof (length_contents q Hq) as Hl. split; intros H.
  - apply nil_length_inv. lia.
  - rewrite H in Hl. simpl in Hl. lia.
Qed.

Lemma full_contents q :
  wf q -> full q = true <-> Z.of_nat (length (contents q)) = max_size_ q - 1.
Proof.
  intros Hq. rewrite full_spec, length_contents by done. apply Z.eqb_eq.
Qed.

Lemma enqueue_spec x q :
  wf q -> full q = false ->
  wf (enqueue x q) /\ contents (enqueue x q) = contents q ++ [x] /\
  max_size_ (enqueue x q) = max_size_ q.
Proof.
  intros Hq Hfull. pose proof (count_range q Hq) as Hcr.
  rewrite full_spec, Z.eqb_neq in Hfull by done.
  pose proof Hq as (Hm & Hl & Hf & Hr).
  assert (wf (enqueue x q)) as Hq'.
  { unfold wf, enqueue; cbn. rewrite length_insert, next_pos by lia.
    pose proof (Z.mod_pos_bound (rear_ q + 1) (max_size_ q)). lia. }
  split; [done|]. split; [|done].
  assert (count (enqueue x q) = count q + 1) as Hc.
  { unfold count, enqueue; cbn. rewrite next_pos by lia.
    rewrite Zminus_mod_idemp_l.
    replace (rear_ q + 1 - front_ q) with (rear_ q - front_ q + 1) by lia.
    rewrite <- Z.add_mod_idemp_l by lia. apply Z.mod_small.
    fold (count q). lia. }
  unfold contents. rewrite Hc. replace (Z.to_nat (count q + 1)) with (S (Z.to_nat (count q))) by lia.
  assert ((front_ q + Z.of_nat (Z.to_nat (count q))) mod max_size_ q = rear_ q) as Hrear.
  { rewrite Z2Nat.id by lia. unfold count. rewrite Z.add_mod_idemp_r by lia.
    replace (front_ q + (rear_ q - front_ q)) with (rear_ q) by lia.
    apply Z.mod_small. lia. }
  erewrite ring_read_snoc with (x := x); cbn; [|lia|by rewrite length_insert|lia|].
  2: { rewrite Hrear. apply list_lookup_insert_eq. lia. }
  f_equal. apply ring_read_insert; [lia|done|lia|].
  intros i Hi Heq. rewrite mod_wrap in Heq by lia. rewrite count_cases in Hi, Hcr by done.
  destruct (Z.ltb_spec (front_ q + i) (max_size_ q));
    destruct (Z.leb_spec (front_ q) (rear_ q)); lia.
Qed.

Lemma dequeue_spec q :
  wf q -> empty q = false ->
  exists x q', dequeue q = Some (x, q') /\ wf q' /\ contents q = x :: contents q' /\
               max_size_ q' = max_size_ q.
Proof.
  intros Hq Hne. pose proof (count_range q Hq) as Hcr.
  rewrite empty_spec, Z.eqb_neq in Hne by done.
  pose proof Hq as (Hm & Hl & Hf & Hr).
  destruct (lookup_lt_is_Some_2 (queue_ q) (Z.to_nat (front_ q))) as [x Hx]; [lia|].
  unfold dequeue. rewrite Hx. cbn. eexists x, _. split; [done|].
  rewrite next_pos by lia.
  pose proof (Z.mod_pos_bound (front_ q + 1) (max_size_ q)).
  split; [unfold wf; cbn; lia|]. split; [|done].
  unfold contents, count; cbn.
  rewrite Zminus_mod_idemp_r.
  assert ((rear_ q - (front_ q + 1)) mod max_size_ q = count q - 1) as ->.
  { replace (rear_ q - (front_ q + 1)) with (rear_ q - front_ q + -1) by lia.
    rewrite <- Z.add_mod_idemp_l by lia. apply Z.mod_small. fold (count q). lia. }
  fold (count q).
  replace (Z.to_nat (count q)) with (S (Z.to_nat (count q - 1))) by lia.
  cbn [ring_read]. by rewrite Hx.
Qed.

(** *** Sequences of calls against an unbounded-list specification *)

Inductive call : Type :=
  | CPush (x : A)
  | CPop
  | CClear
  | CSize.

Inductive reply : Type :=
  | RCode (ret : Z)
  | RItem (ret : Z) (x : option A)
  | RSize (n : Z).

Definition exec (c : call) q : reply * QQueue A :=
  match c with
  | CPush x => let '(r, q') := push_non_blocking x q in (RCode r, q')
  | CPop => let '(r, x, q') := pop_non_blocking q in (RItem r x, q')
  | CClear => (RCode 0, clear q)
  | CSize => (RSize (size q), q)
  end.

Fixpoint exec_all (cs : list call) q : list reply * QQueue A :=
  match cs with
  | [] => ([], q)
  | c :: cs => let '(r, q1) := exec c q in
               let '(rs, q2) := exec_all cs q1 in (r :: rs, q2)
  end.

(** The specification: a list bounded by [cap]. *)
Definition spec_exec (cap : Z) (c : call) (xs : list A) : reply * list A :=
  match c with
  | CPush x => if Z.of_nat (length xs) <? cap then (RCode 0, xs ++ [x]) else (RCode (-1), xs)
  | CPop => match xs with
            | [] => (RItem (-1) None, [])
            | x :: xs => (RItem 0 (Some x), xs)
            end
  | CClear => (RCode 0, [])
  | CSize => (RSize (Z.of_nat (length xs)), xs)
  end.

Fixpoint spec_exec_all (cap : Z) (cs : list call) (xs : list A) : list reply * list A :=
  match cs with
  | [] => ([], xs)
  | c :: cs => let '(r, xs1) := spec_exec cap c xs in
               let '(rs, xs2) := spec_exec_all cap cs xs1 in (r :: rs, xs2)
  end.

Lemma full_iff_cap q :
  wf q -> (Z.of_nat (length (contents q)) <? max_size_ q - 1) = negb (full q).
Proof.
  intros Hq. rewrite full_spec, length_contents by done.
  pose proof (count_range q Hq). lia.
Qed.

Lemma exec_refines c q :
  wf q -> max_size_ q <= 2 ^ 30 ->
  exists q', exec c q = (fst (spec_exec (max_size_ q - 1) c (contents q)), q') /\
    contents q' = snd (spec_exec (max_size_ q - 1) c (contents q)) /\
    wf q' /\ max_size_ q' = max_size_ q.
Proof.
  intros Hq Hb. destruct c as [x| | |]; cbn [exec spec_exec].
  - rewrite full_iff_cap by done. unfold push_non_blocking.
    destruct (full q) eqn:Hfull; cbn; [by exists q|].
    destruct (enqueue_spec x q Hq Hfull) as (? & ? & ?). eauto.
  - unfold pop_non_blocking. destruct (empty q) eqn:He.
    + pose proof (proj1 (empty_contents q Hq) He) as Hc. rewrite Hc. by exists q.
    + destruct (dequeue_spec q Hq He) as (x & q' & -> & ? & -> & ?). cbn. by exists q'.
  - destruct (clear_spec q Hq). by exists (clear q).
  - rewrite size_spec by done. by exists q.
Qed.

End ops.

Arguments call : clear implicits.
Arguments reply : clear implicits.

#[global] Program Instance ring_fifo (A : Type) : BoundedFifo A (QQueue A) := {|
  fifo_ok := wf;
  fifo_items := contents;
  fifo_cap q := max_size_ q - 1;
  fifo_push := push;
  fifo_pop := pop
|}.
Next Obligation.
  intros A q Hq. rewrite length_contents by done. pose proof (count_range q Hq). lia.
Qed.
Next Obligation.
  intros A x q Hq Hroom. unfold push.
  destruct (full q) eqn:Hf; [rewrite full_contents in Hf by done; lia|].
  destruct (enqueue_spec x q Hq Hf) as (? & ? & Hm). eexists; split; [done|].
  by rewrite Hm.
Qed.
Next Obligation.
  intros A x q Hq Hc. unfold push. by rewrite (proj2 (full_contents q Hq)).
Qed.
Next Obligation.
  intros A q Hq Hc. unfold pop. by rewrite (proj2 (empty_contents q Hq)).
Qed.
Next Obligation.
  intros A x xs q Hq Hc. unfold pop. destruct (empty q) eqn:He.
  { apply empty_contents in He; [congruence|done]. }
  destruct (dequeue_spec q Hq He) as (y & q' & -> & ? & Hc' & Hm).
  rewrite Hc in Hc'. simplify_eq. eexists; split; [done|]. by rewrite Hm.
Qed.

(** C16. Any sequence of the non-blocking calls, with [clear] and [size], answers
    exactly as a first-in first-out list of at most [max_size_ - 1] items, and
    leaves the ring holding that list. *)
Theorem exec_all_refines {A : Type} (cs : list (call A)) (q : QQueue A) :
  wf q -> max_size_ q <= 2 ^ 30 ->
  exists q', exec_all cs q = (fst (spec_exec_all (max_size_ q - 1) cs (contents q)), q') /\
    contents q' = snd (spec_exec_all (max_size_ q - 1) cs (contents q)) /\ wf q'.
Proof.
  revert q. induction cs as [|c cs IH]; intros q Hq Hb; [by exists q|].
  cbn [exec_all spec_exec_all].
  destruct (exec_refines c q Hq Hb) as (q1 & -> & Hc1 & Hq1 & Hm1).
  destruct (spec_exec (max_size_ q - 1) c (contents q)) as [r xs1]. cbn in *.
  destruct (IH q1 Hq1 ltac:(lia)) as (q2 & -> & Hc2 & Hq2).
  rewrite Hc1, Hm1 in *.
  destruct (spec_exec_all (max_size_ q - 1) cs xs1) as [rs xs2]. cbn in *. by exists q2.
Qed.

Lemma exec_all_refines_witness :
  let q := mkQQueue [0; 0; 0] 3 0 0 in
  exists q', exec_all [CPush 1; CPush 2; CPush 3; CPop; CSize; CPush 4; CPop; CPop; CPop] q =
    ([RCode 0; RCode 0; RCode (-1); RItem 0 (Some 1); RSize 1; RCode 0; RItem 0 (Some 2);
      RItem 0 (Some 4); RItem (-1) None], q') /\ contents q' = [] /\ wf q'.
Proof.
  apply (exec_all_refines
           [CPush 1; CPush 2; CPush 3; CPop; CSize; CPush 4; CPop; CPop; CPop]
           (mkQQueue [0; 0; 0] 3 0 0)); [|cbn; lia].
  repeat split; cbn; unfold INT32_MAX; lia.
Defined.

End Ring.
