(* ===== verification/QListQueue.v ===== *)
(** * QListQueue: the linked queue of src/include/common/qqueue.h

    The nodes live in an explicit store, so that a pointer to a freed node or
    NULL is a visible fault; an allocation is an argument of the operation
    that performs it.  [rep] relates a queue to the list of its nodes, and the
    trace theorem refines every sequence of calls to a bounded deque. *)

From S2P Require Import Prelude.

(** ** QListQueue: singly linked nodes in a store *)
Module Linked.

Record QListQueue (A : Type) : Type := mkQListQueue {
  store : gmap nat (A * option nat);
  front_ : option nat;
  rear_ : option nat;
  now_size_ : Z;
  max_size_ : Z
}.
Arguments mkQListQueue {A}.
Arguments store {A}.
Arguments front_ {A}.
Arguments rear_ {A}.
Arguments now_size_ {A}.
Arguments max_size_ {A}.

(** One turn of a blocking loop: the condition does not hold and the caller
    sleeps, a pointer that is not a live node is dereferenced, or the call
    returns. *)
Inductive turn (R Q : Type) : Type :=
  | Blocked
  | Fault
  | Done (ret : R) (q : Q).
Arguments Blocked {R Q}.
Arguments Fault {R Q}.
Arguments Done {R Q}.

Abbreviation size := now_size_ (only parsing).
Abbreviation max_size := max_size_ (only parsing).
Abbreviation empty q := (now_size_ q =? 0)%Z (only parsing).
Abbreviation full q := (now_size_ q =? max_size_ q)%Z (only parsing).

Section ops.
Context {A : Type}.
Implicit Types (q : QListQueue A) (x : A).

Definition QListQueue_new (size : Z) : QListQueue A := mkQListQueue ∅ None None 0 size.

(** [alloc] is the address [new(std::nothrow)] returned, [None] for NULL. *)
Definition push x (alloc : option nat) q : turn Z (QListQueue A) :=
  if full q then Blocked
  else match front_ q with
       | None =>
           match alloc with
           | None => Done (-1) (mkQListQueue (store q) None None (now_size_ q) (max_size_ q))
           | Some l =>
               Done 0 (mkQListQueue (<[l := (x, None)]> (store q)) (Some l) (Some l)
                                    (now_size_ q + 1) (max_size_ q))
           end
       | Some _ =>
           match rear_ q with
           | None => Fault
           | Some r =>
               match store q !! r with
               | None => Fault
               | Some (y, _) =>
                   match alloc with
                   | None =>
                       Done (-2) (mkQListQueue (<[r := (y, None)]> (store q)) (front_ q)
                                               (rear_ q) (now_size_ q) (max_size_ q))
                   | Some l =>
                       Done 0 (mkQListQueue (<[l := (x, None)]> (<[r := (y, Some l)]> (store q)))
                                            (front_ q) (Some l) (now_size_ q + 1) (max_size_ q))
                   end
               end
           end
       end.

Definition push_urgent x (alloc : option nat) q : turn Z (QListQueue A) :=
  if full q then Blocked
  else match front_ q with
       | None =>
           match alloc with
           | None => Done (-1) (mkQListQueue (store q) None None (now_size_ q) (max_size_ q))
           | Some l =>
               Done 0 (mkQListQueue (<[l := (x, None)]> (store q)) (Some l) (Some l)
                                    (now_size_ q + 1) (max_size_ q))
           end
       | Some p =>
           (* the NULL test is on the old head [p], not on the new node *)
           match alloc with
           | None =>
               Done 0 (mkQListQueue (store q) None (rear_ q) (now_size_ q + 1) (max_size_ q))
           | Some l =>
               Done 0 (mkQListQueue (<[l := (x, Some p)]> (store q)) (Some l) (rear_ q)
                                    (now_size_ q + 1) (max_size_ q))
           end
       end.

Definition pop q : turn A (QListQueue A) :=
  if empty q then Blocked
  else match front_ q with
       | None => Fault
       | Some p =>
           match store q !! p with
           | None => Fault
           | Some (x, nxt) =>
               Done x (mkQListQueue (delete p (store q)) nxt (rear_ q)
                                    (now_size_ q - 1) (max_size_ q))
           end
       end.

(** The loop of [clear]; [None] when a freed node is dereferenced or the fuel
    (one unit per node of the store) runs out. *)
Fixpoint clear_loop (fuel : nat) q : option (QListQueue A) :=
  match front_ q, fuel with
  | None, _ => Some q
  | Some p, S fuel =>
      match store q !! p with
      | None => None
      | Some (_, nxt) =>
          clear_loop fuel (mkQListQueue (delete p (store q)) nxt (rear_ q)
                                        (now_size_ q - 1) (max_size_ q))
      end
  | Some _, O => None
  end.

Definition clear q : option (QListQueue A) := clear_loop (base.size (store q)) q.

(** *** Representation: the nodes reachable from [front_], in order *)

Fixpoint chain (h : gmap nat (A * option nat)) (p : option nat) (ls : list (nat * A)) : Prop :=
  match ls with
  | [] => p = None
  | (l, x) :: ls => p = Some l /\ exists nxt, h !! l = Some (x, nxt) /\ chain h nxt ls
  end.

Definition rep q (ls : list (nat * A)) : Prop :=
  chain (store q) (front_ q) ls /\ NoDup ls.*1 /\
  (ls <> [] -> rear_ q = fst <$> last ls) /\
  now_size_ q = Z.of_nat (length ls) /\ now_size_ q <= max_size_ q.

Lemma chain_insert_ne h p ls l n :
  l ∉ ls.*1 -> chain h p ls -> chain (<[l := n]> h) p ls.
Proof.
  revert p. induction ls as [|[l' x] ls IH]; intros p Hl; cbn; [done|].
  intros (-> & nxt & Hn & Hc). split; [done|]. exists nxt.
  rewrite fmap_cons, not_elem_of_cons in Hl. destruct Hl as [Hne Hl].
  rewrite lookup_insert_ne by done. auto.
Qed.

Lemma chain_delete_ne h p ls l :
  l ∉ ls.*1 -> chain h p ls -> chain (delete l h) p ls.
Proof.
  revert p. induction ls as [|[l' x] ls IH]; intros p Hl; cbn; [done|].
  intros (-> & nxt & Hn & Hc). split; [done|]. exists nxt.
  rewrite fmap_cons, not_elem_of_cons in Hl. destruct Hl as [Hne Hl].
  rewrite lookup_delete_ne by done. auto.
Qed.

Lemma chain_dom h p ls l : chain h p ls -> h !! l = None -> l ∉ ls.*1.
Proof.
  revert p. induction ls as [|[l' x] ls IH]; intros p; cbn; [set_solver|].
  intros (-> & nxt & Hn & Hc) Hl. apply not_elem_of_cons.
  split; [congruence|]. eauto.
Qed.

(** Appending a node after the last one. *)
Lemma chain_snoc h p ls r y l x :
  NoDup (ls ++ [(r, y)]).*1 -> h !! l = None -> chain h p (ls ++ [(r, y)]) ->
  chain (<[l := (x, None)]> (<[r := (y, Some l)]> h)) p (ls ++ [(r, y); (l, x)]).
Proof.
  intros Hnd Hl. revert p. induction ls as [|[l' z] ls IH]; intros p; cbn.
  - intros (-> & nxt & Hr & ->). split; [done|]. exists (Some l).
    rewrite lookup_insert_ne, lookup_insert_eq by congruence.
    repeat split. exists None. by rewrite lookup_insert_eq.
  - intros (-> & nxt & Hn & Hc). split; [done|]. exists nxt.
    cbn in Hnd. apply NoDup_cons in Hnd as [Hni Hnd].
    rewrite fmap_app in Hni. rewrite !lookup_insert_ne by set_solver. auto.
Qed.

Lemma rep_new m : 0 <= m -> rep (QListQueue_new m) [].
Proof. intros. unfold rep; cbn. repeat split; (done || constructor). Qed.

Lemma push_rep x l q ls :
  rep q ls -> full q = false -> store q !! l = None ->
  exists q', push x (Some l) q = Done 0 q' /\ rep q' (ls ++ [(l, x)]).
Proof.
  intros (Hc & Hnd & Hr & Hn & Hm) Hf Hl. unfold push. rewrite Hf.
  apply Z.eqb_neq in Hf.
  destruct ls as [|[r y] ls' _] using rev_ind.
  - cbn in Hc. rewrite Hc. eexists; split; [done|]. unfold rep; cbn in *.
    repeat split; try done; try lia; [|apply NoDup_singleton].
    exists None. by rewrite lookup_insert_eq.
  - assert (l ∉ (ls' ++ [(r, y)]).*1) as Hfresh by (eapply chain_dom; eauto).
    assert (is_Some (front_ q)) as [p Hp].
    { destruct ls' as [|[??]?]; destruct Hc as (-> & _); eauto. }
    rewrite Hp. rewrite Hr, last_snoc by (by destruct ls'). cbn.
    assert (exists nxt, store q !! r = Some (y, nxt)) as [nxt Hy].
    { clear -Hc. revert Hc. generalize (front_ q). induction ls' as [|[??]? IH]; intros p; cbn.
      - intros (_ & nxt & ? & _). eauto.
      - intros (_ & nxt & _ & ?). eauto. }
    rewrite Hy. eexists; split; [done|]. unfold rep; cbn.
    rewrite <- app_assoc. cbn. rewrite <- Hp.
    split; [by apply chain_snoc|]. rewrite !length_app in *. cbn in *.
    split; [|split; [intros _; by rewrite last_app|lia]].
    rewrite !fmap_app in *. cbn in *. rewrite cons_middle, app_assoc.
    apply NoDup_app. split; [done|].
    split; [|apply NoDup_singleton]. intros k Hk ->%list_elem_of_singleton. done.
Qed.

Lemma push_urgent_rep x l q ls :
  rep q ls -> full q = false -> store q !! l = None ->
  exists q', push_urgent x (Some l) q = Done 0 q' /\ rep q' ((l, x) :: ls).
Proof.
  intros (Hc & Hnd & Hr & Hn & Hm) Hf Hl. unfold push_urgent. rewrite Hf.
  apply Z.eqb_neq in Hf.
  assert (l ∉ ls.*1) as Hfresh by (eapply chain_dom; eauto).
  destruct ls as [|[r y] ls'].
  - cbn in Hc. rewrite Hc. eexists; split; [done|]. unfold rep; cbn in *.
    repeat split; try done; try lia; [|apply NoDup_singleton].
    exists None. by rewrite lookup_insert_eq.
  - pose proof Hc as (Hp & _). rewrite Hp. eexists; split; [done|]. unfold rep; cbn [store front_ rear_ now_size_ max_size_].
    split; [|split; [|split; [|cbn in *; lia]]].
    + split; [done|]. exists (Some r). rewrite lookup_insert_eq. split; [done|].
      apply chain_insert_ne; [done|]. by rewrite <- Hp.
    + by apply NoDup_cons.
    + intros _. rewrite Hr by done. done.
Qed.

Lemma pop_rep q l x ls :
  rep q ((l, x) :: ls) -> exists q', pop q = Done x q' /\ rep q' ls.
Proof.
  intros ((Hp & nxt & Hl & Hc) & Hnd & Hr & Hn & Hm). unfold pop.
  cbn in Hn. destruct (Z.eqb_spec (now_size_ q) 0); [lia|].
  rewrite Hp, Hl. eexists; split; [done|]. unfold rep; cbn.
  apply NoDup_cons in Hnd as [Hni Hnd].
  split; [by apply chain_delete_ne|]. split; [done|]. split; [|lia].
  intros Hne. rewrite Hr by done. by destruct ls.
Qed.

Lemma clear_rep q ls : rep q ls -> exists q', clear q = Some q' /\ rep q' [].
Proof.
  intros Hrep. unfold clear.
  assert (length ls <= base.size (store q))%nat as Hfuel.
  { destruct Hrep as (Hc & Hnd & _). revert Hnd Hc. generalize (front_ q).
    generalize (store q). clear. induction ls as [|[l x] ls IH]; intros h p Hnd; cbn; [lia|].
    intros (_ & nxt & Hl & Hc). apply NoDup_cons in Hnd as [Hni Hnd].
    specialize (IH (delete l h) nxt Hnd (chain_delete_ne _ _ _ _ Hni Hc)).
    rewrite map_size_delete_Some in IH by eauto.
    assert (base.size h <> 0)%nat; [|lia].
    apply map_size_ne_0_lookup. exists l. rewrite Hl. eauto. }
  revert Hfuel Hrep. generalize (base.size (store q)) as fuel. intros fuel. revert q ls.
  induction fuel as [|fuel IH]; intros q ls Hfuel Hrep.
  - destruct ls; [|cbn in Hfuel; lia]. exists q. pose proof Hrep as (Hc & _). cbn in Hc. cbn. by rewrite Hc.
  - destruct ls as [|[l x] ls].
    + exists q. pose proof Hrep as (Hc & _). cbn in Hc. cbn. by rewrite Hc.
    + pose proof (pop_rep q l x ls Hrep) as (q' & Hpop & Hrep').
      pose proof Hrep as ((Hp & nxt & Hl & Hc) & _). cbn. rewrite Hp, Hl.
      unfold pop in Hpop. rewrite Hp, Hl in Hpop. destruct (empty q); [done|].
      simplify_eq. apply (IH _ ls); [cbn in Hfuel; lia|done].
Qed.

(** *** Traces of calls against a bounded double-ended list *)

Inductive call : Type :=
  | CPush (x : A)
  | CUrgent (x : A)
  | CPop
  | CClear.

Inductive reply : Type :=
  | RSleep
  | RRet (r : Z)
  | RItem (x : A)
  | RFault.

Definition reply_of {R} (f : R -> reply) q (t : turn R (QListQueue A)) : reply * QListQueue A :=
  match t with
  | Blocked => (RSleep, q)
  | Fault => (RFault, q)
  | Done r q' => (f r, q')
  end.

Definition exec (alloc : gmap nat (A * option nat) -> option nat) (c : call) q :
    reply * QListQueue A :=
  match c with
  | CPush x => reply_of RRet q (push x (alloc (store q)) q)
  | CUrgent x => reply_of RRet q (push_urgent x (alloc (store q)) q)
  | CPop => reply_of RItem q (pop q)
  | CClear => match clear q with Some q' => (RRet 0, q') | None => (RFault, q) end
  end.

Fixpoint exec_all alloc (cs : list call) q : list reply * QListQueue A :=
  match cs with
  | [] => ([], q)
  | c :: cs => let '(r, q) := exec alloc c q in
               let '(rs, q) := exec_all alloc cs q in (r :: rs, q)
  end.

Definition spec_exec (m : Z) (c : call) (xs : list A) : reply * list A :=
  match c with
  | CPush x => if Z.of_nat (length xs) =? m then (RSleep, xs) else (RRet 0, xs ++ [x])
  | CUrgent x => if Z.of_nat (length xs) =? m then (RSleep, xs) else (RRet 0, x :: xs)
  | CPop => match xs with [] => (RSleep, []) | x :: xs => (RItem x, xs) end
  | CClear => (RRet 0, [])
  end.

Fixpoint spec_exec_all (m : Z) (cs : list call) (xs : list A) : list reply * list A :=
  match cs with
  | [] => ([], xs)
  | c :: cs => let '(r, xs) := spec_exec m c xs in
               let '(rs, xs) := spec_exec_all m cs xs in (r :: rs, xs)
  end.

Lemma full_rep q ls : rep q ls -> full q = (Z.of_nat (length ls.*2) =? max_size_ q).
Proof. intros (_ & _ & _ & Hn & _). by rewrite Hn, length_fmap. Qed.

Lemma max_size_push x al q r q' : push x al q = Done r q' -> max_size_ q' = max_size_ q.
Proof. unfold push. intros. by repeat case_match; simplify_eq. Qed.

Lemma max_size_push_urgent x al q r q' :
  push_urgent x al q = Done r q' -> max_size_ q' = max_size_ q.
Proof. unfold push_urgent. intros. by repeat case_match; simplify_eq. Qed.

Lemma max_size_pop q r q' : pop q = Done r q' -> max_size_ q' = max_size_ q.
Proof. unfold pop. intros. by repeat case_match; simplify_eq. Qed.

Lemma max_size_clear q q' : clear q = Some q' -> max_size_ q' = max_size_ q.
Proof.
  unfold clear. generalize (base.size (store q)). intros n. revert q.
  induction n as [|n IH]; intros q; cbn; intros; repeat case_match; simplify_eq; try done.
  match goal with H : clear_loop _ _ = _ |- _ => by apply IH in H end.
Qed.

Lemma list_exec_refines alloc c q ls :
  (forall h, exists l, alloc h = Some l /\ h !! l = None) ->
  rep q ls ->
  exists ls', rep (exec alloc c q).2 ls' /\ max_size_ (exec alloc c q).2 = max_size_ q /\
    spec_exec (max_size_ q) c ls.*2 = ((exec alloc c q).1, ls'.*2).
Proof.
  intros Hal Hrep. destruct (Hal (store q)) as (l & Hl & Hfr).
  pose proof (full_rep q ls Hrep) as Hfull.
  destruct c as [x|x| |]; cbn; rewrite <- ?Hfull, ?Hl.
  - destruct (full q) eqn:E.
    + exists ls. unfold push. by rewrite E.
    + destruct (push_rep x l q ls) as (q' & Hp & Hr); [done..|].
      exists (ls ++ [(l, x)]). rewrite Hp. cbn. rewrite fmap_app. eauto using max_size_push.
  - destruct (full q) eqn:E.
    + exists ls. unfold push_urgent. by rewrite E.
    + destruct (push_urgent_rep x l q ls) as (q' & Hp & Hr); [done..|].
      exists ((l, x) :: ls). rewrite Hp. cbn. eauto using max_size_push_urgent.
  - destruct ls as [|[l' x] ls].
    + exists []. unfold pop. pose proof Hrep as (_ & _ & _ & -> & _). done.
    + destruct (pop_rep q l' x ls) as (q' & Hp & Hr); [done|].
      exists ls. rewrite Hp. cbn. eauto using max_size_pop.
  - destruct (clear_rep q ls Hrep) as (q' & Hc & Hr). exists []. rewrite Hc.
    eauto using max_size_clear.
Qed.

(** Every sequence of calls on a QListQueue whose allocations succeed answers
    as a double-ended list bounded by the constructor's size: FIFO order for
    [push], [push_urgent] in front, no dangling node dereferenced, and [clear]
    empties it. *)
Theorem exec_all_deque alloc cs m :
  (forall h, exists l, alloc h = Some l /\ h !! l = None) -> 0 <= m ->
  (exec_all alloc cs (QListQueue_new m)).1 = (spec_exec_all m cs []).1.
Proof.
  intros Hal Hm.
  assert (forall q ls, rep q ls ->
    (exec_all alloc cs q).1 = (spec_exec_all (max_size_ q) cs ls.*2).1) as Hgen;
    [|by apply (Hgen (QListQueue_new m) []), rep_new].
  clear m Hm. induction cs as [|c cs IH]; intros q ls Hrep; [done|]. cbn.
  destruct (list_exec_refines alloc c q ls Hal Hrep) as (ls' & Hr' & Hm' & Hs).
  destruct (exec alloc c q) as [r q']. rewrite Hs. cbn in *.
  specialize (IH q' ls' Hr'). rewrite Hm' in IH.
  destruct (exec_all alloc cs q'), (spec_exec_all (max_size_ q) cs ls'.*2). cbn in *. congruence.
Qed.

(** With a failed allocation [push] reports an error and keeps the queue. *)
Lemma push_alloc_failure x q ls :
  rep q ls -> full q = false ->
  exists r q', push x None q = Done r q' /\ r < 0 /\ rep q' ls.
Proof.
  intros (Hc & Hnd & Hr & Hn & Hm) Hf. unfold push. rewrite Hf.
  destruct ls as [|[r y] ls' _] using rev_ind.
  - cbn in Hc. rewrite Hc. do 2 eexists; split; [done|]. by repeat split.
  - assert (is_Some (front_ q)) as [p Hp].
    { destruct ls' as [|[??]?]; destruct Hc as (-> & _); eauto. }
    rewrite Hp. rewrite Hr, last_snoc by (by destruct ls'). cbn.
    assert (store q !! r = Some (y, None)) as Hy.
    { clear -Hc. revert Hc. generalize (front_ q). induction ls' as [|[??]? IH]; intros p; cbn.
      - intros (_ & nxt & ? & ->). eauto.
      - intros (_ & nxt & _ & ?). eauto. }
    rewrite Hy. do 2 eexists; split; [done|]. split; [lia|].
    unfold rep; cbn. rewrite insert_id by done. rewrite <- Hp, last_snoc. auto.
Qed.

(** With a failed allocation [push_urgent] on a non-empty queue reports
    success, loses every queued node and makes the next [pop] dereference
    NULL: the NULL test reads the saved old head instead of the new node. *)
Theorem push_urgent_alloc_failure x q ls :
  rep q ls -> ls <> [] -> full q = false ->
  exists q', push_urgent x None q = Done 0 q' /\ front_ q' = None /\
    now_size_ q' = now_size_ q + 1 /\ pop q' = Fault.
Proof.
  intros (Hc & _ & _ & Hn & _) Hne Hf. unfold push_urgent. rewrite Hf.
  destruct ls as [|[l y] ls]; [done|]. destruct Hc as (-> & _).
  eexists; split; [done|]. repeat split. unfold pop; cbn in *.
  destruct (Z.eqb_spec (now_size_ q + 1) 0); [lia|done].
Qed.

End ops.
Arguments CPush {A}.
Arguments CUrgent {A}.
Arguments CPop {A}.
Arguments CClear {A}.
Arguments RSleep {A}.
Arguments RRet {A}.
Arguments RItem {A}.
Arguments RFault {A}.

(** An allocator that hands out an address above every live one. *)
Definition next_address {A} (h : gmap nat (A * option nat)) : option nat :=
  Some (fresh (dom h)).

Lemma exec_all_deque_witness :
  (exec_all next_address [CPush 1; CPush 2; CUrgent 3; CPush 4; CPop; CPop; CPop; CPop]
     (QListQueue_new 3)).1 =
  [RRet 0; RRet 0; RRet 0; RSleep; RItem 3; RItem 1; RItem 2; RSleep].
Proof.
  rewrite exec_all_deque; [reflexivity| |lia].
  intros h. eexists; split; [done|]. apply not_elem_of_dom, is_fresh.
Defined.

Lemma push_urgent_alloc_failure_witness :
  exists q', push_urgent 7 None (mkQListQueue {[0%nat := (5, None)]} (Some 0%nat) (Some 0%nat) 1 4)
             = Done 0 q' /\ front_ q' = None /\ now_size_ q' = 2 /\ pop q' = Fault.
Proof.
  apply (push_urgent_alloc_failure 7
    (mkQListQueue {[0%nat := (5, None)]} (Some 0%nat) (Some 0%nat) 1 4) [(0%nat, 5)]);
    [|done|done].
  repeat split; cbn; try done; [|apply NoDup_singleton].
  exists None. by rewrite lookup_singleton_eq.
Defined.

End Linked.
