(* ===== verification/QPriorityQueue.v ===== *)
(** * QPriorityQueue: the sorted array queue of src/include/common/qqueue.h

    [adjust] and the shift of [pop] are the loops of the source on the array;
    the trace theorem refines them to a list kept in descending priority in
    which equal priorities stay in arrival order. *)

From S2P Require Import Prelude.

(** ** QPriorityQueue: an array kept in descending order *)
Module Priority.

Record QPriorityQueue (A : Type) : Type := mkQPriorityQueue {
  queue_ : list A;
  size_ : Z;
  max_size_ : Z
}.
Arguments mkQPriorityQueue {A}.
Arguments queue_ {A}.
Arguments size_ {A}.
Arguments max_size_ {A}.

Abbreviation size := size_ (only parsing).
Abbreviation max_size := max_size_ (only parsing).
Abbreviation empty q := (size_ q =? 0)%Z (only parsing).
Abbreviation full q := (size_ q =? max_size_ q)%Z (only parsing).

Section ops.
Context {A : Type}.
(** [operator>=] of the element type. *)
Variable geb : A -> A -> bool.
Implicit Types (q : QPriorityQueue A) (x : A) (arr : list A).

(** [alloc] is the array [q_new_array] returned, [None] for NULL. *)
Definition init (size : Z) (alloc : option (list A)) q : Z * QPriorityQueue A :=
  if size <=? 0 then (-1, q)
  else match alloc with
       | None => (-2, mkQPriorityQueue [] (size_ q) size)
       | Some arr => (0, mkQPriorityQueue arr 0 size)
       end.

Definition clear q : QPriorityQueue A := mkQPriorityQueue (queue_ q) 0 (max_size_ q).

(** The loop of [adjust]; [k] is [j+1]. *)
Fixpoint adjust_loop (temp : A) (k : nat) arr : list A :=
  match k with
  | O => <[0%nat := temp]> arr
  | S j =>
      match arr !! j with
      | Some y => if geb y temp then <[S j := temp]> arr
                  else adjust_loop temp j (<[S j := y]> arr)
      | None => arr
      end
  end.

Definition adjust q : QPriorityQueue A :=
  match queue_ q !! Z.to_nat (size_ q - 1) with
  | None => q
  | Some temp =>
      mkQPriorityQueue (adjust_loop temp (Z.to_nat (size_ q - 1)) (queue_ q))
                       (size_ q) (max_size_ q)
  end.

(** [for(i=1; i<size_; ++i) queue_[i-1]=queue_[i]], with [n] rounds left. *)
Fixpoint shift_loop (i n : nat) arr : list A :=
  match n with
  | O => arr
  | S n => match arr !! i with
           | Some x => shift_loop (S i) n (<[(i - 1)%nat := x]> arr)
           | None => arr
           end
  end.

(** The bodies of [push] and [pop] after the wait loop. *)
Definition enqueue x q : QPriorityQueue A :=
  adjust (mkQPriorityQueue (<[Z.to_nat (size_ q) := x]> (queue_ q)) (size_ q + 1) (max_size_ q)).

Definition dequeue q : option (A * QPriorityQueue A) :=
  match queue_ q !! 0%nat with
  | None => None
  | Some item =>
      Some (item, mkQPriorityQueue (shift_loop 1 (Z.to_nat (size_ q - 1)) (queue_ q))
                                   (size_ q - 1) (max_size_ q))
  end.

(** One turn of the wait loops of [push] and [pop]; [None] means sleeping. *)
Definition push x q : option (QPriorityQueue A) :=
  if full q then None else Some (enqueue x q).

Definition pop q : option (A * QPriorityQueue A) :=
  if empty q then None else dequeue q.

Definition push_non_blocking x q : Z * QPriorityQueue A :=
  if size_ q =? max_size_ q then (-1, q) else (0, enqueue x q).

Definition pop_non_blocking q : Z * option A * QPriorityQueue A :=
  if empty q then (-1, None, q)
  else match dequeue q with
       | Some (x, q') => (0, Some x, q')
       | None => (-1, None, q)
       end.

(** *** The abstract content and its order *)

Definition contents q : list A := take (Z.to_nat (size_ q)) (queue_ q).

Definition desc : list A -> Prop := StronglySorted (fun a b => geb a b = true).

Definition wf q : Prop :=
  0 <= size_ q <= max_size_ q /\ Z.of_nat (length (queue_ q)) = max_size_ q /\ desc (contents q).

(** [x] placed after every element whose priority is at least its own. *)
Definition place x (xs : list A) : list A :=
  filter (fun y => geb y x = true) xs ++ x :: filter (fun y => geb y x = false) xs.

Lemma adjust_loop_split temp c h rest :
  exists c1 c2, c = c1 ++ c2 /\ Forall (fun y => geb y temp = false) c2 /\
    (c1 = [] \/ exists y, last c1 = Some y /\ geb y temp = true) /\
    adjust_loop temp (length c) (c ++ h :: rest) = c1 ++ temp :: c2 ++ rest.
Proof.
  revert h rest. induction c as [|y c IH] using rev_ind; intros h rest.
  - exists [], []. cbn. by repeat split; auto.
  - rewrite length_app, Nat.add_comm. cbn. rewrite <- app_assoc. cbn.
    rewrite list_lookup_middle by done. destruct (geb y temp) eqn:E.
    + exists (c ++ [y]), []. rewrite app_nil_r, last_snoc. split; [done|].
      split; [constructor|]. split; [eauto|].
      change (c ++ y :: h :: rest) with (c ++ [y] ++ h :: rest).
      rewrite app_assoc, insert_app_r_alt by (rewrite length_app; cbn; lia).
      rewrite length_app. cbn. by replace (S (length c) - (length c + 1))%nat with 0%nat by lia.
    + replace (<[S (length c) := y]> (c ++ y :: h :: rest)) with (c ++ y :: (y :: rest)).
      2:{ rewrite insert_app_r_alt by lia.
          by replace (S (length c) - length c)%nat with 1%nat by lia. }
      destruct (IH y (y :: rest)) as (c1 & c2 & -> & Hc2 & Hc1 & ->).
      exists c1, (c2 ++ [y]). rewrite !app_assoc. split; [done|].
      split; [by apply Forall_app; auto|]. split; [done|].
      by rewrite <- !app_assoc.
Qed.

Lemma shift_loop_spec c x y rest :
  shift_loop (S (length c)) (length rest) (c ++ x :: rest ++ y) =
  c ++ rest ++ match last rest with Some z => z | None => x end :: y.
Proof.
  revert c x. induction rest as [|z rest IH]; intros c x; cbn; [done|].
  replace (c ++ x :: z :: rest ++ y) with ((c ++ [x]) ++ z :: rest ++ y) by by rewrite <- app_assoc.
  rewrite list_lookup_middle by (rewrite length_app; cbn; lia).
  rewrite Nat.sub_0_r, <- app_assoc. cbn. rewrite insert_app_r_alt by done.
  rewrite Nat.sub_diag. cbn.
  replace (c ++ z :: z :: rest ++ y) with ((c ++ [z]) ++ z :: rest ++ y) by by rewrite <- app_assoc.
  replace (S (S (length c))) with (S (length (c ++ [z]))) by (rewrite length_app; cbn; lia).
  rewrite IH, <- app_assoc, last_cons. cbn. by destruct (last rest).
Qed.

(** The array split at [size_]. *)
Lemma queue_split q : wf q ->
  exists c rest, queue_ q = c ++ rest /\ contents q = c /\ Z.of_nat (length c) = size_ q.
Proof.
  intros (Hs & Hl & _). exists (contents q), (drop (Z.to_nat (size_ q)) (queue_ q)).
  unfold contents. rewrite take_drop, length_take. repeat split; lia.
Qed.

Section laws.
Hypothesis geb_trans : forall a b c, geb a b = true -> geb b c = true -> geb a c = true.
Hypothesis geb_total : forall a b, geb a b = true \/ geb b a = true.

Lemma desc_last_all c y temp :
  desc c -> last c = Some y -> geb y temp = true -> Forall (fun z => geb z temp = true) c.
Proof.
  induction 1 as [|z c Hs IH Hz]; [done|]. intros Hl Hy. destruct c as [|w c].
  - cbn in Hl. simplify_eq. auto.
  - rewrite last_cons_cons in Hl. specialize (IH Hl Hy). constructor; [|done].
    inversion Hz; inversion IH; eauto.
Qed.

Lemma place_split x c1 c2 :
  Forall (fun z => geb z x = true) c1 -> Forall (fun z => geb z x = false) c2 ->
  place x (c1 ++ c2) = c1 ++ x :: c2.
Proof.
  intros H1 H2. unfold place. rewrite !filter_app.
  assert (forall (P : A -> bool) b l, Forall (fun z => P z = b) l ->
    filter (fun z => P z = b) l = l /\ filter (fun z => P z = negb b) l = []) as Hf.
  { intros P b l. induction 1 as [|z l Hz _ [IH1 IH2]]; [done|].
    rewrite !filter_cons, IH1, IH2. rewrite decide_True by done.
    rewrite decide_False; [done|]. rewrite Hz. by destruct b. }
  destruct (Hf (fun z => geb z x) true c1 H1) as [E1 E1'].
  destruct (Hf (fun z => geb z x) false c2 H2) as [E2 E2']. cbn in *.
  by rewrite E1, E1', E2, E2', app_nil_r.
Qed.

Lemma place_desc x c1 c2 :
  desc (c1 ++ c2) -> Forall (fun z => geb z x = true) c1 ->
  Forall (fun z => geb z x = false) c2 -> desc (c1 ++ x :: c2).
Proof.
  rewrite !Forall_forall. intros Hc H1 H2.
  apply StronglySorted_app in Hc as (H12 & Hs1 & Hs2).
  assert (forall z, z ∈ c2 -> geb x z = true) as Hx.
  { intros z Hz. specialize (H2 z Hz). destruct (geb_total x z); congruence. }
  apply StronglySorted_app_2; [|done|].
  - intros a b Ha [->|Hb]%elem_of_cons; auto.
  - constructor; [done|]. by apply Forall_forall.
Qed.

Lemma pq_enqueue_spec x q :
  wf q -> full q = false ->
  wf (enqueue x q) /\ contents (enqueue x q) = place x (contents q) /\
  max_size_ (enqueue x q) = max_size_ q.
Proof.
  intros Hwf Hf. destruct (queue_split q Hwf) as (c & rest & Hq & Hc & Hsz).
  destruct Hwf as (Hs & Hl & Hd). apply Z.eqb_neq in Hf. rewrite Hc in Hd.
  rewrite Hq, length_app in Hl. destruct rest as [|h rest]; [cbn in Hl; lia|].
  unfold enqueue, adjust. cbn.
  replace (Z.to_nat (size_ q + 1 - 1)) with (length c) by lia.
  replace (Z.to_nat (size_ q)) with (length c) by lia.
  rewrite Hq, insert_app_r_alt by done. rewrite Nat.sub_diag. cbn.
  rewrite list_lookup_middle by done.
  destruct (adjust_loop_split x c x rest) as (c1 & c2 & Hcc & H2 & H1 & ->).
  assert (Forall (fun z => geb z x = true) c1) as H1'.
  { destruct H1 as [->|(y & Hy & Hyx)]; [constructor|].
    eapply desc_last_all; [|done..]. rewrite Hcc in Hd. by eapply StronglySorted_app_1_l. }
  assert (contents (mkQPriorityQueue (c1 ++ x :: c2 ++ rest) (size_ q + 1) (max_size_ q))
          = c1 ++ x :: c2) as Hcont.
  { unfold contents. cbn. rewrite app_comm_cons, app_assoc.
    rewrite take_app_length'; [done|]. rewrite Hcc, length_app in Hsz.
    rewrite length_app. cbn. lia. }
  unfold wf. rewrite Hcont, Hc, Hcc. cbn. rewrite place_split by done.
  rewrite Hcc in Hd, Hl. repeat split; [lia|lia| |by apply place_desc].
  cbn in Hl. rewrite !length_app in *. cbn. rewrite length_app. lia.
Qed.

Lemma pq_dequeue_spec x c q :
  wf q -> contents q = x :: c ->
  exists q', dequeue q = Some (x, q') /\ wf q' /\ contents q' = c /\ max_size_ q' = max_size_ q.
Proof.
  intros Hwf Hxc. destruct (queue_split q Hwf) as (c' & rest & Hq & Hc & Hsz).
  destruct Hwf as (Hs & Hl & Hd). rewrite Hxc in *. subst c'. cbn in Hsz.
  unfold dequeue. rewrite Hq. cbn [lookup list_lookup app].
  replace (Z.to_nat (size_ q - 1)) with (length c) by lia.
  pose proof (shift_loop_spec [] x rest c) as E. cbn [length app] in E. rewrite E.
  eexists; split; [done|]. unfold wf, contents. cbn.
  rewrite take_app_length' by lia. rewrite Hq in Hl. rewrite length_app in *. cbn in *.
  inversion Hd. repeat split; (lia || done).
Qed.

Lemma pq_empty_contents q :
  wf q -> empty q = match contents q with [] => true | _ => false end.
Proof.
  intros Hwf. destruct (queue_split q Hwf) as (c & rest & _ & -> & Hsz).
  destruct c; cbn in *; lia.
Qed.

(** *** Traces of calls against a bounded descending list *)

Inductive call : Type :=
  | CPush (x : A)
  | CPop
  | CClear.

Definition exec (c : call) q : (Z * option A) * QPriorityQueue A :=
  match c with
  | CPush x => let '(r, q) := push_non_blocking x q in (r, None, q)
  | CPop => pop_non_blocking q
  | CClear => (0, None, clear q)
  end.

Definition spec_exec (m : Z) (c : call) (xs : list A) : (Z * option A) * list A :=
  match c with
  | CPush x => if Z.of_nat (length xs) =? m then (-1, None, xs) else (0, None, place x xs)
  | CPop => match xs with [] => (-1, None, []) | x :: xs => (0, Some x, xs) end
  | CClear => (0, None, [])
  end.

Fixpoint run {S R : Type} (f : call -> S -> R * S) (cs : list call) (s : S) : list R * S :=
  match cs with
  | [] => ([], s)
  | c :: cs => let '(r, s) := f c s in let '(rs, s) := run f cs s in (r :: rs, s)
  end.

Lemma pq_exec_refines c q :
  wf q ->
  wf (exec c q).2 /\ max_size_ (exec c q).2 = max_size_ q /\
  spec_exec (max_size_ q) c (contents q) = ((exec c q).1, contents (exec c q).2).
Proof.
  intros Hwf. assert (Z.of_nat (length (contents q)) = size_ q) as Hlen.
  { by destruct (queue_split q Hwf) as (c' & rest & _ & -> & Hsz). }
  destruct c as [x| |]; cbn.
  - unfold push_non_blocking. rewrite Hlen. destruct (size_ q =? max_size_ q) eqn:E; cbn.
    + done.
    + destruct (pq_enqueue_spec x q Hwf E) as (Hw & Hc & Hm). by rewrite Hc.
  - unfold pop_non_blocking. rewrite (pq_empty_contents q Hwf).
    destruct (contents q) as [|x xs] eqn:Ec; cbn.
    + by rewrite Ec.
    + destruct (pq_dequeue_spec x xs q Hwf Ec) as (q' & -> & Hw & Hc & Hm). cbn. by rewrite Hc.
  - unfold wf, contents in *. cbn. destruct Hwf as (Hs & Hl & _). repeat split; try done; try lia.
    constructor.
Qed.

(** Every sequence of pushes, pops and clears answers as a bounded list kept in
    descending priority: a pop returns the oldest element of the highest
    priority, a full queue refuses with -1 and an empty one answers -1. *)
Theorem run_priority_refines cs q :
  wf q ->
  wf (run exec cs q).2 /\
  run (spec_exec (max_size_ q)) cs (contents q) = ((run exec cs q).1, contents (run exec cs q).2).
Proof.
  revert q. induction cs as [|c cs IH]; intros q Hwf; [done|]. cbn.
  destruct (pq_exec_refines c q Hwf) as (Hw & Hm & ->).
  destruct (exec c q) as [r q1]. cbn in *. destruct (IH q1 Hw) as (Hw' & E).
  rewrite Hm in E. rewrite E. by destruct (run exec cs q1).
Qed.

End laws.
End ops.
Arguments CPush {A}.
Arguments CPop {A}.
Arguments CClear {A}.

Lemma run_priority_refines_witness :
  let q := mkQPriorityQueue [0; 0; 0] 0 3 in
  (run (exec Z.geb) [CPush 2; CPush 5; CPush 3; CPush 9; CPop; CPop; CPop; CPop] q).1 =
  [(0, None); (0, None); (0, None); (-1, None);
   (0, Some 5); (0, Some 3); (0, Some 2); (-1, None)].
Proof.
  pose (q := mkQPriorityQueue [0; 0; 0] 0 3).
  pose (cs := [CPush 2; CPush 5; CPush 3; CPush 9; CPop; CPop; CPop; CPop]).
  assert (wf Z.geb q) as Hwf by (repeat split; try (cbn; lia); constructor).
  pose proof (run_priority_refines Z.geb ltac:(intros; lia) ltac:(intros; lia) cs q Hwf) as [_ E].
  apply (f_equal fst) in E. cbn [fst] in E. cbv zeta. fold q cs. rewrite <- E. reflexivity.
Defined.

End Priority.
