(* ===== verification/ConfigReader.v ===== *)
(** * ConfigReader: [QConfigReader] of src/include/common/qconfigreader.h

    A reader is the content of the file it opened.  The line scan of the two
    [getFieldString] overloads is modelled on the bytes of the line buffer;
    the theorems show that a lookup in a file of [key = value] lines returns
    the value of the first line with that key, and that the line buffer and
    the 1024-byte value buffers are never overrun. *)

From S2P Require Import Prelude CLib.

Module Config.

Record QConfigReader : Type := mkQConfigReader { fp : option bytes }.

Definition BUFSIZ_1K : nat := 1024.
Arguments BUFSIZ_1K : simpl never.

(** [fopen] is the content of a readable file. *)
Definition init (pConfigFile : option bytes) (fopen : bytes -> option bytes)
    (cfg : QConfigReader) : Z * QConfigReader :=
  match pConfigFile with
  | None => (-1, cfg)
  | Some path => match fopen path with
                 | None => (-1, mkQConfigReader None)
                 | Some text => (0, mkQConfigReader (Some text))
                 end
  end.

(** ** One line *)

Definition is_enter (b : byte) : bool := beqb b x20 || beqb b x0d || beqb b x0a.

Fixpoint cancelEnter_loop (buf : bytes) (len : nat) : nat :=
  match len with
  | O => O
  | S n => match buf !! n with
           | Some b => if is_enter b then cancelEnter_loop buf n else len
           | None => len
           end
  end.

Definition cancelEnter (buf : bytes) (len : nat) : nat * bytes :=
  match len with
  | O => (O, buf)
  | _ => let n := cancelEnter_loop buf len in (n, <[n := NUL]> buf)
  end.

(** [while((p1<p2)&&( *p1==' ')) p1++] with [n = p2 - p1]. *)
Fixpoint skip_blanks (n : nat) (buf : bytes) (p1 : nat) : nat :=
  match n with
  | O => p1
  | S n => match buf !! p1 with
           | Some b => if beqb b x20 then skip_blanks n buf (S p1) else p1
           | None => p1
           end
  end.

(** The body of the [while(fgets(...))] loop up to the point where the value
    is known: the value starts at [p1], the line ends at [p2]. *)
Definition scan_line (name line : bytes) : option (nat * nat * bytes) :=
  let buf := line ++ [NUL] in
  if negb (strncasecmp buf name (length name) =? 0) then None
  else
    let '(p2, buf) := cancelEnter buf (Z.to_nat (strlen buf)) in
    if (p2 =? 0)%nat then None
    else
      let p1 := skip_blanks (p2 - length name) buf (length name) in
      match buf !! p1 with
      | Some b => if beqb b x3d
                  then Some (skip_blanks (p2 - S p1) buf (S p1), p2, buf)
                  else None
      | None => None
      end.

(** The loop over the lines; the fuel is the length of the file, every
    [fgets] consuming at least one byte. *)
Fixpoint find_field (fuel : nat) (name file : bytes) : option (nat * nat * bytes) :=
  match fuel with
  | O => None
  | S fuel =>
      match fgets BUFSIZ_1K file with
      | None => None
      | Some (line, rest) =>
          match scan_line name line with
          | Some r => Some r
          | None => find_field fuel name rest
          end
      end
  end.

Definition lookup_field (name file : bytes) : option (nat * nat * bytes) :=
  find_field (length file) name file.

(** ** The typed getters *)

(** [getFieldString(name, buf, size)]: the value returned and the buffer
    afterwards; [None] when a byte outside the buffer is written. *)
Definition getFieldString_buf (name : bytes) (value : bytes) (cfg : QConfigReader) :
    option (Z * bytes) :=
  match fp cfg with
  | None => Some (-1, value)
  | Some file =>
      if (length value =? 0)%nat then Some (-1, value)
      else
        let value := <[0%nat := NUL]> value in
        if (length name =? 0)%nat then Some (-1, value)
        else match lookup_field name file with
             | None => Some (-1, value)
             | Some (p1, p2, buf) =>
                 let currentLength := (p2 - p1)%nat in
                 if (length value <? currentLength)%nat then Some (-1, value)
                 else if (length value <=? currentLength)%nat then None
                 else
                   let value := list_inserts 0 (slice p1 currentLength buf) value in
                   Some (Z.of_nat currentLength, <[currentLength := NUL]> value)
             end
  end.

(** [getFieldString(name, char*& value)]: the duplicated string. *)
Definition getFieldString_dup (name : bytes) (cfg : QConfigReader) : Z * option bytes :=
  match fp cfg with
  | None => (-1, None)
  | Some file =>
      if (length name =? 0)%nat then (-1, None)
      else match lookup_field name file with
           | None => (-1, None)
           | Some (p1, p2, buf) => (Z.of_nat p2 - Z.of_nat p1, Some (cstr (drop p1 buf)))
           end
  end.

(** [char s[BUFSIZ_1K]={0}; if(getFieldString(name, s, BUFSIZ_1K)<=0) return -1;] *)
Definition field_text (name : bytes) (cfg : QConfigReader) : option bytes :=
  match getFieldString_buf name (replicate BUFSIZ_1K NUL) cfg with
  | Some (r, s) => if r <=? 0 then None else Some s
  | None => None
  end.

Definition getField (conv : bytes -> Z) (name : bytes) (cfg : QConfigReader) (old : Z) : Z * Z :=
  match field_text name cfg with
  | Some s => (0, conv s)
  | None => (-1, old)
  end.

Definition getFieldInt8 := getField (fun s => i8 (atoi s)).
Definition getFieldUint8 := getField (fun s => u8 (atoi s)).
Definition getFieldInt16 := getField (fun s => i16 (atoi s)).
Definition getFieldUint16 := getField (fun s => u16 (atoi s)).
Definition getFieldInt32 := getField atoi.
Definition getFieldUint32 := getField (fun s => u32 (atol s)).
Definition getFieldInt64 := getField (fun s => sgn 64 (strtoul s)).
Definition getFieldUint64 := getField strtoul.

Definition getFieldYesNo (name : bytes) (cfg : QConfigReader) (old : Z) : Z * Z :=
  match field_text name cfg with
  | Some s => if strcasecmp s (str "yes") =? 0 then (0, 1)
              else if strcasecmp s (str "no") =? 0 then (0, 0)
              else (-1, old)
  | None => (-1, old)
  end.

(** Return value and the hour, minute and second stored. *)
Definition getFieldTime (name : bytes) (cfg : QConfigReader) : Z * (Z * Z * Z) :=
  match field_text name cfg with
  | None => (-1, (0, 0, 0))
  | Some s =>
      let s := cstr s in
      let hour := i32 (atol s) in
      match find_byte x3a s with
      | None => (-1, (hour, 0, 0))
      | Some p =>
          let minute := i32 (atol (drop (S p) s)) in
          match find_byte x3a s with
          | None => (-1, (hour, minute, 0))
          | Some p =>
              let second := i32 (atol (drop (S p) s)) in
              (i32 (hour * 3600 + minute * 60 + second), (hour, minute, second))
          end
      end
  end.

Definition getFieldString (name : bytes) (cfg : QConfigReader) (old : bytes) : Z * bytes :=
  match field_text name cfg with
  | Some s => (0, cstr s)
  | None => (-1, old)
  end.

(** ** The scan of a line *)

Lemma cancelEnter_loop_spec tb junk rest :
  match last tb with Some b => is_enter b = false | None => True end ->
  Forall (fun b => is_enter b = true) junk ->
  cancelEnter_loop (tb ++ junk ++ rest) (length tb + length junk) = length tb.
Proof.
  intros Ht. revert rest. induction junk as [|b junk IH] using rev_ind; intros rest Hj.
  - rewrite Nat.add_0_r. destruct tb as [|b tb _] using rev_ind; [done|].
    rewrite last_snoc in Ht. rewrite length_app, Nat.add_comm, <- !app_assoc. cbn.
    rewrite list_lookup_middle by done. by rewrite Ht.
  - apply Forall_app in Hj as [Hj Hb]. apply Forall_inv in Hb.
    rewrite length_app, Nat.add_assoc, (Nat.add_comm _ (length [b])). cbn.
    rewrite <- app_assoc. cbn [app].
    rewrite (app_assoc tb), list_lookup_middle, Hb by (by rewrite length_app).
    rewrite <- app_assoc. by apply IH.
Qed.

Lemma skip_blanks_spec n a g b r :
  beqb b x20 = false -> (g <= n)%nat ->
  skip_blanks n (a ++ replicate g x20 ++ b :: r) (length a) = (length a + g)%nat.
Proof.
  intros Hb. revert n a. induction g as [|g IH]; intros n a Hn.
  - destruct n; cbn; [lia|]. rewrite list_lookup_middle by done. rewrite Hb. lia.
  - destruct n as [|n]; [lia|]. cbn. rewrite list_lookup_middle by done.
    rewrite beqb_refl, cons_middle, app_assoc.
    replace (S (length a)) with (length (a ++ [x20])) by (rewrite length_app; cbn; lia).
    rewrite IH by lia. rewrite length_app. cbn. lia.
Qed.

Lemma insert_nul_middle (tb junk : bytes) :
  junk <> [] -> <[length tb := NUL]> (tb ++ junk) = tb ++ NUL :: tl junk.
Proof.
  intros. rewrite insert_app_r_alt by done. rewrite Nat.sub_diag. by destruct junk.
Qed.

(** The trimmed line: the text up to its last non-blank byte, then a NUL. *)
Lemma cancelEnter_spec tb junk :
  match last tb with Some b => is_enter b = false | None => True end ->
  Forall (fun b => is_enter b = true) junk -> no_nul tb ->
  tb <> [] ->
  exists z, cancelEnter (tb ++ junk ++ [NUL]) (Z.to_nat (strlen (tb ++ junk ++ [NUL]))) =
            (length tb, tb ++ NUL :: z).
Proof.
  intros Ht Hj Hn Hne.
  assert (no_nul (tb ++ junk)) as Hnn.
  { apply Forall_app. split; [done|]. eapply Forall_impl; [exact Hj|]. by intros ? H ->. }
  unfold strlen. rewrite app_assoc, cstr_app_nul, Nat2Z.id by done.
  unfold cancelEnter. rewrite length_app, <- app_assoc.
  destruct (length tb + length junk)%nat eqn:E.
  { destruct tb; [done|cbn in E; lia]. }
  rewrite <- E, cancelEnter_loop_spec by done.
  exists (tl (junk ++ [NUL])). rewrite insert_nul_middle; [done|]. by destruct junk.
Qed.

(** A matching line [key = value]; [junk] is the trailing white space. *)
Lemma scan_line_match name key g1 g2 v junk :
  no_nul name -> name <> [] -> tolower <$> key = tolower <$> name ->
  no_nul (key ++ v) -> beqb (hd x00 v) x20 = false ->
  match last (x3d :: v) with Some b => is_enter b = false | None => True end ->
  (v = [] -> g2 = 0%nat) -> Forall (fun b => is_enter b = true) junk ->
  exists p1 buf, scan_line name
    (key ++ replicate g1 x20 ++ x3d :: replicate g2 x20 ++ v ++ junk) =
    Some (p1, (p1 + length v)%nat, buf) /\
    slice p1 (length v) buf = v /\ cstr (drop p1 buf) = v.
Proof.
  intros Hnn Hne Hlow Hkv Hv Hlast Hg Hj. apply Forall_app in Hkv as [Hk Hvn].
  assert (length key = length name) as Hlen by (by rewrite <- (length_fmap tolower key), Hlow, length_fmap).
  set (pre := key ++ replicate g1 x20 ++ [x3d]).
  set (tb := pre ++ replicate g2 x20 ++ v).
  assert (no_nul tb) as Htb.
  { unfold tb, pre, no_nul. rewrite !Forall_app. repeat split; try done.
    - apply Forall_replicate. done.
    - by constructor.
    - apply Forall_replicate. done. }
  assert (last tb = last (x3d :: v)) as Hl.
  { unfold tb, pre. rewrite !last_app. destruct v as [|b v].
    - rewrite Hg by done. done.
    - destruct (last (b :: v)) eqn:E; [by rewrite (last_cons x3d), E|]. by apply last_None in E. }
  assert (key ++ replicate g1 x20 ++ x3d :: replicate g2 x20 ++ v ++ junk = tb ++ junk) as ->.
  { unfold tb, pre. by rewrite <- !app_assoc. }
  unfold scan_line.
  rewrite (proj2 (strncasecmp_0 (length name) _ name Hnn eq_refl)).
  2:{ unfold tb, pre. rewrite <- !app_assoc. split; [len|].
      rewrite <- Hlen, take_app_length. done. }
  cbn [Z.eqb negb]. rewrite <- app_assoc.
  destruct (cancelEnter_spec tb junk) as [z ->]; [by rewrite Hl|done..|by unfold tb, pre; destruct key; [destruct name|]|].
  assert (length tb = (length key + g1 + 1 + g2 + length v)%nat) as Htl by (unfold tb, pre; len).
  destruct (Nat.eqb_spec (length tb) 0); [lia|].
  rewrite <- Hlen.
  replace (tb ++ NUL :: z)
    with (key ++ replicate g1 x20 ++ x3d :: (replicate g2 x20 ++ v ++ NUL :: z))
    by (unfold tb, pre; by rewrite <- !app_assoc).
  rewrite skip_blanks_spec by (done || lia).
  rewrite app_assoc, list_lookup_middle by len. rewrite beqb_refl.
  rewrite <- app_assoc.
  replace (key ++ replicate g1 x20 ++ x3d :: replicate g2 x20 ++ v ++ NUL :: z)
    with (pre ++ replicate g2 x20 ++ v ++ NUL :: z) by (unfold pre; by rewrite <- !app_assoc).
  assert (length pre = S (length key + g1)) as Hpre by (unfold pre; len).
  rewrite <- Hpre.
  assert (skip_blanks (length tb - length pre) (pre ++ replicate g2 x20 ++ v ++ NUL :: z) (length pre)
          = (length pre + g2)%nat) as ->.
  { destruct v as [|b v].
    - rewrite Hg by done. cbn. apply (skip_blanks_spec _ pre 0); [done|lia].
    - cbn [app]. apply skip_blanks_spec; [done|len]. }
  replace (length tb) with (length pre + g2 + length v)%nat by lia.
  eexists _, _. split; [done|].
  rewrite (app_assoc pre). split.
  - apply slice_app_exact; len.
  - rewrite drop_app_length' by len. by apply cstr_app_nul.
Qed.

Lemma tolower_inv c b : c = x20 \/ c = x3d -> tolower b = c -> b = c.
Proof. intros [-> | ->]; by destruct b. Qed.

(** The text before the trailing white space of a string. *)
Lemma trim_split s :
  exists tb junk, s = tb ++ junk /\ Forall (fun b => is_enter b = true) junk /\
    match last tb with Some b => is_enter b = false | None => True end.
Proof.
  induction s as [|b s (tb & junk & -> & Hj & Hl)] using rev_ind.
  - by exists [], [].
  - destruct (is_enter b) eqn:E.
    + exists tb, (junk ++ [b]). rewrite app_assoc. repeat split; [|done].
      by apply Forall_app; split; [|constructor].
    + exists ((tb ++ junk) ++ [b]), []. rewrite app_nil_r, last_snoc. by repeat split.
Qed.

(** Names and keys: non-empty, without NUL, blank, ['='], line end or ['#']. *)
Definition name_char (b : byte) : bool :=
  negb (is_enter b || beqb b x00 || beqb b x3d || beqb b x23).
Definition name_ok (s : bytes) : Prop := s <> [] /\ Forall (fun b => name_char b = true) s.

Lemma name_ok_no_nul s : name_ok s -> no_nul s.
Proof.
  intros [_ H]. eapply Forall_impl; [exact H|]. cbn. by intros b Hb ->.
Qed.

(** A line with another key is skipped. *)
Lemma scan_line_other name key c rest :
  name_ok name -> name_ok key -> c = x20 \/ c = x3d -> no_nul (c :: rest) -> x3d ∈ c :: rest ->
  tolower <$> key <> tolower <$> name ->
  scan_line name (key ++ c :: rest) = None.
Proof.
  intros Hname Hkey Hc Hnn Heq Hne. pose proof (name_ok_no_nul _ Hname) as Hnn'.
  unfold scan_line.
  destruct (Z.eqb_spec (strncasecmp ((key ++ c :: rest) ++ [NUL]) name (length name)) 0) as [E|]; [|done].
  apply strncasecmp_0 in E as [Hlen E]; [|done..]. cbn [negb].
  rewrite <- app_assoc in E. cbn [app] in E. destruct Hname as [Hn0 Hname], Hkey as [Hk0 Hkey].
  destruct (Nat.lt_trichotomy (length name) (length key)) as [Hlt|[Heql|Hgt]].
  2:{ rewrite Heql, take_app_length in E. done. }
  2:{ exfalso. apply (f_equal (lookup (length key))) in E.
      rewrite !list_lookup_fmap, lookup_take_lt, list_lookup_middle in E by done. cbn in E.
      destruct (lookup_lt_is_Some_2 name (length key) Hgt) as [b Hb].
      rewrite Hb in E. cbn in E. injection E as E.
      assert (tolower c = c) as Hc' by (by destruct Hc as [-> | ->]).
      rewrite Hc' in E. symmetry in E. apply tolower_inv in E; [|done]. subst b.
      eapply Forall_lookup_1 in Hname; [|exact Hb]. by destruct Hc as [-> | ->]. }
  destruct (trim_split (key ++ c :: rest)) as (tb & junk & Hs & Hj & Hl).
  assert (length key < length tb)%nat as Htb.
  { apply list_elem_of_lookup in Heq as [i Hi].
    assert ((tb ++ junk) !! (length key + i)%nat = Some x3d) as Hx.
    { rewrite <- Hs, lookup_app_r by lia. by replace (length key + i - length key)%nat with i by lia. }
    destruct (Nat.lt_ge_cases (length key + i) (length tb)) as [|Hge]; [lia|].
    rewrite lookup_app_r in Hx by lia. eapply Forall_lookup_1 in Hj; [|exact Hx]. done. }
  assert (no_nul tb) as Htn.
  { assert (no_nul (tb ++ junk)) as H; [|by apply Forall_app in H as [H _]].
    rewrite <- Hs. apply Forall_app. split; [by apply name_ok_no_nul|done]. }
  rewrite Hs, <- app_assoc.
  destruct (cancelEnter_spec tb junk Hl Hj Htn) as [z ->]; [by destruct tb; [cbn in Htb; lia|]|].
  destruct (Nat.eqb_spec (length tb) 0); [lia|].
  destruct (lookup_lt_is_Some_2 key (length name) Hlt) as [b Hb].
  assert ((tb ++ NUL :: z) !! length name = Some b) as Hbuf.
  { rewrite lookup_app_l by lia. rewrite <- (lookup_app_l tb junk) by lia.
    rewrite <- Hs. by rewrite lookup_app_l by lia. }
  eapply Forall_lookup_1 in Hkey; [|exact Hb].
  destruct (length tb - length name)%nat eqn:El; [lia|]. cbn [skip_blanks].
  rewrite Hbuf. assert (beqb b x20 = false /\ beqb b x3d = false) as [-> H2] by (by destruct b).
  by rewrite Hbuf, H2.
Qed.

(** A comment or blank line is skipped. *)
Lemma scan_line_comment name line :
  name_ok name -> name_char (hd x0a line) = false -> scan_line name line = None.
Proof.
  intros Hname Hc. pose proof (name_ok_no_nul _ Hname) as Hnn. unfold scan_line.
  destruct (Z.eqb_spec (strncasecmp (line ++ [NUL]) name (length name)) 0) as [E|]; [|done].
  apply strncasecmp_0 in E as [Hlen E]; [|done..]. exfalso.
  destruct Hname as [Hn0 Hname]. destruct name as [|b name]; [done|].
  apply Forall_inv in Hname. cbn in Hname.
  destruct line as [|c line]; cbn in E; injection E as E _.
  - symmetry in E. apply tolower_nul in E. by subst.
  - cbn in Hc. clear - E Hc Hname. destruct c; cbn in Hc; try discriminate Hc;
      destruct b; cbn in Hname; (discriminate Hname || discriminate E).
Qed.

(** ** Files of [key = value] lines *)

Inductive item : Type :=
  | Entry (key : bytes) (g1 g2 : nat) (value trail : bytes)
  | Comment (text : bytes).

Definition item_line (i : item) : bytes :=
  match i with
  | Entry key g1 g2 value trail =>
      key ++ replicate g1 x20 ++ x3d :: replicate g2 x20 ++ value ++ trail
  | Comment text => text
  end.

(** A value neither starts nor ends in white space; trailing blanks and a
    carriage return may follow it. *)
Definition item_ok (i : item) : Prop :=
  (x0a ∉ item_line i) /\ (length (item_line i) < BUFSIZ_1K - 1)%nat /\
  match i with
  | Entry key g1 g2 value trail =>
      name_ok key /\ no_nul value /\ beqb (hd x00 value) x20 = false /\
      match last (x3d :: value) with Some b => is_enter b = false | None => True end /\
      (value = [] -> g2 = 0%nat) /\ Forall (fun b => is_enter b = true) trail
  | Comment text => name_char (hd x0a text) = false
  end.

Definition render (items : list item) : bytes :=
  concat ((fun i => item_line i ++ [x0a]) <$> items).

Definition lower (s : bytes) : bytes := tolower <$> s.

Fixpoint first_value (name : bytes) (items : list item) : option bytes :=
  match items with
  | [] => None
  | Entry key _ _ value _ :: items =>
      if bool_decide (lower key = lower name) then Some value else first_value name items
  | Comment _ :: items => first_value name items
  end.

(** A field found by the loop and its text. *)
Definition found (name file v : bytes) : Prop :=
  exists p1 buf, lookup_field name file = Some (p1, (p1 + length v)%nat, buf) /\
    slice p1 (length v) buf = v /\ cstr (drop p1 buf) = v.

Lemma fgets_item i rest :
  item_ok i -> fgets BUFSIZ_1K (item_line i ++ x0a :: rest) = Some (item_line i ++ [x0a], rest).
Proof.
  intros (Hnl & Hlen & _). unfold fgets.
  destruct (item_line i ++ x0a :: rest) eqn:E; [by destruct (item_line i)|].
  rewrite <- E, get_line_newline; [done..|]. unfold BUFSIZ_1K in *. lia.
Qed.

Lemma scan_item_match name key g1 g2 v trail :
  name_ok name -> item_ok (Entry key g1 g2 v trail) -> lower key = lower name ->
  exists p1 buf, scan_line name (item_line (Entry key g1 g2 v trail) ++ [x0a]) =
    Some (p1, (p1 + length v)%nat, buf) /\
    slice p1 (length v) buf = v /\ cstr (drop p1 buf) = v.
Proof.
  intros Hn (_ & _ & Hk & Hv & Hb & Hl & Hg & Ht) Hlow. cbn [item_line].
  pose proof (name_ok_no_nul _ Hn). pose proof (name_ok_no_nul _ Hk).
  destruct (scan_line_match name key g1 g2 v (trail ++ [x0a])) as (p1 & buf & E & Hs & Hc);
    try done; [by destruct Hn|by apply Forall_app|by apply Forall_app; split; [|repeat constructor]|].
  exists p1, buf. split; [|done]. rewrite <- E. f_equal.
  rewrite <- !app_assoc. cbn. by rewrite <- !app_assoc.
Qed.

Lemma scan_item_other name key g1 g2 v trail :
  name_ok name -> item_ok (Entry key g1 g2 v trail) -> lower key <> lower name ->
  scan_line name (item_line (Entry key g1 g2 v trail) ++ [x0a]) = None.
Proof.
  intros Hn (_ & _ & Hk & Hv & Hb & Hl & Hg & Ht) Hlow. cbn [item_line].
  assert (no_nul (replicate g1 x20 ++ x3d :: replicate g2 x20 ++ v ++ trail ++ [x0a])) as Hnn.
  { unfold no_nul. rewrite !Forall_app, Forall_cons, !Forall_app.
    repeat split; try done; try (by apply Forall_replicate); [|by repeat constructor].
    eapply Forall_impl; [exact Ht|]. by intros ? H ->. }
  rewrite <- !app_assoc. cbn [app]. rewrite <- !app_assoc.
  destruct g1 as [|g1]; cbn [replicate app] in *.
  - apply scan_line_other; try done; [by right|set_solver].
  - apply scan_line_other; try done; [by left|set_solver].
Qed.

Lemma find_field_render name items fuel :
  name_ok name -> Forall item_ok items -> (length (render items) <= fuel)%nat ->
  match first_value name items with
  | Some v => exists p1 buf, find_field fuel name (render items) = Some (p1, (p1 + length v)%nat, buf) /\
                slice p1 (length v) buf = v /\ cstr (drop p1 buf) = v
  | None => find_field fuel name (render items) = None
  end.
Proof.
  intros Hn. revert fuel. induction items as [|i items IH]; intros fuel Hok Hf.
  - by destruct fuel.
  - inversion Hok as [|?? Hi Hok']; subst. unfold render in *. cbn [fmap list_fmap concat] in *.
    destruct fuel as [|fuel]; [len|]. cbn [find_field].
    rewrite <- app_assoc. cbn [app]. rewrite fgets_item by done.
    assert (length (concat ((fun i => item_line i ++ [x0a]) <$> items)) <= fuel)%nat as Hf' by len.
    specialize (IH fuel Hok' Hf'). destruct i as [key g1 g2 v trail|text]; cbn [first_value].
    + case_bool_decide as Hlow.
      * destruct (scan_item_match name key g1 g2 v trail Hn Hi Hlow) as (p1 & buf & -> & H).
        by exists p1, buf.
      * by rewrite scan_item_other.
    + rewrite scan_line_comment; [done..|]. destruct Hi as (_ & _ & Hc). cbn. by destruct text.
Qed.

Lemma lookup_field_render name items :
  name_ok name -> Forall item_ok items ->
  match first_value name items with
  | Some v => found name (render items) v
  | None => lookup_field name (render items) = None
  end.
Proof. intros. by apply find_field_render. Qed.

Lemma getFieldString_dup_first name items :
  name_ok name -> Forall item_ok items ->
  getFieldString_dup name (mkQConfigReader (Some (render items))) =
  match first_value name items with
  | Some v => (Z.of_nat (length v), Some v)
  | None => (-1, None)
  end.
Proof.
  intros Hn Hok. unfold getFieldString_dup. cbn [fp].
  destruct (Nat.eqb_spec (length name) 0) as [E|_].
  { destruct Hn as [Hn _]. by destruct name. }
  pose proof (lookup_field_render name items Hn Hok) as H.
  destruct (first_value name items) as [v|]; [|by rewrite H].
  destruct H as (p1 & buf & -> & _ & ->). f_equal. lia.
Qed.

(** In a file of [key = value] lines and comments, the string getter
    returns the value of the first line whose key is the name up to the case
    of letters, with its length, and -1 when there is none. *)
Theorem getFieldString_dup_render name items :
  name_ok name -> Forall item_ok items ->
  getFieldString_dup name (mkQConfigReader (Some (render items))) =
  match first_value name items with
  | Some v => (Z.of_nat (length v), Some v)
  | None => (-1, None)
  end.
Proof. apply getFieldString_dup_first. Qed.

Definition sample_items : list item :=
  [Comment (str "# image server"); Entry (str "Img-Path") 1 1 (str "/data/img") [x0d];
   Entry (str "img-path") 0 0 (str "other") []; Comment []].

Lemma sample_items_ok : Forall item_ok sample_items.
Proof.
  repeat constructor; try done; try (by apply (bool_decide_eq_true_1 (x0a ∉ _)));
    cbn; unfold BUFSIZ_1K; lia.
Qed.

Lemma getFieldString_dup_render_witness :
  getFieldString_dup (str "img-path") (mkQConfigReader (Some (render sample_items))) =
  (9, Some (str "/data/img")).
Proof.
  rewrite getFieldString_dup_render; [reflexivity| |exact sample_items_ok].
  split; [done|]. repeat constructor.
Defined.

(** ** Bounds *)

Lemma cancelEnter_loop_le buf n : (cancelEnter_loop buf n <= n)%nat.
Proof. induction n as [|n IH]; cbn; [lia|]. cases; lia. Qed.

Lemma skip_blanks_ge n buf p : (p <= skip_blanks n buf p)%nat.
Proof.
  revert p. induction n as [|n IH]; intros p; cbn; [lia|]. cases; try lia.
  etransitivity; [|apply IH]. lia.
Qed.

Lemma scan_line_bounds name line p1 p2 buf :
  scan_line name line = Some (p1, p2, buf) -> (0 < p1 /\ p2 <= length line)%nat.
Proof.
  unfold scan_line. case_match; [done|].
  assert (Z.to_nat (strlen (line ++ [NUL])) <= length line)%nat as Hlen.
  { unfold strlen. rewrite Nat2Z.id. clear. induction line as [|b l IH]; cbn; [lia|].
    destruct (beqb b NUL); cbn; lia. }
  unfold cancelEnter. destruct (Z.to_nat (strlen (line ++ [NUL]))) as [|n] eqn:En; [done|].
  pose proof (cancelEnter_loop_le (line ++ [NUL]) (S n)).
  intros. cases; simplify_eq.
  split; [eapply Nat.lt_le_trans; [|apply skip_blanks_ge]; lia|lia].
Qed.

Lemma lookup_field_bounds name file p1 p2 buf :
  lookup_field name file = Some (p1, p2, buf) -> (p2 - p1 < BUFSIZ_1K - 1)%nat.
Proof.
  unfold lookup_field. generalize (length file) as fuel. intros fuel. revert file.
  induction fuel as [|fuel IH]; intros file; cbn; [done|].
  destruct (fgets BUFSIZ_1K file) as [[line rest]|] eqn:Eg; [|done].
  destruct (scan_line name line) as [r|] eqn:Es; [|apply IH].
  intros [= ->]. apply scan_line_bounds in Es as [Hp1 Hp2].
  apply length_fgets in Eg. unfold BUFSIZ_1K in *. lia.
Qed.

(** With the 1024-byte buffers the getters pass, a lookup never writes
    outside the value buffer, whatever the file and the name: it returns -1 or
    the length of a NUL-terminated value that fits. *)
Theorem getFieldString_buf_safe name value cfg :
  length value = BUFSIZ_1K ->
  exists r value', getFieldString_buf name value cfg = Some (r, value') /\
    length value' = BUFSIZ_1K /\
    (r = -1 \/ 0 <= r < Z.of_nat BUFSIZ_1K /\ value' !! Z.to_nat r = Some NUL).
Proof.
  intros Hv. unfold getFieldString_buf. destruct (fp cfg) as [file|]; [|eauto 8].
  rewrite Hv. change (BUFSIZ_1K =? 0)%nat with false. cbn iota.
  assert (length (<[0%nat := NUL]> value) = BUFSIZ_1K) as Hv' by (by rewrite length_insert).
  destruct (length name =? 0)%nat; [eauto 8|].
  destruct (lookup_field name file) as [[[p1 p2] buf]|] eqn:El; [|eauto 8].
  apply lookup_field_bounds in El. rewrite Hv'.
  destruct (Nat.ltb_spec BUFSIZ_1K (p2 - p1)); [eauto 8|].
  destruct (Nat.leb_spec BUFSIZ_1K (p2 - p1)); [lia|].
  eexists _, _. split; [done|]. rewrite length_insert, length_inserts.
  split; [done|]. right. split; [lia|]. rewrite Nat2Z.id.
  apply list_lookup_insert_eq. rewrite length_inserts. lia.
Qed.

Lemma getFieldString_buf_safe_witness :
  exists r value', getFieldString_buf (str "img-path") (replicate BUFSIZ_1K NUL)
      (mkQConfigReader (Some (str "img-path=/data/img"))) = Some (r, value') /\
    length value' = BUFSIZ_1K /\
    (r = -1 \/ 0 <= r < Z.of_nat BUFSIZ_1K /\ value' !! Z.to_nat r = Some NUL).
Proof. apply getFieldString_buf_safe. apply length_replicate. Defined.

(** The guard of [getFieldString] lets a value exactly as long as the
    buffer through, and the terminating NUL is then written one byte past its
    end: the guard compares with [>] where the NUL needs [>=]. *)
Theorem getFieldString_buf_off_by_one name file p1 p2 buf value :
  lookup_field name file = Some (p1, p2, buf) -> name <> [] -> value <> [] ->
  length value = (p2 - p1)%nat ->
  getFieldString_buf name value (mkQConfigReader (Some file)) = None.
Proof.
  intros El Hn Hv Hl. unfold getFieldString_buf. cbn [fp].
  destruct value as [|b value]; [done|]. destruct name as [|c name]; [done|].
  cbn [length Nat.eqb insert list_insert]. rewrite El. cbn [length] in Hl. rewrite Hl.
  destruct (Nat.ltb_spec (p2 - p1) (p2 - p1)); [lia|].
  by destruct (Nat.leb_spec (p2 - p1) (p2 - p1)); [|lia].
Qed.

Lemma getFieldString_buf_off_by_one_witness :
  getFieldString_buf (str "port") (replicate 4 NUL) (mkQConfigReader (Some (str "port = 8190"))) = None.
Proof.
  by eapply (getFieldString_buf_off_by_one (str "port") (str "port = 8190") 7 11).
Defined.

(** ** Typed values *)

Lemma first_value_length name items v :
  Forall item_ok items -> first_value name items = Some v -> (length v < BUFSIZ_1K - 1)%nat.
Proof.
  induction 1 as [|i items Hi _ IH]; [done|]. destruct i as [key g1 g2 w trail|text]; cbn; [|done].
  case_bool_decide; [|done]. intros [= ->]. destruct Hi as (_ & Hl & _). unfold item_line in Hl. len.
Qed.

Lemma field_text_render name items v :
  name_ok name -> Forall item_ok items -> first_value name items = Some v -> v <> [] ->
  field_text name (mkQConfigReader (Some (render items))) =
  Some (v ++ replicate (BUFSIZ_1K - length v) NUL).
Proof.
  intros Hn Hok Hv Hne. pose proof (lookup_field_render name items Hn Hok) as H.
  pose proof (first_value_length name items v Hok Hv) as Hlv.
  rewrite Hv in H. destruct H as (p1 & buf & El & Hs & _).
  unfold field_text, getFieldString_buf. cbn [fp]. rewrite length_replicate.
  destruct (Nat.eqb_spec (length name) 0) as [E|_]; [by destruct Hn, name|].
  rewrite El, length_insert, length_replicate. change (BUFSIZ_1K =? 0)%nat with false. cbn iota.
  change BUFSIZ_1K with 1024%nat in *.
  replace (p1 + length v - p1)%nat with (length v) by lia.
  destruct (Nat.ltb_spec 1024 (length v)); [lia|].
  destruct (Nat.leb_spec 1024 (length v)); [lia|].
  destruct (Z.leb_spec (Z.of_nat (length v)) 0); [destruct v; [done|cbn in *; lia]|].
  rewrite Hs. f_equal.
  assert (<[0%nat := NUL]> (replicate 1024 NUL) = replicate (length v) NUL ++ replicate (1024 - length v) NUL) as ->.
  { rewrite <- replicate_add. replace (length v + (1024 - length v))%nat with 1024%nat by lia.
    reflexivity. }
  rewrite inserts_prefix by apply length_replicate.
  rewrite insert_app_r_alt by done. rewrite Nat.sub_diag.
  destruct (1024 - length v)%nat eqn:E; [lia|]. done.
Qed.

Lemma field_text_absent name items :
  name_ok name -> Forall item_ok items ->
  first_value name items = None \/ first_value name items = Some [] ->
  field_text name (mkQConfigReader (Some (render items))) = None.
Proof.
  intros Hn Hok Hv. pose proof (lookup_field_render name items Hn Hok) as H.
  unfold field_text, getFieldString_buf. cbn [fp]. rewrite length_replicate.
  destruct (Nat.eqb_spec (length name) 0) as [E|_]; [by destruct Hn, name|].
  change (BUFSIZ_1K =? 0)%nat with false. cbn iota.
  destruct Hv as [-> | ->] in H; [by rewrite H|]. destruct H as (p1 & buf & -> & _).
  rewrite length_insert, length_replicate. cbn [length]. replace (p1 + 0 - p1)%nat with 0%nat by lia. done.
Qed.

(** A decimal [int32_t] written in the configuration file is read back by
    [getFieldInt32] unchanged. *)
Theorem getFieldInt32_render name items n old :
  name_ok name -> Forall item_ok items -> first_value name items = Some (fmt_d n) -> is_i32 n ->
  getFieldInt32 name (mkQConfigReader (Some (render items))) old = (0, n).
Proof.
  intros Hn Hok Hv Hi. unfold getFieldInt32, getField.
  rewrite (field_text_render name items _ Hn Hok Hv).
  - f_equal. apply atoi_fmt_d; [done|].
    by destruct (BUFSIZ_1K - length (fmt_d n))%nat.
  - unfold fmt_d. destruct (n <? 0); [done|]. unfold fmt_u.
    intros E%fmap_nil_inv. by apply to_base_nonempty in E.
Qed.

(** The seconds [getFieldTime] reports are always the minutes: the second
    search for a colon starts again at the beginning of the value, so
    [hh:mm:ss] yields [3600*hh + 61*mm]. *)
Theorem getFieldTime_seconds name cfg r hour minute second :
  getFieldTime name cfg = (r, (hour, minute, second)) -> r <> -1 ->
  second = minute /\ r = i32 (hour * 3600 + minute * 61).
Proof.
  unfold getFieldTime. intros H Hr. cases; simplify_eq. split; [done|]. f_equal. lia.
Qed.

Lemma getFieldTime_seconds_witness :
  34 = 34 /\ 45240 + 34 = i32 (12 * 3600 + 34 * 61).
Proof.
  apply (getFieldTime_seconds (str "backup") (mkQConfigReader (Some (str "backup=12:34:56"))));
    [by vm_compute|lia].
Defined.

End Config.
