(* ===== verification/MD5Spec.v ===== *)
(** * MD5Spec: the MD5 digest as a function of the message (RFC 1321)

    The digest is defined on the whole padded message, one 64-byte block after
    the other.  The second half is the theory of incremental hashing that the
    two implementations of the sources share: what a context must hold after
    a given message ([srep], [crep]) and how feeding it more bytes acts. *)

From S2P Require Import Prelude.

Module Spec.

(** ** Words *)

Definition WORD_MAX : Z := 2 ^ 32 - 1.

(** [~x] on 32 bits. *)
Definition word_not (x : Z) : Z := Z.lxor x WORD_MAX.

Definition rotl (x n : Z) : Z := Z.lor (u32 (Z.shiftl x n)) (Z.shiftr x (32 - n)).

Definition aux_F (x y z : Z) : Z := Z.lor (Z.land x y) (Z.land (word_not x) z).
Definition aux_G (x y z : Z) : Z := Z.lor (Z.land x z) (Z.land y (word_not z)).
Definition aux_H (x y z : Z) : Z := Z.lxor (Z.lxor x y) z.
Definition aux_I (x y z : Z) : Z := Z.lxor y (Z.lor x (word_not z)).

(** ** Compression of a block *)

Record regs : Type := Regs { reg_a : Z; reg_b : Z; reg_c : Z; reg_d : Z }.

Definition IV : regs := Regs 0x67452301 0xefcdab89 0x98badcfe 0x10325476.

(** The integer parts of [2^32 * abs(sin i)], for [i] from 1 to 64. *)
Definition sine_table : list Z :=
  [0xd76aa478; 0xe8c7b756; 0x242070db; 0xc1bdceee; 0xf57c0faf; 0x4787c62a; 0xa8304613; 0xfd469501;
   0x698098d8; 0x8b44f7af; 0xffff5bb1; 0x895cd7be; 0x6b901122; 0xfd987193; 0xa679438e; 0x49b40821;
   0xf61e2562; 0xc040b340; 0x265e5a51; 0xe9b6c7aa; 0xd62f105d; 0x02441453; 0xd8a1e681; 0xe7d3fbc8;
   0x21e1cde6; 0xc33707d6; 0xf4d50d87; 0x455a14ed; 0xa9e3e905; 0xfcefa3f8; 0x676f02d9; 0x8d2a4c8a;
   0xfffa3942; 0x8771f681; 0x6d9d6122; 0xfde5380c; 0xa4beea44; 0x4bdecfa9; 0xf6bb4b60; 0xbebfbc70;
   0x289b7ec6; 0xeaa127fa; 0xd4ef3085; 0x04881d05; 0xd9d4d039; 0xe6db99e5; 0x1fa27cf8; 0xc4ac5665;
   0xf4292244; 0x432aff97; 0xab9423a7; 0xfc93a039; 0x655b59c3; 0x8f0ccc92; 0xffeff47d; 0x85845dd1;
   0x6fa87e4f; 0xfe2ce6e0; 0xa3014314; 0x4e0811a1; 0xf7537e82; 0xbd3af235; 0x2ad7d2bb; 0xeb86d391].

Definition round_fun (i : nat) : Z -> Z -> Z -> Z :=
  match (i / 16)%nat with 0%nat => aux_F | 1%nat => aux_G | 2%nat => aux_H | _ => aux_I end.

(** Which word of the block step [i] reads. *)
Definition round_word (i : nat) : nat :=
  match (i / 16)%nat with
  | 0%nat => i
  | 1%nat => (5 * i + 1) mod 16
  | 2%nat => (3 * i + 5) mod 16
  | _ => (7 * i) mod 16
  end%nat.

Definition round_shift (i : nat) : Z :=
  nth (i mod 4)
    match (i / 16)%nat with
    | 0%nat => [7; 12; 17; 22]
    | 1%nat => [5; 9; 14; 20]
    | 2%nat => [4; 11; 16; 23]
    | _ => [6; 10; 15; 21]
    end 0.

(** One step, with the registers rotated after it. *)
Definition step (x : list Z) (i : nat) (r : regs) : regs :=
  let '(Regs a b c d) := r in
  let t := u32 (a + (round_fun i b c d + nth (round_word i) x 0 + nth i sine_table 0)) in
  Regs d (u32 (rotl t (round_shift i) + b)) b c.

Fixpoint block_words (n : nat) (block : bytes) : list Z :=
  match n with
  | O => []
  | S n => le_decode (take 4 block) :: block_words n (drop 4 block)
  end.

Definition add_regs (r s : regs) : regs :=
  Regs (u32 (reg_a r + reg_a s)) (u32 (reg_b r + reg_b s))
       (u32 (reg_c r + reg_c s)) (u32 (reg_d r + reg_d s)).

Definition compress (r : regs) (block : bytes) : regs :=
  add_regs r (foldl (fun r i => step (block_words 16 block) i r) r (seq 0 64)).

(** ** The whole message *)

Section absorb.
Context {St : Type} (f : St -> bytes -> St).

Fixpoint absorb (n : nat) (st : St) (m : bytes) : St :=
  match n with
  | O => st
  | S n => absorb n (f st (take 64 m)) (drop 64 m)
  end.

Lemma absorb_add n k st m :
  absorb (n + k) st m = absorb k (absorb n st m) (drop (64 * n) m).
Proof.
  revert st m. induction n as [|n IH]; intros st m; cbn [absorb Nat.add].
  - by rewrite drop_0.
  - rewrite IH, drop_drop. do 2 f_equal. lia.
Qed.

Lemma absorb_app_l n st m t :
  (64 * n <= length m)%nat -> absorb n st (m ++ t) = absorb n st m.
Proof.
  revert st m. induction n as [|n IH]; intros st m Hn; cbn [absorb]; [done|].
  rewrite take_app_le, drop_app_le by lia. apply IH. rewrite length_drop. lia.
Qed.
End absorb.

Lemma absorb_ext {St} (f g : St -> bytes -> St) n st m :
  (forall st b, length b = 64%nat -> f st b = g st b) -> (64 * n <= length m)%nat ->
  absorb f n st m = absorb g n st m.
Proof.
  intros Hfg. revert st m. induction n as [|n IH]; intros st m Hn; cbn [absorb]; [done|].
  rewrite Hfg by (rewrite length_take; lia). apply IH. rewrite length_drop. lia.
Qed.

(** [0x80], zeros up to 8 bytes before a block boundary, the bit length. *)
Definition padding (len : nat) : bytes :=
  x80 :: replicate ((119 - len mod 64) mod 64) x00 ++ le_encode 8 (8 * Z.of_nat len).

Definition digest_of (r : regs) : bytes :=
  le_encode 4 (reg_a r) ++ le_encode 4 (reg_b r) ++ le_encode 4 (reg_c r) ++ le_encode 4 (reg_d r).

Definition md5 (m : bytes) : bytes :=
  let p := m ++ padding (length m) in
  digest_of (absorb compress (length p / 64) IV p).

Lemma length_padding len : ((len + length (padding len)) mod 64 = 0)%nat.
Proof.
  unfold padding. cbn [length]. rewrite length_app, length_replicate, length_le_encode.
  pose proof (Nat.mod_upper_bound len 64 ltac:(lia)).
  pose proof (Nat.div_mod_eq len 64) as E. set (q := (len / 64)%nat) in *. set (r := (len mod 64)%nat) in *.
  destruct (Nat.lt_ge_cases r 56).
  - replace (119 - r)%nat with (55 - r + 1 * 64)%nat by lia.
    rewrite Nat.Div0.mod_add, (Nat.mod_small (55 - r)) by lia.
    replace (len + S (55 - r + 8))%nat with ((q + 1) * 64)%nat by lia. apply Nat.Div0.mod_mul.
  - rewrite (Nat.mod_small (119 - r)) by lia.
    replace (len + S (119 - r + 8))%nat with ((q + 2) * 64)%nat by lia. apply Nat.Div0.mod_mul.
Qed.

(** The digest of the RFC's test suite. *)
Example md5_abc :
  md5 (str "abc") =
  [x90; x01; x50; x98; x3c; xd2; x4f; xb0; xd6; x96; x3f; x7d; x28; xe1; x7f; x72].
Proof. vm_compute. reflexivity. Qed.

(** ** Incremental hashing

    A context after the message [m] holds the state of the whole blocks of
    [m] and, at the front of its buffer, the bytes that remain. *)

Section stream.
Context {St : Type} (f : St -> bytes -> St) (iv : St).
Implicit Types (m input buf : bytes).

Record srep (st : St) (buf m : bytes) : Prop := {
  srep_len : length buf = 64%nat;
  srep_state : st = absorb f (length m / 64) iv m;
  srep_rest : take (length m mod 64) buf = drop (64 * (length m / 64)) m
}.

Lemma srep_nil buf : length buf = 64%nat -> srep iv buf [].
Proof. by constructor. Qed.

(** The buffer split at the fill level. *)
Lemma srep_split st buf m :
  srep st buf m ->
  exists w z r, buf = r ++ w ++ z /\ m = take (64 * (length m / 64)) m ++ r /\
    length r = (length m mod 64)%nat /\ z = [] /\ length w = (64 - length m mod 64)%nat.
Proof.
  intros [Hl _ Hr]. exists (drop (length m mod 64) buf), [], (drop (64 * (length m / 64)) m).
  pose proof (Nat.mod_upper_bound (length m) 64 ltac:(lia)).
  rewrite app_nil_r, <- Hr, take_drop, Hr, take_drop.
  repeat split; rewrite length_drop; pose proof (Nat.div_mod_eq (length m) 64); lia.
Qed.

(** Input that does not fill the buffer is appended to it. *)
Lemma srep_buffer st buf m input :
  srep st buf m -> (length input < 64 - length m mod 64)%nat ->
  srep st (list_inserts (length m mod 64) input buf) (m ++ input).
Proof.
  intros H Hi. pose proof H as [Hl Hst Hr].
  assert (length (m ++ input) / 64 = length m / 64)%nat as Hd.
  { rewrite length_app. pose proof (Nat.div_mod_eq (length m) 64).
    symmetry. apply Nat.div_unique with (length m mod 64 + length input)%nat; lia. }
  assert (length (m ++ input) mod 64 = length m mod 64 + length input)%nat as Hm.
  { rewrite length_app. pose proof (Nat.div_mod_eq (length m) 64).
    symmetry. apply Nat.mod_unique with (length m / 64)%nat; lia. }
  pose proof (Nat.Div0.mul_div_le (length m) 64).
  constructor.
  - by rewrite length_inserts.
  - rewrite Hst, Hd. symmetry. apply absorb_app_l. lia.
  - rewrite Hm, Hd, drop_app_le, <- Hr by lia.
    destruct (srep_split st buf m H) as (w & z & r & -> & Hmr & Hrl & -> & Hw).
    rewrite app_nil_r, <- (take_drop (length input) w).
    rewrite inserts_middle by (try rewrite length_take; lia).
    rewrite <- Hrl, take_app_length, app_assoc. apply take_app_length'. rewrite length_app. lia.
Qed.

(** Input that fills the buffer: one block from the buffer, then [n] whole
    blocks of the input, and the rest at the front of the buffer. *)
Lemma srep_fill st buf m input :
  srep st buf m ->
  let p := (64 - length m mod 64)%nat in
  let n := ((length input - p) / 64)%nat in
  let buf1 := list_inserts (length m mod 64) (take p input) buf in
  (p <= length input)%nat ->
  srep (absorb f n (f st buf1) (drop p input))
       (list_inserts 0 (drop (p + 64 * n) input) buf1) (m ++ input).
Proof.
  intros H p n buf1 Hp. pose proof H as [Hl Hst Hr].
  pose proof (Nat.mod_upper_bound (length m) 64 ltac:(lia)) as Hmm.
  pose proof (Nat.div_mod_eq (length m) 64) as Hdm.
  pose proof (Nat.div_mod_eq (length input - p) 64) as Hdi.
  pose proof (Nat.mod_upper_bound (length input - p) 64 ltac:(lia)) as Hmi.
  assert (length (m ++ input) / 64 = length m / 64 + (1 + n))%nat as Hd.
  { rewrite length_app. symmetry. apply Nat.div_unique with ((length input - p) mod 64)%nat; lia. }
  assert (length (m ++ input) mod 64 = (length input - p) mod 64)%nat as Hm.
  { rewrite length_app. symmetry. apply Nat.mod_unique with (length m / 64 + (1 + n))%nat; lia. }
  destruct (srep_split st buf m H) as (w & z & r & Hbuf & Hmr & Hrl & -> & Hw).
  assert (buf1 = r ++ take p input) as Hb1.
  { unfold buf1. rewrite Hbuf, inserts_middle by (try rewrite length_take; lia).
    by rewrite app_nil_r. }
  set (M := take (64 * (length m / 64)) m) in *.
  assert (length M = 64 * (length m / 64))%nat as HM.
  { unfold M. rewrite length_take. lia. }
  assert (length buf1 = 64%nat) as Hb1l by (rewrite Hb1, length_app, length_take; lia).
  assert (m ++ input = M ++ buf1 ++ drop p input) as Hsplit.
  { rewrite Hb1, <- app_assoc, take_drop. rewrite Hmr at 1. by rewrite <- app_assoc. }
  constructor.
  - by rewrite length_inserts.
  - rewrite Hd, Hsplit, absorb_add, absorb_app_l, drop_app_length' by lia. cbn [absorb Nat.add].
    rewrite take_app_length', drop_app_length' by lia. f_equal. f_equal.
    rewrite Hst, <- (absorb_app_l f _ iv M r) by lia. by rewrite <- Hmr.
  - rewrite Hm, Hd, Hsplit.
    rewrite (drop_app_ge M), HM by lia.
    rewrite (drop_app_ge buf1) by lia. rewrite drop_drop, Hb1l.
    replace (p + (64 * (length m / 64 + (1 + n)) - 64 * (length m / 64) - 64))%nat
      with (p + 64 * n)%nat by lia.
    rewrite <- (take_drop (length (drop (p + 64 * n) input)) buf1), inserts_prefix.
    + apply take_app_length'. rewrite length_drop. lia.
    + rewrite length_take, length_drop. lia.
Qed.

End stream.

(** The bit counter of a context: two 32-bit words, low word first. *)
Definition crep (lo hi : Z) (m : bytes) : Prop :=
  lo = u32 (8 * Z.of_nat (length m)) /\ hi = u32 (8 * Z.of_nat (length m) / 2 ^ 32).

(** The carry and shift arithmetic of the update routines. *)
Lemma crep_update lo hi m input :
  crep lo hi m -> Z.of_nat (length input) < 2 ^ 32 ->
  let n := Z.of_nat (length input) in
  let add := u32 (Z.shiftl n 3) in
  let lo' := u32 (lo + add) in
  let hi1 := if lo' <? add then u32 (hi + 1) else hi in
  crep lo' (u32 (hi1 + Z.shiftr n 29)) (m ++ input).
Proof.
  intros [-> ->] Hn n add lo' hi1. unfold crep. rewrite length_app, Nat2Z.inj_add.
  fold n. set (k := Z.of_nat (length m)) in *. unfold hi1, lo', add, u32.
  rewrite Z.shiftl_mul_pow2, Z.shiftr_div_pow2 by lia.
  change (2 ^ 3) with 8. change (2 ^ 29) with 536870912. change (2 ^ 32) with 4294967296 in *.
  assert (n / 536870912 = n * 8 / 4294967296) as -> by (Z.div_mod_to_equations; lia).
  set (W := 4294967296) in *. assert (0 < W) as HW by (unfold W; lia).
  pose proof (Z.div_mod (8 * k) W ltac:(lia)) as Ha.
  pose proof (Z.div_mod (n * 8) W ltac:(lia)) as Hb.
  pose proof (Z.mod_pos_bound (8 * k) W HW) as Ha0. pose proof (Z.mod_pos_bound (n * 8) W HW) as Hb0.
  set (a0 := (8 * k) mod W) in *. set (a1 := 8 * k / W) in *.
  set (b0 := (n * 8) mod W) in *. set (b1 := n * 8 / W) in *.
  replace (8 * (k + n)) with (a0 + b0 + (a1 + b1) * W) by lia.
  rewrite Z.mod_add, Z.div_add by lia. split; [done|].
  clearbody W a0 a1 b0 b1. destruct (Z.lt_ge_cases (a0 + b0) W).
  - rewrite (Z.mod_small (a0 + b0)), Z.div_small by lia.
    destruct (Z.ltb_spec (a0 + b0) b0); [lia|]. by rewrite Zplus_mod_idemp_l.
  - assert ((a0 + b0) mod W = a0 + b0 - W) as ->
      by (symmetry; apply Z.mod_unique with 1; lia).
    assert ((a0 + b0) / W = 1) as -> by (symmetry; apply Z.div_unique with (a0 + b0 - W); lia).
    destruct (Z.ltb_spec (a0 + b0 - W) b0); [|lia].
    rewrite !Zplus_mod_idemp_l.
    rewrite <- (Z.add_assoc _ 1), Zplus_mod_idemp_l. f_equal. lia.
Qed.

Lemma crep_index lo hi m : crep lo hi m -> Z.to_nat (lo / 8 mod 64) = (length m mod 64)%nat.
Proof.
  intros [-> _]. unfold u32. change (2 ^ 32) with 4294967296.
  assert (8 * Z.of_nat (length m) mod 4294967296 / 8 mod 64 = Z.of_nat (length m) mod 64) as ->
    by (Z.div_mod_to_equations; lia).
  rewrite <- (Nat2Z.inj_mod _ 64). lia.
Qed.

(** Reading four bytes as a little-endian word with shifts and ors. *)
Lemma lor_shift a b n : 0 <= n -> 0 <= a < 2 ^ n -> Z.lor a (Z.shiftl b n) = a + b * 2 ^ n.
Proof.
  intros Hn Ha. rewrite <- Z.shiftl_mul_pow2 by done.
  assert (Z.land a (Z.shiftl b n) = 0) as E.
  { apply Z.bits_inj'. intros i Hi. rewrite Z.land_spec, Z.bits_0, Z.shiftl_spec by done.
    destruct (Z.lt_ge_cases i n).
    - rewrite (Z.testbit_neg_r b) by lia. apply andb_false_r.
    - rewrite <- (Z.mod_small a (2 ^ n)), Z.mod_pow2_bits_high by lia. done. }
  rewrite <- Z.lxor_lor by done. symmetry. by apply Z.add_nocarry_lxor.
Qed.

Lemma word_of_bytes b0 b1 b2 b3 :
  Z.lor (Z.lor (Z.lor (byte_val b0) (Z.shiftl (byte_val b1) 8)) (Z.shiftl (byte_val b2) 16))
        (Z.shiftl (byte_val b3) 24) = le_decode [b0; b1; b2; b3].
Proof.
  pose proof (byte_val_range b0). pose proof (byte_val_range b1).
  pose proof (byte_val_range b2). pose proof (byte_val_range b3).
  rewrite (lor_shift (byte_val b0)) by lia.
  rewrite (lor_shift (byte_val b0 + byte_val b1 * 2 ^ 8)) by lia.
  rewrite lor_shift by lia. cbn [le_decode]. lia.
Qed.

Lemma bytes_of_word w :
  [byte_of (Z.land w 0xff); byte_of (Z.land (Z.shiftr w 8) 0xff);
   byte_of (Z.land (Z.shiftr w 16) 0xff); byte_of (Z.land (Z.shiftr w 24) 0xff)] = le_encode 4 w.
Proof.
  change 0xff with (Z.ones 8). rewrite !Z.land_ones, !Z.shiftr_div_pow2 by lia.
  change (2 ^ 8) with 256. rewrite !byte_of_mod. cbn [le_encode].
  rewrite !Z.div_div by lia. done.
Qed.

(** Bytes modulo the block size, as both implementations compute it. *)
Lemma index_land c : Z.land (Z.shiftr c 3) 0x3f = c / 8 mod 64.
Proof. change 0x3f with (Z.ones 6). by rewrite Z.land_ones, Z.shiftr_div_pow2 by lia. Qed.

Lemma crep_bits lo hi m :
  crep lo hi m -> le_encode 4 lo ++ le_encode 4 hi = le_encode 8 (8 * Z.of_nat (length m)).
Proof.
  intros [-> ->]. set (v := 8 * Z.of_nat (length m)).
  apply le_decode_inj; [by rewrite length_app, !length_le_encode|].
  rewrite le_decode_app, !le_decode_encode, length_le_encode.
  change (256 ^ Z.of_nat 4) with 4294967296. change (256 ^ Z.of_nat 8) with 18446744073709551616.
  unfold u32. change (2 ^ 32) with 4294967296.
  assert (0 <= v) by lia. clearbody v. Z.div_mod_to_equations. lia.
Qed.
End Spec.
