(* ===== verification/QMD5.v ===== *)
(** * QMD5: the MD5 of src/include/common/qmd5.h

    The context, the 64 macro steps of [MD5Transform] in the order of the
    source, the update loop with its unsigned arithmetic and the final
    padding.  The theorems identify the digest with the one of [MD5Spec], for
    every input shorter than 2^31 bytes, fed in one or in several pieces. *)

From S2P Require Import Prelude MD5Spec.

Module Qmd5.
Import Spec.

#[local] Notation S11 := 7 (only parsing).
#[local] Notation S12 := 12 (only parsing).
#[local] Notation S13 := 17 (only parsing).
#[local] Notation S14 := 22 (only parsing).
#[local] Notation S21 := 5 (only parsing).
#[local] Notation S22 := 9 (only parsing).
#[local] Notation S23 := 14 (only parsing).
#[local] Notation S24 := 20 (only parsing).
#[local] Notation S31 := 4 (only parsing).
#[local] Notation S32 := 11 (only parsing).
#[local] Notation S33 := 16 (only parsing).
#[local] Notation S34 := 23 (only parsing).
#[local] Notation S41 := 6 (only parsing).
#[local] Notation S42 := 10 (only parsing).
#[local] Notation S43 := 15 (only parsing).
#[local] Notation S44 := 21 (only parsing).

(** ** Macros *)

Abbreviation F := (fun x y z : Z => Z.lor (Z.land x y) (Z.land (word_not x) z)) (only parsing).
Abbreviation G := (fun x y z : Z => Z.lor (Z.land x z) (Z.land y (word_not z))) (only parsing).
Abbreviation H := (fun x y z : Z => Z.lxor (Z.lxor x y) z) (only parsing).
Abbreviation I := (fun x y z : Z => Z.lxor y (Z.lor x (word_not z))) (only parsing).

Abbreviation ROTATE_LEFT x n := (Z.lor (u32 (Z.shiftl x n)) (Z.shiftr x (32 - n))) (only parsing).

(** The variables [a], [b], [c] and [d] of [MD5Transform]. *)
Inductive reg : Type := A | B | C | D.

Definition get (v : reg) (r : regs) : Z :=
  match v with A => reg_a r | B => reg_b r | C => reg_c r | D => reg_d r end.

Definition set (v : reg) (z : Z) (r : regs) : regs :=
  let '(Regs a b c d) := r in
  match v with
  | A => Regs z b c d
  | B => Regs a z c d
  | C => Regs a b z d
  | D => Regs a b c z
  end.

(** The common shape of the four step macros, for the auxiliary function [f]. *)
Definition STEP (f : Z -> Z -> Z -> Z) (a b c d : reg) (k : nat) (s ac : Z)
    (x : list Z) (r : regs) : regs :=
  let r := set a (u32 (get a r + (f (get b r) (get c r) (get d r) + nth k x 0 + ac))) r in
  let r := set a (ROTATE_LEFT (get a r) s) r in
  set a (u32 (get a r + get b r)) r.

Abbreviation FF := (STEP F) (only parsing).
Abbreviation GG := (STEP G) (only parsing).
Abbreviation HH := (STEP H) (only parsing).
Abbreviation II := (STEP I) (only parsing).

(** ** MD5Transform *)

Definition Round1 : list (list Z -> regs -> regs) :=
  [FF A B C D 0 S11 0xd76aa478; FF D A B C 1 S12 0xe8c7b756;
   FF C D A B 2 S13 0x242070db; FF B C D A 3 S14 0xc1bdceee;
   FF A B C D 4 S11 0xf57c0faf; FF D A B C 5 S12 0x4787c62a;
   FF C D A B 6 S13 0xa8304613; FF B C D A 7 S14 0xfd469501;
   FF A B C D 8 S11 0x698098d8; FF D A B C 9 S12 0x8b44f7af;
   FF C D A B 10 S13 0xffff5bb1; FF B C D A 11 S14 0x895cd7be;
   FF A B C D 12 S11 0x6b901122; FF D A B C 13 S12 0xfd987193;
   FF C D A B 14 S13 0xa679438e; FF B C D A 15 S14 0x49b40821].

Definition Round2 : list (list Z -> regs -> regs) :=
  [GG A B C D 1 S21 0xf61e2562; GG D A B C 6 S22 0xc040b340;
   GG C D A B 11 S23 0x265e5a51; GG B C D A 0 S24 0xe9b6c7aa;
   GG A B C D 5 S21 0xd62f105d; GG D A B C 10 S22 0x2441453;
   GG C D A B 15 S23 0xd8a1e681; GG B C D A 4 S24 0xe7d3fbc8;
   GG A B C D 9 S21 0x21e1cde6; GG D A B C 14 S22 0xc33707d6;
   GG C D A B 3 S23 0xf4d50d87; GG B C D A 8 S24 0x455a14ed;
   GG A B C D 13 S21 0xa9e3e905; GG D A B C 2 S22 0xfcefa3f8;
   GG C D A B 7 S23 0x676f02d9; GG B C D A 12 S24 0x8d2a4c8a].

Definition Round3 : list (list Z -> regs -> regs) :=
  [HH A B C D 5 S31 0xfffa3942; HH D A B C 8 S32 0x8771f681;
   HH C D A B 11 S33 0x6d9d6122; HH B C D A 14 S34 0xfde5380c;
   HH A B C D 1 S31 0xa4beea44; HH D A B C 4 S32 0x4bdecfa9;
   HH C D A B 7 S33 0xf6bb4b60; HH B C D A 10 S34 0xbebfbc70;
   HH A B C D 13 S31 0x289b7ec6; HH D A B C 0 S32 0xeaa127fa;
   HH C D A B 3 S33 0xd4ef3085; HH B C D A 6 S34 0x4881d05;
   HH A B C D 9 S31 0xd9d4d039; HH D A B C 12 S32 0xe6db99e5;
   HH C D A B 15 S33 0x1fa27cf8; HH B C D A 2 S34 0xc4ac5665].

Definition Round4 : list (list Z -> regs -> regs) :=
  [II A B C D 0 S41 0xf4292244; II D A B C 7 S42 0x432aff97;
   II C D A B 14 S43 0xab9423a7; II B C D A 5 S44 0xfc93a039;
   II A B C D 12 S41 0x655b59c3; II D A B C 3 S42 0x8f0ccc92;
   II C D A B 10 S43 0xffeff47d; II B C D A 1 S44 0x85845dd1;
   II A B C D 8 S41 0x6fa87e4f; II D A B C 15 S42 0xfe2ce6e0;
   II C D A B 6 S43 0xa3014314; II B C D A 13 S44 0x4e0811a1;
   II A B C D 4 S41 0xf7537e82; II D A B C 11 S42 0xbd3af235;
   II C D A B 2 S43 0x2ad7d2bb; II B C D A 9 S44 0xeb86d391].

(** [Decode]: [n] words. *)
Fixpoint Decode (n : nat) (input : bytes) : list Z :=
  match n with
  | O => []
  | S n =>
      Z.lor (Z.lor (Z.lor (byte_val (nth 0 input x00))
                          (Z.shiftl (byte_val (nth 1 input x00)) 8))
                   (Z.shiftl (byte_val (nth 2 input x00)) 16))
            (Z.shiftl (byte_val (nth 3 input x00)) 24)
      :: Decode n (drop 4 input)
  end.

Definition Encode (input : list Z) : bytes :=
  concat ((fun w => [byte_of (Z.land w 0xff); byte_of (Z.land (Z.shiftr w 8) 0xff);
                     byte_of (Z.land (Z.shiftr w 16) 0xff); byte_of (Z.land (Z.shiftr w 24) 0xff)])
          <$> input).

Definition MD5Transform (state : regs) (block : bytes) : regs :=
  let x := Decode 16 block in
  let r := foldl (fun r op => op x r) state (Round1 ++ Round2 ++ Round3 ++ Round4) in
  Regs (u32 (reg_a state + reg_a r)) (u32 (reg_b state + reg_b r))
       (u32 (reg_c state + reg_c r)) (u32 (reg_d state + reg_d r)).

(** ** Contexts *)

Record MD5_CTX : Type := mkMD5_CTX {
  state : regs;
  count0 : Z;
  count1 : Z;
  buffer : bytes
}.

(** [MD5Init]; the buffer keeps what the memory held. *)
Definition MD5Init (buf : bytes) : MD5_CTX :=
  mkMD5_CTX (Regs 0x67452301 0xefcdab89 0x98badcfe 0x10325476) 0 0 buf.

(** [for(i=partLen; i+63<inputLen; i+=64) MD5Transform(state, &input[i])];
    the fuel is the number of blocks the input has. *)
Fixpoint transform_loop (fuel : nat) (st : regs) (input : bytes) (i inputLen : Z) : regs * Z :=
  match fuel with
  | O => (st, i)
  | S fuel =>
      if u32 (i + 63) <? inputLen
      then transform_loop fuel (MD5Transform st (slice (Z.to_nat i) 64 input)) input (u32 (i + 64)) inputLen
      else (st, i)
  end.

Definition MD5Update (context : MD5_CTX) (input : bytes) : MD5_CTX :=
  let inputLen := Z.of_nat (length input) in
  let index := Z.land (Z.shiftr (count0 context) 3) 0x3F in
  let add := u32 (Z.shiftl inputLen 3) in
  let c0 := u32 (count0 context + add) in
  let c1 := if c0 <? add then u32 (count1 context + 1) else count1 context in
  let c1 := u32 (c1 + Z.shiftr inputLen 29) in
  let partLen := 64 - index in
  if partLen <=? inputLen then
    let buf := list_inserts (Z.to_nat index) (take (Z.to_nat partLen) input) (buffer context) in
    let st := MD5Transform (state context) buf in
    let '(st, i) := transform_loop (S (length input / 64)) st input partLen inputLen in
    mkMD5_CTX st c0 c1 (list_inserts 0 (slice (Z.to_nat i) (Z.to_nat (inputLen - i)) input) buf)
  else
    mkMD5_CTX (state context) c0 c1 (list_inserts (Z.to_nat index) input (buffer context)).

Definition PADDING : bytes := x80 :: replicate 63 x00.

(** [MD5Final]; the context is zeroed. *)
Definition MD5Final (context : MD5_CTX) : bytes * MD5_CTX :=
  let bits := Encode [count0 context; count1 context] in
  let index := Z.land (Z.shiftr (count0 context) 3) 0x3f in
  let padLen := if index <? 56 then 56 - index else 120 - index in
  let context := MD5Update context (take (Z.to_nat padLen) PADDING) in
  let context := MD5Update context bits in
  let '(Regs a b c d) := state context in
  (Encode [a; b; c; d], mkMD5_CTX (Regs 0 0 0 0) 0 0 (replicate 64 x00)).

(** [buf] is the uninitialised buffer of the context on the stack. *)
Definition MD5Bits128 (buf input : bytes) : bytes :=
  if Z.of_nat (length input) <=? 0 then replicate 16 x00
  else fst (MD5Final (MD5Update (MD5Init buf) input)).

Definition MD5Bits64 (buf input : bytes) : Z := le_decode (take 8 (MD5Bits128 buf input)).
Definition MD5Bits32 (buf input : bytes) : Z := le_decode (take 4 (MD5Bits128 buf input)).

(** ** The transform is the compression function *)

Lemma Decode_words n block : (4 * n <= length block)%nat -> Decode n block = block_words n block.
Proof.
  revert block. induction n as [|n IH]; intros block Hn; [done|].
  destruct block as [|b0 [|b1 [|b2 [|b3 block]]]]; cbn [length] in Hn; try lia.
  cbn [Decode block_words drop take nth]. rewrite word_of_bytes, drop_0, take_0, IH by lia. done.
Qed.

Lemma Encode_words ws : Encode ws = concat (le_encode 4 <$> ws).
Proof.
  unfold Encode. f_equal. apply list_fmap_ext. intros. apply bytes_of_word.
Qed.

(** One step of the specification with its table entries as arguments. *)
Definition row : Type := (Z -> Z -> Z -> Z) * nat * Z * Z.
Definition row_step (x : list Z) (w : row) (r : regs) : regs :=
  let '(f, k, s, t) := w in
  let '(Regs a b c d) := r in
  Regs d (u32 (rotl (u32 (a + (f b c d + nth k x 0 + t))) s + b)) b c.
Definition spec_row (i : nat) : row := (round_fun i, round_word i, round_shift i, nth i sine_table 0).

Definition quad_rows (q : nat) : list row :=
  [spec_row (4 * q); spec_row (4 * q + 1); spec_row (4 * q + 2); spec_row (4 * q + 3)].
Definition row_op (a b c d : reg) (w : row) : list Z -> regs -> regs :=
  let '(f, k, s, t) := w in STEP f a b c d k s t.
Definition quad_ops (q : nat) : list (list Z -> regs -> regs) :=
  [row_op A B C D (spec_row (4 * q)); row_op D A B C (spec_row (4 * q + 1));
   row_op C D A B (spec_row (4 * q + 2)); row_op B C D A (spec_row (4 * q + 3))].

(** Four macro steps that name the registers in turn are four steps that
    rotate them. *)
Lemma quad_step x w1 w2 w3 w4 r :
  row_op B C D A w4 x (row_op C D A B w3 x (row_op D A B C w2 x (row_op A B C D w1 x r))) =
  row_step x w4 (row_step x w3 (row_step x w2 (row_step x w1 r))).
Proof.
  destruct r, w1 as [[[??]?]?], w2 as [[[??]?]?], w3 as [[[??]?]?], w4 as [[[??]?]?]. reflexivity.
Qed.

Lemma quads_foldl x qs r :
  foldl (fun r op => op x r) r (concat (quad_ops <$> qs)) =
  foldl (fun r w => row_step x w r) r (concat (quad_rows <$> qs)).
Proof.
  revert r. induction qs as [|q qs IH]; intros r; [done|].
  cbn [fmap list_fmap concat]. rewrite !foldl_app, <- IH. f_equal. apply quad_step.
Qed.

Lemma rounds_quads : Round1 ++ Round2 ++ Round3 ++ Round4 = concat (quad_ops <$> seq 0 16).
Proof. reflexivity. Qed.

Lemma spec_quads : spec_row <$> seq 0 64 = concat (quad_rows <$> seq 0 16).
Proof. reflexivity. Qed.

Lemma MD5Transform_compress st block :
  length block = 64%nat -> MD5Transform st block = compress st block.
Proof.
  intros Hl. unfold MD5Transform, compress, add_regs. rewrite Decode_words by lia.
  rewrite rounds_quads, quads_foldl, <- spec_quads, foldl_fmap. reflexivity.
Qed.

(** ** Updates *)

Definition rep (context : MD5_CTX) (m : bytes) : Prop :=
  srep MD5Transform IV (state context) (buffer context) m /\
  crep (count0 context) (count1 context) m.

Lemma transform_loop_absorb fuel st input i :
  0 <= i <= Z.of_nat (length input) -> Z.of_nat (length input) < 2 ^ 31 ->
  let n := Z.to_nat ((Z.of_nat (length input) - i) / 64) in
  (n < fuel)%nat ->
  transform_loop fuel st input i (Z.of_nat (length input)) =
  (absorb MD5Transform n st (drop (Z.to_nat i) input), i + 64 * Z.of_nat n).
Proof.
  revert st i. induction fuel as [|fuel IH]; intros st i Hi Hl n Hf; [lia|].
  cbn [transform_loop]. rewrite u32_small by (unfold is_u32; lia).
  destruct (Z.ltb_spec (i + 63) (Z.of_nat (length input))).
  - rewrite u32_small by (unfold is_u32; lia).
    assert (n = S (Z.to_nat ((Z.of_nat (length input) - (i + 64)) / 64))) as ->.
    { unfold n. replace (Z.of_nat (length input) - i)
        with (Z.of_nat (length input) - (i + 64) + 1 * 64) by lia.
      rewrite Z.div_add by lia. pose proof (Z.div_pos (Z.of_nat (length input) - (i + 64)) 64). lia. }
    rewrite IH by lia. cbn [absorb]. rewrite drop_drop. f_equal; [|lia].
    do 2 f_equal. lia.
  - assert (n = 0%nat) as -> by (unfold n; rewrite Z.div_small; lia). cbn. f_equal. lia.
Qed.

Lemma MD5Update_rep context m input :
  rep context m -> Z.of_nat (length input) < 2 ^ 31 -> rep (MD5Update context input) (m ++ input).
Proof.
  intros [Hs Hc] Hl. pose proof (crep_index _ _ _ Hc) as Hidx.
  pose proof (crep_update _ _ _ input Hc ltac:(lia)) as Hc'. unfold MD5Update.
  rewrite index_land. pose proof (Z.mod_pos_bound (count0 context / 8) 64 ltac:(lia)).
  set (index := count0 context / 8 mod 64) in *. rewrite Hidx.
  pose proof (Nat.mod_upper_bound (length m) 64 ltac:(lia)).
  destruct (Z.leb_spec (64 - index) (Z.of_nat (length input))).
  - rewrite transform_loop_absorb; [|lia..|].
    2:{ apply Nat.lt_succ_r. rewrite <- (Nat2Z.id (length input / 64)). apply Z2Nat.inj_le.
        - apply Z.div_pos; lia.
        - lia.
        - rewrite Nat2Z.inj_div. apply Z.div_le_mono; lia. }
    pose proof (srep_fill _ _ _ _ _ input Hs ltac:(lia)) as Hf. split; [|exact Hc'].
    cbn [state buffer count0 count1]. revert Hf.
    replace (Z.to_nat (64 - index)) with (64 - length m mod 64)%nat by lia.
    replace (Z.to_nat ((Z.of_nat (length input) - (64 - index)) / 64))
      with ((length input - (64 - length m mod 64)) / 64)%nat.
    2:{ rewrite <- (Nat2Z.id (_ / _)). f_equal. rewrite Nat2Z.inj_div. f_equal. lia. }
    set (n := ((length input - (64 - length m mod 64)) / 64)%nat).
    replace (slice (Z.to_nat (64 - index + 64 * Z.of_nat n)) _ input)
      with (drop (64 - length m mod 64 + 64 * n) input); [done|].
    unfold slice. rewrite take_ge by (rewrite length_drop; lia). f_equal. lia.
  - split; [|exact Hc']. apply srep_buffer; [done|lia].
Qed.

(** ** The digest *)

Lemma MD5Init_rep buf : length buf = 64%nat -> rep (MD5Init buf) [].
Proof. intros. split; [by apply srep_nil|done]. Qed.

Lemma MD5Final_rep context m :
  rep context m -> fst (MD5Final context) = md5 m.
Proof.
  intros [Hs Hc]. pose proof (crep_index _ _ _ Hc) as Hidx. unfold MD5Final.
  rewrite index_land, Encode_words. cbn [fmap list_fmap concat]. rewrite app_nil_r, (crep_bits _ _ _ Hc).
  pose proof (Z.mod_pos_bound (count0 context / 8) 64 ltac:(lia)).
  set (index := count0 context / 8 mod 64) in *.
  set (padLen := if index <? 56 then 56 - index else 120 - index).
  assert (take (Z.to_nat padLen) PADDING = x80 :: replicate ((119 - length m mod 64) mod 64) x00) as ->.
  { assert (Z.to_nat padLen = S ((119 - length m mod 64) mod 64)) as ->.
    { unfold padLen. rewrite <- Hidx. destruct (Z.ltb_spec index 56).
      - replace (119 - Z.to_nat index)%nat with (55 - Z.to_nat index + 1 * 64)%nat by lia.
        rewrite Nat.Div0.mod_add, Nat.mod_small; lia.
      - rewrite Nat.mod_small; lia. }
    unfold PADDING. rewrite firstn_cons. f_equal. rewrite take_replicate. f_equal.
    pose proof (Nat.mod_upper_bound (119 - length m mod 64) 64). lia. }
  set (ctx1 := MD5Update context _).
  assert (rep ctx1 (m ++ x80 :: replicate ((119 - length m mod 64) mod 64) x00)) as H1.
  { apply MD5Update_rep; [done|]. cbn [length]. rewrite length_replicate.
    pose proof (Nat.mod_upper_bound (119 - length m mod 64) 64). lia. }
  pose proof (MD5Update_rep _ _ (le_encode 8 (8 * Z.of_nat (length m))) H1) as [H2 _];
    [by rewrite length_le_encode|].
  rewrite <- app_assoc in H2. cbn [app] in H2. fold (padding (length m)) in H2.
  pose proof (srep_state _ _ _ _ _ H2) as E.
  rewrite absorb_ext with (g := compress) in E;
    [|apply MD5Transform_compress|apply Nat.Div0.mul_div_le].
  unfold md5. rewrite <- E. destruct (state (MD5Update ctx1 _)) as [a b c d]. cbn [fst].
  rewrite Encode_words. done.
Qed.

(** C8. The digest of a non-empty image of fewer than 2^31 bytes is the MD5 of
    RFC 1321, whatever the uninitialised context buffer held. *)
Theorem MD5Bits128_spec buf input :
  length buf = 64%nat -> 0 < Z.of_nat (length input) < 2 ^ 31 -> MD5Bits128 buf input = md5 input.
Proof.
  intros Hb Hi. unfold MD5Bits128. destruct (Z.leb_spec (Z.of_nat (length input)) 0); [lia|].
  apply MD5Final_rep. apply (MD5Update_rep _ []); [by apply MD5Init_rep|lia].
Qed.

Lemma MD5Bits128_spec_witness :
  MD5Bits128 (replicate 64 xff) (str "message digest") =
  [xf9; x6b; x69; x7d; x7c; xb7; x93; x8d; x52; x5a; x2f; x31; xaa; xf1; x61; xd0].
Proof.
  rewrite MD5Bits128_spec; [vm_compute; reflexivity|reflexivity|cbn; lia].
Defined.

(** Feeding a message in any number of pieces, each shorter than 2^31
    bytes, gives the digest of the whole message: the position where a piece
    ends relative to the 64-byte buffer does not matter. *)
Theorem MD5Update_pieces buf pieces :
  length buf = 64%nat -> Forall (fun p : bytes => Z.of_nat (length p) < 2 ^ 31) pieces ->
  fst (MD5Final (foldl MD5Update (MD5Init buf) pieces)) = md5 (concat pieces).
Proof.
  intros Hb Hp. apply MD5Final_rep.
  assert (forall ctx m, rep ctx m -> rep (foldl MD5Update ctx pieces) (m ++ concat pieces)) as Hgen.
  { induction Hp as [|p pieces Hp1 _ IH]; intros ctx m Hr; cbn; [by rewrite app_nil_r|].
    rewrite app_assoc. apply IH. by apply MD5Update_rep. }
  by apply (Hgen _ []), MD5Init_rep.
Qed.

Lemma MD5Update_pieces_witness :
  fst (MD5Final (foldl MD5Update (MD5Init (replicate 64 x00)) [str "mess"; []; str "age digest"])) =
  md5 (str "message digest").
Proof.
  apply (MD5Update_pieces (replicate 64 x00) [str "mess"; []; str "age digest"]); [done|].
  repeat constructor.
Defined.

End Qmd5.
