(* ===== verification/MD5.v ===== *)
(** * MD5: the MD5 class of src/include/common/MD5.cc

    The object, its 64 steps, the update loop, the padding of [finalize] and
    the hexadecimal digest.  The object behaves as a [QMD5] context that
    remembers its digest, so the digest is again the one of [MD5Spec], here
    for the empty message too. *)

From S2P Require Import Prelude CLib MD5Spec QMD5.

Module Md5Class.
Import Spec.

Abbreviation blocksize := (64)%Z (only parsing).

(** ** Low level operations *)

Definition F (x y z : Z) : Z := Z.lor (Z.land x y) (Z.land (word_not x) z).
Definition G (x y z : Z) : Z := Z.lor (Z.land x z) (Z.land y (word_not z)).
Definition H (x y z : Z) : Z := Z.lxor (Z.lxor x y) z.
Definition I (x y z : Z) : Z := Z.lxor y (Z.lor x (word_not z)).

Definition rotate_left (x n : Z) : Z := Z.lor (u32 (Z.shiftl x n)) (Z.shiftr x (32 - n)).

Import Qmd5 (reg, A, B, C, D, get, set).

Definition STEP (f : Z -> Z -> Z -> Z) (a b c d : reg) (k : nat) (s ac : Z)
    (x : list Z) (r : regs) : regs :=
  set a (u32 (rotate_left (u32 (get a r + f (get b r) (get c r) (get d r) + nth k x 0 + ac)) s
              + get b r)) r.

Abbreviation FF := (STEP F) (only parsing).
Abbreviation GG := (STEP G) (only parsing).
Abbreviation HH := (STEP H) (only parsing).
Abbreviation II := (STEP I) (only parsing).

#[local] Notation S11 := 7 (only parsing).
#[local] Notation S12 := 12 (only parsing).
#[local] Notation S13 := 17 (only parsing).
#[local] Notation S14 := 22 (only parsing).
#[local] Notation S21 := 5 (only parsing).
#[local] Notation S22 := 9 (only parsing).
#[local] Notation S23 := 14 (only parsing).
#[local] Notation S24 := 20 (only parsing).
#[local] Notation S31 := 4 (only parsing).
#[local] Notation S32 := 11 (only parsing).
#[local] Notation S33 := 16 (only parsing).
#[local] Notation S34 := 23 (only parsing).
#[local] Notation S41 := 6 (only parsing).
#[local] Notation S42 := 10 (only parsing).
#[local] Notation S43 := 15 (only parsing).
#[local] Notation S44 := 21 (only parsing).

Definition Round1 : list (list Z -> regs -> regs) :=
  [FF A B C D 0 S11 0xd76aa478; FF D A B C 1 S12 0xe8c7b756;
   FF C D A B 2 S13 0x242070db; FF B C D A 3 S14 0xc1bdceee;
   FF A B C D 4 S11 0xf57c0faf; FF D A B C 5 S12 0x4787c62a;
   FF C D A B 6 S13 0xa8304613; FF B C D A 7 S14 0xfd469501;
   FF A B C D 8 S11 0x698098d8; FF D A B C 9 S12 0x8b44f7af;
   FF C D A B 10 S13 0xffff5bb1; FF B C D A 11 S14 0x895cd7be;
   FF A B C D 12 S11 0x6b901122; FF D A B C 13 S12 0xfd987193;
   FF C D A B 14 S13 0xa679438e; FF B C D A 15 S14 0x49b40821].

Definition Round2 : list (list Z -> regs -> regs) :=
  [GG A B C D 1 S21 0xf61e2562; GG D A B C 6 S22 0xc040b340;
   GG C D A B 11 S23 0x265e5a51; GG B C D A 0 S24 0xe9b6c7aa;
   GG A B C D 5 S21 0xd62f105d; GG D A B C 10 S22 0x2441453;
   GG C D A B 15 S23 0xd8a1e681; GG B C D A 4 S24 0xe7d3fbc8;
   GG A B C D 9 S21 0x21e1cde6; GG D A B C 14 S22 0xc33707d6;
   GG C D A B 3 S23 0xf4d50d87; GG B C D A 8 S24 0x455a14ed;
   GG A B C D 13 S21 0xa9e3e905; GG D A B C 2 S22 0xfcefa3f8;
   GG C D A B 7 S23 0x676f02d9; GG B C D A 12 S24 0x8d2a4c8a].

Definition Round3 : list (list Z -> regs -> regs) :=
  [HH A B C D 5 S31 0xfffa3942; HH D A B C 8 S32 0x8771f681;
   HH C D A B 11 S33 0x6d9d6122; HH B C D A 14 S34 0xfde5380c;
   HH A B C D 1 S31 0xa4beea44; HH D A B C 4 S32 0x4bdecfa9;
   HH C D A B 7 S33 0xf6bb4b60; HH B C D A 10 S34 0xbebfbc70;
   HH A B C D 13 S31 0x289b7ec6; HH D A B C 0 S32 0xeaa127fa;
   HH C D A B 3 S33 0xd4ef3085; HH B C D A 6 S34 0x4881d05;
   HH A B C D 9 S31 0xd9d4d039; HH D A B C 12 S32 0xe6db99e5;
   HH C D A B 15 S33 0x1fa27cf8; HH B C D A 2 S34 0xc4ac5665].

Definition Round4 : list (list Z -> regs -> regs) :=
  [II A B C D 0 S41 0xf4292244; II D A B C 7 S42 0x432aff97;
   II C D A B 14 S43 0xab9423a7; II B C D A 5 S44 0xfc93a039;
   II A B C D 12 S41 0x655b59c3; II D A B C 3 S42 0x8f0ccc92;
   II C D A B 10 S43 0xffeff47d; II B C D A 1 S44 0x85845dd1;
   II A B C D 8 S41 0x6fa87e4f; II D A B C 15 S42 0xfe2ce6e0;
   II C D A B 6 S43 0xa3014314; II B C D A 13 S44 0x4e0811a1;
   II A B C D 4 S41 0xf7537e82; II D A B C 11 S42 0xbd3af235;
   II C D A B 2 S43 0x2ad7d2bb; II B C D A 9 S44 0xeb86d391].

(** ** The object *)

Record MD5 : Type := mkMD5 {
  finalized : bool;
  buffer : bytes;
  count0 : Z;
  count1 : Z;
  state : regs;
  digest : bytes
}.

(** [init]; buffer and digest keep what the memory held. *)
Definition init (o : MD5) : MD5 :=
  mkMD5 false (buffer o) 0 0 (Regs 0x67452301 0xefcdab89 0x98badcfe 0x10325476) (digest o).

Fixpoint decode (n : nat) (input : bytes) : list Z :=
  match n with
  | O => []
  | S n =>
      Z.lor (Z.lor (Z.lor (byte_val (nth 0 input x00))
                          (Z.shiftl (byte_val (nth 1 input x00)) 8))
                   (Z.shiftl (byte_val (nth 2 input x00)) 16))
            (Z.shiftl (byte_val (nth 3 input x00)) 24)
      :: decode n (drop 4 input)
  end.

Definition encode (input : list Z) : bytes :=
  concat ((fun w => [byte_of (Z.land w 0xff); byte_of (Z.land (Z.shiftr w 8) 0xff);
                     byte_of (Z.land (Z.shiftr w 16) 0xff); byte_of (Z.land (Z.shiftr w 24) 0xff)])
          <$> input).

Definition transform (st : regs) (block : bytes) : regs :=
  let x := decode 16 block in
  let r := foldl (fun r op => op x r) st (Round1 ++ Round2 ++ Round3 ++ Round4) in
  Regs (u32 (reg_a st + reg_a r)) (u32 (reg_b st + reg_b r))
       (u32 (reg_c st + reg_c r)) (u32 (reg_d st + reg_d r)).

(** [for(i=firstpart; i+blocksize<=length; i+=blocksize) transform(&input[i])] *)
Fixpoint update_loop (fuel : nat) (st : regs) (input : bytes) (i len : Z) : regs * Z :=
  match fuel with
  | O => (st, i)
  | S fuel =>
      if u32 (i + blocksize) <=? len
      then update_loop fuel (transform st (slice (Z.to_nat i) 64 input)) input
                       (u32 (i + blocksize)) len
      else (st, i)
  end.

Definition update (o : MD5) (input : bytes) : MD5 :=
  let len := Z.of_nat (length input) in
  let index := count0 o / 8 mod blocksize in
  let add := u32 (Z.shiftl len 3) in
  let c0 := u32 (count0 o + add) in
  let c1 := if c0 <? add then u32 (count1 o + 1) else count1 o in
  let c1 := u32 (c1 + Z.shiftr len 29) in
  let firstpart := 64 - index in
  if firstpart <=? len then
    let buf := list_inserts (Z.to_nat index) (take (Z.to_nat firstpart) input) (buffer o) in
    let st := transform (state o) buf in
    let '(st, i) := update_loop (S (length input / 64)) st input firstpart len in
    mkMD5 (finalized o) (list_inserts 0 (slice (Z.to_nat i) (Z.to_nat (len - i)) input) buf)
          c0 c1 st (digest o)
  else
    mkMD5 (finalized o) (list_inserts (Z.to_nat index) input (buffer o)) c0 c1 (state o) (digest o).

Definition padding : bytes := x80 :: replicate 63 x00.

Definition finalize (o : MD5) : MD5 :=
  if finalized o then o
  else
    let bits := encode [count0 o; count1 o] in
    let index := count0 o / 8 mod 64 in
    let padLen := if index <? 56 then 56 - index else 120 - index in
    let o := update o (take (Z.to_nat padLen) padding) in
    let o := update o bits in
    let '(Regs a b c d) := state o in
    mkMD5 true (replicate 64 x00) 0 0 (state o) (encode [a; b; c; d]).

Definition hexdigest (o : MD5) : bytes :=
  if finalized o then concat ((fun b => fmt_02x (byte_val b)) <$> digest o) else [].

(** [MD5(const char* Input, int length)] on the memory [o] of the object. *)
Definition MD5_new (o : MD5) (input : bytes) : MD5 := finalize (update (init o) input).

Definition md5 (o : MD5) (input : bytes) : bytes := hexdigest (MD5_new o input).

(** ** The object as a context *)

Definition ctx_of (o : MD5) : Qmd5.MD5_CTX :=
  Qmd5.mkMD5_CTX (state o) (count0 o) (count1 o) (buffer o).

(** The inlined step and the macro agree when they name distinct variables. *)
Lemma STEP_macro f a b c d k s ac x r :
  a <> b -> STEP f a b c d k s ac x r = Qmd5.STEP f a b c d k s ac x r.
Proof.
  intros. unfold STEP, Qmd5.STEP. rewrite <- !Z.add_assoc. by destruct r, a, b.
Qed.

Lemma foldl_pointwise {X R} (x : X) (ops ops' : list (X -> R -> R)) r :
  Forall2 (fun f g => forall r, f x r = g x r) ops ops' ->
  foldl (fun r op => op x r) r ops = foldl (fun r op => op x r) r ops'.
Proof.
  intros Hops. revert r. induction Hops as [|f g ops ops' Hf _ IH]; intros r; cbn; [done|].
  by rewrite Hf, IH.
Qed.

Lemma decode_Decode n input : decode n input = Qmd5.Decode n input.
Proof. revert input. induction n as [|n IH]; intros input; cbn; [done|]. by rewrite IH. Qed.

Lemma transform_Transform st block : transform st block = Qmd5.MD5Transform st block.
Proof.
  unfold transform, Qmd5.MD5Transform. rewrite decode_Decode.
  erewrite foldl_pointwise; [reflexivity|].
  repeat constructor; intros; by apply STEP_macro.
Qed.

Lemma update_loop_eq fuel st input i :
  0 <= i <= Z.of_nat (length input) -> Z.of_nat (length input) < 2 ^ 31 ->
  update_loop fuel st input i (Z.of_nat (length input)) =
  Qmd5.transform_loop fuel st input i (Z.of_nat (length input)).
Proof.
  revert st i. induction fuel as [|fuel IH]; intros st i Hi Hl; [done|].
  cbn [update_loop Qmd5.transform_loop].
  rewrite !u32_small by (unfold is_u32; lia).
  destruct (Z.leb_spec (i + 64) (Z.of_nat (length input))),
    (Z.ltb_spec (i + 63) (Z.of_nat (length input))); try lia; [|done].
  rewrite transform_Transform. apply IH; lia.
Qed.

Lemma update_Update o input :
  Z.of_nat (length input) < 2 ^ 31 -> ctx_of (update o input) = Qmd5.MD5Update (ctx_of o) input.
Proof.
  intros Hl. unfold update, Qmd5.MD5Update. rewrite index_land. cbn [Qmd5.count0 ctx_of].
  change blocksize with 64. pose proof (Z.mod_pos_bound (count0 o / 8) 64 ltac:(lia)).
  destruct (Z.leb_spec (64 - count0 o / 8 mod 64) (Z.of_nat (length input))); [|done].
  rewrite update_loop_eq, transform_Transform by lia. unfold ctx_of.
  cbn [Qmd5.state Qmd5.count0 Qmd5.count1 Qmd5.buffer].
  by match goal with |- context [Qmd5.transform_loop ?f ?s ?i ?p ?l] =>
    destruct (Qmd5.transform_loop f s i p l) end.
Qed.

Lemma update_finalized o input : finalized (update o input) = finalized o.
Proof. unfold update. destruct (_ <=? _); [|done]. 
  by match goal with |- context [update_loop ?f ?s ?i ?p ?l] =>
    destruct (update_loop f s i p l) end.
Qed.

Lemma finalize_Final o :
  finalized o = false -> 0 <= count0 o ->
  finalized (finalize o) = true /\ digest (finalize o) = fst (Qmd5.MD5Final (ctx_of o)).
Proof.
  intros Hf Hc. unfold finalize, Qmd5.MD5Final. rewrite Hf, index_land. cbn [Qmd5.count0 Qmd5.count1 ctx_of].
  pose proof (Z.mod_pos_bound (count0 o / 8) 64 ltac:(lia)).
  set (index := count0 o / 8 mod 64) in *.
  set (pad := take (Z.to_nat (if index <? 56 then 56 - index else 120 - index)) padding).
  assert (Z.of_nat (length pad) < 2 ^ 31) as Hpad.
  { unfold pad. rewrite length_take. cbn. lia. }
  change Qmd5.PADDING with padding. fold pad. change (Qmd5.mkMD5_CTX (state o) (count0 o) (count1 o) (buffer o)) with (ctx_of o).
  rewrite <- (update_Update o pad Hpad), <- update_Update by (cbn; lia).
  change (Qmd5.state (ctx_of ?x)) with (state x). change (Qmd5.Encode ?x) with (encode x).
  by destruct (state (update (update o pad) _)).
Qed.

(** ** The digest *)

Definition hex (bs : bytes) : bytes := concat ((fun b => fmt_02x (byte_val b)) <$> bs).

Lemma MD5_new_spec o input :
  length (buffer o) = 64%nat -> Z.of_nat (length input) < 2 ^ 31 ->
  finalized (MD5_new o input) = true /\ digest (MD5_new o input) = Spec.md5 input.
Proof.
  intros Hb Hl. unfold MD5_new.
  assert (Qmd5.rep (ctx_of (update (init o) input)) input) as Hr.
  { rewrite update_Update by done. apply (Qmd5.MD5Update_rep _ []); [|done].
    by apply (Qmd5.MD5Init_rep (buffer o)). }
  destruct (finalize_Final (update (init o) input)) as [Hf Hd].
  - apply update_finalized.
  - destruct Hr as [_ [Hc _]]. cbn in Hc. rewrite Hc. apply u32_range.
  - split; [done|]. rewrite Hd. by apply Qmd5.MD5Final_rep.
Qed.

(** C15. [md5(data, len)] is the hexadecimal MD5 of RFC 1321 of the [len] bytes,
    for every length below 2^31, whatever the memory of the object held. *)
Theorem md5_hex o input :
  length (buffer o) = 64%nat -> Z.of_nat (length input) < 2 ^ 31 ->
  md5 o input = hex (Spec.md5 input).
Proof.
  intros Hb Hl. unfold md5, hexdigest.
  destruct (MD5_new_spec o input Hb Hl) as [-> ->]. done.
Qed.

Definition raw_object : MD5 := mkMD5 true (replicate 64 xaa) 7 7 (Regs 1 2 3 4) (replicate 16 xbb).

Lemma md5_hex_witness :
  md5 raw_object (str "The quick brown fox jumps over the lazy dog") =
  str "9e107d9d372bb6826bd81d3542a419d6".
Proof. rewrite md5_hex; [vm_compute; reflexivity|done|cbn; lia]. Defined.

(** The two implementations name the same digest: the image id that
    [MD5Bits64] computes is the little-endian number whose bytes are the first
    sixteen digits of the hexadecimal [md5] stored next to it. *)
Theorem MD5Bits64_md5_prefix buf o input :
  length buf = 64%nat -> length (buffer o) = 64%nat -> 0 < Z.of_nat (length input) < 2 ^ 31 ->
  hex (le_encode 8 (Qmd5.MD5Bits64 buf input)) ++ hex (drop 8 (Qmd5.MD5Bits128 buf input)) =
  md5 o input.
Proof.
  intros Hb Hb' Hl. unfold Qmd5.MD5Bits64, md5, hexdigest.
  destruct (MD5_new_spec o input Hb') as [-> ->]; [lia|].
  assert (Qmd5.MD5Bits128 buf input = Spec.md5 input) as ->.
  { unfold Qmd5.MD5Bits128. destruct (Z.leb_spec (Z.of_nat (length input)) 0); [lia|].
    apply Qmd5.MD5Final_rep, (Qmd5.MD5Update_rep _ []); [by apply Qmd5.MD5Init_rep|lia]. }
  assert (length (Spec.md5 input) = 16%nat) as Hd by reflexivity.
  rewrite <- (length_take_le (Spec.md5 input) 8) at 1 by lia.
  rewrite le_encode_decode. unfold hex. by rewrite <- concat_app, <- fmap_app, take_drop.
Qed.

Lemma MD5Bits64_md5_prefix_witness :
  hex (le_encode 8 (Qmd5.MD5Bits64 (replicate 64 x00) (str "abc"))) ++
  hex (drop 8 (Qmd5.MD5Bits128 (replicate 64 x00) (str "abc"))) =
  str "900150983cd24fb0d6963f7d28e17f72".
Proof.
  rewrite (MD5Bits64_md5_prefix _ raw_object); [vm_compute; reflexivity|done|done|cbn; lia].
Defined.

End Md5Class.
