(* ===== verification/Sockets.v ===== *)
(** * Sockets: the transfer loops of src/include/common/qglobal.h

    The receiving side of a connection is the list of what successive [recv]
    calls find: segments of any size, time-outs and errors, then an orderly
    shutdown.  The sending side is how much the kernel takes at each [send].
    The theorems show that [q_recvbuf] and [q_sendbuf] do not depend on the
    segmentation, and what they report when the transfer is cut short. *)

From S2P Require Import Prelude CLib.

Module Sock.

(** ** Receiving *)

Inductive event : Type :=
  | Data (b : byte) (bs : bytes)   (* a segment, never empty *)
  | Again                          (* EAGAIN / EWOULDBLOCK: the receive time-out *)
  | Failed.                        (* any other error *)

(** [recv(sock, buf, n)]: return value, bytes stored, what is left.  The end
    of the list is the shutdown of the peer. *)
Definition recv (n : Z) (evs : list event) : Z * bytes * list event :=
  match evs with
  | [] => (0, [], [])
  | Again :: evs => (-1, [], evs)
  | Failed :: evs => (-1, [], evs)
  | Data b bs :: evs =>
      if n <=? 0 then (0, [], Data b bs :: evs)
      else
        let got := take (Z.to_nat n) (b :: bs) in
        (Z.of_nat (length got), got,
         match drop (Z.to_nat n) (b :: bs) with
         | [] => evs
         | c :: cs => Data c cs :: evs
         end)
  end.

(** The [do ... while(retval>0&&finlen<in_buflen)] loop.  [continue] jumps to
    that condition, so the EAGAIN test has no effect on the control flow.
    Every round but the last consumes an event. *)
Fixpoint recv_loop (fuel : nat) (evs : list event) (in_buflen finlen : Z) (buf : bytes) :
    Z * Z * bytes * list event :=
  match fuel with
  | O => (-1, finlen, buf, evs)
  | S fuel =>
      let '(retval, got, evs) := recv (in_buflen - finlen) evs in
      let finlen := if 0 <? retval then finlen + retval else finlen in
      let buf := buf ++ got in
      if (0 <? retval) && (finlen <? in_buflen)
      then recv_loop fuel evs in_buflen finlen buf
      else (retval, finlen, buf, evs)
  end.

(** Return value, bytes at the front of the buffer, what is left. *)
Definition q_recvbuf (in_buflen : Z) (evs : list event) : Z * bytes * list event :=
  let '(retval, finlen, buf, evs) := recv_loop (S (length evs)) evs in_buflen 0 [] in
  if (retval <? 0) || (finlen <? in_buflen) then (-1, buf, evs) else (0, buf, evs).

(** The bytes that arrive before the first error, time-out or shutdown. *)
Fixpoint stream (evs : list event) : bytes :=
  match evs with
  | Data b bs :: evs => b :: bs ++ stream evs
  | _ => []
  end.

Lemma recv_loop_spec fuel evs n finlen buf :
  0 <= finlen < n -> (length evs < fuel)%nat ->
  exists evs',
    if Z.of_nat (length (stream evs)) <? n - finlen then
      exists retval finlen', recv_loop fuel evs n finlen buf =
        (retval, finlen', buf ++ stream evs, evs') /\ finlen' < n
    else
      (exists retval, 0 < retval /\ recv_loop fuel evs n finlen buf =
        (retval, n, buf ++ take (Z.to_nat (n - finlen)) (stream evs), evs')) /\
      stream evs' = drop (Z.to_nat (n - finlen)) (stream evs).
Proof.
  revert evs finlen buf. induction fuel as [|fuel IH]; intros evs finlen buf Hf Hl; [lia|].
  destruct evs as [|[b bs| |] evs]; cbn [recv_loop recv stream].
  - exists []. destruct (Z.ltb_spec (Z.of_nat (length (@nil byte))) (n - finlen)); [|cbn in *; lia].
    rewrite app_nil_r. eexists _, _. split; [done|]. cbn. lia.
  - destruct (Z.leb_spec (n - finlen) 0); [lia|].
    set (k := Z.to_nat (n - finlen)). set (seg := b :: bs).
    assert (Z.of_nat (length (take k seg)) = Z.min (n - finlen) (Z.of_nat (length seg))) as Hk
      by (rewrite length_take; lia).
    assert (0 < Z.of_nat (length seg)) as Hseg by (cbn; lia).
    change (b :: bs ++ stream evs) with (seg ++ stream evs). rewrite Hk.
    destruct (Z.ltb_spec 0 (Z.min (n - finlen) (Z.of_nat (length seg)))); [|lia]. cbn [andb].
    destruct (Z.ltb_spec (finlen + Z.min (n - finlen) (Z.of_nat (length seg))) n).
    + assert (Z.of_nat (length seg) < n - finlen) as Hs by lia.
      rewrite (take_ge seg), (drop_ge seg) by lia. rewrite Z.min_r by lia.
      destruct (IH evs (finlen + Z.of_nat (length seg)) (buf ++ seg)) as [evs' HI]; [lia|cbn in Hl; lia|].
      exists evs'. rewrite length_app, Nat2Z.inj_add.
      destruct (Z.ltb_spec (Z.of_nat (length (stream evs))) (n - (finlen + Z.of_nat (length seg)))),
        (Z.ltb_spec (Z.of_nat (length seg) + Z.of_nat (length (stream evs))) (n - finlen)); try lia.
      * by rewrite app_assoc.
      * rewrite take_app_ge, drop_app_ge, app_assoc by lia.
        by replace (k - length seg)%nat with (Z.to_nat (n - (finlen + Z.of_nat (length seg)))) by lia.
    + assert (n - finlen <= Z.of_nat (length seg)) as Hs by lia.
      rewrite length_app, Nat2Z.inj_add.
      destruct (Z.ltb_spec (Z.of_nat (length seg) + Z.of_nat (length (stream evs))) (n - finlen)); [lia|].
      rewrite take_app_le, drop_app_le by lia. rewrite Z.min_l by lia. eexists. split.
      * exists (n - finlen). split; [lia|]. f_equal. f_equal. f_equal. lia.
      * by destruct (drop k seg).
  - exists evs. destruct (Z.ltb_spec (Z.of_nat (length (@nil byte))) (n - finlen)); [|cbn in *; lia].
    rewrite app_nil_r. eexists _, _. split; [done|]. cbn. lia.
  - exists evs. destruct (Z.ltb_spec (Z.of_nat (length (@nil byte))) (n - finlen)); [|cbn in *; lia].
    rewrite app_nil_r. eexists _, _. split; [done|]. cbn. lia.
Qed.

(** [n] bytes are delivered whatever the segments they arrive in. *)
Lemma q_recvbuf_complete n evs :
  0 < n -> n <= Z.of_nat (length (stream evs)) ->
  exists evs', q_recvbuf n evs = (0, take (Z.to_nat n) (stream evs), evs') /\
    stream evs' = drop (Z.to_nat n) (stream evs).
Proof.
  intros Hn Hs. unfold q_recvbuf.
  destruct (recv_loop_spec (S (length evs)) evs n 0 []) as [evs' H]; [lia..|].
  rewrite Z.sub_0_r in H. destruct (Z.ltb_spec (Z.of_nat (length (stream evs))) n); [lia|].
  destruct H as [(retval & Hr & ->) Hd]. exists evs'. split; [|done].
  destruct (Z.ltb_spec retval 0), (Z.ltb_spec n n); (done || lia).
Qed.

(** Anything shorter is an error. *)
Lemma q_recvbuf_short n evs :
  Z.of_nat (length (stream evs)) < n ->
  exists evs', q_recvbuf n evs = (-1, stream evs, evs').
Proof.
  intros Hs. unfold q_recvbuf.
  destruct (recv_loop_spec (S (length evs)) evs n 0 []) as [evs' H]; [lia..|].
  rewrite Z.sub_0_r in H. destruct (Z.ltb_spec (Z.of_nat (length (stream evs))) n); [|lia].
  destruct H as (retval & finlen & -> & Hf). exists evs'.
  destruct (Z.ltb_spec finlen n); [|lia]. by rewrite orb_true_r.
Qed.

(** Asking for nothing succeeds and leaves the segments where they are. *)
Lemma q_recvbuf_zero evs :
  match evs with Again :: _ | Failed :: _ => False | _ => True end ->
  q_recvbuf 0 evs = (0, [], evs).
Proof. by destruct evs as [|[] ?]. Qed.

(** No error and no time-out on the connection. *)
Definition clean (evs : list event) : bool :=
  forallb (fun ev => match ev with Data _ _ => true | _ => false end) evs.

Lemma recv_clean n evs : clean evs = true -> clean (recv n evs).2 = true.
Proof.
  destruct evs as [|[b bs| |] evs]; cbn; try done. intros H.
  destruct (n <=? 0); [done|]. by destruct (drop _ _).
Qed.

Lemma recv_loop_clean fuel evs n finlen buf :
  clean evs = true -> clean (recv_loop fuel evs n finlen buf).2 = true.
Proof.
  revert evs finlen buf. induction fuel as [|fuel IH]; intros evs finlen buf H; cbn [recv_loop]; [done|].
  pose proof (recv_clean (n - finlen) evs H) as Hr.
  destruct (recv (n - finlen) evs) as [[r got] evs']. cbn [snd] in Hr.
  destruct (_ && _); [by apply IH|done].
Qed.

Lemma q_recvbuf_clean n evs : clean evs = true -> clean (q_recvbuf n evs).2 = true.
Proof.
  intros H. unfold q_recvbuf. pose proof (recv_loop_clean (S (length evs)) evs n 0 [] H) as Hc.
  destruct (recv_loop _ _ _ _ _) as [[[r f] b] evs']. by destruct (_ || _).
Qed.

(** ** Sending *)

Inductive accept : Type :=
  | Take (k : nat)      (* the kernel takes [S k] bytes at most *)
  | SendAgain
  | SendFailed.

(** [send(sock, buf, n)]: return value, bytes put on the wire, rest of the
    plan; once the plan is used up the kernel takes everything. *)
Definition send (data : bytes) (plan : list accept) : Z * bytes * list accept :=
  match plan with
  | [] => (Z.of_nat (length data), data, [])
  | Take k :: plan => let d := take (S k) data in (Z.of_nat (length d), d, plan)
  | SendAgain :: plan => (-1, [], plan)
  | SendFailed :: plan => (-1, [], plan)
  end.

Fixpoint send_loop (fuel : nat) (plan : list accept) (data : bytes) (in_buflen finlen : Z)
    (wire : bytes) : Z * Z * bytes * list accept :=
  match fuel with
  | O => (-1, finlen, wire, plan)
  | S fuel =>
      let '(retval, d, plan) := send (drop (Z.to_nat finlen) data) plan in
      let finlen := if 0 <? retval then finlen + retval else finlen in
      let wire := wire ++ d in
      if (0 <? retval) && (finlen <? in_buflen)
      then send_loop fuel plan data in_buflen finlen wire
      else (retval, finlen, wire, plan)
  end.

(** Return value, the bytes put on the wire, rest of the plan. *)
Definition q_sendbuf (data : bytes) (plan : list accept) : Z * bytes * list accept :=
  let in_buflen := Z.of_nat (length data) in
  let '(retval, finlen, wire, plan) := send_loop (S (length plan)) plan data in_buflen 0 [] in
  if (retval <? 0) || (finlen <? in_buflen) then (-1, wire, plan) else (0, wire, plan).

Definition send_ok (plan : list accept) : bool :=
  forallb (fun a => match a with Take _ => true | _ => false end) plan.

Lemma send_loop_spec fuel plan data finlen :
  0 <= finlen < Z.of_nat (length data) -> (length plan < fuel)%nat -> send_ok plan = true ->
  exists retval plan', 0 < retval /\ send_ok plan' = true /\
    send_loop fuel plan data (Z.of_nat (length data)) finlen (take (Z.to_nat finlen) data) =
    (retval, Z.of_nat (length data), data, plan').
Proof.
  revert plan finlen. induction fuel as [|fuel IH]; intros plan finlen Hf Hl Hok; [lia|].
  destruct plan as [|[k| |] plan]; try done; cbn [send_loop send].
  - rewrite length_drop, take_drop. set (m := (length data - Z.to_nat finlen)%nat).
    exists (Z.of_nat m), []. destruct (Z.ltb_spec 0 (Z.of_nat m)); [|lia]. cbn [andb].
    destruct (Z.ltb_spec (finlen + Z.of_nat m) (Z.of_nat (length data))); [lia|].
    split; [lia|]. split; [done|]. do 3 f_equal. lia.
  - rewrite length_take, length_drop.
    set (m := Nat.min (S k) (length data - Z.to_nat finlen)) in *.
    destruct (Z.ltb_spec 0 (Z.of_nat m)); [|lia]. cbn [andb].
    rewrite take_take_drop.
    assert (take (Z.to_nat finlen + S k) data = take (Z.to_nat (finlen + Z.of_nat m)) data) as ->.
    { unfold m. destruct (Nat.le_ge_cases (S k) (length data - Z.to_nat finlen)).
      - rewrite Nat.min_l by done. f_equal. lia.
      - rewrite Nat.min_r by done. rewrite !take_ge by lia. done. }
    destruct (Z.ltb_spec (finlen + Z.of_nat m) (Z.of_nat (length data))).
    + apply IH; [lia|cbn in Hl; lia|done].
    + exists (Z.of_nat m), plan. split; [lia|]. split; [done|].
      rewrite take_ge by lia. do 3 f_equal. lia.
Qed.

(** The whole buffer is put on the wire whatever the kernel takes per call. *)
Lemma q_sendbuf_complete data plan :
  data <> [] -> send_ok plan = true ->
  exists plan', q_sendbuf data plan = (0, data, plan') /\ send_ok plan' = true.
Proof.
  intros Hd Hok. unfold q_sendbuf.
  destruct (send_loop_spec (S (length plan)) plan data 0) as (r & plan' & Hr & Hok' & E);
    [destruct data; [done|cbn; lia]|lia|done|].
  rewrite take_0 in E. rewrite E. exists plan'. split; [|done].
  destruct (Z.ltb_spec r 0), (Z.ltb_spec (Z.of_nat (length data)) (Z.of_nat (length data))); (done || lia).
Qed.

(** What is on the wire is always a prefix of the data. *)
Lemma send_loop_prefix fuel plan data len finlen :
  0 <= finlen <= Z.of_nat (length data) ->
  let '(r, fl, w, p) := send_loop fuel plan data len finlen (take (Z.to_nat finlen) data) in
  w = take (Z.to_nat fl) data /\ 0 <= fl <= Z.of_nat (length data).
Proof.
  revert plan finlen. induction fuel as [|fuel IH]; intros plan finlen Hf; cbn [send_loop]; [done|].
  destruct (send (drop (Z.to_nat finlen) data) plan) as [[r d] plan'] eqn:E.
  assert (d = take (length d) (drop (Z.to_nat finlen) data) /\
    (0 < r -> r = Z.of_nat (length d)) /\ (r <= 0 -> d = [])) as (Hd & Hr & Hr0).
  { unfold send in E. destruct plan as [|[k| |] plan]; simplify_eq.
    - by rewrite firstn_all; split_and!; [done..|]; intros H; destruct (drop _ _); [|cbn in H; lia].
    - split; [rewrite length_take; symmetry; apply take_min_length|]. split; [done|]. intros H.
      destruct (take _ _); [done|cbn in H; lia].
    - done.
    - done. }
  assert (length d <= length data - Z.to_nat finlen)%nat as Hld.
  { rewrite Hd, length_take, length_drop. lia. }
  assert (take (Z.to_nat finlen) data ++ d = take (Z.to_nat finlen + length d) data) as Htk.
  { rewrite Hd at 1. apply take_take_drop. }
  destruct (Z.ltb_spec 0 r) as [Hpos|Hneg]; cbn [andb].
  - rewrite (Hr Hpos), Htk.
    replace (Z.to_nat finlen + length d)%nat with (Z.to_nat (finlen + Z.of_nat (length d))) by lia.
    destruct (finlen + Z.of_nat (length d) <? len); [apply IH; lia|]. split; [done|lia].
  - rewrite (Hr0 Hneg), app_nil_r. done.
Qed.

(** A successful [q_sendbuf] has sent exactly the buffer. *)
Lemma q_sendbuf_zero data plan w plan' : q_sendbuf data plan = (0, w, plan') -> w = data.
Proof.
  unfold q_sendbuf. pose proof (send_loop_prefix (S (length plan)) plan data (Z.of_nat (length data)) 0 ltac:(lia)) as H.
  rewrite take_0 in H. destruct (send_loop _ _ _ _ _ _) as [[[r fl] w'] p]. destruct H as [-> Hfl].
  destruct (Z.ltb_spec r 0), (Z.ltb_spec fl (Z.of_nat (length data))); cbn [orb]; intros [= <- _].
  apply take_ge. lia.
Qed.

(** ** Reading up to a terminator *)

(** Loop of [q_recvbuf_onebyte] and [q_recvbuf_twobytes]: one byte per [recv],
    time-outs retried, until [stop] holds of what was read. *)
Fixpoint line_loop (fuel : nat) (stop : bytes -> bool) (evs : list event) (buf : bytes) :
    Z * bytes * list event :=
  match fuel with
  | O => (-1, buf, evs)
  | S fuel =>
      match evs with
      | Again :: evs => line_loop fuel stop evs buf
      | _ =>
          let '(once_len, got, evs) := recv 1 evs in
          if once_len <=? 0 then (once_len, buf, evs)
          else
            let buf := buf ++ got in
            if stop buf then (once_len, buf, evs) else line_loop fuel stop evs buf
      end
  end.

(** One round per byte, time-out or error, and one for the shutdown. *)
Fixpoint line_fuel (evs : list event) : nat :=
  match evs with
  | [] => 1
  | Data _ bs :: evs => S (length bs + line_fuel evs)
  | _ :: evs => S (line_fuel evs)
  end.

Definition ends_with (tail buf : bytes) : bool :=
  bool_decide (drop (length buf - length tail) buf = tail).

(** Return value, [in_buflen], bytes stored, what is left. *)
Definition q_recvbuf_onebyte (end_char : byte) (evs : list event) : Z * Z * bytes * list event :=
  let '(once_len, buf, evs) := line_loop (line_fuel evs) (ends_with [end_char]) evs [] in
  if once_len <=? 0 then (-1, Z.of_nat (length buf), buf, evs)
  else (0, Z.of_nat (length buf) - 1, buf, evs).

Definition q_recvbuf_twobytes (end_one end_two : byte) (evs : list event) :
    Z * Z * bytes * list event :=
  let '(once_len, buf, evs) := line_loop (line_fuel evs) (ends_with [end_one; end_two]) evs [] in
  if once_len <=? 0 then (-1, Z.of_nat (length buf), buf, evs)
  else (0, Z.of_nat (length buf) - 2, buf, evs).

(** The bytes that arrive before the first error, time-outs ignored. *)
Fixpoint patient_stream (evs : list event) : bytes :=
  match evs with
  | Data b bs :: evs => b :: bs ++ patient_stream evs
  | Again :: evs => patient_stream evs
  | _ => []
  end.

(** Reading a byte keeps the rest of the stream and uses up fuel. *)
Lemma recv_one evs b bs :
  recv 1 (Data b bs :: evs) = (1, [b], match bs with [] => evs | c :: cs => Data c cs :: evs end) /\
  patient_stream (match bs with [] => evs | c :: cs => Data c cs :: evs end) = bs ++ patient_stream evs /\
  line_fuel (Data b bs :: evs) = S (line_fuel (match bs with [] => evs | c :: cs => Data c cs :: evs end)).
Proof. by destruct bs. Qed.

Lemma line_loop_spec fuel stop evs buf msg rest :
  patient_stream evs = msg ++ rest -> msg <> [] -> (line_fuel evs <= fuel)%nat ->
  stop (buf ++ msg) = true ->
  (forall k, (0 < k < length msg)%nat -> stop (buf ++ take k msg) = false) ->
  exists evs', line_loop fuel stop evs buf = (1, buf ++ msg, evs') /\ patient_stream evs' = rest.
Proof.
  revert evs buf msg. induction fuel as [|fuel IH]; intros evs buf msg Hs Hm Hf Hstop Hmin.
  { destruct evs as [|[] ?]; cbn in Hf; lia. }
  destruct evs as [|[b bs| |] evs]; cbn [patient_stream line_fuel] in *.
  1,4: by destruct msg.
  2:{ cbn [line_loop]. apply IH; (done || lia). }
  destruct (recv_one evs b bs) as (Er & Ep & Ef). cbn [line_loop]. rewrite Er. cbn [Z.leb].
  change (1 <=? 0) with false. cbn iota. cbn [line_fuel] in Ef.
  destruct msg as [|c msg]; [done|]. cbn in Hs. injection Hs as <- Hs.
  destruct msg as [|c' msg'].
  - rewrite Hstop. eexists. split; [done|]. by rewrite Ep, Hs.
  - pose proof (Hmin 1%nat ltac:(cbn; lia)) as H1. cbn in H1. rewrite H1.
    destruct (IH (match bs with [] => evs | c :: cs => Data c cs :: evs end) (buf ++ [b]) (c' :: msg'))
      as (evs' & El & Hr); [by rewrite Ep|done|lia|by rewrite <- app_assoc| |].
    + intros k Hk. rewrite <- app_assoc. apply (Hmin (S k)). cbn in *. lia.
    + exists evs'. rewrite El, <- app_assoc. done.
Qed.

(** ** Connecting *)

Inductive attempt : Type := NoSocket | Refused | Connected.

(** Return value and whether a descriptor is left open. *)
Definition q_connect_socket (a : attempt) : Z * bool :=
  match a with
  | NoSocket => (-1, false)
  | Refused => (-1, false)
  | Connected => (0, true)
  end.

(** The doubling loop; [slept] is the total back-off in seconds and [tries]
    the attempts made.  Attempts beyond the list are refused. *)
Fixpoint retry_loop (fuel : nat) (secs slept : Z) (tries : nat) (attempts : list attempt) :
    Z * Z * nat :=
  match fuel with
  | O => (-1, slept, tries)
  | S fuel =>
      if 128 <? secs then (-1, slept, tries)
      else match attempts with
           | NoSocket :: _ => (-1, slept, S tries)
           | Connected :: _ => (0, slept, S tries)
           | _ =>
               let slept := if secs <=? 128 / 2 then slept + secs else slept in
               retry_loop fuel (Z.shiftl secs 1) slept (S tries) (tl attempts)
           end
  end.

(** [secs] doubles from 1 to 128: nine rounds, the last one leaving the loop. *)
Definition q_connect_socket_retry (attempts : list attempt) : Z * Z * nat :=
  retry_loop 9 1 0 0 attempts.

Lemma retry_loop_spec n attempts slept :
  (n <= 8)%nat -> let j := Z.of_nat (8 - n) in
  slept = Z.min (2 ^ j) 128 - 1 ->
  let '(r, slept, tries) := retry_loop (S n) (2 ^ j) slept (8 - n) attempts in
  (tries <= 8)%nat /\ 0 <= slept <= 127 /\
  (r = 0 <-> exists k, (k < n)%nat /\ attempts !! k = Some Connected /\
                      Forall (fun a => a = Refused) (take k attempts)).
Proof.
  revert attempts slept. induction n as [|n IH]; intros attempts slept Hn j Hs.
  { cbn. repeat split; try lia. intros (k & Hk & _). lia. }
  assert (1 <= 2 ^ j <= 128) as Hj.
  { change 128 with (2 ^ 7). change 1 with (2 ^ 0) at 1. split; apply Z.pow_le_mono_r; lia. }
  remember (S n) as m eqn:Em. cbn [retry_loop]. subst m.
  destruct (Z.ltb_spec 128 (2 ^ j)); [lia|].
  assert (forall rest,
    let '(r, slept, tries) := retry_loop (S n) (Z.shiftl (2 ^ j) 1)
        (if 2 ^ j <=? 128 / 2 then slept + 2 ^ j else slept) (S (8 - S n)) rest in
    (tries <= 8)%nat /\ 0 <= slept <= 127 /\
    (r = 0 <-> exists k, (k < n)%nat /\ rest !! k = Some Connected /\
                        Forall (fun a => a = Refused) (take k rest))) as Hrest.
  { intros rest. rewrite Z.shiftl_mul_pow2, Z.pow_1_r by lia.
    replace (2 ^ j * 2) with (2 ^ Z.of_nat (8 - n)).
    2:{ replace (Z.of_nat (8 - n)) with (Z.succ j) by lia. rewrite Z.pow_succ_r by lia. lia. }
    replace (S (8 - S n)) with (8 - n)%nat by lia. apply IH; [lia|].
    replace (Z.of_nat (8 - n)) with (Z.succ j) by lia. rewrite Z.pow_succ_r by lia.
    change (128 / 2) with 64. destruct (Z.leb_spec (2 ^ j) 64); [lia|].
    assert (2 ^ 7 <= 2 ^ j) by (apply Z.pow_le_mono_r; [lia|];
      destruct (Z.le_gt_cases 7 j); [done|]; assert (2 ^ j <= 2 ^ 6) by (apply Z.pow_le_mono_r; lia); lia).
    lia. }
  assert (0 <= slept <= 127) as Hsl by lia.
  destruct attempts as [|[] attempts].
  - specialize (Hrest []). cbn [tl]. destruct (retry_loop _ _ _ _ []) as [[r sl] tries].
    destruct Hrest as (? & ? & Hr). repeat split; try lia.
    + intros (k & _ & ? & _)%Hr. done.
    + by intros (k & _ & ? & _).
  - repeat split; try lia. intros ([|k] & Hk & Ha & Hf); [done|]. cbn in Hf. by inversion Hf.
  - specialize (Hrest attempts). cbn [tl]. destruct (retry_loop _ _ _ _ attempts) as [[r sl] tries].
    destruct Hrest as (? & ? & Hr). repeat split; try lia.
    + intros (k & ? & ? & ?)%Hr. exists (S k). cbn. repeat split; [lia|done|by constructor].
    + intros ([|k] & Hk & Ha & Hf); [done|]. cbn in *. inversion Hf; subst.
      apply Hr. exists k. repeat split; [lia|done..].
  - repeat split; try lia. intros _. exists 0%nat. cbn. repeat split; [lia|constructor].
Qed.

(** [q_connect_socket_retry] makes at most eight attempts and sleeps at
    most 127 seconds in all; it succeeds exactly when one of the eight
    connects before a socket cannot be created. *)
Theorem q_connect_socket_retry_spec attempts :
  let '(r, slept, tries) := q_connect_socket_retry attempts in
  (tries <= 8)%nat /\ 0 <= slept <= 127 /\
  (r = 0 <-> exists k, (k < 8)%nat /\ attempts !! k = Some Connected /\
                      Forall (fun a => a = Refused) (take k attempts)).
Proof. by apply (retry_loop_spec 8 attempts 0). Qed.

(** ** Sending a file *)

(** The [while(file_len>0)] loop in pieces of 3 KiB; [read_ok] says whether
    each [fread] succeeds. *)
Fixpoint sendfile_loop (fuel : nat) (read_ok : nat -> bool) (file : bytes) (file_len : Z)
    (plan : list accept) (wire : bytes) : Z * bytes * list accept :=
  match fuel with
  | O => (-1, wire, plan)
  | S fuel =>
      if file_len <=? 0 then (0, wire, plan)
      else
        let send_len := if file_len <? 3072 then file_len else 3072 in
        if negb (read_ok fuel) then (-1, wire, plan)
        else
          let '(r, d, plan) := q_sendbuf (take (Z.to_nat send_len) file) plan in
          if negb (r =? 0) then (-1, wire ++ d, plan)
          else sendfile_loop fuel read_ok (drop (Z.to_nat send_len) file) (file_len - send_len)
                             plan (wire ++ d)
  end.

(** [file] is the content of the file, [None] when it cannot be opened. *)
Definition q_sendfile (file : option bytes) (read_ok : nat -> bool) (plan : list accept) :
    Z * bytes * list accept :=
  match file with
  | None => (-1, [], plan)
  | Some content =>
      let file_len := Z.of_nat (length content) in
      let '(r, d, plan) := q_sendbuf (le_encode 4 file_len) plan in
      if negb (r =? 0) then (-1, d, plan)
      else sendfile_loop (S (length content)) read_ok content file_len plan d
  end.

Lemma sendfile_loop_spec fuel file plan wire :
  (length file < fuel)%nat -> send_ok plan = true ->
  exists plan', sendfile_loop fuel (fun _ => true) file (Z.of_nat (length file)) plan wire =
    (0, wire ++ file, plan').
Proof.
  revert file plan wire. induction fuel as [|fuel IH]; intros file plan wire Hf Hok; [lia|].
  cbn [sendfile_loop negb]. destruct (Z.leb_spec (Z.of_nat (length file)) 0).
  { destruct file; [|cbn in *; lia]. rewrite app_nil_r. eauto. }
  set (n := if Z.of_nat (length file) <? 3072 then Z.of_nat (length file) else 3072).
  assert (0 < n <= Z.of_nat (length file)) as Hn
    by (unfold n; destruct (Z.ltb_spec (Z.of_nat (length file)) 3072); lia).
  clearbody n.
  destruct (q_sendbuf_complete (take (Z.to_nat n) file) plan) as (plan' & -> & Hok'); [|done|].
  { intros E%(f_equal length). rewrite length_take in E. cbn in E. lia. }
  cbn [Z.eqb negb].
  destruct (IH (drop (Z.to_nat n) file) plan' (wire ++ take (Z.to_nat n) file)) as [plan'' E];
    [rewrite length_drop; lia|done|].
  rewrite length_drop in E.
  replace (Z.of_nat (length file - Z.to_nat n)) with (Z.of_nat (length file) - n) in E by lia.
  rewrite E, <- app_assoc, take_drop. eauto.
Qed.

(** A readable file is sent as its length on four bytes, little-endian,
    followed by its content, however the kernel splits the sends. *)
Theorem q_sendfile_wire content plan :
  send_ok plan = true ->
  exists plan', q_sendfile (Some content) (fun _ => true) plan =
    (0, le_encode 4 (Z.of_nat (length content)) ++ content, plan').
Proof.
  intros Hok. unfold q_sendfile.
  destruct (q_sendbuf_complete (le_encode 4 (Z.of_nat (length content))) plan) as (plan' & -> & Hok');
    [done|done|].
  cbn [Z.eqb negb]. apply sendfile_loop_spec; [lia|done].
Qed.

Lemma q_sendfile_wire_witness :
  exists plan', q_sendfile (Some (str "image")) (fun _ => true) [Take 0; Take 6; Take 1] =
    (0, le_encode 4 5 ++ str "image", plan').
Proof. apply (q_sendfile_wire (str "image") [Take 0; Take 6; Take 1]). reflexivity. Defined.

(** A terminated line is read whole and nothing past it, whatever the
    segmentation and however many receive time-outs interleave: the call
    returns 0, the length without the terminator, and leaves the rest of the
    stream. *)
Theorem q_recvbuf_onebyte_line evs line e rest :
  patient_stream evs = line ++ e :: rest -> e ∉ line ->
  exists evs', q_recvbuf_onebyte e evs = (0, Z.of_nat (length line), line ++ [e], evs') /\
    patient_stream evs' = rest.
Proof.
  intros Hs He. unfold q_recvbuf_onebyte.
  destruct (line_loop_spec (line_fuel evs) (ends_with [e]) evs [] (line ++ [e]) rest)
    as (evs' & -> & Hr).
  - by rewrite <- app_assoc.
  - by destruct line.
  - done.
  - unfold ends_with. cbn [app]. rewrite length_app. cbn [length].
    rewrite Nat.add_sub, drop_app_length. by apply bool_decide_eq_true.
  - intros k Hk. rewrite length_app in Hk. cbn in Hk. unfold ends_with. cbn [app length].
    rewrite take_app_le by lia. apply bool_decide_eq_false. intros E. apply He.
    apply (list_elem_of_lookup_2 line (k - 1)).
    assert (drop (length (take k line) - 1) (take k line) !! 0%nat = Some e) as Hx by (by rewrite E).
    rewrite lookup_drop, length_take, Nat.add_0_r in Hx.
    apply lookup_take_Some in Hx as [Hx _]. rewrite <- Hx. f_equal. lia.
  - exists evs'. cbn [app]. rewrite length_app. cbn [length Z.leb]. split; [|done].
    change (1 <=? 0) with false. cbn iota. do 3 f_equal. lia.
Qed.

Lemma q_recvbuf_onebyte_line_witness :
  exists evs', q_recvbuf_onebyte x0a [Data x61 [x62]; Again; Data x0a [x63]] =
    (0, 2, [x61; x62; x0a], evs') /\ patient_stream evs' = [x63].
Proof.
  apply (q_recvbuf_onebyte_line [Data x61 [x62]; Again; Data x0a [x63]] [x61; x62] x0a [x63]);
    [reflexivity|set_solver].
Defined.

(** [q_recvbuf] gives up at the first receive time-out, however much it
    still expects and although the connection stays usable: the [continue] on
    EAGAIN goes to the loop condition, which is false. *)
Theorem q_recvbuf_no_retry n evs1 evs2 :
  Z.of_nat (length (stream evs1)) < n ->
  Forall (fun e => match e with Data _ _ => True | _ => False end) evs1 ->
  exists evs', q_recvbuf n (evs1 ++ Again :: evs2) = (-1, stream evs1, evs').
Proof.
  intros Hn Hd.
  assert (stream (evs1 ++ Again :: evs2) = stream evs1) as E.
  { clear Hn. induction Hd as [|[b bs| |] evs1 He _ IH]; cbn; try done.
    by rewrite IH. }
  rewrite <- E. apply q_recvbuf_short. by rewrite E.
Qed.

Lemma q_recvbuf_no_retry_witness :
  exists evs', q_recvbuf 4 ([Data x61 [x62]] ++ Again :: [Data x63 [x64]]) = (-1, [x61; x62], evs').
Proof.
  apply (q_recvbuf_no_retry 4 [Data x61 [x62]] [Data x63 [x64]]); [cbn; lia|by repeat constructor].
Defined.

End Sock.
