(* ===== verification/Protocol.v ===== *)
(** * Protocol: constants and packed structures of src/include/common/qtcpsocket.h

    The structures are packed ([#pragma pack(1)]), so a field is a region of a
    byte buffer at a fixed offset; integers are little-endian. *)

From S2P Require Import Prelude CLib.

Module Proto.

Abbreviation TCP_OK := (0)%Z (only parsing).
Abbreviation TCP_ERR := (-1)%Z (only parsing).
Abbreviation TCP_ERR_HEAP_ALLOC := (-2)%Z (only parsing).
Abbreviation TCP_ERR_SOCKET_INIT := (-11)%Z (only parsing).
Abbreviation TCP_ERR_SOCKET_CONNECTION := (-12)%Z (only parsing).
Abbreviation TCP_ERR_SOCKET_TIMEOUT := (-14)%Z (only parsing).
Abbreviation TCP_ERR_SOCKET_RECV := (-15)%Z (only parsing).
Abbreviation TCP_ERR_PACKET_HEADER := (-16)%Z (only parsing).
Abbreviation TCP_ERR_PACKET_LENGTH := (-17)%Z (only parsing).
Abbreviation TCP_ERR_SOCKET_SEND := (-18)%Z (only parsing).
Abbreviation TCP_ERR_SOCKET_VERSION := (-19)%Z (only parsing).
Abbreviation TCP_ERR_PROTOCOL_TYPE := (-20)%Z (only parsing).
Abbreviation TCP_ERR_SOURCE_TYPE := (-21)%Z (only parsing).
Abbreviation TCP_ERR_COMMAND_TYPE := (-22)%Z (only parsing).
Abbreviation TCP_ERR_OPERATE_TYPE := (-24)%Z (only parsing).
Abbreviation TCP_ERR_DATA_LENGTH := (-25)%Z (only parsing).

Abbreviation TCP_DEFAULT_PROTOCOL_TYPE := (1)%Z (only parsing).
Abbreviation TCP_DEFAULT_SOURCE_TYPE := (1)%Z (only parsing).
Abbreviation TCP_DEFAULT_COMMAND_TYPE := (1)%Z (only parsing).
Abbreviation TCP_DEFAULT_OPERATE_TYPE := (1)%Z (only parsing).
Abbreviation TCP_DEFAULT_SERVER_PORT := (8088)%Z (only parsing).
Abbreviation TCP_DEFAULT_MONITOR_PORT := (8078)%Z (only parsing).
Abbreviation TCP_DEFAULT_SERVER_TIMEOUT := (10000)%Z (only parsing).
Abbreviation TCP_DEFAULT_THREAD_NUM := (1)%Z (only parsing).
Abbreviation TCP_DEFAULT_BUFFER_SIZE := (Z.shiftl 1 20)%Z (only parsing).
Abbreviation TCP_DEFAULT_THREAD_TIMEOUT := (12000)%Z (only parsing).
Abbreviation TCP_DEFAULT_QUEUE_SIZE := (200)%Z (only parsing).
Abbreviation TCP_DEFAULT_REQUEST_SIZE := (Z.shiftl 3 20)%Z (only parsing).
Abbreviation TCP_DEFAULT_REPLY_SIZE := (Z.shiftl 1 20)%Z (only parsing).
Abbreviation TCP_DEFAULT_HEADER_SIZE := (12)%Z (only parsing).
Abbreviation TCP_DEFAULT_LOG_SIZE := (Z.shiftl 1 10)%Z (only parsing).
Abbreviation TCP_DEFAULT_LOG_SCREEN := (1)%Z (only parsing).

(** [*(uint64_t* )"YST1.0.0"] and [*(uint64_t* )"@#@#@#@#"]. *)
Abbreviation TCP_HEADER_VERSION := (le_decode (str "YST1.0.0"))%Z (only parsing).
Abbreviation TCP_TAILER_FILE_MARK := (le_decode (str "@#@#@#@#"))%Z (only parsing).

(** ** Fields of a buffer *)

Definition get_u16 (off : nat) (buf : bytes) : Z := le_decode (slice off 2 buf).
Definition get_u32 (off : nat) (buf : bytes) : Z := le_decode (slice off 4 buf).
Definition get_i32 (off : nat) (buf : bytes) : Z := i32 (le_decode (slice off 4 buf)).
Definition get_u64 (off : nat) (buf : bytes) : Z := le_decode (slice off 8 buf).
Definition put_u16 (off : nat) (v : Z) (buf : bytes) : bytes := list_inserts off (le_encode 2 v) buf.
Definition put_i32 (off : nat) (v : Z) (buf : bytes) : bytes := list_inserts off (le_encode 4 v) buf.
Definition put_u64 (off : nat) (v : Z) (buf : bytes) : bytes := list_inserts off (le_encode 8 v) buf.

(** ** Structures *)

(** [struct baseHeader] *)
Definition baseHeader_sizeof : nat := 12.
Abbreviation baseHeader_version := 0%nat (only parsing).
Abbreviation baseHeader_length := 8%nat (only parsing).

(** [struct requestParam] *)
Definition requestParam_sizeof : nat := 20.
Abbreviation requestParam_protocol_type := 0%nat (only parsing).
Abbreviation requestParam_source_type := 2%nat (only parsing).
Abbreviation requestParam_reserved := 4%nat (only parsing).
Abbreviation requestParam_command_type := 18%nat (only parsing).

(** [struct replyParam] *)
Definition replyParam_sizeof : nat := 20.
Abbreviation replyParam_reserved := 0%nat (only parsing).
Abbreviation replyParam_command_type := 14%nat (only parsing).
Abbreviation replyParam_status := 16%nat (only parsing).

(** [struct requestHeader] *)
Definition requestHeader_sizeof : nat := 32.
Abbreviation requestHeader_version := 0%nat (only parsing).
Abbreviation requestHeader_length := 8%nat (only parsing).
Abbreviation requestHeader_protocol_type := 12%nat (only parsing).
Abbreviation requestHeader_source_type := 14%nat (only parsing).
Abbreviation requestHeader_reserved := 16%nat (only parsing).
Abbreviation requestHeader_command_type := 30%nat (only parsing).

(** [struct replyHeader] *)
Definition replyHeader_sizeof : nat := 32.
Abbreviation replyHeader_version := 0%nat (only parsing).
Abbreviation replyHeader_length := 8%nat (only parsing).
Abbreviation replyHeader_reserved := 12%nat (only parsing).
Abbreviation replyHeader_command_type := 26%nat (only parsing).
Abbreviation replyHeader_status := 28%nat (only parsing).

(** ** Reading what was written *)

Lemma length_put_u16 off v buf : length (put_u16 off v buf) = length buf.
Proof. apply length_inserts. Qed.
Lemma length_put_i32 off v buf : length (put_i32 off v buf) = length buf.
Proof. apply length_inserts. Qed.
Lemma length_put_u64 off v buf : length (put_u64 off v buf) = length buf.
Proof. apply length_inserts. Qed.

#[export] Hint Rewrite length_put_u16 length_put_i32 length_put_u64 : dfs_len.

Lemma get_put_u16 off v buf :
  (off + 2 <= length buf)%nat -> is_u16 v -> get_u16 off (put_u16 off v buf) = v.
Proof.
  intros Hl Hv. unfold get_u16, put_u16. rewrite slice_inserts_same by len.
  rewrite le_decode_encode. by apply Z.mod_small.
Qed.

Lemma get_put_i32 off v buf :
  (off + 4 <= length buf)%nat -> is_i32 v -> get_i32 off (put_i32 off v buf) = v.
Proof.
  intros Hl Hv. unfold get_i32, put_i32. rewrite slice_inserts_same by len.
  rewrite le_decode_encode. change (256 ^ Z.of_nat 4) with (2 ^ 32).
  fold (u32 v). rewrite i32_u32. by apply i32_small.
Qed.

Lemma get_put_u64 off v buf :
  (off + 8 <= length buf)%nat -> is_u64 v -> get_u64 off (put_u64 off v buf) = v.
Proof.
  intros Hl Hv. unfold get_u64, put_u64. rewrite slice_inserts_same by len.
  rewrite le_decode_encode. by apply Z.mod_small.
Qed.

(** A field is not affected by a write elsewhere. *)
Lemma slice_put_u16 off len off' v buf :
  (off + len <= off' \/ off' + 2 <= off)%nat -> slice off len (put_u16 off' v buf) = slice off len buf.
Proof. intros. apply slice_inserts_other. rewrite length_le_encode. lia. Qed.
Lemma slice_put_i32 off len off' v buf :
  (off + len <= off' \/ off' + 4 <= off)%nat -> slice off len (put_i32 off' v buf) = slice off len buf.
Proof. intros. apply slice_inserts_other. rewrite length_le_encode. lia. Qed.
Lemma slice_put_u64 off len off' v buf :
  (off + len <= off' \/ off' + 8 <= off)%nat -> slice off len (put_u64 off' v buf) = slice off len buf.
Proof. intros. apply slice_inserts_other. rewrite length_le_encode. lia. Qed.

End Proto.

(** Reads of a field of a buffer written by a sequence of disjoint writes. *)
Ltac field :=
  unfold Proto.get_u16, Proto.get_u32, Proto.get_i32, Proto.get_u64;
  repeat first
    [rewrite Proto.slice_put_u16 by lia | rewrite Proto.slice_put_i32 by lia
    |rewrite Proto.slice_put_u64 by lia | rewrite slice_inserts_other by len].
