(* ===== verification/TcpClient.v ===== *)
(** * TcpClient: [QTcpClient] of src/include/common/qtcpsocket.cc

    The client object, the layout of a request in its freshly allocated (and
    uninitialised) buffer, and the reading of a reply.  A read outside the
    reply buffer is visible as [None].  The theorems give the bytes a request
    puts on the wire and the replies for which [getReply] stays in bounds. *)

From S2P Require Import Prelude CLib Sockets Protocol.

Module Client.
Import Proto Sock.

Record QTcpClient : Type := mkQTcpClient {
  server_ip_ : bytes;
  server_port_ : Z;
  server_timeout_ : Z;
  version_ : Z;
  protocol_type_ : Z;
  source_type_ : Z;
  command_type_ : Z;
  operate_type_ : Z;
  request_buffer_ : option bytes;
  request_buffer_size_ : Z;
  reply_buffer_ : option bytes;
  reply_buffer_size_ : Z
}.

(** [ip] is what the uninitialised [server_ip_] holds. *)
Definition QTcpClient_new (ip : bytes) : QTcpClient :=
  mkQTcpClient ip TCP_DEFAULT_SERVER_PORT TCP_DEFAULT_SERVER_TIMEOUT TCP_HEADER_VERSION
    TCP_DEFAULT_PROTOCOL_TYPE TCP_DEFAULT_SOURCE_TYPE TCP_DEFAULT_COMMAND_TYPE
    TCP_DEFAULT_OPERATE_TYPE None TCP_DEFAULT_REQUEST_SIZE None TCP_DEFAULT_REPLY_SIZE.

(** [strcpy] into the 16 bytes of [server_ip_]; [None] when it overruns them. *)
Definition setHost (ip : bytes) (port : Z) (c : QTcpClient) : option QTcpClient :=
  if 16 <=? strlen ip then None
  else Some (mkQTcpClient (cstr ip) (u16 port) (server_timeout_ c) (version_ c) (protocol_type_ c)
    (source_type_ c) (command_type_ c) (operate_type_ c) (request_buffer_ c)
    (request_buffer_size_ c) (reply_buffer_ c) (reply_buffer_size_ c)).

(** [setHost("ip:port")]: aborts without a colon. *)
Definition setHost_str (host : bytes) (c : QTcpClient) : outcome (option QTcpClient) :=
  match find_byte x3a (cstr host) with
  | None => Abort
  | Some p => Ret (setHost (take p (cstr host)) (atoi (drop (S p) (cstr host))) c)
  end.

Definition set_fields (f : Z -> Z -> Z -> Z -> Z -> Z -> Z * Z * Z * Z * Z * Z) (c : QTcpClient) :
    QTcpClient :=
  let '(t, v, p, s, m, o) := f (server_timeout_ c) (version_ c) (protocol_type_ c)
                               (source_type_ c) (command_type_ c) (operate_type_ c) in
  mkQTcpClient (server_ip_ c) (server_port_ c) t v p s m o (request_buffer_ c)
    (request_buffer_size_ c) (reply_buffer_ c) (reply_buffer_size_ c).

Definition setTimeout (x : Z) := set_fields (fun t v p s m o => (x, v, p, s, m, o)).
Definition setVersion (x : Z) := set_fields (fun t v p s m o => (t, x, p, s, m, o)).
Definition setProtocolType (x : Z) := set_fields (fun t v p s m o => (t, v, x, s, m, o)).
Definition setSourceType (x : Z) := set_fields (fun t v p s m o => (t, v, p, x, m, o)).
Definition setCommandType (x : Z) := set_fields (fun t v p s m o => (t, v, p, s, x, o)).
Definition setOperateType (x : Z) := set_fields (fun t v p s m o => (t, v, p, s, m, x)).

(** ** Requests *)

(** The extension of a request counts when the pointer and the length do. *)
Definition has_extend (extend : option bytes) : option bytes :=
  match extend with
  | Some e => if (length e =? 0)%nat then None else Some e
  | None => None
  end.

Definition packet_length (data : bytes) (extend : option bytes) : Z :=
  let packet_len := Z.of_nat requestHeader_sizeof + 2 in
  match has_extend extend with
  | Some e => i32 (packet_len + (4 * 3 + Z.of_nat (length data) + Z.of_nat (length e)))
  | None => i32 (packet_len + (4 + Z.of_nat (length data)))
  end.

(** The stores of [sendRequest] into the allocated buffer [mem]. *)
Definition build_request (c : QTcpClient) (data : bytes) (extend : option bytes) (mem : bytes) :
    bytes :=
  let packet_len := packet_length data extend in
  let data_len := Z.of_nat (length data) in
  let b := put_u64 requestHeader_version TCP_HEADER_VERSION mem in
  let b := put_i32 requestHeader_length (packet_len - Z.of_nat baseHeader_sizeof) b in
  let b := put_u16 requestHeader_protocol_type (protocol_type_ c) b in
  let b := put_u16 requestHeader_source_type (source_type_ c) b in
  let b := put_u16 requestHeader_command_type (command_type_ c) b in
  let p := requestHeader_sizeof in
  let b := put_u16 p (operate_type_ c) b in
  match has_extend extend with
  | Some e =>
      let extend_len := Z.of_nat (length e) in
      let b := put_i32 (p + 2) (data_len + extend_len + 8) b in
      let b := put_i32 (p + 6) data_len b in
      let b := list_inserts (p + 10) data b in
      let b := put_i32 (p + 10 + length data) extend_len b in
      list_inserts (p + 14 + length data) e b
  | None =>
      let b := put_i32 (p + 2) data_len b in
      list_inserts (p + 6) data b
  end.

(** What the network layer answers during a request. *)
Record net_env : Type := mkNet {
  net_init : Z;
  net_connect : attempt;
  net_overtime : Z;
  net_plan : list accept
}.

(** Return value, bytes put on the wire, client afterwards; [alloc] is the
    memory [q_new_array] returned. *)
Definition sendRequest (ptr_data extend : option bytes) (alloc : option bytes) (net : net_env)
    (c : QTcpClient) : Z * bytes * QTcpClient :=
  match ptr_data with
  | None => (TCP_ERR, [], c)
  | Some data =>
      let packet_len := packet_length data extend in
      let with_buf b :=
        mkQTcpClient (server_ip_ c) (server_port_ c) (server_timeout_ c) (version_ c)
          (protocol_type_ c) (source_type_ c) (command_type_ c) (operate_type_ c) b packet_len
          (reply_buffer_ c) (reply_buffer_size_ c) in
      match alloc with
      | None => (TCP_ERR_HEAP_ALLOC, [], with_buf None)
      | Some mem =>
          let req := build_request c data extend mem in
          let c := with_buf (Some req) in
          if net_init net <? 0 then (TCP_ERR_SOCKET_INIT, [], c)
          else if (q_connect_socket (net_connect net)).1 <? 0 then (TCP_ERR_SOCKET_CONNECTION, [], c)
          else if net_overtime net <? 0 then (TCP_ERR_SOCKET_TIMEOUT, [], c)
          else let '(r, wire, _) := q_sendbuf (take (Z.to_nat packet_len) req) (net_plan net) in
               if r <? 0 then (TCP_ERR_SOCKET_SEND, wire, c) else (TCP_OK, wire, c)
      end
  end.

(** ** Replies *)

(** [struct networkReply]; [data] is the rest of the reply buffer from where
    the pointer points. *)
Record networkReply : Type := mkReply { status : Z; data : option bytes; reply_length : Z }.
Definition networkReply_new : networkReply := mkReply 0 None 0.

(** [None] is a read outside the reply buffer. *)
Definition getReply (alloc_ok : bool) (evs : list event) (reply : networkReply) :
    option (Z * networkReply) :=
  let '(r, hdr, evs) := q_recvbuf (Z.of_nat baseHeader_sizeof) evs in
  if r <? 0 then Some (TCP_ERR_SOCKET_RECV, reply)
  else if negb (get_u64 baseHeader_version hdr =? TCP_HEADER_VERSION)
  then Some (TCP_ERR_SOCKET_VERSION, reply)
  else
    let len := get_i32 baseHeader_length hdr in
    if (len <=? 0) || (Z.shiftl 1 20 <? len + Z.of_nat baseHeader_sizeof)
    then Some (TCP_ERR_PACKET_LENGTH, reply)
    else if negb alloc_ok then Some (TCP_ERR_HEAP_ALLOC, reply)
    else
      let '(r, buf, _) := q_recvbuf len evs in
      if negb (r =? 0) then Some (TCP_ERR_SOCKET_RECV, reply)
      else if len <? Z.of_nat replyParam_sizeof then None
      else
        let st := get_i32 replyParam_status buf in
        if (st =? 0) && negb (len =? Z.of_nat replyParam_sizeof) then
          if len <? Z.of_nat replyParam_sizeof + 4 then None
          else Some (TCP_OK, mkReply st (Some (drop (replyParam_sizeof + 4) buf))
                               (i32 (get_u32 replyParam_sizeof buf)))
        else Some (TCP_OK, mkReply st (data reply) (reply_length reply)).

(** ** The bytes of a request *)

(** A request with [reserved] in the fourteen reserved bytes. *)
Definition request_packet (c : QTcpClient) (reserved data : bytes) : bytes :=
  le_encode 8 TCP_HEADER_VERSION ++ le_encode 4 (26 + Z.of_nat (length data)) ++
  le_encode 2 (protocol_type_ c) ++ le_encode 2 (source_type_ c) ++ reserved ++
  le_encode 2 (command_type_ c) ++ le_encode 2 (operate_type_ c) ++
  le_encode 4 (Z.of_nat (length data)) ++ data.

Lemma packet_length_small data :
  Z.of_nat (length data) <= INT32_MAX - 38 -> packet_length data None = 38 + Z.of_nat (length data).
Proof.
  intros H. unfold packet_length, INT32_MAX, requestHeader_sizeof in *. cbn [has_extend].
  rewrite i32_small; [lia|]. unfold is_i32, INT32_MIN, INT32_MAX. lia.
Qed.

Lemma build_request_packet c data mem :
  Z.of_nat (length data) <= INT32_MAX - 38 -> length mem = (38 + length data)%nat ->
  build_request c data None mem = request_packet c (slice 16 14 mem) data.
Proof.
  intros Hd Hm. unfold build_request. rewrite packet_length_small by done. cbn [has_extend].
  destruct (cut_at 8 mem) as (m0 & r0 & -> & H0 & R0); [lia|]. rewrite Hm in R0.
  destruct (cut_at 4 r0) as (m1 & r1 & -> & H1 & R1); [lia|]. rewrite R0 in R1.
  destruct (cut_at 2 r1) as (m2 & r2 & -> & H2 & R2); [lia|]. rewrite R1 in R2.
  destruct (cut_at 2 r2) as (m3 & r3 & -> & H3 & R3); [lia|]. rewrite R2 in R3.
  destruct (cut_at 14 r3) as (m4 & r4 & -> & H4 & R4); [lia|]. rewrite R3 in R4.
  destruct (cut_at 2 r4) as (m5 & r5 & -> & H5 & R5); [lia|]. rewrite R4 in R5.
  destruct (cut_at 2 r5) as (m6 & r6 & -> & H6 & R6); [lia|]. rewrite R5 in R6.
  destruct (cut_at 4 r6) as (m7 & m8 & -> & H7 & R8); [lia|]. rewrite R6 in R8.
  replace (slice 16 14 _) with m4.
  2:{ rewrite !app_assoc, <- (app_assoc _ m5), <- (app_assoc _ (m5 ++ m6)), <- (app_assoc _ ((m5 ++ m6) ++ m7)).
      rewrite <- (app_assoc _ m4). symmetry. apply slice_app_exact; len. }
  clear Hm R0 R1 R2 R3 R4 R5 R6. unfold put_u64, put_i32, put_u16.
  unfold requestHeader_sizeof, baseHeader_sizeof.
  layout. unfold request_packet.
  by replace (38 + Z.of_nat (length data) - Z.of_nat 12) with (26 + Z.of_nat (length data)) by lia.
Qed.

Definition net_ok (net : net_env) : Prop :=
  0 <= net_init net /\ net_connect net = Connected /\ 0 <= net_overtime net /\
  send_ok (net_plan net) = true.

Lemma sendRequest_packet c data mem net :
  Z.of_nat (length data) <= INT32_MAX - 38 -> length mem = (38 + length data)%nat -> net_ok net ->
  exists c', sendRequest (Some data) None (Some mem) net c =
    (TCP_OK, request_packet c (slice 16 14 mem) data, c').
Proof.
  intros Hd Hm (Hi & Hc & Ho & Hp). unfold sendRequest.
  rewrite build_request_packet, packet_length_small by done.
  destruct (Z.ltb_spec (net_init net) 0); [lia|]. rewrite Hc. cbn [q_connect_socket fst].
  change (0 <? 0) with false. cbn iota. destruct (Z.ltb_spec (net_overtime net) 0); [lia|].
  rewrite take_ge by (unfold request_packet; rewrite !length_app, !length_le_encode, length_slice; lia).
  destruct (q_sendbuf_complete (request_packet c (slice 16 14 mem) data) (net_plan net))
    as (plan' & -> & _); [done|done|]. eauto.
Qed.

(** ** Reading a reply *)

(** A reply of the server: status, and the payload when the status is 0. *)
Definition reply_packet (reserved : bytes) (cmd st : Z) (payload : bytes) : bytes :=
  le_encode 8 TCP_HEADER_VERSION ++ le_encode 4 (20 + Z.of_nat (length payload)) ++
  reserved ++ le_encode 2 cmd ++ le_encode 4 st ++ payload.

Definition reply_result (st : Z) (payload : bytes) (old : networkReply) : networkReply :=
  if (st =? 0) && negb (length payload =? 0)%nat
  then mkReply st (Some (drop 4 payload)) (i32 (le_decode (take 4 payload)))
  else mkReply st (data old) (reply_length old).

(** A well-formed reply is read completely, whatever the segmentation. *)
Lemma getReply_packet evs reserved cmd st payload rest old :
  stream evs = reply_packet reserved cmd st payload ++ rest ->
  length reserved = 14%nat -> is_i32 st ->
  (payload = [] \/ (4 <= length payload)%nat) ->
  Z.of_nat (length payload) <= 2 ^ 20 - 32 ->
  getReply true evs old = Some (TCP_OK, reply_result st payload old).
Proof.
  intros Hs Hr Hst Hp Hmax. unfold getReply.
  assert (length (stream evs) = 32 + length payload + length rest)%nat as Hlen.
  { rewrite Hs. unfold reply_packet. len. }
  destruct (q_recvbuf_complete 12 evs) as (evs' & Eq & Hs'); [lia|lia|].
  change (Z.of_nat baseHeader_sizeof) with 12. rewrite Eq. cbn [fst]. change (0 <? 0) with false.
  cbn iota. set (hdr := take (Z.to_nat 12) (stream evs)).
  assert (hdr = le_encode 8 TCP_HEADER_VERSION ++ le_encode 4 (20 + Z.of_nat (length payload))) as Hh.
  { unfold hdr. rewrite Hs. unfold reply_packet.
    rewrite <- !app_assoc, (app_assoc (le_encode 8 _)). by apply take_app_length'. }
  assert (get_u64 baseHeader_version hdr = TCP_HEADER_VERSION) as ->.
  { rewrite Hh. unfold get_u64. change (slice baseHeader_version 8 _) with (le_encode 8 TCP_HEADER_VERSION).
    done. }
  rewrite Z.eqb_refl. cbn [negb].
  assert (get_i32 baseHeader_length hdr = 20 + Z.of_nat (length payload)) as ->.
  { rewrite Hh. unfold get_i32. rewrite <- (app_nil_r (le_encode 4 _)), slice_app_exact by done.
    rewrite i32_le_decode. apply i32_small. unfold is_i32, INT32_MIN, INT32_MAX. lia. }
  set (n := 20 + Z.of_nat (length payload)).
  destruct (Z.leb_spec n 0); [lia|]. change (Z.shiftl 1 20) with (2 ^ 20).
  destruct (Z.ltb_spec (2 ^ 20) (n + 12)); [lia|]. cbn [orb].
  destruct (q_recvbuf_complete n evs') as (evs'' & Eq' & _); [lia|rewrite Hs', length_drop; lia|].
  rewrite Eq'. cbn [fst Z.eqb negb].
  assert (take (Z.to_nat n) (stream evs') = reserved ++ le_encode 2 cmd ++ le_encode 4 st ++ payload) as ->.
  { rewrite Hs', Hs. unfold reply_packet. rewrite <- !app_assoc, (app_assoc (le_encode 8 _)).
    rewrite drop_app_length' by done. rewrite !app_assoc. apply take_app_length'. len. }
  change (Z.of_nat replyParam_sizeof) with 20.
  destruct (Z.ltb_spec n 20); [lia|].
  assert (get_i32 replyParam_status (reserved ++ le_encode 2 cmd ++ le_encode 4 st ++ payload) = st) as ->.
  { unfold get_i32. rewrite (app_assoc reserved), slice_app_exact by len.
    rewrite i32_le_decode. by apply i32_small. }
  unfold reply_result. assert ((n =? 20) = (length payload =? 0)%nat) as ->
    by (unfold n; destruct (Z.eqb_spec (20 + Z.of_nat (length payload)) 20),
          (Nat.eqb_spec (length payload) 0); (done || lia)).
  destruct ((st =? 0) && negb (length payload =? 0)%nat) eqn:E; [|done].
  apply andb_prop in E as [_ E]. destruct (Z.ltb_spec n (20 + 4)).
  { destruct Hp as [->|Hp]; [done|unfold n in *; lia]. }
  set (pre := reserved ++ le_encode 2 cmd ++ le_encode 4 st).
  assert (length pre = 20%nat) as Hpre by (unfold pre; len).
  replace (reserved ++ le_encode 2 cmd ++ le_encode 4 st ++ payload) with (pre ++ payload)
    by (unfold pre; by rewrite <- !app_assoc).
  unfold get_u32, slice, replyParam_sizeof. rewrite (drop_app_ge pre payload (20 + 4)), Hpre by lia.
  by rewrite (drop_app_length' pre) by lia.
Qed.

End Client.
