(* ===== verification/FileSystem.v ===== *)
(** * FileSystem: files and directories, [QDir] and the save path of images

    A file system maps a path, as its list of components, to a file or a
    directory; [.] and repeated slashes are ignored, [..] and links are not
    resolved.  [mkdir], [access], [fopen], [rename] and [remove] are the POSIX
    calls on it; [QDir_mkdir] is the loop of src/include/common/qdir.cc over
    the characters of a path. *)

From S2P Require Import Prelude CLib.

Module Fs.

(** ** Paths *)

Definition SLASH : byte := x2f.
Definition BACKSLASH : byte := x5c.

Fixpoint split_go (acc s : bytes) : list bytes :=
  match s with
  | [] => [acc]
  | b :: s => if beqb b SLASH then acc :: split_go [] s else split_go (acc ++ [b]) s
  end.

Definition plain (c : bytes) : bool := negb (bool_decide (c = [])) && negb (bool_decide (c = [x2e])).

(** Whether the path is absolute, and its components. *)
Abbreviation path_key := (bool * list bytes)%type.

Definition canon (p : bytes) : path_key :=
  (match p with b :: _ => beqb b SLASH | [] => false end, filter (fun c => plain c = true) (split_go [] p)).

Definition parent (k : path_key) : path_key := (k.1, removelast k.2).

(** ** The file system *)

Inductive node : Type :=
  | File (content : bytes)
  | Dir.

Abbreviation fs := (gmap path_key node).

(** The root and the working directory always exist. *)
Definition find_node (f : fs) (k : path_key) : option node :=
  match k.2 with [] => Some Dir | _ => f !! k end.

Definition is_dir (f : fs) (k : path_key) : bool :=
  match find_node f k with Some Dir => true | _ => false end.

Inductive errno : Type := EOK | EEXIST | ENOENT | ENOTDIR | EISDIR | EIO.

(** [access(path, F_OK)] *)
Definition access (f : fs) (p : bytes) : bool :=
  negb (bool_decide (p = [])) && bool_decide (is_Some (find_node f (canon p))).

(** [mkdir(path, mode)] *)
Definition mkdir (p : bytes) (f : fs) : errno * fs :=
  if bool_decide (p = []) then (ENOENT, f)
  else match find_node f (canon p) with
       | Some _ => (EEXIST, f)
       | None => match find_node f (parent (canon p)) with
                 | Some Dir => (EOK, <[canon p := Dir]> f)
                 | Some (File _) => (ENOTDIR, f)
                 | None => (ENOENT, f)
                 end
       end.

(** [fopen(path, "w")]: the file is created or truncated. *)
Definition fopen_w (p : bytes) (f : fs) : option fs :=
  if bool_decide (p = []) then None
  else match find_node f (canon p) with
       | Some Dir => None
       | Some (File _) => Some (<[canon p := File []]> f)
       | None => if is_dir f (parent (canon p)) then Some (<[canon p := File []]> f) else None
       end.

(** The content of a readable file. *)
Definition fopen_r (p : bytes) (f : fs) : option bytes :=
  match find_node f (canon p) with Some (File c) => Some c | _ => None end.

(** Appending to an open file; [written] bytes reach the disk. *)
Definition append (p data : bytes) (f : fs) : fs :=
  match f !! canon p with
  | Some (File c) => <[canon p := File (c ++ data)]> f
  | _ => f
  end.

(** ** QDir *)

Abbreviation DIR_DEFAULT_PATH_SIZE := (256)%Z (only parsing).

Abbreviation is_sep b := (beqb b BACKSLASH || beqb b SLASH) (only parsing).

(** [while( *ptr) { if(sep) break; *dir_ptr++=*ptr++; }]: characters copied. *)
Fixpoint name_len (s : bytes) : nat :=
  match s with
  | [] => 0
  | b :: s => if is_sep b then 0 else S (name_len s)
  end.

(** The [Q_FOREVER] loop; what has been copied to [dir_name] is always the
    prefix of the path before [ptr].  Every round moves [ptr]. *)
Fixpoint mkdir_loop (fuel : nat) (dirpath : bytes) (ptr : nat) (f : fs) : bool * fs :=
  match fuel with
  | O => (false, f)
  | S fuel =>
      let ptr := (ptr + name_len (drop ptr dirpath))%nat in
      let '(e, f) := mkdir (take ptr dirpath) f in
      match e with
      | EOK | EEXIST =>
          let ptr := if (ptr <? length dirpath)%nat then S ptr else ptr in
          if (length dirpath <=? ptr)%nat then (true, f) else mkdir_loop fuel dirpath ptr f
      | _ => (false, f)
      end
  end.

(** [QDir(path).mkdir()]; [None] when the path overruns [dirpath_]. *)
Definition QDir_mkdir (path : bytes) (f : fs) : option (bool * fs) :=
  let dirpath := cstr path in
  let len := Z.of_nat (length dirpath) in
  if DIR_DEFAULT_PATH_SIZE <=? len then None
  else if len <=? 0 then Some (false, f)
  else
    let ptr := match dirpath with b :: _ => if is_sep b then 1%nat else 0%nat | [] => 0%nat end in
    if (length dirpath <=? ptr)%nat then Some (false, f)
    else Some (mkdir_loop (S (length dirpath)) dirpath ptr f).

(** ** Components *)

Definition comp_ok (c : bytes) : Prop :=
  plain c = true /\ Forall (fun b => is_sep b = false /\ b <> NUL) c.

(** A path spelled from its components. *)
Fixpoint join (cs : list bytes) : bytes :=
  match cs with
  | [] => []
  | [c] => c
  | c :: cs => c ++ SLASH :: join cs
  end.

Definition spell (k : path_key) : bytes := (if k.1 then [SLASH] else []) ++ join k.2.

Lemma split_go_sep acc a b :
  split_go acc (a ++ SLASH :: b) = split_go acc a ++ split_go [] b.
Proof.
  revert acc. induction a as [|x a IH]; intros acc; cbn [app split_go].
  - by rewrite beqb_refl.
  - destruct (beqb x SLASH); rewrite IH; done.
Qed.

Lemma split_go_plain acc c :
  Forall (fun b => is_sep b = false /\ b <> NUL) c -> split_go acc c = [acc ++ c].
Proof.
  intros H. revert acc. induction H as [|b c [Hb _] _ IH]; intros acc; cbn; [by rewrite app_nil_r|].
  apply orb_false_iff in Hb as [_ ->]. rewrite IH. by rewrite <- app_assoc.
Qed.

Lemma name_len_plain c rest :
  Forall (fun b => is_sep b = false /\ b <> NUL) c ->
  match rest with b :: _ => is_sep b = true | [] => True end ->
  name_len (c ++ rest) = length c.
Proof.
  induction 1 as [|b c [Hb _] _ IH]; intros Hr; cbn.
  - destruct rest; [done|]. cbn. by rewrite Hr.
  - rewrite Hb. by rewrite IH.
Qed.

Lemma filter_plain cs :
  Forall comp_ok cs -> filter (fun c => plain c = true) cs = cs.
Proof.
  induction 1 as [|c cs [Hc _] _ IH]; [done|]. rewrite filter_cons, decide_True by done. by f_equal.
Qed.

Lemma split_join cs :
  Forall comp_ok cs -> filter (fun c => plain c = true) (split_go [] (join cs)) = cs.
Proof.
  induction 1 as [|c cs [Hp Hc] Hcs IH]; [done|].
  destruct cs as [|c' cs].
  - cbn [join]. rewrite split_go_plain by done. apply filter_plain. by repeat constructor.
  - change (join (c :: c' :: cs)) with (c ++ SLASH :: join (c' :: cs)).
    rewrite split_go_sep, split_go_plain by done. cbn [app].
    rewrite filter_cons, decide_True by done. by rewrite IH.
Qed.

Lemma comp_ok_hd c : comp_ok c -> exists b c', c = b :: c' /\ beqb b SLASH = false.
Proof.
  intros [Hp Hc]. destruct c as [|b c]; [done|]. exists b, c. split; [done|].
  apply Forall_inv in Hc as [Hb _]. by apply orb_false_iff in Hb as [_ Hb].
Qed.

(** Spelling a path and reading it back. *)
Lemma canon_spell k : Forall comp_ok k.2 -> k.2 <> [] -> canon (spell k) = k.
Proof.
  destruct k as [abs cs]. cbn. intros Hc Hne. unfold canon, spell. cbn [fst snd].
  destruct abs; cbn [app].
  - f_equal. cbn [split_go]. rewrite beqb_refl. rewrite filter_cons, decide_False by done.
    by apply split_join.
  - f_equal; [|by apply split_join].
    destruct cs as [|c cs]; [done|]. destruct (comp_ok_hd c) as (b & c' & -> & Hb); [by inversion Hc|].
    destruct cs; cbn; done.
Qed.

(** ** Creating a directory with its ancestors *)

(** What [mkdir -p] means: every missing ancestor becomes a directory. *)
Fixpoint mkdirs (abs : bool) (prev todo : list bytes) (f : fs) : fs :=
  match todo with
  | [] => f
  | c :: todo =>
      let k := (abs, prev ++ [c]) in
      mkdirs abs (prev ++ [c]) todo (match f !! k with Some _ => f | None => <[k := Dir]> f end)
  end.

(** The part of the path already copied. *)
Definition copied (abs : bool) (prev : list bytes) : bytes :=
  (if abs then [SLASH] else []) ++ concat ((fun c => c ++ [SLASH]) <$> prev).

Lemma join_snoc cs c : join (cs ++ [c]) = concat ((fun c => c ++ [SLASH]) <$> cs) ++ c.
Proof.
  induction cs as [|a cs IH]; [done|]. cbn [app fmap list_fmap concat].
  destruct (cs ++ [c]) as [|d ds] eqn:E; [by destruct cs|].
  change (join (a :: d :: ds)) with (a ++ SLASH :: join (d :: ds)). rewrite IH.
  by rewrite <- !app_assoc.
Qed.

Lemma spell_snoc abs cs c : spell (abs, cs ++ [c]) = copied abs cs ++ c.
Proof. unfold spell, copied. cbn. by rewrite join_snoc, app_assoc. Qed.

Lemma copied_snoc abs cs c : copied abs (cs ++ [c]) = copied abs cs ++ c ++ [SLASH].
Proof.
  unfold copied. rewrite fmap_app, concat_app. cbn. by rewrite app_nil_r, <- !app_assoc.
Qed.

(** No regular file stands where a directory is needed. *)
Definition no_file (f : fs) (abs : bool) (cs : list bytes) : Prop :=
  forall i c, f !! (abs, take i cs) <> Some (File c).

Lemma parent_snoc abs cs c : parent (abs, cs ++ [c]) = (abs, cs).
Proof. unfold parent. cbn. by rewrite removelast_last. Qed.

Lemma find_node_snoc f abs cs c : find_node f (abs, cs ++ [c]) = f !! (abs, cs ++ [c]).
Proof. unfold find_node. cbn. destruct (cs ++ [c]) eqn:E; [by destruct cs|done]. Qed.

(** One round of the loop: [mkdir] of the next ancestor. *)
Lemma mkdir_step abs prev c f :
  Forall comp_ok (prev ++ [c]) -> is_dir f (abs, prev) = true ->
  exists e, mkdir (copied abs prev ++ c) f =
    (e, match f !! (abs, prev ++ [c]) with Some _ => f | None => <[(abs, prev ++ [c]) := Dir]> f end) /\
    (e = EOK \/ e = EEXIST).
Proof.
  intros Hok Hd. rewrite <- spell_snoc. unfold mkdir.
  rewrite bool_decide_eq_false_2.
  2:{ rewrite spell_snoc. intros E%app_eq_nil. destruct E as [_ ->].
      apply Forall_app in Hok as [_ Hc]. inversion Hc as [|?? [Hp _]]. done. }
  rewrite canon_spell; [|done|by cbn; destruct prev].
  rewrite find_node_snoc.
  destruct (f !! (abs, prev ++ [c])); [eauto|].
  rewrite parent_snoc. unfold is_dir in Hd. destruct (find_node f (abs, prev)) as [[]|]; try done. eauto.
Qed.

Lemma mkdir_loop_spec fuel abs prev todo f :
  Forall comp_ok (prev ++ todo) -> todo <> [] -> is_dir f (abs, prev) = true ->
  no_file f abs (prev ++ todo) -> (length todo <= fuel)%nat ->
  mkdir_loop fuel (copied abs prev ++ join todo) (length (copied abs prev)) f =
  (true, mkdirs abs prev todo f).
Proof.
  revert prev todo f. induction fuel as [|fuel IH]; intros prev todo f Hok Hne Hd Hnf Hl.
  { destruct todo; [done|cbn in Hl; lia]. }
  destruct todo as [|c todo]; [done|]. cbn [mkdir_loop].
  assert (Forall comp_ok (prev ++ [c])) as Hok1.
  { apply Forall_app in Hok as [H1 H2]. apply Forall_app. split; [done|]. inversion H2. by constructor. }
  assert (comp_ok c) as [Hp Hc] by (apply Forall_app in Hok1 as [_ H2]; by inversion H2).
  set (rest := match todo with [] => [] | _ => SLASH :: join todo end).
  assert (join (c :: todo) = c ++ rest) as Hj by (unfold rest; destruct todo; cbn; by rewrite ?app_nil_r).
  rewrite drop_app_length, Hj, name_len_plain; [|done|unfold rest; by destruct todo].
  replace (take (length (copied abs prev) + length c) (copied abs prev ++ c ++ rest))
    with (copied abs prev ++ c)
    by (rewrite app_assoc; symmetry; apply take_app_length'; by rewrite length_app).
  destruct (mkdir_step abs prev c f Hok1 Hd) as (e & -> & He).
  set (f1 := match f !! (abs, prev ++ [c]) with Some _ => f | None => _ end).
  assert (is_dir f1 (abs, prev ++ [c]) = true /\ no_file f1 abs (prev ++ c :: todo)) as [Hd1 Hnf1].
  { unfold f1. destruct (f !! (abs, prev ++ [c])) as [n|] eqn:E; split.
    - unfold is_dir. rewrite find_node_snoc, E.
      destruct n as [cont|]; [|done]. exfalso. apply (Hnf (S (length prev)) cont).
      rewrite <- E. f_equal. f_equal.
      replace (prev ++ c :: todo) with ((prev ++ [c]) ++ todo) by by rewrite <- app_assoc.
      apply take_app_length'. rewrite length_app. cbn. lia.
    - done.
    - unfold is_dir. by rewrite find_node_snoc, lookup_insert_eq.
    - intros i cont. destruct (decide ((abs, prev ++ [c]) = (abs, take i (prev ++ c :: todo)))) as [->|Hn].
      + by rewrite lookup_insert_eq.
      + rewrite lookup_insert_ne by done. apply Hnf. }
  assert (mkdirs abs prev (c :: todo) f = mkdirs abs (prev ++ [c]) todo f1) as -> by done.
  assert (forall X, match e with EOK | EEXIST => X | _ => (false, f1) end = X) as ->
    by (intros X; by destruct He as [-> | ->]).
  destruct todo as [|c' todo].
  - unfold rest. rewrite app_nil_r, length_app.
    destruct (Nat.ltb_spec (length (copied abs prev) + length c) (length (copied abs prev) + length c)); [lia|].
    destruct (Nat.leb_spec (length (copied abs prev) + length c) (length (copied abs prev) + length c)); [done|lia].
  - assert (copied abs prev ++ c ++ rest = copied abs (prev ++ [c]) ++ join (c' :: todo)) as ->.
    { rewrite copied_snoc. unfold rest. by rewrite <- !app_assoc. }
    assert (length (copied abs (prev ++ [c])) = S (length (copied abs prev) + length c)) as Hcl.
    { rewrite copied_snoc. len. }
    assert (join (c' :: todo) <> []) as Hjn.
    { intros E. assert (comp_ok c') as [Hp' _].
      { apply Forall_app in Hok as [_ H2]. by inversion H2 as [|??? H3]; inversion H3. }
      destruct todo; cbn in E; [by subst|]. by destruct c'. }
    assert (0 < length (join (c' :: todo)))%nat by (destruct (join (c' :: todo)); [done|cbn; lia]).
    rewrite length_app, Hcl.
    destruct (Nat.ltb_spec (length (copied abs prev) + length c)
      (S (length (copied abs prev) + length c) + length (join (c' :: todo)))); [|lia].
    destruct (Nat.leb_spec (S (length (copied abs prev) + length c) + length (join (c' :: todo)))
      (S (length (copied abs prev) + length c))); [lia|].
    rewrite <- Hcl. apply IH; try done.
    + by rewrite <- app_assoc.
    + by rewrite <- app_assoc.
    + cbn in *. lia.
Qed.

Lemma mkdirs_mono abs prev todo f k n :
  f !! k = Some n -> mkdirs abs prev todo f !! k = Some n.
Proof.
  revert prev f. induction todo as [|c todo IH]; intros prev f Hk; cbn; [done|].
  apply IH. destruct (f !! (abs, prev ++ [c])) eqn:E; [done|].
  rewrite lookup_insert_ne; [done|]. congruence.
Qed.

Lemma mkdirs_dir abs prev todo f i :
  (0 < i <= length todo)%nat ->
  (forall c, f !! (abs, prev ++ take i todo) <> Some (File c)) ->
  mkdirs abs prev todo f !! (abs, prev ++ take i todo) = Some Dir.
Proof.
  revert prev f i. induction todo as [|c todo IH]; intros prev f i Hi Hf; cbn in Hi; [lia|].
  destruct i as [|i]; [lia|]. cbn [mkdirs take].
  assert (forall g : fs, g = (match f !! (abs, prev ++ [c]) with Some _ => f | None => <[(abs, prev ++ [c]) := Dir]> f end) ->
    mkdirs abs (prev ++ [c]) todo g !! (abs, prev ++ c :: take i todo) = Some Dir) as Hgen; [|by apply Hgen].
  intros g Hg. destruct i as [|i].
  - rewrite take_0. apply mkdirs_mono. subst g. cbn [take] in Hf. rewrite take_0 in Hf.
    destruct (f !! (abs, prev ++ [c])) as [[cont|]|] eqn:E; [by destruct (Hf cont)|done|].
    apply lookup_insert_eq.
  - replace (prev ++ c :: take (S i) todo) with ((prev ++ [c]) ++ take (S i) todo) by by rewrite <- app_assoc.
    apply IH; [lia|]. intros cont Hx. apply (Hf cont). cbn [take].
    replace (prev ++ c :: take (S i) todo) with ((prev ++ [c]) ++ take (S i) todo) by by rewrite <- app_assoc.
    rewrite <- Hx. subst g. destruct (f !! (abs, prev ++ [c])) eqn:E; [done|].
    rewrite lookup_insert_ne; [done|]. intros [= E']. rewrite <- (app_nil_r (prev ++ [c])) in E' at 1.
    apply app_inv_head in E'. by destruct todo; cbn in Hi; [lia|].
Qed.

Lemma join_no_nul cs : Forall comp_ok cs -> no_nul (join cs).
Proof.
  induction 1 as [|c cs [_ Hc] _ IH]; [constructor|].
  assert (no_nul c) by (eapply Forall_impl; [exact Hc|by intros ? []]).
  destruct cs; [done|]. apply Forall_app. split; [done|]. by constructor.
Qed.

Lemma spell_no_nul abs cs : Forall comp_ok cs -> no_nul (spell (abs, cs)).
Proof.
  intros H. unfold spell. apply Forall_app. split; [by destruct abs; repeat constructor|].
  by apply join_no_nul.
Qed.

Lemma QDir_mkdir_mkdirs abs cs f :
  Forall comp_ok cs -> cs <> [] -> Z.of_nat (length (spell (abs, cs))) < DIR_DEFAULT_PATH_SIZE ->
  no_file f abs cs ->
  QDir_mkdir (spell (abs, cs)) f = Some (true, mkdirs abs [] cs f).
Proof.
  intros Hok Hne Hl Hnf.
  unfold QDir_mkdir. rewrite cstr_no_nul by by apply spell_no_nul.
  destruct (Z.leb_spec DIR_DEFAULT_PATH_SIZE (Z.of_nat (length (spell (abs, cs))))); [lia|].
  destruct cs as [|c cs]; [done|]. assert (comp_ok c) as Hc by by inversion Hok.
  destruct (comp_ok_hd c Hc) as (b & c' & -> & Hb).
  assert (is_sep b = false) as Hsep.
  { destruct Hc as [_ Hc]. by apply Forall_inv in Hc as [? _]. }
  pose proof (mkdir_loop_spec (S (length (spell (abs, (b :: c') :: cs)))) abs [] ((b :: c') :: cs) f) as Hloop.
  unfold copied in Hloop. cbn [fmap list_fmap concat] in Hloop. rewrite app_nil_r in Hloop.
  change ((if abs then [SLASH] else []) ++ join ((b :: c') :: cs)) with (spell (abs, (b :: c') :: cs)) in Hloop.
  assert (length ((b :: c') :: cs) <= S (length (spell (abs, (b :: c') :: cs))))%nat as Hfuel.
  { unfold spell. cbn [fst snd]. rewrite length_app.
    enough (length ((b :: c') :: cs) <= S (length (join ((b :: c') :: cs))))%nat by lia.
    generalize ((b :: c') :: cs) as l. clear. intros l. induction l as [|x l IH]; cbn; [lia|].
    destruct l; cbn in *; [lia|]. rewrite length_app. cbn. lia. }
  specialize (Hloop Hok ltac:(done) ltac:(done) Hnf Hfuel).
  assert (spell (abs, (b :: c') :: cs) = (if abs then [SLASH] else []) ++ b :: (c' ++ match cs with [] => [] | _ => SLASH :: join cs end)) as Hsp.
  { unfold spell. cbn. destruct cs; cbn; by rewrite ?app_nil_r. }
  rewrite Hsp in Hloop |- *. destruct abs; cbn [app length] in Hloop |- *.
  + change (is_sep SLASH) with true. cbn iota.
    destruct (Z.leb_spec (Z.of_nat (S (S (length (c' ++ match cs with [] => [] | _ => SLASH :: join cs end))))) 0); [lia|].
    destruct (Nat.leb_spec (S (S (length (c' ++ match cs with [] => [] | _ => SLASH :: join cs end)))) 1); [lia|].
    by rewrite Hloop.
  + rewrite Hsep.
    destruct (Z.leb_spec (Z.of_nat (S (length (c' ++ match cs with [] => [] | _ => SLASH :: join cs end)))) 0); [lia|].
    destruct (Nat.leb_spec (S (length (c' ++ match cs with [] => [] | _ => SLASH :: join cs end))) 0); [lia|].
    by rewrite Hloop.
Qed.

Lemma QDir_mkdir_ok abs cs f :
  Forall comp_ok cs -> cs <> [] -> Z.of_nat (length (spell (abs, cs))) < DIR_DEFAULT_PATH_SIZE ->
  no_file f abs cs ->
  exists f', QDir_mkdir (spell (abs, cs)) f = Some (true, f') /\
    (forall i, is_dir f' (abs, take i cs) = true) /\
    (forall k n, f !! k = Some n -> f' !! k = Some n).
Proof.
  intros Hok Hne Hl Hnf. exists (mkdirs abs [] cs f).
  split; [by apply QDir_mkdir_mkdirs|].
  split; [|by intros; apply mkdirs_mono].
    intros i. unfold is_dir, find_node. cbn [snd].
    destruct (take i cs) eqn:E; [done|]. rewrite <- E.
    destruct (Nat.le_gt_cases i (length cs)) as [Hi|Hi].
    + assert (0 < i)%nat by (destruct i; [done|lia]).
      pose proof (mkdirs_dir abs [] cs f i ltac:(lia) (Hnf i)) as H'. cbn [app] in H'. by rewrite H'.
    + rewrite take_ge by lia. pose proof (mkdirs_dir abs [] cs f (length cs)) as H.
      rewrite firstn_all in H. cbn [app] in H.
      rewrite H; [done|destruct cs; [done|cbn; lia]|].
      intros c Hc. apply (Hnf (length cs) c). by rewrite firstn_all.
Qed.

Lemma is_dir_mono (f f' : fs) k :
  (forall k n, f !! k = Some n -> f' !! k = Some n) -> is_dir f k = true -> is_dir f' k = true.
Proof.
  intros H. unfold is_dir, find_node. destruct (k.2); [done|].
  destruct (f !! k) as [n|] eqn:E; [|done]. by rewrite (H _ _ E).
Qed.

Lemma mkdirs_file abs prev todo f k c :
  mkdirs abs prev todo f !! k = Some (File c) -> f !! k = Some (File c).
Proof.
  revert prev f. induction todo as [|d todo IH]; intros prev f; cbn; [done|].
  intros H%IH. destruct (f !! (abs, prev ++ [d])) eqn:E; [done|].
  apply lookup_insert_Some in H as [[_ ?]|[_ ?]]; done.
Qed.

Lemma QDir_mkdir_file abs cs f f' :
  Forall comp_ok cs -> cs <> [] -> Z.of_nat (length (spell (abs, cs))) < DIR_DEFAULT_PATH_SIZE ->
  no_file f abs cs -> QDir_mkdir (spell (abs, cs)) f = Some (true, f') ->
  forall k c, f' !! k = Some (File c) -> f !! k = Some (File c).
Proof.
  intros H1 H2 H3 H4 E. rewrite QDir_mkdir_mkdirs in E by done. injection E as <-.
  intros k c. apply mkdirs_file.
Qed.

End Fs.
