(* ===== verification/MongoClient.v ===== *)
(** * MongoClient: [QMongoClient] of src/include/common/qmongoclient.cc

    The driver is not part of the repository: [MongoDriver] is what the client
    calls and [MongoLaws] what the driver documents, an exception being a
    [None].  The client's theorems are proved against that interface; a list
    of documents with a schedule of faults implements it. *)

From S2P Require Import Prelude CLib.

Module Mongo.

(** A document is its fields in order; only string fields matter here, and
    the [_id] that GENOID puts in front of an inserted document, of which
    nothing in the repository reads, is left out. *)
Abbreviation doc := (list (bytes * bytes)).

Definition field (name : bytes) (d : doc) : option bytes :=
  snd <$> find (fun kv => bool_decide (kv.1 = name)) d.

Definition has_field (name value : bytes) (d : doc) : bool :=
  bool_decide (field name d = Some value).

(** ** The driver *)

(** The calls on a [DBClientBase]; [None] is a thrown [DBException]. *)
Class MongoDriver (Db : Type) : Type := {
  db_query : bytes -> bytes -> bytes -> Db -> option (list doc) * Db;
  db_findOne : bytes -> bytes -> bytes -> Db -> option (option doc) * Db;
  db_insert : bytes -> doc -> Db -> option unit * Db;
  db_update : bytes -> bytes -> bytes -> doc -> Db -> option unit * Db;
  db_remove : bytes -> bytes -> bytes -> Db -> option unit * Db;
  (** the documents of a collection *)
  docs : Db -> bytes -> list doc
}.

(** What the driver promises: queries return the matching documents and
    change nothing; an acknowledged insert appends the document; a failed one
    leaves the other collections alone and inserts at most that document. *)
Class MongoLaws (Db : Type) `{MongoDriver Db} : Prop := {
  query_pure c k v db c' : docs (db_query c k v db).2 c' = docs db c';
  query_result c k v db ds :
    (db_query c k v db).1 = Some ds -> ds = filter (fun d => has_field k v d = true) (docs db c);
  findOne_pure c k v db c' : docs (db_findOne c k v db).2 c' = docs db c';
  findOne_result c k v db r :
    (db_findOne c k v db).1 = Some r -> r = find (fun d => has_field k v d) (docs db c);
  insert_ok c d db : (db_insert c d db).1 = Some tt ->
    docs (db_insert c d db).2 c = docs db c ++ [d];
  insert_failed c d db : (db_insert c d db).1 = None ->
    docs (db_insert c d db).2 c = docs db c \/ docs (db_insert c d db).2 c = docs db c ++ [d];
  insert_other c d db c' : c <> c' -> docs (db_insert c d db).2 c' = docs db c'
}.

(** ** The client *)

Abbreviation MONGO_OK := (0)%Z (only parsing).
Abbreviation MONGO_ERR := (-1)%Z (only parsing).

Section client.
Context {Db : Type} `{MongoDriver Db}.
(** [setCollection] *)
Variable collection_ : bytes.
(** [dt(QDateTime::now())] printed in the [createdAt] field. *)
Variable now : bytes.

Definition exists_ (id idValue : bytes) (db : Db) : bool * Db :=
  match db_query collection_ id idValue db with
  | (Some (_ :: _), db) => (true, db)
  | (_, db) => (false, db)
  end.

(** [res.getStringField(name)]: empty when the field is missing. *)
Definition getStringField (name : bytes) (d : doc) : bytes := default [] (field name d).

(** Whether a document was found and the two columns afterwards. *)
Definition select2 (id idValue col1 old1 col2 old2 : bytes) (db : Db) : bool * bytes * bytes * Db :=
  match db_findOne collection_ id idValue db with
  | (Some (Some d), db) =>
      match d with
      | [] => (false, old1, old2, db)
      | _ => (true, getStringField col1 d, getStringField col2 d, db)
      end
  | (_, db) => (false, old1, old2, db)
  end.

Definition select1 (id idValue col old : bytes) (db : Db) : bool * bytes * Db :=
  match db_findOne collection_ id idValue db with
  | (Some (Some d), db) =>
      match d with [] => (false, old, db) | _ => (true, getStringField col d, db) end
  | (_, db) => (false, old, db)
  end.

Definition insert1 (id idValue col val : bytes) (db : Db) : Z * Db :=
  match db_insert collection_ [(id, idValue); (col, val); (str "createdAt", now)] db with
  | (Some _, db) => (MONGO_OK, db)
  | (None, db) => (MONGO_ERR, db)
  end.

Definition insert2 (id idValue col1 val1 col2 val2 : bytes) (db : Db) : Z * Db :=
  match db_insert collection_
          [(id, idValue); (col1, val1); (col2, val2); (str "createdAt", now)] db with
  | (Some _, db) => (MONGO_OK, db)
  | (None, db) => (MONGO_ERR, db)
  end.

Definition update (id idValue col val : bytes) (db : Db) : Z * Db :=
  match db_update collection_ id idValue [(id, idValue); (col, val); (str "createdAt", now)] db with
  | (Some _, db) => (MONGO_OK, db)
  | (None, db) => (MONGO_ERR, db)
  end.

Definition remove (id idValue : bytes) (db : Db) : Z * Db :=
  match db_remove collection_ id idValue db with
  | (Some _, db) => (MONGO_OK, db)
  | (None, db) => (MONGO_ERR, db)
  end.

Section laws.
Context `{!MongoLaws Db}.

Lemma exists_docs id v db c : docs (exists_ id v db).2 c = docs db c.
Proof.
  unfold exists_. generalize (query_pure collection_ id v db c).
  by destruct (db_query collection_ id v db) as [[[|]|] db'].
Qed.

(** [exists] answers true only when a document matches. *)
Lemma exists_true id v db :
  (exists_ id v db).1 = true -> exists d, d ∈ docs db collection_ /\ has_field id v d = true.
Proof.
  unfold exists_. generalize (query_result collection_ id v db).
  destruct (db_query collection_ id v db) as [[[|d ds]|] db']; try done. intros Hr _.
  specialize (Hr _ eq_refl). exists d.
  assert (d ∈ d :: ds) as Hd by set_solver. rewrite Hr in Hd.
  apply list_elem_of_filter in Hd as [? ?]. done.
Qed.

Lemma select2_docs id v c1 o1 c2 o2 db c :
  docs (select2 id v c1 o1 c2 o2 db).2 c = docs db c.
Proof.
  unfold select2. generalize (findOne_pure collection_ id v db c).
  by destruct (db_findOne collection_ id v db) as [[[[|]|]|] db'].
Qed.

Lemma has_field_insert2 id v c1 v1 c2 v2 :
  has_field id v [(id, v); (c1, v1); (c2, v2); (str "createdAt", now)] = true.
Proof.
  unfold has_field, field. cbn [find fst].
  rewrite (bool_decide_eq_true_2 (id = id)) by done. by apply bool_decide_eq_true.
Qed.

Lemma insert2_docs id v c1 v1 c2 v2 db :
  let d := [(id, v); (c1, v1); (c2, v2); (str "createdAt", now)] in
  (insert2 id v c1 v1 c2 v2 db).1 = MONGO_OK ->
  docs (insert2 id v c1 v1 c2 v2 db).2 collection_ = docs db collection_ ++ [d].
Proof.
  intros d. unfold insert2. fold d. generalize (insert_ok collection_ d db).
  destruct (db_insert collection_ d db) as [[[]|] db']; [auto|done].
Qed.

(** The reads of a lookup, the query of [exists] and the [findOne] of
    [select], do not throw in the state [db]. *)
Definition lookup_answers (id v : bytes) (db : Db) : Prop :=
  (db_query collection_ id v db).1 <> None /\
  (db_findOne collection_ id v (exists_ id v db).2).1 <> None.

Lemma find_filter {A} (P : A -> bool) (l : list A) :
  find P l = head (filter (fun x => P x = true) l).
Proof.
  induction l as [|x l IH]; [done|]. cbn [find]. rewrite filter_cons.
  destruct (P x) eqn:E; [by rewrite decide_True|]. by rewrite decide_False.
Qed.

(** [exists] and [select] in terms of the first matching document. *)
Lemma exists_find id v db :
  (db_query collection_ id v db).1 <> None ->
  (exists_ id v db).1 = match find (fun d => has_field id v d) (docs db collection_) with
                        | Some _ => true | None => false end.
Proof.
  rewrite find_filter. unfold exists_.
  generalize (query_result collection_ id v db).
  destruct (db_query collection_ id v db) as [[ds|] db']; [|done]. intros Hr _.
  rewrite <- (Hr ds eq_refl). by destruct ds.
Qed.

Lemma select2_find id v c1 o1 c2 o2 db d :
  (db_findOne collection_ id v db).1 <> None ->
  find (fun d => has_field id v d) (docs db collection_) = Some d ->
  exists db', select2 id v c1 o1 c2 o2 db = (true, getStringField c1 d, getStringField c2 d, db').
Proof.
  intros Hne Hf. revert Hne. unfold select2. generalize (findOne_result collection_ id v db).
  destruct (db_findOne collection_ id v db) as [[r|] db']; [|done]. intros Hr _.
  rewrite (Hr r eq_refl), Hf. apply find_some in Hf as [_ Hf].
  destruct d as [|kv d]; [|by eauto]. by apply bool_decide_eq_true in Hf.
Qed.

End laws.
End client.

(** ** Implementations *)

(** Documents in memory; no call fails. *)
Abbreviation store := (gmap bytes (list doc)).

#[global] Instance store_driver : MongoDriver store := {
  db_query c k v db := (Some (filter (fun d => has_field k v d = true) (default [] (db !! c))), db);
  db_findOne c k v db := (Some (find (fun d => has_field k v d) (default [] (db !! c))), db);
  db_insert c d db := (Some tt, <[c := default [] (db !! c) ++ [d]]> db);
  db_update c k v d db :=
    (Some tt, <[c := filter (fun d => has_field k v d = false) (default [] (db !! c)) ++ [d]]> db);
  db_remove c k v db :=
    (Some tt, <[c := filter (fun d => has_field k v d = false) (default [] (db !! c))]> db);
  docs db c := default [] (db !! c)
}.

#[global] Instance store_laws : MongoLaws store.
Proof.
  split; cbn; try done.
  - congruence.
  - congruence.
  - intros. by rewrite lookup_insert_eq.
  - intros. by rewrite lookup_insert_ne.
Qed.

(** The same with scheduled faults. *)

Record memdb : Type := mkMemdb { mem : gmap bytes (list doc); faults : list bool }.

(** The next call fails when the schedule says so. *)
Definition tick (db : memdb) : bool * memdb :=
  match faults db with
  | [] => (false, db)
  | b :: fs => (b, mkMemdb (mem db) fs)
  end.

Definition coll (db : memdb) (c : bytes) : list doc := default [] (mem db !! c).

#[global] Instance memdb_driver : MongoDriver memdb := {
  db_query c k v db :=
    let '(b, db) := tick db in
    if b then (None, db) else (Some (filter (fun d => has_field k v d = true) (coll db c)), db);
  db_findOne c k v db :=
    let '(b, db) := tick db in
    if b then (None, db) else (Some (find (fun d => has_field k v d) (coll db c)), db);
  db_insert c d db :=
    let '(b, db) := tick db in
    if b then (None, db)
    else (Some tt, mkMemdb (<[c := coll db c ++ [d]]> (mem db)) (faults db));
  db_update c k v d db :=
    let '(b, db) := tick db in
    if b then (None, db)
    else (Some tt, mkMemdb (<[c := filter (fun d => has_field k v d = false) (coll db c) ++ [d]]> (mem db)) (faults db));
  db_remove c k v db :=
    let '(b, db) := tick db in
    if b then (None, db)
    else (Some tt, mkMemdb (<[c := filter (fun d => has_field k v d = false) (coll db c)]> (mem db)) (faults db));
  docs db c := coll db c
}.

Lemma tick_coll db c : coll (tick db).2 c = coll db c.
Proof. unfold tick. by destruct (faults db). Qed.

#[global] Instance memdb_laws : MongoLaws memdb.
Proof.
  split; cbn; intros *; match goal with |- context [tick ?x] => pose proof (tick_coll x) as Ht;
    destruct (tick x) as [[] db'] end; cbn in *; rewrite ?Ht; try done.
  all: try (intros [= <-]; done).
  - unfold coll. cbn. by rewrite lookup_insert_eq.
  - auto.
  - unfold coll in *. cbn. intros. by rewrite lookup_insert_ne.
Qed.

End Mongo.
