(* ===== verification/StringUtil.v ===== *)
(** * StringUtil: formatting helpers of src/include/common/qfunc.h

    [q_format] with its fixed 1024-byte bound, [q_to_string] and [q_substr]
    with the unsigned arithmetic of [std::string]. *)

From S2P Require Import Prelude CLib.

Module StrUtil.

(** [q_format]: [s] is the text the format and its arguments denote, [heap]
    the memory [malloc] returns.  The retry calls [vsnprintf] with the size of
    the stack buffer again. *)
Definition q_format (s heap : bytes) : bytes :=
  let n := length s in
  if (n <? 1024)%nat then s
  else take n (list_inserts 0 (take 1023 s ++ [NUL]) heap).

(** [q_to_string(uint64_t)] *)
Definition q_to_string (n : Z) : bytes := fmt_u n.

(** [q_substr]: the text between [s1] and [s2]; both are searched from the
    beginning, and the length is a [size_t] difference. *)
Definition q_substr (ss s1 s2 : bytes) : bytes :=
  match find_sub s1 ss, find_sub s2 ss with
  | Some pos1, Some pos2 =>
      let len := u64 (Z.of_nat pos2 - Z.of_nat pos1 - Z.of_nat (length s1)) in
      let from := (pos1 + length s1)%nat in
      substr from (Z.to_nat (Z.min len (Z.of_nat (length ss)))) ss
  | _, _ => []
  end.

Lemma q_format_short s heap : (length s < 1024)%nat -> q_format s heap = s.
Proof. intros. unfold q_format. by destruct (Nat.ltb_spec (length s) 1024); [|lia]. Qed.

(** A text of 1024 bytes or more does not survive [q_format]: the result
    has the right length but a NUL after 1023 bytes and then the previous
    contents of the heap, because the retry passes [sizeof(buf)] instead of
    the new size. *)
Theorem q_format_long s heap :
  (1024 <= length s)%nat -> (length s <= length heap)%nat ->
  length (q_format s heap) = length s /\ cstr (q_format s heap) = cstr (take 1023 s) /\
  drop 1024 (q_format s heap) = drop 1024 (take (length s) heap).
Proof.
  intros Hs Hh. unfold q_format. destruct (Nat.ltb_spec (length s) 1024); [lia|].
  destruct (cut_at 1024 heap) as (a & b & -> & Ha & Hb); [lia|].
  assert (length (take 1023 s ++ [NUL]) = 1024%nat) as Hl by len.
  rewrite inserts_here by lia.
  rewrite take_app_ge by lia. rewrite Hl. repeat split.
  - len.
  - rewrite <- app_assoc. cbn [app]. generalize (take (length s - 1024) b). intros z.
    clear. induction (take 1023 s) as [|c l IH]; cbn; [done|].
    destruct (beqb c NUL); [done|]. by f_equal.
  - rewrite drop_app_length' by lia. rewrite take_app_ge, drop_app_length' by lia. by rewrite Ha.
Qed.

Lemma q_format_long_witness :
  length (q_format (replicate 1100 x61) (replicate 1200 x7a)) = 1100%nat /\
  cstr (q_format (replicate 1100 x61) (replicate 1200 x7a)) = cstr (replicate 1023 x61) /\
  drop 1024 (q_format (replicate 1100 x61) (replicate 1200 x7a)) = replicate 76 x7a.
Proof.
  apply (q_format_long (replicate 1100 x61) (replicate 1200 x7a));
    rewrite ?length_replicate; lia.
Defined.

(** The text between two markers that occur once, in that order. *)
Lemma q_substr_between a s1 m s2 z :
  find_sub s1 (a ++ s1 ++ m ++ s2 ++ z) = Some (length a) ->
  find_sub s2 (a ++ s1 ++ m ++ s2 ++ z) = Some (length (a ++ s1 ++ m)) ->
  Z.of_nat (length (a ++ s1 ++ m ++ s2 ++ z)) < 2 ^ 64 ->
  q_substr (a ++ s1 ++ m ++ s2 ++ z) s1 s2 = m.
Proof.
  intros H1 H2 Hl. unfold q_substr. rewrite H1, H2. unfold substr.
  rewrite !length_app in Hl.
  rewrite u64_small by (unfold is_u64; rewrite !length_app; lia).
  replace (Z.to_nat _) with (length m) by (rewrite !length_app; lia).
  rewrite app_assoc. apply slice_app_exact; [by rewrite length_app|done].
Qed.

End StrUtil.
