(* ===== verification/IdfsServer.v ===== *)
(** * IdfsServer: the image server of src/src/idfsserver.cc

    The state of the server is the disk, the image database, the mutex over
    it, and the reply buffer being filled; a handler is a function of that
    state that may fail with the error code it returns.  The database is any
    driver that satisfies [MongoLaws]; decoding of an image and the download
    of a page are parameters.  The theorems give the effect of [server_main]
    on every path: what a stored image leaves on disk, in the database and in
    the reply, that storing it again changes nothing, that the mutex is always
    released, and that no [snprintf] writes past the reply buffer. *)

From S2P Require Import Prelude CLib StringUtil FileSystem MongoClient QMD5 MD5 MD5Spec Protocol.

Module Idfs.
Import StrUtil Fs Mongo Proto Spec.

Abbreviation IDFS_IMG_MAX_SIZE := (Z.shiftl 3 20)%Z (only parsing).

(** The configuration read by [initialize]. *)
Record IDFSConfig : Type := mkConfig {
  img_path_ : bytes;
  img_dir_ : bytes;
  img_subdir_num_ : Z;
  mongo_img_collection_ : bytes
}.

Definition get_image_type_name (type : Z) : bytes :=
  if type =? 0 then str "jpg"
  else if type =? 1 then str "png"
  else if type =? 2 then str "bmp"
  else if type =? 3 then str "gif"
  else if type =? 4 then str "tif"
  else str "jpg".

(** [save_image]; [short] is how many bytes an incomplete [fwrite] writes. *)
Definition save_image (path data : bytes) (short : option nat) (f : fs) : Z * fs :=
  if Z.of_nat (length data) <=? 0 then (-1, f)
  else if access f path then (1, f)
  else match fopen_w path f with
       | None => (-2, f)
       | Some f =>
           match short with
           | Some k => (-3, append path (take k data) f)
           | None => (0, append path data f)
           end
       end.

(** ** Handlers *)

Section server.
Context {Db : Type} `{MongoDriver Db}.

Record srv : Type := mkSrv {
  disk : fs;
  db : Db;
  mongo_mutex_ : bool;
  out : bytes;
  pos : nat;
  overrun : bool          (* whether a byte was written past the end of [out] *)
}.

(** What surrounds one request: uninitialised stack and heap memory, the
    clock, an incomplete write, and what the download of a page returns. *)
Record env : Type := mkEnv {
  md5_ctx : bytes;
  md5_obj : Md5Class.MD5;
  heap : bytes;
  now : bytes;
  short_write : option nat;
  net_init : Z;
  fetch : bytes -> bytes -> bytes -> Z * bytes
}.

Definition M (A : Type) : Type := srv -> srv * (Z + A).

#[global] Instance M_ret : MRet M := fun A a s => (s, inr a).
#[global] Instance M_bind : MBind M := fun A B k m s =>
  match m s with
  | (s, inl e) => (s, inl e)
  | (s, inr a) => k a s
  end.

(** [return e] out of the handler. *)
Definition fail {A} (e : Z) : M A := fun s => (s, inl e).

(** [ret=snprintf(ptr_temp, ptr_end-ptr_temp, ...); if(ptr_temp+ret>=ptr_end)
    return err; ptr_temp+=ret;] for the text [t].  Stored bytes that do not fit
    are written past the end of the reply buffer. *)
Definition emit (t : bytes) (err : Z) : M unit := fun s =>
  let room := Z.of_nat (length (out s)) - Z.of_nat (pos s) in
  let b := snprintf_out room t in
  let o := list_inserts (pos s) b (out s) in
  let past := overrun s || (length (out s) <? pos s + length b)%nat in
  if (length (out s) <=? pos s + length t)%nat
  then (mkSrv (disk s) (db s) (mongo_mutex_ s) o (pos s) past, inl err)
  else (mkSrv (disk s) (db s) (mongo_mutex_ s) o (pos s + length t) past, inr tt).

(** Consecutive [snprintf] calls, each with the code it fails with. *)
Fixpoint emit_all (l : list (bytes * Z)) : M unit :=
  match l with
  | [] => mret tt
  | (t, err) :: l => emit t err ≫= fun _ => emit_all l
  end.

Definition lock : M unit := fun s => (mkSrv (disk s) (db s) true (out s) (pos s) (overrun s), inr tt).
Definition unlock : M unit := fun s => (mkSrv (disk s) (db s) false (out s) (pos s) (overrun s), inr tt).

Definition on_disk {A} (g : fs -> A * fs) : M A := fun s =>
  let '(a, f) := g (disk s) in (mkSrv f (db s) (mongo_mutex_ s) (out s) (pos s) (overrun s), inr a).
Definition on_db {A} (g : Db -> A * Db) : M A := fun s =>
  let '(a, d) := g (db s) in (mkSrv (disk s) d (mongo_mutex_ s) (out s) (pos s) (overrun s), inr a).

Section handlers.
Variable cfg : IDFSConfig.
(** [cv::imread] of a file content: width and height, [None] when it cannot
    be decoded. *)
Variable decode_image : bytes -> option (Z * Z).
Variable e : env.

Let coll : bytes := mongo_img_collection_ cfg.

(** [getImageSize(path, &width, &height)] *)
Definition getImageSize (path : bytes) (f : fs) : option (Z * Z) * fs :=
  (match fopen_r path f with Some c => decode_image c | None => None end, f).

Definition file_path (iid type : Z) : bytes :=
  q_format (cstr (img_dir_ cfg) ++ [SLASH] ++ fmt_03d (i32 (iid mod 1000)) ++ [SLASH] ++
            fmt_x iid ++ [x2e] ++ get_image_type_name type) (heap e).

Definition local_path (fp : bytes) : bytes :=
  q_format (cstr (img_path_ cfg) ++ [SLASH] ++ cstr fp) (heap e).

Definition img_size_text (w h : Z) : bytes := q_format (fmt_d w ++ [x2a] ++ fmt_d h) (heap e).

(** The branch of an image the database does not know. *)
Definition store_image (type iid : Z) (imgid data : bytes) : M (bytes * bytes) :=
  let fp := file_path iid type in
  let lp := local_path fp in
  ret ← on_disk (save_image (cstr lp) data (short_write e));
  if ret <? 0 then unlock ≫= fun _ => fail (-55)
  else
    size ← on_disk (getImageSize (cstr lp));
    match size with
    | None => unlock ≫= fun _ => fail (-56)
    | Some (width, height) =>
        let sz := img_size_text width height in
        r ← on_db (insert2 coll (now e) (str "imgid") (cstr imgid) (str "imgpath") (cstr fp)
                     (str "imgsize") (cstr sz));
        if r =? MONGO_ERR then unlock ≫= fun _ => fail (-57) else mret (fp, sz)
    end.

(** From [mongo_mutex_.lock()] to [mongo_mutex_.unlock()].  [select] returns a
    [bool], which never equals [MONGO_ERR]. *)
Definition find_or_store (type iid : Z) (data : bytes) : M (bytes * bytes) :=
  let imgid := q_to_string iid in
  lock ≫= fun _ =>
  found ← on_db (exists_ coll (str "imgid") (cstr imgid));
  res ← (if (found : bool) then
           sel ← on_db (fun d => let '(b, c1, c2, d) :=
                   select2 coll (str "imgid") (cstr imgid) (str "imgpath") [] (str "imgsize") [] d
                   in ((b, c1, c2), d));
           let '(b, c1, c2) := sel in
           if (if (b : bool) then 1 else 0) =? MONGO_ERR
           then unlock ≫= fun _ => fail (-54)
           else mret (c1, c2)
         else store_image type iid imgid data);
  unlock ≫= fun _ => mret res.

Abbreviation xml_header := (str "<?xml version=" ++ [x22] ++ str "1.0" ++ [x22] ++ str " encoding=" ++ [x22] ++
  str "UTF-8" ++ [x22] ++ str "?>" ++ [x0a]) (only parsing).

Definition tag (name content : bytes) : bytes :=
  str "<" ++ name ++ str "><![CDATA[" ++ content ++ str "]]></" ++ name ++ str ">" ++ [x0a].

Definition prologue_parts : list (bytes * Z) :=
  [(xml_header, -51); (str "<doc>" ++ [x0a], -52); (str "<base>" ++ [x0a], -53)].

Definition prologue : M unit := emit_all prologue_parts.

Definition epilogue_parts (iid : Z) (img_md5 fp sz : bytes) : list (bytes * Z) :=
  [(tag (str "imgid") (fmt_u iid), -58); (tag (str "imgmd5") (cstr img_md5), -59);
   (tag (str "imgpath") (cstr fp), -60); (tag (str "imgsize") (cstr sz), -61);
   (str "</base>" ++ [x0a], -62); (str "</doc>", -63)].

Definition epilogue (iid : Z) (img_md5 fp sz : bytes) : M unit :=
  emit_all (epilogue_parts iid img_md5 fp sz).

Definition reply_for (type : Z) (data : bytes) : M unit :=
  let iid := Qmd5.MD5Bits64 (md5_ctx e) data in
  let img_md5 := Md5Class.md5 (md5_obj e) data in
  res ← find_or_store type iid data;
  epilogue iid img_md5 res.1 res.2.

(** [server_main] on a 16-bit operation code, after the assertions on its
    arguments.  The buffer a page is downloaded into is taken to be granted
    (the code asserts it), and the [page] of [fetch] is what ends up in it. *)
Definition handle (type : Z) (data : bytes) : M unit :=
  if (0 <=? type) && (type <? 5) then
    prologue ≫= fun _ => reply_for type data
  else if type =? 64 then
    prologue ≫= fun _ =>
    let referer := q_substr data (str "<referer><![CDATA[") (str "]]></referer>") in
    let user_agent := q_substr data (str "<user_agent><![CDATA[") (str "]]></user_agent>") in
    let src := q_substr data (str "<src><![CDATA[") (str "]]></src>") in
    if net_init e <? 0 then fail (-531)
    else
      let '(ret, page) := fetch e (cstr src) (cstr referer) (cstr user_agent) in
      if ret <? 0 then fail ret
      else reply_for type (take (Z.to_nat ret) page)
  else fail TCP_ERR_OPERATE_TYPE.

(** Return value, reply buffer and the rest of the state afterwards. *)
Definition server_main (type : Z) (data out0 : bytes) (f : fs) (d : Db) :
    outcome (Z * srv) :=
  ASSERT 0 <? Z.of_nat (length data) THEN
  ASSERT 0 <? Z.of_nat (length out0) THEN
  match handle type data (mkSrv f d false out0 0 false) with
  | (s, inl err) => Ret (err, s)
  | (s, inr _) => Ret (Z.of_nat (pos s), s)
  end.

End handlers.

(** ** Reasoning about handlers *)

(** From a state in [P] the handler ends in [Q] or fails in [E]. *)
Definition triple {A} (P : srv -> Prop) (m : M A) (Q : A -> srv -> Prop) (E : Z -> srv -> Prop) : Prop :=
  forall s, P s -> match m s with (s', inl e) => E e s' | (s', inr a) => Q a s' end.

Lemma triple_bind {A B} P (m : M A) (k : A -> M B) R Q E :
  triple P m R E -> (forall a, triple (R a) (k a) Q E) -> triple P (m ≫= k) Q E.
Proof.
  intros Hm Hk s Hs. unfold mbind, M_bind. specialize (Hm s Hs).
  destruct (m s) as [s' [e|a]]; [done|]. by apply Hk.
Qed.

Lemma triple_ret {A} (a : A) (Q : A -> srv -> Prop) E : triple (Q a) (mret a) Q E.
Proof. by intros s Hs. Qed.

Lemma triple_fail {A} e (Q : A -> srv -> Prop) (E : Z -> srv -> Prop) : triple (E e) (fail e) Q E.
Proof. by intros s Hs. Qed.

Lemma triple_weaken {A} (P P' : srv -> Prop) (m : M A) Q E :
  triple P m Q E -> (forall s, P' s -> P s) -> triple P' m Q E.
Proof. intros Hm HP s Hs. by apply Hm, HP. Qed.

(** The reply buffer keeps its [n] bytes and nothing is written past it. *)
Definition intact (n : nat) (b : bool) (s : srv) : Prop :=
  length (out s) = n /\ mongo_mutex_ s = b /\ overrun s = false.

(** ... and it is not full, with a NUL behind the text in it. *)
Definition shape (n : nat) (b : bool) (s : srv) : Prop :=
  intact n b s /\ (pos s < n)%nat /\ ((0 < pos s)%nat -> out s !! pos s = Some NUL).

(** What [snprintf] stores fits the room it is given. *)
Lemma length_snprintf_out size t : (Z.of_nat (length (snprintf_out size t)) <= Z.max 0 size).
Proof.
  unfold snprintf_out. destruct (Z.leb_spec size 0); [cbn; lia|]. rewrite length_app, length_take. cbn. lia.
Qed.

Lemma triple_emit n b t err :
  triple (shape n b) (emit t err) (fun _ => shape n b) (fun e s => e = err /\ intact n b s).
Proof.
  intros s ((Hn & Hb & Ho) & Hp & Hz). unfold emit.
  set (room := Z.of_nat (length (out s)) - Z.of_nat (pos s)).
  pose proof (length_snprintf_out room t) as Hl. rewrite Ho.
  destruct (Nat.ltb_spec (length (out s)) (pos s + length (snprintf_out room t))) as [Hlt|_];
    [unfold room in *; lia|].
  destruct (Nat.leb_spec (length (out s)) (pos s + length t)); unfold shape, intact;
    cbn [out pos mongo_mutex_ overrun orb]; rewrite length_inserts; repeat split; try (done || lia).
  intros _. unfold snprintf_out in *. destruct (Z.leb_spec room 0); [unfold room in *; lia|].
  rewrite take_ge in * by (unfold room; lia). rewrite length_app in Hl. cbn in Hl.
  rewrite list_lookup_inserts by (rewrite ?length_app; cbn; unfold room in *; lia).
  by rewrite Nat.add_sub', lookup_app_r, Nat.sub_diag by lia.
Qed.

Lemma triple_on_disk {A} (n : nat) (b : bool) (g : fs -> A * fs) (E : Z -> srv -> Prop) :
  triple (shape n b) (on_disk g) (fun _ => shape n b) E.
Proof. intros s Hs. unfold on_disk. by destruct (g (disk s)). Qed.

Lemma triple_on_db {A} (n : nat) (b : bool) (g : Db -> A * Db) (E : Z -> srv -> Prop) :
  triple (shape n b) (on_db g) (fun _ => shape n b) E.
Proof. intros s Hs. unfold on_db. by destruct (g (db s)). Qed.

Lemma triple_lock n b E : triple (shape n b) lock (fun _ => shape n true) E.
Proof. by intros s ((? & ? & ?) & ? & ?). Qed.

Lemma triple_unlock n b E : triple (shape n b) unlock (fun _ => shape n false) E.
Proof. by intros s ((? & ? & ?) & ? & ?). Qed.

(** Failing out of the locked region releases the mutex first. *)
Lemma triple_unlock_fail {A} n b e (Q : A -> srv -> Prop) :
  e < 0 -> triple (shape n b) (unlock ≫= fun _ => fail e) Q (fun e s => e < 0 /\ intact n false s).
Proof.
  intros He. apply triple_bind with (R := fun _ => shape n false).
  - apply triple_unlock.
  - intros _ s [Hs _]. by split.
Qed.

Section invariants.
Context (cfg : IDFSConfig) (decode_image : bytes -> option (Z * Z)) (e : env).

Local Abbreviation bad n := (fun (err : Z) s => err < 0 /\ intact n false s).

Lemma triple_emit_neg n t err :
  err < 0 -> triple (shape n false) (emit t err) (fun _ => shape n false) (bad n).
Proof.
  intros He s Hs. pose proof (triple_emit n false t err s Hs) as H1.
  destruct (emit t err s) as [s' [e'|]]; [|done]. by destruct H1 as [-> ?].
Qed.

Lemma triple_emit_all n l :
  Forall (fun p => p.2 < 0) l ->
  triple (shape n false) (emit_all l) (fun _ => shape n false) (bad n).
Proof.
  induction 1 as [|[t err] l He _ IH]; cbn [emit_all].
  - apply (triple_ret _ (fun _ => shape n false)).
  - eapply triple_bind; [by apply (triple_emit_neg n)|intros ?]. apply IH.
Qed.

Lemma triple_prologue n : triple (shape n false) prologue (fun _ => shape n false) (bad n).
Proof. apply triple_emit_all. repeat constructor. Qed.

Lemma triple_epilogue n iid m fp sz :
  triple (shape n false) (epilogue iid m fp sz) (fun _ => shape n false) (bad n).
Proof. apply triple_emit_all. repeat constructor. Qed.

Lemma triple_store n type iid imgid data :
  triple (shape n true) (store_image cfg decode_image e type iid imgid data)
         (fun _ => shape n true) (bad n).
Proof.
  unfold store_image. eapply triple_bind; [apply (triple_on_disk n)|intros ret].
  destruct (ret <? 0); [apply triple_unlock_fail; lia|].
  eapply triple_bind; [apply (triple_on_disk n)|intros [[w h]|]]; [|apply triple_unlock_fail; lia].
  eapply triple_bind; [apply (triple_on_db n)|intros r].
  destruct (r =? MONGO_ERR); [apply triple_unlock_fail; lia|]. apply (triple_ret _ (fun _ => shape n true)).
Qed.

Lemma triple_find_or_store n type iid data :
  triple (shape n false) (find_or_store cfg decode_image e type iid data)
         (fun _ => shape n false) (bad n).
Proof.
  unfold find_or_store. eapply triple_bind; [apply (triple_lock n)|intros ?].
  eapply triple_bind; [apply (triple_on_db n)|intros found].
  eapply triple_bind with (R := fun _ => shape n true).
  - destruct found; [|apply triple_store].
    eapply triple_bind; [apply (triple_on_db n)|intros [[b c1] c2]].
    destruct (_ =? _); [apply triple_unlock_fail; lia|apply (triple_ret _ (fun _ => shape n true))].
  - intros r. eapply triple_bind; [apply (triple_unlock n)|intros ?].
    apply (triple_ret _ (fun _ => shape n false)).
Qed.

Lemma triple_reply_for n type data :
  triple (shape n false) (reply_for cfg decode_image e type data) (fun _ => shape n false) (bad n).
Proof.
  unfold reply_for. eapply triple_bind; [apply (triple_find_or_store n)|intros r]. apply triple_epilogue.
Qed.

Lemma triple_handle n type data :
  triple (shape n false) (handle cfg decode_image e type data) (fun _ => shape n false) (bad n).
Proof.
  unfold handle. destruct (_ && _).
  { eapply triple_bind; [apply (triple_prologue n)|intros ?]. apply triple_reply_for. }
  destruct (type =? 64).
  - eapply triple_bind; [apply (triple_prologue n)|intros ?].
    destruct (net_init e <? 0); [by intros s [Hs _]; split; [lia|]|].
    destruct (fetch e _ _ _) as [ret page]. destruct (Z.ltb_spec ret 0); [by intros s [Hs _]|].
    apply triple_reply_for.
  - intros s [Hs _]. by split; [lia|].
Qed.

Lemma server_main_total type data out0 f d :
  data <> [] -> out0 <> [] ->
  exists r s, server_main cfg decode_image e type data out0 f d = Ret (r, s) /\
    mongo_mutex_ s = false /\ overrun s = false /\ length (out s) = length out0 /\
    (r < 0 \/ r = Z.of_nat (pos s) /\ r < Z.of_nat (length out0) /\
     (0 < r -> out s !! Z.to_nat r = Some NUL)).
Proof.
  intros Hd Ho. unfold server_main, q_assert.
  destruct (Z.ltb_spec 0 (Z.of_nat (length data))); [|destruct data; [done|cbn in *; lia]].
  destruct (Z.ltb_spec 0 (Z.of_nat (length out0))); [|destruct out0; [done|cbn in *; lia]].
  pose proof (triple_handle (length out0) type data (mkSrv f d false out0 0 false)) as Ht.
  destruct (handle cfg decode_image e type data (mkSrv f d false out0 0 false)) as [s [err|[]]].
  - destruct Ht as (He & Hl & Hm & Hv); [by repeat split; cbn; lia|]. eauto 9.
  - destruct Ht as ((Hl & Hm & Hv) & Hp & Hz); [by repeat split; cbn; lia|].
    eexists _, _. split; [done|]. repeat split; [done..|]. right. split; [done|]. split; [lia|].
    intros Hr. rewrite Nat2Z.id. apply Hz. lia.
Qed.

(** C6. On every path of [server_main], successful or not, the database mutex
    is released, nothing is stored past the end of the reply buffer, and the
    value returned is either a negative error code or the length of a reply
    that fits the buffer with the NUL that follows it. *)
Theorem server_main_safe type data out0 f d :
  data <> [] -> out0 <> [] ->
  exists r s, server_main cfg decode_image e type data out0 f d = Ret (r, s) /\
    mongo_mutex_ s = false /\ overrun s = false /\ length (out s) = length out0 /\
    (r < 0 \/ r = Z.of_nat (pos s) /\ r < Z.of_nat (length out0) /\
     (0 < r -> out s !! Z.to_nat r = Some NUL)).
Proof. apply server_main_total. Qed.

(** An operation code that is neither an image type nor 64 is refused with
    TCP_ERR_OPERATE_TYPE, and disk, database and reply buffer are untouched. *)
Theorem server_main_operate_type type data out0 f d :
  data <> [] -> out0 <> [] -> 5 <= type -> type <> 64 ->
  server_main cfg decode_image e type data out0 f d =
  Ret (TCP_ERR_OPERATE_TYPE, mkSrv f d false out0 0 false).
Proof.
  intros Hd Ho Ht H64. unfold server_main, q_assert, handle.
  destruct (Z.ltb_spec 0 (Z.of_nat (length data))); [|destruct data; [done|cbn in *; lia]].
  destruct (Z.ltb_spec 0 (Z.of_nat (length out0))); [|destruct out0; [done|cbn in *; lia]].
  destruct (Z.ltb_spec type 5); [lia|]. rewrite andb_false_r.
  by destruct (Z.eqb_spec type 64).
Qed.

End invariants.

(** ** The text of a reply *)

(** [n] bytes of buffer of which the first hold [w]. *)
Definition written (n : nat) (w : bytes) (s : srv) : Prop :=
  length (out s) = n /\ pos s = length w /\ take (length w) (out s) = w.

Definition with_out (o : bytes) (p : nat) (s : srv) : srv :=
  mkSrv (disk s) (db s) (mongo_mutex_ s) o p (overrun s).

Lemma emit_run n w t err s :
  written n w s -> (length w + length t < n)%nat ->
  exists o, emit t err s = (with_out o (length w + length t) s, inr tt) /\
    written n (w ++ t) (with_out o (length w + length t) s).
Proof.
  intros (Hn & Hp & Hw) Hl. unfold emit. rewrite Hn, Hp. unfold snprintf_out.
  destruct (Z.leb_spec (Z.of_nat n - Z.of_nat (length w)) 0); [lia|]. rewrite (take_ge t) by lia.
  destruct (Nat.ltb_spec n (length w + length (t ++ [NUL]))) as [Hb|_];
    [rewrite length_app in Hb; cbn in Hb; lia|]. rewrite orb_false_r.
  destruct (Nat.leb_spec n (length w + length t)); [lia|]. eexists. split; [done|].
  unfold written, with_out. cbn. rewrite length_inserts, length_app. repeat split; [done|].
  rewrite <- (take_drop (length w) (out s)), Hw.
  destruct (cut_at (length t + 1) (drop (length w) (out s))) as (x & z & Hx & Hxl & _);
    [rewrite length_drop; lia|].
  rewrite Hx, inserts_middle by (rewrite ?length_app; cbn; lia).
  rewrite <- app_assoc, app_assoc. apply take_app_length'. by rewrite length_app.
Qed.

Definition texts (l : list (bytes * Z)) : bytes := concat (fst <$> l).

Lemma emit_all_run n w l s :
  written n w s -> (length w + length (texts l) < n)%nat ->
  exists o, emit_all l s = (with_out o (length w + length (texts l)) s, inr tt) /\
    written n (w ++ texts l) (with_out o (length w + length (texts l)) s).
Proof.
  revert w s. induction l as [|[t err] l IH]; intros w s Hw Hl.
  - exists (out s). unfold texts. cbn. rewrite app_nil_r, Nat.add_0_r.
    destruct Hw as (Hn & Hp & Ht). unfold with_out. rewrite <- Hp. by destruct s.
  - unfold texts in *. cbn [fmap list_fmap concat fst emit_all] in *. rewrite length_app in *.
    destruct (emit_run n w t err s) as (o & E & Hw'); [done|lia|].
    unfold mbind, M_bind. rewrite E.
    destruct (IH (w ++ t) (with_out o (length w + length t) s)) as (o' & E' & Hw'');
      [done|rewrite length_app; lia|].
    rewrite length_app, <- Nat.add_assoc, <- app_assoc in *. exists o'. by rewrite E'.
Qed.

(** The document a successful request answers with. *)
Definition reply_text (iid : Z) (img_md5 fp sz : bytes) : bytes :=
  texts prologue_parts ++ texts (epilogue_parts iid img_md5 fp sz).

Section results.
Context (cfg : IDFSConfig) (decode_image : bytes -> option (Z * Z)).

Lemma reply_for_run e n type data s r fp sz :
  let iid := Qmd5.MD5Bits64 (md5_ctx e) data in
  let img_md5 := Md5Class.md5 (md5_obj e) data in
  written n (texts prologue_parts) s ->
  find_or_store cfg decode_image e type iid data s = (r, inr (fp, sz)) ->
  out r = out s -> pos r = pos s ->
  (length (reply_text iid img_md5 fp sz) < n)%nat ->
  exists o, reply_for cfg decode_image e type data s =
    (with_out o (length (reply_text iid img_md5 fp sz)) r, inr tt) /\
    written n (reply_text iid img_md5 fp sz) (with_out o (length (reply_text iid img_md5 fp sz)) r).
Proof.
  intros iid img_md5 (Hn & Hp & Ht) Hf Ho Hpr Hl. unfold reply_for, mbind, M_bind. fold iid img_md5.
  rewrite Hf. cbn [fst snd].
  destruct (emit_all_run n (texts prologue_parts) (epilogue_parts iid img_md5 fp sz) r)
    as (o & E & Hw).
  - unfold written. rewrite Ho, Hpr. done.
  - unfold reply_text in Hl. rewrite length_app in Hl. lia.
  - exists o. unfold reply_text, epilogue. rewrite length_app. by rewrite E.
Qed.

(** ** The two outcomes of a lookup *)

Lemma find_or_store_found e type iid data s d1 b c1 c2 d2 :
  let id := cstr (q_to_string iid) in
  exists_ (mongo_img_collection_ cfg) (str "imgid") id (db s) = (true, d1) ->
  select2 (mongo_img_collection_ cfg) (str "imgid") id (str "imgpath") [] (str "imgsize") [] d1 =
    (b, c1, c2, d2) ->
  find_or_store cfg decode_image e type iid data s =
  (mkSrv (disk s) d2 false (out s) (pos s) (overrun s), inr (c1, c2)).
Proof.
  intros id Hex Hsel. unfold find_or_store, mbind, M_bind, lock, on_db, unlock. cbn [db disk out pos mongo_mutex_].
  fold id. rewrite Hex. cbn [db disk out pos mongo_mutex_]. rewrite Hsel. by destruct b.
Qed.

Lemma find_or_store_new e type iid data s d1 f1 ret w h d2 :
  let id := cstr (q_to_string iid) in
  let fp := file_path cfg e iid type in
  let lp := cstr (local_path cfg e fp) in
  exists_ (mongo_img_collection_ cfg) (str "imgid") id (db s) = (false, d1) ->
  save_image lp data (short_write e) (disk s) = (ret, f1) -> 0 <= ret ->
  getImageSize decode_image lp f1 = (Some (w, h), f1) ->
  insert2 (mongo_img_collection_ cfg) (now e) (str "imgid") id (str "imgpath") (cstr fp)
    (str "imgsize") (cstr (img_size_text e w h)) d1 = (MONGO_OK, d2) ->
  find_or_store cfg decode_image e type iid data s =
  (mkSrv f1 d2 false (out s) (pos s) (overrun s), inr (fp, img_size_text e w h)).
Proof.
  intros id fp lp Hex Hsave Hret Hsize Hins.
  unfold find_or_store, store_image, mbind, M_bind, lock, on_db, on_disk, unlock.
  cbn [db disk out pos mongo_mutex_]. fold id fp lp. rewrite Hex. cbn [db disk out pos mongo_mutex_].
  rewrite Hsave. destruct (Z.ltb_spec ret 0); [lia|]. cbn [db disk out pos mongo_mutex_].
  rewrite Hsize. cbn [db disk out pos mongo_mutex_]. by rewrite Hins.
Qed.

(** A new file on a disk with room. *)
Lemma fopen_w_new p f f0 :
  access f p = false -> fopen_w p f = Some f0 ->
  f0 = <[canon p := File []]> f /\ p <> [] /\ (canon p).2 <> [].
Proof.
  intros Ha Hf. unfold fopen_w in Hf. case_bool_decide as Hp; [done|].
  unfold access in Ha. rewrite bool_decide_eq_false_2 in Ha by done. cbn in Ha.
  apply bool_decide_eq_false in Ha. destruct (find_node f (canon p)) as [n|] eqn:E; [by destruct Ha|].
  destruct (is_dir f (parent (canon p))); [|done]. injection Hf as <-.
  unfold find_node in E. by destruct ((canon p).2).
Qed.

Lemma save_image_new p data f f0 :
  data <> [] -> access f p = false -> fopen_w p f = Some f0 ->
  save_image p data None f = (0, <[canon p := File data]> f) /\
  fopen_r p (<[canon p := File data]> f) = Some data.
Proof.
  intros Hd Ha Hf. unfold save_image.
  destruct (Z.leb_spec (Z.of_nat (length data)) 0); [destruct data; [done|cbn in *; lia]|].
  rewrite Ha, Hf. destruct (fopen_w_new p f f0 Ha Hf) as (-> & _ & Hc).
  unfold append. rewrite lookup_insert_eq, insert_insert_eq. split; [done|].
  unfold fopen_r, find_node. destruct ((canon p).2); [done|]. by rewrite lookup_insert_eq.
Qed.

Lemma server_main_run e type data out0 f d r fp sz :
  let iid := Qmd5.MD5Bits64 (md5_ctx e) data in
  let img_md5 := Md5Class.md5 (md5_obj e) data in
  0 <= type < 5 -> data <> [] -> (length (reply_text iid img_md5 fp sz) < length out0)%nat ->
  (forall o p, find_or_store cfg decode_image e type iid data (mkSrv f d false o p false) =
               (with_out o p r, inr (fp, sz))) ->
  exists s, server_main cfg decode_image e type data out0 f d =
      Ret (Z.of_nat (length (reply_text iid img_md5 fp sz)), s) /\
    take (length (reply_text iid img_md5 fp sz)) (out s) = reply_text iid img_md5 fp sz /\
    disk s = disk r /\ db s = db r /\ mongo_mutex_ s = mongo_mutex_ r.
Proof.
  intros iid img_md5 Ht Hd Hl Hf. unfold server_main, q_assert.
  destruct (Z.ltb_spec 0 (Z.of_nat (length data))); [|destruct data; [done|cbn in *; lia]].
  destruct (Z.ltb_spec 0 (Z.of_nat (length out0))); [|lia].
  unfold handle. destruct (Z.leb_spec 0 type), (Z.ltb_spec type 5); try lia. cbn [andb].
  unfold prologue. unfold mbind at 1, M_bind at 1.
  destruct (emit_all_run (length out0) [] prologue_parts (mkSrv f d false out0 0 false)) as (o & E & Hw).
  { by repeat split. }
  { unfold reply_text in Hl. rewrite length_app in Hl. cbn [length] in *. lia. }
  rewrite E. cbn [app] in Hw.
  destruct (reply_for_run e (length out0) type data (with_out o (length (@nil byte) + length (texts prologue_parts)) (mkSrv f d false out0 0 false))
     (with_out o (length (@nil byte) + length (texts prologue_parts)) r) fp sz) as (o' & E' & Hw').
  - done.
  - apply Hf.
  - done.
  - done.
  - done.
  - fold iid img_md5 in E', Hw'. rewrite E'. eexists. split; [done|].
    destruct Hw' as (_ & _ & Hw'). by repeat split.
Qed.

(** C2. Storing a new image: when the database does not know it, its directory
    exists, the disk has room, the image decodes to [w] by [h] pixels and the
    insert is acknowledged, [server_main] answers with the document of the
    image, leaves exactly its bytes in the file the document names, and
    appends one document with that name and size to the collection. *)
Theorem server_main_stores `{!MongoLaws Db} e type data out0 f d d1 f0 w h d2 :
  let iid := Qmd5.MD5Bits64 (md5_ctx e) data in
  let img_md5 := Md5Class.md5 (md5_obj e) data in
  let fp := file_path cfg e iid type in
  let lp := cstr (local_path cfg e fp) in
  let sz := img_size_text e w h in
  let coll := mongo_img_collection_ cfg in
  0 <= type < 5 -> data <> [] -> short_write e = None ->
  exists_ coll (str "imgid") (cstr (q_to_string iid)) d = (false, d1) ->
  access f lp = false -> fopen_w lp f = Some f0 -> decode_image data = Some (w, h) ->
  insert2 coll (now e) (str "imgid") (cstr (q_to_string iid)) (str "imgpath") (cstr fp)
    (str "imgsize") (cstr sz) d1 = (MONGO_OK, d2) ->
  (length (reply_text iid img_md5 fp sz) < length out0)%nat ->
  exists s, server_main cfg decode_image e type data out0 f d =
      Ret (Z.of_nat (length (reply_text iid img_md5 fp sz)), s) /\
    take (length (reply_text iid img_md5 fp sz)) (out s) = reply_text iid img_md5 fp sz /\
    fopen_r lp (disk s) = Some data /\ (forall k, k <> canon lp -> disk s !! k = f !! k) /\
    docs (db s) coll = docs d coll ++
      [[(str "imgid", cstr (q_to_string iid)); (str "imgpath", cstr fp); (str "imgsize", cstr sz);
        (str "createdAt", now e)]].
Proof.
  intros iid img_md5 fp lp sz coll Ht Hd Hsh Hex Ha Hfo Hdec Hins Hl.
  destruct (save_image_new lp data f f0 Hd Ha Hfo) as [Hsave Hread].
  destruct (server_main_run e type data out0 f d (mkSrv (<[canon lp := File data]> f) d2 false out0 0 false) fp sz)
    as (s & Hs & Hout & Hdisk & Hdb & _); [done..| |].
  - intros o p. apply (find_or_store_new e type iid data (mkSrv f d false o p false) d1
      (<[canon lp := File data]> f) 0 w h d2); try done.
    + cbn [disk]. by rewrite Hsh.
    + unfold getImageSize. change (fopen_r _ _) with (fopen_r lp (<[canon lp := File data]> f)).
      by rewrite Hread, Hdec.
  - exists s. rewrite Hdisk, Hdb. cbn [disk db]. repeat split; [done..| |].
    + intros k Hk. by rewrite lookup_insert_ne.
    + pose proof (insert2_docs coll (now e) (str "imgid") (cstr (q_to_string iid)) (str "imgpath") (cstr fp)
        (str "imgsize") (cstr sz) d1) as Hdocs. rewrite Hins in Hdocs. cbn [fst snd] in Hdocs.
      rewrite Hdocs by done. f_equal.
      pose proof (exists_docs coll (str "imgid") (cstr (q_to_string iid)) d coll) as Hx.
      by rewrite Hex in Hx.
Qed.

(** ** Storing an image again *)

Lemma emit_all_inv n w l s s' :
  written n w s -> (length w < n)%nat -> emit_all l s = (s', inr tt) ->
  (length w + length (texts l) < n)%nat.
Proof.
  revert w s. induction l as [|[t err] l IH]; intros w s Hw Hn E; unfold texts in *; cbn.
  - lia.
  - cbn [emit_all] in E. unfold mbind, M_bind in E. pose proof Hw as (Hl & Hp & _).
    destruct (Nat.lt_ge_cases (length w + length t) n) as [Hr|Hr].
    + destruct (emit_run n w t err s Hw Hr) as (o & E1 & Hw1). rewrite E1 in E.
      specialize (IH (w ++ t) _ Hw1). rewrite length_app in *. specialize (IH Hr E). lia.
    + unfold emit in E. rewrite Hl, Hp in E.
      by destruct (Nat.leb_spec n (length w + length t)); [|lia].
Qed.

Lemma find_or_store_inv e type iid data s s' fp sz :
  let coll := mongo_img_collection_ cfg in
  let id := cstr (q_to_string iid) in
  find_or_store cfg decode_image e type iid data s = (s', inr (fp, sz)) ->
  (exists d1 b d2, exists_ coll (str "imgid") id (db s) = (true, d1) /\
     select2 coll (str "imgid") id (str "imgpath") [] (str "imgsize") [] d1 = (b, fp, sz, d2) /\
     s' = mkSrv (disk s) d2 false (out s) (pos s) (overrun s)) \/
  (exists d1 f1 d2, exists_ coll (str "imgid") id (db s) = (false, d1) /\
     insert2 coll (now e) (str "imgid") id (str "imgpath") (cstr fp) (str "imgsize") (cstr sz) d1
       = (MONGO_OK, d2) /\
     s' = mkSrv f1 d2 false (out s) (pos s) (overrun s)).
Proof.
  intros coll id. unfold find_or_store, store_image, mbind, M_bind, lock, on_db, on_disk, unlock, fail, mret, M_ret.
  cbn [db disk out pos mongo_mutex_]. fold coll id.
  destruct (exists_ coll (str "imgid") id (db s)) as [[] d1] eqn:Hex; cbn [db disk out pos mongo_mutex_].
  - destruct (select2 coll _ _ _ _ _ _ d1) as [[[b c1] c2] d2] eqn:Hsel. intros Hr.
    destruct b; cbn in Hr; simplify_eq; left; eauto 10.
  - destruct (save_image _ _ _ _) as [ret f1]. destruct (ret <? 0); [done|].
    cbn [db disk out pos mongo_mutex_]. unfold getImageSize.
    destruct (match fopen_r _ f1 with Some c => decode_image c | None => None end) as [[w h]|]; [|done].
    cbn [db disk out pos mongo_mutex_].
    match goal with |- context [insert2 ?a ?b ?c ?d ?e ?f ?g ?h ?i] =>
      destruct (insert2 a b c d e f g h i) as [r d2] eqn:Hins end.
    destruct (Z.eqb_spec r MONGO_ERR) as [|Hr]; [done|]. intros Hx. simplify_eq. right.
    exists d1, f1, d2. repeat split. fold id in Hins. rewrite Hins. f_equal.
    unfold insert2 in Hins. by destruct (db_insert _ _ _) as [[]]; simplify_eq.
Qed.

(** What a success says about the lookup in the middle. *)
Lemma server_main_inv e type data out0 f d r s :
  let iid := Qmd5.MD5Bits64 (md5_ctx e) data in
  let img_md5 := Md5Class.md5 (md5_obj e) data in
  0 <= type < 5 -> data <> [] -> out0 <> [] ->
  server_main cfg decode_image e type data out0 f d = Ret (r, s) -> 0 <= r ->
  exists o p s' fp sz,
    find_or_store cfg decode_image e type iid data (mkSrv f d false o p false) = (s', inr (fp, sz)) /\
    disk s = disk s' /\ db s = db s' /\ r = Z.of_nat (length (reply_text iid img_md5 fp sz)) /\
    (length (reply_text iid img_md5 fp sz) < length out0)%nat /\
    take (Z.to_nat r) (out s) = reply_text iid img_md5 fp sz.
Proof.
  intros iid img_md5 Ht Hd Ho Hs Hr. unfold server_main, q_assert in Hs.
  destruct (Z.ltb_spec 0 (Z.of_nat (length data))); [|done].
  destruct (Z.ltb_spec 0 (Z.of_nat (length out0))); [|done].
  pose proof (triple_handle cfg decode_image e (length out0) type data (mkSrv f d false out0 0 false)) as Htr.
  destruct (handle cfg decode_image e type data (mkSrv f d false out0 0 false)) as [s1 [err|[]]] eqn:Eh.
  { injection Hs as -> ->. destruct Htr as (? & _); [by repeat split; cbn; lia|lia]. }
  injection Hs as <- <-. clear Htr. unfold handle in Eh.
  destruct (Z.leb_spec 0 type), (Z.ltb_spec type 5); try lia. cbn [andb] in Eh.
  unfold prologue in Eh. unfold mbind in Eh at 1. unfold M_bind in Eh at 1.
  destruct (emit_all prologue_parts (mkSrv f d false out0 0 false)) as [s0 [e0|[]]] eqn:E0; [done|].
  assert (written (length out0) [] (mkSrv f d false out0 0 false)) as Hw0 by by repeat split.
  pose proof (emit_all_inv _ _ _ _ _ Hw0 ltac:(cbn; lia) E0) as Hroom0.
  destruct (emit_all_run _ _ _ _ Hw0 Hroom0) as (o & E1 & Hw1).
  rewrite E1 in E0. apply (f_equal fst) in E0. cbn [fst] in E0. subst s0.
  cbn [app] in Hw1. change (length (@nil byte) + length (texts prologue_parts))%nat
    with (length (texts prologue_parts)) in *.
  unfold reply_text. set (P := texts prologue_parts) in *. clearbody P. clear Hw0.
  unfold reply_for in Eh. unfold mbind, M_bind in Eh. fold iid img_md5 in Eh.
  destruct (find_or_store cfg decode_image e type iid data _) as [s' [e'|[fp sz]]] eqn:Ef; [done|].
  assert (out s' = o /\ pos s' = length (P)) as [Hos Hps].
  { by destruct (find_or_store_inv _ _ _ _ _ _ _ _ Ef) as [(?&?&?&_&_&->)|(?&?&?&_&_&->)]. }
  assert (written (length out0) (P) s') as Hw2.
  { destruct Hw1 as (Ha & Hb & Hc). unfold written. rewrite Hos, Hps. done. }
  cbn [fst snd] in Eh. unfold epilogue in Eh.
  pose proof (emit_all_inv _ _ _ _ _ Hw2 ltac:(lia) Eh) as Hroom2.
  destruct (emit_all_run _ _ _ _ Hw2 Hroom2) as (o2 & E2 & Hw3).
  rewrite E2 in Eh. apply (f_equal fst) in Eh. cbn [fst] in Eh. subst s1.
  exists o, (length P), s', fp, sz.
  destruct Hw3 as (_ & _ & Hw3). rewrite length_app in *. cbn [pos with_out].
  rewrite Nat2Z.id. repeat split; (done || lia).
Qed.

Definition env_ok (e : env) : Prop :=
  length (md5_ctx e) = 64%nat /\ length (Md5Class.buffer (md5_obj e)) = 64%nat.

(** The digests do not depend on uninitialised memory. *)
Lemma digests_env e e' data :
  env_ok e -> env_ok e' -> Z.of_nat (length data) < 2 ^ 31 ->
  Qmd5.MD5Bits64 (md5_ctx e) data = Qmd5.MD5Bits64 (md5_ctx e') data /\
  Md5Class.md5 (md5_obj e) data = Md5Class.md5 (md5_obj e') data.
Proof.
  intros [H1 H2] [H1' H2'] Hl. split.
  - unfold Qmd5.MD5Bits64, Qmd5.MD5Bits128.
    destruct (Z.leb_spec (Z.of_nat (length data)) 0); [done|].
    by rewrite !(Qmd5.MD5Final_rep _ data) by (apply (Qmd5.MD5Update_rep _ []); [by apply Qmd5.MD5Init_rep|done]).
  - unfold Md5Class.md5, Md5Class.hexdigest.
    destruct (Md5Class.MD5_new_spec (md5_obj e) data H2 Hl) as [-> ->].
    by destruct (Md5Class.MD5_new_spec (md5_obj e') data H2' Hl) as [-> ->].
Qed.

(** After a successful lookup the database knows the image, with the path and
    size that were answered. *)
Lemma find_or_store_known `{!MongoLaws Db} e type iid data s s' fp sz :
  lookup_answers (mongo_img_collection_ cfg) (str "imgid") (cstr (q_to_string iid)) (db s) ->
  find_or_store cfg decode_image e type iid data s = (s', inr (fp, sz)) ->
  exists dd, find (fun dd => has_field (str "imgid") (cstr (q_to_string iid)) dd)
               (docs (db s') (mongo_img_collection_ cfg)) = Some dd /\
    cstr (getStringField (str "imgpath") dd) = cstr fp /\
    cstr (getStringField (str "imgsize") dd) = cstr sz.
Proof.
  set (id := cstr (q_to_string iid)). set (coll := mongo_img_collection_ cfg). intros [Hq Hone] Hf.
  pose proof (exists_find coll (str "imgid") id (db s) Hq) as Hex.
  pose proof (exists_docs coll (str "imgid") id (db s) coll) as Hdoc.
  destruct (find_or_store_inv _ _ _ _ _ _ _ _ Hf)
    as [(d1 & b & d2 & E1 & E2 & ->)|(d1 & f1 & d2 & E1 & E2 & ->)]; cbn [db].
  - fold coll id in E1, E2. rewrite E1 in Hex, Hdoc, Hone. cbn in Hex, Hdoc, Hone.
    destruct (find _ (docs (db s) coll)) as [dd|] eqn:Efd; [|done].
    rewrite <- Hdoc in Efd. exists dd.
    pose proof (select2_docs coll (str "imgid") id (str "imgpath") [] (str "imgsize") [] d1 coll) as Hd2.
    rewrite E2 in Hd2. cbn in Hd2. rewrite Hd2. split; [done|].
    destruct (select2_find coll (str "imgid") id (str "imgpath") [] (str "imgsize") [] d1 dd Hone Efd)
      as [d3 E3]. rewrite E3 in E2. by simplify_eq.
  - fold coll id in E1, E2. rewrite E1 in Hex, Hdoc. cbn in Hex, Hdoc.
    destruct (find _ (docs (db s) coll)) as [dd|] eqn:Efd; [done|].
    pose proof (insert2_docs coll (now e) (str "imgid") id (str "imgpath") (cstr fp) (str "imgsize") (cstr sz) d1) as Hins.
    rewrite E2 in Hins. cbn [fst snd] in Hins. rewrite Hins, Hdoc by done.
    eexists. split; [|].
    + rewrite find_filter, filter_app. rewrite find_filter in Efd.
      destruct (filter _ (docs (db s) coll)) as [|? ?]; [|done]. cbn [app].
      rewrite filter_cons, decide_True by apply has_field_insert2. done.
    + unfold getStringField, field. cbn. split; apply cstr_no_nul, no_nul_cstr.
Qed.

(** C3. Storing an image again after a success returns the same document byte
    for byte and changes neither the disk nor the collections, whatever the
    uninitialised memory, the clock and the write faults of the second request,
    provided the driver throws on none of the reads with which either request
    looks the image up.  (A read that throws counts as "not found": see
    [server_main_duplicates].) *)
Theorem server_main_idempotent `{!MongoLaws Db} e e' type data out0 out1 f d r s :
  let iid := Qmd5.MD5Bits64 (md5_ctx e) data in
  let lookup := lookup_answers (mongo_img_collection_ cfg) (str "imgid") (cstr (q_to_string iid)) in
  env_ok e -> env_ok e' ->
  0 <= type < 5 -> data <> [] -> Z.of_nat (length data) < 2 ^ 31 ->
  out0 <> [] -> length out1 = length out0 ->
  server_main cfg decode_image e type data out0 f d = Ret (r, s) -> 0 <= r ->
  lookup d -> lookup (db s) ->
  exists s', server_main cfg decode_image e' type data out1 (disk s) (db s) = Ret (r, s') /\
    take (Z.to_nat r) (out s') = take (Z.to_nat r) (out s) /\
    disk s' = disk s /\ forall c, docs (db s') c = docs (db s) c.
Proof.
  intros iid0 lookup He He' Ht Hd Hl Ho Ho1 Hs Hr Hlk [Hq Hone]. unfold lookup in Hlk. clear lookup.
  destruct (server_main_inv e type data out0 f d r s Ht Hd Ho Hs Hr)
    as (o & p & s1 & fp & sz & Hf & Hdisk & Hdb & Hrv & Hroom & Htxt).
  destruct (digests_env e e' data He He' Hl) as [Eiid Emd5].
  unfold iid0 in Hlk, Hq, Hone. clear iid0.
  rewrite Eiid in Hf, Hrv, Hroom, Htxt, Hlk, Hq, Hone. rewrite Emd5 in Hrv, Hroom, Htxt.
  set (iid := Qmd5.MD5Bits64 (md5_ctx e') data) in *. set (m := Md5Class.md5 (md5_obj e') data) in *.
  destruct (find_or_store_known e type iid data (mkSrv f d false o p false) s1 fp sz Hlk Hf) as (dd & Hdd & Hfp & Hsz).
  set (c1 := getStringField (str "imgpath") dd) in *. set (c2 := getStringField (str "imgsize") dd) in *.
  assert (reply_text iid m c1 c2 = reply_text iid m fp sz) as Etxt.
  { unfold reply_text, epilogue_parts. by rewrite Hfp, Hsz. }
  set (coll := mongo_img_collection_ cfg) in *. set (id := cstr (q_to_string iid)) in *.
  rewrite Hdb in Hq, Hone. pose proof (exists_find coll (str "imgid") id (db s1) Hq) as Hex.
  destruct (exists_ coll (str "imgid") id (db s1)) as [b d1] eqn:Eex. cbn in Hone. rewrite Hdd in Hex. cbn in Hex. subst b.
  pose proof (fun c => exists_docs coll (str "imgid") id (db s1) c) as Hdoc1. rewrite Eex in Hdoc1. cbn in Hdoc1.
  destruct (select2_find coll (str "imgid") id (str "imgpath") [] (str "imgsize") [] d1 dd Hone) as [d2 Esel].
  { by rewrite Hdoc1. }
  pose proof (fun c => select2_docs coll (str "imgid") id (str "imgpath") [] (str "imgsize") [] d1 c) as Hdoc2.
  rewrite Esel in Hdoc2. cbn in Hdoc2.
  destruct (server_main_run e' type data out1 (disk s) (db s) (mkSrv (disk s) d2 false out1 0 false) c1 c2)
    as (s' & Hs' & Hout & Hdisk' & Hdb' & _).
  - done.
  - done.
  - fold iid m. rewrite Etxt, Ho1. done.
  - intros o' p'. rewrite Hdb.
    apply (find_or_store_found e' type iid data (mkSrv (disk s) (db s1) false o' p' false) d1 true c1 c2 d2); done.
  - fold iid m in Hs', Hout. rewrite Etxt in Hs', Hout. exists s'. rewrite Hrv, Hs'. split; [done|].
    rewrite Hrv in Htxt. rewrite Nat2Z.id in *. rewrite Hout, Htxt, Hdisk', Hdb', Hdb. cbn.
    repeat split; [done..|]. intros c. by rewrite Hdoc2, Hdoc1.
Qed.

(** When the lookup of a known image fails, [server_main] still reports
    success: the result of [select], a [bool], is compared with [MONGO_ERR],
    so the reply carries an empty path and an empty size. *)
Theorem server_main_failed_select e type data out0 f d d1 c1 c2 d2 :
  let iid := Qmd5.MD5Bits64 (md5_ctx e) data in
  let id := cstr (q_to_string iid) in
  let text := reply_text iid (Md5Class.md5 (md5_obj e) data) [] [] in
  0 <= type < 5 -> data <> [] -> (length text < length out0)%nat ->
  exists_ (mongo_img_collection_ cfg) (str "imgid") id d = (true, d1) ->
  select2 (mongo_img_collection_ cfg) (str "imgid") id (str "imgpath") [] (str "imgsize") [] d1 =
    (false, c1, c2, d2) ->
  exists s, server_main cfg decode_image e type data out0 f d = Ret (Z.of_nat (length text), s) /\
    take (length text) (out s) = text.
Proof.
  intros iid id text Ht Hd Hl Hex Hsel.
  assert (c1 = [] /\ c2 = []) as [-> ->].
  { unfold select2 in Hsel. destruct (db_findOne _ _ _ d1) as [[[[|]|]|] ?]; by simplify_eq. }
  destruct (server_main_run e type data out0 f d (mkSrv f d2 false out0 0 false) [] []) as (s & -> & Hout & _);
    [done..| |eauto].
  intros o p. by apply (find_or_store_found e type iid data (mkSrv f d false o p false) d1 false [] [] d2).
Qed.

End results.
End server.

(** An incomplete write is never repaired: [save_image] fails but leaves
    the truncated file, and every later [save_image] on the same path finds it
    and reports the image as already stored. *)
Theorem save_image_truncated p data f f0 k :
  data <> [] -> access f p = false -> fopen_w p f = Some f0 ->
  exists f1, save_image p data (Some k) f = (-3, f1) /\ fopen_r p f1 = Some (take k data) /\
    forall short, save_image p data short f1 = (1, f1).
Proof.
  intros Hd Ha Hf. unfold save_image.
  destruct (Z.leb_spec (Z.of_nat (length data)) 0); [destruct data; [done|cbn in *; lia]|].
  rewrite Ha, Hf. destruct (fopen_w_new p f f0 Ha Hf) as (-> & Hp & Hc).
  unfold append. rewrite lookup_insert_eq, insert_insert_eq. cbn [app].
  eexists. split; [done|]. unfold fopen_r, access, find_node.
  destruct ((canon p).2); [done|]. rewrite lookup_insert_eq. split; [done|].
  intros short. by rewrite bool_decide_eq_false_2.
Qed.

(** ** A concrete server *)

Definition cfg0 : IDFSConfig := mkConfig (str "/data1/img") (str "img005") 1000 (str "IDDS.imgdb").
Definition decode0 (c : bytes) : option (Z * Z) := if bool_decide (c = []) then None else Some (4, 3).
Definition env0 : env :=
  mkEnv (replicate 64 xff) Md5Class.raw_object (replicate 2048 x7a) (str "20140524") None 0
        (fun _ _ _ => (-1, [])).
Definition env1 : env :=
  mkEnv (replicate 64 x00) (Md5Class.mkMD5 false (replicate 64 x01) 3 4 IV []) [] (str "20150101")
        (Some 2%nat) (-1) (fun _ _ _ => (0, [])).
Definition image0 : bytes := str "GIF89a....".
Definition disk0 : fs := default ∅
  (QDir_mkdir (str "/data1/img/img005/") ∅ ≫= fun r =>
   QDir_mkdir (str "/data1/img/img005/" ++ fmt_03d (Qmd5.MD5Bits64 (md5_ctx env0) image0 mod 1000)) r.2
   ≫= fun r => Some r.2).

Definition iid0 : Z := Qmd5.MD5Bits64 (md5_ctx env0) image0.
Definition path0 : bytes := cstr (local_path cfg0 env0 (file_path cfg0 env0 iid0 0)).

Lemma server_main_safe_witness :
  exists r s, server_main (Db := store) cfg0 decode0 env1 64 image0 (replicate 90 x00) disk0 ∅ = Ret (r, s) /\
    mongo_mutex_ s = false /\ overrun s = false /\ length (out s) = 90%nat /\
    (r < 0 \/ r = Z.of_nat (pos s) /\ r < 90 /\ (0 < r -> out s !! Z.to_nat r = Some NUL)).
Proof. by apply (server_main_safe cfg0 decode0 env1 64 image0 (replicate 90 x00) disk0 ∅). Defined.

Lemma server_main_stores_witness :
  exists s, server_main (Db := store) cfg0 decode0 env0 0 image0 (replicate 600 x00) disk0 ∅ =
      Ret (Z.of_nat (length (reply_text iid0 (Md5Class.md5 (md5_obj env0) image0)
                       (file_path cfg0 env0 iid0 0) (img_size_text env0 4 3))), s) /\
    fopen_r path0 (disk s) = Some image0.
Proof.
  destruct (server_main_stores cfg0 decode0 env0 0 image0 (replicate 600 x00) disk0 (∅ : store) ∅
    (<[canon path0 := File []]> disk0) 4 3
    (insert2 (mongo_img_collection_ cfg0) (now env0) (str "imgid") (cstr (q_to_string iid0)) (str "imgpath")
       (cstr (file_path cfg0 env0 iid0 0)) (str "imgsize") (str "4*3") (∅ : store)).2)
    as (s & H1 & _ & H2 & _ & _); [lia|discriminate|reflexivity|by_vm..| |].
  - apply Nat.ltb_lt. by_vm.
  - exists s. split; [exact H1|exact H2].
Defined.

Lemma server_main_idempotent_witness :
  exists r s s', server_main (Db := store) cfg0 decode0 env0 0 image0 (replicate 600 x00) disk0 ∅ = Ret (r, s) /\
    server_main cfg0 decode0 env1 0 image0 (replicate 600 xee) (disk s) (db s) = Ret (r, s') /\
    disk s' = disk s /\ docs (db s') (str "IDDS.imgdb") = docs (db s) (str "IDDS.imgdb").
Proof.
  assert (match server_main (Db := store) cfg0 decode0 env0 0 image0 (replicate 600 x00) disk0 ∅ with
          | Ret (r, _) => 0 <=? r | Abort => false end = true) as Hr by by_vm.
  destruct (server_main (Db := store) cfg0 decode0 env0 0 image0 (replicate 600 x00) disk0 ∅)
    as [[r s]|] eqn:E; [|discriminate Hr]. apply Z.leb_le in Hr.
  destruct (server_main_idempotent cfg0 decode0 env0 env1 0 image0 (replicate 600 x00) (replicate 600 xee)
    disk0 (∅ : store) r s) as (s' & H1 & _ & H2 & H3);
    [split; reflexivity..|lia|discriminate|reflexivity|discriminate|reflexivity
    |exact E|exact Hr|split; discriminate|split; discriminate|].
  exists r, s, s'. repeat split; [exact H1|exact H2|apply H3].
Defined.

(** A database that knows the image and whose second call fails. *)
Definition db1 : memdb :=
  mkMemdb {[ str "IDDS.imgdb" := [[(str "imgid", cstr (q_to_string iid0)); (str "imgpath", str "img005/1.gif");
                                  (str "imgsize", str "4*3")]] ]} [false; true].

(** The same database when the query of [exists] throws and the insert goes
    through: a known image is stored a second time, as a second document. *)
Definition db2 : memdb := mkMemdb (mem db1) [true].

Example server_main_duplicates :
  match server_main cfg0 decode0 env0 0 image0 (replicate 600 x00) disk0 db2 with
  | Ret (r, s) => (0 <? r) && (length (docs (db s) (str "IDDS.imgdb")) =? 2)%nat
  | Abort => false
  end = true.
Proof. by_vm. Qed.

Lemma server_main_failed_select_witness :
  let text := reply_text iid0 (Md5Class.md5 (md5_obj env0) image0) [] [] in
  exists s, server_main cfg0 decode0 env0 3 image0 (replicate 300 x00) ∅ db1 = Ret (Z.of_nat (length text), s) /\
    take (length text) (out s) = text.
Proof.
  apply (server_main_failed_select cfg0 decode0 env0 3 image0 (replicate 300 x00) ∅ db1
    (mkMemdb (mem db1) [true]) [] [] (mkMemdb (mem db1) []));
    [lia|discriminate|apply Nat.ltb_lt; by_vm|by_vm|by_vm].
Defined.

Lemma save_image_truncated_witness :
  exists f1, save_image path0 image0 (Some 3%nat) disk0 = (-3, f1) /\ fopen_r path0 f1 = Some (str "GIF") /\
    forall short, save_image path0 image0 short f1 = (1, f1).
Proof.
  apply (save_image_truncated path0 image0 disk0 (<[canon path0 := File []]> disk0) 3);
    [discriminate|by_vm|by_vm].
Defined.

End Idfs.
