(* ===== verification/TcpServer.v ===== *)
(** * TcpServer: one request of QTcpServer (src/include/common/qtcpsocket.cc)

    The body of [work_thread] for one accepted client: receive the header and
    the content into the request buffer, call the virtual [server_header] and
    [server_process], send the reply, and on any thrown code send a
    [replyHeader] with that code instead.  The two virtual functions are a
    class, [ServerHooks], with the laws the framework relies on, [ServerLaws];
    the theorems about a request are proved from the laws alone. *)

From S2P Require Import Prelude CLib Sockets Protocol.

Module Server.
Import Sock Proto.

(** [server_header(buffer, len)] and [server_process(request, len, reply,
    size)], over a state [St] and the surroundings [E] of one call; both may
    end the process by an assertion. *)
Class ServerHooks (E St : Type) : Type := {
  server_header : bytes -> Z -> outcome Z;
  server_process : E -> bytes -> Z -> bytes -> St -> outcome (Z * bytes * St)
}.

Record served {St : Type} : Type := mkServed {
  wire : bytes;
  request_after : bytes;
  reply_after : bytes;
  state_after : St;
  thrown : option Z
}.
Arguments served : clear implicits.

(** The [replyHeader] of the [catch] block; [stack] is what the 32 bytes of
    the automatic variable hold before the stores. *)
Definition error_reply (stack : bytes) (errcode : Z) : bytes :=
  let b := put_u64 replyHeader_version TCP_HEADER_VERSION stack in
  let b := put_i32 replyHeader_length (Z.of_nat replyHeader_sizeof - 8 - 4) b in
  let b := put_u16 replyHeader_command_type TCP_DEFAULT_COMMAND_TYPE b in
  put_i32 replyHeader_status errcode b.

(** The stores into the first twelve bytes of the reply buffer. *)
Definition base_header (send_len : Z) (reply : bytes) : bytes :=
  put_i32 baseHeader_length send_len (put_u64 baseHeader_version TCP_HEADER_VERSION reply).

Section request.
Context {E St : Type} {hooks : ServerHooks E St}.

(** From the [try] to the end of the [catch], for one client. *)
Definition serve_request (e : E) (stack : bytes) (evs : list event) (plan : list accept)
    (request reply : bytes) (s : St) : outcome (served St) :=
  let throw err sent plan request reply s :=
    let '(_, w, _) := q_sendbuf (error_reply stack err) plan in
    Ret (mkServed St (sent ++ w) request reply s (Some err)) in
  let '(r, got, evs) := q_recvbuf TCP_DEFAULT_HEADER_SIZE evs in
  let request := list_inserts 0 got request in
  if negb (r =? 0) then throw TCP_ERR_SOCKET_RECV [] plan request reply s
  else
    recv_len ← server_header (take (Z.to_nat TCP_DEFAULT_HEADER_SIZE) request) TCP_DEFAULT_HEADER_SIZE;
    if recv_len <? 0 then throw TCP_ERR_PACKET_HEADER [] plan request reply s
    else if (0 <? recv_len) && (Z.of_nat (length request) <? recv_len)
    then throw TCP_ERR_PACKET_LENGTH [] plan request reply s
    else
      let '(r, got, evs) := q_recvbuf recv_len evs in
      let request := list_inserts 0 got request in
      if negb (r =? 0) then throw TCP_ERR_SOCKET_RECV [] plan request reply s
      else
        res ← server_process e request recv_len (drop baseHeader_sizeof reply) s;
        let '(send_len, tail, s) := res in
        let reply := take baseHeader_sizeof reply ++ tail in
        if send_len <? 0 then throw send_len [] plan request reply s
        else
          let reply := base_header send_len reply in
          if 0 <? send_len then
            let '(r, w, plan) :=
              q_sendbuf (take (Z.to_nat send_len + baseHeader_sizeof) reply) plan in
            if negb (r =? 0) then throw TCP_ERR_SOCKET_SEND w plan request reply s
            else Ret (mkServed St w request reply s None)
          else Ret (mkServed St [] request reply s None).

(** What the framework relies on: the header function returns the announced
    length of a packet of this protocol and an error otherwise; processing a
    request that was received, into a reply area with room for a header,
    returns, keeps the area's size and stays within it. *)
Class ServerLaws : Prop := {
  server_header_spec : forall h, length h = 12%nat ->
    exists r, server_header h 12 = Ret r /\
      if get_u64 baseHeader_version h =? TCP_HEADER_VERSION
      then r = get_i32 baseHeader_length h else r < 0;
  server_process_spec : forall e request n reply s,
    0 < n <= Z.of_nat (length request) -> (24 < length reply)%nat ->
    exists r reply' s', server_process e request n reply s = Ret (r, reply', s') /\
      length reply' = length reply /\ r <= Z.of_nat (length reply)
}.

(** ** What is sent *)

Lemma error_reply_bytes stack err :
  length stack = 32%nat ->
  error_reply stack err =
  le_encode 8 TCP_HEADER_VERSION ++ le_encode 4 20 ++ slice 12 14 stack ++
  le_encode 2 TCP_DEFAULT_COMMAND_TYPE ++ le_encode 4 err.
Proof.
  intros Hl. unfold error_reply, put_u64, put_i32, put_u16.
  destruct (cut_at 8 stack) as (m0 & r0 & -> & H0 & R0); [lia|]. rewrite Hl in R0.
  destruct (cut_at 4 r0) as (m1 & r1 & -> & H1 & R1); [lia|]. rewrite R0 in R1.
  destruct (cut_at 14 r1) as (m2 & r2 & -> & H2 & R2); [lia|]. rewrite R1 in R2.
  destruct (cut_at 2 r2) as (m3 & m4 & -> & H3 & R3); [lia|]. rewrite R2 in R3.
  clear Hl R0 R1 R2. layout.
  do 2 f_equal. rewrite (app_assoc m0 m1). rewrite slice_app_exact by len. done.
Qed.

Lemma length_error_reply stack err : length (error_reply stack err) = length stack.
Proof. unfold error_reply. by rewrite ?length_put_i32, ?length_put_u16, ?length_put_i32, ?length_put_u64. Qed.

Lemma error_reply_sent stack err plan :
  length stack = 32%nat -> send_ok plan = true ->
  exists plan', q_sendbuf (error_reply stack err) plan = (0, error_reply stack err, plan').
Proof.
  intros Hl Hp. destruct (q_sendbuf_complete (error_reply stack err) plan) as (p & -> & _); eauto.
  intros Hn. apply (f_equal length) in Hn. rewrite length_error_reply in Hn. cbn in Hn. lia.
Qed.

Lemma base_header_bytes n reply :
  (12 <= length reply)%nat ->
  base_header n reply = le_encode 8 TCP_HEADER_VERSION ++ le_encode 4 n ++ drop 12 reply.
Proof.
  intros Hl. unfold base_header, put_i32, put_u64.
  destruct (cut_at 8 reply) as (m0 & r0 & -> & H0 & R0); [lia|].
  destruct (cut_at 4 r0) as (m1 & r1 & -> & H1 & R1); [len|].
  rewrite (app_assoc m0), drop_app_length' by len. rewrite <- app_assoc. by layout.
Qed.

(** ** Admission of a request *)

(** The code a request is refused with before it is processed, from the bytes
    that arrive and the size of the request buffer. *)
Definition admission (avail : bytes) (size : Z) : option Z :=
  let n := get_i32 baseHeader_length (take 12 avail) in
  if (length avail <? 12)%nat then Some TCP_ERR_SOCKET_RECV
  else if negb (get_u64 baseHeader_version (take 12 avail) =? TCP_HEADER_VERSION) || (n <? 0)
  then Some TCP_ERR_PACKET_HEADER
  else if size <? n then Some TCP_ERR_PACKET_LENGTH
  else if Z.of_nat (length avail) - 12 <? n then Some TCP_ERR_SOCKET_RECV
  else None.

Context {laws : ServerLaws}.

Lemma server_header_take avail :
  (12 <= length avail)%nat ->
  exists r, server_header (take 12 avail) 12 = Ret r /\
    if get_u64 baseHeader_version (take 12 avail) =? TCP_HEADER_VERSION
    then r = get_i32 baseHeader_length (take 12 avail) else r < 0.
Proof. intros H. apply server_header_spec. rewrite length_take. lia. Qed.

Lemma serve_request_refused e stack evs plan request reply s err :
  length stack = 32%nat -> (12 <= length request)%nat -> send_ok plan = true ->
  admission (stream evs) (Z.of_nat (length request)) = Some err ->
  exists request', length request' = length request /\
    serve_request e stack evs plan request reply s =
    Ret (mkServed St (error_reply stack err) request' reply s (Some err)).
Proof.
  intros Hst Hrq Hp. unfold admission, serve_request.
  destruct (error_reply_sent stack err plan Hst Hp) as [plan' Hsend].
  destruct (Nat.ltb_spec (length (stream evs)) 12) as [Hs|Hs].
  { intros [= <-]. destruct (q_recvbuf_short 12 evs) as [evs' ->]; [lia|].
    cbn [fst Z.eqb negb]. rewrite Hsend. eexists. split; [|done]. len. }
  destruct (q_recvbuf_complete 12 evs) as (evs' & -> & Hs'); [lia..|].
  change (Z.to_nat 12) with 12%nat. cbn [Z.eqb negb].
  set (hdr := take 12 (stream evs)) in *.
  assert (length hdr = 12%nat) as Hh by (unfold hdr; len).
  rewrite inserts_zero by lia. rewrite take_app_length' by done.
  destruct (server_header_take _ Hs) as (n & Hsh & Hn). fold hdr in Hsh, Hn. rewrite Hsh.
  cbn [mbind outcome_bind].
  destruct (get_u64 baseHeader_version hdr =? TCP_HEADER_VERSION); cbn [negb orb].
  2:{ intros [= <-]. destruct (Z.ltb_spec n 0); [|lia]. rewrite Hsend. eexists. split; [|done]. len. }
  subst n. set (n := get_i32 baseHeader_length hdr) in *.
  destruct (Z.ltb_spec n 0).
  { intros [= <-]. rewrite Hsend. eexists. split; [|done]. len. }
  assert (length (hdr ++ drop (length hdr) request) = length request) as Hrq' by len. rewrite Hrq'.
  destruct (Z.ltb_spec (Z.of_nat (length request)) n).
  { intros [= <-]. destruct (Z.ltb_spec 0 n); [|lia]. cbn [andb]. rewrite Hsend.
    eexists. split; [exact Hrq'|done]. }
  rewrite andb_false_r. destruct (Z.ltb_spec (Z.of_nat (length (stream evs)) - 12) n); [|done].
  intros [= <-]. destruct (q_recvbuf_short n evs') as [evs'' ->].
  { rewrite Hs'. change (Z.to_nat 12) with 12%nat. len. }
  cbn [Z.eqb negb]. rewrite Hsend. eexists. split; [|done]. by rewrite length_inserts.
Qed.

(** C9. A request that cannot be received, is not of this protocol or does not
    fit the request buffer is never processed: the state is unchanged and
    exactly one error packet with the code of the first failing check is
    sent. *)
Theorem serve_request_refuses e stack evs plan request reply s err :
  length stack = 32%nat -> (12 <= length request)%nat -> send_ok plan = true ->
  admission (stream evs) (Z.of_nat (length request)) = Some err ->
  exists request', length request' = length request /\
    serve_request e stack evs plan request reply s =
    Ret (mkServed St (error_reply stack err) request' reply s (Some err)).
Proof. apply serve_request_refused. Qed.

(** The request buffer after the header and then [n] bytes of content. *)
Definition received (avail : bytes) (n : nat) (request : bytes) : bytes :=
  list_inserts 0 (slice 12 n avail) (take 12 avail ++ drop 12 request).

(** What an admitted request of [n] bytes leads to. *)
Lemma serve_request_admitted e stack evs plan request reply s n :
  (12 <= length request)%nat ->
  admission (stream evs) (Z.of_nat (length request)) = None ->
  n = get_i32 baseHeader_length (take 12 (stream evs)) -> 0 < n ->
  (36 < length reply)%nat -> length stack = 32%nat -> send_ok plan = true ->
  exists r tail s', server_process e (received (stream evs) (Z.to_nat n) request) n (drop 12 reply) s =
      Ret (r, tail, s') /\ length tail = (length reply - 12)%nat /\ r <= Z.of_nat (length tail) /\
    exists reply', length reply' = length reply /\
    serve_request e stack evs plan request reply s =
    Ret (mkServed St
      (if r <? 0 then error_reply stack r
       else if r =? 0 then []
       else le_encode 8 TCP_HEADER_VERSION ++ le_encode 4 r ++ take (Z.to_nat r) tail)
      (received (stream evs) (Z.to_nat n) request) reply' s' (if r <? 0 then Some r else None)).
Proof.
  intros Hrq Hadm -> Hn Hrp Hst Hp. unfold serve_request.
  unfold admission in Hadm. destruct (Nat.ltb_spec (length (stream evs)) 12) as [|Hs]; [done|].
  destruct (q_recvbuf_complete 12 evs) as (evs' & -> & Hs'); [lia..|].
  change (Z.to_nat 12) with 12%nat in *. cbn [Z.eqb negb].
  assert (length (take 12 (stream evs)) = 12%nat) as Hh by len.
  rewrite inserts_zero by lia. rewrite Hh, take_app_length' by done.
  destruct (server_header_take _ Hs) as (n & -> & Hn'). cbn [mbind outcome_bind].
  destruct (get_u64 baseHeader_version (take 12 (stream evs)) =? TCP_HEADER_VERSION); [|done].
  cbn [negb orb] in Hadm. subst n. set (n := get_i32 baseHeader_length (take 12 (stream evs))) in *.
  destruct (Z.ltb_spec n 0); [done|].
  assert (length (take 12 (stream evs) ++ drop 12 request) = length request) as Hrq' by len. rewrite Hrq'.
  destruct (Z.ltb_spec (Z.of_nat (length request)) n); [done|]. rewrite andb_false_r.
  destruct (Z.ltb_spec (Z.of_nat (length (stream evs)) - 12) n); [done|].
  destruct (q_recvbuf_complete n evs') as (evs'' & -> & _); [lia|rewrite Hs'; len|].
  cbn [Z.eqb negb]. rewrite Hs'. fold (slice 12 (Z.to_nat n) (stream evs)).
  fold (received (stream evs) (Z.to_nat n) request).
  change baseHeader_sizeof with 12%nat.
  assert (length (received (stream evs) (Z.to_nat n) request) = length request) as Hrc.
  { unfold received. by rewrite length_inserts. }
  destruct (server_process_spec e (received (stream evs) (Z.to_nat n) request) n (drop 12 reply) s)
    as (r & tail & s' & Hpr & Ht & Hr); [lia|len|]. rewrite Hpr. cbn [mbind outcome_bind].
  rewrite length_drop in Ht.
  eexists _, _, _. split; [done|]. split; [done|]. split; [len|].
  destruct (Z.ltb_spec r 0).
  - destruct (error_reply_sent stack r plan Hst Hp) as [plan' ->]. eexists. split; [|done]. len.
  - assert (length (take 12 reply) = 12%nat) as H12 by len.
    rewrite base_header_bytes by len. rewrite drop_app_length' by done.
    destruct (Z.eqb_spec r 0) as [->|Hr0].
    + cbn [Z.ltb Z.compare]. eexists. split; [|done]. len.
    + destruct (Z.ltb_spec 0 r); [|lia].
      assert (take (Z.to_nat r + 12) (le_encode 8 TCP_HEADER_VERSION ++ le_encode 4 r ++ tail) =
              le_encode 8 TCP_HEADER_VERSION ++ le_encode 4 r ++ take (Z.to_nat r) tail) as ->.
      { rewrite (app_assoc (le_encode 8 _)), Nat.add_comm, take_app_add'; [by rewrite <- app_assoc|len]. }
      destruct (q_sendbuf_complete (le_encode 8 TCP_HEADER_VERSION ++ le_encode 4 r ++ take (Z.to_nat r) tail) plan)
        as (plan' & -> & _); [done|done|]. cbn [Z.eqb negb]. eexists. split; [|done]. len.
Qed.

End request.
End Server.
