(* ===== verification/IdfsProcess.v ===== *)
(** * IdfsProcess: the request format of the image server

    [server_header] and [server_process] of src/src/idfsserver.cc, which
    check and unpack a request and pack the reply of [server_main].  They are
    an instance of the hooks of the framework, with its laws. *)

From S2P Require Import Prelude CLib FileSystem MongoClient Sockets Protocol TcpServer IdfsServer.

Module Process.
Import Fs Mongo Sock Proto Server Idfs.

(** [header_len] is the size of the header, asserted to be that of
    [baseHeader]. *)
Definition idfs_header (header : bytes) (header_len : Z) : outcome Z :=
  ASSERT header_len =? Z.of_nat baseHeader_sizeof THEN
  if negb (get_u64 baseHeader_version header =? TCP_HEADER_VERSION)
  then Ret TCP_ERR_SOCKET_VERSION
  else Ret (get_i32 baseHeader_length header).

(** Where the operation, the data length and the data of a request are, and
    the length and the data of a reply. *)
Abbreviation operate_off := (requestParam_sizeof)%nat (only parsing).
Abbreviation data_len_off := (requestParam_sizeof + 2)%nat (only parsing).
Abbreviation data_off := (requestParam_sizeof + 2 + 4)%nat (only parsing).
Abbreviation reply_data_off := (replyParam_sizeof + 4)%nat (only parsing).

Section process.
Context {Db : Type} {driver : MongoDriver Db}.
Variable cfg : IDFSConfig.
Variable decode_image : bytes -> option (Z * Z).

(** [request] is the whole request buffer, of which [request_len] bytes were
    received; [reply] is the reply area. *)
Definition idfs_process (e : env) (request : bytes) (request_len : Z) (reply : bytes) (s : fs * Db) :
    outcome (Z * bytes * (fs * Db)) :=
  ASSERT 0 <? request_len THEN
  ASSERT 0 <? Z.of_nat (length reply) THEN
  if negb (get_u16 requestParam_protocol_type request =? TCP_DEFAULT_PROTOCOL_TYPE)
  then Ret (TCP_ERR_PROTOCOL_TYPE, reply, s)
  else if negb (get_u16 requestParam_source_type request =? TCP_DEFAULT_COMMAND_TYPE)
  then Ret (TCP_ERR_SOURCE_TYPE, reply, s)
  else if get_u16 requestParam_command_type request =? TCP_DEFAULT_OPERATE_TYPE then
    let operate_type := get_u16 operate_off request in
    let data_len := get_i32 data_len_off request in
    if (0 <? data_len) && (Z.of_nat data_off + data_len =? request_len) then
      let data := slice data_off (Z.to_nat data_len) request in
      let reply := put_i32 replyParam_status 0 reply in
      let reply := put_u16 replyParam_command_type (get_u16 requestParam_command_type request) reply in
      res ← server_main cfg decode_image e operate_type data (drop reply_data_off reply) s.1 s.2;
      let '(ret, s') := res in
      let reply := take reply_data_off reply ++ out s' in
      if ret <? 0 then Ret (ret, reply, (disk s', db s'))
      else Ret (Z.of_nat reply_data_off + ret, put_i32 replyParam_sizeof ret reply, (disk s', db s'))
    else Ret (TCP_ERR_DATA_LENGTH, reply, s)
  else Ret (TCP_ERR_COMMAND_TYPE, reply, s).

#[global] Instance idfs_hooks : ServerHooks env (fs * Db) := {
  server_header := idfs_header;
  server_process := idfs_process
}.

Lemma idfs_header_spec h :
  exists r, idfs_header h 12 = Ret r /\
    if get_u64 baseHeader_version h =? TCP_HEADER_VERSION
    then r = get_i32 baseHeader_length h else r < 0.
Proof.
  unfold idfs_header. cbn [Z.of_nat baseHeader_sizeof q_assert Z.eqb Pos.eqb].
  destruct (_ =? TCP_HEADER_VERSION); cbn [negb]; eexists; split; try done.
Qed.

(** The parameters of a request name an operation of this server. *)
Definition params_ok (request : bytes) : Prop :=
  get_u16 requestParam_protocol_type request = 1 /\ get_u16 requestParam_source_type request = 1 /\
  get_u16 requestParam_command_type request = 1.

(** The reply area after a [server_main] that returned [ret] and wrote [o]. *)
Definition reply_area (reply : bytes) (ret : Z) (o : bytes) : bytes :=
  let reply := take reply_data_off (put_u16 replyParam_command_type 1 (put_i32 replyParam_status 0 reply)) ++ o in
  if ret <? 0 then reply else put_i32 replyParam_sizeof ret reply.

Local Ltac refused := eexists; split; [|reflexivity]; reflexivity.

(** [server_main] is run on the data of a well-formed request, and its output
    is packed behind the parameters of the reply. *)
Lemma idfs_process_runs e request n reply s :
  params_ok request -> get_i32 data_len_off request = n - 26 ->
  26 < n <= Z.of_nat (length request) -> (24 < length reply)%nat ->
  exists ret s', server_main cfg decode_image e (get_u16 operate_off request)
      (slice data_off (Z.to_nat (n - 26)) request) (drop 24 reply) s.1 s.2 = Ret (ret, s') /\
    length (out s') = (length reply - 24)%nat /\
    (ret < 0 \/ 0 <= ret < Z.of_nat (length reply - 24)) /\
    idfs_process e request n reply s =
    Ret (if ret <? 0 then ret else 24 + ret, reply_area reply ret (out s'), (disk s', db s')).
Proof.
  intros (Hp & Hs & Hc) Hd Hn Hr. unfold idfs_process, q_assert.
  destruct (Z.ltb_spec 0 n); [|lia]. destruct (Z.ltb_spec 0 (Z.of_nat (length reply))); [|lia].
  rewrite Hp, Hs, Hc, Hd. cbn [negb Z.eqb Pos.eqb].
  destruct (Z.ltb_spec 0 (n - 26)); [|lia]. change (Z.of_nat data_off) with 26.
  destruct (Z.eqb_spec (26 + (n - 26)) n); [|lia]. cbn [andb]. change reply_data_off with 24%nat.
  set (reply1 := put_u16 _ 1 (put_i32 _ 0 reply)).
  assert (length reply1 = length reply) as Hl1 by (unfold reply1; by rewrite length_put_u16, length_put_i32).
  assert (drop 24 reply1 = drop 24 reply) as ->.
  { unfold reply1, put_u16, put_i32.
    by rewrite !drop_inserts_lt by len. }
  destruct (server_main_total cfg decode_image e (get_u16 operate_off request)
    (slice data_off (Z.to_nat (n - 26)) request) (drop 24 reply) s.1 s.2) as (ret & s' & Hm & _ & _ & Hlo & Hret).
  - intros Hnil. apply (f_equal length) in Hnil. unfold requestParam_sizeof in Hnil.
    rewrite length_slice in Hnil by lia. cbn [length] in Hnil. lia.
  - intros Hnil. apply (f_equal length) in Hnil. rewrite length_drop in Hnil. cbn [length] in Hnil. lia.
  - rewrite length_drop in *. exists ret, s'. split; [done|]. split; [done|]. split; [lia|].
    rewrite Hm. cbn [mbind outcome_bind]. unfold reply_area. fold reply1. change reply_data_off with 24%nat.
    by destruct (ret <? 0).
Qed.

(** Any other request is refused without effect. *)
Lemma idfs_process_refuses e request n reply s :
  0 < n -> (24 < length reply)%nat ->
  ~ (params_ok request /\ 26 < n /\ get_i32 data_len_off request = n - 26) ->
  exists err, err < 0 /\ idfs_process e request n reply s = Ret (err, reply, s).
Proof.
  intros Hn Hr Hno. unfold idfs_process, q_assert.
  destruct (Z.ltb_spec 0 n); [|lia]. destruct (Z.ltb_spec 0 (Z.of_nat (length reply))); [|lia].
  destruct (Z.eqb_spec (get_u16 requestParam_protocol_type request) TCP_DEFAULT_PROTOCOL_TYPE) as [Hp|];
    cbn [negb]; [|refused].
  destruct (Z.eqb_spec (get_u16 requestParam_source_type request) TCP_DEFAULT_COMMAND_TYPE) as [Hs|];
    cbn [negb]; [|refused].
  destruct (Z.eqb_spec (get_u16 requestParam_command_type request) TCP_DEFAULT_OPERATE_TYPE) as [Hc|];
    [|refused].
  change (Z.of_nat data_off) with 26.
  destruct (Z.ltb_spec 0 (get_i32 data_len_off request)); cbn [andb]; [|refused].
  destruct (Z.eqb_spec (26 + get_i32 data_len_off request) n); [|refused].
  exfalso. apply Hno. split; [by split|]. lia.
Qed.

Lemma params_dec request n :
  {params_ok request /\ 26 < n /\ get_i32 data_len_off request = n - 26} +
  {~ (params_ok request /\ 26 < n /\ get_i32 data_len_off request = n - 26)}.
Proof. unfold params_ok. apply decide. apply _. Qed.

Lemma length_reply_area reply ret o :
  (24 <= length reply)%nat -> length (reply_area reply ret o) = (24 + length o)%nat.
Proof.
  intros H. unfold reply_area. destruct (ret <? 0); rewrite ?length_put_i32, length_app, length_take,
    length_put_u16, length_put_i32; unfold replyParam_sizeof; lia.
Qed.

#[global] Instance idfs_laws : ServerLaws.
Proof.
  split.
  - intros h _. apply idfs_header_spec.
  - intros e request n reply s Hn Hr. cbn.
    destruct (params_dec request n) as [(Hp & Hn' & Hd)|Hno].
    + destruct (idfs_process_runs e request n reply s Hp Hd) as (ret & s' & _ & Hl & Hret & ->); [lia..|].
      eexists _, _, _. split; [done|]. rewrite length_reply_area, Hl by lia.
      split; [lia|]. destruct (Z.ltb_spec ret 0); lia.
    + destruct (idfs_process_refuses e request n reply s) as (err & Herr & ->); [lia|done..|].
      eexists _, _, _. repeat split; lia.
Qed.

(** ** Stale contents of the request buffer *)

Lemma slice_prefix off len n (r1 r2 : bytes) :
  take n r1 = take n r2 -> (off + len <= n)%nat -> slice off len r1 = slice off len r2.
Proof.
  intros H Hn. apply slice_ext. intros i Hi.
  rewrite <- (lookup_take_lt r1 n i), <- (lookup_take_lt r2 n i) by lia. by rewrite H.
Qed.

Lemma idfs_process_prefix e r1 r2 n reply s :
  take (Z.to_nat n) r1 = take (Z.to_nat n) r2 ->
  0 < n <= Z.of_nat (length r1) -> n <= Z.of_nat (length r2) -> (24 < length reply)%nat ->
  params_ok r1 -> 26 < n -> get_i32 data_len_off r1 = n - 26 ->
  idfs_process e r1 n reply s = idfs_process e r2 n reply s /\
  (params_ok r2 /\ 26 < n /\ get_i32 data_len_off r2 = n - 26).
Proof.
  intros Ht H1 H2 Hr Hp Hn Hd.
  assert (forall off len, (off + len <= Z.to_nat n)%nat -> slice off len r1 = slice off len r2) as Hs
    by (intros; by apply (slice_prefix _ _ (Z.to_nat n))).
  assert (forall off, (off <= 24)%nat -> get_u16 off r1 = get_u16 off r2) as H16
    by (intros off ?; unfold get_u16; rewrite Hs; [done|lia]).
  assert (get_i32 data_len_off r1 = get_i32 data_len_off r2) as Hi
    by (unfold get_i32; rewrite Hs; [done|unfold requestParam_sizeof; lia]).
  assert (params_ok r2 /\ 26 < n /\ get_i32 data_len_off r2 = n - 26) as (Hp2 & _ & Hd2).
  { unfold params_ok in *.
    rewrite <- !H16, <- Hi by lia. done. }
  destruct (idfs_process_runs e r1 n reply s) as (ret & s' & Hm & _ & _ & ->); [done..|lia|done|].
  destruct (idfs_process_runs e r2 n reply s) as (ret2 & s2 & Hm2 & _ & _ & ->); [done..|lia|done|].
  rewrite H16, Hs in Hm by (unfold requestParam_sizeof; lia).
  rewrite Hm in Hm2. by injection Hm2 as <- <-.
Qed.

(** C10. What an earlier client left in the shared request buffer never reaches
    a reply: two buffers that agree on the bytes received give the same reply
    and effects, or both requests are refused without effect. *)
Theorem idfs_process_no_stale e r1 r2 n reply s :
  take (Z.to_nat n) r1 = take (Z.to_nat n) r2 ->
  0 < n <= Z.of_nat (length r1) -> n <= Z.of_nat (length r2) -> (24 < length reply)%nat ->
  idfs_process e r1 n reply s = idfs_process e r2 n reply s \/
  (exists err1 err2, err1 < 0 /\ err2 < 0 /\
    idfs_process e r1 n reply s = Ret (err1, reply, s) /\
    idfs_process e r2 n reply s = Ret (err2, reply, s)).
Proof.
  intros Ht H1 H2 Hr.
  destruct (params_dec r1 n) as [(Hp & Hn & Hd)|Hno1].
  { left. by apply idfs_process_prefix. }
  destruct (params_dec r2 n) as [(Hp & Hn & Hd)|Hno2].
  { left. symmetry. apply idfs_process_prefix; [done|lia|lia|done..]. }
  right. destruct (idfs_process_refuses e r1 n reply s) as (err1 & ? & ->); [lia|done..|].
  destruct (idfs_process_refuses e r2 n reply s) as (err2 & ? & ->); [lia|done..|]. eauto 8.
Qed.

(** ** Requests that end the process *)

Lemma admission_length avail size :
  admission avail size = None ->
  (12 <= length avail)%nat /\ get_u64 baseHeader_version (take 12 avail) = TCP_HEADER_VERSION /\
  0 <= get_i32 baseHeader_length (take 12 avail).
Proof.
  unfold admission. destruct (Nat.ltb_spec (length avail) 12); [done|].
  destruct (Z.eqb_spec (get_u64 baseHeader_version (take 12 avail)) TCP_HEADER_VERSION); [|done].
  destruct (Z.ltb_spec (get_i32 baseHeader_length (take 12 avail)) 0); done.
Qed.

Lemma serve_request_empty e stack evs plan request reply s :
  (12 <= length request)%nat -> clean evs = true ->
  admission (stream evs) (Z.of_nat (length request)) = None ->
  get_i32 baseHeader_length (take 12 (stream evs)) = 0 ->
  serve_request (hooks := idfs_hooks) e stack evs plan request reply s = Abort.
Proof.
  intros Hrq Hc Hadm Hn. destruct (admission_length _ _ Hadm) as (Hs & Hv & _).
  unfold serve_request. pose proof (q_recvbuf_clean 12 evs Hc) as Hc'.
  destruct (q_recvbuf_complete 12 evs) as (evs' & Eq & _); [lia..|]. rewrite Eq in Hc' |- *.
  cbn [snd Z.eqb negb] in *. change (Z.to_nat 12) with 12%nat.
  assert (length (take 12 (stream evs)) = 12%nat) as Hh by len.
  rewrite inserts_zero, Hh, take_app_length' by lia.
  destruct (idfs_header_spec (take 12 (stream evs))) as (r & Hr & Hr'). rewrite Hv, Z.eqb_refl, Hn in Hr'.
  cbn [server_header idfs_hooks]. rewrite Hr, Hr'. cbn [mbind outcome_bind Z.ltb Z.compare andb].
  rewrite q_recvbuf_zero by by destruct evs' as [|[] ?]. done.
Qed.

(** C39. The only requests that end the server process are those that announce
    an empty content: over a connection without errors, serving a request
    aborts exactly when the announced length is 0. *)
Theorem serve_request_abort_iff e stack evs plan request reply s :
  length stack = 32%nat -> (12 <= length request)%nat -> (36 < length reply)%nat ->
  send_ok plan = true -> clean evs = true ->
  serve_request (hooks := idfs_hooks) e stack evs plan request reply s = Abort <->
  admission (stream evs) (Z.of_nat (length request)) = None /\
  get_i32 baseHeader_length (take 12 (stream evs)) = 0.
Proof.
  intros Hst Hrq Hrp Hp Hc. split; [|intros []; by apply serve_request_empty].
  intros Ha. destruct (admission (stream evs) (Z.of_nat (length request))) as [err|] eqn:Hadm.
  - destruct (serve_request_refused e stack evs plan request reply s err) as (rq & _ & E); [done..|].
    rewrite E in Ha. done.
  - split; [done|]. destruct (admission_length _ _ Hadm) as (_ & _ & Hn).
    destruct (Z.eqb_spec (get_i32 baseHeader_length (take 12 (stream evs))) 0); [done|].
    destruct (serve_request_admitted e stack evs plan request reply s _ Hrq Hadm eq_refl)
      as (r & tail & s' & _ & _ & _ & reply' & _ & E); [lia|done..|]. rewrite E in Ha. done.
Qed.

End process.

(** A header with no content behind it, and one of another protocol. *)
Definition empty_request : list event :=
  [Data x59 (drop 1 (le_encode 8 TCP_HEADER_VERSION) ++ le_encode 4 0)].
Definition http_request : list event := [Data x47 (str "ET / HTTP/1.1")].

Lemma idfs_process_no_stale_witness :
  let r1 := le_encode 2 1 ++ replicate 80 x00 in let r2 := le_encode 2 1 ++ replicate 80 x01 in
  idfs_process (Db := store) cfg0 decode0 env0 r1 2 (replicate 100 x00) (disk0, ∅) =
  idfs_process cfg0 decode0 env0 r2 2 (replicate 100 x00) (disk0, ∅) \/
  (exists err1 err2, err1 < 0 /\ err2 < 0 /\
    idfs_process cfg0 decode0 env0 r1 2 (replicate 100 x00) (disk0, ∅ : store) =
      Ret (err1, replicate 100 x00, (disk0, ∅)) /\
    idfs_process cfg0 decode0 env0 r2 2 (replicate 100 x00) (disk0, ∅ : store) =
      Ret (err2, replicate 100 x00, (disk0, ∅))).
Proof.
  intros r1 r2. apply (idfs_process_no_stale cfg0 decode0 env0 r1 r2 2 (replicate 100 x00) (disk0, ∅ : store));
    [reflexivity|cbn; lia|cbn; lia|cbn; lia].
Defined.

Lemma serve_request_abort_iff_witness :
  serve_request (hooks := idfs_hooks (Db := store) cfg0 decode0) env0 (replicate 32 x00) empty_request []
    (replicate 40 x00) (replicate 100 x00) (disk0, ∅) = Abort.
Proof.
  apply (serve_request_abort_iff cfg0 decode0 env0 (replicate 32 x00) empty_request []
    (replicate 40 x00) (replicate 100 x00) (disk0, ∅ : store)); [done|cbn; lia|cbn; lia|done|done|].
  split; reflexivity.
Defined.

Lemma serve_request_refuses_witness :
  exists request', length request' = 40%nat /\
    serve_request (hooks := idfs_hooks (Db := store) cfg0 decode0) env0 (replicate 32 xab) http_request [Take 3]
      (replicate 40 x00) [] (disk0, ∅) =
    Ret (mkServed _ (error_reply (replicate 32 xab) (-16)) request' [] (disk0, ∅) (Some (-16))).
Proof.
  apply (serve_request_refuses (laws := idfs_laws cfg0 decode0) env0 (replicate 32 xab) http_request [Take 3]
    (replicate 40 x00) [] (disk0, ∅ : store) (-16)); [done|cbn; lia|done|reflexivity].
Defined.

End Process.
