(* ===== verification/IdfsInit.v ===== *)
(** * IdfsInit: start-up of the image server

    [IDFSServer::initialize] and [release] of src/src/idfsserver.cc: the
    settings are read, the image directory and its numbered subdirectories
    are created, the database client is connected.  The theorems say that the
    directories the server later writes to exist. *)

From S2P Require Import Prelude CLib ConfigReader FileSystem MongoClient StringUtil Protocol IdfsServer.

Module Startup.
Import Config Fs Proto Idfs StrUtil.

(** [new(std::nothrow) QMongoClient(uri)]: without memory it is NULL;
    otherwise the constructor asserts that the driver is initialised, the
    address is valid and the connection is made. *)
Record mongo_env : Type := mkMongoEnv {
  client_memory : bool;
  driver_initialized : bool;
  uri_valid : bytes -> bool;
  connects : bytes -> bool
}.

Definition QMongoClient_new {A} (m : mongo_env) (uri : bytes) (null k : outcome A) : outcome A :=
  if negb (client_memory m) then null else
  ASSERT driver_initialized m THEN ASSERT uri_valid m uri THEN ASSERT connects m uri THEN k.

(** The text of [directory], of 1024 bytes. *)
Definition subdir_path (img_path img_dir : bytes) (i : Z) : bytes :=
  cstr (snprintf_out 1024 (cstr img_path ++ [SLASH] ++ cstr img_dir ++ [SLASH] ++ fmt_03d i)).

(** The loop [for(i=0; i<img_subdir_num_; i++)], [n] rounds from [i] on;
    [None] when a path overruns the buffer of [QDir]. *)
Fixpoint mkdir_subdirs (n : nat) (i : Z) (img_path img_dir : bytes) (f : fs) : option (Z * fs) :=
  match n with
  | O => Some (TCP_OK, f)
  | S n =>
      '(ok, f) ← QDir_mkdir (subdir_path img_path img_dir i) f;
      if ok : bool then mkdir_subdirs n (i + 1) img_path img_dir f else Some (TCP_ERR, f)
  end.

(** Return value, configuration once read, disk.  [None] is an overrun.  The
    last step, [QNetworkAccessManager::global_init], always returns NET_OK. *)
Definition initialize (config : QConfigReader) (m : mongo_env) (old_num : Z) (f : fs) :
    option (outcome (Z * option IDFSConfig * fs)) :=
  let fails := Some (Ret (TCP_ERR, None, f)) in
  match getFieldString_dup (str "img-path") config with
  | (_, None) => fails
  | (_, Some img_path) =>
      match getFieldString_dup (str "img-dir") config with
      | (_, None) => fails
      | (_, Some img_dir) =>
          let '(ret, num) := getFieldInt32 (str "img-subdir-num") config old_num in
          if ret <? 0 then fails
          else
            match getFieldString_dup (str "mongo-uri") config with
            | (_, None) => fails
            | (_, Some uri) =>
                match getFieldString_dup (str "mongo-img-collection") config with
                | (_, None) => fails
                | (_, Some coll) =>
                    let cfg := mkConfig img_path img_dir num coll in
                    '(ok, f) ← QDir_mkdir img_path f;
                    if negb ok then Some (Ret (TCP_ERR, Some cfg, f))
                    else
                      '(ret, f) ← mkdir_subdirs (Z.to_nat num) 0 img_path img_dir f;
                      if ret <? 0 then Some (Ret (TCP_ERR, Some cfg, f))
                      else Some (QMongoClient_new m (cstr uri) (Ret (TCP_ERR, Some cfg, f))
                                   (Ret (TCP_OK, Some cfg, f)))
                end
            end
      end
  end.

(** What [release] leaves of the heap blocks of the configuration: of the four
    strings only [img_dir_] is not freed. *)
Inductive setting : Type := Img_path | Img_dir | Mongo_uri | Mongo_img_collection.
#[global] Instance setting_eq_dec : EqDecision setting.
Proof. solve_decision. Defined.

Definition release (live : list setting) : Z * list setting :=
  (TCP_OK, filter (fun x => x <> Img_path /\ x <> Mongo_uri /\ x <> Mongo_img_collection) live).

(** ** Names made of digits *)

Definition word_char (b : byte) : bool := negb (is_sep b || beqb b NUL || beqb b x2e).

Lemma digit_word d : 0 <= d < 16 -> word_char (digit_char d) = true.
Proof.
  intros H. assert (forallb (fun d => word_char (digit_char d)) (seqZ 0 16) = true) as Ha by by vm_compute.
  rewrite forallb_forall in Ha. apply Ha. apply list_elem_of_In, elem_of_seqZ. lia.
Qed.

Lemma word_comp_ok s :
  s <> [] -> Forall (fun b => word_char b = true) s -> comp_ok s.
Proof.
  intros Hne Hs. split.
  - unfold plain. destruct s as [|b s]; [done|]. apply Forall_inv in Hs.
    rewrite !bool_decide_eq_false_2; [done|intros [= -> ->]; done|done].
  - eapply Forall_impl; [exact Hs|]. intros b. unfold word_char.
    destruct (is_sep b); [done|]. destruct (beqb_spec b NUL); done.
Qed.

Lemma fmt_u_word n : 0 <= n -> Forall (fun b => word_char b = true) (fmt_u n).
Proof.
  intros H. apply Forall_fmap. eapply Forall_impl; [apply (to_base_range 10 n); lia|].
  cbn. intros d ?. apply digit_word. lia.
Qed.

Lemma fmt_x_word n : 0 <= n -> Forall (fun b => word_char b = true) (fmt_x n).
Proof.
  intros H. apply Forall_fmap. eapply Forall_impl; [apply (to_base_range 16 n); lia|].
  cbn. intros d ?. apply digit_word. lia.
Qed.

Lemma fmt_03d_comp_ok i : 0 <= i -> comp_ok (fmt_03d i).
Proof.
  intros H. unfold fmt_03d, pad0. destruct (Z.ltb_spec i 0); [lia|]. apply word_comp_ok.
  - destruct (fmt_u i); [done|]. by destruct (replicate _ _).
  - apply Forall_app. split; [|by apply fmt_u_word]. by apply Forall_replicate.
Qed.

Lemma join_app a b : a <> [] -> b <> [] -> join (a ++ b) = join a ++ SLASH :: join b.
Proof.
  intros Ha Hb. induction a as [|c a IH]; [done|]. destruct a as [|d a].
  - cbn. by destruct b.
  - change (join ((c :: d :: a) ++ b)) with (c ++ SLASH :: join ((d :: a) ++ b)).
    rewrite IH by done. change (join (c :: d :: a)) with (c ++ SLASH :: join (d :: a)).
    by rewrite <- app_assoc.
Qed.

Lemma spell_app abs a b :
  a <> [] -> b <> [] -> spell (abs, a ++ b) = spell (abs, a) ++ SLASH :: join b.
Proof. intros. unfold spell. cbn [fst snd]. by rewrite join_app, app_assoc by done. Qed.

(** ** The directories of the images *)

Section directories.
Variables (abs : bool) (ps ds : list bytes).
Hypothesis Hps : Forall comp_ok ps.
Hypothesis Hds : Forall comp_ok ds.
Hypothesis Hps0 : ps <> [].
Hypothesis Hds0 : ds <> [].

(** The subdirectory number [i]. *)
Definition subdir (i : Z) : path_key := (abs, ps ++ ds ++ [fmt_03d i]).

Lemma subdir_comps i : 0 <= i -> Forall comp_ok (ps ++ ds ++ [fmt_03d i]).
Proof.
  intros. repeat (apply Forall_app; split; [done|]). constructor; [|done]. by apply fmt_03d_comp_ok.
Qed.

Lemma subdir_path_spell i :
  0 <= i -> Z.of_nat (length (spell (subdir i))) < 1024 ->
  subdir_path (spell (abs, ps)) (join ds) i = spell (subdir i).
Proof.
  intros Hi Hl. unfold subdir_path.
  rewrite (cstr_no_nul (spell (abs, ps))), (cstr_no_nul (join ds)) by auto using spell_no_nul, join_no_nul.
  assert (spell (abs, ps) ++ [SLASH] ++ join ds ++ [SLASH] ++ fmt_03d i = spell (subdir i)) as ->.
  { unfold subdir. rewrite spell_app, join_app by by destruct ds. done. }
  unfold snprintf_out. change (1024 <=? 0) with false. cbn iota. rewrite take_ge by lia.
  rewrite cstr_app_nul by (apply spell_no_nul; by apply subdir_comps). done.
Qed.

(** No regular file where the path of a subdirectory passes. *)
Definition free (n : Z) (f : fs) : Prop :=
  forall i, 0 <= i < n -> no_file f abs (ps ++ ds ++ [fmt_03d i]).

Lemma mkdir_keeps_free n f f' k :
  Forall comp_ok k -> k <> [] -> Z.of_nat (length (spell (abs, k))) < DIR_DEFAULT_PATH_SIZE ->
  no_file f abs k -> free n f ->
  QDir_mkdir (spell (abs, k)) f = Some (true, f') -> free n f'.
Proof.
  intros Hk Hne Hl Hnf Hfree E i Hi j c Hc.
  apply (QDir_mkdir_file _ _ _ _ Hk Hne Hl Hnf E) in Hc. by apply (Hfree i Hi j c).
Qed.

Lemma mkdir_subdirs_spec n i f :
  0 <= i -> free (i + Z.of_nat n) f ->
  (forall j, 0 <= j < i + Z.of_nat n -> Z.of_nat (length (spell (subdir j))) < DIR_DEFAULT_PATH_SIZE) ->
  exists f', mkdir_subdirs n i (spell (abs, ps)) (join ds) f = Some (TCP_OK, f') /\
    (forall j, i <= j < i + Z.of_nat n -> is_dir f' (subdir j) = true) /\
    (forall k m, f !! k = Some m -> f' !! k = Some m).
Proof.
  revert i f. induction n as [|n IH]; intros i f Hi Hfree Hlen.
  { exists f. repeat split; [|done]. intros. lia. }
  assert (0 <= i < i + Z.of_nat (S n)) as Hin by lia. pose proof (Hlen i Hin) as Hl.
  destruct (QDir_mkdir_ok abs (ps ++ ds ++ [fmt_03d i]) f) as (f1 & E1 & Hd1 & Hm1);
    [by apply subdir_comps|by destruct ps|done|by apply Hfree|].
  cbn [mkdir_subdirs]. rewrite subdir_path_spell by lia.
  unfold subdir. rewrite E1. cbn [mbind option_bind].
  destruct (IH (i + 1) f1) as (f2 & E2 & Hd2 & Hm2); [lia| |intros; apply Hlen; lia|].
  - replace (i + 1 + Z.of_nat n) with (i + Z.of_nat (S n)) by lia.
    eapply mkdir_keeps_free; [by apply (subdir_comps i)|by destruct ps|exact Hl|by apply Hfree|done|exact E1].
  - exists f2. split; [done|]. split; [|by eauto]. intros j Hj. destruct (decide (j = i)) as [->|Hne].
    + specialize (Hd1 (length (ps ++ ds ++ [fmt_03d i]))). rewrite firstn_all in Hd1.
      eapply is_dir_mono; [exact Hm2|exact Hd1].
    + apply Hd2. lia.
Qed.

Lemma length_fmt_03d i : 0 <= i < 2 ^ 31 -> (length (fmt_03d i) <= 10)%nat.
Proof.
  intros H. unfold fmt_03d, pad0. destruct (Z.ltb_spec i 0); [lia|].
  pose proof (length_fmt_u i 9 ltac:(lia)). len.
Qed.

Lemma length_subdir i :
  0 <= i < 2 ^ 31 ->
  (length (spell (subdir i)) <= length (spell (abs, ps)) + length (join ds) + 12)%nat.
Proof.
  intros Hi. unfold subdir. rewrite spell_app, join_app by (done || by destruct ds).
  pose proof (length_fmt_03d i Hi). cbn [join]. len.
Qed.

Lemma plain_long s : (2 <= length s)%nat -> plain s = true.
Proof.
  intros H. unfold plain. rewrite !bool_decide_eq_false_2; [done|intros ->; cbn in H; lia..].
Qed.

Lemma image_type_name_ok type :
  Forall (fun b => is_sep b = false /\ b <> NUL) (get_image_type_name type) /\
  length (get_image_type_name type) = 3%nat.
Proof. unfold get_image_type_name. cases; split; by repeat constructor. Qed.

(** The file of an image lies in the subdirectory of its digest. *)
Lemma image_path cfg e iid type :
  img_path_ cfg = spell (abs, ps) -> img_dir_ cfg = join ds -> is_u64 iid ->
  (length (spell (abs, ps)) + length (join ds) < 900)%nat ->
  exists name, comp_ok name /\
    cstr (local_path cfg e (file_path cfg e iid type)) =
    spell (abs, (ps ++ ds ++ [fmt_03d (iid mod 1000)]) ++ [name]).
Proof.
  intros Hp Hd Hi Hlen. pose proof (Z.mod_pos_bound iid 1000 ltac:(lia)) as Hk.
  set (name := fmt_x iid ++ [x2e] ++ get_image_type_name type).
  destruct (image_type_name_ok type) as [Hg Hg3].
  assert (comp_ok name) as Hname.
  { split.
    - apply plain_long. unfold name. rewrite !length_app, Hg3. cbn [length]. lia.
    - unfold name. apply Forall_app. split; [|apply Forall_app; split; [by repeat constructor|done]].
      eapply Forall_impl; [apply fmt_x_word, Hi|]. intros b. unfold word_char.
      destruct (is_sep b); [done|]. by destruct (beqb_spec b NUL). }
  assert (length name <= 20)%nat as Hln.
  { unfold name. pose proof (length_fmt_x iid 15 ltac:(destruct Hi; cbn; lia)).
    len. }
  exists name. split; [done|]. pose proof (length_fmt_03d (iid mod 1000) ltac:(lia)) as Hl3.
  assert (file_path cfg e iid type = join (ds ++ [fmt_03d (iid mod 1000)] ++ [name])) as Hfp.
  { unfold file_path. rewrite Hd, (cstr_no_nul (join ds)), i32_small by
      (apply join_no_nul; done) || (unfold is_i32, INT32_MIN, INT32_MAX; lia).
    rewrite q_format_short.
    - by rewrite join_app by done.
    - fold name. rewrite !length_app. cbn [length]. lia. }
  assert (Forall comp_ok (ds ++ [fmt_03d (iid mod 1000)] ++ [name])) as Hcs.
  { apply Forall_app. split; [done|]. constructor; [apply fmt_03d_comp_ok; lia|by constructor]. }
  assert (length (join (ds ++ [fmt_03d (iid mod 1000)] ++ [name])) <= length (join ds) + 32)%nat as Hlj.
  { rewrite join_app by done. cbn [join app]. len. }
  unfold local_path. rewrite Hfp, Hp, (cstr_no_nul (spell (abs, ps))) by by apply spell_no_nul.
  rewrite (cstr_no_nul (join _)) by by apply join_no_nul.
  assert (spell (abs, ps) ++ [SLASH] ++ join (ds ++ [fmt_03d (iid mod 1000)] ++ [name]) =
          spell (abs, (ps ++ ds ++ [fmt_03d (iid mod 1000)]) ++ [name])) as ->.
  { rewrite <- !app_assoc, spell_app by (done || by destruct ds). done. }
  rewrite q_format_short; [apply cstr_no_nul, spell_no_nul|].
  - rewrite <- !app_assoc. apply Forall_app. split; done.
  - rewrite <- !app_assoc, spell_app by (done || by destruct ds). rewrite length_app. cbn [length]. lia.
Qed.

(** A non-empty image is saved when its subdirectory exists. *)
Lemma save_image_in_dir cs name data f :
  Forall comp_ok (cs ++ [name]) -> is_dir f (abs, cs) = true -> data <> [] ->
  0 <= (save_image (spell (abs, cs ++ [name])) data None f).1.
Proof.
  intros Hok Hd Hne. unfold save_image.
  destruct (Z.leb_spec (Z.of_nat (length data)) 0); [destruct data; [done|cbn in *; lia]|].
  destruct (access f (spell (abs, cs ++ [name]))) eqn:Ha; [done|].
  unfold access in Ha. unfold fopen_w.
  rewrite canon_spell in * by (done || by destruct cs). rewrite parent_snoc, Hd.
  rewrite bool_decide_eq_false_2 in *.
  2,3: rewrite spell_snoc; intros E%app_eq_nil; destruct E as [_ ->];
    apply Forall_app in Hok as [_ Hc]; inversion Hc as [|?? [Hp _]]; done.
  destruct (find_node f (abs, cs ++ [name])); done.
Qed.

(** C7. After a successful [initialize] with at least 1000 subdirectories every
    image can be saved: whatever its digest and type, [save_image] on its path
    does not fail for want of a directory; and [initialize] does succeed when
    the settings are there, no file is in the way of the directories, their
    paths fit the 256 bytes of [QDir], the database accepts the connection and
    there is memory for its client; without that memory it returns TCP_ERR,
    with the directories made.  Whatever existed on the disk is left as it
    was. *)
Theorem initialize_ready config m old f num uri coll r1 r2 r3 r4 :
  getFieldString_dup (str "img-path") config = (r1, Some (spell (abs, ps))) ->
  getFieldString_dup (str "img-dir") config = (r2, Some (join ds)) ->
  getFieldInt32 (str "img-subdir-num") config old = (0, num) -> 1000 <= num < 2 ^ 31 ->
  getFieldString_dup (str "mongo-uri") config = (r3, Some uri) ->
  getFieldString_dup (str "mongo-img-collection") config = (r4, Some coll) ->
  (length (spell (abs, ps)) + length (join ds) < 244)%nat -> free num f ->
  driver_initialized m = true -> uri_valid m (cstr uri) = true -> connects m (cstr uri) = true ->
  exists cfg f', initialize config m old f =
      Some (Ret (if client_memory m then TCP_OK else TCP_ERR, Some cfg, f')) /\
    (forall k n, f !! k = Some n -> f' !! k = Some n) /\
    forall e iid type data, is_u64 iid -> data <> [] ->
      0 <= (save_image (cstr (local_path cfg e (file_path cfg e iid type))) data None f').1.
Proof.
  intros H1 H2 H3 Hnum H4 H5 Hlen Hfree Hm1 Hm2 Hm3.
  assert (no_file f abs ps) as Hnf.
  { intros i c. intros Hc. apply (Hfree 0 ltac:(lia) (i `min` length ps)%nat c).
    rewrite take_app_le by lia. rewrite <- Hc. f_equal. f_equal.
    destruct (Nat.le_gt_cases i (length ps)); [f_equal; lia|]. rewrite !take_ge by lia. done. }
  assert (Z.of_nat (length (spell (abs, ps))) < DIR_DEFAULT_PATH_SIZE) as Hl0
    by lia.
  destruct (QDir_mkdir_ok abs ps f) as (f1 & E1 & _ & Hmono1); [done..|].
  assert (forall j, 0 <= j < 0 + Z.of_nat (Z.to_nat num) ->
    Z.of_nat (length (spell (subdir j))) < DIR_DEFAULT_PATH_SIZE) as Hlens.
  { intros j Hj. pose proof (length_subdir j ltac:(lia)). lia. }
  destruct (mkdir_subdirs_spec (Z.to_nat num) 0 f1) as (f2 & E2 & Hdirs & Hmono2); [lia| |done|].
  { replace (0 + Z.of_nat (Z.to_nat num)) with num by lia. by apply (mkdir_keeps_free num f f1 ps). }
  exists (mkConfig (spell (abs, ps)) (join ds) num coll), f2. split; [|split; [by eauto|]].
  - unfold initialize. rewrite H1, H2, H3, H4, H5. change (0 <? 0) with false. cbn iota.
    rewrite E1. cbn [mbind option_bind negb]. rewrite E2. cbn [mbind option_bind].
    unfold QMongoClient_new, q_assert. rewrite Hm1, Hm2, Hm3. by destruct (client_memory m).
  - intros e iid type data Hi Hd. pose proof (Z.mod_pos_bound iid 1000 ltac:(lia)).
    destruct (image_path (mkConfig (spell (abs, ps)) (join ds) num coll) e iid type)
      as (name & Hname & ->); [done..|lia|].
    apply save_image_in_dir; [|apply Hdirs; lia|done].
    apply Forall_app. split; [apply subdir_comps; lia|by constructor].
Qed.

End directories.

(** The settings of conf/init.cnf. *)
Definition config0 : QConfigReader :=
  mkQConfigReader (Some (render
    [Comment (str "# Image storage path"); Entry (str "img-path") 1 1 (str "/data1/img") [];
     Entry (str "img-dir") 1 1 (str "img005") []; Entry (str "img-subdir-num") 1 1 (str "1000") [];
     Comment (str "# MongoDB configuration");
     Entry (str "mongo-uri") 1 1 (str "mongodb://192.168.1.91:27017") [];
     Entry (str "mongo-img-collection") 1 1 (str "IDDS.imgdb") []])).

Lemma initialize_ready_witness :
  exists cfg f', initialize config0 (mkMongoEnv true true (fun _ => true) (fun _ => true)) 0 ∅ =
      Some (Ret (TCP_OK, Some cfg, f')) /\
    0 <= (save_image (cstr (local_path cfg env0 (file_path cfg env0 123456789 2))) image0 None f').1.
Proof.
  destruct (initialize_ready true [str "data1"; str "img"] [str "img005"])
    with (config := config0) (m := mkMongoEnv true true (fun _ => true) (fun _ => true)) (old := 0)
         (f := ∅ : fs) (num := 1000) (uri := str "mongodb://192.168.1.91:27017") (coll := str "IDDS.imgdb")
         (r1 := 10) (r2 := 6) (r3 := 28) (r4 := 10) as (cfg & f' & H1 & _ & H2);
    [by repeat constructor|by repeat constructor|done|done|by_vm|by_vm|by_vm|lia|by_vm|by_vm|cbn; lia
    |intros i _ j c; by rewrite lookup_empty|done..|].
  exists cfg, f'. split; [exact H1|]. apply H2; [|done]. unfold is_u64. lia.
Defined.

End Startup.
