(* ===== verification/EndToEnd.v ===== *)
(** * EndToEnd: a client, the network and the image server

    The packet that [QTcpClient::sendRequest] puts on the wire, cut into any
    segments, is received by [work_thread], unpacked by [server_process] and
    answered by [server_main]; the reply, cut into any segments, is what
    [QTcpClient::getReply] returns. *)

From S2P Require Import Prelude CLib FileSystem MongoClient Sockets Protocol TcpClient TcpServer IdfsServer IdfsProcess.

Module Session.
Import Fs Mongo Sock Proto Client Server Idfs Process.

(** The part of a request packet after its header. *)
Definition request_body (c : QTcpClient) (reserved data : bytes) : bytes :=
  le_encode 2 (protocol_type_ c) ++ le_encode 2 (source_type_ c) ++ reserved ++
  le_encode 2 (command_type_ c) ++ le_encode 2 (operate_type_ c) ++
  le_encode 4 (Z.of_nat (length data)) ++ data.

(** The types a client of this server sends. *)
Definition client_ok (c : QTcpClient) : Prop :=
  protocol_type_ c = 1 /\ source_type_ c = 1 /\ command_type_ c = 1 /\ is_u16 (operate_type_ c).

Lemma request_packet_body c reserved data :
  request_packet c reserved data =
  le_encode 8 TCP_HEADER_VERSION ++ le_encode 4 (26 + Z.of_nat (length data)) ++ request_body c reserved data.
Proof. done. Qed.

Lemma length_request_body c reserved data :
  length reserved = 14%nat -> length (request_body c reserved data) = (26 + length data)%nat.
Proof. intros. unfold request_body. len. Qed.

Lemma request_body_fields c reserved data rest :
  client_ok c -> length reserved = 14%nat -> Z.of_nat (length data) < 2 ^ 31 ->
  let b := request_body c reserved data ++ rest in
  params_ok b /\ get_u16 operate_off b = operate_type_ c /\
  get_i32 data_len_off b = Z.of_nat (length data) /\ slice data_off (length data) b = data.
Proof.
  intros (H1 & H2 & H3 & H4) Hr Hd b. unfold b, request_body. rewrite <- !app_assoc.
  unfold params_ok, get_u16, get_i32, requestParam_sizeof.
  repeat split.
  - region. by rewrite H1.
  - region. by rewrite H2.
  - region. by rewrite H3.
  - region. rewrite le_decode_encode. by apply Z.mod_small.
  - region. rewrite i32_le_decode. apply i32_small. unfold is_i32, INT32_MIN, INT32_MAX. lia.
  - by region.
Qed.

Lemma request_admitted c reserved data rest size :
  length reserved = 14%nat -> 26 + Z.of_nat (length data) <= size < 2 ^ 31 ->
  let avail := request_packet c reserved data ++ rest in
  admission avail size = None /\
  get_i32 baseHeader_length (take 12 avail) = 26 + Z.of_nat (length data).
Proof.
  intros Hr Hd avail. pose proof (length_request_body c reserved data Hr) as Hb.
  assert (take 12 avail = le_encode 8 TCP_HEADER_VERSION ++ le_encode 4 (26 + Z.of_nat (length data))) as Ht.
  { unfold avail. rewrite request_packet_body, <- !app_assoc, (app_assoc (le_encode 8 _)).
    by apply take_app_length'. }
  assert (get_i32 baseHeader_length (take 12 avail) = 26 + Z.of_nat (length data)) as Hn.
  { rewrite Ht. unfold get_i32. rewrite <- (app_nil_r (le_encode 4 _)). region.
    rewrite i32_le_decode. apply i32_small. unfold is_i32, INT32_MIN, INT32_MAX. lia. }
  split; [|done]. unfold admission. rewrite Hn.
  assert (length avail = 38 + length data + length rest)%nat as Hl.
  { unfold avail. rewrite request_packet_body. len. }
  rewrite Hl. destruct (Nat.ltb_spec (38 + length data + length rest) 12); [lia|].
  assert (get_u64 baseHeader_version (take 12 avail) = TCP_HEADER_VERSION) as ->.
  { rewrite Ht. unfold get_u64. by region. }
  rewrite Z.eqb_refl. cbn [negb orb].
  destruct (Z.ltb_spec (26 + Z.of_nat (length data)) 0); [lia|].
  destruct (Z.ltb_spec size (26 + Z.of_nat (length data))); [lia|].
  destruct (Z.ltb_spec (Z.of_nat (38 + length data + length rest) - 12) (26 + Z.of_nat (length data))); [lia|done].
Qed.

Lemma received_body c reserved data rest request :
  length reserved = 14%nat -> (26 + length data <= length request)%nat ->
  exists stale, received (request_packet c reserved data ++ rest) (26 + length data) request =
    request_body c reserved data ++ stale.
Proof.
  intros Hr Hl. pose proof (length_request_body c reserved data Hr) as Hb. unfold received.
  rewrite request_packet_body, <- !app_assoc.
  replace (slice 12 _ _) with (request_body c reserved data) by (symmetry; by region).
  eexists. apply inserts_zero. rewrite !length_app, length_take, length_drop, Hb. len.
Qed.

Lemma reply_area_bytes reply ret o :
  (24 < length reply)%nat -> 0 <= ret ->
  reply_area reply ret o = take 14 reply ++ le_encode 2 1 ++ le_encode 4 0 ++ le_encode 4 ret ++ o.
Proof.
  intros Hl Hr. unfold reply_area. destruct (Z.ltb_spec ret 0); [lia|].
  unfold put_u16, put_i32, replyParam_sizeof.
  destruct (cut_at 14 reply) as (m0 & r0 & -> & H0 & R0); [lia|].
  destruct (cut_at 2 r0) as (m1 & r1 & -> & H1 & R1); [len|].
  destruct (cut_at 4 r1) as (m2 & r2 & -> & H2 & R2); [len|].
  destruct (cut_at 4 r2) as (m3 & r3 & -> & H3 & R3); [len|].
  rewrite (take_app_length' m0) by done.
  assert (list_inserts 14 (le_encode 2 1) (list_inserts 16 (le_encode 4 0) (m0 ++ m1 ++ m2 ++ m3 ++ r3)) =
          m0 ++ le_encode 2 1 ++ le_encode 4 0 ++ m3 ++ r3) as -> by by layout.
  assert (take (20 + 4) (m0 ++ le_encode 2 1 ++ le_encode 4 0 ++ m3 ++ r3) =
          m0 ++ le_encode 2 1 ++ le_encode 4 0 ++ m3) as ->.
  { rewrite !app_assoc. apply take_app_length'. len. }
  rewrite <- !app_assoc. by layout.
Qed.

Lemma error_reply_packet stack err :
  length stack = 32%nat ->
  error_reply stack err = reply_packet (slice 12 14 stack) 1 (i32 err) [].
Proof.
  intros H. rewrite error_reply_bytes by done. unfold reply_packet. cbn [length Z.of_nat Z.add].
  by rewrite app_nil_r, le_encode_i32.
Qed.

Section session.
Context {Db : Type} {driver : MongoDriver Db}.
Variable cfg : IDFSConfig.
Variable decode_image : bytes -> option (Z * Z).

Abbreviation serve := (serve_request (hooks := idfs_hooks cfg decode_image)).

(** What [getReply] hands to its caller for a result of [server_main]. *)
Definition answer (ret : Z) (o : bytes) (old : networkReply) : networkReply :=
  if ret <? 0 then mkReply (i32 ret) (data old) (reply_length old)
  else mkReply 0 (Some (take (Z.to_nat ret) o)) ret.

Lemma getReply_answer evs stack reply ret o old :
  length stack = 32%nat -> (36 < length reply)%nat -> Z.of_nat (length reply) <= 2 ^ 20 ->
  length o = (length reply - 36)%nat -> ret < Z.of_nat (length o) ->
  stream evs = (let r := if ret <? 0 then ret else 24 + ret in
    if r <? 0 then error_reply stack r
    else if r =? 0 then []
    else le_encode 8 TCP_HEADER_VERSION ++ le_encode 4 r ++
         take (Z.to_nat r) (reply_area (drop 12 reply) ret o)) ->
  getReply true evs old = Some (TCP_OK, answer ret o old).
Proof.
  intros Hst Hr Hmax Ho Hret Hs. unfold answer. destruct (Z.ltb_spec ret 0) as [Hneg|Hpos].
  - cbn zeta in Hs. destruct (Z.ltb_spec ret 0); [|lia]. rewrite error_reply_packet in Hs by done.
    rewrite (getReply_packet evs (slice 12 14 stack) 1 (i32 ret) [] []).
    + unfold reply_result. cbn [length Nat.eqb negb]. by rewrite andb_false_r.
    + by rewrite app_nil_r.
    + by rewrite length_slice by lia.
    + apply i32_range.
    + by left.
    + cbn. lia.
  - cbn zeta in Hs. destruct (Z.ltb_spec (24 + ret) 0); [lia|]. destruct (Z.eqb_spec (24 + ret) 0); [lia|].
    rewrite reply_area_bytes in Hs by len.
    assert (length (take 14 (drop 12 reply)) = 14%nat) as H14 by len.
    set (res := take 14 (drop 12 reply)) in *. clearbody res.
    rewrite (getReply_packet evs res 1 0 (le_encode 4 ret ++ take (Z.to_nat ret) o) []).
    + unfold reply_result. rewrite length_app, length_le_encode. cbn [Z.eqb andb Nat.eqb Nat.add negb].
      rewrite drop_app_length', take_app_length' by done. rewrite i32_le_decode, i32_small; [done|].
      unfold is_i32, INT32_MIN, INT32_MAX. lia.
    + rewrite Hs, app_nil_r. unfold reply_packet. f_equal. f_equal.
      { f_equal. len. }
      rewrite !app_assoc. rewrite <- (app_assoc _ _ o). replace (Z.to_nat (24 + ret)) with (24 + Z.to_nat ret)%nat by lia.
      rewrite !app_assoc. apply take_app_add'. len.
    + done.
    + unfold is_i32, INT32_MIN, INT32_MAX. lia.
    + right. len.
    + len.
Qed.

(** C1. A request made by [sendRequest] is answered with the result of
    [server_main]: whatever the memory, the segments of either direction and
    the previous contents of the buffers of the server, [server_main] runs
    once on exactly the data and the operation of the client, its effects on
    disk and database are those of the request, and [getReply] returns its
    output, or its error code as the status. *)
Theorem session_roundtrip e c data mem net stack evs rest plan request reply f d w c' :
  client_ok c -> data <> [] -> length mem = (38 + length data)%nat -> net_ok net ->
  (26 + length data <= length request)%nat -> Z.of_nat (length request) < 2 ^ 31 - 38 ->
  length stack = 32%nat -> (36 < length reply)%nat -> Z.of_nat (length reply) <= 2 ^ 20 ->
  send_ok plan = true ->
  sendRequest (Some data) None (Some mem) net c = (TCP_OK, w, c') -> stream evs = w ++ rest ->
  exists ret s sv,
    server_main cfg decode_image e (operate_type_ c) data (drop 36 reply) f d = Ret (ret, s) /\
    serve e stack evs plan request reply (f, d) = Ret sv /\ state_after sv = (disk s, db s) /\
    forall evs' old, stream evs' = wire sv ->
      getReply true evs' old = Some (TCP_OK, answer ret (out s) old).
Proof.
  intros Hc Hd Hm Hnet Hrq Hmax Hst Hrp Hrp' Hp Hsend Hs.
  destruct (sendRequest_packet c data mem net) as [c'' Hw]; [unfold INT32_MAX; lia|done..|].
  rewrite Hw in Hsend. injection Hsend as <- _.
  set (res := slice 16 14 mem) in *.
  assert (length res = 14%nat) as Hres by (unfold res; rewrite length_slice; lia).
  destruct (request_admitted c res data rest (Z.of_nat (length request))) as [Hadm Hn]; [done|lia|].
  rewrite <- Hs in Hadm, Hn. symmetry in Hn.
  destruct (serve_request_admitted (laws := idfs_laws cfg decode_image) e stack evs plan request reply (f, d) _
    ltac:(lia) Hadm Hn) as (r & tail & s' & Hpr & Htl & Hr & reply' & _ & Hsv); [lia|done..|].
  rewrite Hs in Hpr, Hsv.
  replace (Z.to_nat (26 + Z.of_nat (length data))) with (26 + length data)%nat in * by lia.
  destruct (received_body c res data rest request) as [stale Hrec]; [done|lia|]. rewrite Hrec in Hpr.
  destruct (request_body_fields c res data stale) as (Hpar & Hop & Hdl & Hdat); [done|done|lia|].
  destruct (idfs_process_runs cfg decode_image e (request_body c res data ++ stale)
    (26 + Z.of_nat (length data)) (drop 12 reply) (f, d)) as (ret & s & Hmain & Hlo & Hret & Hpr');
    [done|lia| |len|].
  { rewrite length_app, length_request_body by done. destruct data; [done|]. cbn [length]. lia. }
  rewrite Hop in Hmain. replace (Z.to_nat (26 + Z.of_nat (length data) - 26)) with (length data) in Hmain by lia.
  rewrite Hdat, drop_drop in Hmain. cbn [server_process idfs_hooks fst snd] in Hpr, Hmain.
  rewrite Hpr' in Hpr. injection Hpr as <- <- <-. rewrite length_drop in Hlo, Hret.
  eexists ret, s, _. split; [exact Hmain|]. split; [exact Hsv|]. split; [done|].
  cbn [wire]. intros evs' old Hs'. apply (getReply_answer evs' stack reply ret (out s) old);
    [done|done|done|lia|lia|exact Hs'].
Qed.

End session.

(** The server of the example asked for an image over a network that delivers
    the request in two segments. *)
Definition client0 : QTcpClient := setOperateType 3 (QTcpClient_new (replicate 16 x00)).
Definition packet0 : bytes := request_packet client0 (replicate 14 xcc) image0.
Definition segments (n : nat) (l : bytes) : list event :=
  match take n l, drop n l with
  | a :: l1, b :: l2 => [Data a l1; Data b l2]
  | _, _ => []
  end.

Lemma session_roundtrip_witness :
  exists ret s sv,
    server_main (Db := store) cfg0 decode0 env0 3 image0 (replicate 600 x55) disk0 ∅ = Ret (ret, s) /\
    serve_request (hooks := idfs_hooks cfg0 decode0) env0 (replicate 32 x99) (segments 5 packet0)
      [Take 7] (replicate 100 xaa) (replicate 636 x55) (disk0, ∅) = Ret sv /\
    getReply true (segments 40 (wire sv)) networkReply_new = Some (TCP_OK, answer ret (out s) networkReply_new).
Proof.
  destruct (session_roundtrip cfg0 decode0 env0 client0 image0 (replicate 48 xcc) (mkNet 0 Connected 0 [])
    (replicate 32 x99) (segments 5 packet0) [] [Take 7] (replicate 100 xaa) (replicate 636 x55) disk0
    (∅ : store) packet0 (sendRequest (Some image0) None (Some (replicate 48 xcc)) (mkNet 0 Connected 0 []) client0).2)
    as (ret & s & sv & H1 & H2 & _ & H3);
    [repeat split; cbn; lia|discriminate|reflexivity|repeat split; cbn; lia|cbn; lia|cbn; lia|reflexivity
    |rewrite length_replicate; lia|rewrite length_replicate; lia|reflexivity|by_vm|by_vm|].
  exists ret, s, sv. split; [exact H1|]. split; [exact H2|]. apply H3.
  assert (match serve_request (hooks := idfs_hooks cfg0 decode0) env0 (replicate 32 x99) (segments 5 packet0)
      [Take 7] (replicate 100 xaa) (replicate 636 x55) (disk0, ∅ : store) with
    | Ret sv => bool_decide (stream (segments 40 (wire sv)) = wire sv) | Abort => false end = true) as H by by_vm.
  rewrite H2 in H. by apply bool_decide_eq_true in H.
Defined.

End Session.
