(* ===== verification/Threads.v ===== *)
(** * Threads: the thread pool of QTcpServer (src/include/common/qtcpsocket.cc)

    [comm_thread] and [work_thread] pass client records around through two
    bounded queues: the communication threads take a record from the chunk
    queue, accept a connection into it and push it on the client queue, then
    signal the trigger; the working threads wait for the trigger, drain the
    client queue, and push the records back.  Every statement that touches
    shared state is one step of one thread; the threads interleave freely.
    The queues are anything that satisfies [BoundedFifo]; [QQueue] does. *)

From S2P Require Import Prelude QQueue.

Module Threads.

(** ** The trigger *)

(** [QTrigger]; only the automatically reset one is used. *)
Record QTrigger : Type := mkTrigger { m_autoreset : bool; m_state : Z }.
Definition QTrigger_new : QTrigger := mkTrigger true 0.
Definition signal (t : QTrigger) : QTrigger := mkTrigger (m_autoreset t) 1.
(** One passage through [wait]: [None] while the caller sleeps. *)
Definition wait (t : QTrigger) : option QTrigger :=
  if m_state t =? 0 then None
  else Some (if m_autoreset t then mkTrigger (m_autoreset t) 0 else t).
Definition reset (t : QTrigger) : QTrigger := mkTrigger (m_autoreset t) 0.

(** ** Threads *)

(** Where a communication thread is; the record it holds. *)
Inductive comm_pc : Type :=
  | CLoop                  (* while(!exit_flag_) *)
  | CPop                   (* chunk_queue_->pop() *)
  | CAccept (c : nat)      (* q_accept_socket *)
  | CTimeout (c : nat)     (* q_set_overtime *)
  | CPush (c : nat)        (* client_queue_->push(client_info) *)
  | CSignal                (* client_trigger_->signal() *)
  | CBack (c : nat)        (* the catch block: chunk_queue_->push(client_info) *)
  | CDone.

(** Where a working thread is. *)
Inductive work_pc : Type :=
  | WLoop                  (* while(!exit_flag_) *)
  | WWait                  (* client_trigger_->wait() *)
  | WPop                   (* client_queue_->pop_non_blocking(client_info) *)
  | WServe (c : nat)       (* the try and catch blocks *)
  | WCount (c : nat)       (* q_add_and_fetch(&stat_numconnections_) *)
  | WBack (c : nat)        (* chunk_queue_->push(client_info) *)
  | WDone.

Definition comm_held (pc : comm_pc) : list nat :=
  match pc with CAccept c | CTimeout c | CPush c | CBack c => [c] | _ => [] end.
Definition work_held (pc : work_pc) : list nat :=
  match pc with WServe c | WCount c | WBack c => [c] | _ => [] end.

(** The working thread will look at the client queue again before it waits. *)
Definition draining (pc : work_pc) : bool :=
  match pc with WPop | WServe _ | WCount _ | WBack _ => true | _ => false end.

Section pool.
Context {Q : Type} {fifo : BoundedFifo nat Q}.

(** The two counters are [uint32_t] in the source, where they are only printed;
    here they have no width. *)
Record sys : Type := mkSys {
  chunk_queue_ : Q;
  client_queue_ : Q;
  client_trigger_ : QTrigger;
  exit_flag_ : bool;
  comms : list comm_pc;
  works : list work_pc;
  stat_numconnections_ : Z;
  stat_failedconnections_ : Z
}.

(** What one statement does to the shared state, and where the thread goes;
    the outcomes of system calls are the alternatives. *)
Inductive comm_step (s : sys) : comm_pc -> Q -> Q -> QTrigger -> comm_pc -> Prop :=
  | comm_loop : exit_flag_ s = false ->
      comm_step s CLoop (chunk_queue_ s) (client_queue_ s) (client_trigger_ s) CPop
  | comm_exit : exit_flag_ s = true ->
      comm_step s CLoop (chunk_queue_ s) (client_queue_ s) (client_trigger_ s) CDone
  | comm_pop c q : fifo_pop (chunk_queue_ s) = Some (c, q) ->
      comm_step s CPop q (client_queue_ s) (client_trigger_ s) (CAccept c)
  | comm_accept c pc : pc = CTimeout c \/ pc = CBack c ->
      comm_step s (CAccept c) (chunk_queue_ s) (client_queue_ s) (client_trigger_ s) pc
  | comm_timeout c pc : pc = CPush c \/ pc = CBack c ->
      comm_step s (CTimeout c) (chunk_queue_ s) (client_queue_ s) (client_trigger_ s) pc
  | comm_push c q : fifo_push c (client_queue_ s) = Some q ->
      comm_step s (CPush c) (chunk_queue_ s) q (client_trigger_ s) CSignal
  | comm_signal :
      comm_step s CSignal (chunk_queue_ s) (client_queue_ s) (signal (client_trigger_ s)) CLoop
  | comm_back c q : fifo_push c (chunk_queue_ s) = Some q ->
      comm_step s (CBack c) q (client_queue_ s) (client_trigger_ s) CLoop.

Inductive work_step (s : sys) : work_pc -> Q -> Q -> QTrigger -> Z -> Z -> work_pc -> Prop :=
  | work_loop : exit_flag_ s = false ->
      work_step s WLoop (chunk_queue_ s) (client_queue_ s) (client_trigger_ s) 0 0 WWait
  | work_exit : exit_flag_ s = true ->
      work_step s WLoop (chunk_queue_ s) (client_queue_ s) (client_trigger_ s) 0 0 WDone
  | work_wait t : wait (client_trigger_ s) = Some t ->
      work_step s WWait (chunk_queue_ s) (client_queue_ s) t 0 0 WPop
  | work_pop c q : fifo_pop (client_queue_ s) = Some (c, q) ->
      work_step s WPop (chunk_queue_ s) q (client_trigger_ s) 0 0 (WServe c)
  | work_empty : fifo_pop (client_queue_ s) = None ->
      work_step s WPop (chunk_queue_ s) (client_queue_ s) (client_trigger_ s) 0 0 WLoop
  | work_serve c failed : failed = 0 \/ failed = 1 ->
      work_step s (WServe c) (chunk_queue_ s) (client_queue_ s) (client_trigger_ s) 0 failed (WCount c)
  | work_count c :
      work_step s (WCount c) (chunk_queue_ s) (client_queue_ s) (client_trigger_ s) 1 0 (WBack c)
  | work_back c q : fifo_push c (chunk_queue_ s) = Some q ->
      work_step s (WBack c) q (client_queue_ s) (client_trigger_ s) 0 0 WPop.

(** A step of the server: of one thread, or the request to stop. *)
Inductive step (s : sys) : sys -> Prop :=
  | step_comm i pc pc' q1 q2 t : comms s !! i = Some pc -> comm_step s pc q1 q2 t pc' ->
      step s (mkSys q1 q2 t (exit_flag_ s) (<[i := pc']> (comms s)) (works s)
                (stat_numconnections_ s) (stat_failedconnections_ s))
  | step_work i pc pc' q1 q2 t m n : works s !! i = Some pc -> work_step s pc q1 q2 t m n pc' ->
      step s (mkSys q1 q2 t (exit_flag_ s) (comms s) (<[i := pc']> (works s))
                (stat_numconnections_ s + m) (stat_failedconnections_ s + n))
  | step_exit :
      step s (mkSys (chunk_queue_ s) (client_queue_ s) (client_trigger_ s) true (comms s) (works s)
                (stat_numconnections_ s) (stat_failedconnections_ s)).

(** ** The invariant *)

Definition held (s : sys) : list nat :=
  concat (comm_held <$> comms s) ++ concat (work_held <$> works s).

(** Someone will look at the client queue without another request. *)
Definition awake (s : sys) : Prop :=
  m_state (client_trigger_ s) <> 0 \/
  (exists i, comms s !! i = Some CSignal) \/
  (exists i pc, works s !! i = Some pc /\ draining pc = true).

(** The records [all] are each in one place: a queue or a thread; and a
    client that waits has someone to serve it. *)
Record inv (all : list nat) (s : sys) : Prop := mkInv {
  inv_chunk : fifo_ok (chunk_queue_ s);
  inv_client : fifo_ok (client_queue_ s);
  inv_chunk_cap : fifo_cap (chunk_queue_ s) = Z.of_nat (length all);
  inv_client_cap : fifo_cap (client_queue_ s) = Z.of_nat (length all);
  inv_records : fifo_items (chunk_queue_ s) ++ fifo_items (client_queue_ s) ++ held s ≡ₚ all;
  inv_awake : fifo_items (client_queue_ s) <> [] -> awake s
}.

Lemma concat_insert {A} (h : A -> list nat) (l : list A) i a :
  l !! i = Some a ->
  exists rest, concat (h <$> l) ≡ₚ h a ++ rest /\
    forall b, concat (h <$> <[i := b]> l) ≡ₚ h b ++ rest.
Proof.
  intros Hi. exists (concat (h <$> take i l) ++ concat (h <$> drop (S i) l)).
  assert (forall b, concat (h <$> take i l) ++ h b ++ concat (h <$> drop (S i) l) ≡ₚ
    h b ++ concat (h <$> take i l) ++ concat (h <$> drop (S i) l)) as Hswap.
  { intros b. rewrite !app_assoc. f_equiv. apply Permutation_app_comm. }
  split.
  - rewrite <- (take_drop_middle l i a Hi) at 1. rewrite fmap_app, fmap_cons, concat_app. apply Hswap.
  - intros b. rewrite insert_take_drop by by eapply lookup_lt_Some.
    rewrite fmap_app, fmap_cons, concat_app. apply Hswap.
Qed.

(** Moving a record between the places. *)
Lemma held_comm s i pc q1 q2 t :
  comms s !! i = Some pc ->
  exists rest, held s ≡ₚ comm_held pc ++ rest /\
    forall pc' m n, held (mkSys q1 q2 t (exit_flag_ s) (<[i := pc']> (comms s)) (works s) m n) ≡ₚ
      comm_held pc' ++ rest.
Proof.
  intros Hi. destruct (concat_insert comm_held (comms s) i pc Hi) as (rest & H1 & H2).
  exists (rest ++ concat (work_held <$> works s)). unfold held. cbn [comms works].
  split; [by rewrite H1, app_assoc|]. intros pc' m n. by rewrite H2, app_assoc.
Qed.

Lemma held_work s i pc q1 q2 t :
  works s !! i = Some pc ->
  exists rest, held s ≡ₚ work_held pc ++ rest /\
    forall pc' m n, held (mkSys q1 q2 t (exit_flag_ s) (comms s) (<[i := pc']> (works s)) m n) ≡ₚ
      work_held pc' ++ rest.
Proof.
  intros Hi. destruct (concat_insert work_held (works s) i pc Hi) as (rest & H1 & H2).
  exists (concat (comm_held <$> comms s) ++ rest). unfold held. cbn [comms works].
  split; [rewrite H1|intros pc' m n; rewrite H2]; rewrite !app_assoc; f_equiv; apply Permutation_app_comm.
Qed.

(** A queue with a record missing has room for it. *)
Lemma push_room (all : list nat) (q q' : Q) c :
  fifo_ok q -> fifo_cap q = Z.of_nat (length all) -> (length (fifo_items q) < length all)%nat ->
  fifo_push c q = Some q' ->
  fifo_ok q' /\ fifo_items q' = fifo_items q ++ [c] /\ fifo_cap q' = fifo_cap q.
Proof.
  intros Hq Hc Hl Hp. destruct (fifo_push_room c q) as (q1 & Hp1 & H); [done|lia|].
  rewrite Hp1 in Hp. by injection Hp as <-.
Qed.

Lemma pop_some (q q' : Q) c :
  fifo_ok q -> fifo_pop q = Some (c, q') ->
  fifo_ok q' /\ fifo_items q = c :: fifo_items q' /\ fifo_cap q' = fifo_cap q.
Proof.
  intros Hq Hp. destruct (fifo_items q) as [|x xs] eqn:E.
  - by rewrite (fifo_pop_nil q Hq E) in Hp.
  - destruct (fifo_pop_cons x xs q Hq E) as (q1 & Hp1 & ? & <- & ?). rewrite Hp1 in Hp. by simplify_eq.
Qed.

Lemma pop_none (q : Q) : fifo_ok q -> fifo_pop q = None -> fifo_items q = [].
Proof.
  intros Hq Hp. destruct (fifo_items q) as [|x xs] eqn:E; [done|].
  destruct (fifo_pop_cons x xs q Hq E) as (q1 & Hp1 & _). by rewrite Hp1 in Hp.
Qed.

(** The four ways a record moves between a queue and a thread. *)
Lemma from_chunk (a b r : list nat) c : (c :: a) ++ b ++ r ≡ₚ a ++ b ++ c :: r.
Proof. rewrite !app_assoc. apply Permutation_middle. Qed.
Lemma from_client (a b r : list nat) c : a ++ (c :: b) ++ r ≡ₚ a ++ b ++ c :: r.
Proof. f_equiv. apply Permutation_middle. Qed.
Lemma to_chunk (a b r : list nat) c : (a ++ [c]) ++ b ++ r ≡ₚ a ++ b ++ c :: r.
Proof. rewrite <- app_assoc. cbn. f_equiv. apply Permutation_middle. Qed.
Lemma to_client (a b r : list nat) c : a ++ (b ++ [c]) ++ r ≡ₚ a ++ b ++ c :: r.
Proof. by rewrite <- (app_assoc b). Qed.

Lemma awake_comm s i pc pc' q1 q2 t m n :
  comms s !! i = Some pc -> pc <> CSignal -> m_state t = m_state (client_trigger_ s) ->
  awake s -> awake (mkSys q1 q2 t (exit_flag_ s) (<[i := pc']> (comms s)) (works s) m n).
Proof.
  intros Hi Hpc Ht [H|[[j Hj]|H]]; [left; cbn; congruence| |by right; right].
  right. left. exists j. cbn. rewrite list_lookup_insert_ne; [done|]. intros <-. congruence.
Qed.

Lemma awake_work s i pc pc' q1 q2 t m n :
  works s !! i = Some pc ->
  draining pc' = true \/ (draining pc = false /\ m_state t = m_state (client_trigger_ s)) ->
  awake s -> awake (mkSys q1 q2 t (exit_flag_ s) (comms s) (<[i := pc']> (works s)) m n).
Proof.
  intros Hi [Hd|[Hd Ht]] Ha.
  { right. right. exists i, pc'. cbn. rewrite list_lookup_insert_eq; [done|by eapply lookup_lt_Some]. }
  destruct Ha as [H|[H|(j & pcj & Hj & Hdj)]]; [left; cbn; congruence|by right; left|].
  right. right. exists j, pcj. cbn. rewrite list_lookup_insert_ne; [done|]. intros <-. congruence.
Qed.

(** A thread that holds a record leaves room in both queues. *)
Local Ltac room :=
  match goal with H : _ ≡ₚ ?all, all : list nat |- _ => apply Permutation_length in H; rewrite !length_app in H; cbn in H; lia end.

Lemma inv_comm all s i pc pc' q1 q2 t m n :
  inv all s -> comms s !! i = Some pc -> comm_step s pc q1 q2 t pc' ->
  inv all (mkSys q1 q2 t (exit_flag_ s) (<[i := pc']> (comms s)) (works s) m n).
Proof.
  intros [Hk Hc Hkc Hcc Hrec Haw] Hi Hst.
  destruct (held_comm s i pc q1 q2 t Hi) as (rest & Hh & Hh'). rewrite Hh in Hrec.
  inversion Hst; subst; cbn [comm_held app] in *;
    try (split; cbn [chunk_queue_ client_queue_]; [done..|by rewrite Hh'|
         intros Hne; eapply awake_comm; [exact Hi|done|done|by apply Haw]]; fail).
  - (* pop a chunk *)
    destruct (pop_some _ _ _ Hk H) as (Hk' & Hit & Hcap).
    split; cbn [chunk_queue_ client_queue_]; [done|done|congruence|done| |].
    + rewrite Hh'. cbn [comm_held app]. rewrite <- from_chunk, <- Hit. done.
    + intros Hne. eapply awake_comm; [exact Hi|done|done|by apply Haw].
  - (* accept *)
    destruct H as [-> | ->]; (split; cbn [chunk_queue_ client_queue_]; [done..|by rewrite Hh'|
      intros Hne; eapply awake_comm; [exact Hi|done|done|by apply Haw]]).
  - (* timeout *)
    destruct H as [-> | ->]; (split; cbn [chunk_queue_ client_queue_]; [done..|by rewrite Hh'|
      intros Hne; eapply awake_comm; [exact Hi|done|done|by apply Haw]]).
  - (* push the client *)
    destruct (push_room all (client_queue_ s) q2 c) as (Hok & Hit & Hcap); [done|done|room|done|].
    split; cbn [chunk_queue_ client_queue_]; [done|done|done|congruence| |].
    + rewrite Hh', Hit, to_client. done.
    + intros _. right. left. exists i. cbn. rewrite list_lookup_insert_eq; [done|by eapply lookup_lt_Some].
  - (* signal *)
    split; cbn [chunk_queue_ client_queue_]; [done..|by rewrite Hh'|]. intros _. by left.
  - (* give the record back *)
    destruct (push_room all (chunk_queue_ s) q1 c) as (Hok & Hit & Hcap); [done|done|room|done|].
    split; cbn [chunk_queue_ client_queue_]; [done|done|congruence|done| |].
    + rewrite Hh', Hit, to_chunk. done.
    + intros Hne. eapply awake_comm; [exact Hi|done|done|by apply Haw].
Qed.

Lemma inv_work all s i pc pc' q1 q2 t dm dn m n :
  inv all s -> works s !! i = Some pc -> work_step s pc q1 q2 t dm dn pc' ->
  inv all (mkSys q1 q2 t (exit_flag_ s) (comms s) (<[i := pc']> (works s)) m n).
Proof.
  intros [Hk Hc Hkc Hcc Hrec Haw] Hi Hst.
  destruct (held_work s i pc q1 q2 t Hi) as (rest & Hh & Hh'). rewrite Hh in Hrec.
  inversion Hst; subst; cbn [work_held app] in *;
    try (split; cbn [chunk_queue_ client_queue_]; [done..|by rewrite Hh'|
         intros Hne; eapply awake_work; [exact Hi|by auto|by apply Haw]]; fail).
  - (* pop a client *)
    destruct (pop_some _ _ _ Hc H) as (Hc' & Hit & Hcap). rewrite Hit in Haw.
    split; cbn [chunk_queue_ client_queue_]; [done|done|done|congruence| |].
    + rewrite Hh'. cbn [work_held app]. rewrite <- from_client, <- Hit. done.
    + intros Hne. eapply awake_work; [exact Hi|by left|by apply Haw].
  - (* no client left *)
    split; cbn [chunk_queue_ client_queue_]; [done..|by rewrite Hh'|]. by rewrite (pop_none _ Hc H).
  - (* give the record back *)
    destruct (push_room all (chunk_queue_ s) q1 c) as (Hok & Hit & Hcap); [done|done|room|done|].
    split; cbn [chunk_queue_ client_queue_]; [done|done|congruence|done| |].
    + rewrite Hh', Hit, to_chunk. done.
    + intros Hne. eapply awake_work; [exact Hi|by left|by apply Haw].
Qed.

Lemma inv_step all s s' : inv all s -> step s s' -> inv all s'.
Proof.
  intros Hinv Hst. destruct Hst as [i pc pc' q1 q2 t Hi Hst|i pc pc' q1 q2 t m n Hi Hst|].
  - by eapply inv_comm.
  - by eapply inv_work.
  - destruct Hinv as [????? Haw]. split; try done.
Qed.

Lemma inv_steps all s s' : inv all s -> rtc step s s' -> inv all s'.
Proof. intros Hi Hs. induction Hs; [done|]. eauto using inv_step. Qed.

(** The server after [init]: every record in the chunk queue, every thread
    about to enter its loop. *)
Definition started (all : list nat) (ncomm nwork : nat) (chunk client : Q) : sys :=
  mkSys chunk client QTrigger_new false (replicate ncomm CLoop) (replicate nwork WLoop) 0 0.

Lemma inv_started all ncomm nwork chunk client :
  fifo_ok chunk -> fifo_ok client -> fifo_items chunk = all -> fifo_items client = [] ->
  fifo_cap chunk = Z.of_nat (length all) -> fifo_cap client = Z.of_nat (length all) ->
  inv all (started all ncomm nwork chunk client).
Proof.
  intros Hk Hc Hki Hci Hkc Hcc. split; cbn; try done.
  rewrite Hki, Hci. unfold held. cbn. rewrite !fmap_replicate.
  assert (forall k, concat (replicate k ([] : list nat)) = []) as Hz by (induction k; done).
  by rewrite !Hz, !app_nil_r.
Qed.

(** ** A waiting client can be served *)

(** A working thread ends only after a request to stop. *)
Definition running (s : sys) : Prop :=
  exit_flag_ s = false -> forall i, works s !! i <> Some WDone.

Lemma running_step s s' : running s -> step s s' -> running s'.
Proof.
  intros Hr Hst He i. destruct Hst as [| |]; cbn in *; [by apply Hr| |done].
  intros Hi. destruct (decide (i = i0)) as [->|Hne].
  - rewrite list_lookup_insert_eq in Hi by by eapply lookup_lt_Some.
    injection Hi as ->. match goal with H : work_step _ _ _ _ _ _ _ _ |- _ => inversion H end. congruence.
  - rewrite list_lookup_insert_ne in Hi by done. by apply (Hr He i).
Qed.

Lemma running_steps s s' : running s -> rtc step s s' -> running s'.
Proof. intros Hi Hs. induction Hs; [done|]. eauto using running_step. Qed.

Lemma works_length s s' : rtc step s s' -> length (works s') = length (works s).
Proof.
  induction 1 as [|s s1 s2 Hst _ IH]; [done|]. rewrite IH. destruct Hst; cbn; [done|apply length_insert|done].
Qed.

Lemma work_move s i pc pc' q1 q2 t m n :
  works s !! i = Some pc -> work_step s pc q1 q2 t m n pc' ->
  exists s', step s s' /\ works s' !! i = Some pc' /\ chunk_queue_ s' = q1 /\ client_queue_ s' = q2 /\
    client_trigger_ s' = t /\ exit_flag_ s' = exit_flag_ s.
Proof.
  intros Hi Hst. eexists. split; [by eapply step_work|]. cbn. repeat split.
  rewrite list_lookup_insert_eq; [done|by eapply lookup_lt_Some].
Qed.

(** Some thread can take [c] to be served. *)
Definition servable (s : sys) (c : nat) : Prop :=
  exists s' i, rtc step s s' /\ works s' !! i = Some (WServe c).

Lemma servable_step s s' c : step s s' -> servable s' c -> servable s c.
Proof. intros Hs (s2 & i & Hr & Hi). exists s2, i. split; [by eapply rtc_l|done]. Qed.

Lemma servable_pop all s i c rest :
  inv all s -> fifo_items (client_queue_ s) = c :: rest -> works s !! i = Some WPop -> servable s c.
Proof.
  intros Hinv Hit Hi. destruct (fifo_pop_cons c rest _ (inv_client _ _ Hinv) Hit) as (q & Hq & _).
  destruct (work_move s i WPop (WServe c) _ _ _ _ _ Hi (work_pop s c q Hq)) as (s' & Hs & Hi' & _).
  exists s', i. split; [by apply rtc_once|done].
Qed.

Lemma servable_back all s i c rest d :
  inv all s -> fifo_items (client_queue_ s) = c :: rest -> works s !! i = Some (WBack d) -> servable s c.
Proof.
  intros Hinv Hit Hi. pose proof Hinv as [Hk _ Hkc _ Hrec _].
  destruct (held_work s i (WBack d) (chunk_queue_ s) (client_queue_ s) (client_trigger_ s) Hi) as (r & Hh & _).
  rewrite Hh in Hrec.
  destruct (fifo_push_room d (chunk_queue_ s)) as (q & Hq & _); [done|rewrite Hkc; room|].
  destruct (work_move s i _ _ _ _ _ _ _ Hi (work_back s d q Hq)) as (s' & Hs & Hi' & _ & Hcq & _).
  eapply servable_step; [exact Hs|]. eapply servable_pop; [by eapply inv_step|by rewrite Hcq|done].
Qed.

Lemma servable_draining all s i pc c rest :
  inv all s -> fifo_items (client_queue_ s) = c :: rest -> works s !! i = Some pc -> draining pc = true ->
  servable s c.
Proof.
  intros Hinv Hit Hi Hd.
  assert (forall s d, inv all s -> fifo_items (client_queue_ s) = c :: rest ->
    works s !! i = Some (WCount d) -> servable s c) as Hcount.
  { intros s1 d Hinv1 Hit1 Hi1.
    destruct (work_move s1 i _ _ _ _ _ _ _ Hi1 (work_count s1 d)) as (s' & Hs & Hi' & _ & Hcq & _).
    eapply servable_step; [exact Hs|]. eapply servable_back; [by eapply inv_step|by rewrite Hcq|done]. }
  destruct pc as [| | |d|d|d|]; try done; [by eapply servable_pop| |by eapply Hcount|by eapply servable_back].
  destruct (work_move s i _ _ _ _ _ _ _ Hi (work_serve s d 0 (or_introl eq_refl))) as (s' & Hs & Hi' & _ & Hcq & _).
  eapply servable_step; [exact Hs|]. eapply Hcount; [by eapply inv_step|by rewrite Hcq|done].
Qed.

Lemma servable_triggered all s i c rest :
  inv all s -> running s -> exit_flag_ s = false -> is_Some (works s !! i) ->
  m_state (client_trigger_ s) <> 0 -> fifo_items (client_queue_ s) = c :: rest -> servable s c.
Proof.
  intros Hinv Hrun He [pc Hi] Ht Hit.
  destruct (draining pc) eqn:Hd; [by eapply servable_draining|].
  assert (forall s, inv all s -> works s !! i = Some WWait -> m_state (client_trigger_ s) <> 0 ->
    fifo_items (client_queue_ s) = c :: rest -> servable s c) as Hwait.
  { intros s1 Hinv1 Hi1 Ht1 Hit1. destruct (wait (client_trigger_ s1)) as [t|] eqn:Hw.
    2:{ unfold wait in Hw. destruct (Z.eqb_spec (m_state (client_trigger_ s1)) 0); done. }
    destruct (work_move s1 i _ _ _ _ _ _ _ Hi1 (work_wait s1 t Hw)) as (s' & Hs & Hi' & _ & Hcq & _).
    eapply servable_step; [exact Hs|]. eapply servable_pop; [by eapply inv_step|by rewrite Hcq|done]. }
  destruct pc; try done; [|by eapply Hwait|by destruct (Hrun He i)].
  destruct (work_move s i _ _ _ _ _ _ _ Hi (work_loop s He)) as (s' & Hs & Hi' & _ & Hcq & Ht' & _).
  eapply servable_step; [exact Hs|]. eapply Hwait; [by eapply inv_step|done|by rewrite Ht'|by rewrite Hcq].
Qed.

Lemma servable_head all s c rest :
  inv all s -> running s -> exit_flag_ s = false -> works s <> [] ->
  fifo_items (client_queue_ s) = c :: rest -> servable s c.
Proof.
  intros Hinv Hrun He Hw Hit.
  assert (is_Some (works s !! 0%nat)) as Hi0 by (destruct (works s); [done|by eexists]).
  destruct (inv_awake _ _ Hinv) as [Ht|[[i Hi]|(i & pc & Hi & Hd)]]; [by rewrite Hit| | |].
  - by eapply servable_triggered.
  - assert (step s (mkSys (chunk_queue_ s) (client_queue_ s) (signal (client_trigger_ s)) (exit_flag_ s)
      (<[i := CLoop]> (comms s)) (works s) (stat_numconnections_ s) (stat_failedconnections_ s))) as Hs
      by (eapply step_comm; [exact Hi|constructor]).
    eapply servable_step; [exact Hs|].
    eapply (servable_triggered all _ 0 c rest); [by eapply inv_step|by eapply running_step|done..].
  - by eapply servable_draining.
Qed.

End pool.

(** ** The queues of the server *)

(** The loop that fills the chunk queue: record [i] and the [n - 1] after it;
    [None] when a push would wait for ever. *)
Fixpoint fill_chunks (n i : nat) (q : Ring.QQueue nat) : option (Ring.QQueue nat) :=
  match n with
  | O => Some q
  | S n => Ring.push i q ≫= fill_chunks n (S i)
  end.

(** The queues made by [QTcpServer::init]; [mem1] and [mem2] are the arrays
    allocated, [None] stands for [TCP_ERR]. *)
Definition init_queues (queue_size : Z) (mem1 mem2 : option (list nat)) :
    option (Ring.QQueue nat * Ring.QQueue nat) :=
  let '(ret, chunk) := Ring.init (i32 (queue_size + 1)) mem1 Ring.QQueue_new in
  if ret <? 0 then None
  else
    chunk ← fill_chunks (Z.to_nat queue_size) 0 chunk;
    let '(ret, client) := Ring.init (i32 (queue_size + 1)) mem2 Ring.QQueue_new in
    if ret <? 0 then None else Some (chunk, client).

Lemma fill_chunks_spec n i (q : Ring.QQueue nat) :
  fifo_ok q -> Z.of_nat (length (fifo_items q)) + Z.of_nat n <= fifo_cap q ->
  exists q', fill_chunks n i q = Some q' /\ fifo_ok q' /\ fifo_items q' = fifo_items q ++ seq i n /\
    fifo_cap q' = fifo_cap q.
Proof.
  revert i q. induction n as [|n IH]; intros i q Hok Hc.
  { exists q. by rewrite app_nil_r. }
  destruct (fifo_push_room i q Hok) as (q1 & Hp & Hok1 & Hi1 & Hc1); [lia|].
  destruct (IH (S i) q1 Hok1) as (q2 & Hf & Hok2 & Hi2 & Hc2).
  { rewrite Hi1, Hc1, length_app. cbn [length]. lia. }
  exists q2. cbn [fill_chunks]. change (Ring.push i q) with (fifo_push i q). rewrite Hp. cbn [mbind option_bind].
  rewrite Hf, Hi2, Hi1, Hc2, Hc1, <- app_assoc. done.
Qed.

Lemma ring_init_spec (n : Z) (mem : list nat) :
  0 < n < INT32_MAX -> Z.of_nat (length mem) = n + 1 ->
  exists q, Ring.init (i32 (n + 1)) (Some mem) Ring.QQueue_new = (0, q) /\ fifo_ok q /\ fifo_items q = [] /\
    fifo_cap q = n.
Proof.
  intros Hn Hm. unfold Ring.init. rewrite i32_small by (unfold is_i32, INT32_MIN, INT32_MAX in *; lia).
  destruct (Z.leb_spec (n + 1) 0); [lia|]. eexists. split; [done|]. cbn. repeat split; cbn; try lia.
Qed.

Lemma init_queues_spec n mem1 mem2 :
  0 < n < INT32_MAX -> Z.of_nat (length mem1) = n + 1 -> Z.of_nat (length mem2) = n + 1 ->
  exists chunk client, init_queues n (Some mem1) (Some mem2) = Some (chunk, client) /\
    forall ncomm nwork, inv (seq 0 (Z.to_nat n)) (started (seq 0 (Z.to_nat n)) ncomm nwork chunk client).
Proof.
  intros Hn H1 H2. unfold init_queues.
  destruct (ring_init_spec n mem1 Hn H1) as (q1 & -> & Hok1 & Hi1 & Hc1).
  destruct (ring_init_spec n mem2 Hn H2) as (q2 & -> & Hok2 & Hi2 & Hc2).
  change (0 <? 0) with false. cbn iota.
  destruct (fill_chunks_spec (Z.to_nat n) 0 q1 Hok1) as (q & -> & Hok & Hi & Hc); [rewrite Hi1, Hc1; cbn [length]; lia|].
  cbn [mbind option_bind]. exists q, q2. split; [done|]. intros ncomm nwork.
  apply inv_started; [done|done|by rewrite Hi, Hi1|done|rewrite length_seq; lia..].
Qed.

(** C5. The records of the server are never lost, duplicated or shared: in
    every reachable state of any number of communication and working threads,
    each of the [queue_size] records is in exactly one place, the chunk queue,
    the client queue or the hands of one thread. *)
Theorem pool_records n mem1 mem2 ncomm nwork :
  0 < n < INT32_MAX -> Z.of_nat (length mem1) = n + 1 -> Z.of_nat (length mem2) = n + 1 ->
  exists chunk client, init_queues n (Some mem1) (Some mem2) = Some (chunk, client) /\
    forall s, rtc step (started (seq 0 (Z.to_nat n)) ncomm nwork chunk client) s ->
      fifo_items (chunk_queue_ s) ++ fifo_items (client_queue_ s) ++ held s ≡ₚ seq 0 (Z.to_nat n) /\
      NoDup (fifo_items (chunk_queue_ s) ++ fifo_items (client_queue_ s) ++ held s).
Proof.
  intros Hn H1 H2. destruct (init_queues_spec n mem1 mem2 Hn H1 H2) as (chunk & client & Hi & Hinv).
  exists chunk, client. split; [done|]. intros s Hs.
  destruct (inv_steps _ _ _ (Hinv ncomm nwork) Hs) as [_ _ _ _ Hrec _].
  split; [done|]. rewrite Hrec. apply NoDup_seq.
Qed.

(** C11. No push of the server ever waits: a queue of [queue_size + 1] slots has
    room for every record, so a thread that has a record to push can do it in
    every reachable state. *)
Theorem pool_push_never_waits n mem1 mem2 ncomm nwork :
  0 < n < INT32_MAX -> Z.of_nat (length mem1) = n + 1 -> Z.of_nat (length mem2) = n + 1 ->
  exists chunk client, init_queues n (Some mem1) (Some mem2) = Some (chunk, client) /\
    forall s c, rtc step (started (seq 0 (Z.to_nat n)) ncomm nwork chunk client) s ->
      (CPush c ∈ comms s -> Ring.push c (client_queue_ s) <> None) /\
      (CBack c ∈ comms s \/ WBack c ∈ works s -> Ring.push c (chunk_queue_ s) <> None).
Proof.
  intros Hn H1 H2. destruct (init_queues_spec n mem1 mem2 Hn H1 H2) as (chunk & client & Hi & Hinv).
  exists chunk, client. split; [done|]. intros s c Hs.
  pose proof (inv_steps _ _ _ (Hinv ncomm nwork) Hs) as [Hk Hc Hkc Hcc Hrec _].
  assert (held s <> [] -> Ring.push c (client_queue_ s) <> None /\ Ring.push c (chunk_queue_ s) <> None) as Hroom.
  { intros Hh. apply Permutation_length in Hrec. rewrite !length_app in Hrec.
    assert (0 < length (held s))%nat by (destruct (held s); [done|cbn; lia]).
    destruct (fifo_push_room c (client_queue_ s)) as (q & Hq & _); [done|lia|].
    destruct (fifo_push_room c (chunk_queue_ s)) as (q' & Hq' & _); [done|lia|].
    cbn in Hq, Hq'. by rewrite Hq, Hq'. }
  assert (forall pc, pc ∈ comms s -> comm_held pc <> [] -> held s <> []) as Hcomm.
  { intros pc Hpc Hne E. apply app_eq_nil in E as [E _]. apply Hne.
    apply list_elem_of_lookup in Hpc as [i Hpc]. destruct (concat_insert comm_held _ _ _ Hpc) as (r & Hr & _).
    rewrite E in Hr. apply Permutation_nil in Hr. by apply app_eq_nil in Hr as [? _]. }
  assert (forall pc, pc ∈ works s -> work_held pc <> [] -> held s <> []) as Hwork.
  { intros pc Hpc Hne E. apply app_eq_nil in E as [_ E]. apply Hne.
    apply list_elem_of_lookup in Hpc as [i Hpc]. destruct (concat_insert work_held _ _ _ Hpc) as (r & Hr & _).
    rewrite E in Hr. apply Permutation_nil in Hr. by apply app_eq_nil in Hr as [? _]. }
  split; [intros Hp; apply Hroom; by eapply Hcomm|].
  intros [Hp|Hp]; apply Hroom; [by eapply Hcomm|by eapply Hwork].
Qed.

(** C4. No wake-up is lost: while the server runs with a working thread, in
    every reachable state with a client in the queue the threads can go on,
    without any further connection, to serve the first of them. *)
Theorem pool_no_lost_wakeup n mem1 mem2 ncomm nwork :
  0 < n < INT32_MAX -> Z.of_nat (length mem1) = n + 1 -> Z.of_nat (length mem2) = n + 1 -> (0 < nwork)%nat ->
  exists chunk client, init_queues n (Some mem1) (Some mem2) = Some (chunk, client) /\
    forall s c rest, rtc step (started (seq 0 (Z.to_nat n)) ncomm nwork chunk client) s ->
      exit_flag_ s = false -> fifo_items (client_queue_ s) = c :: rest ->
      awake s /\ servable s c.
Proof.
  intros Hn H1 H2 Hw. destruct (init_queues_spec n mem1 mem2 Hn H1 H2) as (chunk & client & Hi & Hinv).
  exists chunk, client. split; [done|]. intros s c rest Hs He Hit.
  pose proof (inv_steps _ _ _ (Hinv ncomm nwork) Hs) as Hinv'.
  split; [apply Hinv'; by rewrite Hit|]. eapply servable_head; [done| |done| |done].
  - eapply running_steps; [|exact Hs]. intros _ i Hx. apply list_elem_of_lookup_2 in Hx. cbn in Hx.
    by apply elem_of_replicate in Hx as [? _].
  - intros Hnil. apply (f_equal length) in Hnil. rewrite (works_length _ _ Hs) in Hnil.
    cbn in Hnil. rewrite length_replicate in Hnil. lia.
Qed.

Lemma pool_records_witness :
  exists chunk client, init_queues 2 (Some [7; 8; 9]%nat) (Some [0; 0; 0]%nat) = Some (chunk, client) /\
    forall s, rtc step (started [0; 1]%nat 1 2 chunk client) s ->
      fifo_items (chunk_queue_ s) ++ fifo_items (client_queue_ s) ++ held s ≡ₚ [0; 1]%nat /\
      NoDup (fifo_items (chunk_queue_ s) ++ fifo_items (client_queue_ s) ++ held s).
Proof. apply (pool_records 2 [7; 8; 9]%nat [0; 0; 0]%nat 1 2); cbn; unfold INT32_MAX; lia. Defined.

Lemma pool_push_never_waits_witness :
  exists chunk client, init_queues 2 (Some [7; 8; 9]%nat) (Some [0; 0; 0]%nat) = Some (chunk, client) /\
    forall s c, rtc step (started [0; 1]%nat 1 2 chunk client) s ->
      (CPush c ∈ comms s -> Ring.push c (client_queue_ s) <> None) /\
      (CBack c ∈ comms s \/ WBack c ∈ works s -> Ring.push c (chunk_queue_ s) <> None).
Proof. apply (pool_push_never_waits 2 [7; 8; 9]%nat [0; 0; 0]%nat 1 2); cbn; unfold INT32_MAX; lia. Defined.

Lemma pool_no_lost_wakeup_witness :
  exists chunk client, init_queues 2 (Some [7; 8; 9]%nat) (Some [0; 0; 0]%nat) = Some (chunk, client) /\
    forall s c rest, rtc step (started [0; 1]%nat 1 2 chunk client) s ->
      exit_flag_ s = false -> fifo_items (client_queue_ s) = c :: rest ->
      awake s /\ servable s c.
Proof. apply (pool_no_lost_wakeup 2 [7; 8; 9]%nat [0; 0; 0]%nat 1 2); cbn; unfold INT32_MAX; lia. Defined.

(** One step of a given thread of a concrete state. *)
Local Ltac comm_turn i rule := eapply rtc_l;
  [eapply (step_comm _ i); [reflexivity|eapply rule; first [reflexivity|left; reflexivity]]|]; cbn.
Local Ltac work_turn i rule := eapply rtc_l;
  [eapply (step_work _ i); [reflexivity|eapply rule; reflexivity]|]; cbn.
Local Ltac accept_client :=
  comm_turn 0%nat @comm_loop; comm_turn 0%nat @comm_pop; comm_turn 0%nat @comm_accept;
  comm_turn 0%nat @comm_timeout; comm_turn 0%nat @comm_push;
  eapply rtc_l; [eapply (step_comm _ 0%nat); [reflexivity|apply comm_signal]|]; cbn.

(** Two signals before a wake-up count as one: a reachable state has a
    client in the queue, one working thread busy with an earlier client and
    the other asleep on the trigger, which nobody is going to signal. *)
Theorem pool_coalesced_signals :
  exists chunk client s, init_queues 2 (Some [7; 8; 9]%nat) (Some [0; 0; 0]%nat) = Some (chunk, client) /\
    rtc step (started [0; 1]%nat 1 2 chunk client) s /\
    fifo_items (client_queue_ s) = [1]%nat /\ works s = [WServe 0; WWait] /\
    wait (client_trigger_ s) = None /\ comms s = [CLoop].
Proof.
  eexists _, _, _. split; [reflexivity|]. split.
  - unfold started. cbn. accept_client. accept_client.
    work_turn 1%nat @work_loop. work_turn 0%nat @work_loop. work_turn 0%nat @work_wait. work_turn 0%nat @work_pop.
    apply rtc_refl.
  - repeat split.
Qed.

End Threads.
