(* ===== verification/ServerConfig.v ===== *)
(** * ServerConfig: the settings of QTcpServer

    The defaults of the constructor and [load_server_config] of
    src/include/common/qtcpsocket.cc.  Each setting is known by its name in
    the configuration file; the table lists the getter called for each, in
    the order of the calls. *)

From S2P Require Import Prelude CLib ConfigReader FileSystem Protocol.

Module ServerConfig.
Import Config Proto.

Inductive value : Type := Null | Text (s : bytes) | Number (n : Z).
Inductive getter : Type := GetString | GetUint16 | GetInt32 | GetYesNo.
Abbreviation settings := (gmap bytes value).

(** The members set by the constructor that the file may override. *)
Definition defaults : settings := list_to_map
  [(str "pidfile", Text (str "/var/run/niu.pid")); (str "server-name", Null);
   (str "server-port", Number TCP_DEFAULT_SERVER_PORT); (str "monitor-port", Number TCP_DEFAULT_MONITOR_PORT);
   (str "server-timeout", Number TCP_DEFAULT_SERVER_TIMEOUT);
   (str "comm-thread-max", Number TCP_DEFAULT_THREAD_NUM); (str "comm-buffer-size", Number TCP_DEFAULT_BUFFER_SIZE);
   (str "comm-thread-timeout", Number TCP_DEFAULT_THREAD_TIMEOUT);
   (str "work-thread-max", Number TCP_DEFAULT_THREAD_NUM); (str "work-buffer-size", Number TCP_DEFAULT_BUFFER_SIZE);
   (str "work-thread-timeout", Number TCP_DEFAULT_THREAD_TIMEOUT);
   (str "send-thread-max", Number TCP_DEFAULT_THREAD_NUM); (str "send-buffer-size", Number TCP_DEFAULT_BUFFER_SIZE);
   (str "send-thread-timeout", Number TCP_DEFAULT_THREAD_TIMEOUT);
   (str "queue-size", Number TCP_DEFAULT_QUEUE_SIZE); (str "send-ip", Null); (str "send-port", Number 0);
   (str "data-path", Null); (str "read-path", Null); (str "write-path", Null);
   (str "log-path", Text (str "../log/")); (str "log-prefix", Null);
   (str "log-screen", Number TCP_DEFAULT_LOG_SCREEN); (str "log-size", Number TCP_DEFAULT_LOG_SIZE)].

(** The calls of [load_server_config].  The member a call fills goes by the name
    of the setting it is read from. *)
Definition config_calls : list (bytes * getter) :=
  [(str "pidfile", GetString); (str "server-name", GetString); (str "server-port", GetUint16);
   (str "monitor-port", GetUint16); (str "server-timeout", GetInt32);
   (str "comm-thread-max", GetInt32); (str "comm-buffer-size", GetInt32); (str "comm-thread-timeout", GetInt32);
   (str "work-thread-max", GetInt32); (str "work-buffer-size", GetInt32); (str "work-thread-timeout", GetInt32);
   (str "send-thread-max", GetInt32); (str "send-buffer-size", GetInt32); (str "send-thread-timeout", GetInt32);
   (str "queue-size", GetInt32); (str "send-ip", GetString); (str "send-port", GetInt32);
   (str "data-path", GetString); (str "read-path", GetString); (str "write-path", GetString);
   (str "log-path", GetString); (str "log-prefix", GetString); (str "log-screen", GetYesNo);
   (str "log-size", GetInt32)].

Definition number_of (v : option value) : Z := match v with Some (Number n) => n | _ => 0 end.

(** One getter call: return value and what the member holds afterwards. *)
Definition get_setting (config : QConfigReader) (g : getter) (name : bytes) (old : option value) :
    Z * option value :=
  let num (r : Z * Z) := if r.1 <? 0 then (r.1, old) else (r.1, Some (Number r.2)) in
  match g with
  | GetString => match getFieldString_dup name config with
                 | (r, Some s) => (r, Some (Text s))
                 | (r, None) => (r, old)
                 end
  | GetUint16 => num (getFieldUint16 name config (number_of old))
  | GetInt32 => num (getFieldInt32 name config (number_of old))
  | GetYesNo => num (getFieldYesNo name config (number_of old))
  end.

(** [ret=config_->getField...(name, member); if(ret<0) return TCP_ERR;] for
    each call in turn. *)
Fixpoint run_calls (config : QConfigReader) (calls : list (bytes * getter)) (s : settings) : Z * settings :=
  match calls with
  | [] => (TCP_OK, s)
  | (name, g) :: calls =>
      let '(ret, v) := get_setting config g name (s !! name) in
      let s := match v with Some v => <[name := v]> s | None => s end in
      if ret <? 0 then (TCP_ERR, s) else run_calls config calls s
  end.

(** [alloc] is whether [q_new] of the reader succeeds. *)
Definition load_server_config (cfg_file : option bytes) (fopen : bytes -> option bytes) (alloc : bool)
    (s : settings) : Z * settings :=
  if negb alloc then (TCP_ERR, s)
  else
    let '(ret, config) := Config.init cfg_file fopen (mkQConfigReader None) in
    if ret <? 0 then (TCP_ERR, s) else run_calls config config_calls s.

(** ** What a file of settings means *)

(** The value a getter reads from the text of a setting. *)
Definition meaning (g : getter) (v : bytes) : option value :=
  match g with
  | GetString => Some (Text v)
  | GetUint16 => if bool_decide (v = []) then None else Some (Number (u16 (atoi v)))
  | GetInt32 => if bool_decide (v = []) then None else Some (Number (atoi v))
  | GetYesNo => if strcasecmp v (str "yes") =? 0 then Some (Number 1)
                else if strcasecmp v (str "no") =? 0 then Some (Number 0) else None
  end.

(** The value the file gives to a setting. *)
Definition given (items : list item) (name : bytes) (g : getter) : option value :=
  first_value name items ≫= meaning g.

(** A numeric getter on a rendered file. *)
Lemma getField_render conv items name old :
  name_ok name -> Forall item_ok items -> (forall s t, conv (s ++ NUL :: t) = conv s) ->
  getField conv name (mkQConfigReader (Some (render items))) old =
  match first_value name items with
  | Some v => if bool_decide (v = []) then (-1, old) else (0, conv v)
  | None => (-1, old)
  end.
Proof.
  intros Hn Hok Hc. unfold getField. destruct (first_value name items) as [v|] eqn:E.
  - case_bool_decide as Hv; [subst; rewrite field_text_absent by auto; done|].
    rewrite (field_text_render name items v) by done. f_equal.
    pose proof (first_value_length name items v Hok E). unfold BUFSIZ_1K in *.
    destruct (1024 - length v)%nat eqn:El; [lia|]. cbn [replicate]. apply Hc.
  - by rewrite field_text_absent by auto.
Qed.

Lemma getFieldYesNo_render items name old :
  name_ok name -> Forall item_ok items ->
  getFieldYesNo name (mkQConfigReader (Some (render items))) old =
  match first_value name items ≫= meaning GetYesNo with
  | Some (Number n) => (0, n)
  | _ => (-1, old)
  end.
Proof.
  intros Hn Hok. unfold getFieldYesNo. destruct (first_value name items) as [v|] eqn:E; cbn [mbind option_bind].
  - destruct (decide (v = [])) as [->|Hv]; [rewrite field_text_absent by auto; done|].
    rewrite (field_text_render name items v) by done.
    pose proof (first_value_length name items v Hok E). unfold BUFSIZ_1K in *.
    destruct (1024 - length v)%nat eqn:El; [lia|]. cbn [replicate]. rewrite !strcasecmp_nul.
    unfold meaning. destruct (strcasecmp v (str "yes") =? 0); [done|]. by destruct (strcasecmp v (str "no") =? 0).
  - by rewrite field_text_absent by auto.
Qed.

Lemma get_setting_render items g name old :
  name_ok name -> Forall item_ok items ->
  exists r, get_setting (mkQConfigReader (Some (render items))) g name old =
    match given items name g with Some v => (r, Some v) | None => (-1, old) end /\ 0 <= r.
Proof.
  intros Hn Hok. unfold get_setting, given. destruct g.
  - rewrite getFieldString_dup_first by done. destruct (first_value name items) as [v|]; cbn; eexists; split; try done; lia.
  - unfold getFieldUint16. rewrite getField_render by (done || (intros; by rewrite atoi_nul)).
    exists 0. split; [|lia]. destruct (first_value name items) as [v|]; [|done]. cbn. by case_bool_decide.
  - unfold getFieldInt32. rewrite getField_render by (done || apply atoi_nul).
    exists 0. split; [|lia]. destruct (first_value name items) as [v|]; [|done]. cbn. by case_bool_decide.
  - rewrite getFieldYesNo_render by done. exists 0. split; [|lia].
    destruct (first_value name items) as [v|]; [|done]. cbn [mbind option_bind]. unfold meaning.
    destruct (strcasecmp v (str "yes") =? 0); [done|]. by destruct (strcasecmp v (str "no") =? 0).
Qed.

(** The settings after the calls that succeed. *)
Fixpoint assign (items : list item) (calls : list (bytes * getter)) (s : settings) : Z * settings :=
  match calls with
  | [] => (TCP_OK, s)
  | (name, g) :: calls =>
      match given items name g with
      | Some v => assign items calls (<[name := v]> s)
      | None => (TCP_ERR, s)
      end
  end.

Lemma run_calls_render items calls s :
  Forall (fun c => name_ok c.1) calls -> Forall item_ok items ->
  run_calls (mkQConfigReader (Some (render items))) calls s = assign items calls s.
Proof.
  intros Hc Hok. revert s. induction Hc as [|[name g] calls Hn _ IH]; intros s; cbn [run_calls assign]; [done|].
  destruct (get_setting_render items g name (s !! name) Hn Hok) as (r & -> & Hr).
  destruct (given items name g) as [v|].
  - destruct (Z.ltb_spec r 0); [lia|]. apply IH.
  - change (-1 <? 0) with true. cbn iota. destruct (s !! name) as [v|] eqn:E; [|done].
    by rewrite insert_id.
Qed.

Lemma assign_ok items calls s :
  (forall name g, (name, g) ∈ calls -> is_Some (given items name g)) -> NoDup calls.*1 ->
  exists s', assign items calls s = (TCP_OK, s') /\
    (forall name g, (name, g) ∈ calls -> s' !! name = given items name g) /\
    (forall name, name ∉ calls.*1 -> s' !! name = s !! name).
Proof.
  intros Hg Hnd. revert s. induction calls as [|[name g] calls IH]; intros s; cbn [assign].
  { exists s. split; [done|]. split; [|done]. intros ?? H. by apply not_elem_of_nil in H. }
  cbn in Hnd. apply NoDup_cons in Hnd as [Hn Hnd].
  destruct (Hg name g) as [v Hv]; [left|]. rewrite Hv.
  destruct (IH ltac:(intros; apply Hg; by right) Hnd (<[name := v]> s)) as (s' & -> & Hin & Hout).
  exists s'. split; [done|]. split.
  - intros n' g' [E|H]%elem_of_cons; [|by apply Hin]. injection E as -> ->.
    rewrite Hout by done. by rewrite lookup_insert_eq.
  - intros n' Hn'. cbn in Hn'. apply not_elem_of_cons in Hn' as [Hne Hn'].
    rewrite Hout by done. by rewrite lookup_insert_ne.
Qed.

(** The first setting the file does not give. *)
Lemma assign_missing items calls1 name g calls2 s :
  Forall (fun c => is_Some (given items c.1 c.2)) calls1 -> given items name g = None ->
  (assign items (calls1 ++ (name, g) :: calls2) s).1 = TCP_ERR.
Proof.
  intros H1 H2. revert s. induction H1 as [|[n' g'] calls1 [v Hv] _ IH]; intros s; cbn [app assign].
  - by rewrite H2.
  - cbn in Hv. rewrite Hv. apply IH.
Qed.

Lemma config_names_ok : Forall (fun c => name_ok c.1) config_calls.
Proof. repeat constructor; done. Qed.

Lemma config_names_nodup : NoDup config_calls.*1.
Proof. apply (bool_decide_eq_true_1 _). by_vm. Qed.

Lemma load_render items path fopen s :
  Forall item_ok items -> fopen path = Some (render items) ->
  load_server_config (Some path) fopen true s = assign items config_calls s.
Proof.
  intros Hok Hf. unfold load_server_config, Config.init. rewrite Hf. cbn [negb].
  apply run_calls_render; [exact config_names_ok|done].
Qed.

Lemma assign_ret items calls s :
  (assign items calls s).1 = TCP_OK <-> (forall name g, (name, g) ∈ calls -> is_Some (given items name g)).
Proof.
  revert s. induction calls as [|[name g] calls IH]; intros s; cbn [assign].
  { split; [|done]. intros _ ?? H. by apply not_elem_of_nil in H. }
  destruct (given items name g) as [v|] eqn:E.
  - rewrite IH. split; intros H n' g' Hin; [apply elem_of_cons in Hin as [[= -> ->]|]; eauto|by apply H; right].
  - split; [done|]. intros H. destruct (H name g) as [? Hx]; [left|congruence].
Qed.

(** C40. [load_server_config] succeeds on a file of settings exactly when the
    file gives every one of the 24 settings a value of the right form, and
    then every member holds the value of the first line with its name. *)
Theorem load_server_config_render items path fopen s :
  Forall item_ok items -> fopen path = Some (render items) ->
  let '(ret, s') := load_server_config (Some path) fopen true s in
  (ret = TCP_OK <-> (forall name g, (name, g) ∈ config_calls -> is_Some (given items name g))) /\
  (ret = TCP_OK -> forall name g, (name, g) ∈ config_calls -> s' !! name = given items name g).
Proof.
  intros Hok Hf. rewrite (load_render items path fopen s Hok Hf).
  pose proof (assign_ret items config_calls s) as Hret.
  destruct (assign items config_calls s) as [ret s'] eqn:E. cbn [fst] in Hret. split; [done|].
  intros Hr name g Hin. destruct (assign_ok items config_calls s) as (s2 & E2 & Hv & _);
    [by apply Hret|exact config_names_nodup|]. rewrite E in E2. injection E2 as _ ->. by apply Hv.
Qed.

(** ** Settings nobody reads *)

Definition config_names : list bytes := lower <$> config_calls.*1.

(** A line whose key is the name of a setting. *)
Definition read_key (i : item) : bool :=
  match i with Entry key _ _ _ _ => bool_decide (lower key ∈ config_names) | Comment _ => false end.

Lemma first_value_read name items :
  lower name ∈ config_names -> first_value name (filter (fun i => read_key i = true) items) = first_value name items.
Proof.
  intros Hn. induction items as [|i items IH]; [done|]. rewrite filter_cons.
  destruct i as [key g1 g2 v t|c]; cbn [first_value read_key]; [|by rewrite decide_False].
  case_bool_decide as Hk; [rewrite decide_True by done|rewrite decide_False by done]; cbn [first_value].
  - by rewrite IH.
  - rewrite bool_decide_eq_false_2; [done|]. intros E. by rewrite E in Hk.
Qed.

Lemma assign_ext items items' calls s :
  (forall name g, (name, g) ∈ calls -> given items name g = given items' name g) ->
  assign items calls s = assign items' calls s.
Proof.
  revert s. induction calls as [|[name g] calls IH]; intros s H; cbn [assign]; [done|].
  rewrite <- (H name g) by left. destruct (given items name g); [|done]. apply IH. intros. apply H. by right.
Qed.

(** Every line whose key is not one of the 24 names is without effect:
    the file without these lines loads to the same result.  Among them are
    daemonize, tcp-backlog and max-clients, which the distributed
    configuration file sets and documents. *)
Theorem load_server_config_ignores items path fopen path' fopen' s :
  Forall item_ok items -> fopen path = Some (render items) ->
  fopen' path' = Some (render (filter (fun i => read_key i = true) items)) ->
  load_server_config (Some path) fopen true s = load_server_config (Some path') fopen' true s /\
  (forall key, key ∈ [str "daemonize"; str "tcp-backlog"; str "max-clients"] -> lower key ∉ config_names).
Proof.
  intros Hok Hf Hf'. split.
  - rewrite (load_render items path fopen s Hok Hf). rewrite (load_render (filter (fun i => read_key i = true) items) path' fopen' s); [| |done].
    2:{ apply Forall_forall. intros i [_ Hi]%list_elem_of_filter. by eapply Forall_forall in Hok. }
    apply assign_ext. intros name g Hin. unfold given. rewrite first_value_read; [done|].
    unfold config_names. apply list_elem_of_fmap. exists name. split; [done|].
    apply list_elem_of_fmap. by exists (name, g).
  - assert (forallb (fun key => negb (bool_decide (lower key ∈ config_names)))
      [str "daemonize"; str "tcp-backlog"; str "max-clients"] = true) as H by by_vm.
    intros key Hin Hc. rewrite forallb_forall in H. specialize (H key). rewrite <- list_elem_of_In in H.
    specialize (H Hin). by rewrite bool_decide_eq_true_2 in H.
Qed.

(** The settings of conf/init.cnf, in its order. *)
Definition init_cnf : list item :=
  [Comment (str "# ImageDFS configuration file"); Entry (str "daemonize") 1 1 (str "no") [];
   Entry (str "pidfile") 1 1 (str "/var/run/idfs.pid") []; Entry (str "tcp-backlog") 1 1 (str "511") [];
   Entry (str "server-name") 1 1 (str "ImageDFS") []; Entry (str "server-port") 1 1 (str "8190") [];
   Entry (str "monitor-port") 1 1 (str "8112") []; Entry (str "server-timeout") 1 1 (str "12000") [];
   Entry (str "comm-thread-max") 1 1 (str "1") []; Entry (str "comm-buffer-size") 1 1 (str "1024") [];
   Entry (str "comm-thread-timeout") 1 1 (str "8000") []; Entry (str "work-thread-max") 1 1 (str "18") [];
   Entry (str "work-buffer-size") 1 1 (str "1024") []; Entry (str "work-thread-timeout") 1 1 (str "12000") [];
   Entry (str "send-thread-max") 1 1 (str "0") []; Entry (str "send-buffer-size") 1 1 (str "10240") [];
   Entry (str "send-thread-timeout") 1 1 (str "8000") []; Entry (str "queue-size") 1 1 (str "200") [];
   Entry (str "max-clients") 1 1 (str "100") []; Entry (str "send-ip") 1 1 (str "192.168.1.100") [];
   Entry (str "send-port") 1 1 (str "22222") []; Entry (str "img-path") 1 1 (str "/data1/img") [];
   Entry (str "img-dir") 1 1 (str "img005") []; Entry (str "img-subdir-num") 1 1 (str "1000") [];
   Entry (str "data-path") 1 1 (str "./data/") []; Entry (str "read-path") 1 1 (str "./data/read.snd") [];
   Entry (str "write-path") 1 1 (str "./data/write.snd") [];
   Entry (str "mongo-uri") 1 1 (str "mongodb://192.168.1.91:27017") [];
   Entry (str "mongo-img-collection") 1 1 (str "IDDS.imgdb") []; Entry (str "log-path") 1 1 (str "../log/") [];
   Entry (str "log-prefix") 1 1 (str "idfs") []; Entry (str "log-screen") 1 1 (str "yes") [];
   Entry (str "log-size") 1 1 (str "10240") []].

Definition item_check (i : item) : bool :=
  bool_decide (x0a ∉ item_line i) && (length (item_line i) <? BUFSIZ_1K - 1)%nat &&
  match i with
  | Entry key g1 g2 value trail =>
      negb (bool_decide (key = [])) && forallb name_char key && forallb (fun b => negb (beqb b NUL)) value &&
      negb (beqb (hd x00 value) x20) &&
      match last (x3d :: value) with Some b => negb (is_enter b) | None => true end &&
      (negb (bool_decide (value = [])) || (g2 =? 0)%nat) && forallb is_enter trail
  | Comment text => negb (name_char (hd x0a text))
  end.

Lemma item_check_ok i : item_check i = true -> item_ok i.
Proof.
  unfold item_check, item_ok. intros H. repeat rewrite andb_true_iff in H. destruct H as [[H1 H2] H3].
  apply bool_decide_eq_true in H1. apply Nat.ltb_lt in H2. split; [done|]. split; [done|].
  destruct i as [key g1 g2 value trail|text]; [|by apply negb_true_iff in H3].
  repeat rewrite andb_true_iff in H3. destruct H3 as [[[[[[H3 H4] H5] H6] H7] H8] H9].
  apply negb_true_iff, bool_decide_eq_false in H3. apply negb_true_iff in H6.
  rewrite forallb_forall in H4, H5, H9. split; [split; [done|]|].
  - apply Forall_forall. intros b Hb. apply H4. by apply list_elem_of_In.
  - split; [|split; [done|split]].
    + apply Forall_forall. intros b Hb ->. specialize (H5 NUL). rewrite <- list_elem_of_In in H5. by specialize (H5 Hb).
    + destruct (last (x3d :: value)); [by apply negb_true_iff in H7|done].
    + split; [|apply Forall_forall; intros b Hb; apply H9; by apply list_elem_of_In].
      intros ->. cbn in H8. by apply Nat.eqb_eq.
Qed.

Lemma init_cnf_ok : Forall item_ok init_cnf.
Proof.
  assert (forallb item_check init_cnf = true) as H by by_vm. rewrite forallb_forall in H.
  apply Forall_forall. intros i Hi. apply item_check_ok, H. by apply list_elem_of_In.
Qed.

Definition fopen0 (items : list item) (p : bytes) : option bytes := Some (render items).

Lemma load_server_config_render_witness :
  exists s', load_server_config (Some (str "../conf/init.cnf")) (fopen0 init_cnf) true defaults = (TCP_OK, s') /\
    s' !! str "server-port" = Some (Number 8190) /\ s' !! str "log-screen" = Some (Number 1) /\
    s' !! str "write-path" = Some (Text (str "./data/write.snd")).
Proof.
  pose proof (load_server_config_render init_cnf (str "../conf/init.cnf") (fopen0 init_cnf) defaults
    init_cnf_ok eq_refl) as H.
  destruct (load_server_config (Some (str "../conf/init.cnf")) (fopen0 init_cnf) true defaults) as [ret s'].
  destruct H as [Hr Hv].
  assert (ret = TCP_OK) as ->.
  { apply Hr. assert (forallb (fun c => bool_decide (is_Some (given init_cnf c.1 c.2))) config_calls = true) as Ha by by_vm.
    rewrite forallb_forall in Ha. intros name g Hin. apply list_elem_of_In, Ha in Hin.
    by apply bool_decide_eq_true in Hin. }
  exists s'. split; [reflexivity|]. repeat split.
  - rewrite (Hv eq_refl _ GetUint16); [by_vm|]. do 2 right. left.
  - rewrite (Hv eq_refl _ GetYesNo); [by_vm|]. do 22 right. left.
  - rewrite (Hv eq_refl _ GetString); [by_vm|]. do 19 right. left.
Defined.

Lemma load_server_config_ignores_witness :
  load_server_config (Some (str "a")) (fopen0 init_cnf) true defaults =
  load_server_config (Some (str "b")) (fopen0 (filter (fun i => read_key i = true) init_cnf)) true defaults.
Proof.
  by apply (load_server_config_ignores init_cnf (str "a") (fopen0 init_cnf) (str "b")
    (fopen0 (filter (fun i => read_key i = true) init_cnf)) defaults init_cnf_ok).
Defined.

End ServerConfig.
