(* ===== verification/Spool.v ===== *)
(** * Spool: the store-and-forward files of QTcpServer

    [write_data_file] appends records to the spool file, [q_repair_file] cuts
    a torn record off at the next start, [send_thread] reads the records back
    and delivers each until it is acknowledged, [backup_file] appends them to
    the file of the day (src/include/common/qtcpsocket.cc and the file helpers
    of qglobal.h and qfile.cc). *)

From S2P Require Import Prelude CLib Sockets Protocol FileSystem.

Module Spool.
Import Sock Proto Fs.

(** ** Records *)

(** A record on disk: header, payload, end mark. *)
Definition encode_record (payload : bytes) : bytes :=
  le_encode 8 TCP_HEADER_VERSION ++ le_encode 4 (Z.of_nat (length payload)) ++ payload ++
  le_encode 8 TCP_TAILER_FILE_MARK.

(** [fwrite(data, len, 1, fp)!=1] fails for an empty block; [io] is how many
    bytes each incomplete write of the disk gets through. *)
Definition fwrite (data : bytes) (io : list (option nat)) (file : bytes) :
    bool * list (option nat) * bytes :=
  match data with
  | [] => (false, io, file)
  | _ => match io with
         | Some k :: io => (false, io, file ++ take k data)
         | None :: io => (true, io, file ++ data)
         | [] => (true, [], file ++ data)
         end
  end.

(** Return value and the file afterwards; [opened] is whether [fp_w] already
    is the file, positioned at its end; opening it anew empties it.  The loops
    that wait for the disk are left when it works again. *)
Definition write_data_file (opened : bool) (buf : bytes) (io : list (option nat)) (file : bytes) : Z * bytes :=
  let file := if opened then file else [] in
  let offset := length file in
  let header := le_encode 8 TCP_HEADER_VERSION ++ le_encode 4 (Z.of_nat (length buf)) in
  let '(ok, io, file) := fwrite header io file in
  if negb ok then (-2, take offset file)
  else
    let '(ok, io, file) := fwrite buf io file in
    if negb ok then (-3, take offset file)
    else
      let '(ok, io, file) := fwrite (le_encode 8 TCP_TAILER_FILE_MARK) io file in
      if negb ok then (-4, take offset file) else (0, file).

Lemma fwrite_prefix data io file :
  exists w, (fwrite data io file).2 = file ++ w /\ ((fwrite data io file).1.1 = true -> w = data /\ data <> []).
Proof.
  unfold fwrite. destruct data as [|b data]; [exists []; by rewrite app_nil_r|].
  destruct io as [|[k|] io]; eexists; by split.
Qed.

Lemma fwrite_ok data file : data <> [] -> fwrite data [] file = (true, [], file ++ data).
Proof. by destruct data. Qed.

(** C14. Whatever the disk does, [write_data_file] on an open stream either
    appends the whole record and returns 0 or returns an error and leaves the
    file as it was.  On a closed stream the file is first emptied by
    [fopen(..., "wb")], and then holds exactly the new record or, after an
    error, nothing.  Without disk errors a non-empty record is written. *)
Theorem write_data_file_atomic (opened : bool) buf io file :
  let '(ret, file') := write_data_file opened buf io file in
  (if opened
   then ret = 0 /\ file' = file ++ encode_record buf \/ ret < 0 /\ file' = file
   else ret = 0 /\ file' = encode_record buf \/ ret < 0 /\ file' = []) /\
  (io = [] -> buf <> [] -> ret = 0).
Proof.
  set (base := if opened then file else []).
  assert (forall ret file', (ret = 0 /\ file' = base ++ encode_record buf \/ ret < 0 /\ file' = base) ->
    if opened then ret = 0 /\ file' = file ++ encode_record buf \/ ret < 0 /\ file' = file
    else ret = 0 /\ file' = encode_record buf \/ ret < 0 /\ file' = []) as Hbase
    by (intros ??; by destruct opened).
  unfold write_data_file. fold base.
  set (header := le_encode 8 TCP_HEADER_VERSION ++ le_encode 4 (Z.of_nat (length buf))).
  set (mark := le_encode 8 TCP_TAILER_FILE_MARK).
  assert (forall w, take (length base) (base ++ w) = base) as Htake by (intros; by apply take_app_length').
  destruct (fwrite_prefix header io base) as (w1 & H1 & H1').
  destruct (fwrite header io base) as [[ok1 io1] file1] eqn:E1. cbn [fst snd] in *. subst file1.
  destruct ok1; cbn [negb].
  2:{ rewrite Htake. split; [apply Hbase; right; split; [lia|done]|]. intros -> _. by rewrite fwrite_ok in E1. }
  destruct (fwrite_prefix buf io1 (base ++ w1)) as (w2 & H2 & H2').
  destruct (fwrite buf io1 (base ++ w1)) as [[ok2 io2] file2] eqn:E2. cbn [fst snd] in *. subst file2.
  rewrite <- app_assoc. destruct ok2; cbn [negb].
  2:{ rewrite Htake. split; [apply Hbase; right; split; [lia|done]|]. intros -> Hb.
      rewrite fwrite_ok in E1 by done. injection E1 as <- _. by rewrite fwrite_ok in E2. }
  destruct (fwrite_prefix mark io2 (base ++ w1 ++ w2)) as (w3 & H3 & H3').
  destruct (fwrite mark io2 (base ++ w1 ++ w2)) as [[ok3 io3] file3] eqn:E3. cbn [fst snd] in *. subst file3.
  rewrite <- !app_assoc. destruct ok3; cbn [negb].
  2:{ rewrite Htake. split; [apply Hbase; right; split; [lia|done]|]. intros -> Hb.
      rewrite fwrite_ok in E1 by done. injection E1 as <- _. rewrite fwrite_ok in E2 by done.
      injection E2 as <- _. by rewrite fwrite_ok in E3. }
  destruct (H1' eq_refl) as [-> _]. destruct (H2' eq_refl) as [-> _]. destruct (H3' eq_refl) as [-> _].
  split; [apply Hbase; left|done]. split; [done|]. unfold header, encode_record. by rewrite <- !app_assoc.
Qed.

(** ** Reading a record *)

Inductive record_result : Type :=
  | Record_ok (header payload mark rest : bytes)
  | Record_error (err : Z)
  | Record_overrun.            (* a read past the end of the buffer *)

(** The three reads of a record and their checks.  A negative length passes
    the size check and becomes a huge [size_t]: all that is left is read.
    [codes] are the codes of a short header, a long record, a short payload,
    a short mark and a wrong mark; [version] is the code of a wrong version,
    when it is checked. *)
Definition read_record (version : option Z) (codes : Z * Z * Z * Z * Z) (buf_size : Z) (file : bytes) :
    record_result :=
  let '(e_header, e_size, e_payload, e_mark, e_wrong) := codes in
  if (length file <? 12)%nat then Record_error e_header
  else
    let header := take 12 file in
    let file := drop 12 file in
    let bad_version := negb (get_u64 baseHeader_version header =? TCP_HEADER_VERSION) in
    match (if bad_version then version else None) with
    | Some err => Record_error err
    | None =>
        let len := get_i32 baseHeader_length header in
        if buf_size <? len then Record_error e_size
        else if len <? 0 then
          if buf_size <? Z.of_nat (length file) then Record_overrun else Record_error e_payload
        else if (len =? 0) || (Z.of_nat (length file) <? len) then Record_error e_payload
        else
          let payload := take (Z.to_nat len) file in
          let file := drop (Z.to_nat len) file in
          if (length file <? 8)%nat then Record_error e_mark
          else if negb (le_decode (take 8 file) =? TCP_TAILER_FILE_MARK) then Record_error e_wrong
          else Record_ok header payload (take 8 file) (drop 8 file)
    end.

Definition send_codes : Z * Z * Z * Z * Z := (-1, -3, -4, -5, -6).
Definition backup_codes : Z * Z * Z * Z * Z := (-4, -5, -6, -7, -8).

Definition record_ok (buf_size : Z) (r : bytes) : Prop := 0 < Z.of_nat (length r) <= buf_size.

(** A record that was written is read back. *)
Lemma read_record_encode version codes buf_size r rest :
  record_ok buf_size r -> buf_size <= INT32_MAX ->
  read_record version codes buf_size (encode_record r ++ rest) =
  Record_ok (le_encode 8 TCP_HEADER_VERSION ++ le_encode 4 (Z.of_nat (length r))) r
    (le_encode 8 TCP_TAILER_FILE_MARK) rest.
Proof.
  intros Hr Hb. unfold read_record. destruct codes as [[[[c1 c2] c3] c4] c5].
  set (header := le_encode 8 TCP_HEADER_VERSION ++ le_encode 4 (Z.of_nat (length r))).
  assert (length header = 12%nat) as Hh by (unfold header; len).
  replace (encode_record r ++ rest) with (header ++ r ++ le_encode 8 TCP_TAILER_FILE_MARK ++ rest)
    by (unfold header, encode_record; by rewrite <- !app_assoc).
  destruct (Nat.ltb_spec (length (header ++ r ++ le_encode 8 TCP_TAILER_FILE_MARK ++ rest)) 12); [len|].
  rewrite (take_app_length' header), (drop_app_length' header) by done.
  assert (get_u64 baseHeader_version header = TCP_HEADER_VERSION) as ->
    by (unfold header, get_u64; by region).
  rewrite Z.eqb_refl. cbn [negb].
  assert (get_i32 baseHeader_length header = Z.of_nat (length r)) as ->.
  { unfold header, get_i32. rewrite <- (app_nil_r (le_encode 4 _)). region.
    rewrite i32_le_decode. apply i32_small. unfold is_i32, INT32_MIN, INT32_MAX, record_ok in *. lia. }
  unfold record_ok in Hr. destruct (Z.ltb_spec buf_size (Z.of_nat (length r))); [lia|].
  destruct (Z.ltb_spec (Z.of_nat (length r)) 0); [lia|].
  destruct (Z.eqb_spec (Z.of_nat (length r)) 0); [lia|]. cbn [orb].
  destruct (Z.ltb_spec (Z.of_nat (length (r ++ le_encode 8 TCP_TAILER_FILE_MARK ++ rest))) (Z.of_nat (length r))); [len|].
  rewrite Nat2Z.id, take_app_length, drop_app_length.
  destruct (Nat.ltb_spec (length (le_encode 8 TCP_TAILER_FILE_MARK ++ rest)) 8); [len|].
  rewrite (take_app_length' (le_encode 8 _)), (drop_app_length' (le_encode 8 _)) by done. done.
Qed.

(** ** Repairing a torn file *)

(** Whether the mark ends [i] bytes before the end of the buffer. *)
Definition mark_at (mark buf : bytes) (i : nat) : bool :=
  bool_decide (slice (length buf - length mark - i) (length mark) buf = mark).

(** The loop over [cur_pos], [n] rounds from [i] on: how far back the mark is. *)
Fixpoint scan_back (n i : nat) (mark buf : bytes) : option nat :=
  match n with
  | O => None
  | S n => if mark_at mark buf i then Some i else scan_back n (S i) mark buf
  end.

(** The loop over the blocks of the file, from the end; the length kept. *)
Fixpoint repair_loop (fuel : nat) (block : Z) (mark file : bytes) (file_len : Z) : Z :=
  match fuel with
  | O => 0
  | S fuel =>
      let read_len := if file_len <? block then file_len else block in
      let file_len := file_len - read_len in
      let buf := slice (Z.to_nat file_len) (Z.to_nat read_len) file in
      let loop_num := read_len - Z.of_nat (length mark) + 1 in
      if loop_num <=? 0 then 0
      else match scan_back (Z.to_nat loop_num) 0 mark buf with
           | Some i => file_len + read_len - Z.of_nat i
           | None => if file_len <=? 0 then 0 else repair_loop fuel block mark file file_len
           end
  end.

Abbreviation repair_block := (Z.shiftl 1 20)%Z (only parsing).

(** Return value and the file afterwards; [io_ok] is whether memory, the file
    and the truncation are granted.  Every round moves a block towards the
    start of the file. *)
Definition q_repair_file (mark : bytes) (io_ok : bool) (file : option bytes) : Z * option bytes :=
  match file with
  | None => (-1, None)
  | Some f =>
      let file_len := Z.of_nat (length f) in
      if file_len =? 0 then (0, file)
      else if negb io_ok then (-1, file)
      else (0, Some (take (Z.to_nat (repair_loop (S (length f)) repair_block mark f file_len)) f))
  end.

(** The mark ends after the first [k] bytes. *)
Definition ends_at (mark file : bytes) (k : nat) : Prop :=
  (length mark <= k <= length file)%nat /\ slice (k - length mark) (length mark) file = mark.

Lemma scan_back_spec n i mark buf :
  match scan_back n i mark buf with
  | Some j => (i <= j < i + n)%nat /\ mark_at mark buf j = true /\
              forall j', (i <= j' < j)%nat -> mark_at mark buf j' = false
  | None => forall j, (i <= j < i + n)%nat -> mark_at mark buf j = false
  end.
Proof.
  revert i. induction n as [|n IH]; intros i; cbn [scan_back]; [intros; lia|].
  destruct (mark_at mark buf i) eqn:E; [repeat split; [lia..|done|intros; lia]|].
  specialize (IH (S i)). destruct (scan_back n (S i) mark buf) as [j|].
  - destruct IH as (Hj & Hm & Hno). split; [lia|]. split; [done|]. intros j' Hj'.
    destruct (decide (j' = i)) as [->|]; [done|]. apply Hno. lia.
  - intros j Hj. destruct (decide (j = i)) as [->|]; [done|]. apply IH. lia.
Qed.

Lemma mark_at_ends mark file i :
  (length mark + i <= length file)%nat -> mark_at mark file i = true <-> ends_at mark file (length file - i).
Proof.
  intros Hi. unfold mark_at, ends_at. rewrite bool_decide_eq_true.
  replace (length file - i - length mark)%nat with (length file - length mark - i)%nat by lia.
  split; [intros ->; split; [lia|done]|by intros []].
Qed.

(** A mark that ends [t] bytes before the end of the file lies within one of
    the blocks, which are counted from the end. *)
Definition in_block (block : Z) (m : nat) (t : Z) : Prop := t / block = (t + Z.of_nat m - 1) / block.

Lemma in_block_first block m t : 0 <= t < block -> in_block block m t -> t + Z.of_nat m <= block.
Proof.
  intros Ht Hin. unfold in_block in Hin. rewrite (Z.div_small t) in Hin by done.
  destruct (Z.le_gt_cases (t + Z.of_nat m) block); [done|].
  assert (1 <= (t + Z.of_nat m - 1) / block) by (apply Z.div_le_lower_bound; lia). lia.
Qed.

Lemma in_block_next block m t : 0 < block -> in_block block m t <-> in_block block m (t - block).
Proof.
  intros Hb. unfold in_block. replace (t - block) with (t + (-1) * block) by lia.
  replace (t + -1 * block + Z.of_nat m - 1) with (t + Z.of_nat m - 1 + (-1) * block) by lia.
  rewrite !Z.div_add by lia. lia.
Qed.

(** The mark before [len - j] is found in the block that ends at [len]. *)
Lemma mark_at_block mark file (off n j : nat) :
  (off + n <= length file)%nat -> (length mark + j <= n)%nat ->
  mark_at mark (slice off n file) j = true <-> ends_at mark file (off + n - j).
Proof.
  intros Hn Hj. rewrite mark_at_ends by (rewrite length_slice; lia). unfold ends_at. rewrite length_slice by lia.
  rewrite slice_slice by lia. replace (off + (n - j - length mark))%nat with (off + n - j - length mark)%nat by lia.
  split; intros [? ?]; split; (done || lia).
Qed.

(** The length kept is where the last mark that lies in a block ends, and 0
    when there is none. *)
Lemma repair_loop_spec fuel block mark file (len k : nat) :
  let seen k := (k <= len)%nat /\ ends_at mark file k /\ in_block block (length mark) (Z.of_nat len - Z.of_nat k) in
  (0 < length mark)%nat -> Z.of_nat (length mark) <= block -> (0 < len <= length file)%nat -> (len < fuel)%nat ->
  Z.to_nat (repair_loop fuel block mark file (Z.of_nat len)) = k ->
  (seen k /\ forall k', seen k' -> (k' <= k)%nat) \/ (k = 0%nat /\ forall k', ~ seen k').
Proof.
  intros seen Hm Hb. revert len seen. induction fuel as [|fuel IH]; intros len seen Hl Hf; [lia|].
  cbn [repair_loop].
  set (read := if Z.of_nat len <? block then Z.of_nat len else block).
  assert (read = Z.min (Z.of_nat len) block) as Hread
    by (unfold read; destruct (Z.ltb_spec (Z.of_nat len) block); lia). clearbody read.
  set (off := (len - Z.to_nat read)%nat). set (n := Z.to_nat read).
  assert (Z.to_nat (Z.of_nat len - read) = off) as -> by lia. fold n.
  assert (forall k', seen k' -> Z.of_nat len - Z.of_nat k' < block ->
    (length mark + (len - k') <= n)%nat /\ mark_at mark (slice off n file) (len - k') = true) as Hfound.
  { intros k' (Hk & He & Hin) Hlt. apply in_block_first in Hin; [|lia].
    assert (length mark + (len - k') <= n)%nat by (destruct He as [? _]; lia). split; [done|].
    apply mark_at_block; [lia|done|]. by replace (off + n - (len - k'))%nat with k' by lia. }
  destruct (Z.leb_spec (read - Z.of_nat (length mark) + 1) 0) as [Hno|Hno].
  { intros <-. right. split; [done|]. intros k' Hk. destruct (Hfound k' Hk); lia. }
  replace (Z.to_nat (read - Z.of_nat (length mark) + 1)) with (n - length mark + 1)%nat by lia.
  pose proof (scan_back_spec (n - length mark + 1) 0 mark (slice off n file)) as Hs.
  destruct (scan_back _ 0 mark (slice off n file)) as [j|].
  - intros Hk. left. destruct Hs as (Hj & Hmj & Hlast). apply mark_at_block in Hmj; [|lia..].
    assert (k = off + n - j)%nat as Hkj by lia. split.
    + split; [lia|]. rewrite Hkj. split; [done|]. unfold in_block. rewrite !Z.div_small by lia. done.
    + intros k' Hk'. destruct (Nat.le_gt_cases k' k) as [|Hgt]; [done|].
      destruct (Hfound k' Hk') as [Hr Ht]; [lia|]. rewrite Hlast in Ht; [done|]. destruct Hk'. lia.
  - assert (forall k', seen k' -> block <= Z.of_nat len - Z.of_nat k') as Hfar.
    { intros k' Hk'. destruct (Z.le_gt_cases block (Z.of_nat len - Z.of_nat k')) as [|Hlt]; [done|].
      destruct (Hfound k' Hk' Hlt) as [Hr Ht]. rewrite Hs in Ht; [done|lia]. }
    destruct (Z.leb_spec (Z.of_nat len - read) 0).
    { intros <-. right. split; [done|]. intros k' Hk'. specialize (Hfar k' Hk').
      destruct Hk' as (_ & [? _] & _). lia. }
    replace (Z.of_nat len - read) with (Z.of_nat off) by lia. intros Ek.
    specialize (IH off ltac:(lia) ltac:(lia) Ek). cbn beta in IH.
    assert (forall k', (k' <= off)%nat /\ ends_at mark file k' /\
        in_block block (length mark) (Z.of_nat off - Z.of_nat k') <-> seen k') as Hsame.
    { intros k'. unfold seen. rewrite (in_block_next block _ (Z.of_nat len - Z.of_nat k')) by lia.
      replace (Z.of_nat len - Z.of_nat k' - block) with (Z.of_nat off - Z.of_nat k') by lia.
      split; [intros (? & ? & ?); split; [lia|done]|]. intros Hk'.
      assert (seen k') as Hk2.
      { destruct Hk' as (? & ? & ?). split; [done|]. split; [done|]. apply in_block_next; [lia|].
        by replace (Z.of_nat len - Z.of_nat k' - block) with (Z.of_nat off - Z.of_nat k') by lia. }
      specialize (Hfar k' Hk2). destruct Hk' as (_ & ? & ?). split; [lia|done]. }
    destruct IH as [[Hk Hmax]|[Hk Hnone]]; [left|right].
    + split; [by apply Hsame|]. intros k' Hk'. by apply Hmax, Hsame.
    + split; [done|]. intros k' Hk'. by apply (Hnone k'), Hsame.
Qed.

Abbreviation mark := (le_encode 8 TCP_TAILER_FILE_MARK) (only parsing).

Lemma ends_at_records rs torn :
  rs <> [] -> ends_at mark (concat (encode_record <$> rs) ++ torn) (length (concat (encode_record <$> rs))).
Proof.
  intros Hne. destruct rs as [|r rs _] using rev_ind; [done|].
  rewrite fmap_app, concat_app. cbn [fmap list_fmap concat]. rewrite app_nil_r.
  set (pre := concat (encode_record <$> rs) ++ le_encode 8 TCP_HEADER_VERSION ++ le_encode 4 (Z.of_nat (length r)) ++ r).
  replace (concat (encode_record <$> rs) ++ encode_record r) with (pre ++ mark)
    by (unfold pre, encode_record; by rewrite <- !app_assoc).
  split; [len|]. rewrite <- app_assoc, slice_app_exact; [done|len|done].
Qed.

Lemma in_block_mark t : 0 <= t -> in_block repair_block 8 t <-> t mod repair_block <= repair_block - 8.
Proof.
  intros Ht. unfold in_block. change repair_block with 1048576. change (Z.of_nat 8) with 8.
  pose proof (Z.div_mod t 1048576 ltac:(lia)). pose proof (Z.mod_pos_bound t 1048576 ltac:(lia)).
  pose proof (Z.div_mod (t + 8 - 1) 1048576 ltac:(lia)). pose proof (Z.mod_pos_bound (t + 8 - 1) 1048576 ltac:(lia)).
  lia.
Qed.

(** C13. At the next start a spool file of whole records followed by a torn one
    in which no end mark ends is cut by [q_repair_file] to a beginning of the
    whole records, so nothing of the torn record stays.  It is cut to exactly
    the whole records if and only if there are none or the last end mark lies
    within one of the blocks of 1 MiB, counted from the end of the file, that
    the code searches one by one; otherwise whole records are lost. *)
Theorem repair_recovers rs torn :
  let good := concat (encode_record <$> rs) in
  (forall k, (length good < k)%nat -> ~ ends_at mark (good ++ torn) k) ->
  (exists k, q_repair_file mark true (Some (good ++ torn)) = (0, Some (take k good))) /\
  (q_repair_file mark true (Some (good ++ torn)) = (0, Some good) <->
   rs = [] \/ Z.of_nat (length torn) mod repair_block <= repair_block - 8).
Proof.
  intros good Hno. unfold q_repair_file.
  assert (rs = [] \/ ends_at mark (good ++ torn) (length good) /\ (0 < length good)%nat) as Hrs.
  { destruct rs as [|r rs]; [by left|right]. pose proof (ends_at_records (r :: rs) torn ltac:(done)) as He.
    fold good in He. split; [done|]. destruct He as [He _]. change (length mark) with 8%nat in He. lia. }
  destruct (Z.eqb_spec (Z.of_nat (length (good ++ torn))) 0) as [E|E].
  { assert (good = [] /\ torn = []) as [-> ->] by (destruct good, torn; done). split; [by exists 0%nat|].
    split; [|done]. intros _. destruct Hrs as [|[_ H0]]; [by left|cbn in H0; lia]. }
  cbn [negb]. rewrite length_app in *.
  pose proof (repair_loop_spec (S (length good + length torn)) repair_block mark (good ++ torn) (length (good ++ torn))
    _ ltac:(apply Nat.ltb_lt; by_vm) ltac:(apply Z.leb_le; by_vm) ltac:(rewrite length_app; lia) ltac:(rewrite length_app; lia) eq_refl) as Hs.
  rewrite length_app in Hs. set (k := Z.to_nat _) in *. clearbody k.
  assert (k <= length good)%nat as Hk.
  { destruct Hs as [[(_ & He & _) _]|[-> _]]; [|lia]. destruct (Nat.le_gt_cases k (length good)) as [|Hgt]; [done|].
    by destruct (Hno k Hgt). }
  rewrite take_app_le by done. split; [by eauto|].
  rewrite <- (in_block_mark (Z.of_nat (length torn))) by lia. change 8%nat with (length mark).
  split.
  - intros Heq. destruct Hrs as [|[He H0]]; [by left|right].
    assert (k = length good) as Hkg.
    { assert (take k good = good) as Ht by congruence. apply (f_equal length) in Ht. rewrite length_take in Ht. lia. }
    destruct Hs as [[(_ & _ & Hin) _]|[Hk0 _]]; [|lia].
    by replace (Z.of_nat (length good + length torn) - Z.of_nat k) with (Z.of_nat (length torn)) in Hin by lia.
  - intros [-> |Hin]; [by destruct k|]. destruct Hrs as [-> |[He H0]]; [by destruct k|].
    assert (k = length good) as ->; [|by rewrite firstn_all].
    destruct Hs as [[_ Hmax]|[_ Hnone]].
    + apply Nat.le_antisymm; [done|]. apply Hmax. split; [lia|]. split; [done|].
      by replace (Z.of_nat (length good + length torn) - Z.of_nat (length good)) with (Z.of_nat (length torn)) by lia.
    + destruct (Hnone (length good)). split; [lia|]. split; [done|].
      by replace (Z.of_nat (length good + length torn) - Z.of_nat (length good)) with (Z.of_nat (length torn)) by lia.
Qed.

Lemma repair_recovers_witness :
  q_repair_file mark true (Some (encode_record (str "one") ++ encode_record (str "two") ++ take 20 (encode_record (str "three@#@#"))))
  = (0, Some (encode_record (str "one") ++ encode_record (str "two"))).
Proof.
  set (torn := take 20 (encode_record (str "three@#@#"))).
  pose proof (repair_recovers [str "one"; str "two"] torn) as H. cbn [fmap list_fmap concat] in H.
  rewrite app_nil_r, <- app_assoc in H. apply H; [|right; apply Z.leb_le; by_vm].
  - assert (forallb (fun k => negb (bool_decide (slice (k - 8) 8 (encode_record (str "one") ++ encode_record (str "two") ++ torn) = mark)))
      (seq 47 20) = true) as Ha by by_vm.
    intros k Hk [Hr He]. rewrite forallb_forall in Ha. specialize (Ha k).
    change (length mark) with 8%nat in *. rewrite bool_decide_eq_true_2 in Ha by exact He.
    cbn [negb] in Ha. assert (false = true) as Hf; [apply Ha, in_seq|done].
    change (length (encode_record (str "one") ++ encode_record (str "two"))) with 46%nat in Hk.
    change (length (encode_record (str "one") ++ encode_record (str "two") ++ torn)) with 66%nat in Hr. lia.
Defined.

(** A mark across the boundary of two blocks is not seen: when it is the
    only one of a file of more than one block, [q_repair_file] empties the
    file although its first [k] bytes are whole records. *)
Theorem repair_loses_straddling block m file k :
  (0 < length m)%nat -> Z.of_nat (length m) <= block < Z.of_nat (length file) ->
  Z.of_nat (length file) <= 2 * block -> ends_at m file k ->
  (forall k', ends_at m file k' -> k' = k) ->
  (length file - Z.to_nat block < k < length file - Z.to_nat block + length m)%nat ->
  repair_loop (S (length file)) block m file (Z.of_nat (length file)) = 0.
Proof.
  intros Hm Hb Hl2 Hk Honly Hstr.
  assert (forall off n, (off + n <= length file)%nat -> (length m <= n)%nat ->
    ~ (off + length m <= k <= off + n)%nat ->
    scan_back (n - length m + 1) 0 m (slice off n file) = None) as Hwin.
  { intros off n Hof Hn Hout. pose proof (scan_back_spec (n - length m + 1) 0 m (slice off n file)) as Hs.
    destruct (scan_back _ 0 m (slice off n file)) as [j|]; [|done]. destruct Hs as (Hj & Hmj & _).
    apply mark_at_ends in Hmj; [|rewrite length_slice by done; lia]. destruct Hmj as [Hr He].
    rewrite length_slice in * by done. destruct Hout.
    assert (ends_at m file (off + (n - j))) as Hx; [|apply Honly in Hx; lia].
    split; [lia|]. rewrite slice_slice in He by lia.
    by replace (off + (n - j) - length m)%nat with (off + (n - j - length m))%nat by lia. }
  assert (exists fuel, S (length file) = S (S fuel)) as [fuel ->] by (destruct (length file); [lia|eauto]).
  cbn [repair_loop]. destruct (Z.ltb_spec (Z.of_nat (length file)) block); [lia|].
  set (r := Z.of_nat (length file) - block).
  destruct (Z.leb_spec (block - Z.of_nat (length m) + 1) 0); [lia|].
  replace (Z.to_nat (block - Z.of_nat (length m) + 1)) with (Z.to_nat block - length m + 1)%nat by lia.
  rewrite Hwin by (unfold r; lia). destruct (Z.leb_spec r 0); [done|].
  assert ((if r <? block then r else block) = r) as -> by (destruct (Z.ltb_spec r block); unfold r in *; lia).
  rewrite Z.sub_diag. destruct (Z.leb_spec (r - Z.of_nat (length m) + 1) 0); [done|].
  replace (Z.to_nat (r - Z.of_nat (length m) + 1)) with (Z.to_nat r - length m + 1)%nat by lia.
  change (Z.to_nat 0) with 0%nat. rewrite Hwin by (unfold r in *; lia). done.
Qed.

Lemma repair_loses_straddling_witness :
  repair_loop 41 20 (str "END") (replicate 18 x61 ++ str "END" ++ replicate 19 x62) 40 = 0.
Proof.
  apply (repair_loses_straddling 20 (str "END") (replicate 18 x61 ++ str "END" ++ replicate 19 x62) 21);
    [cbn; lia|cbn; lia|cbn; lia|split; [cbn; lia|reflexivity]| |cbn; lia].
  assert (forallb (fun k => negb (bool_decide (slice (k - 3) 3 (replicate 18 x61 ++ str "END" ++ replicate 19 x62) = str "END")) || (k =? 21)%nat)
    (seq 3 38) = true) as Ha by by_vm.
  intros k [Hr He]. rewrite forallb_forall in Ha. specialize (Ha k). change (length (str "END")) with 3%nat in *.
  rewrite bool_decide_eq_true_2 in Ha by exact He. cbn [negb orb] in Ha. apply Nat.eqb_eq, Ha, in_seq.
  change (length (replicate 18 x61 ++ str "END" ++ replicate 19 x62)) with 40%nat in Hr. lia.
Defined.

(** ** Delivering a record *)

(** What the network does during one attempt. *)
Record try_env : Type := mkTry {
  t_connect : attempt;
  t_overtime : Z;
  t_plan : list accept;
  t_evs : list event
}.

(** One round of the [for(;;)] loop: whether it ends in [break], and what was
    put on the wire. *)
Definition try_once (payload : bytes) (t : try_env) : bool * bytes :=
  if negb ((q_connect_socket (t_connect t)).1 =? 0) then (false, [])
  else if negb (t_overtime t =? 0) then (false, [])
  else
    let '(ret, w, _) := q_sendbuf payload (t_plan t) in
    if negb (ret =? 0) then (false, w)
    else
      let '(ret, reply, _) := q_recvbuf (Z.of_nat replyHeader_sizeof) (t_evs t) in
      if negb (ret =? 0) then (false, w)
      else if negb (get_u64 replyHeader_version reply =? TCP_HEADER_VERSION) then (false, w)
      else if get_i32 replyHeader_length reply <=? 0 then (false, w)
      else if negb (get_i32 replyHeader_status reply =? 0) then (false, w)
      else (true, w).

(** The loop itself: the bytes of every attempt; [None] when the attempts run
    out before one succeeds. *)
Fixpoint deliver (payload : bytes) (tries : list try_env) : option (list bytes * list try_env) :=
  match tries with
  | [] => None
  | t :: tries =>
      let '(ok, w) := try_once payload t in
      if ok : bool then Some ([w], tries)
      else '(ws, rest) ← deliver payload tries; Some (w :: ws, rest)
  end.

Inductive sending : Type :=
  | Sent (wires : list (list bytes))
  | Send_error (err : Z) (wires : list (list bytes))
  | Send_waiting
  | Send_overrun.

(** The loop over the records of the file; every round consumes a record. *)
Fixpoint send_records (fuel : nat) (buf_size : Z) (file : bytes) (tries : list try_env)
    (file_size current_size : Z) (wires : list (list bytes)) : sending :=
  match fuel with
  | O => Send_waiting
  | S fuel =>
      if current_size <? file_size then
        match read_record (Some (-2)) send_codes buf_size file with
        | Record_error err => Send_error err wires
        | Record_overrun => Send_overrun
        | Record_ok header payload m rest =>
            match deliver payload tries with
            | None => Send_waiting
            | Some (ws, tries) =>
                send_records fuel buf_size rest tries file_size
                  (current_size + Z.of_nat baseHeader_sizeof + Z.of_nat (length payload) + 8) (wires ++ [ws])
            end
        end
      else Sent wires
  end.

Definition send_file (buf_size : Z) (file : bytes) (tries : list try_env) : sending :=
  send_records (S (length file)) buf_size file tries (Z.of_nat (length file)) 0 [].

(** The receiver accepts the record [r] on an attempt: it connects, all of [r]
    goes out, and the header that comes back has the right version, announces
    a reply and reports status 0. *)
Definition accepted (r : bytes) (t : try_env) : Prop :=
  (q_connect_socket (t_connect t)).1 = 0 /\ t_overtime t = 0 /\
  (q_sendbuf r (t_plan t)).1.1 = 0 /\
  exists reply evs, q_recvbuf (Z.of_nat replyHeader_sizeof) (t_evs t) = (0, reply, evs) /\
    get_u64 replyHeader_version reply = TCP_HEADER_VERSION /\
    0 < get_i32 replyHeader_length reply /\ get_i32 replyHeader_status reply = 0.

(** Of the attempts [ts] the last is the first to be accepted. *)
Definition accepts (r : bytes) (ts : list try_env) : Prop :=
  exists ts' t, ts = ts' ++ [t] /\ Forall (fun t => ~ accepted r t) ts' /\ accepted r t.

(** ... with [ws] on the wire, the whole record on the last attempt. *)
Definition delivered (r : bytes) (ts : list try_env) (ws : list bytes) : Prop :=
  accepts r ts /\ length ws = length ts /\ last ws = Some r.

Lemma try_once_spec r t :
  r <> [] -> let '(ok, w) := try_once r t in if ok : bool then accepted r t /\ w = r else ~ accepted r t.
Proof.
  intros Hne. unfold try_once, accepted.
  destruct (Z.eqb_spec (q_connect_socket (t_connect t)).1 0); cbn [negb]; [|by intros (? & _)].
  destruct (Z.eqb_spec (t_overtime t) 0); cbn [negb]; [|by intros (_ & ? & _)].
  destruct (q_sendbuf r (t_plan t)) as [[ret w] plan] eqn:E. cbn [fst].
  destruct (Z.eqb_spec ret 0) as [->|]; cbn [negb]; [|by intros (_ & _ & ? & _)].
  destruct (q_recvbuf _ _) as [[ret reply] evs] eqn:Er.
  destruct (Z.eqb_spec ret 0) as [->|]; cbn [negb]; [|intros (_ & _ & _ & ? & ? & ? & _); congruence].
  destruct (Z.eqb_spec (get_u64 replyHeader_version reply) TCP_HEADER_VERSION); cbn [negb];
    [|by intros (_ & _ & _ & ? & ? & [= <- <-] & ? & _)].
  destruct (Z.leb_spec (get_i32 replyHeader_length reply) 0);
    [intros (_ & _ & _ & ? & ? & [= <- <-] & _ & ? & _); lia|].
  destruct (Z.eqb_spec (get_i32 replyHeader_status reply) 0); cbn [negb];
    [|by intros (_ & _ & _ & ? & ? & [= <- <-] & _ & _ & ?)].
  split; [by eauto 10|by eapply q_sendbuf_zero].
Qed.

Lemma deliver_spec r tries :
  r <> [] ->
  match deliver r tries with
  | Some (ws, rest) => exists ts, tries = ts ++ rest /\ delivered r ts ws
  | None => Forall (fun t => ~ accepted r t) tries
  end.
Proof.
  intros Hne. induction tries as [|t tries IH]; cbn [deliver]; [done|].
  pose proof (try_once_spec r t Hne) as Ht. destruct (try_once r t) as [[] w].
  - destruct Ht as [Ht ->]. exists [t]. split; [done|]. split; [|done]. by exists [], t.
  - destruct (deliver r tries) as [[ws rest]|]; cbn; [|by constructor].
    destruct IH as (ts & -> & (ts' & t' & -> & Hno & Hyes) & Hl & Hw). exists (t :: ts' ++ [t']).
    split; [done|]. split; [exists (t :: ts'), t'; split; [done|]; split; [by constructor|done]|].
    split; [cbn; lia|]. destruct ws; [done|]. by rewrite last_cons_cons.
Qed.

(** The attempts decide how far the loop goes. *)
Lemma deliver_accepts r ts rest :
  r <> [] -> accepts r ts -> exists ws, deliver r (ts ++ rest) = Some (ws, rest).
Proof.
  intros Hne (ts' & t & -> & Hno & Hyes). rewrite <- app_assoc.
  induction Hno as [|t' ts' Hno _ IH]; cbn [app deliver].
  - pose proof (try_once_spec r t Hne) as Ht. destruct (try_once r t) as [[] w]; [by eauto|done].
  - pose proof (try_once_spec r t' Hne) as Ht. destruct (try_once r t') as [[] w]; [by destruct Ht|].
    destruct IH as [ws Hws]. cbn [app] in Hws. rewrite Hws. by eexists.
Qed.

(** [tries] begins with attempts on which the records are accepted in turn. *)
Definition all_accepted (rs : list bytes) (tries : list try_env) : Prop :=
  exists tss rest, tries = concat tss ++ rest /\ Forall2 accepts rs tss.

Lemma send_records_spec fuel buf_size rs tries file_size current wires :
  Forall (record_ok buf_size) rs -> buf_size <= INT32_MAX ->
  (length rs < fuel)%nat -> file_size = current + Z.of_nat (length (concat (encode_record <$> rs))) ->
  match send_records fuel buf_size (concat (encode_record <$> rs)) tries file_size current wires with
  | Sent ws => exists ws' tss rest, ws = wires ++ ws' /\ tries = concat tss ++ rest /\ Forall3 delivered rs tss ws'
  | Send_waiting => ~ all_accepted rs tries
  | _ => False
  end.
Proof.
  intros Hok Hb. revert fuel tries current wires.
  induction Hok as [|r rs Hr _ IH]; intros fuel tries current wires Hf Hs; destruct fuel as [|fuel];
    cbn [length] in Hf; try lia; cbn [send_records fmap list_fmap concat].
  - cbn in Hs. destruct (Z.ltb_spec current file_size); [lia|]. exists [], [], tries. rewrite app_nil_r.
    repeat split. constructor.
  - assert (length (encode_record r) = 20 + length r)%nat as Hlr by (unfold encode_record; len).
    assert (r <> []) as Hne by (unfold record_ok in Hr; destruct r; [cbn in Hr; lia|done]).
    cbn [fmap list_fmap concat] in Hs. rewrite length_app, Hlr in Hs.
    destruct (Z.ltb_spec current file_size); [|lia].
    rewrite read_record_encode by done. pose proof (deliver_spec r tries Hne) as Hd.
    assert (forall tss rest, tries = concat tss ++ rest -> Forall2 accepts (r :: rs) tss ->
      exists ws tries', deliver r tries = Some (ws, tries') /\ all_accepted rs tries') as Hacc.
    { intros tss rest Et Hall. apply Forall2_cons_inv_l in Hall as (ts & tss' & Hts & Htss & ->).
      cbn [concat] in Et. rewrite <- app_assoc in Et.
      destruct (deliver_accepts r ts (concat tss' ++ rest) Hne Hts) as [ws Hws]. rewrite <- Et in Hws.
      rewrite Hws. eexists _, _. split; [done|]. by exists tss', rest. }
    destruct (deliver r tries) as [[ws tries']|].
    2:{ intros (tss & rest & Et & Hall). by destruct (Hacc tss rest Et Hall) as (? & ? & ? & _). }
    specialize (IH fuel tries' (current + Z.of_nat baseHeader_sizeof + Z.of_nat (length r) + 8) (wires ++ [ws])
      ltac:(lia) ltac:(unfold baseHeader_sizeof; lia)).
    destruct (send_records _ _ _ _ _ _ _); try done.
    + destruct Hd as (ts & -> & Hd). destruct IH as (ws' & tss & rest & -> & -> & Hws).
      exists (ws :: ws'), (ts :: tss), rest. cbn [concat]. rewrite <- !app_assoc. split; [done|]. split; [done|].
      by constructor.
    + intros (tss & rest & Et & Hall). destruct (Hacc tss rest Et Hall) as (? & ? & [= <- <-] & ?). done.
Qed.

Lemma length_records rs : (length rs <= length (concat (encode_record <$> rs)))%nat.
Proof.
  induction rs as [|r rs IH]; [done|]. cbn [fmap list_fmap concat length].
  rewrite length_app. assert (0 < length (encode_record r))%nat by (unfold encode_record; len). lia.
Qed.

Lemma send_file_spec buf_size rs tries :
  Forall (record_ok buf_size) rs -> buf_size <= INT32_MAX ->
  match send_file buf_size (concat (encode_record <$> rs)) tries with
  | Sent ws => exists tss rest, tries = concat tss ++ rest /\ Forall3 delivered rs tss ws
  | Send_waiting => ~ all_accepted rs tries
  | _ => False
  end.
Proof.
  intros Hok Hb. pose proof (length_records rs). unfold send_file.
  pose proof (send_records_spec (S (length (concat (encode_record <$> rs)))) buf_size rs tries
    (Z.of_nat (length (concat (encode_record <$> rs)))) 0 [] Hok Hb ltac:(lia) ltac:(lia)) as H'.
  destruct (send_records _ _ _ _ _ _ _); try done. destruct H' as (ws' & tss & rest & -> & -> & ?). by exists tss, rest.
Qed.

(** ** Keeping a copy *)

(** The loop of [backup_file] over the records: return value and the copy;
    [None] is an overrun of the buffer. *)
Fixpoint backup_loop (fuel : nat) (buf_size : Z) (file : bytes) (io : list (option nat))
    (file_size current_size : Z) (bak : bytes) : option (Z * bytes) :=
  match fuel with
  | O => Some (0, bak)
  | S fuel =>
      if current_size <? file_size then
        match read_record None backup_codes buf_size file with
        | Record_error err => Some (err, bak)
        | Record_overrun => None
        | Record_ok header payload m rest =>
            let '(ok, io, bak) := fwrite header io bak in
            if negb ok then Some (-9, bak)
            else
              let '(ok, io, bak) := fwrite payload io bak in
              if negb ok then Some (-10, bak)
              else
                let '(ok, io, bak) := fwrite m io bak in
                if negb ok then Some (-11, bak)
                else backup_loop fuel buf_size rest io file_size
                       (current_size + Z.of_nat baseHeader_sizeof + Z.of_nat (length payload) + 8) bak
        end
      else Some (0, bak)
  end.

(** [fopen(path, "ab")]: the disk and the content to append to. *)
Definition fopen_a (p : bytes) (f : fs) : option (fs * bytes) :=
  if bool_decide (p = []) then None
  else match find_node f (canon p) with
       | Some Dir => None
       | Some (File c) => Some (f, c)
       | None => if is_dir f (parent (canon p)) then Some (<[canon p := File []]> f, []) else None
       end.

(** [bak_name], of which at most 126 characters are printed. *)
Definition bak_name (data_path date : bytes) : bytes :=
  cstr (snprintf_out 127 (cstr data_path ++ [SLASH] ++ date ++ str ".snd")).

Definition backup_file (path bak : bytes) (buf_size : Z) (io : list (option nat)) (f : fs) : option (Z * fs) :=
  if buf_size <=? 0 then Some (-1, f)
  else match fopen_r path f with
       | None => Some (-2, f)
       | Some content =>
           match fopen_a bak f with
           | None => Some (-3, f)
           | Some (f, old) =>
               '(ret, c) ← backup_loop (S (length content)) buf_size content io (Z.of_nat (length content)) 0 old;
               Some (ret, <[canon bak := File c]> f)
           end
       end.

Lemma backup_loop_spec fuel buf_size rs file_size current bak :
  Forall (record_ok buf_size) rs -> buf_size <= INT32_MAX -> (length rs < fuel)%nat ->
  file_size = current + Z.of_nat (length (concat (encode_record <$> rs))) ->
  backup_loop fuel buf_size (concat (encode_record <$> rs)) [] file_size current bak =
  Some (0, bak ++ concat (encode_record <$> rs)).
Proof.
  intros Hok Hb. revert fuel current bak.
  induction Hok as [|r rs Hr _ IH]; intros fuel current bak Hf Hs; destruct fuel as [|fuel];
    cbn [length] in Hf; try lia; cbn [backup_loop fmap list_fmap concat].
  - cbn in Hs. destruct (Z.ltb_spec current file_size); [lia|]. by rewrite app_nil_r.
  - assert (length (encode_record r) = 20 + length r)%nat as Hlr by (unfold encode_record; len).
    cbn [fmap list_fmap concat] in Hs. rewrite length_app, Hlr in Hs.
    destruct (Z.ltb_spec current file_size); [|lia]. rewrite read_record_encode by done.
    assert (r <> []) as Hne by (unfold record_ok in Hr; destruct r; [cbn in Hr; lia|done]).
    rewrite !fwrite_ok by done. cbn [negb]. rewrite IH by (unfold baseHeader_sizeof; lia).
    unfold encode_record. by rewrite <- !app_assoc.
Qed.

(** On whole records the loop never overruns its buffer. *)
Lemma backup_loop_total fuel buf_size rs io file_size current bak :
  Forall (record_ok buf_size) rs -> buf_size <= INT32_MAX ->
  file_size = current + Z.of_nat (length (concat (encode_record <$> rs))) ->
  is_Some (backup_loop fuel buf_size (concat (encode_record <$> rs)) io file_size current bak).
Proof.
  intros Hok Hb. revert fuel current io bak.
  induction Hok as [|r rs Hr _ IH]; intros fuel current io bak Hs; destruct fuel as [|fuel]; try by eexists.
  - cbn [backup_loop fmap list_fmap concat]. cbn in Hs. destruct (Z.ltb_spec current file_size); [lia|by eexists].
  - cbn [backup_loop fmap list_fmap concat] in *. destruct (current <? file_size); [|by eexists].
    rewrite read_record_encode by done. rewrite length_app in Hs.
    assert (length (encode_record r) = 20 + length r)%nat as Hlr by (unfold encode_record; len).
    do 3 (destruct (fwrite _ _ _) as [[[] ?] ?]; cbn [negb]; [|by eexists]).
    apply IH. unfold baseHeader_sizeof. lia.
Qed.

(** ** Files *)

(** [QFile::remove]; [None] when it tries for ever. *)
Definition QFile_remove (p : bytes) (f : fs) : option fs :=
  match find_node f (canon p) with
  | None => Some f
  | Some (File _) => Some (delete (canon p) f)
  | Some Dir => None
  end.

(** [QFile(old).rename(new)] *)
Definition QFile_rename (old new : bytes) (f : fs) : option (bool * fs) :=
  if negb (access f old) then Some (false, f)
  else
    f ← QFile_remove new f;
    match find_node f (canon old) with
    | None => Some (true, f)
    | Some n => if is_dir f (parent (canon new))
                then Some (true, <[canon new := n]> (delete (canon old) f)) else None
    end.

(** The name a file that cannot be sent is set aside under, in 32 bytes. *)
Abbreviation aside_name path now := (cstr (snprintf_out 32 (cstr path ++ [x2e] ++ fmt_d now))) (only parsing).

(** ** One turn of the sending thread *)

Record paths : Type := mkPaths { read_path_ : bytes; write_path_ : bytes; data_path_ : bytes }.

Inductive turn : Type :=
  | Idle                                   (* nothing to send *)
  | Waiting                                (* a loop that waits is not left *)
  | Overrun
  | Turn (f : fs) (fp_open : bool) (wires : list (list bytes)) (err : option Z).

(** The body of the [while(!exit_flag_)] loop of [send_thread]; [fp_open] is
    whether [write_fp_] is open. *)
Definition send_turn (p : paths) (buf_size : Z) (tries : list try_env) (io : list (option nat))
    (date : bytes) (now : Z) (f : fs) (fp_open : bool) : turn :=
  let send f fp_open :=
    match fopen_r (read_path_ p) f with
    | None => Waiting
    | Some content =>
        match send_file buf_size content tries with
        | Send_waiting => Waiting
        | Send_overrun => Overrun
        | Sent wires =>
            match backup_file (read_path_ p) (bak_name (data_path_ p) date) buf_size io f with
            | None => Overrun
            | Some (_, f) => match QFile_remove (read_path_ p) f with
                             | None => Waiting
                             | Some f => Turn f fp_open wires None
                             end
            end
        | Send_error err wires =>
            match QFile_rename (read_path_ p) (aside_name (read_path_ p) now) f with
            | None => Waiting
            | Some (_, f) => Turn f fp_open wires (Some err)
            end
        end
    end in
  if access f (read_path_ p) then send f fp_open
  else if negb (access f (write_path_ p)) then Idle
  else match QFile_rename (write_path_ p) (read_path_ p) f with
       | None => Waiting
       | Some (_, f) => send f false
       end.

Lemma find_node_ne f k : k.2 <> [] -> find_node f k = f !! k.
Proof. unfold find_node. by destruct (k.2). Qed.

Lemma find_node_not_dir f k : find_node f k <> Some Dir -> k.2 <> [] /\ find_node f k = f !! k.
Proof. unfold find_node. by destruct (k.2). Qed.

Lemma is_dir_files (f : fs) k (ks : list path_key) :
  is_dir f k = true -> (forall x, x ∈ ks -> find_node f x <> Some Dir) ->
  forall f' : fs, (forall x, x ∉ ks -> f' !! x = f !! x) -> is_dir f' k = true.
Proof.
  unfold is_dir. intros Hd Hks f' Hf. destruct (decide (k ∈ ks)) as [Hk|Hk].
  - specialize (Hks k Hk). by destruct (find_node f k) as [[]|].
  - unfold find_node in *. destruct (k.2); [done|]. by rewrite Hf.
Qed.

(** The records of the spool file, if the file to append to is there or can
    be made. *)
Definition backup_ready (bak old : bytes) (f : fs) : Prop :=
  bak <> [] /\ (find_node f (canon bak) = Some (File old) \/
    find_node f (canon bak) = None /\ is_dir f (parent (canon bak)) = true /\ old = []).

Lemma backup_file_copies path bak buf_size rs old f :
  Forall (record_ok buf_size) rs -> 0 < buf_size <= INT32_MAX ->
  fopen_r path f = Some (concat (encode_record <$> rs)) -> backup_ready bak old f ->
  exists f', backup_file path bak buf_size [] f = Some (0, f') /\
    f' !! canon bak = Some (File (old ++ concat (encode_record <$> rs))) /\
    forall k, k <> canon bak -> f' !! k = f !! k.
Proof.
  intros Hok Hb Hr (Hne & Hbak). unfold backup_file. destruct (Z.leb_spec buf_size 0); [lia|]. rewrite Hr.
  set (content := concat (encode_record <$> rs)).
  pose proof (length_records rs).
  assert (exists f1, fopen_a bak f = Some (f1, old) /\ forall k, k <> canon bak -> f1 !! k = f !! k) as (f1 & -> & Hf1).
  { unfold fopen_a. rewrite bool_decide_eq_false_2 by done.
    destruct Hbak as [-> |(-> & -> & ->)]; eexists; (split; [done|]); [done|].
    intros k Hk. by rewrite lookup_insert_ne. }
  unfold content. rewrite (backup_loop_spec _ buf_size rs) by (done || lia). cbn [mbind option_bind].
  eexists. split; [done|]. split; [apply lookup_insert_eq|].
  intros k Hk. rewrite lookup_insert_ne by done. by apply Hf1.
Qed.

(** Whatever happens to the backup, only its file changes. *)
Lemma backup_file_frame path bak buf_size rs io f :
  Forall (record_ok buf_size) rs -> 0 < buf_size <= INT32_MAX ->
  fopen_r path f = Some (concat (encode_record <$> rs)) ->
  exists ret f', backup_file path bak buf_size io f = Some (ret, f') /\
    forall k, k <> canon bak -> f' !! k = f !! k.
Proof.
  intros Hok Hb Hr. unfold backup_file. destruct (Z.leb_spec buf_size 0); [lia|]. rewrite Hr.
  destruct (fopen_a bak f) as [[f1 old]|] eqn:E; [|by eauto].
  assert (forall k, k <> canon bak -> f1 !! k = f !! k) as Hf1.
  { unfold fopen_a in E. case_bool_decide; [done|].
    destruct (find_node f (canon bak)) as [[|]|]; [|done|]; [|destruct (is_dir _ _); [|done]]; injection E as <- _;
      [done|]. intros k Hk. by rewrite lookup_insert_ne. }
  edestruct (backup_loop_total (S (length (concat (encode_record <$> rs)))) buf_size rs io) as [[ret c] ->];
    [done|lia|lia|]. cbn [mbind option_bind]. eexists _, _. split; [done|].
  intros k Hk. rewrite lookup_insert_ne by done. by apply Hf1.
Qed.

(** The write file becomes the read file. *)
Lemma rename_spool p f content :
  let kr := canon (read_path_ p) in let kw := canon (write_path_ p) in
  let f1 := <[kr := File content]> (delete kw f) in
  write_path_ p <> [] -> find_node f kr = None -> is_dir f (parent kr) = true ->
  find_node f kw = Some (File content) ->
  QFile_rename (write_path_ p) (read_path_ p) f = Some (true, f1) /\
  access f (read_path_ p) = false /\ access f (write_path_ p) = true /\
  fopen_r (read_path_ p) f1 = Some content.
Proof.
  intros kr kw f1 Hw0 Hfr Hdr Hfw. unfold QFile_rename, access. fold kr kw. rewrite Hfw, Hfr, andb_false_r.
  rewrite bool_decide_eq_false_2, (bool_decide_eq_true_2 (is_Some _)) by (done || by eexists). cbn [negb andb].
  unfold QFile_remove. fold kr. rewrite Hfr. cbn [mbind option_bind]. rewrite Hfw, Hdr. repeat split.
  unfold fopen_r. fold kr. destruct (find_node_not_dir f kr) as [Hkr _]; [by rewrite Hfr|].
  rewrite find_node_ne by done. unfold f1. by rewrite lookup_insert_eq.
Qed.

Lemma backup_ready_rename p f content bak old :
  let kr := canon (read_path_ p) in let kw := canon (write_path_ p) in
  find_node f kr = None -> find_node f kw = Some (File content) ->
  kr <> canon bak -> kw <> canon bak -> backup_ready bak old f ->
  backup_ready bak old (<[kr := File content]> (delete kw f)).
Proof.
  intros kr kw Hfr Hfw Hrb Hwb [Hb0 Hbak]. split; [done|].
  destruct (find_node_not_dir f (canon bak)) as [Hkb _]; [by destruct Hbak as [-> |(-> & _)]|].
  rewrite (find_node_ne f) in Hbak by done. rewrite find_node_ne, lookup_insert_ne, lookup_delete_ne by done.
  destruct Hbak as [?|(? & Hd & ?)]; [by left|right; split; [done|split; [|done]]].
  apply (is_dir_files f (parent (canon bak)) [kr; kw] Hd).
  - intros x [-> |[-> |[]%not_elem_of_nil]%elem_of_cons]%elem_of_cons; by rewrite ?Hfr, ?Hfw.
  - intros x [? [? _]%not_elem_of_cons]%not_elem_of_cons. by rewrite lookup_insert_ne, lookup_delete_ne.
Qed.

(** C12. A turn of the sending thread over a spool file of whole records ends
    only when every record, in order, was accepted: its last attempt put the
    whole record on the wire and got the acknowledgement, and no earlier one
    did.  The turn waits only while the attempts made do not contain such
    acceptances.  When it ends the spool file is gone and no file but the
    backup of the day has changed; when the disk also accepts the backup, the
    records have been appended to it (a failed backup is not noticed). *)
Theorem send_turn_delivers p buf_size tries io date now f fp_open rs :
  let kr := canon (read_path_ p) in let kw := canon (write_path_ p) in
  let bak := bak_name (data_path_ p) date in
  let content := concat (encode_record <$> rs) in
  write_path_ p <> [] -> kr <> kw -> kr <> canon bak -> kw <> canon bak ->
  find_node f kr = None -> is_dir f (parent kr) = true -> find_node f kw = Some (File content) ->
  Forall (record_ok buf_size) rs -> 0 < buf_size <= INT32_MAX ->
  match send_turn p buf_size tries io date now f fp_open with
  | Turn f' fp' wires err =>
      fp' = false /\ err = None /\
      (exists tss rest, tries = concat tss ++ rest /\ Forall3 delivered rs tss wires) /\
      f' !! kr = None /\ f' !! kw = None /\
      (forall k, k <> kr -> k <> kw -> k <> canon bak -> f' !! k = f !! k) /\
      (forall old, io = [] -> backup_ready bak old f -> f' !! canon bak = Some (File (old ++ content)))
  | Waiting => ~ all_accepted rs tries
  | Idle | Overrun => False
  end.
Proof.
  intros kr kw bak content Hw0 Hrw Hrb Hwb Hfr Hdr Hfw Hok Hbs.
  destruct (rename_spool p f content Hw0 Hfr Hdr Hfw) as (Hren & Har & Haw & Hread). fold kr kw in Hren, Hread.
  pose proof (backup_ready_rename p f content bak) as Hready. fold kr kw in Hready.
  set (f1 := <[kr := File content]> (delete kw f)) in *.
  unfold send_turn. rewrite Har, Haw. cbn [negb]. rewrite Hren, Hread.
  pose proof (send_file_spec buf_size rs tries Hok (proj2 Hbs)) as Hsend. fold content in Hsend.
  destruct (send_file buf_size content tries) as [wires| | |]; try done.
  fold bak. destruct (backup_file_frame (read_path_ p) bak buf_size rs io f1 Hok Hbs Hread) as (ret & f2 & Hbf & Hf2).
  rewrite Hbf. destruct (find_node_not_dir f kr) as [Hkr _]; [by rewrite Hfr|].
  unfold QFile_remove. fold kr. rewrite find_node_ne by done. rewrite Hf2 by done.
  unfold f1 at 1. rewrite lookup_insert_eq. split; [done|]. split; [done|]. split; [done|].
  rewrite lookup_delete_eq. split; [done|]. rewrite lookup_delete_ne, Hf2 by done. unfold f1 at 1.
  rewrite lookup_insert_ne, lookup_delete_eq by done. split; [done|]. split.
  - intros k ???. rewrite lookup_delete_ne, Hf2 by done. unfold f1. by rewrite lookup_insert_ne, lookup_delete_ne.
  - intros old -> Hbak. rewrite lookup_delete_ne by done.
    destruct (backup_file_copies (read_path_ p) bak buf_size rs old f1 Hok Hbs Hread) as (f3 & Hbf' & Hf3 & _);
      [by apply Hready|]. rewrite Hbf' in Hbf. by injection Hbf as _ <-.
Qed.

(** The buffer for the name of a file set aside has 32 bytes: for a read
    path of 31 characters the name is the path itself, and setting the file
    aside deletes it. *)
Theorem aside_name_deletes path now f c :
  length path = 31%nat -> no_nul path -> find_node f (canon path) = Some (File c) ->
  QFile_rename path (aside_name path now) f = Some (true, delete (canon path) f).
Proof.
  intros Hl Hn Hf. assert (aside_name path now = path) as ->.
  { unfold snprintf_out. change (32 <=? 0) with false. cbn iota.
    rewrite (cstr_no_nul path) by done. rewrite take_app_length' by (rewrite Hl; done). by apply cstr_app_nul. }
  unfold QFile_rename, access, QFile_remove. rewrite Hf. rewrite bool_decide_eq_false_2 by by destruct path.
  rewrite bool_decide_eq_true_2 by by eexists. cbn [negb andb mbind option_bind].
  destruct (find_node_not_dir f (canon path)) as [Hk E]; [by rewrite Hf|].
  by rewrite find_node_ne, lookup_delete_eq by done.
Qed.

Lemma aside_name_deletes_witness :
  QFile_rename (str "/data1/image-dfs/spool/read.snd") (aside_name (str "/data1/image-dfs/spool/read.snd") 1400000000)
    {[canon (str "/data1/image-dfs/spool/read.snd") := File (str "records")]} =
  Some (true, delete (canon (str "/data1/image-dfs/spool/read.snd"))
                {[canon (str "/data1/image-dfs/spool/read.snd") := File (str "records")]}).
Proof.
  apply (aside_name_deletes _ _ _ (str "records")); [done|by repeat constructor|by_vm].
Defined.

(** A spool of two records and a receiver that fails once. *)
Definition paths0 : paths := mkPaths (str "/d/r.snd") (str "/d/w.snd") (str "/d").
Definition ack0 : list event :=
  [Data x59 (drop 1 (le_encode 8 TCP_HEADER_VERSION) ++ le_encode 4 20 ++ replicate 14 x00 ++ le_encode 2 1 ++ le_encode 4 0)].
Definition tries0 : list try_env :=
  [mkTry Refused 0 [] []; mkTry Connected 0 [Take 1] ack0; mkTry Connected 0 [] ack0].
Definition spool0 : fs :=
  list_to_map [((true, [str "d"]), Dir);
               ((true, [str "d"; str "w.snd"]), File (encode_record (str "one") ++ encode_record (str "two") ++ []))].

Lemma send_turn_delivers_witness :
  match send_turn paths0 100 tries0 [] (str "2014-05-24") 0 spool0 true with
  | Turn f' fp' wires err =>
      err = None /\ Forall2 (fun r ws => last ws = Some r) [str "one"; str "two"] wires /\
      f' !! (true, [str "d"; str "w.snd"]) = None /\
      f' !! (true, [str "d"; str "2014-05-24.snd"]) = Some (File (encode_record (str "one") ++ encode_record (str "two")))
  | _ => False
  end.
Proof.
  pose proof (send_turn_delivers paths0 100 tries0 [] (str "2014-05-24") 0 spool0 true [str "one"; str "two"]
    ltac:(discriminate) ltac:(discriminate) ltac:(discriminate) ltac:(discriminate)
    ltac:(by_vm) ltac:(by_vm) ltac:(by_vm) ltac:(repeat constructor; cbn; lia) ltac:(unfold INT32_MAX; lia)) as H.
  assert (match send_turn paths0 100 tries0 [] (str "2014-05-24") 0 spool0 true with
          | Turn _ _ _ _ => true | _ => false end = true) as Hturn by by_vm.
  destruct (send_turn paths0 100 tries0 [] (str "2014-05-24") 0 spool0 true) as [| | |f' fp' wires err];
    try discriminate Hturn.
  destruct H as (_ & Herr & (tss & rest & _ & Hd) & _ & Hw & _ & Hbak). split; [exact Herr|].
  split; [|split; [exact Hw|]].
  - clear Hbak. induction Hd as [|r ts ws rs tss wss (_ & _ & Hl) _ IH]; [constructor|constructor; [exact Hl|exact IH]].
  - specialize (Hbak [] eq_refl). rewrite app_nil_l in Hbak. cbn [fmap list_fmap concat] in Hbak.
    rewrite app_nil_r in Hbak. apply Hbak. split; [discriminate|]. right. split_and!; by_vm.
Defined.

End Spool.
