(* ===== verification/Base64.v ===== *)
(** * Base64: src/include/common/base64.c

    The encoder and decoder keep their position in a group of three bytes or
    four characters between calls, so a message may be given in blocks.  Each
    is a function of its state and one input character; a block is a fold.
    Decoding what was encoded gives the message back. *)

From S2P Require Import Prelude CLib.

Module Base64.

Abbreviation CHARS_PER_LINE := (72)%Z (only parsing).

Inductive encodestep : Type := step_A | step_B | step_C.
Inductive decodestep : Type := step_a | step_b | step_c | step_d.

Record base64_encodestate : Type := mkEncode { step : encodestep; result : Z; stepcount : Z }.
Record base64_decodestate : Type := mkDecode { dstep : decodestep; plainchar : Z }.

Definition base64_init_encodestate : base64_encodestate := mkEncode step_A 0 0.
Definition base64_init_decodestate : base64_decodestate := mkDecode step_a 0.

Abbreviation encoding := (str "ABCDEFGHIJKLMNOPQRSTUVWXYZabcdefghijklmnopqrstuvwxyz0123456789+/") (only parsing).

(** The callers give values from 0 to 63. *)
Definition base64_encode_value (value_in : Z) : byte :=
  if 63 <? value_in then x3d else default x00 (encoding !! Z.to_nat value_in).

(** What one character adds to the code, from each label of the switch. *)
Definition encode_char (s : base64_encodestate) (c : byte) : base64_encodestate * bytes :=
  let fragment := char_val c in
  match step s with
  | step_A =>
      (mkEncode step_B (Z.shiftl (Z.land fragment 0x03) 4) (stepcount s),
       [base64_encode_value (Z.shiftr (Z.land fragment 0xfc) 2)])
  | step_B =>
      (mkEncode step_C (Z.shiftl (Z.land fragment 0x0f) 2) (stepcount s),
       [base64_encode_value (Z.lor (result s) (Z.shiftr (Z.land fragment 0xf0) 4))])
  | step_C =>
      let last := Z.land fragment 0x3f in
      let out := [base64_encode_value (Z.lor (result s) (Z.shiftr (Z.land fragment 0xc0) 6));
                  base64_encode_value last] in
      let count := stepcount s + 1 in
      if count =? CHARS_PER_LINE / 4
      then (mkEncode step_A last 0, out ++ [x0a])
      else (mkEncode step_A last count, out)
  end.

Fixpoint base64_encode_block (plaintext_in : bytes) (s : base64_encodestate) : base64_encodestate * bytes :=
  match plaintext_in with
  | [] => (s, [])
  | c :: plaintext_in =>
      let '(s, out) := encode_char s c in
      let '(s, code) := base64_encode_block plaintext_in s in
      (s, out ++ code)
  end.

Definition base64_encode_blockend (s : base64_encodestate) : bytes :=
  match step s with
  | step_B => [base64_encode_value (result s); x3d; x3d]
  | step_C => [base64_encode_value (result s); x3d]
  | step_A => []
  end ++ [x0a].

(** [code_out] is the buffer before the call; the result is the value
    returned and the buffer after it.  The counts are [int]s.  The newline of
    the block's end is overwritten by the NUL. *)
Definition base64_encode (plaintext_in code_out : bytes) : Z * bytes :=
  if Z.of_nat (length plaintext_in) <=? 0 then (-1, code_out)
  else
    let '(s, code) := base64_encode_block plaintext_in base64_init_encodestate in
    let code_out := list_inserts 0 code code_out in
    let c := i32 (Z.of_nat (length code)) in
    let tail := base64_encode_blockend s in
    let code_out := list_inserts (Z.to_nat c) tail code_out in
    let c := c + Z.of_nat (length tail) - 1 in
    (i32 c, <[Z.to_nat c := NUL]> code_out).

Definition decoding : list Z :=
  [62; -1; -1; -1; 63; 52; 53; 54; 55; 56;
   57; 58; 59; 60; 61; -1; -1; -1; -2; -1;
   -1; -1;  0;  1;  2;  3;  4;  5;  6;  7;
    8;  9; 10; 11; 12; 13; 14; 15; 16; 17;
   18; 19; 20; 21; 22; 23; 24; 25; -1; -1;
   -1; -1; -1; -1; 26; 27; 28; 29; 30; 31;
   32; 33; 34; 35; 36; 37; 38; 39; 40; 41;
   42; 43; 44; 45; 46; 47; 48; 49; 50; 51].

(** [value_in -= 43] in a [char]. *)
Definition base64_decode_value (c : byte) : Z :=
  let value_in := i8 (char_val c - 43) in
  if (value_in <? 0) || (Z.of_nat (length decoding) <=? value_in) then -1
  else default (-1) (decoding !! Z.to_nat value_in).

(** What one character of the code adds to the message; characters that are
    not of the alphabet are skipped.  [plainchar] is the content of the output
    cell being filled, as an unsigned value, and [out] is the output buffer
    from that cell on, as it was before the call: after [step_d] the current
    cell is one that has not been written. *)
Definition decode_char (s : base64_decodestate) (out : bytes) (c : byte) : base64_decodestate * bytes :=
  let fragment := base64_decode_value c in
  if fragment <? 0 then (s, [])
  else match dstep s with
       | step_a => (mkDecode step_b (u8 (Z.shiftl (Z.land fragment 0x3f) 2)), [])
       | step_b =>
           (mkDecode step_c (u8 (Z.shiftl (Z.land fragment 0x0f) 4)),
            [byte_of (Z.lor (plainchar s) (Z.shiftr (Z.land fragment 0x30) 4))])
       | step_c =>
           (mkDecode step_d (u8 (Z.shiftl (Z.land fragment 0x03) 6)),
            [byte_of (Z.lor (plainchar s) (Z.shiftr (Z.land fragment 0x3c) 2))])
       | step_d =>
           (mkDecode step_a (byte_val (default x00 (out !! 1%nat))),
            [byte_of (Z.lor (plainchar s) (Z.land fragment 0x3f))])
       end.

Fixpoint base64_decode_block (code_in out : bytes) (s : base64_decodestate) : base64_decodestate * bytes :=
  match code_in with
  | [] => (s, [])
  | c :: code_in =>
      let '(s, now) := decode_char s out c in
      let '(s, plain) := base64_decode_block code_in (drop (length now) out) s in
      (s, now ++ plain)
  end.

(** The cell the block leaves unfinished is the one the NUL is written to. *)
Definition base64_decode (plaintext_in code_out : bytes) : Z * bytes :=
  if Z.of_nat (length plaintext_in) <=? 0 then (-1, code_out)
  else
    let '(_, plain) := base64_decode_block plaintext_in code_out base64_init_decodestate in
    let code_out := list_inserts 0 plain code_out in
    let c := i32 (Z.of_nat (length plain)) in
    (c, <[Z.to_nat c := NUL]> code_out).

(** ** Arithmetic of the fragments

    Each field of a byte or of a character is a quotient or a remainder, and
    disjoint fields are put together by addition. *)

Lemma decode_encode_value v : 0 <= v < 64 -> base64_decode_value (base64_encode_value v) = v.
Proof. by_table 64 v. Qed.

Lemma encode_fields c :
  let z := byte_val c in let f := char_val c in
  Z.shiftr (Z.land f 0xfc) 2 = z / 4 /\ Z.shiftl (Z.land f 0x03) 4 = z mod 4 * 2 ^ 4 /\
  Z.shiftr (Z.land f 0xf0) 4 = z / 16 /\ Z.shiftl (Z.land f 0x0f) 2 = z mod 16 * 2 ^ 2 /\
  Z.shiftr (Z.land f 0xc0) 6 = z / 64 /\ Z.land f 0x3f = z mod 64.
Proof. destruct c; repeat split. Qed.

Lemma decode_fields v : 0 <= v < 64 ->
  u8 (Z.shiftl (Z.land v 0x3f) 2) = v * 2 ^ 2 /\ Z.land v 0x3f = v /\
  Z.shiftr (Z.land v 0x30) 4 = v / 16 /\ u8 (Z.shiftl (Z.land v 0x0f) 4) = v mod 16 * 2 ^ 4 /\
  Z.shiftr (Z.land v 0x3c) 2 = v / 4 /\ u8 (Z.shiftl (Z.land v 0x03) 6) = v mod 4 * 2 ^ 6.
Proof. by_table 64 v. Qed.

(** Ranges of the fields of bytes and of characters. *)
Ltac byte_bounds :=
  repeat match goal with
         | c : byte |- _ =>
             lazymatch goal with
             | _ : 0 <= byte_val c < 256 |- _ => fail
             | |- _ => pose proof (byte_val_range c)
             end
         end; Z.to_euclidean_division_equations; lia.

(** One character, as arithmetic. *)
Lemma encode_char_A r k c :
  encode_char (mkEncode step_A r k) c =
  (mkEncode step_B (byte_val c mod 4 * 2 ^ 4) k, [base64_encode_value (byte_val c / 4)]).
Proof. unfold encode_char; cbn. destruct (encode_fields c) as (-> & -> & _). reflexivity. Qed.

Lemma encode_char_B x k c :
  encode_char (mkEncode step_B (x * 2 ^ 4) k) c =
  (mkEncode step_C (byte_val c mod 16 * 2 ^ 2) k, [base64_encode_value (x * 2 ^ 4 + byte_val c / 16)]).
Proof.
  unfold encode_char; cbn [step result stepcount]. destruct (encode_fields c) as (_ & _ & -> & -> & _).
  rewrite lor_add; [reflexivity | lia |]. byte_bounds.
Qed.

(** The newline after the eighteenth group of a line, and the new count. *)
Definition line_end (k : Z) : bytes := if k + 1 =? 18 then [x0a] else [].
Definition line_count (k : Z) : Z := if k + 1 =? 18 then 0 else k + 1.

Lemma encode_char_C x k c :
  encode_char (mkEncode step_C (x * 2 ^ 2) k) c =
  (mkEncode step_A (byte_val c mod 64) (line_count k),
   [base64_encode_value (x * 2 ^ 2 + byte_val c / 64); base64_encode_value (byte_val c mod 64)] ++ line_end k).
Proof.
  unfold encode_char, line_end, line_count; cbn [step result stepcount].
  destruct (encode_fields c) as (_ & _ & _ & _ & -> & ->).
  rewrite lor_add; [| lia | byte_bounds]. change (CHARS_PER_LINE / 4) with 18.
  destruct (k + 1 =? 18); reflexivity.
Qed.

Lemma decode_char_a p out v : 0 <= v < 64 ->
  decode_char (mkDecode step_a p) out (base64_encode_value v) = (mkDecode step_b (v * 2 ^ 2), []).
Proof.
  intros H. unfold decode_char. rewrite decode_encode_value, (proj2 (Z.ltb_ge v 0)) by lia.
  cbn [dstep]. destruct (decode_fields v H) as (-> & _). reflexivity.
Qed.

Lemma decode_char_b x out v : 0 <= v < 64 ->
  decode_char (mkDecode step_b (x * 2 ^ 2)) out (base64_encode_value v) =
  (mkDecode step_c (v mod 16 * 2 ^ 4), [byte_of (x * 2 ^ 2 + v / 16)]).
Proof.
  intros H. unfold decode_char. rewrite decode_encode_value, (proj2 (Z.ltb_ge v 0)) by lia.
  cbn [dstep plainchar]. destruct (decode_fields v H) as (_ & _ & -> & -> & _).
  rewrite lor_add; [reflexivity | lia | byte_bounds].
Qed.

Lemma decode_char_c x out v : 0 <= v < 64 ->
  decode_char (mkDecode step_c (x * 2 ^ 4)) out (base64_encode_value v) =
  (mkDecode step_d (v mod 4 * 2 ^ 6), [byte_of (x * 2 ^ 4 + v / 4)]).
Proof.
  intros H. unfold decode_char. rewrite decode_encode_value, (proj2 (Z.ltb_ge v 0)) by lia.
  cbn [dstep plainchar]. destruct (decode_fields v H) as (_ & _ & _ & _ & -> & ->).
  rewrite lor_add; [reflexivity | lia | byte_bounds].
Qed.

Lemma decode_char_d x out v : 0 <= v < 64 ->
  exists p, decode_char (mkDecode step_d (x * 2 ^ 6)) out (base64_encode_value v) =
  (mkDecode step_a p, [byte_of (x * 2 ^ 6 + v)]).
Proof.
  intros H. unfold decode_char. rewrite decode_encode_value, (proj2 (Z.ltb_ge v 0)) by lia.
  cbn [dstep plainchar]. destruct (decode_fields v H) as (_ & -> & _).
  rewrite lor_add; [eauto | lia | byte_bounds].
Qed.

(** Newlines and padding add nothing. *)
Lemma decode_char_skip s out c : c ∈ [x0a; x3d] -> decode_char s out c = (s, []).
Proof. rewrite !elem_of_cons, elem_of_nil. intros [-> | [-> | []]]; reflexivity. Qed.

Lemma decode_block_skip s out l :
  Forall (fun c => c ∈ [x0a; x3d]) l -> base64_decode_block l out s = (s, []).
Proof.
  intros H. induction H as [|c l Hc Hl IH]; [reflexivity |]. cbn.
  rewrite decode_char_skip by exact Hc. cbn [length]. rewrite drop_0, IH. reflexivity.
Qed.

(** ** Round trip *)

Lemma list_ind3 {A} (P : list A -> Prop) :
  P [] -> (forall a, P [a]) -> (forall a b, P [a; b]) ->
  (forall a b c l, P l -> P (a :: b :: c :: l)) -> forall l, P l.
Proof.
  intros H0 H1 H2 H3. fix go 1.
  intros [|a [|b [|c l]]]; [exact H0 | apply H1 | apply H2 | apply H3, go].
Qed.

(** A message may be encoded in blocks. *)
Lemma encode_block_app p q s :
  base64_encode_block (p ++ q) s =
  let '(s1, c1) := base64_encode_block p s in
  let '(s2, c2) := base64_encode_block q s1 in (s2, c1 ++ c2).
Proof.
  revert s. induction p as [|c p IH]; intros s; cbn.
  - destruct (base64_encode_block q s). reflexivity.
  - destruct (encode_char s c) as [s0 o]. rewrite IH.
    destruct (base64_encode_block p s0) as [s1 c1], (base64_encode_block q s1) as [s2 c2].
    rewrite app_assoc. reflexivity.
Qed.

(** The code of a whole message, from the start of a group. *)
Definition encoded (r k : Z) (data : bytes) : bytes :=
  let '(s, code) := base64_encode_block data (mkEncode step_A r k) in
  code ++ removelast (base64_encode_blockend s).

Definition V1 (a : byte) : Z := byte_val a / 4.
Definition V2 (a : byte) (b : Z) : Z := byte_val a mod 4 * 2 ^ 4 + b / 16.
Definition V3 (b : byte) (c : Z) : Z := byte_val b mod 16 * 2 ^ 2 + c / 64.

Lemma encoded_group r k a b c l :
  encoded r k (a :: b :: c :: l) =
  [base64_encode_value (V1 a); base64_encode_value (V2 a (byte_val b));
   base64_encode_value (V3 b (byte_val c)); base64_encode_value (byte_val c mod 64)] ++
  line_end k ++ encoded (byte_val c mod 64) (line_count k) l.
Proof.
  unfold encoded. cbn [base64_encode_block].
  rewrite encode_char_A, encode_char_B, encode_char_C.
  destruct (base64_encode_block l _) as [s code]. cbn. rewrite <- !app_assoc. reflexivity.
Qed.

Lemma encoded_two r k a b :
  encoded r k [a; b] =
  [base64_encode_value (V1 a); base64_encode_value (V2 a (byte_val b));
   base64_encode_value (V3 b 0); x3d].
Proof.
  unfold encoded. cbn [base64_encode_block]. rewrite encode_char_A, encode_char_B.
  cbn. unfold V3. rewrite Z.add_0_r. reflexivity.
Qed.

Lemma encoded_one r k a :
  encoded r k [a] = [base64_encode_value (V1 a); base64_encode_value (V2 a 0); x3d; x3d].
Proof.
  unfold encoded. cbn [base64_encode_block]. rewrite encode_char_A. cbn.
  unfold V2. rewrite Z.add_0_r. reflexivity.
Qed.

(** What the fields of a group give back. *)
Lemma group_a a b : 0 <= b < 256 -> byte_of (V1 a * 2 ^ 2 + V2 a b / 16) = a.
Proof.
  intros H. rewrite <- (byte_of_val a) at 3. f_equal. unfold V1, V2. byte_bounds.
Qed.

Lemma group_b a b c : 0 <= c < 256 -> byte_of (V2 a (byte_val b) mod 16 * 2 ^ 4 + V3 b c / 4) = b.
Proof.
  intros H. rewrite <- (byte_of_val b) at 3. f_equal. unfold V2, V3. byte_bounds.
Qed.

Lemma group_c b c : byte_of (V3 b (byte_val c) mod 4 * 2 ^ 6 + byte_val c mod 64) = c.
Proof.
  rewrite <- (byte_of_val c) at 3. f_equal. unfold V3. byte_bounds.
Qed.

(** Ranges of the four characters of a group. *)
Ltac group_range := unfold V1, V2, V3; byte_bounds.

Lemma decode_skip_line k s out l :
  base64_decode_block (line_end k ++ l) out s = base64_decode_block l out s.
Proof.
  unfold line_end. destruct (k + 1 =? 18); [| reflexivity]. cbn [app base64_decode_block].
  rewrite decode_char_skip by set_solver. cbn [length]. rewrite drop_0.
  destruct (base64_decode_block l out s). reflexivity.
Qed.

Lemma decode_encoded data : forall r k out p,
  snd (base64_decode_block (encoded r k data) out (mkDecode step_a p)) = data.
Proof.
  induction data as [|a|a b|a b c l IH] using list_ind3; intros r k out p.
  - reflexivity.
  - rewrite encoded_one. cbn [base64_decode_block].
    rewrite decode_char_a, decode_char_b, !decode_char_skip by (set_solver || group_range).
    cbn. rewrite group_a by lia. reflexivity.
  - rewrite encoded_two. cbn [base64_decode_block].
    rewrite decode_char_a, decode_char_b, decode_char_c, decode_char_skip by (set_solver || group_range).
    cbn. rewrite group_a, group_b by auto with dfs lia. reflexivity.
  - rewrite encoded_group. cbn [app base64_decode_block].
    rewrite decode_char_a, decode_char_b, decode_char_c by group_range.
    match goal with |- context [decode_char (mkDecode step_d (?x * 2 ^ 6)) ?o (base64_encode_value ?v)] =>
      destruct (decode_char_d x o v ltac:(group_range)) as [p' ->] end.
    rewrite decode_skip_line. specialize (IH (byte_val c mod 64) (line_count k)).
    match goal with |- context [base64_decode_block (encoded ?r' ?k' l) ?o (mkDecode step_a ?q)] =>
      specialize (IH o q); destruct (base64_decode_block (encoded r' k' l) o (mkDecode step_a q)) as [s' pl] end.
    cbn in IH |- *. subst pl. rewrite group_a, group_b, group_c by auto with dfs. reflexivity.
Qed.

(** The length of the code: four characters for three bytes or fewer, and a
    newline after every eighteenth whole group. *)
Definition base64_size (n : Z) : Z := (n + 2) / 3 * 4 + n / 3 / 18.

Lemma length_encoded data : forall r k, 0 <= k < 18 ->
  Z.of_nat (length (encoded r k data)) =
  (Z.of_nat (length data) + 2) / 3 * 4 + (Z.of_nat (length data) / 3 + k) / 18.
Proof.
  induction data as [|a|a b|a b c l IH] using list_ind3; intros r k Hk.
  - change (encoded r k []) with (@nil byte). cbn [length]. Z.to_euclidean_division_equations; lia.
  - rewrite encoded_one. cbn [length]. Z.to_euclidean_division_equations; lia.
  - rewrite encoded_two. cbn [length]. Z.to_euclidean_division_equations; lia.
  - rewrite encoded_group, !length_app, !Nat2Z.inj_add, IH.
    + unfold line_end, line_count. cbn [length]. rewrite !Nat2Z.inj_succ.
      destruct (Z.eqb_spec (k + 1) 18); cbn [length]; Z.to_euclidean_division_equations; lia.
    + unfold line_count. destruct (Z.eqb_spec (k + 1) 18); lia.
Qed.

(** The buffers after the two calls. *)
Lemma base64_encode_buffer data out :
  data <> [] -> base64_size (Z.of_nat (length data)) < Z.of_nat (length out) <= INT32_MAX ->
  base64_encode data out =
  (Z.of_nat (length (encoded 0 0 data)),
   encoded 0 0 data ++ NUL :: drop (S (length (encoded 0 0 data))) out).
Proof.
  intros Hne Hsize. pose proof (length_encoded data 0 0 ltac:(lia)) as Hlen. rewrite Z.add_0_r in Hlen.
  fold (base64_size (Z.of_nat (length data))) in Hlen. rewrite <- Hlen in Hsize. clear Hlen.
  unfold base64_encode. destruct (Z.leb_spec (Z.of_nat (length data)) 0); [destruct data; cbn in *; [done | lia] |].
  revert Hsize. unfold encoded, base64_init_encodestate.
  destruct (base64_encode_block data (mkEncode step_A 0 0)) as [s code]. intros Hsize.
  set (tail := removelast (base64_encode_blockend s)) in *.
  assert (Ht : base64_encode_blockend s = tail ++ [x0a]) by (subst tail; destruct s as [[] ? ?]; reflexivity).
  rewrite Ht. rewrite length_app in Hsize. unfold INT32_MAX in Hsize.
  rewrite (i32_small (Z.of_nat (length code))) by (unfold is_i32, INT32_MIN, INT32_MAX; lia).
  rewrite i32_small by (unfold is_i32, INT32_MIN, INT32_MAX; len).
  rewrite inserts_zero by lia. rewrite Nat2Z.id.
  rewrite inserts_app_r, Nat.sub_diag, inserts_zero by len.
  f_equal; [len |]. rewrite drop_drop, insert_app_r_alt by len.
  rewrite <- (app_assoc tail), insert_app_r_alt by len.
  replace (_ - _ - _)%nat with 0%nat by len. rewrite <- app_assoc. cbn.
  do 3 f_equal. f_equal. len.
Qed.

Lemma base64_decode_buffer code out :
  code <> [] ->
  let plain := snd (base64_decode_block code out base64_init_decodestate) in
  (length plain < length out)%nat -> Z.of_nat (length plain) <= INT32_MAX ->
  base64_decode code out =
  (Z.of_nat (length plain), plain ++ NUL :: drop (S (length plain)) out).
Proof.
  intros Hne plain Hlen Hi. unfold base64_decode.
  destruct (Z.leb_spec (Z.of_nat (length code)) 0); [destruct code; cbn in *; [done | lia] |].
  subst plain. destruct (base64_decode_block _ _ _) as [s plain]. cbn [snd] in *.
  rewrite i32_small by (unfold is_i32, INT32_MIN; unfold INT32_MAX in *; lia).
  f_equal. rewrite inserts_zero, Nat2Z.id, insert_app_r_alt, Nat.sub_diag by lia.
  f_equal. destruct (drop (length plain) out) as [|x l] eqn:E.
  - apply (f_equal length) in E. rewrite length_drop in E. cbn in E. lia.
  - cbn. f_equal. rewrite <- Nat.add_1_r, <- drop_drop, E. reflexivity.
Qed.

(** C25. What [base64_encode] writes, [base64_decode] turns back into the
    message: for a non-empty message and buffers with room for the result and
    its NUL, the encoder returns the size of the code, writes nothing past the
    NUL after it, and decoding that code returns the length of the message and
    puts the message and a NUL at the front of the output buffer, whatever the
    two buffers held. *)
Theorem base64_roundtrip (data code_out plain_out : bytes)
    (Hdata : data <> [])
    (Hcode : base64_size (Z.of_nat (length data)) < Z.of_nat (length code_out) <= INT32_MAX)
    (Hplain : (length data < length plain_out)%nat) :
  exists code,
    base64_encode data code_out = (base64_size (Z.of_nat (length data)), code) /\
    drop (S (Z.to_nat (base64_size (Z.of_nat (length data))))) code =
      drop (S (Z.to_nat (base64_size (Z.of_nat (length data))))) code_out /\
    base64_decode (take (Z.to_nat (base64_size (Z.of_nat (length data)))) code) plain_out =
      (Z.of_nat (length data), data ++ NUL :: drop (S (length data)) plain_out).
Proof.
  pose proof (length_encoded data 0 0 ltac:(lia)) as Hlen. rewrite Z.add_0_r in Hlen.
  fold (base64_size (Z.of_nat (length data))) in Hlen.
  rewrite base64_encode_buffer by assumption. rewrite <- Hlen, Nat2Z.id. eexists. split; [reflexivity |].
  split; [by rewrite drop_app_ge, Nat.sub_succ_l, Nat.sub_diag by lia |].
  assert (0 < Z.of_nat (length data) <= base64_size (Z.of_nat (length data))).
  { unfold base64_size. destruct data; [done |]. cbn [length]. Z.to_euclidean_division_equations; lia. }
  assert (Hdec := decode_encoded data 0 0 plain_out 0). fold base64_init_decodestate in Hdec.
  rewrite take_app_length, base64_decode_buffer; rewrite ?Hdec; [reflexivity | | lia | lia].
  intros E. rewrite E in Hlen. cbn in Hlen. lia.
Qed.

Lemma base64_roundtrip_witness :
  exists code,
    base64_encode (str "image-dfs") (replicate 20 x7f) = (12, code) /\
    drop 13 code = drop 13 (replicate 20 x7f) /\
    base64_decode (take 12 code) (replicate 10 x01) = (9, str "image-dfs" ++ [NUL]).
Proof.
  apply (base64_roundtrip (str "image-dfs") (replicate 20 x7f) (replicate 10 x01)).
  - discriminate.
  - split; [reflexivity | discriminate].
  - cbn. lia.
Defined.

End Base64.
