(* ===== verification/MultiSort.v ===== *)
(** * The multi-key quicksorts of src/include/common/qalgorithm.h

    The header has the same quicksort many times: recursive and with an
    explicit stack, on one to five parallel arrays, comparing by one, two or
    three keys or by a function.  The algorithm is written once over the
    interface [Table] of parallel arrays exchanged together, and each function
    of the header is an instance.  It is proved to sort by any comparison that
    splits the rows as a preorder does, and each function of the header to sort
    by its key, those of two and three keys by the first one only. *)

From S2P Require Import Prelude Arrays.
Import Arrays.

Module MultiSort.

(** ** Parallel arrays *)

Class Table (S Row : Type) := {
  rows : S -> list Row;
  exchange : S -> Z -> Z -> option S
}.

#[export] Instance array_table A : Table (list A) A := {
  rows v := v;
  exchange := swap
}.

#[export] Instance zip_table {S Row} `{Table S Row} B : Table (S * list B) (Row * B) := {
  rows s := zip (rows s.1) s.2;
  exchange s i j := s1 ← exchange s.1 i j; s2 ← swap s.2 i j; Some (s1, s2)
}.

(** How a row is compared with the pivot: [less x mid p q] is the condition
    that lets the left scan pass the row [x] at [p], [more] the right scan;
    [q] is where the pivot was. *)
Record order (Row : Type) : Type := mkOrder {
  less : Row -> Row -> Z -> Z -> bool;
  more : Row -> Row -> Z -> Z -> bool
}.
Arguments mkOrder {Row}.
Arguments less {Row}.
Arguments more {Row}.

(** ** The algorithm *)

Section algorithm.
Context {S Row : Type} {table : Table S Row}.
Variable o : order Row.
Implicit Types (s : S) (lBegin lEnd lMid : Z) (mid : Row).

(** [while(lBegin<lEnd&&tKey[lBegin]<tMid) lBegin++] *)
Fixpoint scan_up (fuel : nat) (v : list Row) mid lMid lBegin lEnd : option Z :=
  if lBegin <? lEnd then
    x ← get v lBegin;
    if less o x mid lBegin lMid
    then match fuel with
         | O => None
         | Datatypes.S fuel => scan_up fuel v mid lMid (lBegin + 1) lEnd
         end
    else Some lBegin
  else Some lBegin.

(** [while(lBegin<lEnd&&tKey[lEnd]>tMid) lEnd--] *)
Fixpoint scan_down (fuel : nat) (v : list Row) mid lMid lBegin lEnd : option Z :=
  if lBegin <? lEnd then
    x ← get v lEnd;
    if more o x mid lEnd lMid
    then match fuel with
         | O => None
         | Datatypes.S fuel => scan_down fuel v mid lMid lBegin (lEnd - 1)
         end
    else Some lEnd
  else Some lEnd.

(** The outer loop of the partition. *)
Fixpoint partition_loop (fuel : nat) s mid lMid lBegin lEnd : option (S * Z * Z) :=
  if lBegin <? lEnd then
    match fuel with
    | O => None
    | Datatypes.S fuel =>
        lBegin ← scan_up (Z.to_nat (lEnd - lBegin)) (rows s) mid lMid lBegin lEnd;
        lEnd ← scan_down (Z.to_nat (lEnd - lBegin)) (rows s) mid lMid lBegin lEnd;
        if lBegin <? lEnd then
          s ← exchange s lBegin lEnd;
          let lBegin := lBegin + 1 in
          let lEnd := if lBegin <? lEnd then lEnd - 1 else lEnd in
          partition_loop fuel s mid lMid lBegin lEnd
        else partition_loop fuel s mid lMid lBegin lEnd
    end
  else Some (s, lBegin, lEnd).

(** From the choice of the pivot to the last correction of [lBegin]. *)
Definition split s lBegin lEnd : option (S * Z * Z) :=
  let lMid := Z.shiftr (i32 (lBegin + lEnd)) 1 in
  mid ← get (rows s) lMid;
  '(s, lBegin, lEnd) ← partition_loop (Z.to_nat (lEnd - lBegin)) s mid lMid lBegin lEnd;
  x ← get (rows s) lBegin;
  Some (s, if less o x mid lBegin lMid then lBegin + 1 else lBegin, lEnd).

(** The case [lBegin+1==lEnd]. *)
Definition sort_two s lBegin lEnd : option S :=
  x ← get (rows s) lBegin;
  y ← get (rows s) lEnd;
  if more o x y lBegin lEnd then exchange s lBegin lEnd else Some s.

Fixpoint recursion (fuel : nat) lBegin lEnd s : option S :=
  match fuel with
  | O => None
  | Datatypes.S fuel =>
      if lEnd <=? lBegin then Some s
      else if lBegin + 1 =? lEnd then sort_two s lBegin lEnd
      else
        let m := lBegin in
        let n := lEnd in
        '(s, lBegin, lEnd) ← split s lBegin lEnd;
        s ← (if m <? lBegin - 1 then recursion fuel m (lBegin - 1) s else Some s);
        if lEnd <? n then recursion fuel lEnd n s else Some s
  end.

(** [stack_buf] holds 1024 integers; an entry is the two ends of a range. *)
Definition push (r : Z * Z) (stack : list (Z * Z)) : option (list (Z * Z)) :=
  if (length stack <? 512)%nat then Some (r :: stack) else None.

Fixpoint unrecursion (fuel : nat) (stack : list (Z * Z)) s : option S :=
  match fuel with
  | O => None
  | Datatypes.S fuel =>
      match stack with
      | [] => Some s
      | (lBegin, lEnd) :: stack =>
          if lEnd <=? lBegin then unrecursion fuel stack s
          else if lBegin + 1 =? lEnd then s ← sort_two s lBegin lEnd; unrecursion fuel stack s
          else
            let m := lBegin in
            let n := lEnd in
            '(s, lBegin, lEnd) ← split s lBegin lEnd;
            stack ← (if lEnd <? n then push (lEnd, n) stack else Some stack);
            stack ← (if m <? lBegin - 1 then push (m, lBegin - 1) stack else Some stack);
            unrecursion fuel stack s
      end
  end.

(** The fuel that is enough for a range. *)
Definition recursion_fuel lBegin lEnd : nat := Datatypes.S (Z.to_nat (lEnd - lBegin)).
Definition unrecursion_fuel lBegin lEnd : nat := 2 * Z.to_nat (lEnd - lBegin) + 2.

Definition quick_recursion lBegin lEnd s : option S := recursion (recursion_fuel lBegin lEnd) lBegin lEnd s.
Definition quick_unrecursion lBegin lEnd s : option S :=
  unrecursion (unrecursion_fuel lBegin lEnd) [(lBegin, lEnd)] s.

End algorithm.

(** ** Keys and comparisons *)

Definition Compare_1K {A} `{Key A} (key_1_1 key_1_2 : A) : Z :=
  if gtb key_1_1 key_1_2 then 1
  else if ltb key_1_1 key_1_2 then -1
  else 0.

Definition Compare_1K_Ascending {A} `{Key A} (key_1_1 key_1_2 : A) : Z :=
  if gtb key_1_1 key_1_2 then 1
  else if ltb key_1_1 key_1_2 then -1
  else 0.

Definition Compare_1K_Descending {A} `{Key A} (key_1_1 key_1_2 : A) : Z :=
  if gtb key_1_1 key_1_2 then -1
  else if ltb key_1_1 key_1_2 then 1
  else 0.

Definition Compare_1K_Ascending_S {A} `{Key A} (key_1_1 key_1_2 : A) (pos_1 pos_2 : Z) : Z :=
  if gtb key_1_1 key_1_2 then 1
  else if ltb key_1_1 key_1_2 then -1
  else if pos_2 <? pos_1 then 1
  else if pos_1 <? pos_2 then -1
  else 0.

Definition Compare_1K_Descending_S {A} `{Key A} (key_1_1 key_1_2 : A) (pos_1 pos_2 : Z) : Z :=
  if gtb key_1_1 key_1_2 then -1
  else if ltb key_1_1 key_1_2 then 1
  else if pos_2 <? pos_1 then 1
  else if pos_1 <? pos_2 then -1
  else 0.

Definition Compare_2K {A B} `{Key A, Key B} (key_1_1 key_1_2 : A) (key_2_1 key_2_2 : B) : Z :=
  if gtb key_1_1 key_1_2 then 1
  else if ltb key_1_1 key_1_2 then -1
  else if gtb key_2_1 key_2_2 then -1
  else if ltb key_2_1 key_2_2 then -1
  else 0.

Definition Compare_3K {A B C} `{Key A, Key B, Key C}
    (key_1_1 key_1_2 : A) (key_2_1 key_2_2 : B) (key_3_1 key_3_2 : C) : Z :=
  if gtb key_1_1 key_1_2 then 1
  else if ltb key_1_1 key_1_2 then -1
  else if gtb key_2_1 key_2_2 then -1
  else if ltb key_2_1 key_2_2 then -1
  else if gtb key_3_1 key_3_2 then 1
  else if ltb key_3_1 key_3_2 then -1
  else 0.

(** The three ways the functions compare: by the operators of a key, by a
    function, by a function that also gets the positions. *)
Definition by_key {Row A} `{Key A} (key : Row -> A) : order Row :=
  mkOrder (fun x mid _ _ => ltb (key x) (key mid)) (fun x mid _ _ => gtb (key x) (key mid)).

Definition by_compare {Row} (Compare_Key : Row -> Row -> Z) : order Row :=
  mkOrder (fun x mid _ _ => Compare_Key x mid <? 0) (fun x mid _ _ => 0 <? Compare_Key x mid).

Definition by_compare_S {Row} (Compare_Key : Row -> Row -> Z -> Z -> Z) : order Row :=
  mkOrder (fun x mid p q => Compare_Key x mid p q <? 0) (fun x mid p q => 0 <? Compare_Key x mid p q).

Abbreviation by_2K key_1 key_2 :=
  (by_compare (fun x y => Compare_2K (key_1 x) (key_1 y) (key_2 x) (key_2 y))) (only parsing).

Abbreviation by_3K key_1 key_2 key_3 :=
  (by_compare (fun x y => Compare_3K (key_1 x) (key_1 y) (key_2 x) (key_2 y) (key_3 x) (key_3 y))) (only parsing).

(** ** The functions of the header

    A table of [n] arrays is the left-nested tuple of the arrays. *)

Section functions.
Context {K1 K2 K3 K4 K5 : Type} {key1 : Key K1} {key2 : Key K2} {key3 : Key K3}.
Implicit Types (lBegin lEnd : Z).

Definition Q_Recursion_1K lBegin lEnd (tKey_1 : list K1) := quick_recursion (by_key id) lBegin lEnd tKey_1.
Definition Q_Unrecursion_1K lBegin lEnd (tKey_1 : list K1) := quick_unrecursion (by_key id) lBegin lEnd tKey_1.

Definition Q_Recursion_1K_Custom lBegin lEnd (tKey_1 : list K1) (Compare_Key : K1 -> K1 -> Z) :=
  quick_recursion (by_compare Compare_Key) lBegin lEnd tKey_1.
Definition Q_Unrecursion_1K_Custom lBegin lEnd (tKey_1 : list K1) (Compare_Key : K1 -> K1 -> Z) :=
  quick_unrecursion (by_compare Compare_Key) lBegin lEnd tKey_1.
Definition Q_Unrecursion_1K_Custom_S lBegin lEnd (tKey_1 : list K1) (Compare_Key : K1 -> K1 -> Z -> Z -> Z) :=
  quick_unrecursion (by_compare_S Compare_Key) lBegin lEnd tKey_1.

Definition Q_Recursion_1K_1P lBegin lEnd (tKey_1 : list K1) (tKey_2 : list K2) :=
  quick_recursion (by_key (fun r : K1 * K2 => r.1)) lBegin lEnd (tKey_1, tKey_2).
Definition Q_Unrecursion_1K_1P lBegin lEnd (tKey_1 : list K1) (tKey_2 : list K2) :=
  quick_unrecursion (by_key (fun r : K1 * K2 => r.1)) lBegin lEnd (tKey_1, tKey_2).
Definition Q_Recursion_1K_2P lBegin lEnd (tKey_1 : list K1) (tKey_2 : list K2) (tKey_3 : list K3) :=
  quick_recursion (by_key (fun r : K1 * K2 * K3 => r.1.1)) lBegin lEnd (tKey_1, tKey_2, tKey_3).
Definition Q_Unrecursion_1K_2P lBegin lEnd (tKey_1 : list K1) (tKey_2 : list K2) (tKey_3 : list K3) :=
  quick_unrecursion (by_key (fun r : K1 * K2 * K3 => r.1.1)) lBegin lEnd (tKey_1, tKey_2, tKey_3).
Definition Q_Recursion_1K_3P lBegin lEnd (tKey_1 : list K1) (tKey_2 : list K2) (tKey_3 : list K3) (tKey_4 : list K4) :=
  quick_recursion (by_key (fun r : K1 * K2 * K3 * K4 => r.1.1.1)) lBegin lEnd (tKey_1, tKey_2, tKey_3, tKey_4).
Definition Q_Unrecursion_1K_3P lBegin lEnd (tKey_1 : list K1) (tKey_2 : list K2) (tKey_3 : list K3) (tKey_4 : list K4) :=
  quick_unrecursion (by_key (fun r : K1 * K2 * K3 * K4 => r.1.1.1)) lBegin lEnd (tKey_1, tKey_2, tKey_3, tKey_4).

Definition Q_Recursion_2K lBegin lEnd (tKey_1 : list K1) (tKey_2 : list K2) :=
  quick_recursion (by_2K (fun r : K1 * K2 => r.1) (fun r => r.2)) lBegin lEnd (tKey_1, tKey_2).
Definition Q_Unrecursion_2K lBegin lEnd (tKey_1 : list K1) (tKey_2 : list K2) :=
  quick_unrecursion (by_2K (fun r : K1 * K2 => r.1) (fun r => r.2)) lBegin lEnd (tKey_1, tKey_2).
Definition Q_Recursion_2K_1P lBegin lEnd (tKey_1 : list K1) (tKey_2 : list K2) (tKey_3 : list K3) :=
  quick_recursion (by_2K (fun r : K1 * K2 * K3 => r.1.1) (fun r => r.1.2)) lBegin lEnd (tKey_1, tKey_2, tKey_3).
Definition Q_Unrecursion_2K_1P lBegin lEnd (tKey_1 : list K1) (tKey_2 : list K2) (tKey_3 : list K3) :=
  quick_unrecursion (by_2K (fun r : K1 * K2 * K3 => r.1.1) (fun r => r.1.2)) lBegin lEnd (tKey_1, tKey_2, tKey_3).
Definition Q_Recursion_2K_2P lBegin lEnd (tKey_1 : list K1) (tKey_2 : list K2) (tKey_3 : list K3) (tKey_4 : list K4) :=
  quick_recursion (by_2K (fun r : K1 * K2 * K3 * K4 => r.1.1.1) (fun r => r.1.1.2)) lBegin lEnd (tKey_1, tKey_2, tKey_3, tKey_4).
Definition Q_Unrecursion_2K_2P lBegin lEnd (tKey_1 : list K1) (tKey_2 : list K2) (tKey_3 : list K3) (tKey_4 : list K4) :=
  quick_unrecursion (by_2K (fun r : K1 * K2 * K3 * K4 => r.1.1.1) (fun r => r.1.1.2)) lBegin lEnd (tKey_1, tKey_2, tKey_3, tKey_4).
Definition Q_Recursion_2K_3P lBegin lEnd (tKey_1 : list K1) (tKey_2 : list K2) (tKey_3 : list K3) (tKey_4 : list K4) (tKey_5 : list K5) :=
  quick_recursion (by_2K (fun r : K1 * K2 * K3 * K4 * K5 => r.1.1.1.1) (fun r => r.1.1.1.2))
    lBegin lEnd (tKey_1, tKey_2, tKey_3, tKey_4, tKey_5).
Definition Q_Unrecursion_2K_3P lBegin lEnd (tKey_1 : list K1) (tKey_2 : list K2) (tKey_3 : list K3) (tKey_4 : list K4) (tKey_5 : list K5) :=
  quick_unrecursion (by_2K (fun r : K1 * K2 * K3 * K4 * K5 => r.1.1.1.1) (fun r => r.1.1.1.2))
    lBegin lEnd (tKey_1, tKey_2, tKey_3, tKey_4, tKey_5).

Definition Q_Recursion_3K_1P lBegin lEnd (tKey_1 : list K1) (tKey_2 : list K2) (tKey_3 : list K3) (tKey_4 : list K4) :=
  quick_recursion (by_3K (fun r : K1 * K2 * K3 * K4 => r.1.1.1) (fun r => r.1.1.2) (fun r => r.1.2))
    lBegin lEnd (tKey_1, tKey_2, tKey_3, tKey_4).
Definition Q_Unrecursion_3K_1P lBegin lEnd (tKey_1 : list K1) (tKey_2 : list K2) (tKey_3 : list K3) (tKey_4 : list K4) :=
  quick_unrecursion (by_3K (fun r : K1 * K2 * K3 * K4 => r.1.1.1) (fun r => r.1.1.2) (fun r => r.1.2))
    lBegin lEnd (tKey_1, tKey_2, tKey_3, tKey_4).
Definition Q_Recursion_3K_2P lBegin lEnd (tKey_1 : list K1) (tKey_2 : list K2) (tKey_3 : list K3) (tKey_4 : list K4) (tKey_5 : list K5) :=
  quick_recursion (by_3K (fun r : K1 * K2 * K3 * K4 * K5 => r.1.1.1.1) (fun r => r.1.1.1.2) (fun r => r.1.1.2))
    lBegin lEnd (tKey_1, tKey_2, tKey_3, tKey_4, tKey_5).
Definition Q_Unrecursion_3K_2P lBegin lEnd (tKey_1 : list K1) (tKey_2 : list K2) (tKey_3 : list K3) (tKey_4 : list K4) (tKey_5 : list K5) :=
  quick_unrecursion (by_3K (fun r : K1 * K2 * K3 * K4 * K5 => r.1.1.1.1) (fun r => r.1.1.1.2) (fun r => r.1.1.2))
    lBegin lEnd (tKey_1, tKey_2, tKey_3, tKey_4, tKey_5).

End functions.

(** ** Correctness *)

(** An exchange of rows is an exchange in every array. *)
Class TableLaws (S Row : Type) {table : Table S Row} : Prop := {
  exchange_rows s i j :
    0 <= i < Z.of_nat (length (rows s)) -> 0 <= j < Z.of_nat (length (rows s)) ->
    exists s', exchange s i j = Some s' /\ swap (rows s) i j = Some (rows s')
}.

(** The two conditions separate the rows before and after the pivot in the
    preorder [R]; the pivot itself passes neither at its own position, and a
    row that does not pass the left scan does not pass it further right. *)
Class OrderLaws {Row : Type} (o : order Row) (R : relation Row) : Prop := {
  order_trans :: Transitive R;
  less_before x mid p q : less o x mid p q = true -> R x mid;
  less_after x mid p q : less o x mid p q = false -> R mid x;
  more_after x mid p q : more o x mid p q = true -> R mid x;
  more_before x mid p q : more o x mid p q = false -> R x mid;
  less_self x p : less o x x p p = false;
  more_self x p : more o x x p p = false;
  less_mono x mid p p' q : p <= p' -> less o x mid p q = false -> less o x mid p' q = false
}.

Section correctness.
Context {S Row : Type} {table : Table S Row} {table_ok : TableLaws S Row}.
Context {o : order Row} {R : relation Row} {order_ok : OrderLaws o R}.
Implicit Types (s : S) (v : list Row) (m n k lBegin lEnd lMid : Z) (mid : Row).

(** The state of the partition of [m] to [n]: either neither scan has passed
    the pivot, or an exchange has happened. *)
Record partitioned m n lMid mid v lBegin lEnd : Prop := mkPartitioned {
  part_left : m <= lBegin;
  part_mid : lBegin <= lEnd;
  part_right : lEnd <= n;
  part_before : all_in (fun x => R x mid) m (lBegin - 1) v;
  part_after : all_in (R mid) (lEnd + 1) n v;
  part_phase :
    (lBegin <= lMid <= lEnd /\ get v lMid = Some mid) \/
    (m < lBegin /\
     (lEnd < n \/
      lBegin = lEnd /\ exists x, get v lEnd = Some x /\ less o x mid lEnd lMid = false))
}.

Lemma all_in_snoc (P : Row -> Prop) m n v x :
  all_in P m (n - 1) v -> get v n = Some x -> P x -> all_in P m n v.
Proof.
  intros H E HP i y Hi Hy. destruct (Z.eq_dec i n) as [->|]; [congruence | apply (H i); [lia | done]].
Qed.

Lemma all_in_cons (P : Row -> Prop) m n v x :
  all_in P (m + 1) n v -> get v m = Some x -> P x -> all_in P m n v.
Proof.
  intros H E HP i y Hi Hy. destruct (Z.eq_dec i m) as [->|]; [congruence | apply (H i); [lia | done]].
Qed.

Lemma scan_up_spec fuel m n lMid mid v : forall lBegin lEnd,
  0 <= m -> n < Z.of_nat (length v) -> lEnd - lBegin <= Z.of_nat fuel ->
  partitioned m n lMid mid v lBegin lEnd ->
  exists k, scan_up o fuel v mid lMid lBegin lEnd = Some k /\ partitioned m n lMid mid v k lEnd /\
    lBegin <= k /\ (k = lEnd \/ exists x, get v k = Some x /\ less o x mid k lMid = false).
Proof.
  induction fuel as [|fuel IH]; intros lBegin lEnd Hm Hn Hf Hp; cbn [scan_up];
    pose proof Hp as [H1 H2 H3 H4 H5 H6]; destruct (Z.ltb_spec lBegin lEnd); try lia;
    try (exists lBegin; split; [done | split; [done | split; [lia | left; lia]]]).
  destruct (get_is_Some v lBegin) as [x Hx]; [lia |]. rewrite Hx. cbn [mbind option_bind].
  destruct (less o x mid lBegin lMid) eqn:E; [| exists lBegin; eauto 10 with lia].
  destruct (IH (lBegin + 1) lEnd) as (k & Hk & Hpk & Hle & Hs); try lia;
    [| exists k; repeat split; [done | apply Hpk.. | lia | done]].
  constructor; try done; try lia.
  - replace (lBegin + 1 - 1) with lBegin by lia. eapply all_in_snoc; [done | exact Hx | by eapply less_before].
  - destruct H6 as [[? Hg]|[? H6]]; [left; split; [| done] | right; split; [lia |]].
    + assert (lBegin <> lMid); [| lia]. intros ->. rewrite Hg in Hx. injection Hx as <-.
      rewrite less_self in E. done.
    + destruct H6 as [?|[? _]]; [by left | lia].
Qed.

Lemma scan_down_spec fuel m n lMid mid v : forall lBegin lEnd,
  0 <= m -> n < Z.of_nat (length v) -> lEnd - lBegin <= Z.of_nat fuel ->
  partitioned m n lMid mid v lBegin lEnd ->
  exists k, scan_down o fuel v mid lMid lBegin lEnd = Some k /\ partitioned m n lMid mid v lBegin k /\
    k <= lEnd /\ (k = lBegin \/ exists x, get v k = Some x /\ more o x mid k lMid = false).
Proof.
  induction fuel as [|fuel IH]; intros lBegin lEnd Hm Hn Hf Hp; cbn [scan_down];
    pose proof Hp as [H1 H2 H3 H4 H5 H6]; destruct (Z.ltb_spec lBegin lEnd); try lia;
    try (exists lEnd; split; [done | split; [done | split; [lia | left; lia]]]).
  destruct (get_is_Some v lEnd) as [x Hx]; [lia |]. rewrite Hx. cbn [mbind option_bind].
  destruct (more o x mid lEnd lMid) eqn:E; [| exists lEnd; eauto 10 with lia].
  destruct (IH lBegin (lEnd - 1)) as (k & Hk & Hpk & Hle & Hs); try lia;
    [| exists k; repeat split; [done | apply Hpk.. | lia | done]].
  constructor; try done; try lia.
  - replace (lEnd - 1 + 1) with lEnd by lia. eapply all_in_cons; [done | exact Hx | by eapply more_after].
  - destruct H6 as [[? Hg]|[? H6]]; [left; split; [| done] | right; split; [lia | left; lia]].
    assert (lEnd <> lMid); [| lia]. intros ->. rewrite Hg in Hx. injection Hx as <-.
    rewrite more_self in E. done.
Qed.

(** The exchange of a row that does not pass on the left with one that does
    not pass on the right. *)
Lemma exchange_partitioned m n lMid mid v v' x y lBegin lEnd :
  partitioned m n lMid mid v lBegin lEnd -> lBegin < lEnd -> swap v lBegin lEnd = Some v' ->
  get v lBegin = Some x -> get v lEnd = Some y ->
  less o x mid lBegin lMid = false -> more o y mid lEnd lMid = false ->
  partitioned m n lMid mid v' (lBegin + 1) (if lBegin + 1 <? lEnd then lEnd - 1 else lEnd).
Proof.
  intros [H1 H2 H3 H4 H5 H6] Hlt Hs Hx Hy Hl Hr.
  assert (Hg : forall k, get v' k = if lEnd =? k then Some x else if lBegin =? k then Some y else get v k)
    by (intros k; by eapply swap_get).
  assert (HB : get v' lBegin = Some y) by (rewrite Hg, Z.eqb_refl; destruct (Z.eqb_spec lEnd lBegin); [lia | done]).
  assert (HE : get v' lEnd = Some x) by (by rewrite Hg, Z.eqb_refl).
  assert (Ho : within lBegin lEnd v v') by (apply (within_swap _ _ v lBegin lEnd v'); [lia | lia | done]).
  assert (Hbef : all_in (fun z => R z mid) m (lBegin + 1 - 1) v').
  { replace (lBegin + 1 - 1) with lBegin by lia. eapply all_in_snoc; [| exact HB | by eapply more_before].
    eapply all_in_outside; [exact Ho | lia | done]. }
  assert (Haft : all_in (R mid) lEnd n v').
  { eapply all_in_cons; [| exact HE | by eapply less_after]. eapply all_in_outside; [exact Ho | lia | done]. }
  destruct (Z.ltb_spec (lBegin + 1) lEnd); constructor; try done; try lia.
  - by replace (lEnd - 1 + 1) with lEnd by lia.
  - eapply all_in_weaken; [| | exact Haft]; lia.
  - right. split; [lia |]. right. split; [lia |]. exists x. split; [done |].
    by apply (less_mono x mid lBegin); [lia |].
Qed.

Lemma partition_loop_spec m n lMid mid : forall fuel s lBegin lEnd,
  0 <= m -> n < Z.of_nat (length (rows s)) -> lEnd - lBegin <= Z.of_nat fuel ->
  partitioned m n lMid mid (rows s) lBegin lEnd ->
  exists s' k, partition_loop o fuel s mid lMid lBegin lEnd = Some (s', k, k) /\
    partitioned m n lMid mid (rows s') k k /\ within m n (rows s) (rows s').
Proof.
  induction fuel as [|fuel IH]; intros s lBegin lEnd Hm Hn Hf Hp; cbn [partition_loop];
    pose proof Hp as [H1 H2 H3 H4 H5 H6]; destruct (Z.ltb_spec lBegin lEnd); try lia;
    try (exists s, lBegin; replace lEnd with lBegin in * by lia; split; [done | split; [done | apply within_refl]]).
  destruct (scan_up_spec (Z.to_nat (lEnd - lBegin)) m n lMid mid (rows s) lBegin lEnd) as (b & -> & Hb & Lb & Sb);
    [lia.. | done |]. cbn [mbind option_bind].
  pose proof (part_mid _ _ _ _ _ _ _ Hb).
  destruct (scan_down_spec (Z.to_nat (lEnd - b)) m n lMid mid (rows s) b lEnd) as (e & -> & He & Le & Se);
    [lia.. | done |]. cbn [mbind option_bind].
  pose proof He as [G1 G2 G3 _ _ _].
  destruct (Z.ltb_spec b e).
  - destruct (exchange_rows s b e) as (s' & -> & Hs); [lia.. |]. cbn [mbind option_bind].
    destruct Sb as [|(x & Hx & Lx)]; [lia |]. destruct Se as [|(y & Hy & My)]; [lia |].
    assert (Hw : within m n (rows s) (rows s')) by (eapply within_swap; [| | exact Hs]; lia).
    pose proof (within_length _ _ _ _ Hw).
    destruct (IH s' (b + 1) (if b + 1 <? e then e - 1 else e)) as (s2 & k & E2 & P2 & W2);
      [lia | lia | destruct (Z.ltb_spec (b + 1) e); lia | by eapply exchange_partitioned |].
    exists s2, k. split; [done | split; [done | by eapply within_trans]].
  - apply IH; [lia | lia | lia | done].
Qed.

Lemma middle m n : 0 <= m -> m + 2 <= n -> m + n <= INT32_MAX ->
  m + 1 <= Z.shiftr (i32 (m + n)) 1 <= n - 1.
Proof.
  intros. rewrite i32_small by (unfold is_i32, INT32_MIN; lia).
  rewrite Z.shiftr_div_pow2 by lia. change (2 ^ 1) with 2. Z.to_euclidean_division_equations; lia.
Qed.

Lemma order_refl x : R x x.
Proof. apply (less_after x x 0 0), less_self. Qed.

(** A split leaves two shorter ranges, the left one up to [b-1] and the right
    one from [k]; they share a row when [b = k+1]. *)
Lemma split_spec s m n :
  0 <= m -> m + 2 <= n -> n < Z.of_nat (length (rows s)) -> m + n <= INT32_MAX ->
  exists s' b k mid, split o s m n = Some (s', b, k) /\ within m n (rows s) (rows s') /\
    m < k <= n /\ all_in (fun x => R x mid) m (b - 1) (rows s') /\ all_in (R mid) (k + 1) n (rows s') /\
    (b = k /\ all_in (R mid) k n (rows s') \/ b = k + 1 /\ k < n).
Proof.
  intros Hm Hmn Hn Hi. unfold split. pose proof (middle m n Hm Hmn Hi) as Hmid.
  remember (Z.shiftr (i32 (m + n)) 1) as lMid eqn:E. clear E.
  destruct (get_is_Some (rows s) lMid) as [mid Emid]; [lia |]. rewrite Emid. cbn [mbind option_bind].
  destruct (partition_loop_spec m n lMid mid (Z.to_nat (n - m)) s m n) as (s' & k & -> & Hp & Hw); try lia.
  { constructor; try lia; try (intros ? ? ?; lia). left. split; [lia | done]. }
  cbn [mbind option_bind]. pose proof (within_length _ _ _ _ Hw). destruct Hp as [H1 _ H3 H4 H5 H6].
  destruct (get_is_Some (rows s') k) as [x Hx]; [lia |]. rewrite Hx. cbn [mbind option_bind].
  exists s', (if less o x mid k lMid then k + 1 else k), k, mid.
  split; [done |]. split; [done |]. split; [destruct H6 as [[? _]|[? _]]; lia |].
  destruct (less o x mid k lMid) eqn:E.
  - split; [replace (k + 1 - 1) with k by lia; eapply all_in_snoc; [done | done | by eapply less_before] |].
    split; [done |]. right. split; [done |].
    destruct H6 as [[? Hg]|[? [|[_ (y & Hy & Ly)]]]]; [| done | congruence].
    replace lMid with k in * by lia. rewrite Hx in Hg. injection Hg as ->. rewrite less_self in E. done.
  - split; [done |]. split; [done |]. left. split; [done |].
    eapply all_in_cons; [done | done | by eapply less_after].
Qed.

Lemma sort_two_spec s m :
  0 <= m -> m + 1 < Z.of_nat (length (rows s)) ->
  exists s', sort_two o s m (m + 1) = Some s' /\ within m (m + 1) (rows s) (rows s') /\
    sorted_in R m (m + 1) (rows s').
Proof.
  intros Hm Hn. unfold sort_two.
  destruct (get_is_Some (rows s) m) as [x Hx]; [lia |]. destruct (get_is_Some (rows s) (m + 1)) as [y Hy]; [lia |].
  rewrite Hx, Hy. cbn [mbind option_bind]. destruct (more o x y m (m + 1)) eqn:E.
  - destruct (exchange_rows s m (m + 1)) as (s' & -> & Hs); [lia.. |].
    exists s'. split; [done |]. split; [eapply within_swap; [| | done]; lia |].
    intros i j a b Hi Hij Hj Ha Hb. replace i with m in * by lia. replace j with (m + 1) in * by lia.
    rewrite (swap_get _ _ _ _ m _ _ Hs Hx Hy), Z.eqb_refl in Ha.
    rewrite (swap_get _ _ _ _ (m + 1) _ _ Hs Hx Hy), Z.eqb_refl in Hb.
    destruct (Z.eqb_spec (m + 1) m); [lia |].
    injection Ha as <-. injection Hb as <-. by eapply more_after.
  - exists s. split; [done |]. split; [apply within_refl |].
    intros i j a b Hi Hij Hj Ha Hb. replace i with m in * by lia. replace j with (m + 1) in * by lia.
    rewrite Hx in Ha. rewrite Hy in Hb. injection Ha as <-. injection Hb as <-. by eapply more_before.
Qed.

(** Sorting first the left range and then the right one, which may begin with
    the last row of the left, sorts the whole. *)
Lemma sorted_halves m n b k mid v1 v2 v3 :
  m < k <= n -> all_in (fun x => R x mid) m (b - 1) v1 -> all_in (R mid) (k + 1) n v1 ->
  (b = k /\ all_in (R mid) k n v1 \/ b = k + 1 /\ k < n) ->
  within m (b - 1) v1 v2 -> sorted_in R m (b - 1) v2 ->
  within k n v2 v3 -> sorted_in R k n v3 -> sorted_in R m n v3.
Proof.
  intros Hk Hl Hr Hcase W2 S2 W3 S3.
  pose proof (within_all _ _ _ _ _ W2 Hl) as Hl2.
  assert (Hr2 : all_in (R mid) (k + 1) n v2) by (eapply all_in_outside; [exact W2 | lia | done]).
  assert (Hl3 : forall i x, m <= i <= k - 1 -> get v3 i = Some x -> get v2 i = Some x).
  { intros i x Hi Hx. destruct W3 as [_ Ho]. rewrite Ho in Hx by lia. done. }
  assert (Hbound : exists w, all_in (fun x => R x w) m (k - 1) v2 /\ all_in (R w) k n v2).
  { destruct Hcase as [[-> Hkn]|[-> Hkn]].
    - exists mid. split; [done |]. eapply all_in_outside; [exact W2 | lia | done].
    - replace (k + 1 - 1) with k in * by lia. destruct (get v2 k) as [w|] eqn:Ew.
      + exists w. split; [intros i x Hi Hx; apply (S2 i k); try done; lia |].
        eapply all_in_cons; [| exact Ew | apply order_refl].
        intros i x Hi Hx. transitivity mid; [apply (Hl2 k); [lia | done] | by apply (Hr2 i)].
      + exists mid. split; [eapply all_in_weaken; [| | exact Hl2]; lia |].
        intros i x Hi Hx. destruct (Z.eq_dec i k) as [->|]; [congruence | apply (Hr2 i); [lia | done]]. }
  destruct Hbound as (w & B1 & B2). apply (sorted_join R order_trans m k n v3 w).
  - intros i j x y Hi Hij Hj Hx Hy. apply (S2 i j); [lia.. | |]; apply Hl3; try done; lia.
  - done.
  - intros i x Hi Hx. apply (B1 i); [lia |]. by apply Hl3.
  - by eapply within_all.
Qed.

(** [s'] is [s] with the range sorted, and both forms of the algorithm go from
    one to the other: the recursive one with any fuel above the length, the
    other with the room and the rounds that the length bounds. *)
Record sorts s m n s' : Prop := mkSorts {
  sorts_within : within m n (rows s) (rows s');
  sorts_sorted : sorted_in R m n (rows s');
  sorts_recursion f : Z.max 0 (n - m) < Z.of_nat f -> recursion o f m n s = Some s';
  sorts_stack stack : Z.of_nat (length stack) + Z.max 1 (n - m) <= 512 ->
    exists rounds : nat, Z.of_nat rounds <= Z.max 1 (2 * (n - m) - 1) /\
      forall fuel, unrecursion o (rounds + fuel) ((m, n) :: stack) s = unrecursion o fuel stack s'
}.

(** A half of a split, which is left alone when it has one row or none. *)
Definition half s m n s' : Prop := (m < n -> sorts s m n s') /\ (n <= m -> s' = s).

Lemma half_sorted s m n s' : half s m n s' -> within m n (rows s) (rows s') /\ sorted_in R m n (rows s').
Proof.
  intros [H1 H2]. destruct (Z.lt_ge_cases m n) as [H|H].
  - destruct (H1 H). done.
  - rewrite (H2 H). split; [apply within_refl | by apply sorted_small].
Qed.

Lemma half_recursion s m n s' f : half s m n s' -> n - m < Z.of_nat f ->
  (if m <? n then recursion o f m n s else Some s) = Some s'.
Proof.
  intros [H1 H2] Hf. destruct (Z.ltb_spec m n) as [H|H]; [by apply (sorts_recursion _ _ _ _ (H1 H)); lia |].
  by rewrite (H2 H).
Qed.

Lemma half_stack s m n s' stack : half s m n s' ->
  Z.of_nat (length stack) + Z.max 1 (n - m) <= 512 ->
  exists rounds : nat, Z.of_nat rounds <= Z.max 0 (2 * (n - m) - 1) /\
    forall fuel, unrecursion o (rounds + fuel) (if m <? n then (m, n) :: stack else stack) s =
                 unrecursion o fuel stack s'.
Proof.
  intros [H1 H2] Hst. destruct (Z.ltb_spec m n) as [H|H].
  - destruct (sorts_stack _ _ _ _ (H1 H) stack Hst) as (r & Hr & Hu). exists r. split; [lia | done].
  - rewrite (H2 H). exists 0%nat. split; [lia | done].
Qed.

Lemma stack_room r stack : (length stack < 512)%nat -> push r stack = Some (r :: stack).
Proof. intros H. unfold push. destruct (Nat.ltb_spec (length stack) 512); [done | lia]. Qed.

Lemma sorts_step s m n s1 b k s2 s3 mid :
  0 <= m -> m + 2 <= n -> split o s m n = Some (s1, b, k) -> within m n (rows s) (rows s1) ->
  m < k <= n -> all_in (fun x => R x mid) m (b - 1) (rows s1) -> all_in (R mid) (k + 1) n (rows s1) ->
  (b = k /\ all_in (R mid) k n (rows s1) \/ b = k + 1 /\ k < n) ->
  half s1 m (b - 1) s2 -> half s2 k n s3 -> sorts s m n s3.
Proof.
  intros Hm Hmn Hs W1 Hk Hl Hr Hcase HL HR.
  destruct (half_sorted _ _ _ _ HL) as [WL SL]. destruct (half_sorted _ _ _ _ HR) as [WR SR].
  assert (Hb : b = k \/ b = k + 1 /\ k < n) by tauto.
  constructor.
  - eapply within_trans; [exact W1 |]. eapply within_trans; (eapply within_weaken; [| | eassumption]); lia.
  - eapply sorted_halves; eassumption.
  - intros [|f] Hf; [lia |]. cbn [recursion]. destruct (Z.leb_spec n m), (Z.eqb_spec (m + 1) n); try lia.
    rewrite Hs. cbn [mbind option_bind]. rewrite (half_recursion _ _ _ _ f HL) by lia. cbn [mbind option_bind].
    by apply half_recursion; [| lia].
  - intros stack Hst.
    destruct (half_stack _ _ _ _ stack HR) as (r2 & Hr2 & Hu2); [lia |].
    destruct (half_stack _ _ _ _ (if k <? n then (k, n) :: stack else stack) HL) as (r1 & Hr1 & Hu1).
    { destruct (Z.ltb_spec k n); cbn [length]; lia. }
    exists (Datatypes.S (r1 + r2)). split; [lia |]. intros fuel.
    cbn [Nat.add unrecursion]. destruct (Z.leb_spec n m), (Z.eqb_spec (m + 1) n); try lia.
    rewrite Hs. cbn [mbind option_bind]. rewrite <- Hu2, <- Hu1, Nat.add_assoc.
    destruct (Z.ltb_spec k n), (Z.ltb_spec m (b - 1));
      rewrite ?stack_room by (cbn [length]; lia); cbn [mbind option_bind];
      rewrite ?stack_room by (cbn [length]; lia); done.
Qed.

Lemma sorts_range (size : nat) : forall s m n,
  0 <= m -> n < Z.of_nat (length (rows s)) -> 2 * n <= INT32_MAX -> n - m <= Z.of_nat size ->
  exists s', sorts s m n s'.
Proof.
  induction size as [|size IH]; intros s m n Hm Hn Hi Hsz.
  - exists s. constructor; [apply within_refl | apply sorted_small; lia | |].
    + intros [|f] Hf; [lia |]. cbn [recursion]. destruct (Z.leb_spec n m); [done | lia].
    + intros stack _. exists 1%nat. split; [lia |]. intros fuel. cbn. destruct (Z.leb_spec n m); [done | lia].
  - destruct (Z.lt_ge_cases n (m + 2)) as [H|H].
    + destruct (Z.eq_dec n (m + 1)) as [->|]; [| apply IH; lia].
      destruct (sort_two_spec s m) as (s' & E & W & Q); [lia.. |]. exists s'. constructor; try done.
      * intros [|f] Hf; [lia |]. cbn [recursion]. destruct (Z.leb_spec (m + 1) m); [lia |]. by rewrite Z.eqb_refl.
      * intros stack _. exists 1%nat. split; [lia |]. intros fuel. cbn [Nat.add unrecursion].
        destruct (Z.leb_spec (m + 1) m); [lia |]. rewrite Z.eqb_refl, E. done.
    + destruct (split_spec s m n) as (s1 & b & k & mid & Hs & W1 & Hk & Hl & Hr & Hcase); [lia.. |].
      pose proof (within_length _ _ _ _ W1).
      assert (HL : exists s2, half s1 m (b - 1) s2).
      { destruct (Z.lt_ge_cases m (b - 1)); [| exists s1; split; [lia | done]].
        destruct (IH s1 m (b - 1)) as [s2 ?]; [lia.. |]. exists s2. split; [done | lia]. }
      destruct HL as [s2 HL]. destruct (half_sorted _ _ _ _ HL) as [W2 _]. apply within_length in W2.
      assert (HR : exists s3, half s2 k n s3).
      { destruct (Z.lt_ge_cases k n); [| exists s2; split; [lia | done]].
        destruct (IH s2 k n) as [s3 ?]; [lia.. |]. exists s3. split; [done | lia]. }
      destruct HR as [s3 HR]. exists s3. eapply sorts_step; try eassumption; lia.
Qed.

End correctness.

(** ** The interfaces are met *)

#[export] Instance array_table_ok A : TableLaws (list A) A.
Proof.
  constructor. cbn. intros v i j Hi Hj.
  destruct (get_is_Some v i Hi) as [x Hx], (get_is_Some v j Hj) as [y Hy].
  rewrite (swap_in v i j x y) by done. eauto.
Qed.

Lemma get_zip {A B} (l : list A) (k : list B) i z :
  get (zip l k) i = Some z <-> get l i = Some z.1 /\ get k i = Some z.2.
Proof.
  rewrite !get_Some, lookup_zip_with_Some. destruct z as [x y]. cbn. split.
  - intros (? & ? & ? & [= -> ->] & ? & ?). done.
  - intros [[? ?] [_ ?]]. eauto 10.
Qed.

#[export] Instance zip_table_ok {S Row} {table : Table S Row} {ok : TableLaws S Row} B :
  TableLaws (S * list B) (Row * B).
Proof.
  constructor. cbn. intros [s l] i j Hi Hj. cbn in *.
  destruct (get_is_Some _ i Hi) as [z Hz], (get_is_Some _ j Hj) as [w Hw].
  pose proof (proj1 (get_zip _ _ _ _) Hz) as [Hz1 Hz2]. pose proof (proj1 (get_zip _ _ _ _) Hw) as [Hw1 Hw2].
  destruct (exchange_rows s i j) as (s' & E & Hs); [by eapply get_range.. |].
  rewrite E. cbn. rewrite (swap_in _ _ _ z w), (swap_in _ _ _ z.2 w.2) by done. cbn.
  eexists. split; [done |]. cbn. rewrite (swap_in _ _ _ z.1 w.1) in Hs by done. injection Hs as <-.
  destruct z, w. by rewrite <- !insert_zip_with.
Qed.

Section key_orders.
Context {Row A B C : Type} {keyA : Key A} {keyB : Key B} {keyC : Key C}.
Context {lawsA : KeyLaws A} {lawsB : KeyLaws B} {lawsC : KeyLaws C}.
Variables (f : Row -> A) (g : Row -> B) (h : Row -> C).

(** Rows in the order of a key, ascending and descending. *)
Definition key_le (x y : Row) : Prop := ltb (f y) (f x) = false.
Definition key_ge (x y : Row) : Prop := ltb (f x) (f y) = false.

Lemma key_le_trans : Transitive key_le.
Proof. intros x y z H1 H2. exact (ltb_cotrans _ _ _ H2 H1). Qed.

Lemma key_ge_trans : Transitive key_ge.
Proof. intros x y z H1 H2. exact (ltb_cotrans _ _ _ H1 H2). Qed.

(** Reduce a law of a comparison to the laws of the keys. *)
Ltac order_case :=
  unfold key_le, key_ge; cbn; intros; unfold gtb in *;
  repeat match goal with
         | H : context [if ltb ?a ?b then _ else _] |- _ => destruct (ltb a b) eqn:?
         | |- context [if ltb ?a ?b then _ else _] => destruct (ltb a b) eqn:?
         | H : context [if Z.ltb ?a ?b then _ else _] |- _ => destruct (Z.ltb_spec a b)
         | |- context [if Z.ltb ?a ?b then _ else _] => destruct (Z.ltb_spec a b)
         end;
  repeat match goal with
         | H : ltb ?x ?x = true |- _ => rewrite ltb_irrefl in H
         | H : ltb ?x ?y = true |- _ => pose proof (ltb_asym _ _ H); revert H
         end; intros; rewrite ?ltb_irrefl; cbn in *; try congruence; try lia.

#[export] Instance by_key_ok : OrderLaws (by_key f) key_le.
Proof. constructor; [exact key_le_trans | order_case ..]. Qed.

#[export] Instance by_ascending_ok :
  OrderLaws (by_compare (fun x y => Compare_1K_Ascending (f x) (f y))) key_le.
Proof. unfold by_compare, Compare_1K_Ascending. constructor; [exact key_le_trans | order_case ..]. Qed.

#[export] Instance by_descending_ok :
  OrderLaws (by_compare (fun x y => Compare_1K_Descending (f x) (f y))) key_ge.
Proof. unfold by_compare, Compare_1K_Descending. constructor; [exact key_ge_trans | order_case ..]. Qed.

#[export] Instance by_ascending_S_ok :
  OrderLaws (by_compare_S (fun x y => Compare_1K_Ascending_S (f x) (f y))) key_le.
Proof. unfold by_compare_S, Compare_1K_Ascending_S. constructor; [exact key_le_trans | order_case ..]. Qed.

#[export] Instance by_descending_S_ok :
  OrderLaws (by_compare_S (fun x y => Compare_1K_Descending_S (f x) (f y))) key_ge.
Proof. unfold by_compare_S, Compare_1K_Descending_S. constructor; [exact key_ge_trans | order_case ..]. Qed.

#[export] Instance by_2K_ok : OrderLaws (by_2K f g) key_le.
Proof. unfold by_compare, Compare_2K. constructor; [exact key_le_trans | order_case ..]. Qed.

#[export] Instance by_3K_ok : OrderLaws (by_3K f g h) key_le.
Proof. unfold by_compare, Compare_3K. constructor; [exact key_le_trans | order_case ..]. Qed.

End key_orders.

(** ** What the functions do *)

(** [s'] is [s] with its rows from [m] to [n] in the order [R]. *)
Definition sorted_rows {S Row : Type} {table : Table S Row} (R : relation Row) (m n : Z) (s s' : S) : Prop :=
  rows s' ≡ₚ rows s /\ (forall i, ~ (m <= i <= n) -> get (rows s') i = get (rows s) i) /\ sorted_in R m n (rows s').

(** A recursive function and the one with the stack, which has room for the
    ranges of 513 rows, return and sort, with the same result. *)
Definition sort {S Row : Type} {table : Table S Row} (R : relation Row) (m n : Z) (s : S) (recursive stack : option S) : Prop :=
  exists s', recursive = Some s' /\ sorted_rows R m n s s' /\ (n - m <= 512 -> stack = Some s').

Lemma quick_sort_spec {S Row : Type} {table : Table S Row} {table_ok : TableLaws S Row}
    (o : order Row) (R : relation Row) {order_ok : OrderLaws o R} (s : S) (m n : Z) :
  0 <= m -> n < Z.of_nat (length (rows s)) -> 2 * n <= INT32_MAX ->
  sort R m n s (quick_recursion o m n s) (quick_unrecursion o m n s).
Proof.
  intros Hm Hn Hi. destruct (sorts_range (Z.to_nat (n - m)) s m n) as [s' [[Hp Ho] Hs Hr Hst]]; [lia.. |].
  exists s'. split; [apply Hr; unfold recursion_fuel; lia |]. split; [done |].
  intros Hlen. unfold quick_unrecursion, unrecursion_fuel.
  destruct (Hst []) as (rounds & Hle & Hu); [cbn [length]; lia |].
  replace (2 * Z.to_nat (n - m) + 2)%nat with (rounds + (2 * Z.to_nat (n - m) + 2 - rounds))%nat by lia.
  rewrite Hu. destruct (2 * Z.to_nat (n - m) + 2 - rounds)%nat eqn:E; [lia | done].
Qed.

Section header.
Context {K1 K2 K3 K4 K5 : Type} {key1 : Key K1} {key2 : Key K2} {key3 : Key K3}.
Context {laws1 : KeyLaws K1} {laws2 : KeyLaws K2} {laws3 : KeyLaws K3}.

(** C26. The quicksorts of the header end and sort.  On the range [m] to [n] of
    parallel arrays that reach beyond [n], with [2n] an int32_t, each recursive
    function moves whole rows, none outside the range, and leaves the range in
    order: the one-key functions by the key, or as Compare_1K, its ascending or
    its descending version say; the functions of two and of three keys by the
    first key only.  On at most 513 rows the function with the explicit stack
    gives the same arrays without overflowing its stack of 1024 integers; the
    comparisons with positions, which only a stack version can use, sort by the
    key too. *)
Theorem quick_sorts (t1 : list K1) (t2 : list K2) (t3 : list K3) (t4 : list K4) (t5 : list K5) (m n : Z) :
  0 <= m -> 2 * n <= INT32_MAX ->
  n < Z.of_nat (length t1) -> n < Z.of_nat (length t2) -> n < Z.of_nat (length t3) ->
  n < Z.of_nat (length t4) -> n < Z.of_nat (length t5) ->
  sort (key_le id) m n t1 (Q_Recursion_1K m n t1) (Q_Unrecursion_1K m n t1) /\
  sort (key_le id) m n t1 (Q_Recursion_1K_Custom m n t1 Compare_1K) (Q_Unrecursion_1K_Custom m n t1 Compare_1K) /\
  sort (key_le id) m n t1 (Q_Recursion_1K_Custom m n t1 Compare_1K_Ascending)
    (Q_Unrecursion_1K_Custom m n t1 Compare_1K_Ascending) /\
  sort (key_ge id) m n t1 (Q_Recursion_1K_Custom m n t1 Compare_1K_Descending)
    (Q_Unrecursion_1K_Custom m n t1 Compare_1K_Descending) /\
  (n - m <= 512 ->
    (exists t, Q_Unrecursion_1K_Custom_S m n t1 Compare_1K_Ascending_S = Some t /\ sorted_rows (key_le id) m n t1 t) /\
    (exists t, Q_Unrecursion_1K_Custom_S m n t1 Compare_1K_Descending_S = Some t /\ sorted_rows (key_ge id) m n t1 t)) /\
  sort (key_le (fun r => r.1)) m n (t1, t2) (Q_Recursion_1K_1P m n t1 t2) (Q_Unrecursion_1K_1P m n t1 t2) /\
  sort (key_le (fun r => r.1.1)) m n (t1, t2, t3) (Q_Recursion_1K_2P m n t1 t2 t3) (Q_Unrecursion_1K_2P m n t1 t2 t3) /\
  sort (key_le (fun r => r.1.1.1)) m n (t1, t2, t3, t4)
    (Q_Recursion_1K_3P m n t1 t2 t3 t4) (Q_Unrecursion_1K_3P m n t1 t2 t3 t4) /\
  sort (key_le (fun r => r.1)) m n (t1, t2) (Q_Recursion_2K m n t1 t2) (Q_Unrecursion_2K m n t1 t2) /\
  sort (key_le (fun r => r.1.1)) m n (t1, t2, t3) (Q_Recursion_2K_1P m n t1 t2 t3) (Q_Unrecursion_2K_1P m n t1 t2 t3) /\
  sort (key_le (fun r => r.1.1.1)) m n (t1, t2, t3, t4)
    (Q_Recursion_2K_2P m n t1 t2 t3 t4) (Q_Unrecursion_2K_2P m n t1 t2 t3 t4) /\
  sort (key_le (fun r => r.1.1.1.1)) m n (t1, t2, t3, t4, t5)
    (Q_Recursion_2K_3P m n t1 t2 t3 t4 t5) (Q_Unrecursion_2K_3P m n t1 t2 t3 t4 t5) /\
  sort (key_le (fun r => r.1.1.1)) m n (t1, t2, t3, t4)
    (Q_Recursion_3K_1P m n t1 t2 t3 t4) (Q_Unrecursion_3K_1P m n t1 t2 t3 t4) /\
  sort (key_le (fun r => r.1.1.1.1)) m n (t1, t2, t3, t4, t5)
    (Q_Recursion_3K_2P m n t1 t2 t3 t4 t5) (Q_Unrecursion_3K_2P m n t1 t2 t3 t4 t5).
Proof.
  intros Hm Hi H1 H2 H3 H4 H5.
  assert (Hsort : forall (S Row : Type) (table : Table S Row), TableLaws S Row -> forall (o : order Row) (R : relation Row), OrderLaws o R ->
    forall s : S, n < Z.of_nat (length (rows s)) -> sort R m n s (quick_recursion o m n s) (quick_unrecursion o m n s))
    by (intros; by apply quick_sort_spec).
  assert (Hlen : n < Z.of_nat (length (rows t1)) /\ n < Z.of_nat (length (rows (t1, t2))) /\ n < Z.of_nat (length (rows (t1, t2, t3))) /\
    n < Z.of_nat (length (rows (t1, t2, t3, t4))) /\ n < Z.of_nat (length (rows (t1, t2, t3, t4, t5))))
    by (cbn [rows array_table zip_table fst snd]; rewrite !length_zip_with; lia).
  destruct Hlen as (L1 & L2 & L3 & L4 & L5).
  split; [exact (Hsort _ _ _ _ _ _ (by_key_ok id) t1 L1) |].
  split; [exact (Hsort _ _ _ _ (by_compare Compare_1K) _ (by_ascending_ok id) t1 L1) |].
  split; [exact (Hsort _ _ _ _ (by_compare Compare_1K_Ascending) _ (by_ascending_ok id) t1 L1) |].
  split; [exact (Hsort _ _ _ _ (by_compare Compare_1K_Descending) _ (by_descending_ok id) t1 L1) |].
  split.
  { intros Hshort. split.
    - destruct (Hsort _ _ _ _ (by_compare_S Compare_1K_Ascending_S) _ (by_ascending_S_ok id) t1 L1) as (t & _ & Ht & Hst).
      exists t. split; [exact (Hst Hshort) | exact Ht].
    - destruct (Hsort _ _ _ _ (by_compare_S Compare_1K_Descending_S) _ (by_descending_S_ok id) t1 L1) as (t & _ & Ht & Hst).
      exists t. split; [exact (Hst Hshort) | exact Ht]. }
  split; [exact (Hsort _ _ _ _ _ _ (by_key_ok (fun r => r.1)) (t1, t2) L2) |].
  split; [exact (Hsort _ _ _ _ _ _ (by_key_ok (fun r => r.1.1)) (t1, t2, t3) L3) |].
  split; [exact (Hsort _ _ _ _ _ _ (by_key_ok (fun r => r.1.1.1)) (t1, t2, t3, t4) L4) |].
  split; [exact (Hsort _ _ _ _ _ _ (by_2K_ok (fun r => r.1) (fun r => r.2)) (t1, t2) L2) |].
  split; [exact (Hsort _ _ _ _ _ _ (by_2K_ok (fun r => r.1.1) (fun r => r.1.2)) (t1, t2, t3) L3) |].
  split; [exact (Hsort _ _ _ _ _ _ (by_2K_ok (fun r => r.1.1.1) (fun r => r.1.1.2)) (t1, t2, t3, t4) L4) |].
  split; [exact (Hsort _ _ _ _ _ _ (by_2K_ok (fun r => r.1.1.1.1) (fun r => r.1.1.1.2)) (t1, t2, t3, t4, t5) L5) |].
  split; [exact (Hsort _ _ _ _ _ _ (by_3K_ok (fun r => r.1.1.1) (fun r => r.1.1.2) (fun r => r.1.2)) (t1, t2, t3, t4) L4) |].
  exact (Hsort _ _ _ _ _ _ (by_3K_ok (fun r => r.1.1.1.1) (fun r => r.1.1.1.2) (fun r => r.1.1.2)) (t1, t2, t3, t4, t5) L5).
Qed.

End header.

Lemma quick_sorts_witness :
  let t1 := [5; 3; 9; 3; 7; 1] in let t2 := [6; 2; 4; 3; 5; 1] in
  sort (key_le (fun r => r.1)) 0 5 (t1, t2) (Q_Recursion_1K_1P 0 5 t1 t2) (Q_Unrecursion_1K_1P 0 5 t1 t2).
Proof.
  intros t1 t2.
  exact (proj1 (proj2 (proj2 (proj2 (proj2 (proj2 (quick_sorts t1 t2 t1 t2 t2 0 5 ltac:(lia) ltac:(unfold INT32_MAX; lia)
    eq_refl eq_refl eq_refl eq_refl eq_refl))))))).
Defined.

(** The comparisons of two and of three keys answer -1 for rows that agree
    in the first key and differ in the second, in both orders.  The functions
    that use them sort by the first key, but there are arrays on which the
    rows with equal first keys end in the wrong order of the second, in both
    the recursive and the stack version. *)
Theorem Q_2K_first_key_only :
  (forall (t1 t2 : list Z) n, n < Z.of_nat (length (zip t1 t2)) -> 2 * n <= INT32_MAX ->
     exists s', Q_Recursion_2K 0 n t1 t2 = Some s' /\ zip s'.1 s'.2 ≡ₚ zip t1 t2 /\
       sorted_in (fun x y => x.1 <= y.1) 0 n (zip s'.1 s'.2)) /\
  Q_Recursion_2K 0 1 [1; 1] [2; 1] = Some ([1; 1], [2; 1]) /\
  Q_Unrecursion_2K 0 1 [1; 1] [2; 1] = Some ([1; 1], [2; 1]) /\
  Q_Recursion_2K 0 4 [1; 1; 1; 1; 1] [5; 4; 3; 2; 1] = Some ([1; 1; 1; 1; 1], [5; 1; 2; 4; 3]) /\
  Q_Recursion_3K_1P 0 1 [1; 1] [2; 1] [0; 0] [x00; x01] = Some ([1; 1], [2; 1], [0; 0], [x00; x01]).
Proof.
  split; [| repeat split; vm_compute; reflexivity].
  intros t1 t2 n Hn Hi. unfold Q_Recursion_2K, quick_recursion, recursion_fuel.
  destruct (sorts_range (R := key_le (fun r : Z * Z => r.1)) (o := by_2K (fun r : Z * Z => r.1) (fun r => r.2))
              (Z.to_nat (n - 0)) (t1, t2) 0 n) as [s' [[Hp _] Hs Hr _]]; [cbn; lia.. |].
  exists s'. split; [apply Hr; lia |]. split; [done |].
  intros i j x y ? ? ? Hx Hy. pose proof (Hs i j x y ltac:(lia) ltac:(lia) ltac:(lia) Hx Hy) as Hxy.
  unfold key_le, ltb, key_Z in Hxy. lia.
Qed.

End MultiSort.
