(* ===== verification/Heap.v ===== *)
(** * QMinHeap and QMaxHeap: src/include/common/qheap.h

    The two classes differ in the direction of their comparisons, so the
    operations are written once over the comparison [before] ([<=] for the
    minimum heap, [>=] for the maximum heap) and its negation [after] ([>] and
    [<]).  Any sequence of calls is proved to behave as a bounded bag from
    which a pop takes a least element. *)

From S2P Require Import Prelude Arrays.
Import Arrays.

Module Heap.

Record QHeap (A : Type) : Type := mkQHeap {
  heap_ : list A;
  size_ : Z;
  max_size_ : Z
}.
Arguments mkQHeap {A}.
Arguments heap_ {A}.
Arguments size_ {A}.
Arguments max_size_ {A}.

Abbreviation size := size_ (only parsing).
Abbreviation max_size := max_size_ (only parsing).
Abbreviation empty q := (size_ q =? 0)%Z (only parsing).
Abbreviation full q := (size_ q =? max_size_ q)%Z (only parsing).

Section ops.
Context {A : Type}.
Variables before after : A -> A -> bool.
Implicit Types (q : QHeap A) (x temp : A) (heap : list A) (i j m : Z).

(** [alloc] is the array [q_new_array] returned, [None] for NULL. *)
Definition construct (size : Z) (alloc : option (list A)) : outcome (QHeap A) :=
  match alloc with
  | None => Abort
  | Some heap => Ret (mkQHeap heap 0 size)
  end.

Definition clear q : QHeap A := mkQHeap (heap_ q) 0 (max_size_ q).

(** The loop of [siftUp]; [(j-1)/2] rounds to zero. *)
Fixpoint siftUp_loop (fuel : nat) heap temp j i : option (list A) :=
  if 0 <? j then
    y ← get heap i;
    if before y temp then set heap j temp
    else match fuel with
         | O => None
         | S fuel => heap ← set heap j y; siftUp_loop fuel heap temp i (Z.quot (i - 1) 2)
         end
  else set heap j temp.

Definition siftUp start heap : option (list A) :=
  temp ← get heap start;
  siftUp_loop (Z.to_nat start) heap temp start (Z.quot (start - 1) 2).

(** The child [siftDown] compares with. *)
Definition smaller_child heap j m : option Z :=
  if j <? m then
    y ← get heap j; z ← get heap (j + 1);
    Some (if after y z then j + 1 else j)
  else Some j.

(** An [int32_t] index that overflows is negative, and not in the array. *)
Fixpoint siftDown_loop (fuel : nat) heap temp i j m : option (list A) :=
  if j <=? m then
    j ← smaller_child heap j m;
    y ← get heap j;
    if before temp y then set heap i temp
    else match fuel with
         | O => None
         | S fuel => heap ← set heap i y; siftDown_loop fuel heap temp j (i32 (2 * j + 1)) m
         end
  else set heap i temp.

Definition siftDown start m heap : option (list A) :=
  temp ← get heap start;
  siftDown_loop (Z.to_nat (m + 1)) heap temp start (i32 (2 * start + 1)) m.

(** The bodies of [push] and [pop] once the heap is not full, not empty. *)
Definition enqueue x q : option (QHeap A) :=
  heap ← set (heap_ q) (size_ q) x;
  heap ← siftUp (size_ q) heap;
  Some (mkQHeap heap (size_ q + 1) (max_size_ q)).

Definition dequeue q : option (A * QHeap A) :=
  x ← get (heap_ q) 0;
  last ← get (heap_ q) (size_ q - 1);
  heap ← set (heap_ q) 0 last;
  let size := size_ q - 1 in
  heap ← siftDown 0 (size - 1) heap;
  Some (x, mkQHeap heap size (max_size_ q)).

(** One turn of the waiting loops: [None] while the caller sleeps. *)
Definition push x q : option (QHeap A) := if full q then None else enqueue x q.
Definition pop q : option (A * QHeap A) := if empty q then None else dequeue q.

Definition push_non_blocking x q : option (Z * QHeap A) :=
  if full q then Some (-1, q) else q ← enqueue x q; Some (0, q).

(** The item is stored through the reference only on success. *)
Definition pop_non_blocking q : option (Z * option A * QHeap A) :=
  if empty q then Some (-1, None, q) else '(x, q) ← dequeue q; Some (0, Some x, q).

End ops.

(** ** The two classes *)

(** [QMinHeap] is the generic heap for [operator<=] and [operator>]. *)
Abbreviation QMinHeap_siftUp leb := (siftUp leb) (only parsing).
Abbreviation QMinHeap_siftDown leb gtb := (siftDown leb gtb) (only parsing).
Abbreviation QMinHeap_push leb := (push leb) (only parsing).
Abbreviation QMinHeap_pop leb gtb := (pop leb gtb) (only parsing).
Abbreviation QMinHeap_push_non_blocking leb := (push_non_blocking leb) (only parsing).
Abbreviation QMinHeap_pop_non_blocking leb gtb := (pop_non_blocking leb gtb) (only parsing).

Section classes.
Context {A : Type}.
(** [operator<=], [operator>], [operator>=] and [operator<] of the element type. *)
Variables leb gtb geb ltb : A -> A -> bool.

Definition QMaxHeap_siftUp := siftUp geb.
Definition QMaxHeap_siftDown := siftDown geb ltb.
Definition QMaxHeap_push := push geb.
Definition QMaxHeap_pop := pop geb ltb.
Definition QMaxHeap_push_non_blocking := push_non_blocking geb.
Definition QMaxHeap_pop_non_blocking := pop_non_blocking geb ltb.

End classes.

(** ** Heap order *)

Class HeapLaws {A : Type} (before after : A -> A -> bool) : Prop := {
  before_trans x y z : before x y = true -> before y z = true -> before x z = true;
  before_total x y : before x y = false -> before y x = true;
  after_before x y : after x y = negb (before x y)
}.

Definition parent (k : Z) : Z := Z.quot (k - 1) 2.

Lemma parent_div k : 0 < k -> parent k = (k - 1) / 2.
Proof. intros. unfold parent. apply Z.quot_div_nonneg; lia. Qed.

Lemma parent_range k : 0 < k -> 0 <= parent k < k.
Proof. intros. rewrite parent_div by done. Z.to_euclidean_division_equations; lia. Qed.

Lemma parent_children k i : 0 < k -> parent k = i <-> k = 2 * i + 1 \/ k = 2 * i + 2.
Proof. intros. rewrite parent_div by done. Z.to_euclidean_division_equations; lia. Qed.

Section order.
Context {A : Type} {before after : A -> A -> bool} {laws : HeapLaws before after}.
Implicit Types (v heap : list A) (x y temp : A) (i j k n m : Z).

(** Every element of the first [n] but those in [except] comes after its
    parent. *)
Definition ordered_but (except : Z -> Prop) n v : Prop :=
  forall k x y, 0 < k < n -> ~ except k -> get v (parent k) = Some x -> get v k = Some y -> before x y = true.

Definition ordered n v : Prop := ordered_but (fun _ => False) n v.

(** The children of [j] come after the parent of [j]. *)
Definition bridged n j v : Prop :=
  forall k x y, 0 < j -> 0 < k < n -> parent k = j -> get v (parent j) = Some x -> get v k = Some y ->
  before x y = true.

Lemma before_refl x : before x x = true.
Proof. destruct (before x x) eqn:E; [done |]. by rewrite (before_total _ _ E) in E. Qed.

(** Exchanging an element with a parent it should precede. *)
Lemma sift_up_step n v w j temp y :
  0 < j < n -> get v j = Some temp -> get v (parent j) = Some y -> before y temp = false ->
  swap v j (parent j) = Some w ->
  ordered_but (fun k => k = j) n v -> bridged n j v ->
  ordered_but (fun k => k = parent j) n w /\ bridged n (parent j) w.
Proof.
  intros Hj Ht Hy Hb Hs Ho Hbr. pose proof (before_total _ _ Hb) as Hty. pose proof (parent_range j ltac:(lia)).
  assert (Hg : forall k, get w k = if parent j =? k then Some temp else if j =? k then Some y else get v k)
    by (intros k; by eapply swap_get).
  split.
  - intros k a b Hk Hne Ha Hb'. rewrite Hg in Ha, Hb'. pose proof (parent_range k ltac:(lia)).
    destruct (Z.eqb_spec (parent j) k); [congruence |].
    destruct (Z.eqb_spec j k) as [<-|Hjk].
    + rewrite Z.eqb_refl in Ha. congruence.
    + destruct (Z.eqb_spec (parent j) (parent k)) as [Hp|Hp].
      * injection Ha as <-. apply (before_trans _ y); [done |]. apply (Ho k); [lia | congruence | by rewrite <- Hp | done].
      * destruct (Z.eqb_spec j (parent k)) as [Hp'|Hp'].
        -- injection Ha as <-. apply (Hbr k); try done; lia.
        -- apply (Ho k); try done; lia.
  - intros k a b Hi Hk Hp Ha Hb'. rewrite Hg in Ha, Hb'. pose proof (parent_range (parent j) Hi).
    destruct (Z.eqb_spec (parent j) (parent (parent j))); [lia |].
    destruct (Z.eqb_spec j (parent (parent j))); [lia |]. pose proof (parent_range k ltac:(lia)).
    destruct (Z.eqb_spec (parent j) k); [lia |].
    assert (Hay : before a y = true) by (apply (Ho (parent j)); try done; lia).
    destruct (Z.eqb_spec j k) as [<-|]; [congruence |].
    apply (before_trans _ y); [done |]. apply (Ho k); [lia | congruence | by rewrite Hp | done].
Qed.

Lemma siftUp_loop_spec n : forall fuel heap temp j,
  0 <= j < n -> n <= Z.of_nat (length heap) -> j <= Z.of_nat fuel ->
  ordered_but (fun k => k = j) n (<[Z.to_nat j := temp]> heap) ->
  bridged n j (<[Z.to_nat j := temp]> heap) ->
  exists heap', siftUp_loop before fuel heap temp j (parent j) = Some heap' /\ ordered n heap' /\
    within 0 (n - 1) (<[Z.to_nat j := temp]> heap) heap'.
Proof.
  induction fuel as [|fuel IH]; intros heap temp j Hj Hn Hf Ho Hb; cbn [siftUp_loop];
    (destruct (Z.ltb_spec 0 j) as [H0|H0]; [try lia |]);
    try (rewrite set_in by lia; eexists; split; [done |]; split; [| apply within_refl];
         intros k x y Hk _; apply Ho; [lia | intros ->; lia]).
  pose proof (parent_range j H0).
  destruct (get_is_Some heap (parent j)) as [y Hy]; [lia |]. rewrite Hy. cbn [mbind option_bind].
  assert (Hy' : get (<[Z.to_nat j := temp]> heap) (parent j) = Some y).
  { rewrite get_insert by lia. destruct (Z.eqb_spec j (parent j)); [lia | done]. }
  assert (Ht : get (<[Z.to_nat j := temp]> heap) j = Some temp) by (rewrite get_insert, Z.eqb_refl by lia; done).
  destruct (before y temp) eqn:E.
  - rewrite set_in by lia. eexists. split; [done |]. split; [| apply within_refl].
    intros k a b Hk _ Ha Hb'. destruct (Z.eq_dec k j) as [->|]; [| by apply (Ho k)].
    congruence.
  - rewrite set_in by lia. cbn [mbind option_bind].
    pose proof (fill_swap heap (parent j) j temp y ltac:(lia) ltac:(lia) Hy) as Hs.
    destruct (sift_up_step n _ _ j temp y ltac:(lia) Ht Hy' E Hs Ho Hb)
      as [Ho' Hb'].
    destruct (IH (<[Z.to_nat j := y]> heap) temp (parent j)) as (h & Hh & Hord & Hw);
      [lia | rewrite length_insert; lia | lia | done | done |].
    exists h. split; [done |]. split; [done |]. eapply within_trans; [| exact Hw].
    eapply within_swap; [| | exact Hs]; lia.
Qed.

(** The child taken is one of the two and precedes the other. *)
Lemma smaller_child_spec heap i m :
  0 <= i -> 2 * i + 1 <= m < Z.of_nat (length heap) ->
  exists c y, smaller_child after heap (2 * i + 1) m = Some c /\ get heap c = Some y /\
    i < c <= m /\ parent c = i /\
    forall k z, 0 < k <= m -> parent k = i -> k <> c -> get heap k = Some z -> before y z = true.
Proof.
  intros Hi Hm. unfold smaller_child.
  destruct (get_is_Some heap (2 * i + 1)) as [y Hy]; [lia |].
  destruct (Z.ltb_spec (2 * i + 1) m).
  - destruct (get_is_Some heap (2 * i + 1 + 1)) as [z Hz]; [lia |]. rewrite Hy, Hz. cbn [mbind option_bind].
    rewrite after_before. destruct (before y z) eqn:E; cbn [negb].
    + exists (2 * i + 1), y. split; [done |]. split; [done |]. split; [lia |]. split; [apply parent_children; lia |].
      intros k w Hk Hp Hne Hw. apply parent_children in Hp; [| lia].
      replace k with (2 * i + 1 + 1) in Hw by lia. congruence.
    + exists (2 * i + 1 + 1), z. split; [done |]. split; [done |]. split; [lia |]. split; [apply parent_children; lia |].
      intros k w Hk Hp Hne Hw. apply parent_children in Hp; [| lia].
      replace k with (2 * i + 1) in Hw by lia. apply before_total. congruence.
  - exists (2 * i + 1), y. split; [done |]. split; [done |]. split; [lia |]. split; [apply parent_children; lia |].
    intros k w Hk Hp Hne Hw. apply parent_children in Hp; lia.
Qed.

(** Exchanging an element with the child that should precede it. *)
Lemma sift_down_step from n v w i c temp y :
  from <= i -> 0 <= i -> i < c < n -> parent c = i -> get v i = Some temp -> get v c = Some y -> before temp y = false ->
  (forall k z, 0 < k < n -> parent k = i -> k <> c -> get v k = Some z -> before y z = true) ->
  swap v i c = Some w ->
  ordered_but (fun k => parent k < from \/ parent k = i) n v -> (from <= parent i -> bridged n i v) ->
  ordered_but (fun k => parent k < from \/ parent k = c) n w /\ bridged n c w.
Proof.
  intros Hfrom Hi Hc Hpc Ht Hy Hb Hsib Hs Ho Hbr. pose proof (before_total _ _ Hb) as Hyt.
  assert (Hg : forall k, get w k = if c =? k then Some temp else if i =? k then Some y else get v k)
    by (intros k; by eapply swap_get).
  split.
  - intros k a b Hk Hne Ha Hb'. rewrite Hg in Ha, Hb'. pose proof (parent_range k ltac:(lia)).
    destruct (Z.eqb_spec c (parent k)); [by destruct Hne; right |].
    destruct (Z.eqb_spec c k) as [<-|Hck].
    + rewrite Hpc, Z.eqb_refl in Ha. congruence.
    + destruct (Z.eqb_spec i (parent k)) as [Hp|Hp].
      * injection Ha as <-. destruct (Z.eqb_spec i k); [lia |]. apply (Hsib k); [lia.. | congruence | done].
      * destruct (Z.eqb_spec i k) as [<-|Hik].
        -- injection Hb' as <-. by apply (Hbr ltac:(lia) c); [lia.. | | |].
        -- by apply (Ho k); [lia | intros []; [by destruct Hne; left | congruence] | |].
  - intros k a b H0 Hk Hp Ha Hb'. rewrite Hg in Ha, Hb'. pose proof (parent_range k ltac:(lia)).
    rewrite Hpc, Z.eqb_refl in Ha. destruct (Z.eqb_spec c i); [lia |]. injection Ha as <-.
    destruct (Z.eqb_spec c k); [lia |]. destruct (Z.eqb_spec i k); [lia |].
    apply (Ho k); [lia | lia | by rewrite Hp | done].
Qed.

Lemma ordered_but_iff (E E' : Z -> Prop) n v :
  (forall k, 0 < k < n -> E k -> E' k) -> ordered_but E n v -> ordered_but E' n v.
Proof. intros H Ho k x y Hk Hne. apply Ho; [done |]. intros HE. by apply Hne, H. Qed.

Lemma siftDown_loop_spec m : forall fuel heap temp i,
  0 <= i < Z.of_nat (length heap) -> m < Z.of_nat (length heap) <= 2 ^ 30 -> m - i <= Z.of_nat fuel ->
  ordered_but (fun k => parent k = i) (m + 1) (<[Z.to_nat i := temp]> heap) ->
  bridged (m + 1) i (<[Z.to_nat i := temp]> heap) ->
  exists heap', siftDown_loop before after fuel heap temp i (i32 (2 * i + 1)) m = Some heap' /\
    ordered (m + 1) heap' /\ within 0 (Z.max i m) (<[Z.to_nat i := temp]> heap) heap'.
Proof.
  induction fuel as [|fuel IH]; intros heap temp i Hi Hm Hf Ho Hb; cbn [siftDown_loop];
    rewrite (i32_small (2 * i + 1)) by (unfold is_i32, INT32_MIN, INT32_MAX; lia);
    (destruct (Z.leb_spec (2 * i + 1) m) as [Hj|Hj]; [try lia |]);
    try (rewrite set_in by lia; eexists; split; [done |]; split; [| apply within_refl];
         intros k x y Hk _; apply Ho; [lia | rewrite parent_children by lia; lia]).
  destruct (smaller_child_spec heap i m) as (c & y & -> & Hy & Hc & Hp & Hsib); [lia.. |].
  cbn [mbind option_bind]. rewrite Hy. cbn [mbind option_bind].
  assert (Hget : forall k, k <> i -> get (<[Z.to_nat i := temp]> heap) k = get heap k).
  { intros k Hk. rewrite get_insert by lia. destruct (Z.eqb_spec i k); [lia | done]. }
  assert (Ht : get (<[Z.to_nat i := temp]> heap) i = Some temp) by (rewrite get_insert, Z.eqb_refl by lia; done).
  destruct (before temp y) eqn:E.
  - rewrite set_in by lia. eexists. split; [done |]. split; [| apply within_refl].
    intros k a b Hk _ Ha Hb'. destruct (Z.eq_dec (parent k) i) as [Hpk|]; [| by apply (Ho k)].
    rewrite Hpk, Ht in Ha. injection Ha as <-. pose proof (parent_range k ltac:(lia)).
    rewrite Hget in Hb' by lia. destruct (Z.eq_dec k c) as [->|]; [congruence |].
    apply (before_trans _ y); [done |]. by apply (Hsib k); [lia | | |].
  - rewrite set_in by lia. cbn [mbind option_bind].
    pose proof (fill_swap heap c i temp y ltac:(lia) ltac:(lia) Hy) as Hs.
    assert (Hsib' : forall k z, 0 < k < m + 1 -> parent k = i -> k <> c ->
                      get (<[Z.to_nat i := temp]> heap) k = Some z -> before y z = true).
    { intros k z Hk Hpk Hkc Hz. pose proof (parent_range k ltac:(lia)). rewrite Hget in Hz by lia.
      by apply (Hsib k); [lia | | |]. }
    assert (Hyc : get (<[Z.to_nat i := temp]> heap) c = Some y) by (rewrite Hget by lia; done).
    apply (ordered_but_iff _ (fun k => parent k < 0 \/ parent k = i)) in Ho; [| by right].
    destruct (sift_down_step 0 (m + 1) _ _ i c temp y ltac:(lia) ltac:(lia) ltac:(lia) Hp Ht Hyc E Hsib' Hs Ho (fun _ => Hb))
      as [Ho' Hb'].
    apply (ordered_but_iff _ (fun k => parent k = c)) in Ho'.
    2: { intros k Hk [|]; [pose proof (parent_range k); lia | done]. }
    destruct (IH (<[Z.to_nat i := y]> heap) temp c) as (h & Hh & Hord & Hw);
      [rewrite length_insert; lia.. | lia | done | done |].
    exists h. split; [done |]. split; [done |]. eapply within_trans; [eapply within_swap; [| | exact Hs]; lia |].
    eapply within_weaken; [| | exact Hw]; lia.
Qed.

(** The first element of an ordered heap precedes every other. *)
Lemma ordered_first n v x : ordered n v -> n <= Z.of_nat (length v) -> get v 0 = Some x ->
  forall k y, 0 < k < n -> get v k = Some y -> before x y = true.
Proof.
  intros Ho Hn Hx k. induction k as [k IH] using (well_founded_induction (Z.lt_wf 0)).
  intros y Hk Hy. pose proof (parent_range k ltac:(lia)).
  destruct (get_is_Some v (parent k)) as [z Hz]; [lia |].
  assert (Hzy : before z y = true) by (by apply (Ho k); [lia | tauto | |]).
  destruct (Z.eq_dec (parent k) 0) as [E|]; [rewrite E in Hz; congruence |].
  apply (before_trans _ z); [| done]. apply (IH (parent k)); [lia | lia | done].
Qed.

End order.

(** ** The operations *)

Section operations.
Context {A : Type} {before after : A -> A -> bool} {laws : HeapLaws before after}.
Implicit Types (q : QHeap A) (x y : A).

Record wf q : Prop := mkWf {
  wf_size : 0 <= size_ q <= max_size_ q;
  wf_array : Z.of_nat (length (heap_ q)) = max_size_ q /\ max_size_ q <= 2 ^ 30;
  wf_order : ordered (before := before) (size_ q) (heap_ q)
}.

(** The items of a heap, in the order of the array. *)
Definition items q : list A := take (Z.to_nat (size_ q)) (heap_ q).

Lemma heap_enqueue_spec x q : wf q -> size_ q < max_size_ q ->
  exists q', enqueue before x q = Some q' /\ wf q' /\ items q' ≡ₚ x :: items q /\
    size_ q' = size_ q + 1 /\ max_size_ q' = max_size_ q.
Proof.
  intros [Hs [Ha Hmax] Ho] Hlt. unfold enqueue, siftUp. rewrite set_in by lia. cbn [mbind option_bind].
  rewrite get_insert, Z.eqb_refl by lia. cbn [mbind option_bind].
  change (Z.quot (size_ q - 1) 2) with (parent (size_ q)).
  destruct (siftUp_loop_spec (after := after) (size_ q + 1) (Z.to_nat (size_ q)) (<[Z.to_nat (size_ q) := x]> (heap_ q)) x (size_ q))
    as (h & -> & Hh & Hw); [lia | rewrite length_insert; lia | lia | | |].
  - intros k a b Hk Hne Hga Hgb. rewrite list_insert_insert_eq in Hga, Hgb. pose proof (parent_range k ltac:(lia)).
    rewrite get_insert in Hga, Hgb by lia.
    destruct (Z.eqb_spec (size_ q) (parent k)), (Z.eqb_spec (size_ q) k); try lia.
    by apply (Ho k); [lia | tauto | |].
  - intros k a b H0 Hk Hp. pose proof (parent_range k ltac:(lia)). lia.
  - cbn [mbind option_bind]. eexists. split; [done |]. pose proof (within_length _ _ _ _ Hw) as Hl.
    rewrite !length_insert in Hl. split; [constructor; cbn; [lia | lia | done] |].
    split; [| done]. unfold items; cbn [heap_ size_]. rewrite (within_take (size_ q + 1) _ _ ltac:(lia) Hw).
    rewrite list_insert_insert_eq, Z2Nat.inj_add by lia. change (Z.to_nat 1) with 1%nat. rewrite Nat.add_1_r.
    rewrite (take_S_r _ _ x) by (apply list_lookup_insert_eq; lia).
    rewrite take_insert_ge by lia. by rewrite Permutation_app_comm.
Qed.

(** The array without its first item, the last one put in its place. *)
Lemma move_last (l : list A) n x y : (1 <= n <= length l)%nat -> l !! 0%nat = Some x -> l !! (n - 1)%nat = Some y ->
  take n l ≡ₚ x :: take (n - 1) (<[0%nat := y]> l).
Proof.
  intros Hn Hx Hy. destruct l as [|x' l]; [done |]. injection Hx as ->. cbn [insert list_insert].
  destruct n as [|[|n]]; [lia | done |]. cbn [Nat.sub take] in *. constructor.
  rewrite (take_S_r _ _ y) by done. by rewrite Permutation_app_comm.
Qed.

Lemma heap_dequeue_spec q : wf q -> 0 < size_ q ->
  exists x q', dequeue before after q = Some (x, q') /\ wf q' /\ items q ≡ₚ x :: items q' /\
    Forall (fun y => before x y = true) (items q') /\ size_ q' = size_ q - 1 /\ max_size_ q' = max_size_ q.
Proof.
  intros [Hs [Ha Hmax] Ho] Hlt. unfold dequeue, siftDown.
  destruct (get_is_Some (heap_ q) 0) as [x Hx]; [lia |].
  destruct (get_is_Some (heap_ q) (size_ q - 1)) as [y Hy]; [lia |]. rewrite Hx, Hy. cbn [mbind option_bind].
  rewrite set_in by lia. cbn [mbind option_bind]. rewrite get_insert, Z.eqb_refl by lia. cbn [mbind option_bind].
  destruct (siftDown_loop_spec (before := before) (after := after) (size_ q - 1 - 1) (Z.to_nat (size_ q - 1 - 1 + 1))
              (<[Z.to_nat 0 := y]> (heap_ q)) y 0)
    as (h & Hh & Hho & Hw); [rewrite length_insert; lia.. | lia | | |].
  - intros k a b Hk Hne Hga Hgb. rewrite list_insert_insert_eq in Hga, Hgb. pose proof (parent_range k ltac:(lia)).
    rewrite get_insert in Hga, Hgb by lia.
    destruct (Z.eqb_spec 0 (parent k)), (Z.eqb_spec 0 k); try lia.
    by apply (Ho k); [lia | tauto | |].
  - intros k a b H0. lia.
  - rewrite Hh. cbn [mbind option_bind]. exists x. eexists. split; [done |].
    rewrite list_insert_insert_eq in Hw. pose proof (within_length _ _ _ _ Hw) as Hl. rewrite length_insert in Hl.
    assert (Hperm : items q ≡ₚ x :: take (Z.to_nat (size_ q - 1)) h).
    { unfold items. rewrite (move_last _ _ x y).
      - constructor. destruct (Z.eq_dec (size_ q) 1) as [->|]; [done |].
        replace (Z.to_nat (size_ q) - 1)%nat with (Z.to_nat (size_ q - 1)) by lia.
        symmetry. apply within_take; [lia |]. eapply within_weaken; [| | exact Hw]; lia.
      - lia.
      - by apply get_Some in Hx as [_ Hx].
      - apply get_Some in Hy as [_ Hy]. by replace (Z.to_nat (size_ q) - 1)%nat with (Z.to_nat (size_ q - 1)) by lia. }
    split; [constructor; cbn [size_ max_size_ heap_]; [lia | lia | by replace (size_ q - 1) with (size_ q - 1 - 1 + 1) by lia] |].
    split; [done |]. split; [| done]. apply Forall_forall. intros z Hz.
    assert (Hin : z ∈ items q) by (rewrite Hperm; by right).
    apply list_elem_of_lookup in Hin as [k Hk]. unfold items in Hk. pose proof Hk as Hk'.
    apply lookup_lt_Some in Hk'. rewrite length_take in Hk'. rewrite lookup_take_lt in Hk by lia.
    destruct k as [|k]; [apply get_Some in Hx as [_ Hx]; change (Z.to_nat 0) with 0%nat in Hx; replace z with x by congruence; apply before_refl |].
    apply (ordered_first (size_ q) (heap_ q) x Ho ltac:(lia) Hx (Z.of_nat (S k))); [lia |].
    apply get_Some. rewrite Nat2Z.id. split; [lia | done].
Qed.

End operations.

(** ** Sequences of calls *)

Inductive op (A : Type) : Type := OPush (x : A) | OPop | OClear | OSize.
Arguments OPush {A}.
Arguments OPop {A}.
Arguments OClear {A}.
Arguments OSize {A}.

Section traces.
Context {A : Type}.
Variables before after : A -> A -> bool.
Implicit Types (q : QHeap A) (b : list A).

(** What a call returns: its result and the item it stores. *)
Definition call q (o : op A) : option (Z * option A * QHeap A) :=
  match o with
  | OPush x => '(ret, q) ← push_non_blocking before x q; Some (ret, None, q)
  | OPop => pop_non_blocking before after q
  | OClear => Some (0, None, clear q)
  | OSize => Some (size q, None, q)
  end.

Fixpoint calls q (os : list (op A)) : option (list (Z * option A) * QHeap A) :=
  match os with
  | [] => Some ([], q)
  | o :: os =>
      '(ret, item, q) ← call q o;
      '(rets, q) ← calls q os;
      Some ((ret, item) :: rets, q)
  end.

(** A bag of at most [cap] items from which a pop takes a least one. *)
Inductive bag_call (cap : Z) : list A -> op A -> Z * option A -> list A -> Prop :=
  | bag_push b x : Z.of_nat (length b) < cap -> bag_call cap b (OPush x) (0, None) (x :: b)
  | bag_push_full b x : Z.of_nat (length b) = cap -> bag_call cap b (OPush x) (-1, None) b
  | bag_pop b x b' : b ≡ₚ x :: b' -> Forall (fun y => before x y = true) b' ->
      bag_call cap b OPop (0, Some x) b'
  | bag_pop_empty : bag_call cap [] OPop (-1, None) []
  | bag_clear b : bag_call cap b OClear (0, None) []
  | bag_size b : bag_call cap b OSize (Z.of_nat (length b), None) b.

Inductive bag_calls (cap : Z) : list A -> list (op A) -> list (Z * option A) -> list A -> Prop :=
  | bag_done b : bag_calls cap b [] [] b
  | bag_step b o r b' os rs b'' :
      bag_call cap b o r b' -> bag_calls cap b' os rs b'' -> bag_calls cap b (o :: os) (r :: rs) b''.

End traces.

Section refinement.
Context {A : Type} {before after : A -> A -> bool} {laws : HeapLaws before after}.
Implicit Types (q : QHeap A) (b : list A).

Lemma length_items q : wf (before := before) q -> Z.of_nat (length (items q)) = size_ q.
Proof. intros [Hs Ha _]. unfold items. rewrite length_take. lia. Qed.

Lemma heap_call_refines q b o : wf (before := before) q -> b ≡ₚ items q ->
  exists ret item q' b', call before after q o = Some (ret, item, q') /\ wf (before := before) q' /\
    max_size_ q' = max_size_ q /\ bag_call before (max_size_ q) b o (ret, item) b' /\ b' ≡ₚ items q'.
Proof.
  intros Hw Hb. pose proof (length_items q Hw) as Hl. pose proof (wf_size q Hw) as Hs.
  assert (Hlb : Z.of_nat (length b) = size_ q) by (rewrite Hb; done).
  destruct o as [x| | |]; cbn [call].
  - unfold push_non_blocking. destruct (Z.eqb_spec (size_ q) (max_size_ q)).
    + exists (-1), None, q, b. cbn. repeat split; try apply Hw; try done. apply bag_push_full. lia.
    + destruct (heap_enqueue_spec (before := before) (after := after) x q Hw) as (q' & -> & Hw' & Hi & Hs' & Hm'); [lia |].
      exists 0, None, q', (x :: b). cbn. split; [done |]. split; [done |]. split; [done |].
      split; [apply bag_push; lia |]. by rewrite Hb.
  - unfold pop_non_blocking. destruct (Z.eqb_spec (size_ q) 0).
    + exists (-1), None, q, b. repeat split; try apply Hw; try done.
      destruct b; [apply bag_pop_empty | cbn in Hlb; lia].
    + destruct (heap_dequeue_spec (before := before) (after := after) q Hw) as (x & q' & -> & Hw' & Hi & Hx & Hs' & Hm'); [lia |].
      exists 0, (Some x), q', (items q'). cbn. split; [done |]. split; [done |]. split; [done |].
      split; [| done]. apply bag_pop; [by rewrite Hb | done].
  - exists 0, None, (clear q), []. split; [done |]. split; [| split; [done | split; [apply bag_clear | done]]].
    constructor; cbn; [lia | apply Hw | intros k ? ? ?; lia].
  - exists (size q), None, q, b. repeat split; try apply Hw; try done.
    rewrite <- Hlb. apply bag_size.
Qed.

Lemma heap_calls_refine os : forall q b, wf (before := before) q -> b ≡ₚ items q ->
  exists rets q' b', calls before after q os = Some (rets, q') /\
    bag_calls before (max_size_ q) b os rets b' /\ b' ≡ₚ items q' /\ wf (before := before) q' /\ max_size_ q' = max_size_ q.
Proof.
  induction os as [|o os IH]; intros q b Hw Hb; cbn [calls].
  - exists [], q, b. split; [done |]. split; [constructor |]. by split.
  - destruct (heap_call_refines q b o Hw Hb) as (ret & item & q1 & b1 & -> & Hw1 & Hm1 & Hc & Hb1).
    destruct (IH q1 b1 Hw1 Hb1) as (rets & q2 & b2 & Hr & Hbs & Hb2 & Hw2 & Hm2). cbn. rewrite Hr. cbn.
    exists ((ret, item) :: rets), q2, b2. split; [done |]. rewrite Hm1 in *. split; [by econstructor | by split].
Qed.

End refinement.

(** C28. A heap is a bounded bag: whatever sequence of non-blocking pushes and
    pops, clears and size queries is made on a fresh QMinHeap of at most 2^30
    elements (beyond that [2*j+1] is no [int32_t]), every array access is in
    bounds, and the results are those of a bag of at most [max_size_] items in
    which a push on a full bag fails, a pop on an empty one fails, and any other
    pop takes an item that is [<=] all that remain.  At the end the array holds
    the items of the bag in heap order: none precedes its parent, at half its
    index.  With [>=] and [<] in place of [<=] and [>] this is QMaxHeap. *)
Theorem heap_refines_bag {A : Type} (before after : A -> A -> bool) (laws : HeapLaws before after)
    (array : list A) (q : QHeap A) (os : list (op A))
    (Hsize : Z.of_nat (length array) <= 2 ^ 30)
    (Hq : construct (Z.of_nat (length array)) (Some array) = Ret q) :
  exists rets q' b,
    calls before after q os = Some (rets, q') /\
    bag_calls before (Z.of_nat (length array)) [] os rets b /\ b ≡ₚ items q' /\
    0 <= size_ q' <= Z.of_nat (length array) /\ length (heap_ q') = length array /\
    (forall k x y, 0 < k < size_ q' -> get (heap_ q') ((k - 1) / 2) = Some x -> get (heap_ q') k = Some y ->
       before x y = true).
Proof.
  injection Hq as <-.
  destruct (heap_calls_refine (laws := laws) os (mkQHeap array 0 (Z.of_nat (length array))) [])
    as (rets & q' & b & Hc & Hb & Hi & [Hs [Ha _] Ho] & Hm); [| done |].
  - constructor; cbn; [lia | done | intros k ? ? ?; lia].
  - cbn in Hm. exists rets, q', b. split; [done |]. split; [done |]. split; [done |]. split; [lia |]. split; [lia |].
    intros k x y Hk Hx Hy. rewrite <- parent_div in Hx by lia. by apply (Ho k); [lia | tauto | |].
Qed.

#[export] Instance min_heap_Z : HeapLaws Z.leb Z.gtb.
Proof. constructor; intros *; rewrite ?Z.leb_le, ?Z.leb_gt, ?Z.gtb_ltb, ?Z.ltb_antisym; try lia; done. Qed.

#[export] Instance max_heap_Z : HeapLaws Z.geb Z.ltb.
Proof.
  constructor; intros *; rewrite ?Z.geb_leb, ?Z.leb_le, ?Z.leb_gt, ?Z.ltb_antisym; try lia; done.
Qed.

Lemma heap_refines_bag_witness :
  exists rets q' b,
    calls Z.leb Z.gtb (mkQHeap [7; 7; 7] 0 3) [OPush 5; OPush 2; OPush 9; OPush 1; OPop; OPop; OSize] = Some (rets, q') /\
    bag_calls Z.leb 3 [] [OPush 5; OPush 2; OPush 9; OPush 1; OPop; OPop; OSize] rets b /\ b ≡ₚ items q' /\
    0 <= size_ q' <= 3 /\ length (heap_ q') = 3%nat /\
    (forall k x y, 0 < k < size_ q' -> get (heap_ q') ((k - 1) / 2) = Some x -> get (heap_ q') k = Some y ->
       (x <=? y) = true).
Proof.
  apply (heap_refines_bag Z.leb Z.gtb _ [7; 7; 7] (mkQHeap [7; 7; 7] 0 3)
           [OPush 5; OPush 2; OPush 9; OPush 1; OPop; OPop; OSize]); [discriminate | reflexivity].
Defined.

(** The results of that run. *)
Example min_heap_run :
  option_map fst (calls Z.leb Z.gtb (mkQHeap [7; 7; 7] 0 3)
    [OPush 5; OPush 2; OPush 9; OPush 1; OPop; OPop; OSize]) =
  Some [(0, None); (0, None); (0, None); (-1, None); (0, Some 2); (0, Some 5); (1, None)].
Proof. reflexivity. Qed.

End Heap.
