(* ===== verification/BitMap.v ===== *)
(** * Bit maps: src/include/common/qbitmap.h, qbitmap.cc

    [QBITS16] is a word of 16 bits, [QBitMap] an array of bytes with a count of
    the set bits, [QBitMap2] an array of 16-bit words.  [QBitMap] is proved to
    be a finite set of positions with its cardinality; of [QBitMap2] it is
    shown that a bit once set is never cleared. *)

From S2P Require Import Prelude Arrays.
Import Arrays.

(** ** QBITS16 *)
Module Bits16.

Definition QBITS16 : Type := Z.

Definition QBITS16_turn_on_bit (bit_num : Z) (val : QBITS16) : QBITS16 := u16 (Z.lor val (Z.shiftl 1 bit_num)).
Definition QBITS16_turn_off_bit (bit_num : Z) (val : QBITS16) : QBITS16 :=
  u16 (Z.land val (Z.lnot (Z.shiftl 1 bit_num))).
Definition QBITS16_set_bit (bit_num : Z) (value : bool) (val : QBITS16) : QBITS16 :=
  if value then u16 (Z.lor val (Z.shiftl 1 bit_num))
  else u16 (Z.land val (Z.lnot (Z.shiftl 1 bit_num))).
Definition QBITS16_bit (bit_num : Z) (val : QBITS16) : bool := negb (Z.land (Z.shiftr val bit_num) 1 =? 0).

(** Writing a bit of the word changes that bit only. *)
Lemma QBITS16_set_bit_spec n m v w : 0 <= n < 16 -> 0 <= m < 16 -> 0 <= w < 2 ^ 16 ->
  QBITS16_bit m (QBITS16_set_bit n v w) = if m =? n then v else QBITS16_bit m w.
Proof.
  intros Hn Hm Hw.
  assert (Hb : forall x, QBITS16_bit m x = Z.testbit x m).
  { intros x. unfold QBITS16_bit. change 1 with (Z.ones 1). rewrite Z.land_ones, Z.shiftr_div_pow2, Z.testbit_eqb by lia.
    change (2 ^ 1) with 2. pose proof (Z.mod_pos_bound (x / 2 ^ m) 2). destruct (Z.eqb_spec (x / 2 ^ m mod 2) 0), (Z.eqb_spec (x / 2 ^ m mod 2) 1); lia || done. }
  rewrite !Hb. unfold QBITS16_set_bit, u16. rewrite Z.shiftl_1_l.
  destruct v; rewrite Z.mod_pow2_bits_low by lia.
  - rewrite Z.lor_spec, Z.pow2_bits_eqb, (Z.eqb_sym n m) by lia. destruct (Z.eqb_spec m n); [apply orb_true_r | apply orb_false_r].
  - rewrite Z.land_spec, Z.lnot_spec, Z.pow2_bits_eqb, (Z.eqb_sym n m) by lia.
    destruct (Z.eqb_spec m n); [apply andb_false_r | apply andb_true_r].
Qed.

End Bits16.

(** ** QBitMap *)
Module BitMap.

Abbreviation SLOT_SIZE := (8)%Z (only parsing).
Abbreviation INVALID_INDEX := (0xFFFFFFFF)%Z (only parsing).
Abbreviation BITMAP_MASK := ([0x80; 0x40; 0x20; 0x10; 0x08; 0x04; 0x02; 0x01]) (only parsing).

(** [data_] is [None] for NULL. *)
Record QBitMap : Type := mkQBitMap {
  item_count_ : Z;
  slot_count_ : Z;
  set_count_ : Z;
  data_ : option bytes;
  mount_ : bool
}.

Definition slots (item_count : Z) : Z := Z.shiftr (u32 (item_count + SLOT_SIZE - 1)) 3.

Definition construct_empty (set_flag : bool) : QBitMap :=
  if set_flag then mkQBitMap INVALID_INDEX INVALID_INDEX 0 None false else mkQBitMap 0 0 0 None false.

(** [granted] tells whether [q_new_array] returned memory. *)
Definition construct (item_count : Z) (set_flag granted : bool) : outcome QBitMap :=
  ASSERT (negb (item_count =? 0)) THEN
  ASSERT granted THEN
  Ret (mkQBitMap item_count (slots item_count) (if set_flag then item_count else 0)
         (Some (replicate (Z.to_nat (slots item_count)) (if set_flag then xff else x00))) false).

Definition copy_construct (granted : bool) (rhs : QBitMap) : outcome QBitMap :=
  match data_ rhs with
  | None => Ret (mkQBitMap (item_count_ rhs) (slot_count_ rhs) (set_count_ rhs) None false)
  | Some d =>
      ASSERT granted THEN
      Ret (mkQBitMap (item_count_ rhs) (slot_count_ rhs) (set_count_ rhs)
             (Some (take (Z.to_nat (slot_count_ rhs)) d)) false)
  end.

Definition mount (item_count : Z) (bitmap_data : bytes) (mount_flag : bool) (q : QBitMap) : outcome QBitMap :=
  ASSERT (mount_ q || match data_ q with None => true | Some _ => false end) THEN
  Ret (mkQBitMap item_count (slots item_count) (set_count_ q) (Some bitmap_data) mount_flag).

Definition alloc (item_count : Z) (set_flag granted : bool) (q : QBitMap) : outcome (bool * QBitMap) :=
  if match data_ q with None => false | Some _ => true end || (item_count <=? 0) then Ret (false, q)
  else
    ASSERT granted THEN
    Ret (true, mkQBitMap item_count (slots item_count) (if set_flag then item_count else 0)
                 (Some (replicate (Z.to_nat (slots item_count)) (if set_flag then xff else x00))) (mount_ q)).

(** [data_[quot]] and [BITMAP_MASK[rem]]; [None] is an access outside them. *)
Definition slot (q : QBitMap) (pos : Z) : option (byte * Z) :=
  d ← data_ q;
  b ← get d (pos / SLOT_SIZE);
  m ← get BITMAP_MASK (pos mod SLOT_SIZE);
  Some (b, m).

Definition bit (q : QBitMap) (pos : Z) : outcome (option bool) :=
  ASSERT (pos <? item_count_ q) THEN
  Ret ('(b, m) ← slot q pos; Some (negb (Z.land (char_val b) m =? 0))).

(** [data_[quot]=b] with the new count. *)
Definition store (q : QBitMap) (pos : Z) (b : byte) (count : Z) : option QBitMap :=
  d ← data_ q;
  d ← set d (pos / SLOT_SIZE) b;
  Some (mkQBitMap (item_count_ q) (slot_count_ q) (u32 count) (Some d) (mount_ q)).

Definition turn_on_bit (q : QBitMap) (pos : Z) : outcome (option QBitMap) :=
  ASSERT (pos <? item_count_ q) THEN
  Ret ('(b, m) ← slot q pos;
       if Z.land (char_val b) m =? 0
       then store q pos (byte_of (Z.lor (char_val b) m)) (set_count_ q + 1)
       else Some q).

Definition turn_off_bit (q : QBitMap) (pos : Z) : outcome (option QBitMap) :=
  ASSERT (pos <? item_count_ q) THEN
  Ret ('(b, m) ← slot q pos;
       if Z.land (char_val b) m =? 0
       then Some q
       else store q pos (byte_of (Z.land (char_val b) (Z.lnot m))) (set_count_ q - 1)).

Definition clear (q : QBitMap) : option QBitMap :=
  d ← data_ q;
  Some (mkQBitMap (item_count_ q) (slot_count_ q) 0
          (Some (list_inserts 0 (replicate (Z.to_nat (slot_count_ q)) x00) d)) (mount_ q)).

(** The loop that counts the bits of [copy], [n] rounds from [pos]. *)
Fixpoint count_loop (q : QBitMap) (n : nat) (pos count : Z) : outcome (option Z) :=
  match n with
  | O => Ret (Some count)
  | S n =>
      match bit q pos with
      | Ret (Some b) => count_loop q n (pos + 1) (if b then u32 (count + 1) else count)
      | Ret None => Ret None
      | Abort => Abort
      end
  end.

Definition copy (slot_count : Z) (bitmap_data : bytes) (q : QBitMap) : outcome (option (bool * QBitMap)) :=
  match data_ q with
  | None => Ret (Some (false, q))
  | Some d =>
      if negb (slot_count_ q =? slot_count) then Ret (Some (false, q))
      else
        let q1 := mkQBitMap (item_count_ q) (slot_count_ q) 0
                    (Some (list_inserts 0 (take (Z.to_nat slot_count) bitmap_data) d)) (mount_ q) in
        match count_loop q1 (Z.to_nat (item_count_ q1)) 0 0 with
        | Ret (Some count) =>
            Ret (Some (true, mkQBitMap (item_count_ q1) (slot_count_ q1) count (data_ q1) (mount_ q1)))
        | Ret None => Ret None
        | Abort => Abort
        end
  end.

Abbreviation get_set_count := set_count_ (only parsing).
Abbreviation get_slot_count := slot_count_ (only parsing).
Abbreviation get_item_count := item_count_ (only parsing).

(** *** Bits of a byte *)

Lemma land_mask x k : 0 <= k -> (Z.land x (2 ^ k) =? 0) = negb (Z.testbit x k).
Proof.
  intros Hk. replace (Z.land x (2 ^ k)) with (if Z.testbit x k then 2 ^ k else 0).
  - destruct (Z.testbit x k); [| done]. apply Z.eqb_neq. lia.
  - apply Z.bits_inj'. intros i Hi. rewrite Z.land_spec, Z.pow2_bits_eqb by done.
    destruct (Z.eqb_spec k i) as [->|Hne].
    + destruct (Z.testbit x i); [by rewrite Z.pow2_bits_true | apply Z.bits_0].
    + rewrite andb_false_r. destruct (Z.testbit x k); [by apply Z.pow2_bits_false | apply Z.bits_0].
Qed.

Lemma char_val_mod b : char_val b mod 2 ^ 8 = byte_val b.
Proof.
  unfold char_val. pose proof (byte_val_range b). destruct (Z.ltb_spec (byte_val b) 128).
  - apply Z.mod_small. lia.
  - change (2 ^ 8) with 256. replace (byte_val b - 256) with (byte_val b + (-1) * 256) by lia.
    rewrite Z.mod_add by lia. apply Z.mod_small. lia.
Qed.

Lemma char_of_bits z k : 0 <= k < 8 -> Z.testbit (char_val (byte_of z)) k = Z.testbit z k.
Proof.
  intros Hk. rewrite <- (Z.mod_pow2_bits_low _ 8 k), char_val_mod, byte_val_of by lia.
  change 256 with (2 ^ 8). by rewrite Z.mod_pow2_bits_low by lia.
Qed.

Lemma mask_at r : 0 <= r < 8 -> get BITMAP_MASK r = Some (2 ^ (7 - r)).
Proof.
  by_table 8 r.
Qed.

(** *** The set of positions *)

(** The bit of a position in the array; positions past it count as unset. *)
Definition bit_at (d : bytes) (pos : Z) : bool :=
  match get d (pos / 8) with
  | Some b => Z.testbit (char_val b) (7 - pos mod 8)
  | None => false
  end.

Definition members (d : bytes) (items : Z) : gset Z :=
  list_to_set (filter (fun p => bit_at d p = true) (seqZ 0 items)).

Lemma elem_of_members d items p : p ∈ members d items <-> 0 <= p < items /\ bit_at d p = true.
Proof. unfold members. rewrite elem_of_list_to_set, list_elem_of_filter, elem_of_seqZ. intuition lia. Qed.

Record wf (q : QBitMap) (d : bytes) : Prop := mkWf {
  wf_data : data_ q = Some d;
  wf_slots : Z.of_nat (length d) = slot_count_ q;
  wf_items : 0 <= item_count_ q <= 8 * slot_count_ q;
  wf_u32 : item_count_ q < 2 ^ 32;
  wf_count : set_count_ q = Z.of_nat (size (members d (item_count_ q)))
}.

Lemma size_members_le d items : 0 <= items -> Z.of_nat (size (members d items)) <= items.
Proof.
  intros H. assert (members d items ⊆ list_to_set (seqZ 0 items)) as Hs%subseteq_size.
  { intros p. rewrite elem_of_members, elem_of_list_to_set, elem_of_seqZ. lia. }
  rewrite (size_list_to_set (seqZ 0 items)), length_seqZ in Hs by apply NoDup_seqZ. lia.
Qed.

(** Reading the slot of a position in range. *)
Lemma slot_at q d pos : wf q d -> 0 <= pos < item_count_ q ->
  exists b, get d (pos / 8) = Some b /\ slot q pos = Some (b, 2 ^ (7 - pos mod 8)) /\
    (Z.land (char_val b) (2 ^ (7 - pos mod 8)) =? 0) = negb (bit_at d pos).
Proof.
  intros [Hd Hs Hi _ _] Hp. unfold slot, bit_at.
  assert (0 <= pos / 8 < Z.of_nat (length d)) as Hr by (Z.to_euclidean_division_equations; lia).
  destruct (get_is_Some d _ Hr) as [b Hb]. pose proof (Z.mod_pos_bound pos 8 ltac:(lia)).
  exists b. rewrite Hd. cbn [mbind option_bind]. rewrite Hb. cbn [mbind option_bind].
  rewrite mask_at by lia. split; [done |]. split; [done |]. apply land_mask. lia.
Qed.

(** Writing a byte that differs in the bit of [pos] only. *)
Lemma bit_at_write d pos b (v : bool) z p :
  0 <= pos -> 0 <= p -> get d (pos / 8) = Some b ->
  (forall k, 0 <= k < 8 -> Z.testbit z k = if k =? 7 - pos mod 8 then v else Z.testbit (char_val b) k) ->
  bit_at (<[Z.to_nat (pos / 8) := byte_of z]> d) p = if p =? pos then v else bit_at d p.
Proof.
  intros H0 Hp Hb Hz. unfold bit_at. rewrite get_insert by (by eapply get_range).
  pose proof (Z.mod_pos_bound p 8 ltac:(lia)). pose proof (Z.mod_pos_bound pos 8 ltac:(lia)).
  destruct (Z.eqb_spec (pos / 8) (p / 8)) as [E|E].
  - rewrite char_of_bits, Hz by lia. rewrite <- E, Hb.
    destruct (Z.eqb_spec (7 - p mod 8) (7 - pos mod 8)), (Z.eqb_spec p pos);
      try done; exfalso; Z.to_euclidean_division_equations; lia.
  - destruct (Z.eqb_spec p pos) as [->|]; [done | done].
Qed.

Lemma write_on b r k : 0 <= r < 8 -> 0 <= k < 8 ->
  Z.testbit (Z.lor (char_val b) (2 ^ (7 - r))) k = if k =? 7 - r then true else Z.testbit (char_val b) k.
Proof.
  intros. rewrite Z.lor_spec, Z.pow2_bits_eqb by lia. rewrite (Z.eqb_sym (7 - r)).
  destruct (k =? 7 - r); [apply orb_true_r | apply orb_false_r].
Qed.

Lemma write_off b r k : 0 <= r < 8 -> 0 <= k < 8 ->
  Z.testbit (Z.land (char_val b) (Z.lnot (2 ^ (7 - r)))) k = if k =? 7 - r then false else Z.testbit (char_val b) k.
Proof.
  intros. rewrite Z.land_spec, Z.lnot_spec, Z.pow2_bits_eqb by lia. rewrite (Z.eqb_sym (7 - r)).
  destruct (k =? 7 - r); [apply andb_false_r | apply andb_true_r].
Qed.

(** *** The operations *)

Lemma bit_spec q d pos : wf q d -> 0 <= pos < item_count_ q -> bit q pos = Ret (Some (bit_at d pos)).
Proof.
  intros Hw Hp. unfold bit, q_assert. destruct (slot_at q d pos Hw Hp) as (b & _ & -> & E).
  destruct (Z.ltb_spec pos (item_count_ q)); [| lia]. cbn. by rewrite E, negb_involutive.
Qed.

(** The map after one bit is written. *)
Lemma store_spec q d pos (v : bool) b z count :
  wf q d -> 0 <= pos < item_count_ q -> get d (pos / 8) = Some b ->
  (forall k, 0 <= k < 8 -> Z.testbit z k = if k =? 7 - pos mod 8 then v else Z.testbit (char_val b) k) ->
  let s := if v then {[pos]} ∪ members d (item_count_ q) else members d (item_count_ q) ∖ {[pos]} in
  count = Z.of_nat (size s) ->
  exists q' d', store q pos (byte_of z) count = Some q' /\ wf q' d' /\
    members d' (item_count_ q') = s /\ item_count_ q' = item_count_ q /\ slot_count_ q' = slot_count_ q.
Proof.
  intros Hw Hp Hb Hz s Hc. pose proof Hw as [Hd Hs Hi Hu _]. pose proof (get_range _ _ _ Hb) as Hr.
  assert (Hm : members (<[Z.to_nat (pos / 8) := byte_of z]> d) (item_count_ q) = s).
  { apply set_eq. intros p. rewrite elem_of_members. subst s. split.
    - intros [Hp' E]. rewrite (bit_at_write d pos b v z p) in E by (done || lia).
      destruct (Z.eqb_spec p pos), v; try done; rewrite ?elem_of_union, ?elem_of_difference, ?elem_of_singleton, elem_of_members; auto.
    - destruct v; rewrite ?elem_of_union, ?elem_of_difference, ?elem_of_singleton, elem_of_members.
      + intros [->|[H1 H2]]; (split; [lia |]); rewrite (bit_at_write d pos b true z) by (done || lia); case_match; auto; lia.
      + intros [[H1 H2] H3]. split; [done |]. rewrite (bit_at_write d pos b false z) by (done || lia). case_match; auto; lia. }
  unfold store. rewrite Hd. cbn [mbind option_bind]. rewrite set_in by done. cbn [mbind option_bind].
  eexists _, _. split; [done |]. cbn [item_count_]. split; [| done].
  pose proof (size_members_le (<[Z.to_nat (pos / 8) := byte_of z]> d) (item_count_ q) ltac:(lia)) as Hle. rewrite Hm in Hle.
  constructor; cbn; [done | by rewrite length_insert | done | done |].
  rewrite Hm, Hc. apply u32_small. unfold is_u32. lia.
Qed.

Lemma turn_on_bit_spec q d pos : wf q d -> 0 <= pos < item_count_ q ->
  exists q' d', turn_on_bit q pos = Ret (Some q') /\ wf q' d' /\
    members d' (item_count_ q') = {[pos]} ∪ members d (item_count_ q) /\ item_count_ q' = item_count_ q /\ slot_count_ q' = slot_count_ q.
Proof.
  intros Hw Hp. pose proof (Z.mod_pos_bound pos 8 ltac:(lia)). unfold turn_on_bit, q_assert.
  destruct (slot_at q d pos Hw Hp) as (b & Hb & -> & E). destruct (Z.ltb_spec pos (item_count_ q)); [| lia].
  cbn [mbind option_bind]. rewrite E. destruct (bit_at d pos) eqn:Ebit; cbn [negb].
  - exists q, d. repeat split; try apply Hw. rewrite subseteq_union_1_L; [done |].
    apply singleton_subseteq_l, elem_of_members. done.
  - destruct (store_spec q d pos true b (Z.lor (char_val b) (2 ^ (7 - pos mod 8))) (set_count_ q + 1) Hw Hp Hb)
      as (q' & d' & -> & Hw' & Hm & Hi); [intros; by apply write_on | | eauto 10].
    rewrite (wf_count q d Hw), size_union, size_singleton; [lia |].
    intros p ->%elem_of_singleton [_ ?]%elem_of_members. congruence.
Qed.

Lemma turn_off_bit_spec q d pos : wf q d -> 0 <= pos < item_count_ q ->
  exists q' d', turn_off_bit q pos = Ret (Some q') /\ wf q' d' /\
    members d' (item_count_ q') = members d (item_count_ q) ∖ {[pos]} /\ item_count_ q' = item_count_ q /\ slot_count_ q' = slot_count_ q.
Proof.
  intros Hw Hp. pose proof (Z.mod_pos_bound pos 8 ltac:(lia)). unfold turn_off_bit, q_assert.
  destruct (slot_at q d pos Hw Hp) as (b & Hb & -> & E). destruct (Z.ltb_spec pos (item_count_ q)); [| lia].
  cbn [mbind option_bind]. rewrite E. destruct (bit_at d pos) eqn:Ebit; cbn [negb].
  - assert (Hin : pos ∈ members d (item_count_ q)) by (by apply elem_of_members).
    destruct (store_spec q d pos false b (Z.land (char_val b) (Z.lnot (2 ^ (7 - pos mod 8)))) (set_count_ q - 1) Hw Hp Hb)
      as (q' & d' & -> & Hw' & Hm & Hi); [intros; by apply write_off | | eauto 10].
    rewrite (wf_count q d Hw), size_difference, size_singleton by (by apply singleton_subseteq_l).
    assert (1 <= size (members d (item_count_ q)))%nat; [| lia].
    rewrite <- (size_singleton (C := gset Z) pos). by apply subseteq_size, singleton_subseteq_l.
  - exists q, d. repeat split; try apply Hw. rewrite difference_disjoint_L; [done |].
    intros p [_ Hp']%elem_of_members ->%elem_of_singleton. congruence.
Qed.

(** A map whose bytes have just been written. *)
Lemma wf_fresh items slot_count d (m : bool) :
  Z.of_nat (length d) = slot_count -> 0 <= items <= 8 * slot_count -> items < 2 ^ 32 ->
  wf (mkQBitMap items slot_count (Z.of_nat (size (members d items))) (Some d) m) d.
Proof. intros. by constructor. Qed.

Lemma members_zero n items : members (replicate n x00) items = ∅.
Proof.
  apply set_eq. intros p. rewrite elem_of_members. split; [| set_solver]. intros [_ H]. exfalso. revert H.
  unfold bit_at. destruct (get (replicate n x00) (p / 8)) as [b|] eqn:E; [| done].
  apply get_Some in E as [_ E]. apply lookup_replicate in E as [-> _]. by rewrite Z.bits_0.
Qed.

Lemma members_ones n items : 0 <= items <= 8 * Z.of_nat n -> members (replicate n xff) items = list_to_set (seqZ 0 items).
Proof.
  intros H. apply set_eq. intros p. rewrite elem_of_members, elem_of_list_to_set, elem_of_seqZ.
  split; [intuition lia |]. intros Hp. split; [lia |]. unfold bit_at.
  destruct (get_is_Some (replicate n xff) (p / 8)) as [b Hb].
  { rewrite length_replicate. Z.to_euclidean_division_equations; lia. }
  rewrite Hb. apply get_Some in Hb as [_ Hb]. apply lookup_replicate in Hb as [-> _].
  apply Z.bits_m1. pose proof (Z.mod_pos_bound p 8). lia.
Qed.

Lemma slots_small items : 0 < items <= 2 ^ 32 - 8 -> slots items = (items + 7) / 8.
Proof.
  intros H. unfold slots. rewrite u32_small by (unfold is_u32; lia).
  rewrite Z.shiftr_div_pow2 by lia. f_equal; lia.
Qed.

Lemma construct_spec items set_flag q : 0 < items <= 2 ^ 32 - 8 -> construct items set_flag true = Ret q ->
  exists d, wf q d /\ item_count_ q = items /\
    members d items = if set_flag then list_to_set (seqZ 0 items) else ∅.
Proof.
  intros Hi. pose proof (slots_small items Hi) as Hs.
  assert (Hr : 0 <= slots items /\ items <= 8 * slots items) by (rewrite Hs; Z.to_euclidean_division_equations; lia).
  unfold construct, q_assert. destruct (Z.eqb_spec items 0); [lia |]. cbn [negb]. intros [= <-].
  eexists. split; [| split; [done |]].
  - constructor; cbn; [done | rewrite length_replicate; lia | lia | lia |].
    destruct set_flag; [rewrite members_ones, size_list_to_set, length_seqZ by (apply NoDup_seqZ || lia); lia | by rewrite members_zero, size_empty].
  - destruct set_flag; [apply members_ones; lia | apply members_zero].
Qed.

Lemma bitmap_clear_spec q d : wf q d ->
  exists q' d', clear q = Some q' /\ wf q' d' /\ members d' (item_count_ q') = ∅ /\ item_count_ q' = item_count_ q /\ slot_count_ q' = slot_count_ q.
Proof.
  intros [Hd Hs Hi Hu _]. unfold clear. rewrite Hd. cbn [mbind option_bind].
  rewrite inserts_all by (rewrite ?length_replicate; lia). eexists _, _. split; [done |]. cbn [item_count_].
  split; [| split; [apply members_zero | done]].
  constructor; cbn; [done | rewrite length_replicate; lia | lia | lia |]. by rewrite members_zero, size_empty.
Qed.

Lemma members_succ d p : 0 <= p ->
  Z.of_nat (size (members d (p + 1))) = Z.of_nat (size (members d p)) + (if bit_at d p then 1 else 0).
Proof.
  intros Hp. destruct (bit_at d p) eqn:E.
  - replace (members d (p + 1)) with ({[p]} ∪ members d p).
    + rewrite size_union, size_singleton; [lia |]. intros x ->%elem_of_singleton [? _]%elem_of_members. lia.
    + apply set_eq. intros x. rewrite elem_of_union, elem_of_singleton, !elem_of_members.
      split; [intros [->|[? ?]]; (split; [lia | done]) |]. intros [? ?]. destruct (Z.eq_dec x p); [by left | right; split; [lia | done]].
  - rewrite Z.add_0_r. do 2 f_equal. apply set_eq. intros x. rewrite !elem_of_members.
    split; intros [? ?]; (split; [| done]); [| lia]. destruct (Z.eq_dec x p); [congruence | lia].
Qed.

Lemma count_loop_spec q d (items : Z) :
  items < 2 ^ 32 -> (forall p, 0 <= p < items -> bit q p = Ret (Some (bit_at d p))) ->
  forall n pos, 0 <= pos -> pos + Z.of_nat n = items ->
  count_loop q n pos (Z.of_nat (size (members d pos))) = Ret (Some (Z.of_nat (size (members d items)))).
Proof.
  intros Hu Hbit. induction n as [|n IH]; intros pos H0 Hn; cbn [count_loop].
  - by replace items with pos by lia.
  - rewrite Hbit by lia. rewrite <- IH with (pos := pos + 1) by lia. f_equal. rewrite members_succ by done.
    destruct (bit_at d pos); [| lia]. apply u32_small. unfold is_u32.
    pose proof (size_members_le d pos H0). lia.
Qed.

Lemma copy_spec q d data : wf q d -> Z.of_nat (length data) = slot_count_ q ->
  exists q', copy (slot_count_ q) data q = Ret (Some (true, q')) /\ wf q' data /\ item_count_ q' = item_count_ q /\ slot_count_ q' = slot_count_ q.
Proof.
  intros [Hd Hs Hi Hu _] Hl. unfold copy. rewrite Hd, Z.eqb_refl. cbn [negb].
  rewrite take_ge by lia. rewrite inserts_all by lia. cbn [item_count_ slot_count_ data_ mount_].
  pose proof (wf_fresh (item_count_ q) (slot_count_ q) data (mount_ q) Hl Hi Hu) as Hw.
  assert (Hbit : forall p, 0 <= p < item_count_ q ->
            bit (mkQBitMap (item_count_ q) (slot_count_ q) 0 (Some data) (mount_ q)) p = Ret (Some (bit_at data p)))
    by (intros p Hp; exact (bit_spec _ data p Hw Hp)).
  pose proof (count_loop_spec _ data (item_count_ q) Hu Hbit (Z.to_nat (item_count_ q)) 0 ltac:(lia) ltac:(lia)) as Hc.
  change (Z.of_nat (size (members data 0))) with 0 in Hc. rewrite Hc. eauto.
Qed.

(** *** Sequences of calls *)

Inductive op : Type := On (pos : Z) | Off (pos : Z) | Test (pos : Z) | Count | Clear | Copy (data : bytes).

Definition call (q : QBitMap) (o : op) : outcome (option (Z * QBitMap)) :=
  match o with
  | On pos => r ← turn_on_bit q pos; Ret (q ← r; Some (0, q))
  | Off pos => r ← turn_off_bit q pos; Ret (q ← r; Some (0, q))
  | Test pos => r ← bit q pos; Ret (b ← r; Some (Z.b2z b, q))
  | Count => Ret (Some (get_set_count q, q))
  | Clear => Ret (q ← clear q; Some (0, q))
  | Copy data => r ← copy (Z.of_nat (length data)) data q; Ret ('(b, q) ← r; Some (Z.b2z b, q))
  end.

Fixpoint calls (q : QBitMap) (os : list op) : outcome (option (list Z * QBitMap)) :=
  match os with
  | [] => Ret (Some ([], q))
  | o :: os =>
      match call q o with
      | Ret (Some (r, q)) =>
          match calls q os with
          | Ret (Some (rs, q)) => Ret (Some (r :: rs, q))
          | Ret None => Ret None
          | Abort => Abort
          end
      | Ret None => Ret None
      | Abort => Abort
      end
  end.

(** The same calls on a set of positions below [items]. *)
Definition set_call (items slot_count : Z) (s : gset Z) (o : op) : outcome (Z * gset Z) :=
  match o with
  | On pos => ASSERT (pos <? items) THEN Ret (0, {[pos]} ∪ s)
  | Off pos => ASSERT (pos <? items) THEN Ret (0, s ∖ {[pos]})
  | Test pos => ASSERT (pos <? items) THEN Ret (Z.b2z (bool_decide (pos ∈ s)), s)
  | Count => Ret (Z.of_nat (size s), s)
  | Clear => Ret (0, ∅)
  | Copy data => if Z.of_nat (length data) =? slot_count then Ret (1, members data items) else Ret (0, s)
  end.

Fixpoint set_calls (items slot_count : Z) (s : gset Z) (os : list op) : outcome (list Z * gset Z) :=
  match os with
  | [] => Ret ([], s)
  | o :: os =>
      match set_call items slot_count s o with
      | Ret (r, s) =>
          match set_calls items slot_count s os with
          | Ret (rs, s) => Ret (r :: rs, s)
          | Abort => Abort
          end
      | Abort => Abort
      end
  end.

(** The positions are [uint32_t]. *)
Definition pos_ok (o : op) : bool :=
  match o with
  | On pos | Off pos | Test pos => 0 <=? pos
  | _ => true
  end.

Lemma bitmap_call_refines q d o : wf q d -> pos_ok o = true ->
  match set_call (item_count_ q) (slot_count_ q) (members d (item_count_ q)) o with
  | Abort => call q o = Abort
  | Ret (r, s) => exists q' d', call q o = Ret (Some (r, q')) /\ wf q' d' /\
      members d' (item_count_ q') = s /\ item_count_ q' = item_count_ q /\ slot_count_ q' = slot_count_ q
  end.
Proof.
  intros Hw Hok. destruct o as [pos|pos|pos| | |data]; cbn [set_call pos_ok call] in *.
  - destruct (Z.ltb_spec pos (item_count_ q)) as [H|H]; cbn [q_assert].
    + destruct (turn_on_bit_spec q d pos Hw ltac:(lia)) as (q' & d' & -> & ?). cbn. eauto.
    + unfold turn_on_bit, q_assert. by rewrite (proj2 (Z.ltb_ge _ _) H).
  - destruct (Z.ltb_spec pos (item_count_ q)) as [H|H]; cbn [q_assert].
    + destruct (turn_off_bit_spec q d pos Hw ltac:(lia)) as (q' & d' & -> & ?). cbn. eauto.
    + unfold turn_off_bit, q_assert. by rewrite (proj2 (Z.ltb_ge _ _) H).
  - destruct (Z.ltb_spec pos (item_count_ q)) as [H|H]; cbn [q_assert].
    + rewrite (bit_spec q d pos Hw) by lia. cbn. exists q, d. split; [| done]. do 4 f_equal.
      destruct (bit_at d pos) eqn:E; [rewrite bool_decide_true | rewrite bool_decide_false]; try done;
        rewrite elem_of_members; [auto with lia | intros []; congruence].
    + unfold bit, q_assert. by rewrite (proj2 (Z.ltb_ge _ _) H).
  - exists q, d. by rewrite (wf_count q d Hw).
  - destruct (bitmap_clear_spec q d Hw) as (q' & d' & -> & ?). cbn. eauto.
  - destruct (Z.eqb_spec (Z.of_nat (length data)) (slot_count_ q)) as [E|E].
    + destruct (copy_spec q d data Hw E) as (q' & Hc & Hw' & Hi). rewrite E, Hc. cbn. destruct Hi as [Hi ?]. rewrite <- Hi. eauto 10.
    + unfold copy. rewrite (wf_data q d Hw). destruct (Z.eqb_spec (slot_count_ q) (Z.of_nat (length data))); [lia |]. cbn. exists q, d. done.
Qed.

Lemma bitmap_calls_refine os : forall q d, wf q d -> forallb pos_ok os = true ->
  match set_calls (item_count_ q) (slot_count_ q) (members d (item_count_ q)) os with
  | Abort => calls q os = Abort
  | Ret (rs, s) => exists q' d', calls q os = Ret (Some (rs, q')) /\ wf q' d' /\ members d' (item_count_ q') = s
  end.
Proof.
  induction os as [|o os IH]; intros q d Hw Hok; cbn [set_calls calls]; [eauto |].
  cbn in Hok. apply andb_true_iff in Hok as [Ho Hos]. pose proof (bitmap_call_refines q d o Hw Ho) as H.
  destruct (set_call _ _ _ o) as [[r s]|]; [| by rewrite H].
  destruct H as (q1 & d1 & -> & Hw1 & Hm & Hi & Hs). specialize (IH q1 d1 Hw1 Hos). rewrite Hm, Hi, Hs in IH.
  destruct (set_calls _ _ s os) as [[rs s']|]; [| by rewrite IH].
  destruct IH as (q2 & d2 & -> & ? & ?). eauto.
Qed.

(** C33. A QBitMap is a set of positions: whatever sequence of calls is made on
    a new map of [items] positions, all clear or all set, the results of the
    tests and of [get_set_count], and the end of the process by a position
    out of range, are those of the same calls on a finite set, and no access
    is outside the array.  In particular the count kept beside the bits is
    always the number of set positions. *)
Theorem bitmap_refines_set (items : Z) (set_flag : bool) (q : QBitMap) (os : list op)
    (Hi : 0 < items <= 2 ^ 32 - 8) (Hq : construct items set_flag true = Ret q)
    (Hos : forallb pos_ok os = true) :
  match set_calls items (slots items) (if set_flag then list_to_set (seqZ 0 items) else ∅) os with
  | Abort => calls q os = Abort
  | Ret (rs, s) => exists q', calls q os = Ret (Some (rs, q')) /\ get_set_count q' = Z.of_nat (size s)
  end.
Proof.
  destruct (construct_spec items set_flag q Hi Hq) as (d & Hw & Hit & Hm).
  pose proof (bitmap_calls_refine os q d Hw Hos) as H. rewrite Hit, Hm in H.
  replace (slot_count_ q) with (slots items) in H.
  - destruct (set_calls _ _ _ os) as [[rs s]|]; [| done]. destruct H as (q' & d' & Hc & Hw' & <-).
    exists q'. split; [done | apply (wf_count q' d' Hw')].
  - revert Hq. unfold construct, q_assert. destruct (negb (items =? 0)); [| done]. by intros [= <-].
Qed.

Lemma bitmap_refines_set_witness :
  match set_calls 12 (slots 12) ∅ [On 3; On 11; On 3; Test 11; Off 3; Test 3; Count] with
  | Abort => calls (mkQBitMap 12 2 0 (Some [x00; x00]) false) [On 3; On 11; On 3; Test 11; Off 3; Test 3; Count] = Abort
  | Ret (rs, s) => exists q',
      calls (mkQBitMap 12 2 0 (Some [x00; x00]) false) [On 3; On 11; On 3; Test 11; Off 3; Test 3; Count] = Ret (Some (rs, q')) /\
      get_set_count q' = Z.of_nat (size s)
  end.
Proof.
  apply (bitmap_refines_set 12 false (mkQBitMap 12 2 0 (Some [x00; x00]) false)
           [On 3; On 11; On 3; Test 11; Off 3; Test 3; Count]); [lia | reflexivity | reflexivity].
Defined.

End BitMap.

(** ** QBitMap2 *)
Module BitMap2.

Record QBitMap2 : Type := mkQBitMap2 {
  set_size_ : Z;
  vec_size_ : Z;
  pBitVector : list Z
}.

Definition QBitMap2_construct (size : Z) (granted : bool) : outcome QBitMap2 :=
  ASSERT (0 <? size) THEN
  let vec_size := Z.shiftr (u32 (size + 15)) 4 in
  ASSERT granted THEN
  Ret (mkQBitMap2 size vec_size (replicate (Z.to_nat vec_size) 0)).

Definition QBitMap2_clear (q : QBitMap2) : QBitMap2 :=
  mkQBitMap2 (set_size_ q) (vec_size_ q) (list_inserts 0 (replicate (Z.to_nat (vec_size_ q)) 0) (pBitVector q)).

Definition QBitMap2_bit (q : QBitMap2) (x : Z) : option bool :=
  elem ← get (pBitVector q) (x / 16);
  Some (negb (Z.rem (Z.shiftr elem (15 - x mod 16)) 2 =? 0)).

(** The word with one bit written; [temp%2==-1] is never true of an unsigned
    [temp]. *)
Definition set_word (elem id v : Z) : Z :=
  let temp := u16 (Z.shiftr elem (15 - id)) in
  let elem := u16 (Z.shiftl elem (id + 1)) in
  let temp := if (Z.rem temp 2 =? 0) && (v =? 1) then u16 (temp + 1)
              else if (Z.rem temp 2 =? -1) && (v =? 0) then u16 (temp - 1)
              else temp in
  u16 (Z.lor (Z.shiftl temp (15 - id)) (Z.shiftr elem (id + 1))).

Definition QBitMap2_set_bit (x v : Z) (q : QBitMap2) : option QBitMap2 :=
  elem ← get (pBitVector q) (x / 16);
  w ← set (pBitVector q) (x / 16) (set_word elem (x mod 16) v);
  Some (mkQBitMap2 (set_size_ q) (vec_size_ q) w).

Definition QBitMap2_turn_on_bit (x : Z) (q : QBitMap2) : outcome (option (bool * QBitMap2)) :=
  ASSERT ((0 <=? x) && (x <? set_size_ q)) THEN
  Ret (match QBitMap2_bit q x with
       | None => None
       | Some true => Some (false, q)
       | Some false => q ← QBitMap2_set_bit x 1 q; Some (true, q)
       end).

Definition QBitMap2_turn_off_bit (x : Z) (q : QBitMap2) : outcome (option (bool * QBitMap2)) :=
  ASSERT ((0 <=? x) && (x <? set_size_ q)) THEN
  Ret (match QBitMap2_bit q x with
       | None => None
       | Some true => q ← QBitMap2_set_bit x 0 q; Some (true, q)
       | Some false => Some (false, q)
       end).

(** *** What writing a bit does *)

Record QBitMap2_wf (q : QBitMap2) : Prop := mkWf {
  wf_words : Forall (fun w => 0 <= w < 2 ^ 16) (pBitVector q);
  wf_size : Z.of_nat (length (pBitVector q)) = vec_size_ q;
  wf_room : set_size_ q <= 16 * vec_size_ q
}.

(** A word is its upper [id+1] bits and the rest. *)
Lemma word_parts elem id : 0 <= elem < 2 ^ 16 -> 0 <= id < 16 ->
  u16 (Z.shiftr elem (15 - id)) = elem / 2 ^ (15 - id) /\
  Z.shiftr (u16 (Z.shiftl elem (id + 1))) (id + 1) = elem mod 2 ^ (15 - id).
Proof.
  intros He Hid. assert (0 < 2 ^ (15 - id)) by (apply Z.pow_pos_nonneg; lia). split.
  - rewrite Z.shiftr_div_pow2 by lia. apply u16_small. unfold is_u16.
    split; [apply Z.div_pos; lia | apply Z.div_lt_upper_bound; nia].
  - unfold u16. rewrite Z.shiftl_mul_pow2, Z.shiftr_div_pow2 by lia.
    replace (2 ^ 16) with (2 ^ (15 - id) * 2 ^ (id + 1)) by (rewrite <- Z.pow_add_r by lia; f_equal; lia).
    rewrite Z.mul_mod_distr_r by (apply Z.pow_nonzero; lia). apply Z.div_mul, Z.pow_nonzero; lia.
Qed.

(** A 0 is never written; a 1 sets a bit that was clear. *)
Lemma set_word_spec elem id : 0 <= elem < 2 ^ 16 -> 0 <= id < 16 ->
  set_word elem id 0 = elem /\
  (Z.testbit elem (15 - id) = false -> set_word elem id 1 = Z.lor elem (2 ^ (15 - id))).
Proof.
  intros He Hid. destruct (word_parts elem id He Hid) as [H1 H2]. unfold set_word. rewrite H1, H2.
  assert (Hpos : 0 < 2 ^ (15 - id)) by (apply Z.pow_pos_nonneg; lia).
  pose proof (Z.mod_pos_bound elem (2 ^ (15 - id)) Hpos) as Hmod. pose proof (Z.div_mod elem (2 ^ (15 - id))) as Hdm.
  assert (Hq : 0 <= elem / 2 ^ (15 - id)) by (apply Z.div_pos; lia).
  rewrite Z.rem_mod_nonneg by lia. rewrite !Z.shiftl_mul_pow2 by lia. split.
  - cbn [Z.eqb]. rewrite !andb_false_r. destruct (Z.eqb_spec (elem / 2 ^ (15 - id) mod 2) (-1)).
    { pose proof (Z.mod_pos_bound (elem / 2 ^ (15 - id)) 2). lia. }
    cbn [andb]. rewrite lor_add by lia. rewrite u16_small; [nia |]. unfold is_u16. nia.
  - intros Hb. assert (Hland : Z.land elem (2 ^ (15 - id)) = 0)
      by (apply Z.eqb_eq; rewrite BitMap.land_mask, Hb by lia; done).
    rewrite Z.testbit_eqb in Hb by lia. apply Z.eqb_neq in Hb.
    pose proof (Z.mod_pos_bound (elem / 2 ^ (15 - id)) 2 ltac:(lia)).
    destruct (Z.eqb_spec (elem / 2 ^ (15 - id) mod 2) 0) as [Heven|]; [| lia]. cbn [andb Z.eqb Pos.eqb].
    assert (Hp : 2 ^ 16 = 2 ^ id * 2 * 2 ^ (15 - id))
      by (replace 16 with (id + (1 + (15 - id))) by lia; rewrite !Z.pow_add_r by lia; lia).
    assert (0 < 2 ^ id) by (apply Z.pow_pos_nonneg; lia).
    assert (Hlt : elem / 2 ^ (15 - id) + 1 < 2 ^ id * 2).
    { assert (elem / 2 ^ (15 - id) < 2 ^ id * 2) by (apply Z.div_lt_upper_bound; lia).
      pose proof (Z.div_mod (elem / 2 ^ (15 - id)) 2). lia. }
    rewrite (u16_small (_ + 1)) by (unfold is_u16; nia).
    rewrite lor_add by lia. rewrite <- (Z.lxor_lor elem), <- Z.add_nocarry_lxor by exact Hland.
    rewrite u16_small; [nia |]. unfold is_u16. nia.
Qed.

(** The word and the bit of a position. *)
Lemma bit_word q x : QBitMap2_wf q -> 0 <= x < set_size_ q ->
  exists w, get (pBitVector q) (x / 16) = Some w /\ 0 <= w < 2 ^ 16 /\ QBitMap2_bit q x = Some (Z.testbit w (15 - x mod 16)).
Proof.
  intros [Hw Hs Hr] Hx. assert (0 <= x / 16 < Z.of_nat (length (pBitVector q))) as Hin by (Z.to_euclidean_division_equations; lia).
  destruct (get_is_Some _ _ Hin) as [w E]. exists w. split; [done |].
  apply get_Some in E as E'. destruct E' as [_ E']. pose proof (Forall_lookup_1 _ _ _ _ Hw E') as Hrange. cbv beta in Hrange. split; [done |].
  unfold QBitMap2_bit. rewrite E. cbn. pose proof (Z.mod_pos_bound x 16 ltac:(lia)).
  rewrite Z.rem_mod_nonneg by (try apply Z.shiftr_nonneg; lia). rewrite <- Z.bit0_mod, Z.shiftr_spec, Z.add_0_l by lia.
  by destruct (Z.testbit w (15 - x mod 16)).
Qed.

(** On a QBitMap2, [turn_on_bit] sets exactly the bit it is given and tells
    whether it was clear, but [turn_off_bit] changes nothing: for a bit that is
    set it returns true, and the bit is still set afterwards. *)
Theorem bitmap2_never_clears (q : QBitMap2) (x : Z) (Hq : QBitMap2_wf q) (Hx : 0 <= x < set_size_ q) :
  exists b q', QBitMap2_bit q x = Some b /\
    QBitMap2_turn_off_bit x q = Ret (Some (b, q)) /\
    QBitMap2_turn_on_bit x q = Ret (Some (negb b, q')) /\ QBitMap2_wf q' /\ set_size_ q' = set_size_ q /\
    forall y, 0 <= y < set_size_ q -> QBitMap2_bit q' y = if y =? x then Some true else QBitMap2_bit q y.
Proof.
  destruct (bit_word q x Hq Hx) as (w & Hw & Hr & Hb). pose proof (Z.mod_pos_bound x 16 ltac:(lia)).
  destruct (set_word_spec w (x mod 16) Hr ltac:(lia)) as [S0 S1]. pose proof (get_range _ _ _ Hw).
  unfold QBitMap2_turn_off_bit, QBitMap2_turn_on_bit, q_assert, QBitMap2_set_bit. rewrite Hb, Hw. cbn [mbind option_bind].
  destruct (Z.leb_spec 0 x), (Z.ltb_spec x (set_size_ q)); try lia. cbn [andb].
  rewrite !set_in by done. cbn [mbind option_bind]. rewrite S0.
  rewrite list_insert_id by (by apply get_Some in Hw as [_ ?]).
  destruct (Z.testbit w (15 - x mod 16)) eqn:E.
  - exists true, q. destruct q. do 3 (split; [done |]). split; [done |]. split; [done |].
    intros y Hy. destruct (Z.eqb_spec y x) as [->|]; done.
  - rewrite S1 by done. destruct q as [sz vs v]. cbn in *. exists false. eexists. do 3 (split; [reflexivity |]).
    assert (Hor : 0 <= Z.lor w (2 ^ (15 - x mod 16)) < 2 ^ 16).
    { split; [apply Z.lor_nonneg; lia |]. destruct (Z.eq_dec (Z.lor w (2 ^ (15 - x mod 16))) 0) as [->|]; [lia |].
      apply Z.log2_lt_pow2; [pose proof (Z.lor_nonneg w (2 ^ (15 - x mod 16))); lia |].
      rewrite Z.log2_lor, Z.log2_pow2 by lia. destruct (Z.eq_dec w 0) as [->|]; [cbn; lia |].
      pose proof (proj1 (Z.log2_lt_pow2 w 16 ltac:(lia)) ltac:(lia)). lia. }
    assert (Hwf : QBitMap2_wf (mkQBitMap2 sz vs (<[Z.to_nat (x / 16) := Z.lor w (2 ^ (15 - x mod 16))]> v))).
    { destruct Hq as [Q1 Q2 Q3]. constructor; cbn in *; [by apply Forall_insert | by rewrite length_insert | done]. }
    split; [done |]. split; [done |]. intros y Hy.
    destruct (bit_word _ y Hwf Hy) as (w' & Hw' & _ & ->). cbn in Hw'. rewrite get_insert in Hw' by done.
    destruct (bit_word (mkQBitMap2 sz vs v) y Hq Hy) as (w0 & Hw0 & _ & ->). cbn in Hw0.
    pose proof (Z.mod_pos_bound y 16 ltac:(lia)).
    destruct (Z.eqb_spec (x / 16) (y / 16)) as [Hd|Hd].
    + injection Hw' as <-. replace w0 with w by congruence. rewrite Z.lor_spec, Z.pow2_bits_eqb by lia.
      destruct (Z.eqb_spec (15 - x mod 16) (15 - y mod 16)), (Z.eqb_spec y x) as [->|];
        try (exfalso; Z.to_euclidean_division_equations; lia); by rewrite ?orb_true_r, ?orb_false_r.
    + destruct (Z.eqb_spec y x) as [->|]; [done |]. congruence.
Qed.

Lemma bitmap2_never_clears_witness :
  exists b q', QBitMap2_bit (mkQBitMap2 20 2 [0; 4096]) 19 = Some b /\
    QBitMap2_turn_off_bit 19 (mkQBitMap2 20 2 [0; 4096]) = Ret (Some (b, mkQBitMap2 20 2 [0; 4096])) /\
    QBitMap2_turn_on_bit 19 (mkQBitMap2 20 2 [0; 4096]) = Ret (Some (negb b, q')) /\ QBitMap2_wf q' /\
    set_size_ q' = 20 /\
    forall y, 0 <= y < 20 -> QBitMap2_bit q' y = if y =? 19 then Some true else QBitMap2_bit (mkQBitMap2 20 2 [0; 4096]) y.
Proof.
  apply (bitmap2_never_clears (mkQBitMap2 20 2 [0; 4096]) 19).
  - constructor; [repeat constructor; lia | reflexivity | cbn; lia].
  - cbn. lia.
Defined.

End BitMap2.
