(* ===== verification/Crc.v ===== *)
(** * Checksums: src/include/common/qcrc.h

    The three table-driven checksums against division by their polynomial bit
    by bit. *)

From S2P Require Import Prelude Arrays.
Import Arrays.

Module Crc.

(** ** The tables *)

Definition crc16tab : list Z :=
  [0x0000; 0x1021; 0x2042; 0x3063; 0x4084; 0x50a5; 0x60c6; 0x70e7;
   0x8108; 0x9129; 0xa14a; 0xb16b; 0xc18c; 0xd1ad; 0xe1ce; 0xf1ef;
   0x1231; 0x0210; 0x3273; 0x2252; 0x52b5; 0x4294; 0x72f7; 0x62d6;
   0x9339; 0x8318; 0xb37b; 0xa35a; 0xd3bd; 0xc39c; 0xf3ff; 0xe3de;
   0x2462; 0x3443; 0x0420; 0x1401; 0x64e6; 0x74c7; 0x44a4; 0x5485;
   0xa56a; 0xb54b; 0x8528; 0x9509; 0xe5ee; 0xf5cf; 0xc5ac; 0xd58d;
   0x3653; 0x2672; 0x1611; 0x0630; 0x76d7; 0x66f6; 0x5695; 0x46b4;
   0xb75b; 0xa77a; 0x9719; 0x8738; 0xf7df; 0xe7fe; 0xd79d; 0xc7bc;
   0x48c4; 0x58e5; 0x6886; 0x78a7; 0x0840; 0x1861; 0x2802; 0x3823;
   0xc9cc; 0xd9ed; 0xe98e; 0xf9af; 0x8948; 0x9969; 0xa90a; 0xb92b;
   0x5af5; 0x4ad4; 0x7ab7; 0x6a96; 0x1a71; 0x0a50; 0x3a33; 0x2a12;
   0xdbfd; 0xcbdc; 0xfbbf; 0xeb9e; 0x9b79; 0x8b58; 0xbb3b; 0xab1a;
   0x6ca6; 0x7c87; 0x4ce4; 0x5cc5; 0x2c22; 0x3c03; 0x0c60; 0x1c41;
   0xedae; 0xfd8f; 0xcdec; 0xddcd; 0xad2a; 0xbd0b; 0x8d68; 0x9d49;
   0x7e97; 0x6eb6; 0x5ed5; 0x4ef4; 0x3e13; 0x2e32; 0x1e51; 0x0e70;
   0xff9f; 0xefbe; 0xdfdd; 0xcffc; 0xbf1b; 0xaf3a; 0x9f59; 0x8f78;
   0x9188; 0x81a9; 0xb1ca; 0xa1eb; 0xd10c; 0xc12d; 0xf14e; 0xe16f;
   0x1080; 0x00a1; 0x30c2; 0x20e3; 0x5004; 0x4025; 0x7046; 0x6067;
   0x83b9; 0x9398; 0xa3fb; 0xb3da; 0xc33d; 0xd31c; 0xe37f; 0xf35e;
   0x02b1; 0x1290; 0x22f3; 0x32d2; 0x4235; 0x5214; 0x6277; 0x7256;
   0xb5ea; 0xa5cb; 0x95a8; 0x8589; 0xf56e; 0xe54f; 0xd52c; 0xc50d;
   0x34e2; 0x24c3; 0x14a0; 0x0481; 0x7466; 0x6447; 0x5424; 0x4405;
   0xa7db; 0xb7fa; 0x8799; 0x97b8; 0xe75f; 0xf77e; 0xc71d; 0xd73c;
   0x26d3; 0x36f2; 0x0691; 0x16b0; 0x6657; 0x7676; 0x4615; 0x5634;
   0xd94c; 0xc96d; 0xf90e; 0xe92f; 0x99c8; 0x89e9; 0xb98a; 0xa9ab;
   0x5844; 0x4865; 0x7806; 0x6827; 0x18c0; 0x08e1; 0x3882; 0x28a3;
   0xcb7d; 0xdb5c; 0xeb3f; 0xfb1e; 0x8bf9; 0x9bd8; 0xabbb; 0xbb9a;
   0x4a75; 0x5a54; 0x6a37; 0x7a16; 0x0af1; 0x1ad0; 0x2ab3; 0x3a92;
   0xfd2e; 0xed0f; 0xdd6c; 0xcd4d; 0xbdaa; 0xad8b; 0x9de8; 0x8dc9;
   0x7c26; 0x6c07; 0x5c64; 0x4c45; 0x3ca2; 0x2c83; 0x1ce0; 0x0cc1;
   0xef1f; 0xff3e; 0xcf5d; 0xdf7c; 0xaf9b; 0xbfba; 0x8fd9; 0x9ff8;
   0x6e17; 0x7e36; 0x4e55; 0x5e74; 0x2e93; 0x3eb2; 0x0ed1; 0x1ef0].

Definition crc32_tab : list Z :=
  [0x00000000; 0x77073096; 0xee0e612c; 0x990951ba; 0x076dc419; 0x706af48f; 0xe963a535; 0x9e6495a3;
   0x0edb8832; 0x79dcb8a4; 0xe0d5e91e; 0x97d2d988; 0x09b64c2b; 0x7eb17cbd; 0xe7b82d07; 0x90bf1d91;
   0x1db71064; 0x6ab020f2; 0xf3b97148; 0x84be41de; 0x1adad47d; 0x6ddde4eb; 0xf4d4b551; 0x83d385c7;
   0x136c9856; 0x646ba8c0; 0xfd62f97a; 0x8a65c9ec; 0x14015c4f; 0x63066cd9; 0xfa0f3d63; 0x8d080df5;
   0x3b6e20c8; 0x4c69105e; 0xd56041e4; 0xa2677172; 0x3c03e4d1; 0x4b04d447; 0xd20d85fd; 0xa50ab56b;
   0x35b5a8fa; 0x42b2986c; 0xdbbbc9d6; 0xacbcf940; 0x32d86ce3; 0x45df5c75; 0xdcd60dcf; 0xabd13d59;
   0x26d930ac; 0x51de003a; 0xc8d75180; 0xbfd06116; 0x21b4f4b5; 0x56b3c423; 0xcfba9599; 0xb8bda50f;
   0x2802b89e; 0x5f058808; 0xc60cd9b2; 0xb10be924; 0x2f6f7c87; 0x58684c11; 0xc1611dab; 0xb6662d3d;
   0x76dc4190; 0x01db7106; 0x98d220bc; 0xefd5102a; 0x71b18589; 0x06b6b51f; 0x9fbfe4a5; 0xe8b8d433;
   0x7807c9a2; 0x0f00f934; 0x9609a88e; 0xe10e9818; 0x7f6a0dbb; 0x086d3d2d; 0x91646c97; 0xe6635c01;
   0x6b6b51f4; 0x1c6c6162; 0x856530d8; 0xf262004e; 0x6c0695ed; 0x1b01a57b; 0x8208f4c1; 0xf50fc457;
   0x65b0d9c6; 0x12b7e950; 0x8bbeb8ea; 0xfcb9887c; 0x62dd1ddf; 0x15da2d49; 0x8cd37cf3; 0xfbd44c65;
   0x4db26158; 0x3ab551ce; 0xa3bc0074; 0xd4bb30e2; 0x4adfa541; 0x3dd895d7; 0xa4d1c46d; 0xd3d6f4fb;
   0x4369e96a; 0x346ed9fc; 0xad678846; 0xda60b8d0; 0x44042d73; 0x33031de5; 0xaa0a4c5f; 0xdd0d7cc9;
   0x5005713c; 0x270241aa; 0xbe0b1010; 0xc90c2086; 0x5768b525; 0x206f85b3; 0xb966d409; 0xce61e49f;
   0x5edef90e; 0x29d9c998; 0xb0d09822; 0xc7d7a8b4; 0x59b33d17; 0x2eb40d81; 0xb7bd5c3b; 0xc0ba6cad;
   0xedb88320; 0x9abfb3b6; 0x03b6e20c; 0x74b1d29a; 0xead54739; 0x9dd277af; 0x04db2615; 0x73dc1683;
   0xe3630b12; 0x94643b84; 0x0d6d6a3e; 0x7a6a5aa8; 0xe40ecf0b; 0x9309ff9d; 0x0a00ae27; 0x7d079eb1;
   0xf00f9344; 0x8708a3d2; 0x1e01f268; 0x6906c2fe; 0xf762575d; 0x806567cb; 0x196c3671; 0x6e6b06e7;
   0xfed41b76; 0x89d32be0; 0x10da7a5a; 0x67dd4acc; 0xf9b9df6f; 0x8ebeeff9; 0x17b7be43; 0x60b08ed5;
   0xd6d6a3e8; 0xa1d1937e; 0x38d8c2c4; 0x4fdff252; 0xd1bb67f1; 0xa6bc5767; 0x3fb506dd; 0x48b2364b;
   0xd80d2bda; 0xaf0a1b4c; 0x36034af6; 0x41047a60; 0xdf60efc3; 0xa867df55; 0x316e8eef; 0x4669be79;
   0xcb61b38c; 0xbc66831a; 0x256fd2a0; 0x5268e236; 0xcc0c7795; 0xbb0b4703; 0x220216b9; 0x5505262f;
   0xc5ba3bbe; 0xb2bd0b28; 0x2bb45a92; 0x5cb36a04; 0xc2d7ffa7; 0xb5d0cf31; 0x2cd99e8b; 0x5bdeae1d;
   0x9b64c2b0; 0xec63f226; 0x756aa39c; 0x026d930a; 0x9c0906a9; 0xeb0e363f; 0x72076785; 0x05005713;
   0x95bf4a82; 0xe2b87a14; 0x7bb12bae; 0x0cb61b38; 0x92d28e9b; 0xe5d5be0d; 0x7cdcefb7; 0x0bdbdf21;
   0x86d3d2d4; 0xf1d4e242; 0x68ddb3f8; 0x1fda836e; 0x81be16cd; 0xf6b9265b; 0x6fb077e1; 0x18b74777;
   0x88085ae6; 0xff0f6a70; 0x66063bca; 0x11010b5c; 0x8f659eff; 0xf862ae69; 0x616bffd3; 0x166ccf45;
   0xa00ae278; 0xd70dd2ee; 0x4e048354; 0x3903b3c2; 0xa7672661; 0xd06016f7; 0x4969474d; 0x3e6e77db;
   0xaed16a4a; 0xd9d65adc; 0x40df0b66; 0x37d83bf0; 0xa9bcae53; 0xdebb9ec5; 0x47b2cf7f; 0x30b5ffe9;
   0xbdbdf21c; 0xcabac28a; 0x53b39330; 0x24b4a3a6; 0xbad03605; 0xcdd70693; 0x54de5729; 0x23d967bf;
   0xb3667a2e; 0xc4614ab8; 0x5d681b02; 0x2a6f2b94; 0xb40bbe37; 0xc30c8ea1; 0x5a05df1b; 0x2d02ef8d].

Definition crc64_tab : list Z :=
  [0x0000000000000000; 0x7ad870c830358979; 0xf5b0e190606b12f2; 0x8f689158505e9b8b;
   0xc038e5739841b68f; 0xbae095bba8743ff6; 0x358804e3f82aa47d; 0x4f50742bc81f2d04;
   0xab28ecb46814fe75; 0xd1f09c7c5821770c; 0x5e980d24087fec87; 0x24407dec384a65fe;
   0x6b1009c7f05548fa; 0x11c8790fc060c183; 0x9ea0e857903e5a08; 0xe478989fa00bd371;
   0x7d08ff3b88be6f81; 0x07d08ff3b88be6f8; 0x88b81eabe8d57d73; 0xf2606e63d8e0f40a;
   0xbd301a4810ffd90e; 0xc7e86a8020ca5077; 0x4880fbd87094cbfc; 0x32588b1040a14285;
   0xd620138fe0aa91f4; 0xacf86347d09f188d; 0x2390f21f80c18306; 0x594882d7b0f40a7f;
   0x1618f6fc78eb277b; 0x6cc0863448deae02; 0xe3a8176c18803589; 0x997067a428b5bcf0;
   0xfa11fe77117cdf02; 0x80c98ebf2149567b; 0x0fa11fe77117cdf0; 0x75796f2f41224489;
   0x3a291b04893d698d; 0x40f16bccb908e0f4; 0xcf99fa94e9567b7f; 0xb5418a5cd963f206;
   0x513912c379682177; 0x2be1620b495da80e; 0xa489f35319033385; 0xde51839b2936bafc;
   0x9101f7b0e12997f8; 0xebd98778d11c1e81; 0x64b116208142850a; 0x1e6966e8b1770c73;
   0x8719014c99c2b083; 0xfdc17184a9f739fa; 0x72a9e0dcf9a9a271; 0x08719014c99c2b08;
   0x4721e43f0183060c; 0x3df994f731b68f75; 0xb29105af61e814fe; 0xc849756751dd9d87;
   0x2c31edf8f1d64ef6; 0x56e99d30c1e3c78f; 0xd9810c6891bd5c04; 0xa3597ca0a188d57d;
   0xec09088b6997f879; 0x96d1784359a27100; 0x19b9e91b09fcea8b; 0x636199d339c963f2;
   0xdf7adabd7a6e2d6f; 0xa5a2aa754a5ba416; 0x2aca3b2d1a053f9d; 0x50124be52a30b6e4;
   0x1f423fcee22f9be0; 0x659a4f06d21a1299; 0xeaf2de5e82448912; 0x902aae96b271006b;
   0x74523609127ad31a; 0x0e8a46c1224f5a63; 0x81e2d7997211c1e8; 0xfb3aa75142244891;
   0xb46ad37a8a3b6595; 0xceb2a3b2ba0eecec; 0x41da32eaea507767; 0x3b024222da65fe1e;
   0xa2722586f2d042ee; 0xd8aa554ec2e5cb97; 0x57c2c41692bb501c; 0x2d1ab4dea28ed965;
   0x624ac0f56a91f461; 0x1892b03d5aa47d18; 0x97fa21650afae693; 0xed2251ad3acf6fea;
   0x095ac9329ac4bc9b; 0x7382b9faaaf135e2; 0xfcea28a2faafae69; 0x8632586aca9a2710;
   0xc9622c4102850a14; 0xb3ba5c8932b0836d; 0x3cd2cdd162ee18e6; 0x460abd1952db919f;
   0x256b24ca6b12f26d; 0x5fb354025b277b14; 0xd0dbc55a0b79e09f; 0xaa03b5923b4c69e6;
   0xe553c1b9f35344e2; 0x9f8bb171c366cd9b; 0x10e3202993385610; 0x6a3b50e1a30ddf69;
   0x8e43c87e03060c18; 0xf49bb8b633338561; 0x7bf329ee636d1eea; 0x012b592653589793;
   0x4e7b2d0d9b47ba97; 0x34a35dc5ab7233ee; 0xbbcbcc9dfb2ca865; 0xc113bc55cb19211c;
   0x5863dbf1e3ac9dec; 0x22bbab39d3991495; 0xadd33a6183c78f1e; 0xd70b4aa9b3f20667;
   0x985b3e827bed2b63; 0xe2834e4a4bd8a21a; 0x6debdf121b863991; 0x1733afda2bb3b0e8;
   0xf34b37458bb86399; 0x8993478dbb8deae0; 0x06fbd6d5ebd3716b; 0x7c23a61ddbe6f812;
   0x3373d23613f9d516; 0x49aba2fe23cc5c6f; 0xc6c333a67392c7e4; 0xbc1b436e43a74e9d;
   0x95ac9329ac4bc9b5; 0xef74e3e19c7e40cc; 0x601c72b9cc20db47; 0x1ac40271fc15523e;
   0x5594765a340a7f3a; 0x2f4c0692043ff643; 0xa02497ca54616dc8; 0xdafce7026454e4b1;
   0x3e847f9dc45f37c0; 0x445c0f55f46abeb9; 0xcb349e0da4342532; 0xb1eceec59401ac4b;
   0xfebc9aee5c1e814f; 0x8464ea266c2b0836; 0x0b0c7b7e3c7593bd; 0x71d40bb60c401ac4;
   0xe8a46c1224f5a634; 0x927c1cda14c02f4d; 0x1d148d82449eb4c6; 0x67ccfd4a74ab3dbf;
   0x289c8961bcb410bb; 0x5244f9a98c8199c2; 0xdd2c68f1dcdf0249; 0xa7f41839ecea8b30;
   0x438c80a64ce15841; 0x3954f06e7cd4d138; 0xb63c61362c8a4ab3; 0xcce411fe1cbfc3ca;
   0x83b465d5d4a0eece; 0xf96c151de49567b7; 0x76048445b4cbfc3c; 0x0cdcf48d84fe7545;
   0x6fbd6d5ebd3716b7; 0x15651d968d029fce; 0x9a0d8ccedd5c0445; 0xe0d5fc06ed698d3c;
   0xaf85882d2576a038; 0xd55df8e515432941; 0x5a3569bd451db2ca; 0x20ed197575283bb3;
   0xc49581ead523e8c2; 0xbe4df122e51661bb; 0x3125607ab548fa30; 0x4bfd10b2857d7349;
   0x04ad64994d625e4d; 0x7e7514517d57d734; 0xf11d85092d094cbf; 0x8bc5f5c11d3cc5c6;
   0x12b5926535897936; 0x686de2ad05bcf04f; 0xe70573f555e26bc4; 0x9ddd033d65d7e2bd;
   0xd28d7716adc8cfb9; 0xa85507de9dfd46c0; 0x273d9686cda3dd4b; 0x5de5e64efd965432;
   0xb99d7ed15d9d8743; 0xc3450e196da80e3a; 0x4c2d9f413df695b1; 0x36f5ef890dc31cc8;
   0x79a59ba2c5dc31cc; 0x037deb6af5e9b8b5; 0x8c157a32a5b7233e; 0xf6cd0afa9582aa47;
   0x4ad64994d625e4da; 0x300e395ce6106da3; 0xbf66a804b64ef628; 0xc5bed8cc867b7f51;
   0x8aeeace74e645255; 0xf036dc2f7e51db2c; 0x7f5e4d772e0f40a7; 0x05863dbf1e3ac9de;
   0xe1fea520be311aaf; 0x9b26d5e88e0493d6; 0x144e44b0de5a085d; 0x6e963478ee6f8124;
   0x21c640532670ac20; 0x5b1e309b16452559; 0xd476a1c3461bbed2; 0xaeaed10b762e37ab;
   0x37deb6af5e9b8b5b; 0x4d06c6676eae0222; 0xc26e573f3ef099a9; 0xb8b627f70ec510d0;
   0xf7e653dcc6da3dd4; 0x8d3e2314f6efb4ad; 0x0256b24ca6b12f26; 0x788ec2849684a65f;
   0x9cf65a1b368f752e; 0xe62e2ad306bafc57; 0x6946bb8b56e467dc; 0x139ecb4366d1eea5;
   0x5ccebf68aecec3a1; 0x2616cfa09efb4ad8; 0xa97e5ef8cea5d153; 0xd3a62e30fe90582a;
   0xb0c7b7e3c7593bd8; 0xca1fc72bf76cb2a1; 0x45775673a732292a; 0x3faf26bb9707a053;
   0x70ff52905f188d57; 0x0a2722586f2d042e; 0x854fb3003f739fa5; 0xff97c3c80f4616dc;
   0x1bef5b57af4dc5ad; 0x61372b9f9f784cd4; 0xee5fbac7cf26d75f; 0x9487ca0fff135e26;
   0xdbd7be24370c7322; 0xa10fceec0739fa5b; 0x2e675fb4576761d0; 0x54bf2f7c6752e8a9;
   0xcdcf48d84fe75459; 0xb71738107fd2dd20; 0x387fa9482f8c46ab; 0x42a7d9801fb9cfd2;
   0x0df7adabd7a6e2d6; 0x772fdd63e7936baf; 0xf8474c3bb7cdf024; 0x829f3cf387f8795d;
   0x66e7a46c27f3aa2c; 0x1c3fd4a417c62355; 0x935745fc4798b8de; 0xe98f353477ad31a7;
   0xa6df411fbfb21ca3; 0xdc0731d78f8795da; 0x536fa08fdfd90e51; 0x29b7d047efec8728].

(** ** The functions

    An index is below 256 by its mask or its type, so a table read always
    finds an entry. *)

Definition entry (tab : list Z) (i : Z) : Z := default 0 (get tab i).

(** One round of the loop: [crc=(crc<<8)^crc16tab[((crc>>8)^*buf++)&0x00FF]]. *)
Definition crc16_round (crc : Z) (b : byte) : Z :=
  u16 (Z.lxor (Z.shiftl crc 8) (entry crc16tab (Z.land (Z.lxor (Z.shiftr crc 8) (char_val b)) 0xFF))).

Definition crc16 (buf : bytes) : Z := foldl crc16_round 0 buf.

(** [crc=crc32_tab[(crc^*p++)&0xFF]^(crc>>8)] *)
Definition crc32_round (crc : Z) (b : byte) : Z :=
  Z.lxor (entry crc32_tab (Z.land (Z.lxor crc (byte_val b)) 0xFF)) (Z.shiftr crc 8).

Abbreviation ones32 := (0xFFFFFFFF)%Z (only parsing).

Definition crc32 (crc : Z) (buf : bytes) : Z := Z.lxor (foldl crc32_round (Z.lxor crc ones32) buf) ones32.

(** [crc=crc64_tab[(uint8_t)crc^byte]^(crc>>8)] *)
Definition crc64_round (crc : Z) (b : byte) : Z :=
  Z.lxor (entry crc64_tab (Z.lxor (u8 crc) (byte_val b))) (Z.shiftr crc 8).

Definition crc64 (crc : Z) (s : bytes) : Z := foldl crc64_round crc s.

(** ** Division by the polynomial *)

Definition POLY16 : Z := 0x1021.
Definition POLY32 : Z := 0xEDB88320.
Definition POLY64 : Z := 0x95AC9329AC4BC9B5.

(** One bit of the division, least significant bit first and most significant
    bit first. *)
Definition shift_low (poly x : Z) : Z := Z.lxor (Z.shiftr x 1) (if Z.testbit x 0 then poly else 0).
Definition shift_high (poly x : Z) : Z := Z.lxor (u16 (Z.shiftl x 1)) (if Z.testbit x 15 then poly else 0).

(** The remainder after a message, from the register [crc]. *)
Definition divide_low (poly crc : Z) (msg : bytes) : Z :=
  foldl (fun crc b => Nat.iter 8 (shift_low poly) (Z.lxor crc (byte_val b))) crc msg.
Definition divide_high (poly crc : Z) (msg : bytes) : Z :=
  foldl (fun crc b => Nat.iter 8 (shift_high poly) (Z.lxor crc (Z.shiftl (byte_val b) 8))) crc msg.

(** ** Linearity *)

Lemma lxor_shuffle a b c d : Z.lxor (Z.lxor a b) (Z.lxor c d) = Z.lxor (Z.lxor a c) (Z.lxor b d).
Proof. rewrite !Z.lxor_assoc. f_equal. rewrite <- !Z.lxor_assoc. by rewrite (Z.lxor_comm b c). Qed.

Lemma cond_lxor (a b : bool) p :
  (if xorb a b then p else 0) = Z.lxor (if a then p else 0) (if b then p else 0).
Proof. destruct a, b; cbn [xorb]; by rewrite ?Z.lxor_nilpotent, ?Z.lxor_0_l, ?Z.lxor_0_r. Qed.

Lemma u16_lxor a b : u16 (Z.lxor a b) = Z.lxor (u16 a) (u16 b).
Proof.
  unfold u16. apply Z.bits_inj'. intros i Hi. rewrite Z.lxor_spec.
  destruct (Z.lt_ge_cases i 16).
  - by rewrite !Z.mod_pow2_bits_low, Z.lxor_spec by lia.
  - by rewrite !Z.mod_pow2_bits_high by lia.
Qed.

Lemma shift_low_lxor poly a b : shift_low poly (Z.lxor a b) = Z.lxor (shift_low poly a) (shift_low poly b).
Proof. unfold shift_low. by rewrite Z.shiftr_lxor, Z.lxor_spec, cond_lxor, lxor_shuffle. Qed.

Lemma shift_high_lxor poly a b : shift_high poly (Z.lxor a b) = Z.lxor (shift_high poly a) (shift_high poly b).
Proof. unfold shift_high. by rewrite Z.shiftl_lxor, u16_lxor, Z.lxor_spec, cond_lxor, lxor_shuffle. Qed.

Lemma iter_lxor (f : Z -> Z) n a b :
  (forall a b, f (Z.lxor a b) = Z.lxor (f a) (f b)) ->
  Nat.iter n f (Z.lxor a b) = Z.lxor (Nat.iter n f a) (Nat.iter n f b).
Proof. intros Hf. induction n as [|n IH]; [done |]. rewrite !Nat.iter_succ. by rewrite IH, Hf. Qed.

(** Eight zero bits are shifted out. *)
Lemma shift_low_zeros poly h : Nat.iter 8 (shift_low poly) (Z.shiftl h 8) = h.
Proof.
  assert (H : forall x, shift_low poly (2 * x) = x).
  { intros x. unfold shift_low. rewrite Z.testbit_even_0, Z.lxor_0_r, Z.shiftr_div_pow2 by lia. change (2 ^ 1) with 2. rewrite Z.mul_comm. by apply Z.div_mul. }
  rewrite Z.shiftl_mul_pow2 by lia.
  replace (h * 2 ^ 8) with (2 * (2 * (2 * (2 * (2 * (2 * (2 * (2 * h)))))))) by lia.
  cbn [Nat.iter nat_rect]. by rewrite !H.
Qed.

(** A word is its low byte and the rest. *)
Lemma low_byte x : x = Z.lxor (Z.land x 0xFF) (Z.shiftl (Z.shiftr x 8) 8).
Proof.
  apply Z.bits_inj'. intros i Hi. change 0xFF with (Z.ones 8).
  rewrite Z.lxor_spec, Z.land_spec, Z.testbit_ones by lia. destruct (Z.ltb_spec i 8).
  - rewrite Z.shiftl_spec_low by lia. destruct (Z.leb_spec 0 i); [| lia]. by rewrite andb_true_r, xorb_false_r.
  - rewrite Z.shiftl_spec_high, Z.shiftr_spec by lia. rewrite !andb_false_r. by rewrite Z.sub_add, xorb_false_l.
Qed.

Lemma shift_low_byte poly x :
  Nat.iter 8 (shift_low poly) x = Z.lxor (Nat.iter 8 (shift_low poly) (Z.land x 0xFF)) (Z.shiftr x 8).
Proof.
  rewrite (low_byte x) at 1. rewrite iter_lxor by apply shift_low_lxor. by rewrite shift_low_zeros.
Qed.

Lemma shiftr_byte b : Z.shiftr (byte_val b) 8 = 0.
Proof. rewrite Z.shiftr_div_pow2 by lia. apply Z.div_small. apply byte_val_range. Qed.

(** ** The tables hold the remainders of the bytes *)

Lemma crc16tab_entries i : 0 <= i < 256 -> entry crc16tab i = Nat.iter 8 (shift_high POLY16) (Z.shiftl i 8).
Proof. by_table 256 i. Qed.

Lemma crc32_tab_entries i : 0 <= i < 256 -> entry crc32_tab i = Nat.iter 8 (shift_low POLY32) i.
Proof. by_table 256 i. Qed.

Lemma crc64_tab_entries i : 0 <= i < 256 -> entry crc64_tab i = Nat.iter 8 (shift_low POLY64) i.
Proof. by_table 256 i. Qed.

Lemma shift_high_low i : 0 <= i < 256 -> Nat.iter 8 (shift_high POLY16) i = Z.shiftl i 8.
Proof. by_table 256 i. Qed.

Lemma crc16tab_range i : 0 <= i < 256 -> u16 (entry crc16tab i) = entry crc16tab i.
Proof. by_table 256 i. Qed.

Lemma land_byte_range x : 0 <= Z.land x 0xFF < 256.
Proof. change 0xFF with (Z.ones 8). rewrite Z.land_ones by lia. apply Z.mod_pos_bound. lia. Qed.

Lemma land_char x b : Z.land (Z.lxor x (char_val b)) 0xFF = Z.lxor (Z.land x 0xFF) (byte_val b).
Proof.
  assert (H : byte_val b = Z.land (char_val b) 0xFF) by (by destruct b).
  rewrite H. apply Z.bits_inj'. intros i _. rewrite !Z.land_spec, !Z.lxor_spec, !Z.land_spec.
  by destruct (Z.testbit x i), (Z.testbit (char_val b) i), (Z.testbit 255 i).
Qed.

Lemma land_byte x b : Z.land (Z.lxor x (byte_val b)) 0xFF = Z.lxor (Z.land x 0xFF) (byte_val b).
Proof.
  assert (H : byte_val b = Z.land (byte_val b) 0xFF) by (by destruct b).
  rewrite H at 2. apply Z.bits_inj'. intros i _. rewrite !Z.land_spec, !Z.lxor_spec, !Z.land_spec.
  by destruct (Z.testbit x i), (Z.testbit (byte_val b) i), (Z.testbit 255 i).
Qed.

(** ** One byte *)

Lemma crc32_round_spec crc b : crc32_round crc b = Nat.iter 8 (shift_low POLY32) (Z.lxor crc (byte_val b)).
Proof.
  unfold crc32_round. rewrite shift_low_byte, crc32_tab_entries by apply land_byte_range.
  by rewrite Z.shiftr_lxor, shiftr_byte, Z.lxor_0_r.
Qed.

Lemma crc64_round_spec crc b : crc64_round crc b = Nat.iter 8 (shift_low POLY64) (Z.lxor crc (byte_val b)).
Proof.
  unfold crc64_round. replace (u8 crc) with (Z.land crc 0xFF) by (unfold u8; change 0xFF with (Z.ones 8); by rewrite Z.land_ones by lia).
  rewrite <- land_byte, shift_low_byte, crc64_tab_entries by apply land_byte_range.
  by rewrite Z.shiftr_lxor, shiftr_byte, Z.lxor_0_r.
Qed.

Lemma crc16_round_spec crc b : 0 <= crc < 2 ^ 16 ->
  crc16_round crc b = Nat.iter 8 (shift_high POLY16) (Z.lxor crc (Z.shiftl (byte_val b) 8)).
Proof.
  intros Hc. assert (Hh : Z.land (Z.shiftr crc 8) 0xFF = Z.shiftr crc 8).
  { change 0xFF with (Z.ones 8). rewrite Z.land_ones by lia. apply Z.mod_small.
    rewrite Z.shiftr_div_pow2 by lia. Z.to_euclidean_division_equations; lia. }
  unfold crc16_round. rewrite (low_byte crc) at 3. rewrite Z.lxor_assoc, <- Z.shiftl_lxor.
  rewrite iter_lxor by apply shift_high_lxor. rewrite shift_high_low by apply land_byte_range.
  pose proof (land_byte_range (Z.lxor (Z.shiftr crc 8) (char_val b))) as Hr.
  rewrite <- crc16tab_entries by (rewrite land_char, Hh in Hr; done).
  rewrite u16_lxor, crc16tab_range by done. rewrite land_char, Hh. f_equal.
  unfold u16. rewrite !Z.shiftl_mul_pow2 by lia. change (2 ^ 16) with (2 ^ 8 * 2 ^ 8).
  rewrite Z.mul_mod_distr_r by lia. change 0xFF with (Z.ones 8). by rewrite Z.land_ones by lia.
Qed.

Lemma crc16_rounds msg : forall crc, 0 <= crc < 2 ^ 16 -> foldl crc16_round crc msg = divide_high POLY16 crc msg.
Proof.
  induction msg as [|b msg IH]; intros crc Hc; [done |]. unfold divide_high in *. cbn [foldl].
  rewrite IH by (unfold crc16_round; apply u16_range). by rewrite crc16_round_spec.
Qed.

(** C36. The table-driven loops compute the remainder of the division of the
    message by the polynomial, bit by bit, for every message and every
    starting value: [crc16] with 0x1021, most significant bit first, [crc32]
    with 0xEDB88320 on the complemented register, [crc64] with the Jones
    polynomial.  A message may be checked in two parts. *)
Theorem crc_is_division (msg rest : bytes) (crc : Z) :
  crc16 msg = divide_high POLY16 0 msg /\
  crc32 crc msg = Z.lxor (divide_low POLY32 (Z.lxor crc ones32) msg) ones32 /\
  crc64 crc msg = divide_low POLY64 crc msg /\
  crc32 (crc32 crc msg) rest = crc32 crc (msg ++ rest) /\
  crc64 (crc64 crc msg) rest = crc64 crc (msg ++ rest).
Proof.
  split; [by apply crc16_rounds |]. unfold crc32, crc64, divide_low.
  split; [f_equal; generalize (Z.lxor crc ones32) |].
  { induction msg as [|b msg IH]; intros c; [done |]. cbn. by rewrite crc32_round_spec, IH. }
  split.
  { revert crc. induction msg as [|b msg IH]; intros c; [done |]. cbn. by rewrite crc64_round_spec, IH. }
  by rewrite !foldl_app, Z.lxor_assoc, Z.lxor_nilpotent, Z.lxor_0_r.
Qed.

(** The check values of the three checksums. *)
Example crc_check_values :
  crc16 (str "123456789") = 0x31C3 /\
  crc32 0 (str "123456789") = 0xCBF43926 /\
  crc64 0 (str "123456789") = 0xE9C6D914C4B8D9CA.
Proof. vm_compute. done. Qed.

End Crc.
