(* ===== verification/Sorts.v ===== *)
(** * Searching and sorting: src/include/common/qalgorithm.h

    The sequential and binary searches and the simple sorts of the header,
    loop by loop, on arrays with [int32_t] positions.  [Q_Quick_Sort] and
    [Q_Quick_Sort_3] are in QuickSort.v, the multi-key sorts in MultiSort.v. *)

From S2P Require Import Prelude Arrays Heap.
Import Arrays.

Module Sorts.

Section definitions.
Context {A : Type} {key : Key A}.
Implicit Types (v : list A) (tKey temp : A) (lBegin lEnd i j k : Z).

(** ** Searches *)

Definition Compare_Key_Default (tKey1 tKey2 : A) : Z :=
  if gtb tKey1 tKey2 then 1
  else if ltb tKey1 tKey2 then -1
  else 0.

(** The loops of the two sequential searches; [found] is the test, [n] the
    rounds left. *)
Fixpoint sequential_loop (found : A -> bool) (n : nat) v lPos : option Z :=
  match n with
  | O => Some (-1)
  | S n => x ← get v lPos; if found x then Some lPos else sequential_loop found n v (lPos + 1)
  end.

Definition sequential (found : A -> bool) lBegin lEnd v : option Z :=
  if lEnd <? lBegin then Some (-1) else sequential_loop found (Z.to_nat (lEnd - lBegin + 1)) v lBegin.

(** [eqb] is [operator==] of the key type. *)
Definition Q_Sequential_Search_Default (eqb : A -> A -> bool) lBegin lEnd v tKey : option Z :=
  sequential (fun x => eqb x tKey) lBegin lEnd v.

Definition Q_Sequential_Search_Custom (Compare_Key : A -> A -> Z) lBegin lEnd v tKey : option Z :=
  sequential (fun x => Compare_Key x tKey =? 0) lBegin lEnd v.

(** The loop of the binary searches; [before] and [after] are the two tests. *)
Fixpoint binary_loop (before after : A -> bool) (fuel : nat) lBegin lEnd v : option Z :=
  if lEnd <? lBegin then Some (-1)
  else match fuel with
       | O => None
       | S fuel =>
           let lMidVal := Z.shiftr (i32 (lBegin + lEnd)) 1 in
           tMidVal ← get v lMidVal;
           if before tMidVal then binary_loop before after fuel (lMidVal + 1) lEnd v
           else if after tMidVal then binary_loop before after fuel lBegin (lMidVal - 1) v
           else Some lMidVal
       end.

Definition binary_fuel lBegin lEnd : nat := Z.to_nat (lEnd - lBegin + 1).

Definition Q_Binary_Search_Default lBegin lEnd v tKey : option Z :=
  if lEnd <? lBegin then Some (-1)
  else binary_loop (fun x => ltb x tKey) (fun x => gtb x tKey) (binary_fuel lBegin lEnd) lBegin lEnd v.

Definition Q_Binary_Search_Custom (Compare_Key : A -> A -> Z) lBegin lEnd v tKey : option Z :=
  if lEnd <? lBegin then Some (-1)
  else binary_loop (fun x => Compare_Key x tKey <? 0) (fun x => 0 <? Compare_Key x tKey)
         (binary_fuel lBegin lEnd) lBegin lEnd v.

Fixpoint binary_recursion (fuel : nat) lBegin lEnd v tKey : option Z :=
  match fuel with
  | O => None
  | S fuel =>
      if lEnd <? lBegin then Some (-1)
      else
        let lMidVal := Z.shiftr (i32 (lBegin + lEnd)) 1 in
        tMidVal ← get v lMidVal;
        if ltb tMidVal tKey then binary_recursion fuel (lMidVal + 1) lEnd v tKey
        else if gtb tMidVal tKey then binary_recursion fuel lBegin (lMidVal - 1) v tKey
        else Some lMidVal
  end.

Definition Q_Binary_Search_Recursion lBegin lEnd v tKey : option Z :=
  binary_recursion (S (binary_fuel lBegin lEnd)) lBegin lEnd v tKey.

(** ** Bubble sort *)

(** [for(j=lEnd; j>=i; --j)], [n] rounds; the flag is [exchange]. *)
Fixpoint bubble_pass (n : nat) j (exchange : bool) v : option (list A * bool) :=
  match n with
  | O => Some (v, exchange)
  | S n =>
      x ← get v (j - 1);
      y ← get v j;
      if gtb x y then v ← swap v (j - 1) j; bubble_pass n (j - 1) true v
      else bubble_pass n (j - 1) exchange v
  end.

Fixpoint bubble_loop (n : nat) i lEnd v : option (list A) :=
  match n with
  | O => Some v
  | S n =>
      match bubble_pass (Z.to_nat (lEnd - i + 1)) lEnd false v with
      | None => None
      | Some (v, true) => bubble_loop n (i + 1) lEnd v
      | Some (v, false) => Some v
      end
  end.

Definition Q_Bubble_Sort_Improved v lBegin lEnd : option (list A) :=
  bubble_loop (Z.to_nat (lEnd - lBegin)) (lBegin + 1) lEnd v.

(** ** Binary insertion sort *)

(** The position [low] at the end of the search. *)
Fixpoint insert_position (fuel : nat) temp low high v : option Z :=
  if low <=? high then
    match fuel with
    | O => None
    | S fuel =>
        let middle := Z.quot (i32 (low + high)) 2 in
        x ← get v middle;
        if ltb temp x then insert_position fuel temp low (middle - 1) v
        else insert_position fuel temp (middle + 1) high v
    end
  else Some low.

(** [for(k=i-1; k>=low; --k) v[k+1]=v[k]], [n] rounds. *)
Fixpoint shift_right (n : nat) k v : option (list A) :=
  match n with
  | O => Some v
  | S n => x ← get v k; v ← set v (k + 1) x; shift_right n (k - 1) v
  end.

Fixpoint insert_loop (n : nat) lBegin i v : option (list A) :=
  match n with
  | O => Some v
  | S n =>
      temp ← get v i;
      low ← insert_position (Z.to_nat (i - lBegin)) temp lBegin (i - 1) v;
      v ← shift_right (Z.to_nat (i - low)) (i - 1) v;
      v ← set v low temp;
      insert_loop n lBegin (i + 1) v
  end.

Definition Q_Insert_Sort v lBegin lEnd : option (list A) :=
  insert_loop (Z.to_nat (lEnd - lBegin)) lBegin (lBegin + 1) v.

(** ** Shell sort *)

(** The inner [do] loop and the final [v[j+gap]=temp]. *)
Fixpoint shell_insert (fuel : nat) temp gap lBegin j v : option (list A) :=
  match fuel with
  | O => None
  | S fuel =>
      x ← get v j;
      v ← set v (j + gap) x;
      let j := j - gap in
      if lBegin <=? j then
        y ← get v j;
        if ltb temp y then shell_insert fuel temp gap lBegin j v else set v (j + gap) temp
      else set v (j + gap) temp
  end.

Fixpoint shell_pass (n : nat) gap lBegin i v : option (list A) :=
  match n with
  | O => Some v
  | S n =>
      x ← get v i;
      y ← get v (i - gap);
      if ltb x y then v ← shell_insert (Z.to_nat (i - lBegin + 1)) x gap lBegin (i - gap) v; shell_pass n gap lBegin (i + 1) v
      else shell_pass n gap lBegin (i + 1) v
  end.

Fixpoint shell_loop (fuel : nat) gap lBegin lEnd v : option (list A) :=
  match fuel with
  | O => None
  | S fuel =>
      let gap := Z.quot gap 3 + 1 in
      v ← shell_pass (Z.to_nat (lEnd - (lBegin + gap) + 1)) gap lBegin (lBegin + gap) v;
      if 1 <? gap then shell_loop fuel gap lBegin lEnd v else Some v
  end.

Definition Q_Shell_Sort v lBegin lEnd : option (list A) :=
  shell_loop (S (S (Z.to_nat (lEnd - lBegin + 1)))) (lEnd - lBegin + 1) lBegin lEnd v.

(** ** Selection sort *)

Fixpoint select_min (n : nat) j k v : option Z :=
  match n with
  | O => Some k
  | S n => x ← get v j; y ← get v k; select_min n (j + 1) (if ltb x y then j else k) v
  end.

Fixpoint select_loop (n : nat) i lEnd v : option (list A) :=
  match n with
  | O => Some v
  | S n =>
      k ← select_min (Z.to_nat (lEnd - i)) (i + 1) i v;
      v ← (if negb (k =? i) then swap v i k else Some v);
      select_loop n (i + 1) lEnd v
  end.

Definition Q_Slect_Sort v lBegin lEnd : option (list A) :=
  select_loop (Z.to_nat (lEnd - lBegin)) lBegin lEnd v.

(** ** Merging *)

(** [for(k=lBegin; k<=mid; ++k) v2[k]=v1[k]] *)
Fixpoint copy_up (n : nat) k (v1 v2 : list A) : option (list A) :=
  match n with
  | O => Some v2
  | S n => x ← get v1 k; v2 ← set v2 k x; copy_up n (k + 1) v1 v2
  end.

(** [for(k=mid+1; k<=lEnd; k++) v2[lEnd+mid+1-k]=v1[k]]; [total] is [lEnd+mid+1]. *)
Fixpoint copy_back (n : nat) total k (v1 v2 : list A) : option (list A) :=
  match n with
  | O => Some v2
  | S n => x ← get v1 k; v2 ← set v2 (total - k) x; copy_back n total (k + 1) v1 v2
  end.

(** [while(t<=lEnd)], [n] rounds. *)
Fixpoint merge_loop (n : nat) s1 s2 t (v1 v2 : list A) : option (list A) :=
  match n with
  | O => Some v1
  | S n =>
      x ← get v2 s1;
      y ← get v2 s2;
      if negb (ltb y x)
      then v1 ← set v1 t x; merge_loop n (s1 + 1) s2 (t + 1) v1 v2
      else v1 ← set v1 t y; merge_loop n s1 (s2 - 1) (t + 1) v1 v2
  end.

Definition improvedMerge (v1 v2 : list A) lBegin (mid : Z) lEnd : option (list A * list A) :=
  v2 ← copy_up (Z.to_nat (mid - lBegin + 1)) lBegin v1 v2;
  v2 ← copy_back (Z.to_nat (lEnd - mid)) (lEnd + mid + 1) (mid + 1) v1 v2;
  v1 ← merge_loop (Z.to_nat (lEnd - lBegin + 1)) lBegin lEnd lBegin v1 v2;
  Some (v1, v2).

Fixpoint doSort (fuel : nat) (v1 v2 : list A) lBegin lEnd : option (list A * list A) :=
  match fuel with
  | O => None
  | S fuel =>
      if lEnd <=? lBegin then Some (v1, v2)
      else if lEnd - lBegin + 1 <? 20 then Some (v1, v2)
      else
        let mid := Z.quot (i32 (lBegin + lEnd)) 2 in
        '(v1, v2) ← doSort fuel v1 v2 lBegin mid;
        '(v1, v2) ← doSort fuel v1 v2 (mid + 1) lEnd;
        improvedMerge v1 v2 lBegin mid lEnd
  end.

(** ** Heap sort *)

(** [if((k<size)&&(v[k]>v[largest])) largest=k] *)
Definition take_larger v (size k largest : Z) : option Z :=
  if k <? size then y ← get v k; x ← get v largest; Some (if gtb y x then k else largest) else Some largest.

Fixpoint heapAdjust (fuel : nat) v (size i : Z) : option (list A) :=
  match fuel with
  | O => None
  | S fuel =>
      let l := i32 (2 * i + 1) in
      let r := i32 (2 * i + 2) in
      largest ← take_larger v size l i;
      largest ← take_larger v size r largest;
      if negb (largest =? i) then v ← swap v i largest; heapAdjust fuel v size largest else Some v
  end.

(** [for(i=size/2-1; i>=0; i--)], [n] rounds. *)
Fixpoint heap_build (n : nat) i v (size : Z) : option (list A) :=
  match n with
  | O => Some v
  | S n => v ← heapAdjust (S (Z.to_nat size)) v size i; heap_build n (i - 1) v size
  end.

Fixpoint heap_extract (n : nat) i v (size : Z) : option (list A) :=
  match n with
  | O => Some v
  | S n =>
      v ← swap v 0 i;
      v ← heapAdjust (S (Z.to_nat size)) v (size - 1) 0;
      heap_extract n (i - 1) v (size - 1)
  end.

Definition Q_Heap_Sort v (size : Z) : option (list A) :=
  v ← heap_build (Z.to_nat (Z.quot size 2)) (Z.quot size 2 - 1) v size;
  heap_extract (Z.to_nat (size - 1)) (size - 1) v size.

End definitions.

(** ** Searching *)

Section searching.
Context {A : Type}.
Implicit Types (v : list A) (lBegin lEnd : Z).

Lemma middle_range lBegin lEnd : 0 <= lBegin <= lEnd -> 2 * lEnd <= INT32_MAX ->
  lBegin <= Z.shiftr (i32 (lBegin + lEnd)) 1 <= lEnd.
Proof.
  intros. rewrite i32_small by (unfold is_i32, INT32_MIN; lia).
  rewrite Z.shiftr_div_pow2 by lia. change (2 ^ 1) with 2. Z.to_euclidean_division_equations; lia.
Qed.

(** The tests agree with the order of the array: what passes [before] is
    followed by what fails it, what passes [after] is preceded by what does not. *)
Definition split_by (before after : A -> bool) lBegin lEnd v : Prop :=
  forall i j x y, lBegin <= i -> i < j -> j <= lEnd -> get v i = Some x -> get v j = Some y ->
    (before y = true -> before x = true) /\ (after x = true -> after y = true).

Lemma binary_loop_spec before after v : forall fuel lBegin lEnd,
  (forall x, before x = true -> after x = false) ->
  0 <= lBegin -> lEnd < Z.of_nat (length v) -> 2 * lEnd <= INT32_MAX ->
  lEnd - lBegin + 1 <= Z.of_nat fuel -> split_by before after lBegin lEnd v ->
  exists r, binary_loop before after fuel lBegin lEnd v = Some r /\
    ((exists x, lBegin <= r <= lEnd /\ get v r = Some x /\ before x = false /\ after x = false) \/
     (r = -1 /\ forall k x, lBegin <= k <= lEnd -> get v k = Some x -> before x = true \/ after x = true)).
Proof.
  induction fuel as [|fuel IH]; intros lBegin lEnd Hx Hb He Hi Hf Hs; cbn [binary_loop];
    (destruct (Z.ltb_spec lEnd lBegin); [exists (-1); split; [done |]; right; split; [done | lia] | try lia]).
  pose proof (middle_range lBegin lEnd ltac:(lia) Hi) as Hm. set (mid := Z.shiftr _ 1) in *.
  destruct (get_is_Some v mid) as [x Ex]; [lia |]. rewrite Ex. cbn [mbind option_bind].
  destruct (before x) eqn:Eb.
  - destruct (IH (mid + 1) lEnd) as (r & Hr & Hcase); try done; try lia.
    { intros i j a b ? ? ? Ha Hb'. apply (Hs i j); try done; lia. }
    exists r. split; [done |]. destruct Hcase as [(y & ? & ? & ?)|[-> Hno]]; [left; exists y; split; [lia | done] | right].
    split; [done |]. intros k y Hk Hy. destruct (Z.lt_ge_cases k (mid + 1)); [| apply (Hno k); [lia | done]].
    left. destruct (Z.eq_dec k mid) as [->|]; [congruence |]. apply (Hs k mid y x); [lia.. | done | done | done].
  - destruct (after x) eqn:Ea.
    + destruct (IH lBegin (mid - 1)) as (r & Hr & Hcase); try done; try lia.
      { intros i j a b ? ? ? Ha Hb'. apply (Hs i j); try done; lia. }
      exists r. split; [done |]. destruct Hcase as [(y & ? & ? & ?)|[-> Hno]]; [left; exists y; split; [lia | done] | right].
      split; [done |]. intros k y Hk Hy. destruct (Z.le_gt_cases k (mid - 1)); [apply (Hno k); [lia | done] |].
      right. destruct (Z.eq_dec k mid) as [->|]; [congruence |]. apply (Hs mid k x y); [lia.. | done | done | done].
    + exists mid. split; [done |]. left. exists x. split; [lia | done].
Qed.

End searching.

(** ** Sorting *)

Section sorting.
Context {A : Type} {key : Key A} {laws : KeyLaws A}.
Implicit Types (v w : list A) (temp : A) (m n i j k : Z).

(** [w] is [v] with the range [m] to [n] sorted. *)
Definition sorted_range m n v w : Prop := within m n v w /\ sorted_in kle m n w.

(** The positions [m] to [i-1] hold the least elements of [m] to [n], in order. *)
Definition prefix_min m i n v : Prop :=
  forall a b x y, m <= a < i -> a < b <= n -> get v a = Some x -> get v b = Some y -> kle x y.

Lemma prefix_min_sorted m i n v : n <= i -> prefix_min m i n v -> sorted_in kle m n v.
Proof. intros Hi H a b x y ? ? ? Hx Hy. apply (H a b); try done; lia. Qed.

Lemma prefix_min_rest m i n v : prefix_min m i n v -> sorted_in kle i n v -> sorted_in kle m n v.
Proof.
  intros H Hs a b x y ? ? ? Hx Hy. destruct (Z.lt_ge_cases a i); [apply (H a b) | apply (Hs a b)]; try done; lia.
Qed.

(** The next position holds the least of the rest. *)
Lemma prefix_min_step m i n v w x :
  m <= i -> prefix_min m i n v -> within i n v w -> get w i = Some x -> all_in (kle x) i n w -> prefix_min m (i + 1) n w.
Proof.
  intros Hi H Hw Hx Hmin a b y z Ha Hb Hy Hz. destruct (Z.eq_dec a i) as [->|].
  - replace y with x by congruence. apply (Hmin b); [lia | done].
  - pose proof Hw as [_ Ho]. rewrite Ho in Hy by lia. destruct (Z.lt_ge_cases b i).
    + rewrite Ho in Hz by lia. apply (H a b); try done; lia.
    + destruct (within_from _ _ _ _ b z Hw ltac:(lia) Hz) as (b' & Hb' & Hz'). apply (H a b'); try done; lia.
Qed.

(** *** Bubble sort *)

Lemma bubble_pass_spec n e : forall (rounds : nat) j (ex : bool) v,
  0 <= j - Z.of_nat rounds -> j <= e -> e < Z.of_nat (length v) ->
  (forall x, get v j = Some x -> all_in (kle x) j e v) -> (ex = false -> sorted_in kle j e v) ->
  n = j - Z.of_nat rounds ->
  exists w ex', bubble_pass rounds j ex v = Some (w, ex') /\ within n e v w /\
    (forall x, get w n = Some x -> all_in (kle x) n e w) /\ (ex' = false -> sorted_in kle n e w).
Proof.
  induction rounds as [|rounds IH]; intros j ex v H0 Hj He Hmin Hs Hn; cbn [bubble_pass].
  - replace n with j by lia. exists v, ex. split; [done |]. split; [apply within_refl | done].
  - destruct (get_is_Some v (j - 1)) as [x Hx]; [lia |]. destruct (get_is_Some v j) as [y Hy]; [lia |].
    rewrite Hx, Hy. cbn [mbind option_bind]. specialize (Hmin y Hy). unfold gtb. destruct (ltb y x) eqn:E.
    + destruct (swap v (j - 1) j) as [w|] eqn:Es; [| by rewrite (swap_in _ _ _ x y) in Es].
      cbn [mbind option_bind]. pose proof (fun k => swap_get _ _ _ _ k _ _ Es Hx Hy) as Hg.
      destruct (IH (j - 1) true w) as (w' & ex' & -> & Hw & Hm & Hst); try lia; try done.
      * by rewrite (swap_length _ _ _ _ Es).
      * intros z Hz k u Hk Hu. rewrite Hg, Z.eqb_refl in Hz. destruct (Z.eqb_spec j (j - 1)); [lia |]. injection Hz as <-.
        rewrite Hg in Hu. destruct (Z.eqb_spec j k); [injection Hu as <-; by apply ltb_kle |].
        destruct (Z.eqb_spec (j - 1) k); [injection Hu as <-; apply kle_refl | apply (Hmin k); [lia | done]].
      * exists w', ex'. split; [done |]. split; [| done]. eapply within_trans; [| exact Hw].
        eapply within_swap; [| | exact Es]; lia.
    + destruct (IH (j - 1) ex v) as (w' & ex' & -> & Hw & Hm & Hst); try lia; try done.
      * intros z Hz k u Hk Hu. replace z with x by congruence. destruct (Z.eq_dec k (j - 1)) as [->|].
        -- replace u with x by congruence. apply kle_refl.
        -- transitivity y; [done | apply (Hmin k); [lia | done]].
      * intros Hex a b c d ? ? ? Hc Hd. destruct (Z.eq_dec a (j - 1)) as [->|]; [| apply (Hs Hex a b); try done; lia].
        replace c with x by congruence. transitivity y; [done | apply (Hmin b); [lia | done]].
      * eauto 10.
Qed.

Lemma bubble_loop_spec m n : forall (rounds : nat) i v,
  0 <= m < i -> i + Z.of_nat rounds = n + 1 -> n < Z.of_nat (length v) -> prefix_min m (i - 1) n v ->
  exists w, bubble_loop rounds i n v = Some w /\ sorted_range m n v w.
Proof.
  induction rounds as [|rounds IH]; intros i v Hm Hi Hn Hp; cbn [bubble_loop].
  - exists v. split; [done |]. split; [apply within_refl |]. eapply prefix_min_sorted; [| done]. lia.
  - destruct (bubble_pass_spec (i - 1) n (Z.to_nat (n - i + 1)) n false v)
      as (w & ex & -> & Hw & Hmin & Hs); try lia.
    { intros x Hx k y Hk Hy. replace k with n in Hy by lia. replace y with x by congruence. apply kle_refl. }
    { intros _. apply sorted_small. lia. }
    assert (Hwm : within m n v w) by (eapply within_weaken; [| | exact Hw]; lia).
    destruct ex.
    + pose proof (within_length _ _ _ _ Hw).
      destruct (get_is_Some w (i - 1)) as [x Hx]; [lia |].
      destruct (IH (i + 1) w) as (w' & -> & Hw' & Hs'); try lia.
      { replace (i + 1 - 1) with (i - 1 + 1) by lia. eapply prefix_min_step; [lia | done | exact Hw | done | by apply Hmin]. }
      exists w'. split; [done |]. split; [by eapply within_trans | done].
    + exists w. split; [done |]. split; [done |]. eapply prefix_min_rest; [| by apply Hs].
      intros a b x y Ha Hb Hx Hy. destruct Hw as [Hpm Ho]. rewrite Ho in Hx by lia.
      destruct (Z.lt_ge_cases b (i - 1)); [rewrite Ho in Hy by lia; apply (Hp a b); try done; lia |].
      destruct (within_from (i - 1) n v w b y) as (b' & Hb' & Hy'); [by split | lia | done |].
      apply (Hp a b'); try done; lia.
Qed.

Lemma Q_Bubble_Sort_sorts v m n : 0 <= m -> n < Z.of_nat (length v) ->
  exists w, Q_Bubble_Sort_Improved v m n = Some w /\ sorted_range m n v w.
Proof.
  intros Hm Hn. unfold Q_Bubble_Sort_Improved. destruct (Z.le_gt_cases m n).
  - apply bubble_loop_spec; try lia. intros a b x y Ha. lia.
  - replace (Z.to_nat (n - m)) with 0%nat by lia. exists v. split; [done |]. split; [apply within_refl | apply sorted_small; lia].
Qed.

(** *** Selection sort *)

Lemma select_min_spec v i n : forall (rounds : nat) j k,
  0 <= i <= k -> k < j -> j + Z.of_nat rounds = n + 1 -> n < Z.of_nat (length v) ->
  (forall x, get v k = Some x -> all_in (kle x) i (j - 1) v) ->
  exists k', select_min rounds j k v = Some k' /\ i <= k' <= n /\ (forall x, get v k' = Some x -> all_in (kle x) i n v).
Proof.
  induction rounds as [|rounds IH]; intros j k Hi Hk Hj Hn Hmin; cbn [select_min].
  - exists k. split; [done |]. split; [lia |]. by replace n with (j - 1) by lia.
  - destruct (get_is_Some v j) as [x Hx]; [lia |]. destruct (get_is_Some v k) as [y Hy]; [lia |].
    rewrite Hx, Hy. cbn [mbind option_bind]. specialize (Hmin y Hy).
    apply IH; try lia; [destruct (ltb x y); lia | destruct (ltb x y); lia |].
    intros z Hz a b Ha Hb. destruct (ltb x y) eqn:E.
    + replace z with x by congruence. destruct (Z.eq_dec a j) as [->|]; [replace b with x by congruence; apply kle_refl |].
      transitivity y; [by apply ltb_kle | apply (Hmin a); [lia | done]].
    + replace z with y by congruence. destruct (Z.eq_dec a j) as [->|]; [by replace b with x by congruence |].
      apply (Hmin a); [lia | done].
Qed.

Lemma select_loop_spec m n : forall (rounds : nat) i v,
  0 <= m <= i -> i + Z.of_nat rounds = n -> n < Z.of_nat (length v) -> prefix_min m i n v ->
  exists w, select_loop rounds i n v = Some w /\ sorted_range m n v w.
Proof.
  induction rounds as [|rounds IH]; intros i v Hm Hi Hn Hp; cbn [select_loop].
  - exists v. split; [done |]. split; [apply within_refl |]. eapply prefix_min_sorted; [| done]. lia.
  - destruct (select_min_spec v i n (Z.to_nat (n - i)) (i + 1) i) as (k & -> & Hk & Hmin); try lia.
    { intros x Hx a b Ha Hb. replace a with i in Hb by lia. replace b with x by congruence. apply kle_refl. }
    cbn [mbind option_bind]. destruct (get_is_Some v k) as [x Hx]; [lia |]. specialize (Hmin x Hx).
    assert (exists w, (if negb (k =? i) then swap v i k else Some v) = Some w /\ within i n v w /\ get w i = Some x)
      as (w & -> & Hw & Hwx).
    { destruct (Z.eqb_spec k i) as [->|]; cbn [negb]; [exists v; split; [done | split; [apply within_refl | done]] |].
      destruct (get_is_Some v i) as [y Hy]; [lia |]. rewrite (swap_in _ _ _ y x) by done. eexists. split; [done |].
      split; [eapply within_swap; [| | by apply swap_in]; lia |].
      rewrite (swap_get v i k _ i y x (swap_in _ _ _ _ _ Hy Hx) Hy Hx). destruct (Z.eqb_spec k i); [done |].
      by rewrite Z.eqb_refl. }
    cbn [mbind option_bind]. pose proof (within_length _ _ _ _ Hw).
    destruct (IH (i + 1) w) as (w' & -> & Hw' & Hs'); try lia.
    { eapply prefix_min_step; [lia | done | done | done | by eapply within_all]. }
    exists w'. split; [done |]. split; [| done]. eapply within_trans; [| exact Hw']. eapply within_weaken; [| | exact Hw]; lia.
Qed.

Lemma Q_Slect_Sort_sorts v m n : 0 <= m -> n < Z.of_nat (length v) ->
  exists w, Q_Slect_Sort v m n = Some w /\ sorted_range m n v w.
Proof.
  intros Hm Hn. unfold Q_Slect_Sort. destruct (Z.le_gt_cases m n).
  - apply select_loop_spec; try lia. intros a b x y Ha. lia.
  - replace (Z.to_nat (n - m)) with 0%nat by lia. exists v. split; [done |]. split; [apply within_refl | apply sorted_small; lia].
Qed.

(** *** Insertion *)

(** [w] is [v] with [temp] of position [i] moved down to [low]. *)
Definition inserted_at low i temp v w : Prop :=
  forall p, get w p = if p =? low then Some temp
                      else if (low <? p) && (p <=? i) then get v (p - 1) else get v p.

Lemma inserted_sorted m i low temp v w :
  m <= low <= i -> inserted_at low i temp v w -> sorted_in kle m (i - 1) v ->
  all_in (fun x => kle x temp) m (low - 1) v -> all_in (kle temp) low (i - 1) v -> sorted_in kle m i w.
Proof.
  intros Hlow Hw Hs Hlo Hhi a b x y Ha Hab Hb Hx Hy. rewrite Hw in Hx, Hy.
  destruct (Z.eqb_spec a low), (Z.eqb_spec b low); try lia.
  - destruct (Z.ltb_spec low b), (Z.leb_spec b i); try lia. injection Hx as <-. apply (Hhi (b - 1)); [lia | done].
  - destruct (Z.ltb_spec low a); [lia |]. injection Hy as <-. apply (Hlo a); [lia | done].
  - destruct (Z.ltb_spec low a), (Z.leb_spec a i), (Z.ltb_spec low b), (Z.leb_spec b i); try lia; cbn [andb] in *;
      (eapply Hs; [| | | exact Hx | exact Hy]; lia).
Qed.

(** Shifting the hole down by [n] positions. *)
Lemma shift_right_spec temp : forall (n : nat) k v,
  0 <= k + 1 - Z.of_nat n -> k + 1 < Z.of_nat (length v) ->
  exists w, shift_right n k v = Some w /\ length w = length v /\
    within (k + 1 - Z.of_nat n) (k + 1) (<[Z.to_nat (k + 1) := temp]> v) (<[Z.to_nat (k + 1 - Z.of_nat n) := temp]> w) /\
    (forall p, get w p = if (k + 1 - Z.of_nat n <? p) && (p <=? k + 1) then get v (p - 1) else get v p).
Proof.
  induction n as [|n IH]; intros k v H0 Hk; cbn [shift_right].
  - exists v. split; [done |]. split; [done |]. replace (k + 1 - Z.of_nat 0) with (k + 1) by lia.
    split; [apply within_refl |]. intros p. destruct (Z.ltb_spec (k + 1) p), (Z.leb_spec p (k + 1)); try lia; done.
  - destruct (get_is_Some v k) as [x Hx]; [lia |]. rewrite Hx. cbn [mbind option_bind].
    rewrite set_in by lia. cbn [mbind option_bind].
    destruct (IH (k - 1) (<[Z.to_nat (k + 1) := x]> v)) as (w & -> & Hl & Hw & Hg); [lia | rewrite length_insert; lia |].
    rewrite length_insert in Hl. exists w. split; [done |]. split; [done |].
    replace (k - 1 + 1 - Z.of_nat n) with (k + 1 - Z.of_nat (S n)) in * by lia. replace (k - 1 + 1) with k in * by lia.
    split.
    + eapply within_trans; [| eapply within_weaken; [| | exact Hw]; lia].
      eapply within_swap; [| | apply (fill_swap v k (k + 1) temp x); [lia | lia | done]]; lia.
    + intros p. rewrite Hg. destruct (Z.ltb_spec (k + 1 - Z.of_nat (S n)) p); cbn [andb].
      * destruct (Z.leb_spec p k), (Z.leb_spec p (k + 1)); try lia; rewrite get_insert by lia.
        -- destruct (Z.eqb_spec (k + 1) (p - 1)); [lia | done].
        -- replace p with (k + 1) by lia. rewrite Z.eqb_refl. by replace (k + 1 - 1) with k by lia.
        -- destruct (Z.eqb_spec (k + 1) p); [lia | done].
      * rewrite get_insert by lia. destruct (Z.eqb_spec (k + 1) p); [lia | done].
Qed.

Lemma insert_position_spec temp m i v : forall fuel low high,
  0 <= m <= low -> low <= high + 1 <= i -> i <= Z.of_nat (length v) -> 2 * i <= INT32_MAX ->
  high - low + 1 <= Z.of_nat fuel -> sorted_in kle m (i - 1) v ->
  all_in (fun x => kle x temp) m (low - 1) v -> all_in (kle temp) (high + 1) (i - 1) v ->
  exists low', insert_position fuel temp low high v = Some low' /\ m <= low' <= i /\
    all_in (fun x => kle x temp) m (low' - 1) v /\ all_in (kle temp) low' (i - 1) v.
Proof.
  induction fuel as [|fuel IH]; intros low high Hm Hlh Hi Hov Hf Hs Hlo Hhi; cbn [insert_position];
    (destruct (Z.leb_spec low high); [try lia |]);
    try (exists low; split; [done |]; split; [lia |]; split; [done |]; replace low with (high + 1) by lia; done).
  assert (Hmid : low <= Z.quot (i32 (low + high)) 2 <= high).
  { rewrite i32_small by (unfold is_i32, INT32_MIN; lia). Z.to_euclidean_division_equations; lia. }
  set (mid := Z.quot _ 2) in *. destruct (get_is_Some v mid) as [x Hx]; [lia |]. rewrite Hx. cbn [mbind option_bind].
  destruct (ltb temp x) eqn:E; apply IH; try lia; try done.
  - replace (mid - 1 + 1) with mid by lia. intros k y Hk Hy. destruct (Z.eq_dec k mid) as [->|].
    + replace y with x by congruence. by apply ltb_kle.
    + transitivity x; [by apply ltb_kle | apply (Hs mid k); try done; lia].
  - replace (mid + 1 - 1) with mid by lia. intros k y Hk Hy. destruct (Z.eq_dec k mid) as [->|].
    + by replace y with x by congruence.
    + transitivity x; [apply (Hs k mid); try done; lia | done].
Qed.

(** The effect of inserting the element at [i] into the sorted range before it. *)
Lemma insert_effect m i low temp v w :
  0 <= m <= low -> low <= i < Z.of_nat (length v) -> get v i = Some temp -> length w = length v ->
  within low i (<[Z.to_nat i := temp]> v) (<[Z.to_nat low := temp]> w) ->
  (forall p, get w p = if (low <? p) && (p <=? i) then get v (p - 1) else get v p) ->
  sorted_in kle m (i - 1) v -> all_in (fun x => kle x temp) m (low - 1) v -> all_in (kle temp) low (i - 1) v ->
  sorted_range m i v (<[Z.to_nat low := temp]> w).
Proof.
  intros Hm Hi Ht Hl Hw Hg Hs Hlo Hhi. rewrite list_insert_id in Hw by (by apply get_Some in Ht as [_ ?]).
  split; [eapply within_weaken; [| | exact Hw]; lia |].
  eapply inserted_sorted; [| | exact Hs | exact Hlo | exact Hhi]; [lia |].
  intros p. rewrite get_insert by lia. rewrite (Z.eqb_sym low p). destruct (Z.eqb_spec p low); [done | apply Hg].
Qed.

(** Sorting one more position each round. *)
Lemma sorted_range_grow m i n v w u :
  m <= i <= n -> sorted_range m i v w -> sorted_range m n w u -> sorted_range m n v u.
Proof.
  intros Hi [H1 _] [H2 H3]. split; [| done]. eapply within_trans; [eapply within_weaken; [| | exact H1]; lia | done].
Qed.

Lemma insert_loop_spec m n : forall (rounds : nat) i v,
  0 <= m < i -> i + Z.of_nat rounds = n + 1 -> n < Z.of_nat (length v) -> 2 * n <= INT32_MAX ->
  sorted_in kle m (i - 1) v ->
  exists w, insert_loop rounds m i v = Some w /\ sorted_range m n v w.
Proof.
  induction rounds as [|rounds IH]; intros i v Hm Hi Hn Hov Hs; cbn [insert_loop].
  - exists v. split; [done |]. split; [apply within_refl |]. by replace n with (i - 1) by lia.
  - destruct (get_is_Some v i) as [temp Ht]; [lia |]. rewrite Ht. cbn [mbind option_bind].
    destruct (insert_position_spec temp m i v (Z.to_nat (i - m)) m (i - 1)) as (low & -> & Hl & Hlo & Hhi); try lia; try done.
    { intros k x Hk. lia. }
    { intros k x Hk. lia. }
    cbn [mbind option_bind].
    destruct (shift_right_spec temp (Z.to_nat (i - low)) (i - 1) v) as (w & -> & Hlen & Hw & Hg); [lia.. |].
    cbn [mbind option_bind]. replace (i - 1 + 1 - Z.of_nat (Z.to_nat (i - low))) with low in * by lia.
    replace (i - 1 + 1) with i in * by lia. rewrite set_in by lia. cbn [mbind option_bind].
    assert (Hr : sorted_range m i v (<[Z.to_nat low := temp]> w)) by (by apply insert_effect; try lia).
    destruct Hr as [Hr1 Hr2].
    destruct (IH (i + 1) (<[Z.to_nat low := temp]> w)) as (u & -> & Hu);
      [lia | lia | rewrite length_insert; lia | done | by replace (i + 1 - 1) with i by lia |].
    exists u. split; [done |]. eapply sorted_range_grow; [| by split | exact Hu]. lia.
Qed.

Lemma Q_Insert_Sort_sorts v m n : 0 <= m -> n < Z.of_nat (length v) -> 2 * n <= INT32_MAX ->
  exists w, Q_Insert_Sort v m n = Some w /\ sorted_range m n v w.
Proof.
  intros Hm Hn Hov. unfold Q_Insert_Sort. destruct (Z.le_gt_cases m n).
  - apply insert_loop_spec; try lia. apply sorted_small. lia.
  - replace (Z.to_nat (n - m)) with 0%nat by lia. exists v. split; [done |]. split; [apply within_refl | apply sorted_small; lia].
Qed.

(** *** Shell *)

(** One insertion along a gap, whatever the gap. *)
Lemma shell_insert_within temp gap m : forall fuel j v,
  0 < gap -> 0 <= m <= j -> j + gap < Z.of_nat (length v) -> j - m < Z.of_nat fuel ->
  exists w, shell_insert fuel temp gap m j v = Some w /\ within m (j + gap) (<[Z.to_nat (j + gap) := temp]> v) w.
Proof.
  induction fuel as [|fuel IH]; intros j v Hg Hm Hj Hf; [lia |]. cbn [shell_insert].
  destruct (get_is_Some v j) as [x Hx]; [lia |]. rewrite Hx. cbn [mbind option_bind].
  rewrite set_in by lia. cbn [mbind option_bind]. set (v' := <[Z.to_nat (j + gap) := x]> v).
  assert (Hl : length v' = length v) by apply length_insert.
  assert (Hw : within m (j + gap) (<[Z.to_nat (j + gap) := temp]> v) (<[Z.to_nat j := temp]> v'))
    by (eapply within_swap; [| | apply (fill_swap v j (j + gap) temp x); [lia | lia | done]]; lia).
  assert (Hstop : exists w, set v' j temp = Some w /\ within m (j + gap) (<[Z.to_nat (j + gap) := temp]> v) w)
    by (rewrite set_in by lia; by eexists).
  replace (j - gap + gap) with j by lia.
  destruct (Z.leb_spec m (j - gap)); [| done].
  destruct (get_is_Some v' (j - gap)) as [y Hy]; [lia |]. rewrite Hy. cbn [mbind option_bind].
  destruct (ltb temp y); [| done].
  destruct (IH (j - gap) v') as (w & -> & Hw'); [lia.. |]. replace (j - gap + gap) with j in Hw' by lia.
  exists w. split; [done |]. eapply within_trans; [exact Hw |]. eapply within_weaken; [| | exact Hw']; lia.
Qed.

(** Along the gap 1, it is the insertion of [temp] into the sorted range. *)
Lemma shell_insert_inserted temp m : forall fuel j v w y,
  0 <= m <= j -> j + 1 < Z.of_nat (length v) -> shell_insert fuel temp 1 m j v = Some w ->
  get v j = Some y -> ltb temp y = true -> sorted_in kle m j v ->
  exists low, m <= low <= j /\ inserted_at low (j + 1) temp v w /\
    all_in (fun x => kle x temp) m (low - 1) v /\ all_in (kle temp) low j v.
Proof.
  induction fuel as [|fuel IH]; intros j v w y Hm Hj Hw Hy Ht Hs; [done |]. cbn [shell_insert] in Hw.
  rewrite Hy in Hw. cbn [mbind option_bind] in Hw. rewrite set_in in Hw by lia. cbn [mbind option_bind] in Hw.
  set (v' := <[Z.to_nat (j + 1) := y]> v) in *. assert (Hl : length v' = length v) by apply length_insert.
  assert (Hg : forall p, get v' p = if j + 1 =? p then Some y else get v p) by (intros; apply get_insert; lia).
  replace (j - 1 + 1) with j in Hw by lia.
  assert (Hup : all_in (kle temp) j j v) by (intros k x Hk Hx; replace k with j in Hx by lia; apply ltb_kle; congruence).
  assert (Hstop : forall w', set v' j temp = Some w' -> inserted_at j (j + 1) temp v w').
  { intros w' Hw' p. rewrite set_in in Hw' by lia. injection Hw' as <-. rewrite get_insert by lia.
    rewrite (Z.eqb_sym j p), Hg. destruct (Z.eqb_spec p j); [done |].
    destruct (Z.eqb_spec (j + 1) p), (Z.ltb_spec j p), (Z.leb_spec p (j + 1)); try lia; [| done..].
    cbn [andb]. by replace (p - 1) with j by lia. }
  destruct (Z.leb_spec m (j - 1)).
  2: { exists j. split; [lia |]. split; [by apply Hstop |]. split; [intros k x Hk; lia | done]. }
  destruct (get_is_Some v (j - 1)) as [z Hz]; [lia |].
  assert (Hz' : get v' (j - 1) = Some z) by (rewrite Hg; destruct (Z.eqb_spec (j + 1) (j - 1)); [lia | done]).
  rewrite Hz' in Hw. cbn [mbind option_bind] in Hw. destruct (ltb temp z) eqn:E.
  - destruct (IH (j - 1) v' w z) as (low & Hlow & Hins & Hlo & Hhi); [lia | lia | done | done | done | |].
    { intros a b x x' Ha Hab Hb. rewrite !Hg. destruct (Z.eqb_spec (j + 1) a), (Z.eqb_spec (j + 1) b); try lia. apply Hs; lia. }
    exists low. split; [lia |]. replace (j - 1 + 1) with j in Hins by lia. split.
    { intros p. rewrite (Hins p), !Hg. destruct (Z.eqb_spec p low); [done |].
      destruct (Z.ltb_spec low p), (Z.leb_spec p j), (Z.leb_spec p (j + 1)), (Z.eqb_spec (j + 1) (p - 1)),
        (Z.eqb_spec (j + 1) p); try lia; cbn [andb]; try done. by replace (p - 1) with j by lia. }
    split.
    + intros k x Hk Hx. apply (Hlo k); [lia |]. rewrite Hg. destruct (Z.eqb_spec (j + 1) k); [lia | done].
    + intros k x Hk Hx. destruct (Z.eq_dec k j) as [->|]; [by apply (Hup j); [lia |] |].
      apply (Hhi k); [lia |]. rewrite Hg. destruct (Z.eqb_spec (j + 1) k); [lia | done].
  - exists j. split; [lia |]. split; [by apply Hstop |]. split; [| done].
    intros k x Hk Hx. destruct (Z.eq_dec k (j - 1)) as [->|]; [by replace x with z by congruence |].
    transitivity z; [by apply (Hs k (j - 1)); [lia.. | |] | done].
Qed.

Lemma shell_pass_within gap m n : forall (rounds : nat) i v,
  0 < gap -> 0 <= m -> m + gap <= i -> i + Z.of_nat rounds <= n + 1 -> n < Z.of_nat (length v) ->
  exists w, shell_pass rounds gap m i v = Some w /\ within m n v w.
Proof.
  induction rounds as [|rounds IH]; intros i v Hg Hm Hi Hr Hn; cbn [shell_pass]; [exists v; split; [done | apply within_refl] |].
  destruct (get_is_Some v i) as [x Hx]; [lia |]. destruct (get_is_Some v (i - gap)) as [y Hy]; [lia |].
  rewrite Hx, Hy. cbn [mbind option_bind]. destruct (ltb x y); [| apply IH; lia].
  destruct (shell_insert_within x gap m (Z.to_nat (i - m + 1)) (i - gap) v) as (w & -> & Hw); [lia.. |].
  cbn [mbind option_bind]. replace (i - gap + gap) with i in Hw by lia.
  rewrite list_insert_id in Hw by (by apply get_Some in Hx as [_ ?]).
  destruct (IH (i + 1) w) as (u & -> & Hu); [lia.. | rewrite (within_length _ _ _ _ Hw); lia |].
  exists u. split; [done |]. eapply within_trans; [eapply within_weaken; [| | exact Hw]; lia | done].
Qed.

Lemma shell_pass_sorted m n : forall (rounds : nat) i v w,
  0 <= m < i -> i + Z.of_nat rounds = n + 1 -> n < Z.of_nat (length v) -> sorted_in kle m (i - 1) v ->
  shell_pass rounds 1 m i v = Some w -> sorted_in kle m n w.
Proof.
  induction rounds as [|rounds IH]; intros i v w Hm Hr Hn Hs Hw; cbn [shell_pass] in Hw.
  { injection Hw as <-. by replace n with (i - 1) by lia. }
  destruct (get_is_Some v i) as [x Hx]; [lia |]. destruct (get_is_Some v (i - 1)) as [y Hy]; [lia |].
  rewrite Hx, Hy in Hw. cbn [mbind option_bind] in Hw. destruct (ltb x y) eqn:E.
  - destruct (shell_insert_within x 1 m (Z.to_nat (i - m + 1)) (i - 1) v) as (u & Hu & Hwi); [lia.. |].
    rewrite Hu in Hw. cbn [mbind option_bind] in Hw. apply within_length in Hwi. rewrite length_insert in Hwi.
    destruct (shell_insert_inserted x m _ (i - 1) v u y ltac:(lia) ltac:(lia) Hu Hy E Hs) as (low & Hl & Hi & Hlo & Hhi).
    replace (i - 1 + 1) with i in Hi by lia.
    apply (IH (i + 1) u); try done; [lia.. |]. replace (i + 1 - 1) with i by lia.
    eapply inserted_sorted; [| exact Hi | exact Hs | exact Hlo | exact Hhi]. lia.
  - apply (IH (i + 1) v); try done; [lia.. |]. replace (i + 1 - 1) with i by lia.
    intros a b p q Ha Hab Hb Hp Hq. destruct (Z.eq_dec b i) as [->|]; [| by apply (Hs a b); [lia.. | |]].
    replace q with x by congruence. destruct (Z.eq_dec a (i - 1)) as [->|]; [by replace p with y by congruence |].
    transitivity y; [by apply (Hs a (i - 1)); [lia.. | |] | done].
Qed.

Lemma shell_loop_spec m n : forall (fuel : nat) gap v,
  0 <= m -> 0 < gap -> gap < Z.of_nat fuel -> n < Z.of_nat (length v) ->
  exists w, shell_loop fuel gap m n v = Some w /\ sorted_range m n v w.
Proof.
  induction fuel as [|fuel IH]; intros gap v Hm Hg Hf Hn; [lia |]. cbn [shell_loop].
  assert (Hq : 0 < Z.quot gap 3 + 1 /\ (Z.quot gap 3 + 1 < gap \/ Z.quot gap 3 + 1 = 1))
    by (Z.to_euclidean_division_equations; lia).
  set (g := Z.quot gap 3 + 1) in *.
  destruct (Z.le_gt_cases (m + g) n).
  - destruct (shell_pass_within g m n (Z.to_nat (n - (m + g) + 1)) (m + g) v) as (w & Hp & Hw); [lia.. |].
    rewrite Hp. cbn [mbind option_bind]. pose proof (within_length _ _ _ _ Hw). destruct (Z.ltb_spec 1 g).
    + destruct (IH g w) as (u & -> & Hu1 & Hu2); [lia.. |]. exists u. split; [done |]. split; [by eapply within_trans | done].
    + replace g with 1 in Hp by lia. exists w. split; [done |]. split; [done |].
      eapply shell_pass_sorted; [| | | | exact Hp]; [lia.. |]. apply sorted_small. lia.
  - replace (Z.to_nat (n - (m + g) + 1)) with 0%nat by lia. cbn [shell_pass mbind option_bind].
    destruct (Z.ltb_spec 1 g); [apply IH; lia |].
    exists v. split; [done |]. split; [apply within_refl | apply sorted_small; lia].
Qed.

Lemma Q_Shell_Sort_sorts v m n : 0 <= m -> n < Z.of_nat (length v) ->
  exists w, Q_Shell_Sort v m n = Some w /\ sorted_range m n v w.
Proof.
  intros Hm Hn. unfold Q_Shell_Sort. destruct (Z.le_gt_cases m n); [apply shell_loop_spec; lia |].
  cbn [shell_loop]. assert (n - m + 1 <= Z.quot (n - m + 1) 3 + 1 <= 1) by (Z.to_euclidean_division_equations; lia).
  replace (Z.to_nat (n - (m + (Z.quot (n - m + 1) 3 + 1)) + 1)) with 0%nat by lia. cbn [shell_pass mbind option_bind].
  destruct (Z.ltb_spec 1 (Z.quot (n - m + 1) 3 + 1)); [lia |].
  exists v. split; [done |]. split; [apply within_refl | apply sorted_small; lia].
Qed.

(** *** Heap *)

(** [v[x] >= v[y]], the order a parent of the heap is in with its children. *)
Definition kge (x y : A) : bool := negb (ltb x y).

Lemma kge_kle x y : kge x y = true <-> kle y x.
Proof. unfold kge, kle. by destruct (ltb x y). Qed.

#[local] Instance key_heap : Heap.HeapLaws kge ltb.
Proof.
  constructor.
  - intros x y z. rewrite !kge_kle. intros ? ?. by transitivity y.
  - intros x y. unfold kge. rewrite !negb_true_iff, negb_false_iff. apply ltb_asym.
  - intros x y. unfold kge. by rewrite negb_involutive.
Qed.

Lemma take_larger_spec v size k c : size <= Z.of_nat (length v) -> 0 <= k -> 0 <= c < size ->
  exists c', take_larger v size k c = Some c' /\ (c' = c \/ c' = k) /\ c' < size /\
    (forall x y, get v c' = Some x -> get v c = Some y -> kle y x /\ (c' <> c -> ltb y x = true)) /\
    (forall x y, k < size -> get v c' = Some x -> get v k = Some y -> kle y x).
Proof.
  intros Hl Hk Hc. unfold take_larger. destruct (Z.ltb_spec k size).
  - destruct (get_is_Some v k) as [y Hy]; [lia |]. destruct (get_is_Some v c) as [x Hx]; [lia |].
    rewrite Hx, Hy. cbn [mbind option_bind]. unfold gtb. destruct (ltb x y) eqn:E.
    + exists k. split; [done |]. split; [by right |]. split; [done |]. split; intros a b; intros; simplify_eq.
      * split; [by apply ltb_kle | done].
      * apply kle_refl.
    + exists c. split; [done |]. split; [by left |]. split; [lia |]. split; intros a b; intros; simplify_eq; [| done].
      split; [apply kle_refl | done].
  - exists c. split; [done |]. split; [by left |]. split; [lia |]. split; intros a b; intros; simplify_eq; [| lia].
    split; [apply kle_refl | done].
Qed.

(** The subtrees below the positions from [from] on are heaps. *)
Definition heap_from from size v : Prop :=
  Heap.ordered_but (before := kge) (fun k => Heap.parent k < from) size v.

Lemma heapAdjust_spec from size : forall fuel v i,
  0 <= from <= i -> i < size -> size <= Z.of_nat (length v) -> 2 * size <= INT32_MAX -> size - i <= Z.of_nat fuel ->
  Heap.ordered_but (before := kge) (fun k => Heap.parent k < from \/ Heap.parent k = i) size v ->
  (from <= Heap.parent i -> Heap.bridged (before := kge) size i v) ->
  exists w, heapAdjust fuel v size i = Some w /\ heap_from from size w /\ within from (size - 1) v w.
Proof.
  induction fuel as [|fuel IH]; intros v i Hi Hs Hl Hov Hf Ho Hb; [lia |]. cbn [heapAdjust].
  rewrite !i32_small by (unfold is_i32, INT32_MIN; lia).
  destruct (take_larger_spec v size (2 * i + 1) i) as (c1 & -> & Hc1 & Hs1 & Hge1 & Hk1); [lia.. |]. cbn [mbind option_bind].
  destruct (take_larger_spec v size (2 * i + 2) c1) as (c & -> & Hc & Hsc & Hge2 & Hk2); [lia.. |]. cbn [mbind option_bind].
  destruct (get_is_Some v c) as [y Hy]; [lia |]. destruct (get_is_Some v c1) as [z Hz]; [lia |].
  destruct (get_is_Some v i) as [temp Ht]; [lia |].
  destruct (Hge1 z temp Hz Ht) as [Htz Htz']. destruct (Hge2 y z Hy Hz) as [Hzy Hzy'].
  assert (Hch : forall k u, 0 < k < size -> Heap.parent k = i -> get v k = Some u -> kge y u = true).
  { intros k u Hk Hp Hu. apply kge_kle. apply Heap.parent_children in Hp as [-> | ->]; [| | lia].
    - transitivity z; [| done]. by apply Hk1; [lia | |].
    - by apply Hk2; [lia | |]. }
  destruct (Z.eqb_spec c i) as [->|Hne]; cbn [negb].
  - exists v. split; [done |]. split; [| apply within_refl]. intros k a b Hk Hnp Ha Hb'.
    destruct (Z.eq_dec (Heap.parent k) i) as [E|]; [| by apply (Ho k); [| lia | |]].
    rewrite E in Ha. replace a with y by congruence. by apply (Hch k).
  - assert (Hlt : kge temp y = false).
    { unfold kge. apply negb_false_iff. destruct (Z.eq_dec c c1) as [->|].
      - replace y with z by congruence. apply Htz'. lia.
      - eapply kle_ltb; [exact Htz | by apply Hzy']. }
    destruct (swap v i c) as [w|] eqn:Es; [| by rewrite (swap_in _ _ _ temp y) in Es]. cbn [mbind option_bind].
    destruct (Heap.sift_down_step from size v w i c temp y) as [Ho' Hb']; try done; try lia.
    { apply Heap.parent_children; lia. }
    { intros. by eapply Hch. }
    pose proof (swap_length _ _ _ _ Es).
    destruct (IH w c) as (u & -> & Hu & Hwu); try done; try lia.
    exists u. split; [done |]. split; [done |]. eapply within_trans; [| exact Hwu]. eapply within_swap; [| | exact Es]; lia.
Qed.

Lemma heap_build_spec size : forall (n : nat) v,
  size <= Z.of_nat (length v) -> 2 * size <= INT32_MAX -> Z.of_nat n <= size -> heap_from (Z.of_nat n) size v ->
  exists w, heap_build n (Z.of_nat n - 1) v size = Some w /\ Heap.ordered (before := kge) size w /\ within 0 (size - 1) v w.
Proof.
  induction n as [|n IH]; intros v Hl Hov Hn Ho; cbn [heap_build].
  - exists v. split; [done |]. split; [| apply within_refl]. eapply Heap.ordered_but_iff; [| exact Ho].
    intros k Hk Hp. cbn beta in Hp. pose proof (Heap.parent_range k). lia.
  - destruct (heapAdjust_spec (Z.of_nat n) size (S (Z.to_nat size)) v (Z.of_nat (S n) - 1)) as (w & -> & Hw & Hi); try lia.
    { eapply Heap.ordered_but_iff; [| exact Ho]. intros k Hk Hp. cbn beta in *. lia. }
    { intros Hp k. unfold Heap.parent in Hp. intros. Z.to_euclidean_division_equations; lia. }
    cbn [mbind option_bind]. replace (Z.of_nat (S n) - 1 - 1) with (Z.of_nat n - 1) by lia.
    pose proof (within_length _ _ _ _ Hi).
    destruct (IH w) as (u & -> & Hu & Hwu); [lia.. | done |]. exists u. split; [done |]. split; [done |].
    eapply within_trans; [| exact Hwu]. eapply within_weaken; [| | exact Hi]; lia.
Qed.

(** The positions after [i] hold the greatest elements, in order. *)
Definition suffix_max i n v : Prop :=
  forall a b x y, 0 <= a < b -> i < b <= n -> get v a = Some x -> get v b = Some y -> kle x y.

Lemma suffix_max_step i n v w u x y :
  0 < i <= n -> suffix_max i n v -> get v 0 = Some x -> get v i = Some y -> swap v 0 i = Some w ->
  all_in (fun z => kle z x) 0 i v -> within 0 (i - 1) w u -> suffix_max (i - 1) n u.
Proof.
  intros Hi Hm Hx Hy Hs Hmax Hw a b p q Ha Hb Hp Hq.
  pose proof (fun k => swap_get _ _ _ _ k _ _ Hs Hx Hy) as Hg. pose proof Hw as [_ Ho].
  rewrite Ho, Hg in Hq by lia. destruct (Z.eqb_spec 0 b); [lia |].
  assert (Hp' : (a <= i - 1 /\ exists a', 0 <= a' <= i /\ get v a' = Some p) \/ (i <= a /\ get w a = Some p)).
  { destruct (Z.le_gt_cases a (i - 1)); [left; split; [done |] | right; split; [lia | by rewrite <- Ho by lia]].
    destruct (within_from _ _ _ _ a p Hw ltac:(lia) Hp) as (a' & Ha' & Hp'). rewrite Hg in Hp'.
    destruct (Z.eqb_spec i a'); [lia |]. destruct (Z.eqb_spec 0 a'); [exists i; split; [lia | congruence] |].
    exists a'. split; [lia | done]. }
  destruct (Z.eqb_spec i b) as [<-|].
  - injection Hq as <-. destruct Hp' as [(_ & a' & Ha' & Hp')|[? ?]]; [| lia]. by apply (Hmax a').
  - destruct Hp' as [(_ & a' & Ha' & Hp')|[Hai Hp']]; [by apply (Hm a' b); [lia.. | |] |].
    rewrite Hg in Hp'. destruct (Z.eqb_spec i a) as [<-|].
    + injection Hp' as <-. by apply (Hm 0 b); [lia.. | |].
    + destruct (Z.eqb_spec 0 a); [lia |]. by apply (Hm a b); [lia.. | |].
Qed.

Lemma heap_extract_spec n : forall (rounds : nat) v,
  Z.of_nat rounds <= n -> n < Z.of_nat (length v) -> 2 * (n + 1) <= INT32_MAX ->
  Heap.ordered (before := kge) (Z.of_nat rounds + 1) v -> suffix_max (Z.of_nat rounds) n v ->
  exists w, heap_extract rounds (Z.of_nat rounds) v (Z.of_nat rounds + 1) = Some w /\ sorted_range 0 n v w.
Proof.
  induction rounds as [|rounds IH]; intros v Hr Hn Hov Ho Hm.
  { exists v. split; [done |]. split; [apply within_refl |]. intros a b x y Ha Hab Hb Hx Hy. by apply (Hm a b); [lia.. | |]. }
  cbn [heap_extract]. remember (Z.of_nat (S rounds)) as i eqn:Ei. replace (Z.of_nat rounds) with (i - 1) in IH by lia.
  destruct (get_is_Some v 0) as [x Hx]; [lia |]. destruct (get_is_Some v i) as [y Hy]; [lia |].
  destruct (swap v 0 i) as [w|] eqn:Es; [| by rewrite (swap_in _ _ _ x y) in Es]. cbn [mbind option_bind].
  pose proof (swap_length _ _ _ _ Es). replace (i + 1 - 1) with i by lia.
  pose proof (fun k => swap_get _ _ _ _ k _ _ Es Hx Hy) as Hg.
  destruct (heapAdjust_spec 0 i (S (Z.to_nat (i + 1))) w 0) as (u & -> & Hu & Hw); try lia.
  { intros k a b Hk Hne Ha Hb. pose proof (Heap.parent_range k ltac:(lia)). rewrite Hg in Ha, Hb.
    destruct (Z.eqb_spec i (Heap.parent k)), (Z.eqb_spec 0 (Heap.parent k)), (Z.eqb_spec i k), (Z.eqb_spec 0 k); try lia.
    by apply (Ho k); [lia | tauto | |]. }
  { intros _ k a b. lia. }
  cbn [mbind option_bind]. pose proof (within_length _ _ _ _ Hw).
  assert (Hmax : all_in (fun z => kle z x) 0 i v).
  { intros k z Hk Hz. destruct (Z.eq_dec k 0) as [->|]; [replace z with x by congruence; apply kle_refl |].
    apply kge_kle. by eapply Heap.ordered_first; [exact Ho | | | | exact Hz]; [lia | | lia]. }
  replace (i - 1 + 1) with i in IH by lia.
  destruct (IH u) as (t & -> & Ht & Hst); [lia.. | | by eapply suffix_max_step; [lia | ..] |].
  { eapply Heap.ordered_but_iff; [| exact Hu]. intros k Hk Hp.
    cbn beta in Hp. pose proof (Heap.parent_range k). lia. }
  exists t. split; [done |]. split; [| done]. eapply within_trans; [eapply within_swap; [| | exact Es]; lia |].
  eapply within_trans; [eapply within_weaken; [| | exact Hw]; lia | done].
Qed.

Lemma Q_Heap_Sort_sorts v size : size <= Z.of_nat (length v) -> 2 * size <= INT32_MAX ->
  exists w, Q_Heap_Sort v size = Some w /\ sorted_range 0 (size - 1) v w.
Proof.
  intros Hl Hov. unfold Q_Heap_Sort. destruct (Z.le_gt_cases size 0).
  { replace (Z.to_nat (Z.quot size 2)) with 0%nat by (Z.to_euclidean_division_equations; lia).
    replace (Z.to_nat (size - 1)) with 0%nat by lia. exists v. split; [done |].
    split; [apply within_refl | apply sorted_small; lia]. }
  assert (Hq : 0 <= Z.quot size 2 /\ 2 * Z.quot size 2 <= size <= 2 * Z.quot size 2 + 1)
    by (Z.to_euclidean_division_equations; lia).
  destruct (heap_build_spec size (Z.to_nat (Z.quot size 2)) v) as (w & Hb & Ho & Hw); [lia.. | |].
  { intros k a b Hk Hp. destruct Hp. rewrite Heap.parent_div by lia. Z.to_euclidean_division_equations; lia. }
  rewrite Z2Nat.id in Hb by lia. rewrite Hb. cbn [mbind option_bind]. pose proof (within_length _ _ _ _ Hw).
  destruct (heap_extract_spec (size - 1) (Z.to_nat (size - 1)) w) as (u & He & Hu & Hs); try lia.
  { replace (Z.of_nat (Z.to_nat (size - 1)) + 1) with size by lia. done. }
  { intros a b. lia. }
  rewrite Z2Nat.id in He by lia. replace (size - 1 + 1) with size in He by lia.
  exists u. split; [done |]. split; [by eapply within_trans | done].
Qed.

(** *** Merging *)

(** Taking the lesser end of a list until it is empty. *)
Fixpoint ends (n : nat) (l : list A) : list A :=
  match n, l, last l with
  | S n, x :: l', Some y => if negb (ltb y x) then x :: ends n l' else y :: ends n (take (length l') l)
  | _, _, _ => []
  end.

Lemma get_middle v1 v2 (x : A) k : k = Z.of_nat (length v1) -> get (v1 ++ x :: v2) k = Some x.
Proof. intros ->. apply get_Some. split; [lia |]. rewrite Nat2Z.id. by apply list_lookup_middle. Qed.

Lemma set_middle v1 v2 (x y : A) k : k = Z.of_nat (length v1) -> set (v1 ++ x :: v2) k y = Some (v1 ++ y :: v2).
Proof.
  intros ->. rewrite set_in by (rewrite length_app; cbn [length]; lia). f_equal. rewrite Nat2Z.id.
  rewrite insert_app_r_alt by lia. by replace (length v1 - length v1)%nat with 0%nat by lia.
Qed.

Lemma copy_up_spec : forall (B : list A) P Q P2 B2 Q2 k,
  length B2 = length B -> k = Z.of_nat (length P) -> k = Z.of_nat (length P2) ->
  copy_up (length B) k (P ++ B ++ Q) (P2 ++ B2 ++ Q2) = Some (P2 ++ B ++ Q2).
Proof.
  induction B as [|x B IH]; intros P Q P2 [|y B2] Q2 k Hl Hp Hp2; cbn [length copy_up app] in *; try done.
  rewrite get_middle by done. cbn [mbind option_bind]. rewrite set_middle by done. cbn [mbind option_bind].
  rewrite (cons_middle x P), (cons_middle x P2), !(app_assoc _ [x]).
  rewrite IH; [by rewrite <- !app_assoc | lia | rewrite length_app; cbn [length]; lia..].
Qed.

Lemma copy_back_spec : forall (B : list A) P Q P2 B2 Q2 total k,
  length B2 = length B -> k = Z.of_nat (length P) -> total - k = Z.of_nat (length P2 + length B) - 1 ->
  copy_back (length B) total k (P ++ B ++ Q) (P2 ++ B2 ++ Q2) = Some (P2 ++ reverse B ++ Q2).
Proof.
  induction B as [|x B IH]; intros P Q P2 B2 Q2 total k Hl Hp Ht; cbn [length copy_back] in *.
  { apply length_zero_iff_nil in Hl as ->. done. }
  destruct (exists_last (l := B2)) as (B2' & y & ->); [by destruct B2 |]. rewrite length_app in Hl. cbn [length] in Hl.
  cbn [app]. rewrite get_middle by done. cbn [mbind option_bind]. rewrite <- !app_assoc, (app_assoc P2). cbn [app].
  rewrite set_middle by (rewrite length_app; lia). cbn [mbind option_bind]. rewrite <- app_assoc.
  rewrite (cons_middle x P), (app_assoc P).
  rewrite IH; [| lia | rewrite length_app; cbn [length]; lia | lia].
  by rewrite reverse_cons, <- app_assoc.
Qed.

Lemma last_split (l : list A) y : last l = Some y -> exists l', l = l' ++ [y] /\ take (length l - 1) l = l'.
Proof.
  intros H. apply last_Some in H as [l' ->]. exists l'. split; [done |]. rewrite length_app. cbn [length].
  replace (length l' + 1 - 1)%nat with (length l') by lia. by rewrite take_app_length.
Qed.

Lemma merge_loop_spec : forall (n : nat) (l R P Q P1 Q1 : list A) s1 s2 t,
  length l = n -> length R = n -> s1 = Z.of_nat (length P) -> s2 = s1 + Z.of_nat n - 1 -> t = Z.of_nat (length P1) ->
  merge_loop n s1 s2 t (P1 ++ R ++ Q1) (P ++ l ++ Q) = Some (P1 ++ ends n l ++ Q1).
Proof.
  induction n as [|n IH]; intros l R P Q P1 Q1 s1 s2 t Hl HR Hs1 Hs2 Ht; cbn [merge_loop ends].
  { apply length_zero_iff_nil in HR as ->. done. }
  destruct l as [|x l]; [done |]. destruct R as [|z R]; [done |]. cbn [length] in *.
  destruct (last (x :: l)) as [y|] eqn:Ey; [| by apply last_None in Ey].
  apply last_split in Ey as (l' & El & Htake). cbn [length] in Htake.
  assert (Hl' : length l' = n) by (apply (f_equal length) in El; rewrite length_app in El; cbn [length] in El; lia).
  replace (S (length l) - 1)%nat with (length l) in Htake by lia. rewrite Htake.
  assert (Hy : get (P ++ (x :: l) ++ Q) s2 = Some y).
  { rewrite El, <- app_assoc, app_assoc. cbn [app]. apply get_middle. rewrite length_app. lia. }
  rewrite Hy. cbn [app]. rewrite get_middle by done. cbn [mbind option_bind].
  destruct (negb (ltb y x)); rewrite set_middle by done; cbn [mbind option_bind].
  - rewrite (cons_middle x P), (cons_middle x P1), !(app_assoc _ [x]).
    rewrite IH; [by rewrite <- !app_assoc | lia | lia | rewrite length_app; cbn [length]; lia | lia
      | rewrite length_app; cbn [length]; lia].
  - change (P ++ x :: l ++ Q) with (P ++ (x :: l) ++ Q). rewrite El, <- app_assoc.
    rewrite (cons_middle y P1), !(app_assoc P1 [y]).
    rewrite IH; [by rewrite <- !app_assoc | lia | lia | lia | lia | rewrite length_app; cbn [length]; lia].
Qed.

Lemma improvedMerge_spec (P B C Q P2 B2 C2 Q2 : list A) m mid n :
  m = Z.of_nat (length P) -> length P2 = length P -> mid = m + Z.of_nat (length B) - 1 -> n = mid + Z.of_nat (length C) ->
  length B2 = length B -> length C2 = length C ->
  improvedMerge (P ++ B ++ C ++ Q) (P2 ++ B2 ++ C2 ++ Q2) m mid n =
  Some (P ++ ends (length (B ++ C)) (B ++ reverse C) ++ Q, P2 ++ B ++ reverse C ++ Q2).
Proof.
  intros Hm Hp Hmid Hn HB HC. unfold improvedMerge.
  replace (Z.to_nat (mid - m + 1)) with (length B) by lia. rewrite copy_up_spec by lia. cbn [mbind option_bind].
  replace (Z.to_nat (n - mid)) with (length C) by lia. rewrite !(app_assoc _ B).
  rewrite copy_back_spec by (rewrite ?length_app; lia). cbn [mbind option_bind].
  replace (Z.to_nat (n - m + 1)) with (length (B ++ C)) by (rewrite length_app; lia). rewrite <- !app_assoc.
  rewrite (app_assoc B C), (app_assoc B (reverse C)).
  rewrite merge_loop_spec by (rewrite ?length_app, ?length_reverse; lia). by rewrite <- app_assoc.
Qed.

Lemma ends_perm : forall (n : nat) (l : list A), length l = n -> ends n l ≡ₚ l.
Proof.
  induction n as [|n IH]; intros l Hl; cbn [ends]; [by apply length_zero_iff_nil in Hl as -> |].
  destruct l as [|x l]; [done |]. destruct (last (x :: l)) as [y|] eqn:Ey; [| by apply last_None in Ey].
  apply last_split in Ey as (l' & El & Htake). cbn [length] in *.
  replace (S (length l) - 1)%nat with (length l) in Htake by lia. rewrite Htake.
  destruct (negb (ltb y x)); [rewrite IH by lia; done |]. rewrite El, IH.
  - by rewrite Permutation_app_comm.
  - apply (f_equal length) in El. rewrite length_app in El. cbn [length] in El. lia.
Qed.

(** No element lies above both one on its left and one on its right. *)
Definition valley (l : list A) : Prop :=
  forall (i j k : nat) (x y z : A), (i < j < k)%nat -> l !! i = Some x -> l !! j = Some y -> l !! k = Some z -> kle x y \/ kle z y.

Lemma valley_app l1 l2 : StronglySorted kle l1 -> StronglySorted kle l2 -> valley (l1 ++ reverse l2).
Proof.
  intros H1 H2 i j k x y z Hijk Hx Hy Hz.
  assert (Hmono : forall (l : list A) (a b : nat) p q, StronglySorted kle l -> (a < b)%nat -> l !! a = Some p -> l !! b = Some q -> kle p q).
  { intros l a b p q Hs. revert a b. induction Hs as [|u l Hs IH Hall]; intros a b Hab Hp Hq; [done |].
    destruct b; [lia |]. destruct a; [| apply (IH a b); [lia | done | done]].
    injection Hp as <-. by eapply (Forall_lookup_1 _ _ _ _ Hall). }
  destruct (decide (j < length l1)%nat).
  - left. rewrite lookup_app_l in Hx, Hy by lia. by apply (Hmono l1 i j); [done | lia | |].
  - right. pose proof (lookup_lt_Some _ _ _ Hz) as Hk. rewrite length_app, length_reverse in Hk.
    rewrite lookup_app_r in Hy, Hz by lia. rewrite reverse_lookup in Hy, Hz by lia.
    eapply (Hmono l2 _ _ z y); [done | | exact Hz | exact Hy]. lia.
Qed.

Lemma valley_tail x l : valley (x :: l) -> valley l.
Proof. intros H i j k a b c Hijk Ha Hb Hc. by apply (H (S i) (S j) (S k)); [lia | ..]. Qed.

Lemma valley_front l y : valley (l ++ [y]) -> valley l.
Proof. intros H i j k a b c Hijk Ha Hb Hc. apply (H i j k); [lia | by apply lookup_app_l_Some..]. Qed.

(** The lesser end of a valley is its least element. *)
Lemma valley_least l z x y l' : valley (x :: l) -> x :: l = l' ++ [y] -> z ∈ x :: l -> kle x z \/ kle y z.
Proof.
  intros Hv El Hz. apply list_elem_of_lookup in Hz as [j Hj].
  destruct j as [|j]; [injection Hj as <-; left; apply kle_refl |].
  assert (Hy : (x :: l) !! length l' = Some y) by (rewrite El; by apply list_lookup_middle).
  destruct (decide (S j < length l')%nat).
  - by apply (Hv 0%nat (S j) (length l') x z y); [lia | ..].
  - right. pose proof (lookup_lt_Some _ _ _ Hj) as Hlt. rewrite El, length_app in Hlt. cbn [length] in Hlt.
    replace (S j) with (length l') in Hj by lia. replace z with y by congruence. apply kle_refl.
Qed.

Lemma ends_sorted : forall (n : nat) (l : list A), length l = n -> valley l -> StronglySorted kle (ends n l).
Proof.
  induction n as [|n IH]; intros l Hl Hv; cbn [ends]; [constructor |].
  destruct l as [|x l]; [done |]. destruct (last (x :: l)) as [y|] eqn:Ey; [| by apply last_None in Ey].
  apply last_split in Ey as (l' & El & Htake). cbn [length] in *.
  replace (S (length l) - 1)%nat with (length l) in Htake by lia. rewrite Htake.
  assert (Hl' : length l' = n) by (apply (f_equal length) in El; rewrite length_app in El; cbn [length] in El; lia).
  destruct (ltb y x) eqn:E; cbn [negb]; constructor.
  - apply IH; [done |]. apply (valley_front _ y). by rewrite <- El.
  - apply Forall_forall. intros z Hz. rewrite ends_perm in Hz by done.
    destruct (valley_least l z x y l' Hv El) as [H|H]; [rewrite El; by apply elem_of_app; left | | done].
    transitivity x; [by apply ltb_kle | done].
  - apply IH; [lia |]. by eapply valley_tail.
  - apply Forall_forall. intros z Hz. rewrite ends_perm in Hz by lia.
    destruct (valley_least l z x y l' Hv El) as [H|H]; [by apply list_elem_of_further | done |]. by transitivity y.
Qed.

Lemma split_lengths (v : list A) : forall n : nat, (n <= length v)%nat -> exists v1 v2, v = v1 ++ v2 /\ length v1 = n.
Proof. intros n Hn. exists (take n v), (drop n v). split; [by rewrite take_drop | rewrite length_take; lia]. Qed.

Lemma doSort_permutes : forall (fuel : nat) (P M Q v2 : list A) m n,
  (length M < fuel)%nat -> m = Z.of_nat (length P) -> n = m + Z.of_nat (length M) - 1 -> 2 * n <= INT32_MAX ->
  length v2 = length (P ++ M ++ Q) ->
  exists M' v2', doSort fuel (P ++ M ++ Q) v2 m n = Some (P ++ M' ++ Q, v2') /\ M' ≡ₚ M /\ length v2' = length v2.
Proof.
  induction fuel as [|fuel IH]; intros P M Q v2 m n Hf Hm Hn Hov Hl; [lia |]. cbn [doSort].
  destruct (Z.leb_spec n m); [by exists M, v2 |]. destruct (Z.ltb_spec (n - m + 1) 20); [by exists M, v2 |].
  rewrite i32_small by (unfold is_i32, INT32_MIN; lia).
  assert (Hmid : m <= Z.quot (m + n) 2 < n) by (Z.to_euclidean_division_equations; lia).
  set (mid := Z.quot (m + n) 2) in *.
  destruct (split_lengths M (Z.to_nat (mid - m + 1))) as (B & C & -> & HB); [lia |]. rewrite length_app in Hf, Hn.
  rewrite <- app_assoc in Hl |- *. rewrite !length_app in Hl.
  destruct (IH P B (C ++ Q) v2 m mid) as (B' & w2 & -> & HpB & Hw2); [lia.. | rewrite !length_app; lia |].
  cbn [mbind option_bind]. pose proof (Permutation_length HpB). rewrite (app_assoc P B').
  destruct (IH (P ++ B') C Q w2 (mid + 1) n) as (C' & u2 & -> & HpC & Hu2);
    [lia | rewrite length_app; lia | lia | lia | rewrite !length_app; lia |].
  cbn [mbind option_bind]. pose proof (Permutation_length HpC). rewrite <- app_assoc.
  destruct (split_lengths u2 (length P)) as (P2 & r & -> & HP2); [lia |]. rewrite length_app in *.
  destruct (split_lengths r (length B')) as (B2 & r' & -> & HB2); [lia |]. rewrite length_app in *.
  destruct (split_lengths r' (length C')) as (C2 & Q2 & -> & HC2); [lia |]. rewrite length_app in *.
  rewrite improvedMerge_spec by lia.
  exists (ends (length (B' ++ C')) (B' ++ reverse C')), (P2 ++ B' ++ reverse C' ++ Q2). split; [done |]. split.
  - rewrite ends_perm by (by rewrite !length_app, length_reverse). by rewrite reverse_Permutation, HpB, HpC.
  - rewrite !length_app, length_reverse. lia.
Qed.

(** *** Binary search of a sorted array *)

Lemma binary_loop_ext (b1 b2 a1 a2 : A -> bool) : (forall x, b1 x = b2 x) -> (forall x, a1 x = a2 x) ->
  forall fuel lBegin lEnd v, binary_loop b1 a1 fuel lBegin lEnd v = binary_loop b2 a2 fuel lBegin lEnd v.
Proof.
  intros Hb Ha. induction fuel as [|fuel IH]; intros lBegin lEnd v; cbn [binary_loop]; [done |].
  destruct (lEnd <? lBegin); [done |]. destruct (get v _) as [x|]; [| done]. cbn [mbind option_bind].
  by rewrite Hb, Ha, !IH.
Qed.

Lemma binary_recursion_loop tKey v r : forall (fuel fuel' : nat) lBegin lEnd, (fuel < fuel')%nat ->
  binary_loop (fun x => ltb x tKey) (fun x => gtb x tKey) fuel lBegin lEnd v = Some r ->
  binary_recursion fuel' lBegin lEnd v tKey = Some r.
Proof.
  induction fuel as [|fuel IH]; intros [|fuel'] lBegin lEnd Hf Hr; try lia; cbn [binary_loop binary_recursion] in *;
    (destruct (lEnd <? lBegin); [done |]); [done |].
  destruct (get v _) as [x|]; [| done]. cbn [mbind option_bind] in *.
  destruct (ltb x tKey); [apply IH; [lia | done] |]. destruct (gtb x tKey); [apply IH; [lia | done] | done].
Qed.

Lemma Compare_Key_Default_spec x y :
  (Compare_Key_Default x y <? 0) = ltb x y /\ (0 <? Compare_Key_Default x y) = gtb x y.
Proof.
  unfold Compare_Key_Default, gtb. destruct (ltb y x) eqn:E; [by rewrite (ltb_asym _ _ E) |].
  by destruct (ltb x y).
Qed.

Lemma sorted_split tKey m n v : sorted_in kle m n v ->
  split_by (fun x => ltb x tKey) (fun x => gtb x tKey) m n v.
Proof.
  intros Hs i j x y Hi Hij Hj Hx Hy. unfold gtb. pose proof (Hs i j x y Hi Hij Hj Hx Hy). split; intros.
  - by apply (kle_ltb _ y).
  - by apply (ltb_kle_trans _ x).
Qed.

(** The three binary searches of a sorted range agree, stop, and read
    nothing out of it: they return a position whose element is neither less nor
    greater than the key, or -1 when every element of the range is less or
    greater. *)
Theorem binary_searches m n v tKey :
  0 <= m -> n < Z.of_nat (length v) -> 2 * n <= INT32_MAX -> sorted_in kle m n v ->
  exists r, Q_Binary_Search_Default m n v tKey = Some r /\ Q_Binary_Search_Recursion m n v tKey = Some r /\
    Q_Binary_Search_Custom Compare_Key_Default m n v tKey = Some r /\
    ((exists x, m <= r <= n /\ get v r = Some x /\ Compare_Key_Default x tKey = 0) \/
     (r = -1 /\ all_in (fun x => Compare_Key_Default x tKey <> 0) m n v)).
Proof.
  intros Hm Hn Hov Hs.
  destruct (binary_loop_spec (fun x => ltb x tKey) (fun x => gtb x tKey) v (binary_fuel m n) m n)
    as (r & Hr & Hcase); [intros x; apply ltb_asym | done | done | done | unfold binary_fuel; lia | by apply sorted_split |].
  exists r. unfold Q_Binary_Search_Default, Q_Binary_Search_Custom, Q_Binary_Search_Recursion.
  rewrite (binary_recursion_loop _ _ r _ _ _ _ (Nat.lt_succ_diag_r _) Hr).
  rewrite (binary_loop_ext (fun x => Compare_Key_Default x tKey <? 0) (fun x => ltb x tKey)
    (fun x => 0 <? Compare_Key_Default x tKey) (fun x => gtb x tKey)) by (intros x; apply Compare_Key_Default_spec).
  rewrite Hr. assert (Hneg : (if n <? m then Some (-1) else Some r) = Some r).
  { destruct (Z.ltb_spec n m); [| done]. destruct Hcase as [(x & ? & _)|[-> _]]; [lia | done]. }
  split; [done |]. split; [done |]. split; [done |]. unfold Compare_Key_Default.
  destruct Hcase as [(x & Hx & Hg & Hb & Ha)|[-> Hno]]; [left; exists x; by rewrite Ha, Hb | right; split; [done |]].
  intros k x Hk Hx. destruct (Hno k x Hk Hx) as [H|H]; [| by rewrite H]. unfold gtb. by rewrite (ltb_asym _ _ H), H.
Qed.

(** The bubble, binary insertion, Shell and selection sorts of a range, and
    the heap sort of a prefix, stop, stay inside it, permute it and leave it in
    order; the rest of the array is as it was. *)
Theorem simple_sorts v m n :
  0 <= m -> n < Z.of_nat (length v) -> 2 * (n + 1) <= INT32_MAX ->
  (exists w, Q_Bubble_Sort_Improved v m n = Some w /\ sorted_range m n v w) /\
  (exists w, Q_Insert_Sort v m n = Some w /\ sorted_range m n v w) /\
  (exists w, Q_Shell_Sort v m n = Some w /\ sorted_range m n v w) /\
  (exists w, Q_Slect_Sort v m n = Some w /\ sorted_range m n v w) /\
  (exists w, Q_Heap_Sort v (n + 1) = Some w /\ sorted_range 0 n v w).
Proof.
  intros Hm Hn Hov. split; [by apply Q_Bubble_Sort_sorts |]. split; [apply Q_Insert_Sort_sorts; lia |].
  split; [by apply Q_Shell_Sort_sorts |]. split; [by apply Q_Slect_Sort_sorts |].
  destruct (Q_Heap_Sort_sorts v (n + 1)) as (w & Hw & Hs); [lia.. |]. replace (n + 1 - 1) with n in Hs by lia. by exists w.
Qed.

(** [improvedMerge] of two sorted runs [B] and [C] leaves their elements in
    order in place of them and nothing else of the array changed, whatever the
    scratch array holds; [doSort] of a range returns and permutes it. *)
Theorem improvedMerge_merges (P B C Q v2 : list A) :
  length v2 = length (P ++ B ++ C ++ Q) -> 2 * Z.of_nat (length v2) <= INT32_MAX ->
  StronglySorted kle B -> StronglySorted kle C ->
  let m := Z.of_nat (length P) in
  let mid := m + Z.of_nat (length B) - 1 in
  let n := mid + Z.of_nat (length C) in
  (exists M v2', improvedMerge (P ++ B ++ C ++ Q) v2 m mid n = Some (P ++ M ++ Q, v2') /\
     M ≡ₚ B ++ C /\ StronglySorted kle M /\ length v2' = length v2) /\
  (exists M v2', doSort (S (length (B ++ C))) (P ++ B ++ C ++ Q) v2 m n = Some (P ++ M ++ Q, v2') /\
     M ≡ₚ B ++ C /\ length v2' = length v2).
Proof.
  intros Hl Hov HB HC m mid n. rewrite !length_app in Hl. split.
  - destruct (split_lengths v2 (length P)) as (P2 & r & -> & HP2); [lia |]. rewrite length_app in *.
    destruct (split_lengths r (length B)) as (B2 & r' & -> & HB2); [lia |]. rewrite length_app in *.
    destruct (split_lengths r' (length C)) as (C2 & Q2 & -> & HC2); [lia |]. rewrite length_app in *.
    rewrite improvedMerge_spec by lia. assert (Hbc : length (B ++ reverse C) = length (B ++ C))
      by (by rewrite !length_app, length_reverse).
    eexists _, _. split; [done |]. split; [rewrite ends_perm by done; by rewrite reverse_Permutation |].
    split; [by apply ends_sorted, valley_app |]. rewrite !length_app, length_reverse. lia.
  - rewrite (app_assoc B C Q). subst m mid n. apply doSort_permutes; rewrite ?length_app; lia.
Qed.

End sorting.

Lemma binary_searches_witness :
  sorted_in kle 1 5 [9; -4; 0; 3; 3; 8] /\
  exists r, Q_Binary_Search_Default 1 5 [9; -4; 0; 3; 3; 8] 3 = Some r /\
    Q_Binary_Search_Recursion 1 5 [9; -4; 0; 3; 3; 8] 3 = Some r /\
    Q_Binary_Search_Custom Compare_Key_Default 1 5 [9; -4; 0; 3; 3; 8] 3 = Some r.
Proof.
  assert (Hs : sorted_in kle 1 5 [9; -4; 0; 3; 3; 8]).
  { intros i j x y Hi Hij Hj Hx Hy.
    assert (Hi' : i = 1 \/ i = 2 \/ i = 3 \/ i = 4) by lia. assert (Hj' : j = 2 \/ j = 3 \/ j = 4 \/ j = 5) by lia.
    destruct Hi' as [->|[->|[->| ->]]], Hj' as [->|[->|[->| ->]]]; vm_compute in Hx, Hy; simplify_eq; try lia; reflexivity. }
  split; [exact Hs |].
  destruct (binary_searches 1 5 [9; -4; 0; 3; 3; 8] 3 ltac:(lia) ltac:(reflexivity) ltac:(reflexivity || (unfold INT32_MAX; lia)) Hs)
    as (r & H1 & H2 & H3 & _).
  exists r. auto.
Defined.

Lemma simple_sorts_witness :
  exists w, Q_Shell_Sort [5; 2; 9; 2; 7; 1] 1 5 = Some w /\ w = [5; 1; 2; 2; 7; 9] /\
    sorted_range 1 5 [5; 2; 9; 2; 7; 1] w.
Proof.
  destruct (simple_sorts [5; 2; 9; 2; 7; 1] 1 5 ltac:(lia) ltac:(cbn; lia) ltac:(unfold INT32_MAX; lia))
    as (_ & _ & (w & Hw & Hs) & _).
  exists w. split; [exact Hw |]. split; [| exact Hs]. vm_compute in Hw. congruence.
Defined.

Lemma improvedMerge_merges_witness :
  exists M v2', improvedMerge [4; 2; 6; 1; 6; 7; 0] [0; 0; 0; 0; 0; 0; 0] 1 2 5 = Some ([4] ++ M ++ [0], v2') /\
    M = [1; 2; 6; 6; 7].
Proof.
  destruct (improvedMerge_merges [4] [2; 6] [1; 6; 7] [0] [0; 0; 0; 0; 0; 0; 0]) as [(M & v2' & H & Hp & _) _];
    [reflexivity | unfold INT32_MAX; cbn; lia | repeat constructor | repeat constructor |].
  exists M, v2'. split; [exact H |]. vm_compute in H. injection H as H _.
  by apply (app_inv_tail [0]).
Defined.

(** Among equal elements the merge may exchange two of the right run. *)
Example improvedMerge_unstable :
  let first : Key (Z * Z) := fun a b => a.1 <? b.1 in
  @improvedMerge _ first [(1, 0); (5, 1); (5, 2)] [(0, 0); (0, 0); (0, 0)] 0 0 2
  = Some ([(1, 0); (5, 2); (5, 1)], [(1, 0); (5, 2); (5, 1)]).
Proof. vm_compute. reflexivity. Qed.

End Sorts.
