(* ===== verification/QuickSort.v ===== *)
(** * Quick sort: src/include/common/qalgorithm.h

    [median3], [partition], [Q_Quick_Sort] and the three-way [Q_Quick_Sort_3].
    The endless loop of [partition] is a sequence of rounds on a [status], so that
    "the loop does not end" is a statement of its own.  [Q_Quick_Sort] is what
    [QVector::sort] calls. *)

From S2P Require Import Prelude Arrays Heap Sorts.
Import Arrays Sorts.

Module QuickSort.

Section definitions.
Context {A : Type} {key : Key A}.
Implicit Types (v : list A) (pivot : A) (lBegin lEnd i j k : Z).

Definition median3 v lBegin lEnd : option (list A * A) :=
  let mid := Z.quot (i32 (lBegin + lEnd)) 2 in
  x ← get v mid;
  y ← get v lBegin;
  let k := if ltb x y then mid else lBegin in
  x ← get v lEnd;
  y ← get v k;
  let k := if ltb x y then lEnd else k in
  v ← (if negb (k =? lBegin) then swap v k lBegin else Some v);
  v ← (if negb (mid =? lEnd) then
         x ← get v mid;
         y ← get v lEnd;
         if ltb x y then swap v mid lEnd else Some v
       else Some v);
  pivot ← get v lEnd;
  Some (v, pivot).

(** [while(i<j&&v[i]<pivot) i++]; [n] is [j-i]. *)
Fixpoint rise (n : nat) pivot v i : option Z :=
  match n with
  | O => Some i
  | S n => x ← get v i; if ltb x pivot then rise n pivot v (i + 1) else Some i
  end.

(** [while(i<j&&pivot<v[j]) j--]; [n] is [j-i]. *)
Fixpoint sink (n : nat) pivot v j : option Z :=
  match n with
  | O => Some j
  | S n => x ← get v j; if ltb pivot x then sink n pivot v (j - 1) else Some j
  end.

(** [Q_FOREVER]: a running loop with its [i] and [j], or one left by [break]. *)
Inductive status : Type :=
  | Running (v : list A) (i j : Z)
  | Broke (v : list A) (i : Z).

Definition partition_round pivot v i j : option status :=
  i ← rise (Z.to_nat (j - i)) pivot v i;
  j ← sink (Z.to_nat (j - i)) pivot v j;
  if i <? j then v ← swap v i j; Some (Running v i j) else Some (Broke v i).

Fixpoint partition_rounds (n : nat) pivot (st : status) : option status :=
  match n, st with
  | S n, Running v i j => st ← partition_round pivot v i j; partition_rounds n pivot st
  | _, _ => Some st
  end.

Definition partition (fuel : nat) v lBegin lEnd : option (list A * Z) :=
  if lBegin <? lEnd then
    '(v, pivot) ← median3 v lBegin lEnd;
    match partition_rounds fuel pivot (Running v lBegin (lEnd - 1)) with
    | Some (Broke v i) =>
        x ← get v i;
        if gtb x pivot then v ← set v lEnd x; v ← set v i pivot; Some (v, i) else Some (v, i)
    | _ => None
    end
  else Some (v, lBegin).

Fixpoint Q_Quick_Sort (fuel : nat) v lBegin lEnd : option (list A) :=
  match fuel with
  | O => None
  | S fuel =>
      if lEnd - lBegin <=? 20 then Q_Insert_Sort v lBegin lEnd
      else
        match partition fuel v lBegin lEnd with
        | None => None
        | Some (v, pivotpos) =>
            v ← Q_Quick_Sort fuel v lBegin (pivotpos - 1);
            Q_Quick_Sort fuel v (pivotpos + 1) lEnd
        end
  end.

(** ** The three-way version *)

Variable eqb : A -> A -> bool.

(** [while(v[++i]<pivot) if(i==j) break] *)
Fixpoint rise_3 (fuel : nat) pivot v i j : option Z :=
  match fuel with
  | O => None
  | S fuel =>
      let i := i + 1 in
      x ← get v i;
      if ltb x pivot then if i =? j then Some i else rise_3 fuel pivot v i j else Some i
  end.

(** [while(pivot<v[--j]) if(j==i) break] *)
Fixpoint sink_3 (fuel : nat) pivot v i j : option Z :=
  match fuel with
  | O => None
  | S fuel =>
      let j := j - 1 in
      x ← get v j;
      if ltb pivot x then if j =? i then Some j else sink_3 fuel pivot v i j else Some j
  end.

Fixpoint partition_3 (fuel : nat) pivot v i j p q : option (list A * Z * Z * Z) :=
  match fuel with
  | O => None
  | S fuel =>
      i ← rise_3 (S (length v)) pivot v i j;
      j ← sink_3 (S (length v)) pivot v i j;
      if j <=? i then Some (v, i, p, q)
      else
        v ← swap v i j;
        x ← get v i;
        '(v, p) ← (if eqb x pivot then v ← swap v (p + 1) i; Some (v, p + 1) else Some (v, p));
        x ← get v j;
        '(v, q) ← (if eqb pivot x then v ← swap v (q - 1) j; Some (v, q - 1) else Some (v, q));
        partition_3 fuel pivot v i j p q
  end.

(** [for(k=1; k<=p; k++, j--)], [n] rounds. *)
Fixpoint gather_left (n : nat) k j v : option (list A * Z) :=
  match n with
  | O => Some (v, j)
  | S n => v ← swap v k j; gather_left n (k + 1) (j - 1) v
  end.

(** [for(k=lEnd-1; k>=q; k--, i++)], [n] rounds. *)
Fixpoint gather_right (n : nat) k i v : option (list A * Z) :=
  match n with
  | O => Some (v, i)
  | S n => v ← swap v k i; gather_right n (k - 1) (i + 1) v
  end.

Fixpoint Q_Quick_Sort_3 (fuel : nat) v lBegin lEnd : option (list A) :=
  match fuel with
  | O => None
  | S fuel =>
      if lEnd <=? lBegin then Some v
      else
        pivot ← get v lEnd;
        match partition_3 fuel pivot v (lBegin - 1) lEnd (lBegin - 1) lEnd with
        | None => None
        | Some (v, i, p, q) =>
            v ← swap v i lEnd;
            let j := i - 1 in
            let i := i + 1 in
            '(v, j) ← gather_left (Z.to_nat p) 1 j v;
            '(v, i) ← gather_right (Z.to_nat (lEnd - q)) (lEnd - 1) i v;
            v ← Q_Quick_Sort_3 fuel v lBegin j;
            Q_Quick_Sort_3 fuel v i lEnd
        end
  end.

End definitions.

(** ** Sorting without a key that occurs three times *)

Section sorting.
Context {A : Type} {key : Key A} {laws : KeyLaws A}.
Implicit Types (v w : list A) (pivot x y z : A) (m n i j k : Z).

Definition same x y : Prop := kle x y /\ kle y x.

Definition at_most_twice v : Prop := forall x y z l, v ≡ₚ x :: y :: z :: l -> same x y -> same y z -> False.

Lemma at_most_twice_perm v w : w ≡ₚ v -> at_most_twice v -> at_most_twice w.
Proof. intros Hp H x y z l Hw. apply (H x y z l). by rewrite <- Hp. Qed.

Lemma at_most_twice_get v i j k x y z : at_most_twice v -> i < j < k ->
  get v i = Some x -> get v j = Some y -> get v k = Some z -> same x y -> same y z -> False.
Proof.
  intros H Hijk Hx Hy Hz. apply get_Some in Hx as [? Hx], Hy as [? Hy], Hz as [? Hz].
  apply (H x y z (delete (Z.to_nat i) (delete (Z.to_nat j) (delete (Z.to_nat k) v)))).
  etransitivity; [by apply (delete_Permutation v (Z.to_nat k) z) |]. remember (delete (Z.to_nat k) v) as v1 eqn:E1.
  assert (Hy1 : v1 !! Z.to_nat j = Some y) by (subst; rewrite list_lookup_delete_lt by lia; done).
  assert (Hx1 : delete (Z.to_nat j) v1 !! Z.to_nat i = Some x) by (subst; rewrite !list_lookup_delete_lt by lia; done).
  apply delete_Permutation in Hx1, Hy1. rewrite Hx1 in Hy1. rewrite Hy1 at 1. clear.
  solve_Permutation.
Qed.

Lemma median3_spec v m n : 0 <= m < n -> n < Z.of_nat (length v) -> 2 * n <= INT32_MAX ->
  exists w pivot, median3 v m n = Some (w, pivot) /\ within m n v w /\ get w n = Some pivot /\
    exists k x, m <= k < n /\ get w k = Some x /\ kle pivot x.
Proof.
  intros Hm Hn Hov. unfold median3. rewrite i32_small by (unfold is_i32, INT32_MIN; lia).
  assert (Hmid : m <= Z.quot (m + n) 2 < n) by (Z.to_euclidean_division_equations; lia). set (mid := Z.quot _ 2) in *.
  destruct (get_is_Some v mid) as [x Hx]; [lia |]. destruct (get_is_Some v m) as [y Hy]; [lia |].
  rewrite Hx, Hy. cbn [mbind option_bind].
  assert (Hk : m <= (if ltb x y then mid else m) <= n) by (destruct (ltb x y); lia). set (k := if ltb x y then mid else m) in *.
  destruct (get_is_Some v n) as [x' Hx']; [lia |]. destruct (get_is_Some v k) as [y' Hy']; [lia |].
  rewrite Hx', Hy'. cbn [mbind option_bind].
  assert (Hk' : m <= (if ltb x' y' then n else k) <= n) by (destruct (ltb x' y'); lia).
  set (k' := if ltb x' y' then n else k) in *.
  assert (exists u, (if negb (k' =? m) then swap v k' m else Some v) = Some u /\ within m n v u) as (u & -> & Hu).
  { destruct (negb (k' =? m)); [| exists v; split; [done | apply within_refl]].
    destruct (get_is_Some v k') as [z Hz]; [lia |]. rewrite (swap_in _ _ _ z y) by done. eexists. split; [done |].
    eapply within_swap; [| | by apply swap_in]; lia. }
  cbn [mbind option_bind]. destruct (Z.eqb_spec mid n); [lia |]. cbn [negb]. pose proof (within_length _ _ _ _ Hu).
  destruct (get_is_Some u mid) as [a Ha]; [lia |]. destruct (get_is_Some u n) as [b Hb]; [lia |].
  rewrite Ha, Hb. cbn [mbind option_bind]. destruct (ltb a b) eqn:E.
  - destruct (swap u mid n) as [w|] eqn:Es; [| by rewrite (swap_in _ _ _ a b) in Es]. cbn [mbind option_bind].
    pose proof (fun k => swap_get _ _ _ _ k _ _ Es Ha Hb) as Hg.
    assert (Hwn : get w n = Some a) by (by rewrite Hg, Z.eqb_refl). rewrite Hwn. cbn [mbind option_bind].
    exists w, a. split; [done |]. split; [| split; [done |]].
    + eapply within_trans; [exact Hu |]. eapply within_swap; [| | exact Es]; lia.
    + exists mid, b. split; [lia |]. rewrite Hg, Z.eqb_refl. destruct (Z.eqb_spec n mid); [lia |].
      split; [done | by apply ltb_kle].
  - cbn [mbind option_bind]. rewrite Hb. cbn [mbind option_bind]. exists u, b. split; [done |]. split; [done |].
    split; [done |]. exists mid, a. split; [lia | done].
Qed.

Lemma rise_spec pivot v : forall (n : nat) i, 0 <= i -> i + Z.of_nat n < Z.of_nat (length v) ->
  exists i', rise n pivot v i = Some i' /\ i <= i' <= i + Z.of_nat n /\
    all_in (fun x => ltb x pivot = true) i (i' - 1) v /\
    (i' < i + Z.of_nat n -> forall x, get v i' = Some x -> kle pivot x).
Proof.
  induction n as [|n IH]; intros i Hi Hn; cbn [rise].
  { exists i. split; [done |]. split; [lia |]. split; [intros k x Hk; lia | lia]. }
  destruct (get_is_Some v i) as [x Hx]; [lia |]. rewrite Hx. cbn [mbind option_bind]. destruct (ltb x pivot) eqn:E.
  - destruct (IH (i + 1)) as (i' & -> & Hi' & Hall & Hge); [lia.. |]. exists i'. split; [done |]. split; [lia |].
    split; [| intros; apply Hge; [lia | done]]. intros k y Hk Hy.
    destruct (Z.eq_dec k i) as [->|]; [congruence | apply (Hall k); [lia | done]].
  - exists i. split; [done |]. split; [lia |]. split; [intros k y Hk; lia |]. intros _ y Hy. by replace y with x by congruence.
Qed.

Lemma sink_spec pivot v : forall (n : nat) j, 0 <= j - Z.of_nat n -> j < Z.of_nat (length v) ->
  exists j', sink n pivot v j = Some j' /\ j - Z.of_nat n <= j' <= j /\
    all_in (fun x => ltb pivot x = true) (j' + 1) j v /\
    (j - Z.of_nat n < j' -> forall x, get v j' = Some x -> kle x pivot).
Proof.
  induction n as [|n IH]; intros j Hj Hn; cbn [sink].
  { exists j. split; [done |]. split; [lia |]. split; [intros k x Hk; lia | lia]. }
  destruct (get_is_Some v j) as [x Hx]; [lia |]. rewrite Hx. cbn [mbind option_bind]. destruct (ltb pivot x) eqn:E.
  - destruct (IH (j - 1)) as (j' & -> & Hj' & Hall & Hge); [lia.. |]. exists j'. split; [done |]. split; [lia |].
    split; [| intros; apply Hge; [lia | done]]. intros k y Hk Hy.
    destruct (Z.eq_dec k j) as [->|]; [congruence | apply (Hall k); [lia | done]].
  - exists j. split; [done |]. split; [lia |]. split; [intros k y Hk; lia |]. intros _ y Hy. by replace y with x by congruence.
Qed.

(** The loop of [partition] on the range [m] to [n] with the pivot at [n]. *)
Record running m n pivot v i j : Prop := {
  run_range : 0 <= m <= i /\ i <= j < n /\ n < Z.of_nat (length v);
  run_pivot : get v n = Some pivot;
  run_below : all_in (fun x => ltb x pivot = true) m (i - 1) v;
  run_above : all_in (fun x => ltb pivot x = true) (j + 1) (n - 1) v;
  run_end : j = n - 1 \/ forall x, get v j = Some x -> kle pivot x;
  run_some : exists k x, m <= k < n /\ get v k = Some x /\ kle pivot x;
  run_twice : at_most_twice v
}.

(** The next round moves [i] or [j]. *)
Definition moving pivot v i j : Prop :=
  (exists x, get v i = Some x /\ ltb x pivot = true) \/ (exists x, get v j = Some x /\ ltb pivot x = true).

(** Where the loop stops. *)
Definition stopped m n pivot v i : Prop :=
  m <= i < n /\ all_in (fun x => ltb x pivot = true) m (i - 1) v /\
  all_in (fun x => ltb pivot x = true) (i + 1) (n - 1) v /\ (forall x, get v i = Some x -> kle pivot x).

Lemma running_swap m n pivot v i j w x y :
  0 <= m <= i -> i < j < n -> n < Z.of_nat (length v) -> get v n = Some pivot -> at_most_twice v ->
  all_in (fun x => ltb x pivot = true) m (i - 1) v -> all_in (fun x => ltb pivot x = true) (j + 1) (n - 1) v ->
  get v i = Some x -> get v j = Some y -> kle pivot x -> kle y pivot ->
  swap v i j = Some w -> running m n pivot w i j /\ moving pivot w i j.
Proof.
  intros Hm Hij Hn Hp Ht Hb Ha Hx Hy Hpx Hyp Es.
  pose proof (fun k => swap_get _ _ _ _ k _ _ Es Hx Hy) as Hg.
  assert (Hwi : get w i = Some y) by (rewrite Hg, Z.eqb_refl; destruct (Z.eqb_spec j i); [lia | done]).
  assert (Hwj : get w j = Some x) by (by rewrite Hg, Z.eqb_refl).
  assert (Hout : forall k, k <> i -> k <> j -> get w k = get v k)
    by (intros k ? ?; rewrite Hg; destruct (Z.eqb_spec j k), (Z.eqb_spec i k); congruence).
  split; [constructor |].
  - rewrite (swap_length _ _ _ _ Es). lia.
  - rewrite Hout by lia. done.
  - intros k z Hk. rewrite Hout by lia. apply Hb. lia.
  - intros k z Hk. rewrite Hout by lia. apply Ha. lia.
  - right. intros z Hz. congruence.
  - exists j, x. split; [lia | done].
  - by eapply at_most_twice_perm; [eapply swap_perm |].
  - destruct (ltb y pivot) eqn:E; [left; by exists y |]. right. exists x. split; [done |].
    destruct (ltb pivot x) eqn:E'; [done |]. exfalso.
    eapply (at_most_twice_get v i j n x y pivot Ht ltac:(lia) Hx Hy Hp); [| done].
    split; unfold same; [by transitivity pivot | by transitivity pivot].
Qed.

Lemma partition_round_spec m n pivot v i j : running m n pivot v i j ->
  exists st, partition_round pivot v i j = Some st /\
    match st with
    | Running w i' j' =>
        running m n pivot w i' j' /\ moving pivot w i' j' /\ i' < j' /\ within m n v w /\
        j' - i' <= j - i /\ (moving pivot v i j -> j' - i' < j - i)
    | Broke w i' => w = v /\ stopped m n pivot v i'
    end.
Proof.
  intros H. pose proof H as [(Hm & Hij & Hn) Hp Hb Ha He Hs Ht]. unfold partition_round.
  destruct (rise_spec pivot v (Z.to_nat (j - i)) i) as (i' & -> & Hi' & Hri & Hge); [lia.. |]. cbn [mbind option_bind].
  destruct (sink_spec pivot v (Z.to_nat (j - i')) j) as (j' & -> & Hj' & Hsi & Hle); [lia.. |]. cbn [mbind option_bind].
  rewrite Z2Nat.id in * by lia.
  assert (Hb' : all_in (fun x => ltb x pivot = true) m (i' - 1) v).
  { intros k x Hk Hx. destruct (Z.lt_ge_cases k i); [apply (Hb k) | apply (Hri k)]; try done; lia. }
  assert (Ha' : all_in (fun x => ltb pivot x = true) (j' + 1) (n - 1) v).
  { intros k x Hk Hx. destruct (Z.le_gt_cases k j); [apply (Hsi k) | apply (Ha k)]; try done; lia. }
  assert (Hi : forall x, get v i' = Some x -> kle pivot x).
  { intros x Hx. destruct (Z.lt_ge_cases i' j); [apply Hge; [lia | done] |]. replace i' with j in * by lia.
    destruct He as [->|He]; [| by apply He]. destruct Hs as (k & y & Hk & Hy & Hpy).
    destruct (Z.eq_dec k (n - 1)) as [->|]; [congruence |]. unfold kle in Hpy. by rewrite (Hb' k y) in Hpy by (done || lia). }
  destruct (Z.ltb_spec i' j').
  - destruct (get_is_Some v i') as [x Hx]; [lia |]. destruct (get_is_Some v j') as [y Hy]; [lia |].
    destruct (swap v i' j') as [w|] eqn:Es; [| by rewrite (swap_in _ _ _ x y) in Es]. cbn [mbind option_bind].
    eexists. split; [done |]. cbn beta iota. specialize (Hi x Hx). specialize (Hle ltac:(lia) y Hy).
    destruct (running_swap m n pivot v i' j' w x y) as [Hw Hmv]; try done; [lia.. |].
    split; [done |]. split; [done |]. split; [done |]. split; [eapply within_swap; [| | exact Es]; lia |].
    split; [lia |]. intros [(z & Hz & Hlt)|(z & Hz & Hlt)].
    + destruct (Z.eq_dec i' i) as [->|]; [| lia]. unfold kle in Hi. congruence.
    + destruct (Z.eq_dec j' j) as [->|]; [| lia]. unfold kle in Hle. congruence.
  - eexists. split; [done |]. cbn beta iota. split; [done |]. split; [lia |]. split; [done |].
    split; [| done]. replace i' with j' by lia. done.
Qed.

Lemma partition_rounds_moving m n pivot : forall (fuel : nat) v i j,
  running m n pivot v i j -> moving pivot v i j -> j - i < Z.of_nat fuel ->
  exists w i', partition_rounds fuel pivot (Running v i j) = Some (Broke w i') /\ within m n v w /\
    get w n = Some pivot /\ stopped m n pivot w i'.
Proof.
  induction fuel as [|fuel IH]; intros v i j Hr Hmv Hf; [pose proof (run_range _ _ _ _ _ _ Hr); lia |].
  cbn [partition_rounds]. destruct (partition_round_spec m n pivot v i j Hr) as ([w i' j'|w i'] & -> & H); cbn [mbind option_bind].
  - destruct H as (Hr' & Hmv' & Hij & Hw & _ & Hdec). specialize (Hdec Hmv).
    destruct (IH w i' j' Hr' Hmv') as (u & k & -> & Hu & Hs); [lia |]. exists u, k. split; [done |].
    split; [by eapply within_trans | done].
  - destruct H as [-> Hs]. exists v, i'. split; [by destruct fuel |]. split; [apply within_refl |].
    split; [apply Hr | done].
Qed.

Lemma partition_rounds_spec m n pivot (fuel : nat) v i j :
  running m n pivot v i j -> j - i + 1 < Z.of_nat fuel ->
  exists w i', partition_rounds fuel pivot (Running v i j) = Some (Broke w i') /\ within m n v w /\
    get w n = Some pivot /\ stopped m n pivot w i'.
Proof.
  intros Hr Hf. pose proof (run_range _ _ _ _ _ _ Hr). destruct fuel as [|fuel]; [lia |].
  cbn [partition_rounds]. destruct (partition_round_spec m n pivot v i j Hr) as ([w i' j'|w i'] & -> & H'); cbn [mbind option_bind].
  - destruct H' as (Hr' & Hmv' & Hij & Hw & Hle & _).
    destruct (partition_rounds_moving m n pivot fuel w i' j' Hr' Hmv') as (u & k & -> & Hu & Hs); [lia |].
    exists u, k. split; [done |]. split; [by eapply within_trans | done].
  - destruct H' as [-> Hs]. exists v, i'. split; [by destruct fuel |]. split; [apply within_refl |].
    split; [apply Hr | done].
Qed.

(** [partition] splits the range around the position it returns. *)
Lemma partition_spec (fuel : nat) v m n :
  0 <= m < n -> n < Z.of_nat (length v) -> 2 * n <= INT32_MAX -> at_most_twice v -> n - m < Z.of_nat fuel ->
  exists w k x, partition fuel v m n = Some (w, k) /\ m <= k <= n /\ within m n v w /\ get w k = Some x /\
    all_in (fun y => kle y x) m (k - 1) w /\ all_in (kle x) (k + 1) n w.
Proof.
  intros Hm Hn Hov Ht Hf. unfold partition. destruct (Z.ltb_spec m n); [| lia].
  destruct (median3_spec v m n Hm Hn Hov) as (u & pivot & -> & Hu & Hp & Hex). cbn [mbind option_bind].
  pose proof (within_length _ _ _ _ Hu). pose proof (at_most_twice_perm _ _ (proj1 Hu) Ht) as Ht'.
  destruct (partition_rounds_spec m n pivot fuel u m (n - 1)) as (w & k & -> & Hw & Hwn & Hk & Hlo & Hhi & Hge); [| lia |].
  { constructor; try done; [lia | intros i x Hi; lia | intros i x Hi; lia | by left]. }
  pose proof (within_length _ _ _ _ Hw). destruct (get_is_Some w k) as [x Hx]; [lia |].
  specialize (Hge x Hx). rewrite Hx. cbn [mbind option_bind]. unfold gtb. destruct (ltb pivot x) eqn:E.
  - rewrite set_in by lia. cbn [mbind option_bind]. rewrite set_in by (rewrite length_insert; lia). cbn [mbind option_bind].
    assert (Es : swap w n k = Some (<[Z.to_nat k := pivot]> (<[Z.to_nat n := x]> w))) by (by apply swap_in).
    pose proof (fun i => swap_get _ _ _ _ i _ _ Es Hwn Hx) as Hg. eexists _, k, pivot. split; [done |]. split; [lia |].
    split. { eapply within_trans; [by eapply within_trans |]. eapply within_swap; [| | exact Es]; lia. }
    split; [by rewrite Hg, Z.eqb_refl |]. split; intros i y Hi; rewrite Hg; destruct (Z.eqb_spec k i); try lia;
      destruct (Z.eqb_spec n i); try lia; intros Hy.
    + apply ltb_kle. apply (Hlo i); [lia | done].
    + injection Hy as <-. by apply ltb_kle.
    + apply ltb_kle. apply (Hhi i); [lia | done].
  - exists w, k, x. split; [done |]. split; [lia |]. split; [by eapply within_trans |]. split; [done |]. split.
    + intros i y Hi Hy. transitivity pivot; [| done]. apply ltb_kle. apply (Hlo i); [lia | done].
    + intros i y Hi Hy. transitivity pivot; [done |]. destruct (Z.eq_dec i n) as [->|].
      * replace y with pivot by congruence. apply kle_refl.
      * apply ltb_kle. apply (Hhi i); [lia | done].
Qed.

Lemma quick_sort_step m k n v1 v2 v3 x :
  m <= k <= n -> get v1 k = Some x -> all_in (fun y => kle y x) m (k - 1) v1 -> all_in (kle x) (k + 1) n v1 ->
  sorted_range m (k - 1) v1 v2 -> sorted_range (k + 1) n v2 v3 -> sorted_range m n v1 v3.
Proof.
  intros Hk Hx Hlo Hhi [Hw2 Hs2] [Hw3 Hs3].
  split. { eapply within_trans; [eapply within_weaken; [| | exact Hw2]; lia | eapply within_weaken; [| | exact Hw3]; lia]. }
  pose proof Hw2 as [_ Ho2]. pose proof Hw3 as [_ Ho3].
  assert (Hlo' : all_in (fun y => kle y x) m (k - 1) v3).
  { intros i y Hi Hy. rewrite Ho3 in Hy by lia. by eapply (within_all (fun y => kle y x) _ _ _ _ Hw2 Hlo i). }
  assert (Hhi' : all_in (kle x) (k + 1) n v3).
  { apply (within_all _ _ _ _ _ Hw3). intros i y Hi Hy. rewrite Ho2 in Hy by lia. by apply (Hhi i). }
  assert (Hx3 : get v3 k = Some x) by (by rewrite Ho3, Ho2 by lia).
  assert (Hs2' : sorted_in kle m (k - 1) v3)
    by (intros a b y z ? ? ? Hy Hz; rewrite Ho3 in Hy, Hz by lia; by apply (Hs2 a b)).
  intros a b y z Ha Hab Hb Hy Hz. destruct (Z.lt_trichotomy a k) as [|[->|]].
  - destruct (Z.lt_trichotomy b k) as [|[->|]]; [by apply (Hs2' a b); [lia.. | |] | |].
    + replace z with x by congruence. by apply (Hlo' a); [lia |].
    + transitivity x; [by apply (Hlo' a); [lia |] | by apply (Hhi' b); [lia |]].
  - replace y with x by congruence. by apply (Hhi' b); [lia |].
  - by apply (Hs3 a b); [lia.. | |].
Qed.

Lemma Q_Quick_Sort_spec : forall (fuel : nat) v m n,
  0 <= m -> n < Z.of_nat (length v) -> 2 * n <= INT32_MAX -> at_most_twice v ->
  n - m + 1 < Z.of_nat fuel -> (0 < fuel)%nat ->
  exists w, Q_Quick_Sort fuel v m n = Some w /\ sorted_range m n v w.
Proof.
  induction fuel as [|fuel IH]; intros v m n Hm Hn Hov Ht Hf H0; [lia |]. cbn [Q_Quick_Sort].
  destruct (Z.leb_spec (n - m) 20); [by apply Q_Insert_Sort_sorts |].
  destruct (partition_spec fuel v m n) as (v1 & k & x & -> & Hk & Hw1 & Hx & Hlo & Hhi); try done; [lia.. |].
  pose proof (within_length _ _ _ _ Hw1). pose proof (at_most_twice_perm _ _ (proj1 Hw1) Ht) as Ht1.
  destruct (IH v1 m (k - 1)) as (v2 & -> & Hs2); try done; [lia.. |]. cbn [mbind option_bind].
  pose proof (within_length _ _ _ _ (proj1 Hs2)). pose proof (at_most_twice_perm _ _ (proj1 (proj1 Hs2)) Ht1) as Ht2.
  destruct (IH v2 (k + 1) n) as (v3 & -> & Hs3); try done; [lia.. |].
  exists v3. split; [done |]. destruct (quick_sort_step m k n v1 v2 v3 x) as [Hw Hs]; try done.
  split; [by eapply within_trans | done].
Qed.

(** ** A range of equal keys *)

Definition all_same x m n v : Prop := all_in (same x) m n v.

Lemma all_same_ltb x m n v i j y z : all_same x m n v -> m <= i <= n -> m <= j <= n ->
  get v i = Some y -> get v j = Some z -> ltb y z = false.
Proof.
  intros H Hi Hj Hy Hz. destruct (H i y Hi Hy) as [H1 _], (H j z Hj Hz) as [_ H2]. change (kle z y). by transitivity x.
Qed.

Lemma median3_same x v m n : 0 <= m < n -> n < Z.of_nat (length v) -> 2 * n <= INT32_MAX -> all_same x m n v ->
  exists pivot, get v n = Some pivot /\ median3 v m n = Some (v, pivot).
Proof.
  intros Hm Hn Hov Hs. unfold median3. rewrite i32_small by (unfold is_i32, INT32_MIN; lia).
  assert (Hmid : m <= Z.quot (m + n) 2 < n) by (Z.to_euclidean_division_equations; lia). set (mid := Z.quot _ 2) in *.
  destruct (get_is_Some v mid) as [a Ha]; [lia |]. destruct (get_is_Some v m) as [b Hb]; [lia |].
  destruct (get_is_Some v n) as [c Hc]; [lia |]. exists c. split; [done |].
  rewrite Ha, Hb. cbn [mbind option_bind]. rewrite (all_same_ltb x m n v mid m) by (done || lia).
  rewrite Hb, Hc. cbn [mbind option_bind]. rewrite (all_same_ltb x m n v n m) by (done || lia).
  rewrite Z.eqb_refl. cbn [negb mbind option_bind]. destruct (Z.eqb_spec mid n); [lia |]. cbn [negb].
  rewrite Ha. cbn [mbind option_bind]. rewrite Hc. cbn [mbind option_bind].
  rewrite (all_same_ltb x m n v mid n) by (done || lia). cbn [mbind option_bind]. by rewrite Hc.
Qed.

Lemma partition_rounds_same x m n pivot : 0 <= m -> m + 1 < n -> same x pivot -> forall (k : nat) v,
  n < Z.of_nat (length v) -> all_same x m n v ->
  exists w, partition_rounds k pivot (Running v m (n - 1)) = Some (Running w m (n - 1)).
Proof.
  intros Hm Hmn [Hp1 Hp2]. induction k as [|k IH]; intros v Hn Hs; cbn [partition_rounds]; [by exists v |].
  destruct (get_is_Some v m) as [a Ha]; [lia |]. destruct (get_is_Some v (n - 1)) as [b Hb]; [lia |].
  assert (Ea : ltb a pivot = false) by (change (kle pivot a); transitivity x; [done | by apply (Hs m a ltac:(lia) Ha)]).
  assert (Eb : ltb pivot b = false)
    by (change (kle b pivot); transitivity x; [by apply (Hs (n - 1) b ltac:(lia) Hb) | done]).
  unfold partition_round. destruct (Z.to_nat (n - 1 - m)) as [|d] eqn:Ed; [lia |]. cbn [rise]. rewrite Ha.
  cbn [mbind option_bind]. rewrite Ea. cbn [mbind option_bind]. rewrite Ed. cbn [sink]. rewrite Hb. cbn [mbind option_bind]. rewrite Eb. cbn [mbind option_bind].
  destruct (Z.ltb_spec m (n - 1)); [| lia].
  destruct (swap v m (n - 1)) as [w|] eqn:Es; [| by rewrite (swap_in _ _ _ a b) in Es]. cbn [mbind option_bind].
  apply IH; [by rewrite (swap_length _ _ _ _ Es) |]. eapply within_all; [eapply within_swap; [| | exact Es]; lia | done].
Qed.

(** C31. [Q_Quick_Sort] of a range of an array in which no key occurs three times
    returns, stays inside the range, permutes it and leaves it in order. *)
Theorem Q_Quick_Sort_sorts (fuel : nat) v m n :
  0 <= m <= n -> n < Z.of_nat (length v) -> 2 * n <= INT32_MAX -> at_most_twice v ->
  n - m + 1 < Z.of_nat fuel ->
  exists w, Q_Quick_Sort fuel v m n = Some w /\ sorted_range m n v w.
Proof. intros Hm Hn Hov Ht Hf. apply Q_Quick_Sort_spec; try done; lia. Qed.

(** C32. On a range of more than 21 equal keys [Q_Quick_Sort] does not return: the
    loop of [partition] exchanges the two ends of the range for ever. *)
Theorem Q_Quick_Sort_hangs x v m n :
  0 <= m -> 20 < n - m -> n < Z.of_nat (length v) -> 2 * n <= INT32_MAX -> all_same x m n v ->
  (exists pivot, median3 v m n = Some (v, pivot) /\
     forall k : nat, exists w, partition_rounds k pivot (Running v m (n - 1)) = Some (Running w m (n - 1))) /\
  forall fuel, Q_Quick_Sort fuel v m n = None.
Proof.
  intros Hm Hmn Hn Hov Hs. destruct (median3_same x v m n) as (pivot & Hp & Hmed); [lia.. | done |].
  pose proof (partition_rounds_same x m n pivot Hm ltac:(lia) (Hs n pivot ltac:(lia) Hp)) as Hr.
  split; [exists pivot; split; [done | intros k; by apply Hr] |].
  intros [|fuel]; cbn [Q_Quick_Sort]; [done |]. destruct (Z.leb_spec (n - m) 20); [lia |].
  unfold partition. destruct (Z.ltb_spec m n); [| lia]. rewrite Hmed. cbn [mbind option_bind].
  by destruct (Hr fuel v Hn Hs) as [w ->].
Qed.

End sorting.

(** Twenty-four keys, each twice, in decreasing order. *)
Definition doubled : list Z := [12; 12; 11; 11; 10; 10; 9; 9; 8; 8; 7; 7; 6; 6; 5; 5; 4; 4; 3; 3; 2; 2; 1; 1].

Lemma doubled_twice : at_most_twice doubled.
Proof.
  intros x y z l Hp [H1 H2] [H3 H4]. unfold kle, ltb, key_Z in *. apply Z.ltb_ge in H1, H2, H3, H4.
  assert (y = x) as -> by lia. assert (z = x) as -> by lia.
  assert (Hc : (3 <= count_occ Z.eq_dec doubled x)%nat).
  { rewrite (Permutation_count_occ Z.eq_dec) in Hp. rewrite (Hp x). cbn [count_occ]. destruct (Z.eq_dec x x); [lia | done]. }
  assert (Hall : Forall (fun a => (count_occ Z.eq_dec doubled a <= 2)%nat) doubled)
    by (apply (bool_decide_unpack _); vm_compute; exact I).
  assert (Hin : x ∈ doubled) by (rewrite Hp; left).
  pose proof (proj1 (Forall_forall _ _) Hall x Hin) as Hx. cbn beta in Hx. lia.
Qed.

Lemma Q_Quick_Sort_sorts_witness :
  exists w, Q_Quick_Sort 30 doubled 0 23 = Some w /\ w = reverse doubled /\ sorted_range 0 23 doubled w.
Proof.
  destruct (Q_Quick_Sort_sorts 30 doubled 0 23 ltac:(lia) ltac:(cbn; lia) ltac:(unfold INT32_MAX; lia) doubled_twice
    ltac:(lia)) as (w & Hw & Hs).
  exists w. split; [exact Hw |]. split; [| exact Hs]. vm_compute in Hw. injection Hw as <-. reflexivity.
Defined.

Lemma Q_Quick_Sort_hangs_witness :
  median3 (repeat 7 22) 0 21 = Some (repeat 7 22, 7) /\ forall fuel, Q_Quick_Sort fuel (repeat 7 22) 0 21 = None.
Proof.
  split; [reflexivity |].
  apply (Q_Quick_Sort_hangs 7 (repeat 7 22) 0 21); [lia | lia | cbn; lia | unfold INT32_MAX; lia |].
  intros i x Hi Hx. apply get_Some in Hx as [_ Hx]. apply list_elem_of_lookup_2 in Hx.
  apply list_elem_of_In, repeat_spec in Hx as ->. by split.
Defined.

(** [Q_Quick_Sort_3] gathers the keys equal to the pivot from position 1 on, not
    from [lBegin]: it returns with the range out of order, and a larger fuel
    does not change what it returns. *)
Example Q_Quick_Sort_3_unsorted : forall fuel,
  Q_Quick_Sort_3 Z.eqb (6 + fuel) [0; 2; 1; 0] 0 3 = Some [0; 1; 0; 2].
Proof. intros fuel. vm_compute. reflexivity. Qed.

End QuickSort.
