(* ===== verification/StrSearch.v ===== *)
(** * Searching in strings: src/include/common/qfunc.h

    The character searches, the plain search [q_find], [q_strstr] and the
    Knuth-Morris-Pratt search [q_find_KMP] with its table [q_next_KMP].  A pointer
    is an offset into its array; a read or write out of the array is [None]. *)

From S2P Require Import Prelude Arrays CLib.
Import Arrays.

Module StrSearch.

Implicit Types (src pat : bytes) (srclen patlen i j k : Z) (next : list Z) (c : byte).

(** ** Characters *)

(** [for(n=0; (n<srclen)&&(src[n]!=c); n++)], [m] rounds left. *)
Fixpoint first_of_loop (m : nat) src c (n : Z) : option Z :=
  match m with
  | O => Some n
  | S m => x ← get src n; if negb (beqb x c) then first_of_loop m src c (n + 1) else Some n
  end.

Definition q_find_first_of src srclen c : option Z :=
  n ← first_of_loop (Z.to_nat srclen) src c 0;
  Some (if negb (n =? srclen) then n else -1).

(** [for(n=srclen-1; (n>=0)&&(src[n]!=c); n--)] *)
Fixpoint last_of_loop (m : nat) src c (n : Z) : option Z :=
  match m with
  | O => Some n
  | S m => x ← get src n; if negb (beqb x c) then last_of_loop m src c (n - 1) else Some n
  end.

Definition q_find_last_of src srclen c : option Z :=
  if srclen <? 0 then Some (srclen - 1) else last_of_loop (Z.to_nat srclen) src c (srclen - 1).

(** The pointer [src+start]; the result is an offset, [None] inside stands for NULL. *)
Definition q_strchr src (start : Z) srclen c : option (option Z) :=
  if srclen =? 0 then Some None
  else
    p ← first_of_loop (Z.to_nat srclen) src c start;
    Some (if negb (p =? start + srclen) then Some p else None).

(** ** Substrings *)

(** [for(j=0; j<patlen; j++) if(src[i+j]!=pat[j]) break]: [j] at the end. *)
Fixpoint common (n : nat) src pat i j : option Z :=
  match n with
  | O => Some j
  | S n =>
      x ← get src (i + j);
      y ← get pat j;
      if negb (beqb x y) then Some j else common n src pat i (j + 1)
  end.

Fixpoint find_loop (n : nat) src pat patlen i : option Z :=
  match n with
  | O => Some (-1)
  | S n =>
      j ← common (Z.to_nat patlen) src pat i 0;
      if j =? patlen then Some i else find_loop n src pat patlen (i + 1)
  end.

Definition q_find src srclen pat patlen : option Z :=
  find_loop (Z.to_nat (srclen - patlen + 1)) src pat patlen 0.

(** [memcmp(src+i, pat, n)==0] *)
Definition memeq src i pat (n : Z) : option bool :=
  if (0 <=? i) && (i + n <=? Z.of_nat (length src)) && (n <=? Z.of_nat (length pat))
  then Some (bool_decide (take (Z.to_nat n) (drop (Z.to_nat i) src) = take (Z.to_nat n) pat))
  else None.

(** [while(p<=pend)], [n] rounds left. *)
Fixpoint strstr_loop (n : nat) src pat patlen (p : Z) : option (option Z) :=
  match n with
  | O => Some None
  | S n =>
      x ← get src p;
      y ← get pat 0;
      if beqb x y then
        e ← memeq src p pat patlen;
        if e : bool then Some (Some p) else strstr_loop n src pat patlen (p + 1)
      else strstr_loop n src pat patlen (p + 1)
  end.

Definition q_strstr src (start : Z) srclen pat patlen : option (option Z) :=
  if (srclen <=? 0) || (patlen <=? 0) then Some None
  else strstr_loop (Z.to_nat (srclen - patlen + 1)) src pat patlen start.

(** ** Knuth-Morris-Pratt *)

Fixpoint next_loop (fuel : nat) src srclen i j next : option (list Z) :=
  if i <? srclen then
    match fuel with
    | O => None
    | S fuel =>
        advance ← (if j =? -1 then Some true else x ← get src i; y ← get src j; Some (beqb x y));
        if advance : bool then
          next ← set next (i + 1) (j + 1);
          next_loop fuel src srclen (i + 1) (j + 1) next
        else
          j ← get next j;
          next_loop fuel src srclen i j next
    end
  else Some next.

(** Every round advances [i] or lowers [j]. *)
Definition q_next_KMP src srclen next : option (list Z) :=
  next ← set next 0 (-1);
  next_loop (Z.to_nat (2 * srclen)) src srclen 0 (-1) next.

Fixpoint kmp_loop (fuel : nat) src srclen pat patlen next (posP posS : Z) : option (Z * Z) :=
  if (posP <? patlen) && (posS <? srclen) then
    match fuel with
    | O => None
    | S fuel =>
        advance ← (if posP =? -1 then Some true else x ← get pat posP; y ← get src posS; Some (beqb x y));
        if advance : bool then kmp_loop fuel src srclen pat patlen next (posP + 1) (posS + 1)
        else posP ← get next posP; kmp_loop fuel src srclen pat patlen next posP posS
    end
  else Some (posP, posS).

Definition q_find_KMP src srclen pat patlen next k : option Z :=
  match kmp_loop (Z.to_nat (2 * (srclen - k) + 1)) src srclen pat patlen next 0 k with
  | Some (posP, posS) => Some (if posP <? patlen then -1 else posS - patlen)
  | None => None
  end.

(** ** What the searches find *)

(** [pat] occurs in the first [srclen] bytes of [src] at [s]. *)
Definition occurs src srclen pat patlen (s : Z) : Prop :=
  s + patlen <= srclen /\ forall t, 0 <= t < patlen -> get src (s + t) = get pat t.

(** [r] is the first occurrence from [k] on, or -1 when there is none. *)
Definition first_occurrence src srclen pat patlen k (r : Z) : Prop :=
  (k <= r /\ occurs src srclen pat patlen r /\ forall s, k <= s < r -> ~ occurs src srclen pat patlen s) \/
  (r = -1 /\ forall s, k <= s -> ~ occurs src srclen pat patlen s).

Lemma common_spec src pat patlen i : forall (n : nat) j,
  0 <= i -> 0 <= j -> j + Z.of_nat n = patlen -> i + patlen <= Z.of_nat (length src) -> patlen <= Z.of_nat (length pat) ->
  (forall t, 0 <= t < j -> get src (i + t) = get pat t) ->
  exists j', common n src pat i j = Some j' /\
    (j' = patlen <-> forall t, 0 <= t < patlen -> get src (i + t) = get pat t).
Proof.
  induction n as [|n IH]; intros j Hi Hj Hn Hs Hp Hall; cbn [common].
  - exists j. split; [done |]. replace patlen with j by lia. done.
  - destruct (get_is_Some src (i + j)) as [x Hx]; [lia |]. destruct (get_is_Some pat j) as [y Hy]; [lia |].
    rewrite Hx, Hy. cbn [mbind option_bind]. destruct (beqb_spec x y) as [<-|Hne]; cbn [negb].
    + apply IH; try lia. intros t Ht. destruct (Z.eq_dec t j) as [->|]; [congruence | apply Hall; lia].
    + exists j. split; [done |]. split; [lia |]. intros H. specialize (H j ltac:(lia)). congruence.
Qed.

Lemma find_loop_spec src srclen pat patlen : forall (n : nat) i,
  0 <= i -> i + Z.of_nat n = srclen - patlen + 1 -> srclen <= Z.of_nat (length src) ->
  0 <= patlen <= Z.of_nat (length pat) ->
  exists r, find_loop n src pat patlen i = Some r /\ first_occurrence src srclen pat patlen i r.
Proof.
  induction n as [|n IH]; intros i Hi Hn Hs Hp; cbn [find_loop].
  - exists (-1). split; [done |]. right. split; [done |]. intros s Hs' [Ho _]. lia.
  - destruct (common_spec src pat patlen i (Z.to_nat patlen) 0) as (j & -> & Hj); try lia.
    cbn [mbind option_bind]. destruct (Z.eqb_spec j patlen) as [E|E].
    + exists i. split; [done |]. left. split; [lia |]. split; [split; [lia | by apply Hj] | intros s Hs'; lia].
    + destruct (IH (i + 1)) as (r & -> & Hr); try lia. exists r. split; [done |].
      assert (Hno : ~ occurs src srclen pat patlen i) by (intros [_ Ho]; apply E, Hj, Ho).
      destruct Hr as [(Hk & Ho & Hmin)|[-> Hnone]]; [left; split; [lia |]; split; [done |] | right; split; [done |]];
        intros s Hs'; (destruct (Z.eq_dec s i) as [->|]; [done |]); [apply Hmin | apply Hnone]; lia.
Qed.

Lemma q_find_first src srclen pat patlen :
  srclen <= Z.of_nat (length src) -> 0 <= patlen <= Z.of_nat (length pat) ->
  exists r, q_find src srclen pat patlen = Some r /\ first_occurrence src srclen pat patlen 0 r.
Proof.
  intros. unfold q_find. destruct (Z.le_gt_cases 0 (srclen - patlen + 1)); [apply find_loop_spec; lia |].
  replace (Z.to_nat (srclen - patlen + 1)) with 0%nat by lia. exists (-1). split; [done |]. right. split; [done |].
  intros s Hs [Ho _]. lia.
Qed.

Lemma first_occurrence_unique src srclen pat patlen k r r' : 0 <= k ->
  first_occurrence src srclen pat patlen k r -> first_occurrence src srclen pat patlen k r' -> r = r'.
Proof.
  intros Hk [(H1 & H2 & H3)|[-> H]] [(H1' & H2' & H3')|[-> H']].
  - destruct (Z.lt_trichotomy r r') as [|[|]]; [by destruct (H3' r ltac:(lia)) | done | by destruct (H3 r' ltac:(lia))].
  - by destruct (H' r H1).
  - by destruct (H r' H1').
  - done.
Qed.

(** ** The table *)

Section table.
Variables (pat : bytes) (patlen : Z).
Hypothesis Hlen : 0 <= patlen <= Z.of_nat (length pat).

(** The first [b] bytes are the last [b] of the first [i]. *)
Definition border i (b : Z) : Prop := 0 <= b < i /\ forall t, 0 <= t < b -> get pat t = get pat (i - b + t).

(** [b] is the longest border of the first [i] bytes, -1 for the empty string. *)
Definition longest i (b : Z) : Prop := (b = -1 /\ i = 0 \/ border i b) /\ forall b', border i b' -> b' <= b.

Definition table_to i next : Prop := forall q, 0 <= q <= i -> exists b, get next q = Some b /\ longest q b.

Lemma longest_range i b : longest i b -> -1 <= b < i.
Proof. intros [[[-> ->]|[H _]] _]; lia. Qed.

(** Borders of borders are the borders. *)
Lemma border_trans i a b : border i a -> border a b -> border i b.
Proof.
  intros [Ha Ha'] [Hb Hb']. split; [lia |]. intros t Ht. rewrite Hb' by lia. rewrite Ha' by lia. f_equal. lia.
Qed.

Lemma border_inner i a b : border i a -> border i b -> b < a -> border a b.
Proof.
  intros [Ha Ha'] [Hb Hb'] Hba. split; [lia |]. intros t Ht. rewrite Hb' by lia. rewrite (Ha' (a - b + t)) by lia. f_equal. lia.
Qed.

Lemma border_extend i b : border i b -> get pat b = get pat i -> border (i + 1) (b + 1).
Proof.
  intros [Hb Hb'] E. split; [lia |]. intros t Ht. destruct (Z.eq_dec t b) as [->|]; [rewrite E; f_equal; lia |].
  rewrite Hb' by lia. f_equal. lia.
Qed.

Lemma border_shrink i b : border (i + 1) (b + 1) -> 0 <= b -> border i b /\ get pat b = get pat i.
Proof.
  intros [Hb Hb'] H0. split; [split; [lia |]; intros t Ht; rewrite Hb' by lia; f_equal; lia |].
  rewrite Hb' by lia. f_equal. lia.
Qed.

Lemma border_zero i : 0 < i -> border i 0.
Proof. intros. split; [lia | intros t Ht; lia]. Qed.

(** The candidate [j] of the next entry: longer borders do not extend. *)
Definition candidate i j : Prop :=
  (j = -1 \/ border i j) /\ forall b, border i b -> j < b -> get pat b <> get pat i.

Lemma candidate_next i j : 0 <= i -> candidate i j -> (j = -1 \/ get pat i = get pat j) -> longest (i + 1) (j + 1).
Proof.
  intros Hi [Hj Hno] E. assert (Hb : border (i + 1) (j + 1)).
  { destruct Hj as [->|Hb]; [apply border_zero; lia |]. destruct E as [->|E]; [apply border_zero; lia |].
    by apply border_extend. }
  split; [by right |]. intros b' Hb'. destruct (Z.le_gt_cases b' (j + 1)); [done |]. exfalso.
  replace b' with ((b' - 1) + 1) in Hb' by lia.
  apply border_shrink in Hb' as [Hb1 Hb2]; [| destruct Hj as [->|[? _]]; lia].
  by apply (Hno (b' - 1) Hb1); [lia |].
Qed.

Lemma candidate_fresh i j : longest i j -> candidate i j.
Proof. intros [H Hmax]. split; [tauto |]. intros b Hb Hj. specialize (Hmax b Hb). lia. Qed.

Lemma candidate_step i j b : candidate i j -> 0 <= j -> get pat i <> get pat j -> longest j b -> candidate i b.
Proof.
  intros [[->|Hj] Hno] H0 Hne [Hb Hmax]; [lia |]. split.
  - destruct Hb as [[-> _]|Hb]; [by left | right; by eapply border_trans].
  - intros b' Hb' Hlt. destruct (Z.lt_trichotomy b' j) as [|[->|]]; [| congruence | by apply Hno].
    specialize (Hmax b' (border_inner i j b' Hj Hb' ltac:(lia))). lia.
Qed.

Lemma next_loop_spec : forall fuel i j next,
  0 <= i <= patlen -> -1 <= j < i \/ i = 0 /\ j = -1 -> 2 * (patlen - i) + j + 1 <= Z.of_nat fuel ->
  patlen < Z.of_nat (length next) -> table_to i next -> candidate i j ->
  exists next', next_loop fuel pat patlen i j next = Some next' /\ length next' = length next /\ table_to patlen next'.
Proof.
  induction fuel as [|fuel IH]; intros i j next Hi Hj Hf Hn Ht Hc; cbn [next_loop];
    (destruct (Z.ltb_spec i patlen) as [Hlt|Hge];
     [try lia | exists next; split; [done |]; split; [done |]; by replace patlen with i by lia]).
  assert (Hadv : (j = -1 \/ get pat i = get pat j) ->
    exists next', (next ← set next (i + 1) (j + 1); next_loop fuel pat patlen (i + 1) (j + 1) next) = Some next' /\
      length next' = length next /\ table_to patlen next').
  { intros E. rewrite set_in by lia. cbn [mbind option_bind].
    pose proof (candidate_next i j ltac:(lia) Hc E) as Hl.
    destruct (IH (i + 1) (j + 1) (<[Z.to_nat (i + 1) := j + 1]> next)) as (next' & H1 & H2 & H3);
      [lia | lia | lia | rewrite length_insert; lia | | by apply candidate_fresh |].
    { intros q Hq. rewrite get_insert by lia. destruct (Z.eqb_spec (i + 1) q) as [<-|]; [by eexists | apply Ht; lia]. }
    exists next'. rewrite length_insert in H2. done. }
  destruct (Z.eqb_spec j (-1)) as [E|E]; cbn [mbind option_bind]; [apply Hadv; by left |].
  destruct (get_is_Some pat i) as [x Hx]; [lia |]. destruct (get_is_Some pat j) as [y Hy]; [lia |].
  rewrite Hx, Hy. cbn [mbind option_bind]. destruct (beqb_spec x y) as [->|Hne]; [apply Hadv; right; congruence |].
  destruct (Ht j) as (b & Hb & Hl); [lia |]. rewrite Hb. cbn [mbind option_bind]. pose proof (longest_range _ _ Hl).
  apply IH; try done; try lia. eapply candidate_step; [done | lia | congruence | done].
Qed.

Lemma q_next_KMP_table next : patlen < Z.of_nat (length next) ->
  exists next', q_next_KMP pat patlen next = Some next' /\ length next' = length next /\ table_to patlen next'.
Proof.
  intros Hn. unfold q_next_KMP. rewrite set_in by lia. cbn [mbind option_bind].
  assert (H0 : longest 0 (-1)) by (split; [by left | intros b [Hb _]; lia]).
  destruct (next_loop_spec (Z.to_nat (2 * patlen)) 0 (-1) (<[Z.to_nat 0 := -1]> next)) as (next' & H1 & H2 & H3);
    [lia | lia | lia | rewrite length_insert; lia | | by apply candidate_fresh |].
  { intros q Hq. replace q with 0 by lia. rewrite get_insert by lia. by exists (-1). }
  exists next'. rewrite length_insert in H2. done.
Qed.

(** ** The search *)

Variables (src : bytes) (srclen k : Z).
Hypothesis Hsrc : srclen <= Z.of_nat (length src).
Hypothesis Hk : 0 <= k <= srclen.

(** The first [posP] bytes of [pat] end at [posS], and nothing occurs before. *)
Record matched (posP posS : Z) : Prop := {
  mat_range : -1 <= posP <= patlen /\ k <= posS - posP /\ posS <= srclen;
  mat_prefix : forall t, 0 <= t < posP -> get src (posS - posP + t) = get pat t;
  mat_before : forall s, k <= s < posS - posP -> ~ occurs src srclen pat patlen s
}.

Lemma matched_advance posP posS :
  matched posP posS -> posP < patlen -> posS < srclen -> (posP = -1 \/ get pat posP = get src posS) ->
  matched (posP + 1) (posS + 1).
Proof.
  intros [Hr Hp Hb] H1 H2 E. constructor; [lia | |].
  - intros t Ht. replace (posS + 1 - (posP + 1) + t) with (posS - posP + t) by lia.
    destruct (Z.eq_dec t posP) as [->|]; [| apply Hp; lia]. destruct E as [->|E]; [lia |]. rewrite E. f_equal. lia.
  - intros s Hs. apply Hb. lia.
Qed.

Lemma matched_next posP posS b :
  matched posP posS -> 0 <= posP < patlen -> posS < srclen -> get pat posP <> get src posS -> longest posP b ->
  matched b posS.
Proof.
  intros [Hr Hp Hb] H1 H2 Hne Hl. pose proof (longest_range _ _ Hl). destruct Hl as [Hb0 Hmax]. constructor; [lia | |].
  - intros t Ht. destruct Hb0 as [[-> _]|[_ Hb0]]; [lia |]. rewrite Hb0 by lia. rewrite <- Hp by lia. f_equal. lia.
  - intros s Hs [Ho1 Ho2]. destruct (Z.lt_ge_cases s (posS - posP)); [by apply (Hb s); [lia |] |].
    destruct (Z.eq_dec s (posS - posP)) as [->|].
    + apply Hne. rewrite <- Ho2 by lia. f_equal. lia.
    + assert (Hbord : border posP (posS - s)); [| specialize (Hmax _ Hbord); lia].
      split; [lia |]. intros t Ht. rewrite <- Ho2 by lia. rewrite <- Hp by lia. f_equal. lia.
Qed.

Lemma kmp_loop_spec next : table_to patlen next -> forall fuel posP posS,
  matched posP posS -> 2 * (srclen - posS) + posP + 1 <= Z.of_nat fuel ->
  exists posP' posS', kmp_loop fuel src srclen pat patlen next posP posS = Some (posP', posS') /\
    matched posP' posS' /\ (posP' < patlen -> posS' = srclen).
Proof.
  intros Ht. induction fuel as [|fuel IH]; intros posP posS Hm Hf; pose proof (mat_range _ _ Hm) as Hr; cbn [kmp_loop];
    (destruct (Z.ltb_spec posP patlen), (Z.ltb_spec posS srclen); cbn [andb];
     try (exists posP, posS; split; [done |]; split; [done | lia])).
  { lia. }
  destruct (Z.eqb_spec posP (-1)) as [E|E]; cbn [mbind option_bind].
  { apply IH; [by apply matched_advance; [| | | left] | lia]. }
  destruct (get_is_Some pat posP) as [x Hx]; [lia |]. destruct (get_is_Some src posS) as [y Hy]; [lia |].
  rewrite Hx, Hy. cbn [mbind option_bind]. destruct (beqb_spec x y) as [->|Hne].
  - apply IH; [apply matched_advance; try done; right; congruence | lia].
  - destruct (Ht posP) as (b & Hb & Hl); [lia |]. rewrite Hb. cbn [mbind option_bind]. pose proof (longest_range _ _ Hl).
    apply IH; [| lia]. eapply matched_next; [done | lia | done | congruence | done].
Qed.

Lemma q_find_KMP_first next : table_to patlen next ->
  exists r, q_find_KMP src srclen pat patlen next k = Some r /\ first_occurrence src srclen pat patlen k r.
Proof.
  intros Ht. unfold q_find_KMP.
  destruct (kmp_loop_spec next Ht (Z.to_nat (2 * (srclen - k) + 1)) 0 k) as (p & q & -> & [Hr Hp Hb] & Hend);
    [constructor; [lia | intros t Ht'; lia | intros s Hs; lia] | lia |].
  eexists. split; [done |]. destruct (Z.ltb_spec p patlen).
  - right. split; [done |]. intros s Hs [Ho1 Ho2]. specialize (Hend ltac:(lia)).
    destruct (Z.lt_ge_cases s (q - p)); [by apply (Hb s); [lia |] | lia].
  - replace p with patlen in * by lia. left. split; [lia |]. split; [split; [lia | done] | intros s Hs; apply Hb; lia].
Qed.

End table.

(** C29. The Knuth-Morris-Pratt search: with room for one entry more than the
    pattern has bytes, [q_next_KMP] fills the table and [q_find_KMP] with that table
    returns the first occurrence of the pattern from the start position on, or
    -1 when there is none; from position 0 it is what the plain [q_find]
    returns.  Neither loops for ever nor leaves its arrays. *)
Theorem q_find_KMP_finds src pat next k :
  (length pat < length next)%nat -> 0 <= k <= Z.of_nat (length src) ->
  exists next' r,
    q_next_KMP pat (Z.of_nat (length pat)) next = Some next' /\
    q_find_KMP src (Z.of_nat (length src)) pat (Z.of_nat (length pat)) next' k = Some r /\
    first_occurrence src (Z.of_nat (length src)) pat (Z.of_nat (length pat)) k r /\
    (k = 0 -> q_find src (Z.of_nat (length src)) pat (Z.of_nat (length pat)) = Some r).
Proof.
  intros Hn Hk. destruct (q_next_KMP_table pat (Z.of_nat (length pat)) ltac:(lia) next ltac:(lia)) as (next' & H1 & _ & Ht).
  destruct (q_find_KMP_first pat (Z.of_nat (length pat)) ltac:(lia) src (Z.of_nat (length src)) k ltac:(lia) Hk next' Ht) as (r & H2 & H3).
  exists next', r. split; [done |]. split; [done |]. split; [done |]. intros ->.
  destruct (q_find_first src (Z.of_nat (length src)) pat (Z.of_nat (length pat))) as (r' & H4 & H5); [lia.. |].
  rewrite H4. f_equal. by eapply first_occurrence_unique; [| exact H5 | exact H3].
Qed.

Lemma q_find_KMP_finds_witness :
  exists next' r, q_next_KMP (str "abab") 4 [0; 0; 0; 0; 0] = Some next' /\
    q_find_KMP (str "abaababab") 9 (str "abab") 4 next' 0 = Some r /\ next' = [-1; 0; 0; 1; 2] /\ r = 3.
Proof.
  destruct (q_find_KMP_finds (str "abaababab") (str "abab") [0; 0; 0; 0; 0] 0) as (next' & r & H1 & H2 & _);
    [cbn; lia | cbn; lia |].
  exists next', r. split; [exact H1 |]. split; [exact H2 |]. vm_compute in H1. injection H1 as <-.
  split; [reflexivity |]. vm_compute in H2. congruence.
Defined.

(** ** [q_strstr] *)

Lemma get_app_cons (a s : bytes) x i : i = Z.of_nat (length a) -> get (a ++ x :: s) i = Some x.
Proof. intros ->. apply get_Some. split; [lia |]. rewrite Nat2Z.id. by apply list_lookup_middle. Qed.

Lemma memeq_starts (a s z pat : bytes) : (length pat <= length s)%nat ->
  memeq (a ++ s ++ z) (Z.of_nat (length a)) pat (Z.of_nat (length pat)) = Some (starts_with pat s).
Proof.
  intros Hl. unfold memeq. rewrite !length_app.
  destruct (Z.leb_spec 0 (Z.of_nat (length a))), (Z.leb_spec (Z.of_nat (length a) + Z.of_nat (length pat))
    (Z.of_nat (length a + (length s + length z)))), (Z.leb_spec (Z.of_nat (length pat)) (Z.of_nat (length pat))); try lia.
  cbn [andb]. f_equal. rewrite !Nat2Z.id, drop_app_length, take_app_le, (take_ge pat) by lia.
  destruct (starts_with pat s) eqn:E.
  - apply starts_with_spec in E as [t ->]. by apply bool_decide_eq_true, take_app_length.
  - apply bool_decide_eq_false. intros Ht. assert (starts_with pat s = true); [| congruence].
    apply starts_with_spec. exists (drop (length pat) s). rewrite <- Ht at 1. by rewrite take_drop.
Qed.

Lemma find_sub_short pat s : (length s < length pat)%nat -> find_sub pat s = None.
Proof.
  induction s as [|b s IH]; intros Hl; cbn [find_sub]; (destruct (starts_with pat _) eqn:E;
    [apply starts_with_spec in E as [t E]; apply (f_equal length) in E; rewrite length_app in E; cbn [length] in *; lia |]).
  - done.
  - cbn [length] in Hl. by rewrite IH by lia.
Qed.

Lemma strstr_loop_find pat z : pat <> [] -> forall s a,
  strstr_loop (Z.to_nat (Z.of_nat (length s) - Z.of_nat (length pat) + 1)) (a ++ s ++ z) pat (Z.of_nat (length pat))
    (Z.of_nat (length a))
  = Some ((fun n : nat => Z.of_nat (length a) + Z.of_nat n) <$> find_sub pat s).
Proof.
  intros Hp. destruct pat as [|y pat]; [done |]. induction s as [|b s IH]; intros a.
  { replace (Z.to_nat _) with 0%nat by (cbn [length]; lia). by rewrite find_sub_short by (cbn [length]; lia). }
  destruct (decide (length (b :: s) < length (y :: pat))%nat) as [Hlt|Hge].
  { replace (Z.to_nat _) with 0%nat by lia. by rewrite find_sub_short. }
  replace (Z.to_nat _) with (S (Z.to_nat (Z.of_nat (length s) - Z.of_nat (length (y :: pat)) + 1))) by (cbn [length] in *; lia).
  cbn [strstr_loop]. pose proof (memeq_starts a (b :: s) z (y :: pat) ltac:(lia)) as Hm. cbn [app].
  rewrite get_app_cons by done. cbn [mbind option_bind]. change (get (y :: pat) 0) with (Some y). cbn [mbind option_bind].
  assert (Hrest : strstr_loop (Z.to_nat (Z.of_nat (length s) - Z.of_nat (length (y :: pat)) + 1)) (a ++ b :: s ++ z) (y :: pat)
      (Z.of_nat (length (y :: pat))) (Z.of_nat (length a) + 1)
    = Some ((fun n : nat => Z.of_nat (length a) + Z.of_nat n) <$> (S <$> find_sub (y :: pat) s))).
  { specialize (IH (a ++ [b])). rewrite length_app, Nat2Z.inj_add, <- app_assoc in IH. cbn [app length] in IH.
    change (Z.of_nat 1) with 1 in IH. etransitivity; [exact IH |]. f_equal. destruct (find_sub (y :: pat) s); cbn [fmap option_fmap option_map]; [f_equal; lia | done]. }
  cbn [app] in Hm. destruct (beqb_spec b y) as [->|Hne].
  - rewrite Hm. cbn [mbind option_bind find_sub]. destruct (starts_with (y :: pat) (y :: s)); [| done].
    cbn [fmap option_fmap option_map]. do 2 f_equal. lia.
  - cbn [find_sub]. cbn [starts_with]. destruct (beqb_spec y b); [congruence |]. done.
Qed.

Lemma q_strstr_find (a s z pat : bytes) : pat <> [] ->
  q_strstr (a ++ s ++ z) (Z.of_nat (length a)) (Z.of_nat (length s)) pat (Z.of_nat (length pat))
  = Some ((fun n : nat => Z.of_nat (length a) + Z.of_nat n) <$> find_sub pat s).
Proof.
  intros Hp. unfold q_strstr. destruct (Z.leb_spec (Z.of_nat (length pat)) 0).
  { destruct pat; [done | cbn [length] in *; lia]. }
  destruct (Z.leb_spec (Z.of_nat (length s)) 0); cbn [orb]; [| by apply strstr_loop_find].
  rewrite find_sub_short by lia. done.
Qed.

End StrSearch.
