(* ===== verification/StrEdit.v ===== *)
(** * Replacing, splitting and trimming: src/include/common/qfunc.h

    [q_strrep] and [q_split] on their caller's buffers, proved to compute the
    fields between the left-to-right occurrences of the separator; the trims;
    [q_strdel] as it is written. *)

From S2P Require Import Prelude Arrays CLib StrSearch.
Import Arrays StrSearch.

Module StrEdit.

Implicit Types (src dest from to sep s t : bytes) (srclen p : Z).

(** [memcpy(dest+p2, src+p1, len)] *)
Definition memcpy dest (p2 : Z) src (p1 len : Z) : option bytes :=
  if (0 <=? len) && (0 <=? p1) && (p1 + len <=? Z.of_nat (length src)) && (0 <=? p2) && (p2 + len <=? Z.of_nat (length dest))
  then Some (list_inserts (Z.to_nat p2) (slice (Z.to_nat p1) (Z.to_nat len) src) dest)
  else None.

(** The loop of [q_strrep]; [p1] and [p2] are the offsets of the two pointers. *)
Fixpoint strrep_loop (fuel : nat) src (p1 p1end : Z) from (fromlen : Z) to (tolen : Z) dest (p2 p2end : Z)
    : option (Z * bytes) :=
  match fuel with
  | O => None
  | S fuel =>
      match q_strstr src p1 (p1end - p1) from fromlen with
      | None => None
      | Some None =>
          let len := p1end - p1 in
          if p2end <? p2 + len then Some (-2, dest)
          else dest ← memcpy dest p2 src p1 len; Some (p2 + len, dest)
      | Some (Some p) =>
          let len := p - p1 in
          if p2end <? p2 + len + tolen then Some (-2, dest)
          else
            dest ← memcpy dest p2 src p1 len;
            dest ← memcpy dest (p2 + len) to 0 tolen;
            strrep_loop fuel src (p + fromlen) p1end from fromlen to tolen dest (p2 + len + tolen) p2end
      end
  end.

Definition q_strrep src srclen from (fromlen : Z) to (tolen : Z) dest (max_size : Z) : option (Z * bytes) :=
  if (srclen <=? 0) || (fromlen <=? 0) || (tolen <=? 0) || (max_size <=? 0) then Some (-1, dest)
  else strrep_loop (S (Z.to_nat srclen)) src 0 srclen from fromlen to tolen dest 0 max_size.

(** [q_split] with positions: the first and the last offset of each field. *)
Fixpoint split_loop (fuel : nat) src srclen sep (seplen p1 n : Z) (pos : list Z) (pos_size : Z)
    : option (Z * list Z) :=
  match fuel with
  | O => None
  | S fuel =>
      match q_strstr src p1 (srclen - p1) sep seplen with
      | None => None
      | Some p2 =>
          if pos_size <? (n + 1) * 2 then Some (-1, pos)
          else
            match p2 with
            | Some p2 =>
                pos ← set pos (2 * n) p1;
                pos ← set pos (2 * n + 1) p2;
                split_loop fuel src srclen sep seplen (p2 + seplen) (n + 1) pos pos_size
            | None =>
                pos ← set pos (2 * n) p1;
                pos ← set pos (2 * n + 1) srclen;
                Some (n + 1, pos)
            end
      end
  end.

Definition q_split src srclen sep (seplen : Z) (pos : list Z) (pos_size : Z) : option (Z * list Z) :=
  if (srclen =? 0) || (seplen =? 0) then Some (0, pos)
  else split_loop (S (Z.to_nat srclen)) src srclen sep seplen 0 0 pos pos_size.

(** The loop of [q_strdel]; after a deletion the next byte is copied without a
    test. *)
Fixpoint strdel_loop (fuel : nat) src srclen (str : bytes) (len i j : Z) : option (Z * bytes) :=
  if i <? srclen then
    match fuel with
    | O => None
    | S fuel =>
        x ← get src i;
        y ← get str 0;
        found ← (if beqb x y then memeq src i str len else Some false);
        let i := if found : bool then i + len else i in
        src ← (if negb (j =? i) then x ← get src i; set src j x else Some src);
        strdel_loop fuel src srclen str len (i + 1) (j + 1)
    end
  else
    src ← set src j NUL;
    Some (j, src).

Definition q_strdel src srclen (str : bytes) (len : Z) : option (Z * bytes) :=
  if (srclen <=? 0) || (len <=? 0) then Some (-1, src)
  else strdel_loop (Z.to_nat srclen) src srclen str len 0 0.

(** ** Trimming *)

Definition is_blank (b : byte) : bool :=
  beqb b (byte_of 9) || beqb b (byte_of 10) || beqb b (byte_of 13) || beqb b (byte_of 32).

(** [while(beg_pos<=end_pos&&blank) beg_pos++], [n] bytes in between. *)
Fixpoint skip_left (n : nat) str (beg_pos : Z) : option Z :=
  match n with
  | O => Some beg_pos
  | S n => x ← get str beg_pos; if is_blank x then skip_left n str (beg_pos + 1) else Some beg_pos
  end.

Fixpoint skip_right (n : nat) str (end_pos : Z) : option Z :=
  match n with
  | O => Some end_pos
  | S n => x ← get str end_pos; if is_blank x then skip_right n str (end_pos - 1) else Some end_pos
  end.

(** The first and the last position, [None] inside when the function returns -1. *)
Definition q_trim_skip (str : bytes) (len : Z) : option (option (Z * Z)) :=
  beg_pos ← skip_left (Z.to_nat len) str 0;
  if len - 1 <? beg_pos then Some None
  else
    end_pos ← skip_right (Z.to_nat (len - beg_pos)) str (len - 1);
    if end_pos <? beg_pos then Some None else Some (Some (beg_pos, end_pos)).

(** The pointer into the string, which is cut after its last character. *)
Definition q_trim (str : bytes) (len : Z) : option (option Z * bytes) :=
  r ← q_trim_skip str len;
  match r with
  | None => Some (None, str)
  | Some (beg_pos, end_pos) => str ← set str (end_pos + 1) NUL; Some (Some beg_pos, str)
  end.

Definition q_right_trim (str : bytes) (len : Z) : option (Z * bytes) :=
  if len <=? 0 then Some (0, str)
  else
    end_pos ← skip_right (Z.to_nat len) str (len - 1);
    str ← set str (end_pos + 1) NUL;
    Some (end_pos + 1, str).

(** ** Fields *)

(** The pieces of [s] between the occurrences of [sep], from left to right. *)
Fixpoint fields_go (fuel : nat) sep s : list bytes :=
  match fuel, find_sub sep s with
  | S fuel, Some i => take i s :: fields_go fuel sep (drop (i + length sep) s)
  | _, _ => [s]
  end.

Definition fields sep s : list bytes := fields_go (length s) sep s.

Fixpoint join (sep : bytes) (l : list bytes) : bytes :=
  match l with
  | [] => []
  | [s] => s
  | s :: l => s ++ sep ++ join sep l
  end.

Lemma find_sub_range sep s i : find_sub sep s = Some i -> (i + length sep <= length s)%nat.
Proof.
  intros H. apply find_sub_some in H as (t & E & Hi). apply (f_equal length) in E.
  rewrite !length_app, <- Hi in E. lia.
Qed.

Lemma fields_go_fuel sep : sep <> [] -> forall f1 f2 s, (length s <= f1)%nat -> (length s <= f2)%nat ->
  fields_go f1 sep s = fields_go f2 sep s.
Proof.
  intros Hsep. assert (Hl : (0 < length sep)%nat) by (destruct sep; [done | cbn; lia]).
  induction f1 as [|f1 IH]; intros f2 s H1 H2; cbn [fields_go].
  - destruct f2; cbn [fields_go]; [done |]. destruct (find_sub sep s) as [i|] eqn:E; [| done].
    apply find_sub_range in E. lia.
  - destruct f2 as [|f2]; cbn [fields_go]; destruct (find_sub sep s) as [i|] eqn:E; try done;
      pose proof (find_sub_range _ _ _ E); [lia |]. f_equal. apply IH; rewrite length_drop; lia.
Qed.

Lemma fields_cons sep s i : sep <> [] -> find_sub sep s = Some i ->
  fields sep s = take i s :: fields sep (drop (i + length sep) s).
Proof.
  intros Hsep E. pose proof (find_sub_range _ _ _ E). assert (Hl : (0 < length sep)%nat) by (destruct sep; [done | cbn; lia]).
  unfold fields. destruct (length s) as [|n] eqn:En; [lia |]. cbn [fields_go]. rewrite E. f_equal.
  apply fields_go_fuel; [done | rewrite length_drop; lia | lia].
Qed.

Lemma fields_none sep s : find_sub sep s = None -> fields sep s = [s].
Proof. intros E. unfold fields. destruct (length s); cbn [fields_go]; by rewrite ?E. Qed.

Lemma fields_nonempty sep s : fields sep s <> [].
Proof. unfold fields. destruct (length s); cbn [fields_go]; [done |]. by destruct (find_sub sep s). Qed.

Lemma join_cons sep a l : l <> [] -> join sep (a :: l) = a ++ sep ++ join sep l.
Proof. by destruct l. Qed.

(** Induction along the fields. *)
Lemma fields_ind sep (P : bytes -> Prop) : sep <> [] ->
  (forall s, find_sub sep s = None -> P s) ->
  (forall s i, find_sub sep s = Some i -> P (drop (i + length sep) s) -> P s) -> forall s, P s.
Proof.
  intros Hsep H0 H1 s. assert (Hl : (0 < length sep)%nat) by (destruct sep; [done | cbn; lia]).
  induction s as [s IH] using (induction_ltof1 _ length). destruct (find_sub sep s) as [i|] eqn:E; [| by apply H0].
  apply (H1 s i E). apply IH. unfold ltof. pose proof (find_sub_range _ _ _ E). rewrite length_drop. lia.
Qed.

Lemma find_sub_split sep s i : find_sub sep s = Some i ->
  exists u t, s = u ++ sep ++ t /\ i = length u /\ take i s = u /\ drop (i + length sep) s = t.
Proof.
  intros E. apply find_sub_some in E as (t & Es & Hi). exists (take i s), t.
  assert (Hd : drop i s = sep ++ t) by (apply (app_inv_head (take i s)); by rewrite take_drop).
  do 3 (split; [done |]). rewrite <- drop_drop, Hd. apply drop_app_length.
Qed.

Lemma join_fields sep s : sep <> [] -> join sep (fields sep s) = s.
Proof.
  intros Hsep. revert s. apply (fields_ind sep _ Hsep); [intros s E; by rewrite fields_none | intros s i E IH].
  rewrite (fields_cons _ _ _ Hsep E), join_cons, IH by apply fields_nonempty.
  by apply find_sub_split in E as (u & t & -> & _ & -> & ->).
Qed.

(** ** What the loops compute *)

Lemma memcpy_spec (d r a m z : bytes) p2 p1 len : (length m <= length r)%nat ->
  p2 = Z.of_nat (length d) -> p1 = Z.of_nat (length a) -> len = Z.of_nat (length m) ->
  memcpy (d ++ r) p2 (a ++ m ++ z) p1 len = Some (d ++ m ++ drop (length m) r).
Proof.
  intros Hl -> -> ->. unfold memcpy. rewrite !length_app.
  repeat match goal with |- context [?x <=? ?y] => destruct (Z.leb_spec x y); [| lia] end. cbn [andb]. f_equal.
  rewrite !Nat2Z.id, slice_app_exact by done. rewrite <- (take_drop (length m) r) at 1.
  apply inserts_middle; [done | rewrite length_take; lia].
Qed.

Lemma strrep_loop_spec from to : from <> [] -> forall s (fuel : nat) a z d r (p1 p1end p2 p2end : Z),
  (length s < fuel)%nat -> p1 = Z.of_nat (length a) -> p1end = p1 + Z.of_nat (length s) ->
  p2 = Z.of_nat (length d) -> p2end <= Z.of_nat (length (d ++ r)) ->
  let J := join to (fields from s) in
  exists n dest', strrep_loop fuel (a ++ s ++ z) p1 p1end from (Z.of_nat (length from)) to (Z.of_nat (length to)) (d ++ r) p2 p2end
    = Some (n, dest') /\ length dest' = length (d ++ r) /\
    if p2 + Z.of_nat (length J) <=? p2end then n = p2 + Z.of_nat (length J) /\ dest' = d ++ J ++ drop (length J) r
    else n = -2.
Proof.
  intros Hf. refine (fields_ind from _ Hf _ _).
  - intros s E fuel a z d r p1 p1end p2 p2end Hfuel H1 H1e H2 H2e J. subst J. rewrite fields_none by done. cbn [join].
    destruct fuel as [|fuel]; [lia |]. cbn [strrep_loop]. rewrite length_app in H2e |- *.
    replace (p1end - p1) with (Z.of_nat (length s)) by lia. rewrite H1, q_strstr_find, E by done.
    cbn [fmap option_fmap option_map]. destruct (Z.ltb_spec p2end (p2 + Z.of_nat (length s))),
      (Z.leb_spec (p2 + Z.of_nat (length s)) p2end); try lia; [exists (-2), (d ++ r); by rewrite length_app |].
    rewrite memcpy_spec by lia. cbn [mbind option_bind]. eexists _, _. split; [done |].
    split; [rewrite !length_app, length_drop; lia | done].
  - intros s i E IH fuel a z d r p1 p1end p2 p2end Hfuel H1 H1e H2 H2e J.
    destruct (find_sub_split _ _ _ E) as (u & t & -> & -> & Hu & Ht). rewrite Ht in IH.
    assert (Hl : (0 < length from)%nat) by (destruct from; [done | cbn; lia]). rewrite !length_app in Hfuel, H1e.
    subst J. rewrite (fields_cons _ _ _ Hf E), Hu, Ht, join_cons by apply fields_nonempty. rewrite !length_app.
    destruct fuel as [|fuel]; [lia |]. cbn [strrep_loop]. rewrite length_app in H2e.
    replace (p1end - p1) with (Z.of_nat (length (u ++ from ++ t))) by (rewrite !length_app; lia).
    rewrite H1, q_strstr_find, E by done. cbn [fmap option_fmap option_map].
    replace (Z.of_nat (length a) + Z.of_nat (length u) - Z.of_nat (length a)) with (Z.of_nat (length u)) by lia.
    destruct (Z.ltb_spec p2end (p2 + Z.of_nat (length u) + Z.of_nat (length to))).
    { exists (-2), (d ++ r). split; [done |]. rewrite length_app. split; [done |].
      destruct (Z.leb_spec (p2 + Z.of_nat (length u + (length to + length (join to (fields from t))))) p2end); [lia | done]. }
    rewrite <- !(app_assoc u), <- (app_assoc from). rewrite memcpy_spec by lia. cbn [mbind option_bind].
    pose proof (memcpy_spec (d ++ u) (drop (length u) r) [] to [] (p2 + Z.of_nat (length u)) 0 (Z.of_nat (length to))) as Hcopy.
    rewrite app_nil_r, length_drop, length_app, <- !app_assoc in Hcopy. cbn [app length] in Hcopy. rewrite Hcopy by lia.
    cbn [mbind option_bind].
    destruct (IH fuel (a ++ u ++ from) z (d ++ u ++ to) (drop (length to) (drop (length u) r))
      (Z.of_nat (length a) + Z.of_nat (length u) + Z.of_nat (length from)) p1end
      (p2 + Z.of_nat (length u) + Z.of_nat (length to)) p2end)
      as (n & dest' & Hrun & Hdl & Hr); [lia | rewrite !length_app; lia | lia | rewrite !length_app; lia
        | rewrite !length_app, !length_drop; lia |].
    rewrite <- !app_assoc in Hrun. exists n, dest'. split; [exact Hrun |].
    split; [rewrite Hdl, !length_app, !length_drop; lia |].
    replace (p2 + Z.of_nat (length u + (length to + length (join to (fields from t)))))
      with (p2 + Z.of_nat (length u) + Z.of_nat (length to) + Z.of_nat (length (join to (fields from t)))) by lia.
    destruct (_ <=? p2end); [| done]. destruct Hr as [-> ->]. split; [done |].
    rewrite <- !app_assoc, !drop_drop. f_equal.
Qed.

(** The offsets of the fields of a string that starts at [off]. *)
Fixpoint spans (seplen off : Z) (l : list bytes) : list Z :=
  match l with
  | [] => []
  | f :: l => off :: off + Z.of_nat (length f) :: spans seplen (off + Z.of_nat (length f) + seplen) l
  end.

Lemma length_spans seplen l : forall off, length (spans seplen off l) = (2 * length l)%nat.
Proof. induction l as [|f l IH]; intros off; cbn; [done |]. rewrite IH. lia. Qed.

Lemma set_two (d r : list Z) (n x y : Z) : 2 * n = Z.of_nat (length d) -> (2 <= length r)%nat ->
  (pos ← set (d ++ r) (2 * n) x; set pos (2 * n + 1) y) = Some (d ++ x :: y :: drop 2 r).
Proof.
  intros Hn Hr. destruct r as [|u [|v r]]; [cbn in Hr; lia.. |]. rewrite set_in by (rewrite length_app; lia).
  cbn [mbind option_bind]. rewrite set_in by (rewrite length_insert, length_app; cbn [length]; lia). f_equal.
  rewrite !insert_app_r_alt by lia. replace (Z.to_nat (2 * n) - length d)%nat with 0%nat by lia.
  by replace (Z.to_nat (2 * n + 1) - length d)%nat with 1%nat by lia.
Qed.

Lemma split_loop_spec sep : sep <> [] -> forall s (fuel : nat) a z d r (srclen p1 n pos_size : Z),
  (length s < fuel)%nat -> p1 = Z.of_nat (length a) -> srclen = p1 + Z.of_nat (length s) ->
  2 * n = Z.of_nat (length d) -> pos_size <= Z.of_nat (length (d ++ r)) ->
  let l := fields sep s in
  exists k pos', split_loop fuel (a ++ s ++ z) srclen sep (Z.of_nat (length sep)) p1 n (d ++ r) pos_size = Some (k, pos') /\
    if 2 * (n + Z.of_nat (length l)) <=? pos_size
    then k = n + Z.of_nat (length l) /\ pos' = d ++ spans (Z.of_nat (length sep)) p1 l ++ drop (2 * length l) r
    else k = -1.
Proof.
  intros Hf. refine (fields_ind sep _ Hf _ _).
  - intros s E fuel a z d r srclen p1 n pos_size Hfuel H1 H1e H2 H2e l. subst l. rewrite fields_none by done. cbn [length spans].
    destruct fuel as [|fuel]; [lia |]. cbn [split_loop]. rewrite length_app in H2e.
    replace (srclen - p1) with (Z.of_nat (length s)) by lia. rewrite H1, q_strstr_find, E by done.
    cbn [fmap option_fmap option_map]. destruct (Z.ltb_spec pos_size ((n + 1) * 2)), (Z.leb_spec (2 * (n + Z.of_nat 1)) pos_size);
      try lia; [by eexists _, _ |].
    pose proof (set_two d r n (Z.of_nat (length a)) srclen H2 ltac:(lia)) as Hset. destruct (set (d ++ r) (2 * n) _) as [q|]; [| done].
    cbn [mbind option_bind] in Hset |- *. rewrite Hset. cbn [mbind option_bind]. eexists _, _. split; [done |]. split; [done |].
    cbn [app]. do 3 f_equal. lia.
  - intros s i E IH fuel a z d r srclen p1 n pos_size Hfuel H1 H1e H2 H2e l.
    destruct (find_sub_split _ _ _ E) as (u & t & -> & -> & Hu & Ht). rewrite Ht in IH.
    assert (Hl : (0 < length sep)%nat) by (destruct sep; [done | cbn; lia]). rewrite !length_app in Hfuel, H1e.
    subst l. rewrite (fields_cons _ _ _ Hf E), Hu, Ht. cbn [length spans].
    destruct fuel as [|fuel]; [lia |]. cbn [split_loop]. rewrite length_app in H2e.
    replace (srclen - p1) with (Z.of_nat (length (u ++ sep ++ t))) by (rewrite !length_app; lia).
    rewrite H1, q_strstr_find, E by done. cbn [fmap option_fmap option_map]. destruct (Z.ltb_spec pos_size ((n + 1) * 2)).
    { eexists _, _. split; [done |]. destruct (Z.leb_spec (2 * (n + Z.of_nat (S (length (fields sep t))))) pos_size); [lia | done]. }
    pose proof (set_two d r n (Z.of_nat (length a)) (Z.of_nat (length a) + Z.of_nat (length u)) H2 ltac:(lia)) as Hset.
    destruct (set (d ++ r) (2 * n) _) as [q|]; [| done].
    cbn [mbind option_bind] in Hset |- *. rewrite Hset. cbn [mbind option_bind].
    destruct (IH fuel (a ++ u ++ sep) z (d ++ [Z.of_nat (length a); Z.of_nat (length a) + Z.of_nat (length u)]) (drop 2 r) srclen
      (Z.of_nat (length a) + Z.of_nat (length u) + Z.of_nat (length sep)) (n + 1) pos_size) as (k & pos' & Hk & Hr);
      [lia | rewrite !length_app; lia | lia | rewrite !length_app; cbn [length]; lia
      | rewrite !length_app, length_drop; cbn [length]; lia |].
    exists k, pos'. rewrite <- !app_assoc in Hk |- *. rewrite <- (app_assoc d) in Hk. split; [exact Hk |].
    replace (2 * (n + Z.of_nat (S (length (fields sep t))))) with (2 * (n + 1 + Z.of_nat (length (fields sep t)))) by lia.
    destruct (_ <=? pos_size); [| done]. destruct Hr as [-> ->]. split; [lia |].
    rewrite <- !app_assoc, drop_drop. cbn [app]. do 5 f_equal. lia.
Qed.

(** [q_strrep] writes the source with every occurrence of [from], found from
    left to right, replaced by [to], when that fits the destination, and returns
    -2 otherwise; [q_split] writes the offsets of the fields between the
    separators, and returns their number, or -1 when the positions have no room
    for them.  The fields joined by the separator are the source. *)
Theorem q_strrep_q_split src sep to dest (pos : list Z) :
  src <> [] -> sep <> [] -> to <> [] -> dest <> [] ->
  let srclen := Z.of_nat (length src) in
  let seplen := Z.of_nat (length sep) in
  let l := fields sep src in
  let J := join to l in
  join sep l = src /\
  (exists n dest', q_strrep src srclen sep seplen to (Z.of_nat (length to)) dest (Z.of_nat (length dest)) = Some (n, dest') /\
     if (length J <=? length dest)%nat then n = Z.of_nat (length J) /\ dest' = J ++ drop (length J) dest else n = -2) /\
  (exists n pos', q_split src srclen sep seplen pos (Z.of_nat (length pos)) = Some (n, pos') /\
     if (2 * length l <=? length pos)%nat
     then n = Z.of_nat (length l) /\ pos' = spans seplen 0 l ++ drop (2 * length l) pos else n = -1).
Proof.
  intros Hsrc Hsep Hto Hdest srclen seplen l J.
  assert (Hlen : forall s : bytes, s <> [] -> 0 < Z.of_nat (length s)) by (intros [|]; cbn; [done | lia]).
  pose proof (Hlen _ Hsrc) as H1. pose proof (Hlen _ Hsep) as H2. pose proof (Hlen _ Hto) as H3. pose proof (Hlen _ Hdest) as H4.
  split; [by apply join_fields |]. split.
  - unfold q_strrep. destruct (Z.leb_spec srclen 0), (Z.leb_spec seplen 0), (Z.leb_spec (Z.of_nat (length to)) 0),
      (Z.leb_spec (Z.of_nat (length dest)) 0); try lia. cbn [orb].
    destruct (strrep_loop_spec sep to Hsep src (S (Z.to_nat srclen)) [] [] [] dest 0 srclen 0 (Z.of_nat (length dest)))
      as (n & dest' & Hrun & _ & Hr); [lia | done | lia | done | done |].
    rewrite app_nil_r in Hrun. exists n, dest'. split; [exact Hrun |]. fold l in Hr. fold J in Hr.
    destruct (Z.leb_spec (0 + Z.of_nat (length J)) (Z.of_nat (length dest))), (Nat.leb_spec (length J) (length dest)); try lia; done.
  - unfold q_split. destruct (Z.eqb_spec srclen 0) as [|_]; [lia |]. destruct (Z.eqb_spec seplen 0) as [|_]; [lia |]. cbn [orb].
    destruct (split_loop_spec sep Hsep src (S (Z.to_nat srclen)) [] [] [] pos srclen 0 0 (Z.of_nat (length pos)))
      as (n & pos' & Hrun & Hr); [lia | done | lia | done | done |].
    rewrite app_nil_r in Hrun. exists n, pos'. split; [exact Hrun |]. fold l in Hr.
    destruct (Z.leb_spec (2 * (0 + Z.of_nat (length l))) (Z.of_nat (length pos))), (Nat.leb_spec (2 * length l) (length pos)); try lia; done.
Qed.

Lemma q_strrep_q_split_witness :
  exists n dest', q_strrep (str "a, b, c") 7 (str ", ") 2 (str "--") 2 (replicate 10 NUL) 10 = Some (n, dest') /\
    n = 7 /\ take 7 dest' = str "a--b--c".
Proof.
  destruct (q_strrep_q_split (str "a, b, c") (str ", ") (str "--") (replicate 10 NUL) [0; 0; 0; 0; 0; 0])
    as (_ & (n & dest' & H & Hr) & _); [discriminate.. |].
  exists n, dest'. split; [exact H |]. vm_compute in Hr. destruct Hr as [-> ->]. split; reflexivity.
Defined.

(** ** Trimming *)

Lemma skip_left_spec (str : bytes) : forall (n : nat) i, 0 <= i -> i + Z.of_nat n <= Z.of_nat (length str) ->
  exists j, skip_left n str i = Some j /\ i <= j <= i + Z.of_nat n /\ all_in (fun x => is_blank x = true) i (j - 1) str /\
    (j < i + Z.of_nat n -> forall x, get str j = Some x -> is_blank x = false).
Proof.
  induction n as [|n IH]; intros i Hi Hn; cbn [skip_left].
  { exists i. split; [done |]. split; [lia |]. split; [intros k x Hk; lia | lia]. }
  destruct (get_is_Some str i) as [x Hx]; [lia |]. rewrite Hx. cbn [mbind option_bind]. destruct (is_blank x) eqn:E.
  - destruct (IH (i + 1)) as (j & -> & Hj & Hall & Hend); [lia.. |]. exists j. split; [done |]. split; [lia |].
    split; [| intros; apply Hend; [lia | done]]. intros k y Hk Hy.
    destruct (Z.eq_dec k i) as [->|]; [congruence | apply (Hall k); [lia | done]].
  - exists i. split; [done |]. split; [lia |]. split; [intros k y Hk; lia |]. intros _ y Hy. congruence.
Qed.

Lemma skip_right_spec (str : bytes) : forall (n : nat) j, 0 <= j + 1 - Z.of_nat n -> j < Z.of_nat (length str) ->
  exists i, skip_right n str j = Some i /\ j - Z.of_nat n <= i <= j /\ all_in (fun x => is_blank x = true) (i + 1) j str /\
    (j - Z.of_nat n < i -> forall x, get str i = Some x -> is_blank x = false).
Proof.
  induction n as [|n IH]; intros j Hj Hn; cbn [skip_right].
  { exists j. split; [done |]. split; [lia |]. split; [intros k x Hk; lia | lia]. }
  destruct (get_is_Some str j) as [x Hx]; [lia |]. rewrite Hx. cbn [mbind option_bind]. destruct (is_blank x) eqn:E.
  - destruct (IH (j - 1)) as (i & -> & Hi & Hall & Hend); [lia.. |]. exists i. split; [done |]. split; [lia |].
    split; [| intros; apply Hend; [lia | done]]. intros k y Hk Hy.
    destruct (Z.eq_dec k j) as [->|]; [congruence | apply (Hall k); [lia | done]].
  - exists j. split; [done |]. split; [lia |]. split; [intros k y Hk; lia |]. intros _ y Hy. congruence.
Qed.

(** [q_trim_skip] finds the first and the last byte that are not blank. *)
Lemma q_trim_skip_spec (str : bytes) (len : Z) : 0 <= len <= Z.of_nat (length str) ->
  exists r, q_trim_skip str len = Some r /\
    match r with
    | None => all_in (fun x => is_blank x = true) 0 (len - 1) str
    | Some (b, e) =>
        0 <= b <= e /\ e < len /\ all_in (fun x => is_blank x = true) 0 (b - 1) str /\
        all_in (fun x => is_blank x = true) (e + 1) (len - 1) str /\
        (forall x, get str b = Some x \/ get str e = Some x -> is_blank x = false)
    end.
Proof.
  intros Hl. unfold q_trim_skip.
  destruct (skip_left_spec str (Z.to_nat len) 0) as (b & -> & Hb & Hall & Hend); [lia.. |]. cbn [mbind option_bind].
  destruct (Z.ltb_spec (len - 1) b); [exists None; split; [done |]; by replace (len - 1) with (b - 1) by lia |].
  destruct (skip_right_spec str (Z.to_nat (len - b)) (len - 1)) as (e & -> & He & Hall' & Hend'); [lia.. |].
  cbn [mbind option_bind]. destruct (get_is_Some str b) as [x Hx]; [lia |]. pose proof (Hend ltac:(lia) x Hx) as Hbx.
  destruct (Z.ltb_spec e b).
  - rewrite (Hall' b x) in Hbx; [done | lia | done].
  - eexists. split; [done |]. split; [lia |]. split; [lia |]. split; [done |]. split; [done |].
    intros y [Hy|Hy]; [by apply Hend; [lia |] | by apply Hend'; [lia |]].
Qed.

(** [q_strdel] keeps the second of two occurrences in a row, and copies the byte
    after the string when an occurrence ends it. *)
Example q_strdel_adjacent : q_strdel (str "abab" ++ [NUL]) 4 (str "ab") 2 = Some (2, str "ab" ++ [NUL; x62; NUL]).
Proof. reflexivity. Qed.

Example q_strdel_end : q_strdel (str "xab" ++ [NUL]) 3 (str "ab") 2 = Some (2, str "x" ++ [NUL; NUL; NUL]).
Proof. reflexivity. Qed.

End StrEdit.
