(* ===== verification/UrlCodec.v ===== *)
(** * Encodings of strings and numbers: src/include/common/qfunc.h

    URL encoding and decoding, the [\u] escapes, identifiers in base 62 and the
    readers of decimal numbers, on the caller's buffers. *)

From S2P Require Import Prelude Arrays CLib.
Import Arrays.

Module UrlCodec.

Implicit Types (src dest : bytes) (b ch : byte).

Abbreviation in_range lo hi b := ((lo <=? char_val b) && (char_val b <=? hi))%Z (only parsing).

(** One digit of the inner loops: [c<<=4] and then [c|=...]; any other character adds nothing. *)
Definition hex_digit (c : Z) b : Z :=
  let c := Z.shiftl c 4 in
  if in_range 48 57 b then Z.lor c (char_val b - 48)
  else if in_range 97 102 b then Z.lor c (char_val b - 97 + 10)
  else if in_range 65 70 b then Z.lor c (char_val b - 65 + 10)
  else c.

(** The two characters from [i+k] on. *)
Definition hex_pair src (i k : Z) : option byte :=
  x ← get src (i + k);
  y ← get src (i + k + 1);
  Some (byte_of (Z.land (hex_digit (hex_digit 0 x) y) 0xff)).

(** [for(i=0, j=0; (i<iSrcLen)&&(j<iMaxSize); ++i)] and what follows it. *)
Fixpoint url_decode_loop (fuel : nat) src (iSrcLen : Z) dest (iMaxSize i j : Z) : option (Z * bytes) :=
  if (i <? iSrcLen) && (j <? iMaxSize) then
    match fuel with
    | O => None
    | S fuel =>
        ch ← get src i;
        if beqb ch x2b then dest ← set dest j x20; url_decode_loop fuel src iSrcLen dest iMaxSize (i + 1) (j + 1)
        else if beqb ch x25 && (i + 2 <? iSrcLen) then
          c ← hex_pair src i 1;
          dest ← set dest j c;
          url_decode_loop fuel src iSrcLen dest iMaxSize (i + 3) (j + 1)
        else dest ← set dest j ch; url_decode_loop fuel src iSrcLen dest iMaxSize (i + 1) (j + 1)
    end
  else if j =? iMaxSize then Some (-1, dest)
  else dest ← set dest j NUL; Some (j, dest).

Definition q_url_decode src (iSrcLen : Z) dest (iMaxSize : Z) : option (Z * bytes) :=
  if (iSrcLen <=? 0) || (iMaxSize <=? 0) then Some (-1, dest)
  else url_decode_loop (Z.to_nat iSrcLen) src iSrcLen dest iMaxSize 0 0.

(** The characters copied as they are. *)
Definition is_plain ch : bool :=
  in_range 65 90 ch || in_range 97 122 ch || in_range 48 57 ch ||
  beqb ch x2e || beqb ch x2d || beqb ch x5f || beqb ch x2a.

(** ["%02X"] of a byte. *)
Definition hex_upper (d : Z) : byte := byte_of (if d <? 10 then 48 + d else 55 + d).
Definition fmt_02X ch : bytes := [hex_upper (byte_val ch / 16); hex_upper (byte_val ch mod 16)].

Fixpoint url_encode_loop (fuel : nat) src (iSrcLen : Z) dest (iMaxSize i j : Z) : option (Z * bytes) :=
  if (i <? iSrcLen) && (j <? iMaxSize) then
    match fuel with
    | O => None
    | S fuel =>
        ch ← get src i;
        if is_plain ch then dest ← set dest j ch; url_encode_loop fuel src iSrcLen dest iMaxSize (i + 1) (j + 1)
        else if beqb ch x20 then dest ← set dest j x2b; url_encode_loop fuel src iSrcLen dest iMaxSize (i + 1) (j + 1)
        else if j + 3 <? iMaxSize then
          if j + 3 <? Z.of_nat (length dest)
          then url_encode_loop fuel src iSrcLen (list_inserts (Z.to_nat j) (x25 :: fmt_02X ch ++ [NUL]) dest) iMaxSize (i + 1) (j + 3)
          else None
        else Some (-2, dest)
    end
  else if j =? iMaxSize then Some (-1, dest)
  else dest ← set dest j NUL; Some (j, dest).

Definition q_url_encode src (iSrcLen : Z) dest (iMaxSize : Z) : option (Z * bytes) :=
  if (iSrcLen <=? 0) || (iMaxSize <=? 0) then Some (-1, dest)
  else url_encode_loop (Z.to_nat iSrcLen) src iSrcLen dest iMaxSize 0 0.

(** An escape gives the low byte and then the high byte; only the first of the two
    writes is covered by the test [j<iMaxSize]. *)
Fixpoint unicode_decode_loop (fuel : nat) src (iSrcLen : Z) dest (iMaxSize i j : Z) : option (Z * bytes) :=
  if (i <? iSrcLen) && (j <? iMaxSize) then
    match fuel with
    | O => None
    | S fuel =>
        ch ← get src i;
        escape ← (if beqb ch x5c && (i + 5 <? iSrcLen) then u ← get src (i + 1); Some (beqb u x75) else Some false);
        if escape : bool then
          low ← hex_pair src i 4;
          dest ← set dest j low;
          high ← hex_pair src i 2;
          dest ← set dest (j + 1) high;
          unicode_decode_loop fuel src iSrcLen dest iMaxSize (i + 6) (j + 2)
        else dest ← set dest j ch; unicode_decode_loop fuel src iSrcLen dest iMaxSize (i + 1) (j + 1)
    end
  else if j =? iMaxSize then Some (-1, dest)
  else dest ← set dest j NUL; Some (j, dest).

Definition q_unicode_hex_decode src (iSrcLen : Z) dest (iMaxSize : Z) : option (Z * bytes) :=
  if (iSrcLen <=? 0) || (iMaxSize <=? 0) then Some (-1, dest)
  else unicode_decode_loop (Z.to_nat iSrcLen) src iSrcLen dest iMaxSize 0 0.

(** ** Base 62 *)

Abbreviation alphabet62 := (str "ABCDEFGHIJKLMNOPQRSTUVWXYZabcdefghijklmnopqrstuvwxyz0123456789") (only parsing).

(** [while(rest)]: the characters are put in front of the string. *)
Fixpoint id_loop (fuel : nat) (rest : Z) (s : bytes) : option bytes :=
  if rest =? 0 then Some s
  else match fuel with
       | O => None
       | S fuel => ch ← get alphabet62 (rest - rest / 62 * 62); id_loop fuel (rest / 62) (ch :: s)
       end.

(** A number of 64 bits has at most 11 digits. *)
Definition q_id_to_62string (value : Z) : option bytes := id_loop 11 value [].

(** From the last character to the first; an unknown character throws. *)
Fixpoint from62_loop (s : bytes) (multiple result : Z) : option Z :=
  match s with
  | [] => Some result
  | ch :: s =>
      pos ← find_byte ch alphabet62;
      from62_loop s (u64 (multiple * 62)) (u64 (result + u64 (Z.of_nat pos * multiple)))
  end.

Definition q_62string_to_id (s : bytes) : option Z := from62_loop (reverse s) 1 0.

(** ** Decimal numbers *)

(** The common loop: [wrap] is the width of the result, [n] the characters left. *)
Fixpoint read_decimal (wrap : Z -> Z) (n : nat) src (pos val : Z) : option Z :=
  match n with
  | O => Some val
  | S n =>
      x ← get src pos;
      if in_range 48 57 x then read_decimal wrap n src (pos + 1) (wrap (wrap (10 * val) + (char_val x - 48)))
      else Some val
  end.

Definition q_stoi src (srclen : Z) : option Z := read_decimal i32 (Z.to_nat srclen) src 0 0.
Definition q_stoui src (srclen : Z) : option Z := read_decimal u32 (Z.to_nat srclen) src 0 0.
Definition q_stol src (srclen : Z) : option Z := read_decimal i64 (Z.to_nat (if 22 <? srclen then 22 else srclen)) src 0 0.
Definition q_stoull src (srclen : Z) : option Z :=
  read_decimal u64 (Z.to_nat (if 22 <? srclen then 22 else srclen)) src 0 0.

(** ** The round trip of a URL *)

Definition enc_byte b : bytes :=
  if is_plain b then [b] else if beqb b x20 then [x2b] else x25 :: fmt_02X b.

Definition enc (s : bytes) : bytes := concat (enc_byte <$> s).

(** Every byte and its escape. *)
Lemma plain_byte b : is_plain b = true -> beqb b x2b = false /\ beqb b x25 = false.
Proof. destruct b; vm_compute; by try split. Qed.

Lemma escaped_byte b :
  byte_of (Z.land (hex_digit (hex_digit 0 (hex_upper (byte_val b / 16))) (hex_upper (byte_val b mod 16))) 0xff) = b.
Proof. destruct b; vm_compute; reflexivity. Qed.

Lemma set_here (d r : bytes) (x : byte) j : j = Z.of_nat (length d) -> (0 < length r)%nat ->
  set (d ++ r) j x = Some ((d ++ [x]) ++ drop 1 r).
Proof.
  intros -> Hr. destruct r as [|y r]; [cbn in Hr; lia |]. rewrite set_in by (rewrite length_app; cbn [length]; lia).
  rewrite Nat2Z.id, insert_app_r_alt, Nat.sub_diag by lia. by rewrite <- app_assoc.
Qed.

Lemma get_here (a z : bytes) (x : byte) i : i = Z.of_nat (length a) -> get (a ++ x :: z) i = Some x.
Proof. intros ->. apply get_Some. split; [lia |]. rewrite Nat2Z.id. by apply list_lookup_middle. Qed.

Lemma enc_cons b s : enc (b :: s) = enc_byte b ++ enc s.
Proof. done. Qed.

Lemma length_enc_byte b : (1 <= length (enc_byte b) <= 3)%nat.
Proof. unfold enc_byte. destruct (is_plain b); [cbn; lia |]. destruct (beqb b x20); cbn; lia. Qed.

Lemma length_enc s : (length s <= length (enc s) <= 3 * length s)%nat.
Proof.
  induction s as [|b s IH]; [cbn; lia |]. rewrite enc_cons, length_app. pose proof (length_enc_byte b). cbn [length]. lia.
Qed.

Lemma url_encode_loop_spec (z : bytes) (iSrcLen iMaxSize : Z) : forall s (fuel : nat) a d r i j,
  (length s <= fuel)%nat -> i = Z.of_nat (length a) -> iSrcLen = i + Z.of_nat (length s) -> j = Z.of_nat (length d) ->
  j + Z.of_nat (length (enc s)) < iMaxSize <= Z.of_nat (length (d ++ r)) ->
  exists r', url_encode_loop fuel (a ++ s ++ z) iSrcLen (d ++ r) iMaxSize i j
    = Some (j + Z.of_nat (length (enc s)), d ++ enc s ++ r') /\ length (d ++ enc s ++ r') = length (d ++ r).
Proof.
  induction s as [|b s IH]; intros fuel a d r i j Hf Hi Hl Hj Hm; rewrite length_app in Hm.
  { assert (Hend : (i <? iSrcLen) = false) by (apply Z.ltb_ge; cbn [length] in Hl; lia).
    change (enc []) with (@nil byte) in *. cbn [length app] in *.
    destruct fuel; cbn [url_encode_loop]; rewrite Hend; cbn [andb]; (destruct (Z.eqb_spec j iMaxSize); [lia |]);
      (rewrite set_here by lia; cbn [mbind option_bind]; exists ([NUL] ++ drop 1 r);
       rewrite <- app_assoc, Z.add_0_r; split; [done |]; rewrite !length_app, length_drop; cbn [length]; lia). }
  rewrite enc_cons, length_app in *. cbn [length] in Hf, Hl. pose proof (length_enc_byte b).
  destruct fuel as [|fuel]; [lia |]. cbn [url_encode_loop]. destruct (Z.ltb_spec i iSrcLen); [| lia].
  destruct (Z.ltb_spec j iMaxSize); [| lia]. cbn [andb app]. rewrite get_here by done. cbn [mbind option_bind].
  assert (Hstep : forall (e : bytes) j', length e = length (enc_byte b) -> j' = j + Z.of_nat (length e) ->
    exists r', url_encode_loop fuel (a ++ b :: s ++ z) iSrcLen ((d ++ e) ++ drop (length e) r) iMaxSize (i + 1) j'
      = Some (j + Z.of_nat (length (enc_byte b) + length (enc s)), d ++ (e ++ enc s) ++ r') /\
      length (d ++ (e ++ enc s) ++ r') = length (d ++ r)).
  { intros e j' He Hj'. rewrite (cons_middle b a), (app_assoc a).
    destruct (IH fuel (a ++ [b]) (d ++ e) (drop (length e) r) (i + 1) j') as (r' & Hr & Hlen);
      [lia | rewrite length_app; cbn [length]; lia | lia | rewrite length_app; lia
      | rewrite !length_app, length_drop; lia |].
    exists r'. rewrite Hr, <- !app_assoc. split; [f_equal; f_equal; lia |].
    rewrite !length_app, ?length_drop in *. lia. }
  unfold enc_byte in *. destruct (is_plain b).
  { rewrite set_here by lia. cbn [mbind option_bind]. apply (Hstep [b] (j + 1)); cbn [length]; lia. }
  destruct (beqb b x20).
  { rewrite set_here by lia. cbn [mbind option_bind]. apply (Hstep [x2b] (j + 1)); cbn [length]; lia. }
  cbn [length fmt_02X] in *. destruct (Z.ltb_spec (j + 3) iMaxSize); [| lia]. rewrite length_app.
  destruct (Z.ltb_spec (j + 3) (Z.of_nat (length d + length r))); [| lia].
  rewrite (inserts_app_r _ d r) by lia. replace (Z.to_nat j - length d)%nat with 0%nat by lia.
  rewrite inserts_zero by (cbn [length app fmt_02X]; lia). change (x25 :: fmt_02X b ++ [NUL]) with ((x25 :: fmt_02X b) ++ [NUL]).
  rewrite <- (app_assoc (x25 :: fmt_02X b)), app_assoc.
  destruct (IH fuel (a ++ [b]) (d ++ x25 :: fmt_02X b) ([NUL] ++ drop (length ((x25 :: fmt_02X b) ++ [NUL])) r) (i + 1) (j + 3))
    as (r' & Hr & Hlen); [lia | rewrite length_app; cbn [length]; lia | lia | rewrite length_app; cbn [length fmt_02X]; lia
      | rewrite !length_app, length_drop; cbn [length app fmt_02X]; lia |].
  exists r'. rewrite <- (app_assoc a) in Hr. cbn [app] in Hr. cbn [app]. rewrite Hr.
  split; [f_equal; f_equal; [lia | by rewrite <- !app_assoc] |].
  rewrite !length_app, ?length_drop in *. cbn [length app fmt_02X] in *. rewrite ?length_app, ?length_drop in *.
  cbn [length] in *. lia.
Qed.

Lemma url_decode_loop_spec (z : bytes) (iSrcLen iMaxSize : Z) : forall s (fuel : nat) a d r i j,
  (length s <= fuel)%nat -> i = Z.of_nat (length a) -> iSrcLen = i + Z.of_nat (length (enc s)) -> j = Z.of_nat (length d) ->
  j + Z.of_nat (length s) < iMaxSize <= Z.of_nat (length (d ++ r)) ->
  exists r', url_decode_loop fuel (a ++ enc s ++ z) iSrcLen (d ++ r) iMaxSize i j
    = Some (j + Z.of_nat (length s), d ++ s ++ r') /\ length (d ++ s ++ r') = length (d ++ r).
Proof.
  induction s as [|b s IH]; intros fuel a d r i j Hf Hi Hl Hj Hm; rewrite length_app in Hm.
  { change (enc []) with (@nil byte) in *. cbn [length app] in *.
    assert (Hend : (i <? iSrcLen) = false) by (apply Z.ltb_ge; lia).
    destruct fuel; cbn [url_decode_loop]; rewrite Hend; cbn [andb]; (destruct (Z.eqb_spec j iMaxSize); [lia |]);
      (rewrite set_here by lia; cbn [mbind option_bind]; exists ([NUL] ++ drop 1 r);
       rewrite <- app_assoc, Z.add_0_r; split; [done |]; rewrite !length_app, length_drop; cbn [length]; lia). }
  rewrite enc_cons, length_app in Hl. rewrite enc_cons. cbn [length] in Hf, Hm. pose proof (length_enc_byte b). pose proof (length_enc s).
  destruct fuel as [|fuel]; [lia |]. cbn [url_decode_loop]. destruct (Z.ltb_spec i iSrcLen); [| lia].
  destruct (Z.ltb_spec j iMaxSize); [| lia]. cbn [andb].
  assert (Hstep : forall i', i' = i + Z.of_nat (length (enc_byte b)) ->
    exists r', url_decode_loop fuel (a ++ (enc_byte b ++ enc s) ++ z) iSrcLen ((d ++ [b]) ++ drop 1 r) iMaxSize i' (j + 1)
      = Some (j + Z.of_nat (length (b :: s)), d ++ (b :: s) ++ r') /\ length (d ++ (b :: s) ++ r') = length (d ++ r)).
  { intros i' Hi'. rewrite <- (app_assoc (enc_byte b)), (app_assoc a).
    destruct (IH fuel (a ++ enc_byte b) (d ++ [b]) (drop 1 r) i' (j + 1)) as (r' & Hr & Hlen);
      [lia | rewrite length_app; lia | lia | rewrite length_app; cbn [length]; lia
      | rewrite !length_app, length_drop; cbn [length]; lia |].
    exists r'. rewrite Hr. cbn [length]. rewrite <- !app_assoc. split; [f_equal; f_equal; lia |].
    rewrite !length_app, ?length_drop in *. cbn [length] in *. lia. }
  unfold enc_byte in *. destruct (is_plain b) eqn:Ep.
  { destruct (plain_byte b Ep) as [Hp1 Hp2]. cbn [app] in *. rewrite get_here by done. cbn [mbind option_bind].
    rewrite Hp1, Hp2. cbn [andb]. rewrite set_here by lia. cbn [mbind option_bind]. apply Hstep. done. }
  destruct (beqb_spec b x20) as [->|].
  { cbn [app] in *. rewrite get_here by done. cbn [mbind option_bind]. change (beqb x2b x2b) with true. cbn iota.
    rewrite set_here by lia. cbn [mbind option_bind]. apply Hstep. done. }
  cbn [app fmt_02X length] in *. rewrite get_here by done. cbn [mbind option_bind]. change (beqb x25 x2b) with false.
  change (beqb x25 x25) with true. cbn iota. destruct (Z.ltb_spec (i + 2) iSrcLen); [| lia]. cbn [andb].
  assert (Hpair : forall h l t, hex_pair (a ++ x25 :: h :: l :: t) i 1 = Some (byte_of (Z.land (hex_digit (hex_digit 0 h) l) 0xff))).
  { intros h l t. unfold hex_pair. rewrite (cons_middle x25), (app_assoc a).
    rewrite (get_here (a ++ [x25]) (l :: t) h (i + 1)) by (rewrite length_app; cbn [length]; lia). cbn [mbind option_bind].
    rewrite (cons_middle h), (app_assoc (a ++ [x25])), get_here by (rewrite !length_app; cbn [length]; lia). done. }
  rewrite Hpair. cbn [mbind option_bind]. rewrite escaped_byte, set_here by lia. cbn [mbind option_bind]. apply Hstep. lia.
Qed.

(** C30. What [q_url_encode] writes, [q_url_decode] reads back: for every byte
    string, when the two destinations are large enough neither call fails and
    the second returns the string. *)
Theorem q_url_roundtrip src coded plain :
  src <> [] -> (3 * length src < length coded)%nat -> (length src < length plain)%nat ->
  exists n coded' plain',
    q_url_encode src (Z.of_nat (length src)) coded (Z.of_nat (length coded)) = Some (n, coded') /\
    q_url_decode coded' n plain (Z.of_nat (length plain)) = Some (Z.of_nat (length src), plain') /\
    take (length src) plain' = src.
Proof.
  intros Hsrc Hc Hp. assert (H0 : (0 < length src)%nat) by (destruct src; [done | cbn; lia]). pose proof (length_enc src).
  destruct (url_encode_loop_spec [] (Z.of_nat (length src)) (Z.of_nat (length coded)) src (length src) [] [] coded 0 0)
    as (r & Hr & Hlen); [lia | done | lia | done | cbn [app]; lia |].
  destruct (url_decode_loop_spec r (Z.of_nat (length (enc src))) (Z.of_nat (length plain)) src (Z.to_nat (Z.of_nat (length (enc src)))) [] [] plain 0 0)
    as (r' & Hr' & _); [lia | done | lia | done | cbn [app]; lia |].
  cbn [app] in *. rewrite app_nil_r in Hr. exists (Z.of_nat (length (enc src))), (enc src ++ r), (src ++ r').
  unfold q_url_encode, q_url_decode. rewrite Nat2Z.id.
  repeat match goal with |- context [?x <=? 0] => destruct (Z.leb_spec x 0); [lia |] end. cbn [orb].
  split; [exact Hr |]. split; [exact Hr' |]. apply take_app_length.
Qed.

Lemma q_url_roundtrip_witness :
  exists n coded' plain',
    q_url_encode (str "a b&c") 5 (replicate 16 NUL) 16 = Some (n, coded') /\ take 7 coded' = str "a+b%26c" /\
    q_url_decode coded' n (replicate 6 NUL) 6 = Some (5, plain') /\ take 5 plain' = str "a b&c".
Proof.
  destruct (q_url_roundtrip (str "a b&c") (replicate 16 NUL) (replicate 6 NUL)) as (n & c & p & H1 & H2 & H3);
    [discriminate | cbn; lia | cbn; lia |].
  exists n, c, p. split; [exact H1 |]. split; [vm_compute in H1; injection H1 as _ <-; reflexivity |]. split; [exact H2 | exact H3].
Defined.

(** An escape at the last byte of the destination is written past its end. *)
Example q_unicode_hex_decode_overflow :
  q_unicode_hex_decode (str "\u4e2d") 6 [NUL] 1 = None /\
  q_unicode_hex_decode (str "\u4e2d") 6 [NUL; NUL; NUL] 3 = Some (2, [x2d; x4e; NUL]).
Proof. split; reflexivity. Qed.

(** ** Numbers *)

Lemma alphabet62_spec : Forall (fun d => exists ch, get alphabet62 (Z.of_nat d) = Some ch /\ find_byte ch alphabet62 = Some d) (seq 0 62).
Proof. repeat (constructor; [eexists; split; reflexivity |]). constructor. Qed.

Lemma digit62 d : 0 <= d < 62 -> exists ch, get alphabet62 d = Some ch /\ find_byte ch alphabet62 = Some (Z.to_nat d).
Proof.
  intros Hd. pose proof (proj1 (Forall_forall _ _) alphabet62_spec (Z.to_nat d)) as H. cbn beta in H.
  rewrite Z2Nat.id in H by lia. apply H. apply elem_of_seq. lia.
Qed.

Lemma from62_step (res mult pos q : Z) :
  u64 (u64 (res + u64 (pos * mult)) + u64 (mult * 62) * q) = u64 (res + mult * (62 * q + pos)).
Proof.
  unfold u64. rewrite Z.add_mod_idemp_l by lia. rewrite <- (Z.add_mod_idemp_r _ ((mult * 62) mod 2 ^ 64 * q)) by lia.
  rewrite Z.mul_mod_idemp_l, Z.add_mod_idemp_r by lia.
  replace (res + (pos * mult) mod 2 ^ 64 + mult * 62 * q) with (res + mult * 62 * q + (pos * mult) mod 2 ^ 64) by lia.
  rewrite Z.add_mod_idemp_r by lia. f_equal. lia.
Qed.

Lemma id_loop_spec : forall (fuel : nat) rest s, 0 <= rest < 62 ^ Z.of_nat fuel ->
  exists ds, id_loop fuel rest s = Some (reverse ds ++ s) /\
    forall mult res, is_u64 res -> from62_loop ds mult res = Some (u64 (res + mult * rest)).
Proof.
  induction fuel as [|fuel IH]; intros rest s Hr; cbn [id_loop]; (destruct (Z.eqb_spec rest 0) as [->|Hne];
    [exists []; split; [done |]; intros mult res Hres; cbn [from62_loop]; by rewrite Z.mul_0_r, Z.add_0_r, u64_small |]).
  { cbn in Hr. lia. }
  rewrite Nat2Z.inj_succ, Z.pow_succ_r in Hr by lia.
  replace (rest - rest / 62 * 62) with (rest mod 62) by (rewrite Z.mod_eq by lia; lia).
  destruct (digit62 (rest mod 62)) as (ch & Hg & Hf); [apply Z.mod_pos_bound; lia |]. rewrite Hg. cbn [mbind option_bind].
  destruct (IH (rest / 62) (ch :: s)) as (ds & -> & Hds);
    [split; [apply Z.div_pos; lia | apply Z.div_lt_upper_bound; lia] |].
  exists (ch :: ds). rewrite reverse_cons, <- app_assoc. split; [done |]. intros mult res Hres. cbn [from62_loop].
  rewrite Hf. cbn [mbind option_bind]. rewrite Hds by apply u64_range. f_equal. rewrite from62_step.
  rewrite Z2Nat.id by (apply Z.mod_pos_bound; lia). do 3 f_equal. pose proof (Z.div_mod rest 62). lia.
Qed.

Lemma digit_char_range d : 0 <= d < 10 -> in_range 48 57 (digit_char d) = true /\ char_val (digit_char d) - 48 = d.
Proof.
  intros Hd. assert (d = 0 \/ d = 1 \/ d = 2 \/ d = 3 \/ d = 4 \/ d = 5 \/ d = 6 \/ d = 7 \/ d = 8 \/ d = 9) as H by lia.
  repeat destruct H as [-> | H]; subst; split; reflexivity.
Qed.

Lemma read_decimal_spec (wrap : Z -> Z) (B : Z) : (forall z, 0 <= z <= B -> wrap z = z) ->
  forall ds a pos val, Forall (fun d => 0 <= d < 10) ds -> pos = Z.of_nat (length a) -> 0 <= val ->
  foldl (fun acc d => 10 * acc + d) val ds <= B ->
  read_decimal wrap (length ds) (a ++ (digit_char <$> ds)) pos val = Some (foldl (fun acc d => 10 * acc + d) val ds).
Proof.
  intros Hw. induction ds as [|d ds IH]; intros a pos val Hall Hp Hv HB; cbn [length read_decimal fmap list_fmap foldl] in *; [done |].
  apply Forall_cons in Hall as [Hd Hall]. destruct (digit_char_range d Hd) as [Hr He].
  rewrite get_here by done. cbn [mbind option_bind]. rewrite Hr, He.
  assert (Hmono : forall l v, Forall (fun d => 0 <= d < 10) l -> 0 <= v -> v <= foldl (fun acc d => 10 * acc + d) v l).
  { clear. induction l as [|x l IH]; intros v Hl Hv; cbn [foldl]; [lia |]. apply Forall_cons in Hl as [Hx Hl].
    specialize (IH (10 * v + x) Hl ltac:(lia)). lia. }
  pose proof (Hmono ds (10 * val + d) Hall ltac:(lia)).
  rewrite (Hw (10 * val)), (Hw (10 * val + d)) by lia.
  rewrite (cons_middle (digit_char d)), (app_assoc a). apply IH; [done | rewrite length_app; cbn [length]; lia | lia | done].
Qed.

Lemma read_decimal_fmt (wrap : Z -> Z) (B n : Z) : (forall z, 0 <= z <= B -> wrap z = z) -> 0 <= n <= B ->
  read_decimal wrap (length (fmt_u n)) (fmt_u n) 0 0 = Some n.
Proof.
  intros Hw Hn. unfold fmt_u. rewrite length_fmap.
  assert (Hh : foldl (fun acc d => 10 * acc + d) 0 (to_base 10 n) = n) by (apply (horner_to_base 10); lia).
  etransitivity; [apply (read_decimal_spec wrap B Hw (to_base 10 n) [] 0 0) |]; [| done | lia | rewrite Hh; lia | by rewrite Hh].
  apply (to_base_range 10 n); lia.
Qed.

(** Numbers written out are read back: a 64-bit identifier from its base-62
    string, and a decimal number by each of the readers whose width it fits. *)
Theorem number_roundtrips (n : Z) : 0 <= n < 2 ^ 64 ->
  let s := fmt_u n in
  let len := Z.of_nat (length s) in
  (exists id, q_id_to_62string n = Some id /\ q_62string_to_id id = Some n) /\
  q_stoull s len = Some n /\ (n < 2 ^ 63 -> q_stol s len = Some n) /\
  (n < 2 ^ 32 -> q_stoui s len = Some n) /\ (n < 2 ^ 31 -> q_stoi s len = Some n).
Proof.
  intros Hn s len. split.
  { destruct (id_loop_spec 11 n []) as (ds & Hid & Hback); [lia |]. exists (reverse ds ++ []). split; [exact Hid |].
    unfold q_62string_to_id. rewrite app_nil_r, reverse_involutive, Hback by (unfold is_u64; lia).
    f_equal. rewrite Z.mul_1_l, Z.add_0_l. apply u64_small. unfold is_u64. lia. }
  assert (Hlen : (length s <= 20)%nat) by (apply length_fmt_u; lia).
  assert (Hmax : (if 22 <? len then 22 else len) = len) by (destruct (Z.ltb_spec 22 len); lia).
  unfold q_stoull, q_stol, q_stoui, q_stoi. rewrite Hmax. subst len. rewrite Nat2Z.id. split; [| split; [| split]].
  - apply (read_decimal_fmt u64 (2 ^ 64 - 1)); [intros z Hz; apply u64_small; unfold is_u64; lia | lia].
  - intros H. apply (read_decimal_fmt i64 (2 ^ 63 - 1)); [intros z Hz; apply sgn_small; lia | lia].
  - intros H. apply (read_decimal_fmt u32 (2 ^ 32 - 1)); [intros z Hz; apply u32_small; unfold is_u32; lia | lia].
  - intros H. apply (read_decimal_fmt i32 (2 ^ 31 - 1)); [intros z Hz; apply sgn_small; lia | lia].
Qed.

Lemma number_roundtrips_witness :
  (exists id, q_id_to_62string 3844 = Some id /\ q_62string_to_id id = Some 3844) /\ q_stoull (str "3844") 4 = Some 3844.
Proof. destruct (number_roundtrips 3844 ltac:(lia)) as [H1 [H2 _]]. split; [exact H1 | exact H2]. Defined.

End UrlCodec.
