(* ===== verification/RedBlack.v ===== *)
(** * Red-black tree: src/include/common/qredblacktree.h

    [QRedBlackTree] on an explicit heap: nodes with parent, left and right
    pointers, the shared leaf [m_leaf], rotations and the two repair loops
    statement by statement.  The mirror images of the source are one definition
    with a side, except in [DeleteFixup], whose two branches differ.  Reading or
    writing through a pointer that is not a node is [None]. *)

From stdpp Require Import gmap.
From S2P Require Import Prelude Arrays.
Import Arrays.

Module RedBlack.

Inductive NODE_COLOR : Type := RED | BLACK.

#[export] Instance color_eq : EqDecision NODE_COLOR.
Proof. solve_decision. Defined.

(** The side of a child, and of a rotation. *)
Inductive side : Type := Left | Right.

Definition opp (d : side) : side := match d with Left => Right | Right => Left end.

#[local] Notation loc := positive.

Abbreviation MAX_TREE_SIZE := (400000)%Z (only parsing).

Section model.
Context {K V : Type} {key : Key K}.
(** [operator==] of the key type. *)
Variable eqb : K -> K -> bool.

Record RBNode : Type := mkNode {
  color : NODE_COLOR;
  nkey : K;
  value : V;
  count : Z;
  parent : loc;
  left : loc;
  right : loc
}.

#[local] Notation heap := (gmap loc RBNode).

Definition set_color c (n : RBNode) := mkNode c (nkey n) (value n) (count n) (parent n) (left n) (right n).
Definition set_value v (n : RBNode) := mkNode (color n) (nkey n) v (count n) (parent n) (left n) (right n).
Definition set_count z (n : RBNode) := mkNode (color n) (nkey n) (value n) z (parent n) (left n) (right n).
Definition set_parent p (n : RBNode) := mkNode (color n) (nkey n) (value n) (count n) p (left n) (right n).
Definition child (d : side) (n : RBNode) : loc := match d with Left => left n | Right => right n end.
Definition set_child (d : side) x (n : RBNode) : RBNode :=
  match d with
  | Left => mkNode (color n) (nkey n) (value n) (count n) (parent n) x (right n)
  | Right => mkNode (color n) (nkey n) (value n) (count n) (parent n) (left n) x
  end.

(** [a->field=...] *)
Definition upd (h : heap) (a : loc) (f : RBNode -> RBNode) : option heap :=
  n ← h !! a; Some (<[a := f n]> h).

Record QRedBlackTree : Type := mkTree {
  nodes : heap;
  m_root : loc;
  m_leaf : loc;
  node_num : Z
}.

(** [LeftRotate] for the side [Left], [RightRotate] for [Right]. *)
Definition rotate (leaf : loc) (d : side) (h : heap) (root sub_root : loc) : option (heap * loc) :=
  s ← h !! sub_root;
  let temp_node := child (opp d) s in
  t ← h !! temp_node;
  h ← upd h sub_root (set_child (opp d) (child d t));
  t ← h !! temp_node;
  h ← (if bool_decide (child d t = leaf) then Some h else upd h (child d t) (set_parent sub_root));
  s ← h !! sub_root;
  h ← upd h temp_node (set_parent (parent s));
  s ← h !! sub_root;
  r ← (if bool_decide (parent s = leaf) then Some (h, temp_node)
       else
         p ← h !! parent s;
         h ← upd h (parent s) (set_child (if bool_decide (sub_root = left p) then Left else Right) temp_node);
         Some (h, root));
  h ← upd (fst r) temp_node (set_child d sub_root);
  h ← upd h sub_root (set_parent temp_node);
  Some (h, snd r).

(** The body of the loop of [InsertFixup] for a red parent that is the [d]
    child of the grandparent: the next node, or [None] inside after a [break]. *)
Definition fixup_round (leaf : loc) (d : side) (h : heap) (root node : loc) : option (heap * loc * option loc) :=
  n ← h !! node;
  p ← h !! parent n;
  g ← h !! parent p;
  let uncle_node := child (opp d) g in
  u ← h !! uncle_node;
  if bool_decide (color u = RED) then
    h ← upd h (parent n) (set_color BLACK);
    h ← upd h uncle_node (set_color BLACK);
    u ← h !! uncle_node;
    h ← upd h (parent u) (set_color RED);
    Some (h, root, Some (parent u))
  else
    r ← (if bool_decide (node = child (opp d) p)
         then s ← rotate leaf d h root (parent n); Some (fst s, snd s, parent n)
         else Some (h, root, node));
    let '(h, root, node) := r in
    n ← h !! node;
    h ← upd h (parent n) (set_color BLACK);
    n ← h !! node;
    p ← h !! parent n;
    h ← upd h (parent p) (set_color RED);
    n ← h !! node;
    p ← h !! parent n;
    s ← rotate leaf (opp d) h root (parent p);
    Some (fst s, snd s, None).

Fixpoint fixup_loop (fuel : nat) (leaf : loc) (h : heap) (root node : loc) : option (heap * loc) :=
  n ← h !! node;
  p ← h !! parent n;
  if bool_decide (color p = RED) then
    match fuel with
    | O => None
    | S fuel =>
        g ← h !! parent p;
        match fixup_round leaf (if bool_decide (parent n = left g) then Left else Right) h root node with
        | Some (h, root, Some node) => fixup_loop fuel leaf h root node
        | Some (h, root, None) => Some (h, root)
        | None => None
        end
    end
  else Some (h, root).

Definition InsertFixup (fuel : nat) (leaf : loc) (h : heap) (root node : loc) : option (heap * loc) :=
  r ← fixup_loop fuel leaf h root node;
  h ← upd (fst r) (snd r) (set_color BLACK);
  Some (h, snd r).

(** The constructor; [m_leaf] is a new node. *)
Definition construct (leaf : loc) (n : RBNode) : QRedBlackTree :=
  mkTree {[ leaf := mkNode BLACK (nkey n) (value n) 1 leaf leaf leaf ]} leaf leaf 0.

(** [while(cur_node!=m_leaf)] of [insert]: the node with the key, or the parent
    of the place for it. *)
Fixpoint descend (fuel : nat) (leaf : loc) (h : heap) (cur_node pre_node : loc) (_key : K) : option (loc + loc) :=
  if bool_decide (cur_node = leaf) then Some (inr pre_node)
  else match fuel with
       | O => None
       | S fuel =>
           c ← h !! cur_node;
           if eqb (nkey c) _key then Some (inl cur_node)
           else descend fuel leaf h (if ltb _key (nkey c) then left c else right c) cur_node _key
       end.

(** [new_node] is what [new] returns, [garbage] the count of the new node, which
    its constructor does not set; the fuel is the number of nodes. *)
Definition insert (_key : K) (_value : V) (cover_flag count_flag : bool) (new_node : option loc) (garbage : Z)
    (t : QRedBlackTree) : option (Z * QRedBlackTree) :=
  if MAX_TREE_SIZE <? node_num t then Some (-10, t)
  else
    let leaf := m_leaf t in
    let fuel := size (nodes t) in
    place ← descend fuel leaf (nodes t) (m_root t) leaf _key;
    match place with
    | inl cur_node =>
        c ← nodes t !! cur_node;
        h ← (if cover_flag then upd (nodes t) cur_node (set_value _value)
             else if count_flag then upd (nodes t) cur_node (set_count (i32 (count c + 1)))
             else Some (nodes t));
        Some (1, mkTree h (m_root t) leaf (node_num t))
    | inr pre_node =>
        match new_node with
        | None => Some (-1, t)
        | Some a =>
            let h := <[a := mkNode RED _key _value garbage pre_node leaf leaf]> (nodes t) in
            r ← (if bool_decide (pre_node = leaf) then Some (h, a)
                 else
                   p ← h !! pre_node;
                   h ← upd h pre_node (set_child (if ltb _key (nkey p) then Left else Right) a);
                   Some (h, m_root t));
            s ← InsertFixup fuel leaf (fst r) (snd r) a;
            Some (0, mkTree (fst s) (snd s) leaf (node_num t + 1))
        end
    end.

Fixpoint search_loop (fuel : nat) (leaf : loc) (h : heap) (node : loc) (_key : K) : option (option V) :=
  if bool_decide (node = leaf) then Some None
  else match fuel with
       | O => None
       | S fuel =>
           n ← h !! node;
           if eqb _key (nkey n) then Some (Some (value n))
           else search_loop fuel leaf h (if ltb _key (nkey n) then left n else right n) _key
       end.

(** 0 and the value, or -1. *)
Definition search (_key : K) (t : QRedBlackTree) : option (Z * option V) :=
  r ← search_loop (size (nodes t)) (m_leaf t) (nodes t) (m_root t) _key;
  Some (match r with Some _ => 0 | None => -1 end, r).

(** ** Removal *)

(** The three statements of [DeleteFixup] that are assignments in the left branch
    and comparisons, without effect, in the right one. *)
Definition store (d : side) (h : heap) (a : loc) (c : NODE_COLOR) : option heap :=
  match d with Left => upd h a (set_color c) | Right => _ ← h !! a; Some h end.

(** The body of the loop of [DeleteFixup] for a node that is the [d] child. *)
Definition delete_round (leaf : loc) (d : side) (h : heap) (root node : loc) : option (heap * loc * loc) :=
  n ← h !! node;
  p ← h !! parent n;
  let brother := child (opp d) p in
  b ← h !! brother;
  r ← (if bool_decide (color b = RED) then
         h ← store d h brother BLACK;
         h ← upd h (parent n) (set_color RED);
         s ← rotate leaf d h root (parent n);
         n ← fst s !! node;
         p ← fst s !! parent n;
         Some (fst s, snd s, child (opp d) p)
       else Some (h, root, brother));
  let '(h, root, brother) := r in
  b ← h !! brother;
  near ← h !! left b;
  both ← (if bool_decide (color near = BLACK) then far ← h !! right b; Some (bool_decide (color far = BLACK)) else Some false);
  if both : bool then
    h ← upd h brother (set_color RED);
    n ← h !! node;
    Some (h, root, parent n)
  else
    outer ← h !! child (opp d) b;
    r ← (if bool_decide (color outer = BLACK) then
           h ← store d h brother RED;
           h ← store d h (child d b) BLACK;
           s ← rotate leaf (opp d) h root brother;
           n ← fst s !! node;
           p ← fst s !! parent n;
           Some (fst s, snd s, child (opp d) p)
         else Some (h, root, brother));
    let '(h, root, brother) := r in
    b ← h !! brother;
    bp ← h !! parent b;
    h ← upd h brother (set_color (color bp));
    h ← upd h (parent b) (set_color BLACK);
    h ← upd h (child (opp d) b) (set_color BLACK);
    s ← rotate leaf d h root (parent b);
    Some (fst s, snd s, snd s).

Fixpoint delete_loop (fuel : nat) (leaf : loc) (h : heap) (root node : loc) : option (heap * loc * loc) :=
  n ← h !! node;
  if bool_decide (node <> root) && bool_decide (color n = BLACK) then
    match fuel with
    | O => None
    | S fuel =>
        p ← h !! parent n;
        match delete_round leaf (if bool_decide (node = left p) then Left else Right) h root node with
        | Some (h, root, node) => delete_loop fuel leaf h root node
        | None => None
        end
    end
  else Some (h, root, node).

Definition DeleteFixup (fuel : nat) (leaf : loc) (h : heap) (root node : loc) : option (heap * loc) :=
  match delete_loop fuel leaf h root node with
  | Some (h, root, node) => h ← upd h node (set_color BLACK); Some (h, root)
  | None => None
  end.

(** [while(del_node->left!=m_leaf) del_node=del_node->left] *)
Fixpoint leftmost (fuel : nat) (leaf : loc) (h : heap) (del_node : loc) : option loc :=
  n ← h !! del_node;
  if bool_decide (left n = leaf) then Some del_node
  else match fuel with O => None | S fuel => leftmost fuel leaf h (left n) end.

Fixpoint find_node (fuel : nat) (leaf : loc) (h : heap) (node : loc) (_key : K) : option (option loc) :=
  if bool_decide (node = leaf) then Some None
  else match fuel with
       | O => None
       | S fuel =>
           n ← h !! node;
           if eqb _key (nkey n) then Some (Some node)
           else find_node fuel leaf h (if ltb _key (nkey n) then left n else right n) _key
       end.

Definition unlink (leaf : loc) (t : QRedBlackTree) (h : heap) (node : loc) : option (Z * QRedBlackTree) :=
  n ← h !! node;
  del_node ← (if bool_decide (left n = leaf) || bool_decide (right n = leaf) then Some node
              else leftmost (size h) leaf h (right n));
  d ← h !! del_node;
  let cur_node := if bool_decide (left d <> leaf) then left d else right d in
  h ← upd h cur_node (set_parent (parent d));
  r ← (if bool_decide (parent d = leaf) then Some (h, cur_node)
       else
         p ← h !! parent d;
         h ← upd h (parent d) (set_child (if bool_decide (del_node = left p) then Left else Right) cur_node);
         Some (h, m_root t));
  h ← (if bool_decide (del_node <> node)
       then upd (fst r) node (fun n => mkNode (color n) (nkey d) (value d) (count n) (parent n) (left n) (right n))
       else Some (fst r));
  s ← (if bool_decide (color d = BLACK) then DeleteFixup (2 * size h) leaf h (snd r) cur_node else Some (h, snd r));
  Some (0, mkTree (delete del_node (fst s)) (snd s) leaf (node_num t - 1)).

Definition remove (_key : K) (count_flag : bool) (t : QRedBlackTree) : option (Z * QRedBlackTree) :=
  let leaf := m_leaf t in
  found ← find_node (size (nodes t)) leaf (nodes t) (m_root t) _key;
  match found with
  | None => Some (1, t)
  | Some node =>
      n ← nodes t !! node;
      if count_flag then
        h ← upd (nodes t) node (set_count (i32 (count n - 1)));
        if 0 <? i32 (count n - 1) then Some (2, mkTree h (m_root t) leaf (node_num t)) else unlink leaf t h node
      else unlink leaf t (nodes t) node
  end.

(** ** Size and destruction *)

Fixpoint size_loop (fuel : nat) (leaf : loc) (h : heap) (node : loc) (tree_size : Z) : option Z :=
  if bool_decide (node = leaf) then Some tree_size
  else match fuel with
       | O => None
       | S fuel =>
           n ← h !! node;
           tree_size ← size_loop fuel leaf h (left n) (tree_size + 1);
           size_loop fuel leaf h (right n) tree_size
       end.

Definition GetTreeSize (t : QRedBlackTree) : option Z := size_loop (size (nodes t)) (m_leaf t) (nodes t) (m_root t) 0.

(** [Destroy(root)]: the children first, then [delete root]. *)
Fixpoint destroy_loop (fuel : nat) (leaf : loc) (h : heap) (root : loc) : option heap :=
  match fuel with
  | O => None
  | S fuel =>
      n ← h !! root;
      h ← (if bool_decide (left n <> leaf) then destroy_loop fuel leaf h (left n) else Some h);
      n ← h !! root;
      h ← (if bool_decide (right n <> leaf) then destroy_loop fuel leaf h (right n) else Some h);
      _ ← h !! root;
      Some (delete root h)
  end.

Definition Destroy (t : QRedBlackTree) : option (Z * QRedBlackTree) :=
  if bool_decide (m_root t = m_leaf t) then Some (1, t)
  else h ← destroy_loop (size (nodes t)) (m_leaf t) (nodes t) (m_root t);
       Some (0, mkTree h (m_leaf t) (m_leaf t) (node_num t)).

End model.

Arguments RBNode : clear implicits.
Arguments QRedBlackTree : clear implicits.

End RedBlack.
