(* ===== verification/RBInsert.v ===== *)
(** * Red-black tree, the proofs: src/include/common/qredblacktree.h

    A heap of nodes represents a functional tree; a position in it is a path
    to the root.  The rotations and the repair loop of [RedBlack] are followed
    on that representation: they keep the order of the contents and restore the
    colours and the black heights after an insertion. *)

From stdpp Require Import gmap.
From S2P Require Import Prelude Arrays RedBlack.
Import Arrays RedBlack.

Module RBInsert.

#[local] Notation loc := positive.
#[local] Notation heap K V := (gmap positive (RBNode K V)).

(** What the pieces of a duplicate-free list of nodes are to each other. *)
Ltac apart H := repeat (rewrite NoDup_cons in H || rewrite NoDup_app in H); destruct_and?.

Section trees.
Context {K V : Type}.

Record info : Type := mkInfo { ia : loc; ic : NODE_COLOR; ik : K; iv : V; icnt : Z }.

Inductive tree : Type :=
  | Leaf
  | Node (i : info) (l r : tree).

(** A node with its child on the side [d] first. *)
Definition mk (d : side) (i : info) (x y : tree) : tree :=
  match d with Left => Node i x y | Right => Node i y x end.

Definition node_at (d : side) (i : info) (p x y : loc) : RBNode K V :=
  match d with
  | Left => mkNode (ic i) (ik i) (iv i) (icnt i) p x y
  | Right => mkNode (ic i) (ik i) (iv i) (icnt i) p y x
  end.

Definition paint (c : NODE_COLOR) (i : info) : info := mkInfo (ia i) c (ik i) (iv i) (icnt i).

Lemma child_at d i p x y : child d (node_at d i p x y) = x.
Proof. by destruct d. Qed.
Lemma child_opp_at d i p x y : child (opp d) (node_at d i p x y) = y.
Proof. by destruct d. Qed.
Lemma parent_at d i p x y : parent (node_at d i p x y) = p.
Proof. by destruct d. Qed.
Lemma color_at d i p x y : color (node_at d i p x y) = ic i.
Proof. by destruct d. Qed.
Lemma nkey_at d i p x y : nkey (node_at d i p x y) = ik i.
Proof. by destruct d. Qed.
Lemma set_child_at d i p x y z : set_child d z (node_at d i p x y) = node_at d i p z y.
Proof. by destruct d. Qed.
Lemma set_child_opp_at d i p x y z : set_child (opp d) z (node_at d i p x y) = node_at d i p x z.
Proof. by destruct d. Qed.
Lemma set_parent_at d i p x y q : set_parent q (node_at d i p x y) = node_at d i q x y.
Proof. by destruct d. Qed.
Lemma set_color_at d i p x y c : set_color c (node_at d i p x y) = node_at d (paint c i) p x y.
Proof. by destruct d. Qed.
Lemma node_at_opp d i p x y : node_at (opp d) i p x y = node_at d i p y x.
Proof. by destruct d. Qed.

End trees.

Arguments info : clear implicits.
Arguments tree : clear implicits.

(** ** Representation *)

Section representation.
Context {K V : Type}.
Variable leaf : loc.
Implicit Types (h : heap K V) (t : tree K V) (p q x root : loc) (i : info K V).

Definition ptr t : loc := match t with Leaf => leaf | Node i _ _ => ia i end.

Fixpoint rep h t p : Prop :=
  match t with
  | Leaf => True
  | Node i l r => h !! ia i = Some (node_at Left i p (ptr l) (ptr r)) /\ rep h l (ia i) /\ rep h r (ia i)
  end.

Fixpoint locs t : list loc :=
  match t with
  | Leaf => []
  | Node i l r => ia i :: locs l ++ locs r
  end.

Lemma rep_mk h d i t u p :
  rep h (mk d i t u) p <-> h !! ia i = Some (node_at d i p (ptr t) (ptr u)) /\ rep h t (ia i) /\ rep h u (ia i).
Proof. destruct d; cbn; [done |]. naive_solver. Qed.

Lemma ptr_mk d i t u : ptr (mk d i t u) = ia i.
Proof. by destruct d. Qed.

Lemma locs_mk d i t u : locs (mk d i t u) ≡ₚ ia i :: locs t ++ locs u.
Proof. destruct d; cbn; [done |]. by rewrite Permutation_app_comm. Qed.

Lemma rep_frame h h' t p : (forall a, a ∈ locs t -> h' !! a = h !! a) -> rep h t p -> rep h' t p.
Proof.
  revert p. induction t as [|i l IHl r IHr]; intros p H; cbn in *; [done |]. intros (H1 & H2 & H3).
  split; [rewrite H by (by left); done |]. split; [apply IHl | apply IHr]; try done; intros a Ha; apply H; set_solver.
Qed.

Lemma ptr_in t : ptr t = leaf \/ ptr t ∈ locs t.
Proof. destruct t; cbn; [by left | right; set_solver]. Qed.

Lemma ptr_ne t a : a <> leaf -> a ∉ locs t -> a <> ptr t.
Proof. intros H1 H2 ->. destruct (ptr_in t); contradiction. Qed.

(** A path from a position to the root. *)
Record frame : Type := mkFrame { fs : side; fi : info K V; fsib : tree K V }.

Implicit Types (ctx : list frame) (f : frame).

Definition ctx_ptr ctx : loc := match ctx with [] => leaf | f :: _ => ia (fi f) end.

Fixpoint rep_ctx h ctx x root : Prop :=
  match ctx with
  | [] => root = x
  | f :: ctx =>
      h !! ia (fi f) = Some (node_at (fs f) (fi f) (ctx_ptr ctx) x (ptr (fsib f))) /\
      rep h (fsib f) (ia (fi f)) /\ rep_ctx h ctx (ia (fi f)) root
  end.

Fixpoint ctx_locs ctx : list loc :=
  match ctx with
  | [] => []
  | f :: ctx => ia (fi f) :: locs (fsib f) ++ ctx_locs ctx
  end.

Fixpoint plug ctx t : tree K V :=
  match ctx with
  | [] => t
  | f :: ctx => plug ctx (mk (fs f) (fi f) t (fsib f))
  end.

Lemma rep_ctx_frame h h' ctx : forall x root,
  (forall a, a ∈ ctx_locs ctx -> h' !! a = h !! a) -> rep_ctx h ctx x root -> rep_ctx h' ctx x root.
Proof.
  induction ctx as [|f ctx IH]; intros x root H; cbn in *; [done |]. intros (H1 & H2 & H3).
  split; [rewrite H by (by left); done |]. split.
  - eapply rep_frame; [| exact H2]. intros a Ha. apply H. set_solver.
  - apply IH; [| done]. intros a Ha. apply H. set_solver.
Qed.

Lemma ctx_ptr_in ctx : ctx_ptr ctx = leaf \/ ctx_ptr ctx ∈ ctx_locs ctx.
Proof. destruct ctx; cbn; [by left | right; set_solver]. Qed.

Lemma locs_plug ctx : forall t, locs (plug ctx t) ≡ₚ locs t ++ ctx_locs ctx.
Proof.
  induction ctx as [|f ctx IH]; intros t; cbn; [by rewrite app_nil_r |]. rewrite IH, locs_mk. solve_Permutation.
Qed.

Lemma rep_plug h ctx root : forall t,
  rep h t (ctx_ptr ctx) /\ rep_ctx h ctx (ptr t) root <-> rep h (plug ctx t) leaf /\ root = ptr (plug ctx t).
Proof.
  induction ctx as [|f ctx IH]; intros t; cbn; [done |]. rewrite <- IH, rep_mk, ptr_mk. naive_solver.
Qed.

(** ** Rotations *)

(** [if(x!=m_leaf) x->parent=q] on a subtree. *)
Lemma reparent h t p q : leaf ∉ locs t -> NoDup (locs t) -> rep h t p ->
  exists h', (if bool_decide (ptr t = leaf) then Some h else upd h (ptr t) (set_parent q)) = Some h' /\
    rep h' t q /\ forall a, a ∉ locs t -> h' !! a = h !! a.
Proof.
  intros Hl Hn Hr. destruct t as [|i l r]; cbn [ptr].
  { rewrite bool_decide_eq_true_2 by done. by exists h. }
  cbn [rep locs] in *. apply NoDup_cons in Hn as [Hi Hn]. destruct Hr as (H1 & H2 & H3).
  rewrite bool_decide_eq_false_2 by set_solver. unfold upd. rewrite H1. cbn [mbind option_bind]. eexists. split; [done |].
  rewrite set_parent_at. split.
  - cbn [rep]. rewrite lookup_insert_eq. split; [done |]. split; (eapply rep_frame; [| done]); intros a Ha; apply lookup_insert_ne; set_solver.
  - intros a Ha. apply lookup_insert_ne. set_solver.
Qed.

(** Where the parent of a position points to it. *)
Lemma relink h ctx x y root : x <> leaf -> x ∉ ctx_locs ctx -> leaf ∉ ctx_locs ctx -> NoDup (ctx_locs ctx) ->
  rep_ctx h ctx x root ->
  exists h' root',
    (if bool_decide (ctx_ptr ctx = leaf) then Some (h, y)
     else p ← h !! ctx_ptr ctx;
          h ← upd h (ctx_ptr ctx) (set_child (if bool_decide (x = left p) then Left else Right) y);
          Some (h, root)) = Some (h', root') /\
    rep_ctx h' ctx y root' /\ forall a, a ∉ ctx_locs ctx -> h' !! a = h !! a.
Proof.
  intros Hx Hxc Hl Hn Hr. destruct ctx as [|f ctx]; cbn [ctx_ptr ctx_locs rep_ctx] in *.
  { rewrite bool_decide_eq_true_2 by done. by exists h, y. }
  rewrite bool_decide_eq_false_2 by set_solver. destruct Hr as (H1 & H2 & H3). apply NoDup_cons in Hn as [Hi Hn].
  rewrite H1. cbn [mbind option_bind]. unfold upd. rewrite H1. cbn [mbind option_bind].
  assert (Hside : (if bool_decide (x = left (node_at (fs f) (fi f) (ctx_ptr ctx) x (ptr (fsib f)))) then Left else Right) = fs f).
  { destruct (fs f); cbn [node_at left]; [by rewrite bool_decide_eq_true_2 |]. rewrite bool_decide_eq_false_2; [done |]. destruct (ptr_in (fsib f)); set_solver. }
  rewrite Hside, set_child_at. eexists _, _. split; [done |]. rewrite lookup_insert_eq. split; [split; [done |]; split |].
  - eapply rep_frame; [| done]. intros a Ha. apply lookup_insert_ne. set_solver.
  - eapply rep_ctx_frame; [| done]. intros a Ha. apply lookup_insert_ne. set_solver.
  - intros a Ha. apply lookup_insert_ne. set_solver.
Qed.

Lemma upd_at h a (n : RBNode K V) g : h !! a = Some n -> upd h a g = Some (<[a := g n]> h).
Proof. intros H. unfold upd. by rewrite H. Qed.

(** A write outside a tree, or outside a path. *)
Lemma rep_insert h t p a n : a ∉ locs t -> rep h t p -> rep (<[a := n]> h) t p.
Proof. intros Ha. apply rep_frame. intros b Hb. apply lookup_insert_ne. set_solver. Qed.

Lemma rep_ctx_insert h ctx x root a n : a ∉ ctx_locs ctx -> rep_ctx h ctx x root -> rep_ctx (<[a := n]> h) ctx x root.
Proof. intros Ha. apply rep_ctx_frame. intros b Hb. apply lookup_insert_ne. set_solver. Qed.

Lemma rotate_spec d h ctx root (A B : info K V) X M Y :
  NoDup (leaf :: ia A :: ia B :: locs X ++ locs M ++ locs Y ++ ctx_locs ctx) ->
  rep h (mk d A X (mk d B M Y)) (ctx_ptr ctx) -> rep_ctx h ctx (ia A) root ->
  exists h' root', rotate leaf d h root (ia A) = Some (h', root') /\
    rep h' (mk d B (mk d A X M) Y) (ctx_ptr ctx) /\ rep_ctx h' ctx (ia B) root' /\ h' !! leaf = h !! leaf.
Proof.
  intros Hn Hr Hc. rewrite !rep_mk, ptr_mk in Hr. destruct Hr as (HA & HX & HB & HM & HY). apart Hn.
  unfold rotate. rewrite HA. cbn [mbind option_bind]. rewrite child_opp_at, HB. cbn [mbind option_bind].
  rewrite (upd_at _ _ _ _ HA), child_at, set_child_opp_at. cbn [mbind option_bind].
  set (h1 := <[ia A := _]> h). assert (HB1 : h1 !! ia B = Some (node_at d B (ia A) (ptr M) (ptr Y)))
    by (subst h1; rewrite lookup_insert_ne by set_solver; done).
  rewrite HB1. cbn [mbind option_bind]. rewrite child_at.
  assert (HM1 : rep h1 M (ia B)) by (apply rep_insert; [set_solver | done]).
  destruct (reparent h1 M (ia B) (ia A)) as (h2 & -> & HM2 & Hf2); [set_solver | done | done |]. cbn [mbind option_bind].
  assert (HA2 : h2 !! ia A = Some (node_at d A (ctx_ptr ctx) (ptr X) (ptr M)))
    by (rewrite Hf2 by set_solver; apply lookup_insert_eq).
  assert (HB2 : h2 !! ia B = Some (node_at d B (ia A) (ptr M) (ptr Y))) by (rewrite Hf2 by set_solver; done).
  assert (HX2 : rep h2 X (ia A)).
  { eapply rep_frame; [intros a Ha; apply Hf2; set_solver |]. apply rep_insert; [set_solver | done]. }
  assert (HY2 : rep h2 Y (ia B)).
  { eapply rep_frame; [intros a Ha; apply Hf2; set_solver |]. apply rep_insert; [set_solver | done]. }
  assert (HC2 : rep_ctx h2 ctx (ia A) root).
  { eapply rep_ctx_frame; [intros a Ha; apply Hf2; set_solver |]. apply rep_ctx_insert; [set_solver | done]. }
  assert (Hl2 : h2 !! leaf = h !! leaf) by (rewrite Hf2 by set_solver; apply lookup_insert_ne; set_solver).
  clear h1 HB1 HM1 Hf2. rewrite HA2. cbn [mbind option_bind]. rewrite parent_at, (upd_at _ _ _ _ HB2), set_parent_at.
  cbn [mbind option_bind]. set (h3 := <[ia B := _]> h2).
  assert (HA3 : h3 !! ia A = Some (node_at d A (ctx_ptr ctx) (ptr X) (ptr M)))
    by (subst h3; rewrite lookup_insert_ne by set_solver; done).
  rewrite HA3. cbn [mbind option_bind]. rewrite parent_at.
  destruct (relink h3 ctx (ia A) (ia B) root) as (h4 & root' & -> & HC4 & Hf4); [set_solver | set_solver | set_solver | done | |].
  { apply rep_ctx_insert; [set_solver | done]. }
  cbn [mbind option_bind fst snd].
  assert (HB4 : h4 !! ia B = Some (node_at d B (ctx_ptr ctx) (ptr M) (ptr Y)))
    by (rewrite Hf4 by set_solver; apply lookup_insert_eq).
  rewrite (upd_at _ _ _ _ HB4), set_child_at. cbn [mbind option_bind].
  assert (HA5 : <[ia B := node_at d B (ctx_ptr ctx) (ia A) (ptr Y)]> h4 !! ia A = Some (node_at d A (ctx_ptr ctx) (ptr X) (ptr M)))
    by (rewrite lookup_insert_ne, Hf4 by set_solver; done).
  rewrite (upd_at _ _ _ _ HA5), set_parent_at. cbn [mbind option_bind]. eexists _, _. split; [done |].
  assert (Hsub : forall t q, rep h2 t q -> ia A ∉ locs t -> ia B ∉ locs t -> (forall a, a ∈ locs t -> a ∉ ctx_locs ctx) ->
    rep (<[ia A := node_at d A (ia B) (ptr X) (ptr M)]> (<[ia B := node_at d B (ctx_ptr ctx) (ia A) (ptr Y)]> h4)) t q).
  { intros t q Ht H1' H2' H3'. do 2 (apply rep_insert; [done |]). eapply rep_frame; [intros a Ha; apply Hf4; by apply H3' |].
    by apply rep_insert. }
  split; [| split].
  - rewrite !rep_mk, ptr_mk. rewrite lookup_insert_eq, lookup_insert_ne, lookup_insert_eq by set_solver.
    split; [done |]. split; [split; [done |]; split |]; apply Hsub; try done; set_solver.
  - do 2 (apply rep_ctx_insert; [set_solver |]). done.
  - rewrite !lookup_insert_ne by set_solver. rewrite Hf4 by set_solver. subst h3. rewrite lookup_insert_ne by set_solver. done.
Qed.

(** ** Contents in order *)

Fixpoint items t : list (loc * (K * V * Z)) :=
  match t with
  | Leaf => []
  | Node i l r => items l ++ (ia i, (ik i, iv i, icnt i)) :: items r
  end.

Lemma locs_items t : locs t ≡ₚ (items t).*1.
Proof.
  induction t as [|i l IHl r IHr]; cbn; [done |]. rewrite fmap_app, IHl, IHr. cbn. solve_Permutation.
Qed.

Lemma items_locs t u : items t = items u -> locs t ≡ₚ locs u.
Proof. intros H. by rewrite !locs_items, H. Qed.

Lemma mk_opp d i t u : mk (opp d) i t u = mk d i u t.
Proof. by destruct d. Qed.

Lemma opp_opp d : opp (opp d) = d.
Proof. by destruct d. Qed.

Lemma items_mk d i j t t' u u' : items t = items t' -> items u = items u' -> ia i = ia j -> ik i = ik j -> iv i = iv j ->
  icnt i = icnt j -> items (mk d i t u) = items (mk d j t' u').
Proof. intros H1 H2 H3 H4 H5 H6. destruct d; cbn; by rewrite H1, H2, H3, H4, H5, H6. Qed.

Lemma items_rotate d A B X M Y : items (mk d B (mk d A X M) Y) = items (mk d A X (mk d B M Y)).
Proof. destruct d; cbn; by rewrite <- !app_assoc. Qed.

Lemma items_plug ctx : forall t u, items t = items u -> items (plug ctx t) = items (plug ctx u).
Proof. induction ctx as [|f ctx IH]; intros t u H; cbn; [done |]. apply IH. by apply items_mk. Qed.

(** ** Colours and black heights *)

Inductive rb : NODE_COLOR -> nat -> tree K V -> Prop :=
  | rb_leaf : rb BLACK 0 Leaf
  | rb_red i l r n : ic i = RED -> rb BLACK n l -> rb BLACK n r -> rb RED n (Node i l r)
  | rb_black i l r n c c' : ic i = BLACK -> rb c n l -> rb c' n r -> rb BLACK (S n) (Node i l r).

(** A position that takes a tree of the given colour and black height. *)
Inductive rbc : NODE_COLOR -> nat -> list frame -> Prop :=
  | rbc_nil n : rbc BLACK n []
  | rbc_red n f ctx : ic (fi f) = RED -> rb BLACK n (fsib f) -> rbc RED n ctx -> rbc BLACK n (f :: ctx)
  | rbc_black c c' n f ctx : ic (fi f) = BLACK -> rb c' n (fsib f) -> rbc BLACK (S n) ctx -> rbc c n (f :: ctx).

Lemma rb_mk_red d i t u n : ic i = RED -> rb BLACK n t -> rb BLACK n u -> rb RED n (mk d i t u).
Proof. intros. destruct d; by constructor. Qed.

Lemma rb_mk_black d i t u n c c' : ic i = BLACK -> rb c n t -> rb c' n u -> rb BLACK (S n) (mk d i t u).
Proof. intros. destruct d; by econstructor. Qed.

Lemma plug_rb ctx : forall c n t, rb c n t -> rbc c n ctx -> exists m, rb BLACK m (plug ctx t).
Proof.
  induction ctx as [|f ctx IH]; intros c n t Ht Hc; inversion Hc; subst; cbn [plug].
  - by exists n.
  - eapply IH; [by apply rb_mk_red | done].
  - eapply IH; [by eapply rb_mk_black | done].
Qed.

(** The colour the heap shows at the root of a tree. *)
Definition leaf_black h : Prop := exists n, h !! leaf = Some n /\ color n = BLACK.

Lemma root_color h t p c n : leaf_black h -> rep h t p -> rb c n t -> exists u, h !! ptr t = Some u /\ color u = c.
Proof.
  intros Hl Hr Hb. inversion Hb; subst; cbn [ptr rep] in *; [done | |];
    destruct Hr as (Hr & _); eexists; (split; [exact Hr |]); by rewrite color_at.
Qed.

Lemma side_at d i p x y : x <> y -> (if bool_decide (x = left (@node_at K V d i p x y)) then Left else Right) = d.
Proof. intros H. destruct d; cbn [node_at left]; [by rewrite bool_decide_eq_true_2 | by rewrite bool_decide_eq_false_2]. Qed.

Lemma rb_red_inv n t : rb RED n t -> exists i l r, t = Node i l r /\ ic i = RED /\ rb BLACK n l /\ rb BLACK n r.
Proof. intros H. inversion H; subst. eauto 10. Qed.

(** ** The repair loop *)

(** The recolouring round: the violation moves two levels up. *)
Lemma fixup_recolour h (f g : frame) ctx root t (iu : info K V) ul ur :
  let U := Node iu ul ur in
  fsib g = U -> ic iu = RED -> ptr t <> leaf ->
  NoDup (leaf :: locs t ++ ctx_locs (f :: g :: ctx)) -> rep h t (ia (fi f)) -> rep_ctx h (f :: g :: ctx) (ptr t) root ->
  let t' := mk (fs g) (paint RED (fi g)) (mk (fs f) (paint BLACK (fi f)) t (fsib f)) (Node (paint BLACK iu) ul ur) in
  exists h', fixup_round leaf (fs g) h root (ptr t) = Some (h', root, Some (ptr t')) /\
    rep h' t' (ctx_ptr ctx) /\ rep_ctx h' ctx (ptr t') root /\ h' !! leaf = h !! leaf.
Proof.
  intros U HU Hiu Ht Hn Hr Hc t'. subst U t'. cbn [rep_ctx ctx_locs ctx_ptr] in *. rewrite HU in *. cbn [rep ptr locs] in *.
  destruct Hc as (HF & HS & HG & (Hu & Hul & Hur) & Hc). apart Hn.
  assert (exists n, h !! ptr t = Some n /\ parent n = ia (fi f)) as (n & Hnode & Hpar).
  { destruct t as [|i l r]; [done |]. destruct Hr as (H' & _). eexists. split; [exact H' | apply parent_at]. }
  unfold fixup_round. rewrite Hnode. cbn [mbind option_bind]. rewrite Hpar, HF. cbn [mbind option_bind].
  rewrite parent_at, HG. cbn [mbind option_bind]. rewrite child_opp_at, Hu. cbn [mbind option_bind]. rewrite color_at.
  rewrite bool_decide_eq_true_2 by done. rewrite (upd_at _ _ _ _ HF), set_color_at. cbn [mbind option_bind].
  assert (Hu1 : <[ia (fi f) := node_at (fs f) (paint BLACK (fi f)) (ia (fi g)) (ptr t) (ptr (fsib f))]> h !! ia iu
    = Some (node_at Left iu (ia (fi g)) (ptr ul) (ptr ur))) by (rewrite lookup_insert_ne by set_solver; done).
  rewrite (upd_at _ _ _ _ Hu1), set_color_at. cbn [mbind option_bind]. rewrite lookup_insert_eq. cbn [mbind option_bind].
  rewrite parent_at. set (h2 := <[ia iu := _]> _).
  assert (HG2 : h2 !! ia (fi g) = Some (node_at (fs g) (fi g) (ctx_ptr ctx) (ia (fi f)) (ia iu)))
    by (subst h2; rewrite !lookup_insert_ne by set_solver; done).
  rewrite (upd_at _ _ _ _ HG2), set_color_at. cbn [mbind option_bind]. rewrite ptr_mk. cbn [ia paint].
  eexists. split; [done |]. subst h2. split; [| split].
  - rewrite !rep_mk, ptr_mk. cbn [rep ptr]. cbn [ia paint]. rewrite lookup_insert_eq. split; [done |].
    split; [rewrite lookup_insert_ne, lookup_insert_ne, lookup_insert_eq by set_solver; split; [done |]; split
      | split; [rewrite lookup_insert_ne, lookup_insert_eq by set_solver; done |]; split];
    (do 3 (apply rep_insert; [set_solver |])); done.
  - do 3 (apply rep_ctx_insert; [set_solver |]). done.
  - rewrite !lookup_insert_ne by set_solver. done.
Qed.

Lemma side_cases d e : e = d \/ e = opp d.
Proof. destruct d, e; auto. Qed.

Lemma rb_red_sides d n t : rb RED n t ->
  exists i u w, t = mk d i u w /\ ic i = RED /\ rb BLACK n u /\ rb BLACK n w.
Proof.
  intros H. apply rb_red_inv in H as (i & l & r & -> & Hi & Hl & Hr). destruct d; [exists i, l, r | exists i, r, l]; done.
Qed.

(** The red parent of a red node is rotated first when the node is the inner
    grandchild: a red tree [W] is then the outer child. *)
Lemma fixup_first h (f : frame) (g : frame) ctx root t n :
  let d := fs g in
  rb RED n t -> ic (fi f) = RED -> rb BLACK n (fsib f) ->
  NoDup (leaf :: locs t ++ ctx_locs (f :: g :: ctx)) -> rep h t (ia (fi f)) -> rep_ctx h (f :: g :: ctx) (ptr t) root ->
  exists h1 root1 P W S,
    (if bool_decide (ptr t = child (opp d) (node_at (fs f) (fi f) (ia (fi g)) (ptr t) (ptr (fsib f))))
     then s ← rotate leaf d h root (ia (fi f)); Some (fst s, snd s, ia (fi f))
     else Some (h, root, ptr t)) = Some (h1, root1, ptr W) /\
    rep h1 (mk d P W S) (ia (fi g)) /\ rep_ctx h1 (g :: ctx) (ia P) root1 /\
    items (mk d P W S) = items (mk (fs f) (fi f) t (fsib f)) /\ rb RED n W /\ rb BLACK n S /\ h1 !! leaf = h !! leaf.
Proof.
  intros d Ht Hf HS Hn Hr Hc. destruct (rb_red_sides d n t Ht) as (it & tx & ty & -> & Hit & Htx & Hty).
  assert (Hne : ptr (mk d it tx ty) <> ptr (fsib f)).
  { rewrite ptr_mk. cbn [ctx_locs] in Hn. rewrite locs_mk in Hn. apart Hn. apply ptr_ne; set_solver. }
  cbn [rep_ctx ctx_ptr] in Hc. destruct Hc as (HF & HSr & Hc).
  destruct (side_cases d (fs f)) as [E|E]; rewrite E in *.
  - rewrite child_opp_at, bool_decide_eq_false_2 by done. exists h, root, (fi f), (mk d it tx ty), (fsib f).
    split; [done |]. rewrite rep_mk. done.
  - rewrite child_at, bool_decide_eq_true_2 by done. rewrite mk_opp. rewrite node_at_opp in HF.
    destruct (rotate_spec d h (g :: ctx) root (fi f) it (fsib f) tx ty) as (h1 & root1 & -> & Hr1 & Hc1 & Hl1).
    { cbn [ctx_locs] in Hn |- *. rewrite locs_mk in Hn. eapply NoDup_Permutation_proper; [| exact Hn]. solve_Permutation. }
    { rewrite rep_mk. done. }
    { exact Hc. }
    cbn [mbind option_bind fst snd]. exists h1, root1, it, (mk d (fi f) (fsib f) tx), ty. rewrite ptr_mk. split; [done |].
    split; [exact Hr1 |]. split; [exact Hc1 |]. split; [apply items_rotate |]. split; [by apply rb_mk_red | done].
Qed.

Lemma fixup_rotate h (f : frame) (g : frame) ctx root t n :
  let d := fs g in
  rb RED n t -> ic (fi f) = RED -> rb BLACK n (fsib f) -> rb BLACK n (fsib g) -> leaf_black h ->
  NoDup (leaf :: locs t ++ ctx_locs (f :: g :: ctx)) -> rep h t (ia (fi f)) -> rep_ctx h (f :: g :: ctx) (ptr t) root ->
  exists h' root' T, fixup_round leaf d h root (ptr t) = Some (h', root', None) /\
    rep h' T (ctx_ptr ctx) /\ rep_ctx h' ctx (ptr T) root' /\
    items T = items (mk d (fi g) (mk (fs f) (fi f) t (fsib f)) (fsib g)) /\ rb BLACK (S n) T /\ h' !! leaf = h !! leaf.
Proof.
  intros d Ht Hf HS HU Hlb Hn Hr Hc. pose proof Hc as (HF & _ & HG & HUr & _). cbn [ctx_ptr] in HF.
  destruct (fixup_first h f g ctx root t n Ht Hf HS Hn Hr Hc) as (h1 & root1 & P & W & Sb & Hfirst & Hr1 & Hc1 & Hit & HW & HSb & Hl1).
  assert (exists n0, h !! ptr t = Some n0 /\ parent n0 = ia (fi f)) as (n0 & Hnode & Hpar).
  { apply rb_red_inv in Ht as (i & l & r & -> & _). destruct Hr as (H' & _). eexists. split; [exact H' | apply parent_at]. }
  destruct (root_color h (fsib g) _ _ _ Hlb HUr HU) as (u & Hu & Hcu).
  unfold fixup_round. rewrite Hnode. cbn [mbind option_bind]. rewrite Hpar, HF. cbn [mbind option_bind].
  rewrite parent_at, HG. cbn [mbind option_bind]. fold d. rewrite child_opp_at, Hu. cbn [mbind option_bind]. rewrite Hcu.
  rewrite bool_decide_eq_false_2 by done. fold d in Hfirst, Hr1, Hit. rewrite Hfirst. cbn [mbind option_bind].
  assert (Hn1 : NoDup (leaf :: ia P :: ia (fi g) :: locs W ++ locs Sb ++ locs (fsib g) ++ ctx_locs ctx)).
  { eapply NoDup_Permutation_proper; [| exact Hn]. apply items_locs in Hit. rewrite !locs_mk in Hit. cbn [ctx_locs].
    transitivity (leaf :: (ia P :: locs W ++ locs Sb) ++ ia (fi g) :: locs (fsib g) ++ ctx_locs ctx); [solve_Permutation |].
    rewrite Hit. solve_Permutation. }
  clear Hfirst Hnode Hpar HF HG HUr Hc Hr Hu u Hcu n0. rewrite rep_mk in Hr1. destruct Hr1 as (HP & HWr & HSr).
  destruct Hc1 as (HG & HUr & Hc). fold d in HG. apart Hn1.
  assert (Hw : exists n0, h1 !! ptr W = Some n0 /\ parent n0 = ia P).
  { apply rb_red_inv in HW as (i & l & r & -> & _). destruct HWr as (H' & _). eexists. split; [exact H' | apply parent_at]. }
  destruct Hw as (n0 & Hw & Hpw).
  assert (HWP : ia P <> ptr W) by (apply ptr_ne; set_solver).
  assert (HWG : ia (fi g) <> ptr W) by (apply ptr_ne; set_solver).
  assert (HPG : ia P <> ia (fi g)) by set_solver.
  rewrite Hw. cbn [mbind option_bind]. rewrite Hpw, (upd_at _ _ _ _ HP), set_color_at. cbn [mbind option_bind].
  rewrite lookup_insert_ne, Hw by done. cbn [mbind option_bind]. rewrite Hpw, lookup_insert_eq. cbn [mbind option_bind].
  rewrite parent_at. set (h2 := <[ia P := _]> h1).
  assert (HG2 : h2 !! ia (fi g) = Some (node_at d (fi g) (ctx_ptr ctx) (ia P) (ptr (fsib g))))
    by (subst h2; by rewrite lookup_insert_ne).
  rewrite (upd_at _ _ _ _ HG2), set_color_at. cbn [mbind option_bind]. subst h2.
  rewrite lookup_insert_ne, lookup_insert_ne, Hw by done. cbn [mbind option_bind].
  rewrite Hpw, lookup_insert_ne, lookup_insert_eq by done. cbn [mbind option_bind]. rewrite parent_at.
  set (h3 := <[ia (fi g) := _]> _).
  assert (Hsub : forall t q, rep h1 t q -> ia P ∉ locs t -> ia (fi g) ∉ locs t -> rep h3 t q)
    by (intros t0 q H' ? ?; subst h3; by do 2 (apply rep_insert; [done |])).
  destruct (rotate_spec (opp d) h3 ctx root1 (paint RED (fi g)) (paint BLACK P) (fsib g) Sb W) as (h' & root' & Hrot & Hr' & Hc' & Hl').
  { cbn [ia paint]. repeat (rewrite NoDup_cons || rewrite NoDup_app). set_solver. }
  { rewrite !mk_opp, !rep_mk, ptr_mk. cbn [ia paint]. subst h3. rewrite lookup_insert_eq, lookup_insert_ne, lookup_insert_eq by done.
    split; [done |]. split; [split; [done |]; split |]; apply Hsub; try done; set_solver. }
  { cbn [ia paint]. subst h3. do 2 (apply rep_ctx_insert; [set_solver |]). done. }
  cbn [ia paint] in Hrot. rewrite Hrot. cbn [mbind option_bind fst snd].
  exists h', root', (mk (opp d) (paint BLACK P) (mk (opp d) (paint RED (fi g)) (fsib g) Sb) W). rewrite ptr_mk.
  split; [done |]. split; [done |]. split; [done |]. split; [| split].
  - rewrite items_rotate, !mk_opp. apply items_mk; try done. etransitivity; [| exact Hit]. by apply items_mk.
  - eapply rb_mk_black; [done | by apply rb_mk_red | exact HW].
  - rewrite Hl'. subst h3. rewrite !lookup_insert_ne by set_solver. done.
Qed.

(** ** The repair loop *)

Lemma rb_paint_black i l r n : ic i = RED -> rb RED n (Node i l r) -> rb BLACK (S n) (Node (paint BLACK i) l r).
Proof. intros _ H. inversion H; subst. by econstructor. Qed.

Lemma fixup_recolour_rb (f g : frame) t (iu : info K V) ul ur n :
  rb RED n t -> rb BLACK n (fsib f) -> rb RED n (Node iu ul ur) ->
  rb RED (S n) (mk (fs g) (paint RED (fi g)) (mk (fs f) (paint BLACK (fi f)) t (fsib f)) (Node (paint BLACK iu) ul ur)).
Proof.
  intros Ht HS HU. apply rb_mk_red; [done | by eapply rb_mk_black |]. apply rb_paint_black; [by inversion HU | done].
Qed.

Lemma red_ptr n t : rb RED n t -> leaf ∉ locs t -> ptr t <> leaf.
Proof. intros (i & l & r & -> & _)%rb_red_inv. cbn. set_solver. Qed.

(** The loop reads the colour of the parent and, below a red one, its side. *)
Lemma fixup_loop_stop fuel h ctx root t n u : rb RED n t -> rep h t (ctx_ptr ctx) ->
  h !! ctx_ptr ctx = Some u -> color u = BLACK -> fixup_loop fuel leaf h root (ptr t) = Some (h, root).
Proof.
  intros (i & l & r & -> & _)%rb_red_inv (H1 & _) Hu Hc. cbn [ptr].
  destruct fuel; cbn [fixup_loop]; rewrite H1; cbn [mbind option_bind]; rewrite parent_at, Hu; cbn [mbind option_bind];
    by rewrite bool_decide_eq_false_2 by (rewrite Hc; done).
Qed.

Lemma fixup_loop_step fuel h f g ctx root t n : rb RED n t -> ic (fi f) = RED ->
  NoDup (leaf :: locs t ++ ctx_locs (f :: g :: ctx)) -> rep h t (ia (fi f)) -> rep_ctx h (f :: g :: ctx) (ptr t) root ->
  fixup_loop (S fuel) leaf h root (ptr t) =
    match fixup_round leaf (fs g) h root (ptr t) with
    | Some (h, root, Some node) => fixup_loop fuel leaf h root node
    | Some (h, root, None) => Some (h, root)
    | None => None
    end.
Proof.
  intros (i & l & r & -> & _)%rb_red_inv Hf Hn (H1 & _) (HF & _ & HG & _). cbn [ptr ctx_ptr] in *.
  cbn [fixup_loop]. rewrite H1. cbn [mbind option_bind]. rewrite parent_at, HF. cbn [mbind option_bind].
  rewrite color_at, bool_decide_eq_true_2 by done. rewrite parent_at, HG. cbn [mbind option_bind].
  rewrite side_at; [done |]. cbn [ctx_locs] in Hn. apart Hn. apply ptr_ne; set_solver.
Qed.

Lemma fixup_loop_spec fuel : forall h ctx root t n,
  (length ctx <= fuel)%nat -> rb RED n t -> rbc BLACK n ctx -> leaf_black h ->
  NoDup (leaf :: locs t ++ ctx_locs ctx) -> rep h t (ctx_ptr ctx) -> rep_ctx h ctx (ptr t) root ->
  exists h' T, fixup_loop fuel leaf h root (ptr t) = Some (h', ptr T) /\ rep h' T leaf /\
    items T = items (plug ctx t) /\ (exists c m, rb c m T) /\ h' !! leaf = h !! leaf.
Proof.
  induction fuel as [fuel IH] using lt_wf_ind; intros h ctx root t n Hfuel Ht Hctx Hlb Hn Hr Hc.
  inversion Hctx as [|? f ctx1 Hf HS Hctx1|? c' ? f ctx1 Hf HS Hctx1]; subst.
  - destruct Hlb as (u & Hu & Hcu). exists h, t. rewrite (fixup_loop_stop fuel h [] root t n u) by done.
    cbn [rep_ctx] in Hc. subst root. eauto 10.
  - inversion Hctx1 as [| |? c' ? g ctx2 Hg HU Hctx2]; subst. destruct fuel as [|fuel]; [cbn in Hfuel; lia |].
    rewrite (fixup_loop_step fuel h f g ctx2 root t n) by done. destruct c'.
    + apply rb_red_inv in HU as (iu & ul & ur & HU & Hiu & Hul & Hur).
      destruct (fixup_recolour h f g ctx2 root t iu ul ur HU Hiu) as (h' & -> & Hr' & Hc' & Hl'); try done.
      { apply (red_ptr n); [done |]. apart Hn. set_solver. }
      edestruct (IH fuel) as (h2 & T & -> & HrT & HiT & HbT & HlT); [lia | | | exact Hctx2 | | | exact Hr' | exact Hc' |].
      { cbn in Hfuel. lia. }
      { apply fixup_recolour_rb; [done | done | by constructor]. }
      { unfold leaf_black. by rewrite Hl'. }
      { eapply NoDup_Permutation_proper; [| exact Hn]. cbn [ctx_locs]. rewrite !locs_mk, HU. cbn. solve_Permutation. }
      exists h2, T. split; [done |]. split; [done |]. split; [| by rewrite HlT, Hl'].
      rewrite HiT. cbn [plug]. apply items_plug. rewrite HU. apply items_mk; try done. by apply items_mk.
    + destruct (fixup_rotate h f g ctx2 root t n) as (h' & root' & T & -> & Hr' & Hc' & HiT & HbT & Hl'); try done.
      destruct (proj1 (rep_plug h' ctx2 root' T)) as [HrP ->]; [done |]. exists h', (plug ctx2 T).
      split; [done |]. split; [done |]. split; [cbn [plug]; by apply items_plug |]. split; [| done].
      destruct (plug_rb ctx2 _ _ T HbT Hctx2) as (m & Hm). eauto.
  - pose proof Hc as (HF & _). destruct (proj1 (rep_plug h (f :: ctx1) root t)) as [HrP Hroot]; [done |].
    exists h, (plug (f :: ctx1) t). erewrite (fixup_loop_stop fuel h (f :: ctx1) root t n); [| done | done | exact HF | by rewrite color_at].
    rewrite <- Hroot. split; [done |]. split; [done |]. split; [done |]. split; [| done].
    destruct (plug_rb (f :: ctx1) RED n t) as (m & Hm); [done | by econstructor | eauto].
Qed.

Lemma rb_repaint c m i l r : rb c m (Node i l r) -> exists m', rb BLACK m' (Node (paint BLACK i) l r).
Proof. intros H. inversion H; subst; eexists; by econstructor. Qed.

(** [InsertFixup] from a red node whose place is one for a black node. *)
Lemma InsertFixup_spec fuel h ctx root t n :
  (length ctx <= fuel)%nat -> rb RED n t -> rbc BLACK n ctx -> leaf_black h ->
  NoDup (leaf :: locs t ++ ctx_locs ctx) -> rep h t (ctx_ptr ctx) -> rep_ctx h ctx (ptr t) root ->
  exists h' T, InsertFixup fuel leaf h root (ptr t) = Some (h', ptr T) /\ rep h' T leaf /\
    items T = items (plug ctx t) /\ (exists m, rb BLACK m T) /\ h' !! leaf = h !! leaf.
Proof.
  intros Hfuel Ht Hctx Hlb Hn Hr Hc.
  destruct (fixup_loop_spec fuel h ctx root t n) as (h' & T & E & HrT & HiT & (c & m & HbT) & Hl'); try done.
  unfold InsertFixup. rewrite E. cbn [mbind option_bind fst snd].
  assert (HT : locs T ≡ₚ locs t ++ ctx_locs ctx) by (rewrite <- locs_plug; by apply items_locs).
  rewrite <- HT in Hn. destruct T as [|i l r].
  { apply rb_red_inv in Ht as (i & l & r & -> & _). apply Permutation_nil_l in HT. done. }
  cbn [ptr]. pose proof HrT as (H1 & H2 & H3). rewrite (upd_at _ _ _ _ H1), set_color_at. cbn [mbind option_bind].
  cbn [locs] in Hn. apart Hn. eexists _, (Node (paint BLACK i) l r). split; [done |]. split; [| split; [done |]; split].
  - cbn [rep ia paint]. rewrite lookup_insert_eq. split; [done |]. split; (apply rep_insert; [set_solver | done]).
  - by eapply rb_repaint.
  - rewrite lookup_insert_ne by set_solver. done.
Qed.

(** What is before and after a position. *)
Fixpoint ctx_left ctx : list (loc * (K * V * Z)) :=
  match ctx with
  | [] => []
  | f :: ctx => ctx_left ctx ++ match fs f with Left => [] | Right => items (fsib f) ++ [(ia (fi f), (ik (fi f), iv (fi f), icnt (fi f)))] end
  end.

Fixpoint ctx_right ctx : list (loc * (K * V * Z)) :=
  match ctx with
  | [] => []
  | f :: ctx => match fs f with Left => (ia (fi f), (ik (fi f), iv (fi f), icnt (fi f))) :: items (fsib f) | Right => [] end ++ ctx_right ctx
  end.

Lemma items_split ctx : forall t, items (plug ctx t) = ctx_left ctx ++ items t ++ ctx_right ctx.
Proof.
  induction ctx as [|f ctx IH]; intros t; cbn; [by rewrite app_nil_r |]. rewrite IH.
  destruct (fs f); cbn; rewrite <- ?app_assoc; cbn; by rewrite ?app_nil_r, <- ?app_assoc.
Qed.

(** The places for a new red node in a tree are places for a black one. *)
Lemma rbc_plug ctx : forall t c n, rb c n (plug ctx t) -> c = BLACK -> exists c' m, rb c' m t /\ rbc c' m ctx.
Proof.
  induction ctx as [|f ctx IH]; intros t c n H ->; cbn [plug] in H; [exists BLACK, n; split; [done | constructor] |].
  destruct (IH _ _ _ H eq_refl) as (c' & m & Ht & Hc). destruct (fs f) eqn:E; cbn [mk] in Ht; inversion Ht; subst.
  all: eexists _, _; split; [done |]; by econstructor.
Qed.

(** The number of nodes bounds a descent. *)
Lemma rep_dom h t : forall p, rep h t p -> forall a, a ∈ locs t -> a ∈ dom h.
Proof.
  induction t as [|i l IHl r IHr]; intros p H a Ha; cbn in *; [set_solver |]. destruct H as (H1 & H2 & H3).
  apply elem_of_cons in Ha as [->|Ha]; [by eapply elem_of_dom_2 |]. apply elem_of_app in Ha as [Ha|Ha]; eauto.
Qed.

Lemma rep_size h t p : leaf_black h -> NoDup (leaf :: locs t) -> rep h t p -> (length (locs t) < size h)%nat.
Proof.
  intros (n & Hl & _) Hn Hr.
  enough (length (leaf :: locs t) <= size h)%nat by (cbn in *; lia).
  rewrite <- size_dom, <- (size_list_to_set (C := gset loc)) by done. apply subseteq_size. intros a Ha.
  apply elem_of_list_to_set, elem_of_cons in Ha as [->|Ha]; [by eapply elem_of_dom_2 | by eapply rep_dom].
Qed.

Lemma length_ctx ctx : (length ctx <= length (ctx_locs ctx))%nat.
Proof. induction ctx as [|f ctx IH]; cbn; [lia |]. rewrite length_app. lia. Qed.

End representation.

End RBInsert.
