(* ===== verification/RBTree.v ===== *)
(** * Red-black tree, insertion and search: src/include/common/qredblacktree.h

    The contents of a tree are its entries in increasing key order.  [insert]
    and [search] of [RedBlack] implement the insertion into and the lookup in
    that list, keep the tree a red-black tree, and always return. *)

From stdpp Require Import gmap.
From S2P Require Import Prelude Arrays RedBlack RBInsert.
Import Arrays RedBlack RBInsert.

Module RBTree.

#[local] Notation loc := positive.
#[local] Notation heap K V := (gmap positive (RBNode K V)).

(** ** Sorted contents *)

Section contents.
Context {K V : Type} {key : Key K} {laws : KeyLaws K}.
Variable eqb : K -> K -> bool.
(** [operator==] agrees with [operator<]. *)
Hypothesis eqb_ltb : forall a b, eqb a b = negb (ltb a b) && negb (ltb b a).

#[local] Notation entry := (loc * (K * V * Z))%type.
Implicit Types (l A B : list entry) (e : entry).

Definition ekey e : K := fst (fst (snd e)).
Definition evalue e : V := snd (fst (snd e)).
Definition ecount e : Z := snd (snd e).

(** The contents of the tree: its entries in strictly increasing key order. *)
Definition ascending l : Prop := StronglySorted (fun a b => ltb (ekey a) (ekey b) = true) l.

(** The abstract operations on the contents. *)
Definition find (k : K) l : option entry := List.find (fun e => eqb (ekey e) k) l.

Fixpoint add e l : list entry :=
  match l with
  | [] => [e]
  | x :: l => if ltb (ekey e) (ekey x) then e :: x :: l else x :: add e l
  end.

(** [cur_node->value=_value] or [++cur_node->count] at the entry of the key. *)
Definition touch (k : K) (v : V) (cover_flag count_flag : bool) l : list entry :=
  (fun e => if eqb (ekey e) k then
              if cover_flag then (fst e, (ekey e, v, ecount e))
              else if count_flag then (fst e, (ekey e, evalue e, i32 (ecount e + 1))) else e
            else e) <$> l.

Lemma ltb_trans a b c : ltb a b = true -> ltb b c = true -> ltb a c = true.
Proof. intros H1 H2. eapply ltb_kle_trans; [exact H1 | by apply ltb_kle]. Qed.

Lemma eqb_lt a b : ltb a b = true -> eqb a b = false /\ eqb b a = false.
Proof. intros H. rewrite !eqb_ltb, H, (ltb_asym _ _ H). done. Qed.

Lemma not_eqb a b : eqb a b = false -> ltb b a = false -> ltb a b = true.
Proof. rewrite eqb_ltb. intros H H'. rewrite H' in H. by destruct (ltb a b). Qed.

Lemma eqb_sym a b : eqb a b = eqb b a.
Proof. by rewrite !eqb_ltb, andb_comm. Qed.

(** What lies on the two sides of a key. *)
Definition under k l : Prop := Forall (fun e => ltb (ekey e) k = true) l.
Definition over k l : Prop := Forall (fun e => ltb k (ekey e) = true) l.

Lemma find_skip k A l : under k A -> find k (A ++ l) = find k l.
Proof. induction 1 as [|x A Hx _ IH]; cbn; [done |]. rewrite (proj1 (eqb_lt _ _ Hx)). exact IH. Qed.

Lemma find_over k B : over k B -> find k B = None.
Proof. induction 1 as [|x B Hx _ IH]; cbn; [done |]. rewrite (proj2 (eqb_lt _ _ Hx)). exact IH. Qed.

Lemma find_before k A B : over k B -> find k (A ++ B) = find k A.
Proof.
  intros HB. induction A as [|x A IH]; cbn; [by apply find_over |]. destruct (eqb (ekey x) k); [done | exact IH].
Qed.

Lemma add_middle e A B : under (ekey e) A -> over (ekey e) B -> add e (A ++ B) = A ++ e :: B.
Proof.
  induction 1 as [|x A Hx _ IH]; intros HB; cbn.
  - destruct HB as [|y B Hy HB]; cbn; [done |]. by rewrite Hy.
  - rewrite (ltb_asym _ _ Hx). by rewrite IH.
Qed.

Lemma ascending_app A B : ascending (A ++ B) <-> ascending A /\ ascending B /\
  forall a b, a ∈ A -> b ∈ B -> ltb (ekey a) (ekey b) = true.
Proof.
  unfold ascending. induction A as [|x A IH]; cbn.
  - split; [intros H; split; [constructor | split; [done | set_solver]] | naive_solver].
  - split.
    + intros H. apply StronglySorted_inv in H as [H Hx]. apply IH in H as (HA & HB & HAB).
      rewrite Forall_forall in Hx. split; [constructor; [done |]; apply Forall_forall; intros y Hy; apply Hx; set_solver |].
      split; [done |]. intros a b [->|Ha]%elem_of_cons Hb; [apply Hx; set_solver | by apply HAB].
    + intros (HA & HB & HAB). apply StronglySorted_inv in HA as [HA Hx]. rewrite Forall_forall in Hx.
      constructor; [apply IH; split; [done |]; split; [done |]; intros; apply HAB; set_solver |].
      apply Forall_forall. intros y [Hy|Hy]%elem_of_app; [by apply Hx | apply HAB; set_solver].
Qed.

Lemma ascending_middle A e B : ascending (A ++ e :: B) <->
  ascending A /\ ascending B /\ under (ekey e) A /\ over (ekey e) B.
Proof.
  rewrite ascending_app. unfold under, over, ascending. rewrite !Forall_forall. split.
  - intros (HA & HB & H). apply StronglySorted_inv in HB as [HB He]. rewrite Forall_forall in He.
    repeat split; try done. intros x Hx. apply H; set_solver.
  - intros (HA & HB & H1 & H2). split; [done |]. split; [constructor; [done |]; by apply Forall_forall |].
    intros a b Ha [->|Hb]%elem_of_cons; [by apply H1 |]. eapply ltb_trans; [by apply H1 | by apply H2].
Qed.

Lemma under_trans k k' A : under k A -> ltb k k' = true -> under k' A.
Proof. intros H Hk. eapply Forall_impl; [exact H |]. intros e He. cbn beta in *. by eapply ltb_trans. Qed.

Lemma over_trans k k' B : over k B -> ltb k' k = true -> over k' B.
Proof. intros H Hk. eapply Forall_impl; [exact H |]. intros e He. cbn beta in *. by eapply ltb_trans. Qed.

Lemma touch_skip k v c1 c2 A : under k A -> touch k v c1 c2 A = A.
Proof. induction 1 as [|x A Hx _ IH]; cbn; [done |]. rewrite (proj1 (eqb_lt _ _ Hx)). by f_equal. Qed.

Lemma touch_over k v c1 c2 B : over k B -> touch k v c1 c2 B = B.
Proof. induction 1 as [|x B Hx _ IH]; cbn; [done |]. rewrite (proj2 (eqb_lt _ _ Hx)). by f_equal. Qed.

Lemma under_eqb k e A : under (ekey e) A -> eqb (ekey e) k = true -> under k A.
Proof.
  rewrite eqb_ltb. intros H [_ Hk%negb_true_iff]%andb_true_iff. eapply Forall_impl; [exact H |].
  intros x Hx. cbn beta in *. by eapply ltb_kle_trans.
Qed.

Lemma over_eqb k e B : over (ekey e) B -> eqb (ekey e) k = true -> over k B.
Proof.
  rewrite eqb_ltb. intros H [Hk%negb_true_iff _]%andb_true_iff. eapply Forall_impl; [exact H |].
  intros x Hx. cbn beta in *. by eapply kle_ltb.
Qed.

(** ** The descents *)

Fixpoint height (t : tree K V) : nat :=
  match t with
  | Leaf => 0
  | Node _ l r => S (height l `max` height r)
  end.

Lemma height_locs t : (height t <= length (locs t))%nat.
Proof. induction t as [|i l IHl r IHr]; cbn; [lia |]. rewrite length_app. lia. Qed.

Section descents.
Variable leaf : loc.
Implicit Types (h : heap K V) (t : tree K V) (ctx : list (@frame K V)).

Definition entry_of (i : info K V) : entry := (ia i, (ik i, iv i, icnt i)).

Lemma search_loop_spec fuel : forall h t p k, leaf ∉ locs t -> (height t <= fuel)%nat -> rep leaf h t p -> ascending (items t) ->
  search_loop eqb fuel leaf h (ptr leaf t) k = Some (evalue <$> find k (items t)).
Proof.
  induction fuel as [|fuel IH]; intros h [|i l r] p k Hl Hh Hr Hs; cbn [height locs ptr rep items] in *; try lia;
    cbn [search_loop]; try (rewrite bool_decide_eq_true_2; done).
  rewrite bool_decide_eq_false_2 by set_solver. destruct Hr as (H1 & H2 & H3). rewrite H1. cbn [mbind option_bind node_at nkey value left right].
  change (_, _) with (entry_of i) in *. apply ascending_middle in Hs as (HA & HB & Hu & Ho).
  rewrite eqb_sym. destruct (eqb (ik i) k) eqn:E.
  - rewrite find_skip by (eapply under_eqb; [exact Hu | done]). cbn. by rewrite E.
  - destruct (ltb k (ik i)) eqn:Ek.
    + rewrite (IH _ l (ia i)); [| set_solver | lia | done | done]. rewrite find_before; [done |].
      constructor; [exact Ek | by eapply over_trans].
    + rewrite (IH _ r (ia i)); [| set_solver | lia | done | done]. pose proof (not_eqb _ _ E Ek) as Hlt.
      rewrite find_skip by (eapply under_trans; [exact Hu | exact Hlt]). cbn. by rewrite E.
Qed.

Lemma descend_spec fuel : forall h t ctx k, leaf ∉ locs t -> (height t <= fuel)%nat -> rep leaf h t (ctx_ptr leaf ctx) ->
  ascending (ctx_left ctx ++ items t ++ ctx_right ctx) -> under k (ctx_left ctx) -> over k (ctx_right ctx) ->
  (exists ctx' i (l r : tree K V), descend eqb fuel leaf h (ptr leaf t) (ctx_ptr leaf ctx) k = Some (inl (ia i)) /\
     plug ctx' (Node i l r) = plug ctx t /\ eqb (ik i) k = true) \/
  (exists ctx', descend eqb fuel leaf h (ptr leaf t) (ctx_ptr leaf ctx) k = Some (inr (ctx_ptr leaf ctx')) /\
     plug ctx' Leaf = plug ctx t /\ under k (ctx_left ctx') /\ over k (ctx_right ctx')).
Proof.
  induction fuel as [|fuel IH]; intros h [|i l r] ctx k Hl Hh Hr Hs Hu Ho; cbn [height locs ptr rep] in *; try lia;
    cbn [descend]; try (rewrite bool_decide_eq_true_2 by done; right; by exists ctx).
  rewrite bool_decide_eq_false_2 by set_solver. destruct Hr as (H1 & H2 & H3). rewrite H1.
  cbn [mbind option_bind node_at nkey left right]. destruct (eqb (ik i) k) eqn:E; [left; by exists ctx, i, l, r |].
  assert (Hs' : ascending ((ctx_left ctx ++ items l) ++ entry_of i :: items r ++ ctx_right ctx))
    by (cbn [items] in Hs; by rewrite <- !app_assoc in *).
  pose proof Hs' as (_ & _ & HA & HB)%ascending_middle. apply Forall_app in HA as [_ HA]. apply Forall_app in HB as [HB _].
  destruct (ltb k (ik i)) eqn:Ek.
  - apply (IH h l (mkFrame Left i r :: ctx)); cbn [ctx_ptr fi ctx_left ctx_right fs fsib]; try done; [set_solver | lia | | by rewrite app_nil_r |].
    + rewrite app_nil_r. by rewrite <- app_assoc in Hs'.
    + constructor; [exact Ek |]. apply Forall_app. split; [by eapply over_trans | done].
  - pose proof (not_eqb _ _ E Ek) as Hlt.
    apply (IH h r (mkFrame Right i l :: ctx)); cbn [ctx_ptr fi ctx_left ctx_right fs fsib]; try done; [set_solver | lia | |].
    + cbn. rewrite <- !app_assoc in *. exact Hs'.
    + apply Forall_app. split; [done |]. apply Forall_app. split; [by eapply under_trans | by repeat constructor].
Qed.

(** The side of its parent a new node goes to. *)
Lemma place_side f ctx k : under k (ctx_left (f :: ctx)) -> over k (ctx_right (f :: ctx)) ->
  (if ltb k (ik (fi f)) then Left else Right) = fs f.
Proof.
  cbn. destruct (fs f); intros Hu Ho.
  - apply Forall_app in Ho as [Ho _]. apply Forall_cons in Ho as [Ho _]. cbn in Ho. by rewrite Ho.
  - unfold under in Hu. rewrite !Forall_app in Hu. destruct Hu as (_ & _ & Hu). apply Forall_cons in Hu as [Hu _]. cbn in Hu.
    by rewrite (ltb_asym _ _ Hu).
Qed.

End descents.

(** ** The invariant *)

(** The tree holds the entries [l]: a red-black tree with its keys in order. *)
Definition holds (t : QRedBlackTree K V) l : Prop := exists T,
  rep (m_leaf t) (nodes t) T (m_leaf t) /\ m_root t = ptr (m_leaf t) T /\ NoDup (m_leaf t :: locs T) /\
  leaf_black (m_leaf t) (nodes t) /\ (exists m, rb BLACK m T) /\ items T = l /\ ascending l /\ node_num t = Z.of_nat (length l).

Lemma construct_holds leaf n : holds (construct leaf n) [].
Proof.
  exists Leaf. cbn. repeat split; try done; [apply NoDup_singleton | eexists; split; [apply lookup_singleton_eq | done] | by exists 0%nat; constructor | constructor].
Qed.

(** A tree rebuilt at a position. *)
Lemma holds_plug leaf h ctx T root l num :
  rep leaf h T (ctx_ptr leaf ctx) -> rep_ctx leaf h ctx (ptr leaf T) root -> NoDup (leaf :: locs (plug ctx T)) ->
  leaf_black leaf h -> (exists m, rb BLACK m (plug ctx T)) -> items (plug ctx T) = l -> ascending l ->
  num = Z.of_nat (length l) -> holds (mkTree h root leaf num) l.
Proof.
  intros Hr Hc Hn Hl Hb Hi Hs Hnum. destruct (proj1 (rep_plug leaf h ctx root T)) as [HrP HroP]; [done |].
  by exists (plug ctx T).
Qed.

Lemma touch_middle k v c1 c2 A e B : ascending (A ++ e :: B) -> eqb (ekey e) k = true ->
  touch k v c1 c2 (A ++ e :: B) = A ++ touch k v c1 c2 [e] ++ B.
Proof.
  intros (_ & _ & Hu & Ho)%ascending_middle E. unfold touch. rewrite fmap_app. cbn [fmap list_fmap app].
  f_equal; [by eapply (touch_skip k v c1 c2), under_eqb | f_equal; by eapply (touch_over k v c1 c2), over_eqb].
Qed.

Lemma find_middle k A e B : ascending (A ++ e :: B) -> eqb (ekey e) k = true -> find k (A ++ e :: B) = Some e.
Proof.
  intros (_ & _ & Hu & Ho)%ascending_middle E. rewrite find_skip by (by eapply under_eqb). cbn. by rewrite E.
Qed.

Definition touch_info (v : V) (cover_flag count_flag : bool) (i : info K V) : info K V :=
  if cover_flag then mkInfo (ia i) (ic i) (ik i) v (icnt i)
  else if count_flag then mkInfo (ia i) (ic i) (ik i) (iv i) (i32 (icnt i + 1)) else i.

Lemma touch_entry k v c1 c2 i : eqb (ik i) k = true -> touch k v c1 c2 [entry_of i] = [entry_of (touch_info v c1 c2 i)].
Proof. intros E. unfold touch. cbn. rewrite E. by destruct c1, c2. Qed.

Lemma touch_info_keep v c1 c2 i : ia (touch_info v c1 c2 i) = ia i /\ ic (touch_info v c1 c2 i) = ic i /\ ik (touch_info v c1 c2 i) = ik i.
Proof. by destruct c1, c2. Qed.

(** The repeated insertion of a key writes one field of its node. *)
Lemma touch_heap (h : heap K V) v c1 c2 i p x y : h !! ia i = Some (node_at Left i p x y) ->
  exists h', (if c1 : bool then upd h (ia i) (set_value v)
              else if c2 : bool then upd h (ia i) (set_count (i32 (icnt i + 1))) else Some h) = Some h' /\
    h' !! ia i = Some (node_at Left (touch_info v c1 c2 i) p x y) /\ forall a, a <> ia i -> h' !! a = h !! a.
Proof.
  intros H. destruct c1; [| destruct c2].
  3: { by exists h. }
  all: rewrite (upd_at _ _ _ _ H); eexists; split; [done |]; rewrite lookup_insert_eq; split; [done |].
  all: intros a Ha; by apply lookup_insert_ne.
Qed.

Lemma ascending_keys l l' : ekey <$> l = ekey <$> l' -> ascending l -> ascending l'.
Proof.
  revert l'. induction l as [|x l IH]; intros [|y l'] E H; cbn in E; try done. injection E as E1 E2.
  apply StronglySorted_inv in H as [H Hx]. constructor; [by apply IH |]. rewrite Forall_forall in *. intros z Hz.
  assert (Hk : ekey z ∈ ekey <$> l) by (rewrite E2; apply list_elem_of_fmap; eauto).
  apply list_elem_of_fmap in Hk as (w & -> & Hw). rewrite <- E1. by apply Hx.
Qed.

Lemma touch_keys k v c1 c2 l : ekey <$> touch k v c1 c2 l = ekey <$> l.
Proof. unfold touch. rewrite <- list_fmap_compose. apply list_fmap_ext. intros _ e _. cbn. by destruct (eqb _ _), c1, c2. Qed.

(** Where [insert] finds the key, or the place for it. *)
Lemma descend_root t l k T : rep (m_leaf t) (nodes t) T (m_leaf t) -> NoDup (m_leaf t :: locs T) ->
  leaf_black (m_leaf t) (nodes t) -> items T = l -> ascending l ->
  let place := descend eqb (size (nodes t)) (m_leaf t) (nodes t) (ptr (m_leaf t) T) (m_leaf t) k in
  (exists ctx i (x y : tree K V), place = Some (inl (ia i)) /\ plug ctx (Node i x y) = T /\ eqb (ik i) k = true) \/
  (exists ctx, place = Some (inr (ctx_ptr (m_leaf t) ctx)) /\ plug ctx Leaf = T /\ under k (ctx_left ctx) /\ over k (ctx_right ctx)).
Proof.
  intros Hr Hn Hl Hi Hs. pose proof (rep_size _ _ _ _ Hl Hn Hr). pose proof (height_locs T).
  apply (descend_spec (m_leaf t) (size (nodes t)) (nodes t) T []); cbn [ctx_left ctx_right ctx_ptr]; try done; try lia.
  - by apply NoDup_cons in Hn as [Hn _].
  - rewrite app_nil_r. cbn. by rewrite Hi.
  - constructor.
  - constructor.
Qed.

Lemma rb_same_color (i j : info K V) c m x y : ic i = ic j -> rb c m (Node i x y) -> rb c m (Node j x y).
Proof. intros E H. inversion H; subst; econstructor; try done; congruence. Qed.

Lemma touch_holds (h h' : heap K V) leaf ctx i x y k v c1 c2 root num l :
  let i' := touch_info v c1 c2 i in
  rep leaf h (plug ctx (Node i x y)) leaf -> root = ptr leaf (plug ctx (Node i x y)) -> NoDup (leaf :: locs (plug ctx (Node i x y))) ->
  leaf_black leaf h -> (exists m, rb BLACK m (plug ctx (Node i x y))) -> items (plug ctx (Node i x y)) = l -> ascending l ->
  num = Z.of_nat (length l) -> eqb (ik i) k = true ->
  h' !! ia i = Some (node_at Left i' (ctx_ptr leaf ctx) (ptr leaf x) (ptr leaf y)) -> (forall a, a <> ia i -> h' !! a = h !! a) ->
  holds (mkTree h' root leaf num) (touch k v c1 c2 l).
Proof.
  intros i' Hr Hroot Hn Hl (m & Hb) Hi Hs Hnum E Hh' Hf. destruct (touch_info_keep v c1 c2 i) as (Ea & Ec & Ek). fold i' in Ea, Ec, Ek.
  destruct (proj2 (rep_plug leaf h ctx root (Node i x y))) as [(H1 & Hx & Hy) Hc]; [done |].
  assert (Hp : locs (plug ctx (Node i' x y)) ≡ₚ locs (plug ctx (Node i x y))) by (rewrite !locs_plug; cbn; by rewrite Ea).
  pose proof Hn as Hn0. rewrite locs_plug in Hn. cbn [locs] in Hn. apart Hn. apply (holds_plug leaf h' ctx (Node i' x y)).
  - cbn [rep]. rewrite Ea. split; [done |]. split; (eapply rep_frame; [| done]); intros a Ha; apply Hf; set_solver.
  - cbn [ptr]. rewrite Ea. eapply rep_ctx_frame; [| exact Hc]. intros a Ha. apply Hf. set_solver.
  - by rewrite Hp.
  - unfold leaf_black. rewrite Hf by set_solver. done.
  - destruct (rbc_plug ctx _ _ _ Hb eq_refl) as (c' & m' & Ht & Hctx). eapply plug_rb; [| exact Hctx]. by eapply rb_same_color.
  - rewrite <- Hi, !items_split. cbn [items]. rewrite <- !app_assoc, !(app_assoc (ctx_left ctx)). cbn [app].
    change (ia i, _) with (entry_of i). rewrite touch_middle; [| | exact E].
    + by rewrite touch_entry.
    + rewrite <- Hi, items_split in Hs. cbn [items] in Hs. rewrite <- !app_assoc, !(app_assoc (ctx_left ctx)) in Hs. exact Hs.
  - eapply ascending_keys; [symmetry; apply touch_keys | done].
  - unfold touch. by rewrite length_fmap.
Qed.

(** A new node under its parent, before the repair. *)
Lemma attach (h : heap K V) leaf ctx a k v g root : a <> leaf -> a ∉ ctx_locs ctx -> leaf ∉ ctx_locs ctx -> NoDup (ctx_locs ctx) ->
  rep_ctx leaf h ctx leaf root -> under k (ctx_left ctx) -> over k (ctx_right ctx) ->
  let h1 := <[a := mkNode RED k v g (ctx_ptr leaf ctx) leaf leaf]> h in
  exists h' root',
    (if bool_decide (ctx_ptr leaf ctx = leaf) then Some (h1, a)
     else p ← h1 !! ctx_ptr leaf ctx;
          h ← upd h1 (ctx_ptr leaf ctx) (set_child (if ltb k (nkey p) then Left else Right) a); Some (h, root)) = Some (h', root') /\
    rep leaf h' (Node (mkInfo a RED k v g) Leaf Leaf) (ctx_ptr leaf ctx) /\ rep_ctx leaf h' ctx a root' /\ h' !! leaf = h !! leaf.
Proof.
  intros Ha Hac Hl Hn Hc Hu Ho h1. destruct ctx as [|f ctx]; cbn [ctx_ptr ctx_locs rep_ctx] in *.
  { rewrite bool_decide_eq_true_2 by done. exists h1, a. subst h1. cbn. rewrite lookup_insert_eq, lookup_insert_ne by done. done. }
  destruct Hc as (H1 & H2 & H3). apart Hn. assert (Hfl : ia (fi f) <> leaf) by set_solver.
  assert (Haf : a <> ia (fi f)) by set_solver.
  assert (Hf1 : h1 !! ia (fi f) = Some (node_at (fs f) (fi f) (ctx_ptr leaf ctx) leaf (ptr leaf (fsib f))))
    by (subst h1; by rewrite lookup_insert_ne).
  rewrite bool_decide_eq_false_2 by done. rewrite Hf1. cbn [mbind option_bind].
  rewrite nkey_at, (place_side f ctx k Hu Ho), (upd_at _ _ _ _ Hf1), set_child_at. cbn [mbind option_bind].
  eexists _, root. split; [done |]. split; [| split].
  - cbn. rewrite lookup_insert_ne by done. subst h1. by rewrite lookup_insert_eq.
  - rewrite lookup_insert_eq. split; [done |]. subst h1. split.
    + do 2 (apply rep_insert; [set_solver |]). done.
    + do 2 (apply rep_ctx_insert; [set_solver |]). done.
  - subst h1. by rewrite !lookup_insert_ne.
Qed.

Lemma length_add e l : length (add e l) = S (length l).
Proof. induction l as [|x l IH]; cbn; [done |]. destruct (ltb _ _); cbn; by rewrite ?IH. Qed.

Lemma insert_new t l k v c1 c2 a g ctx : (node_num t <= MAX_TREE_SIZE) ->
  rep (m_leaf t) (nodes t) (plug ctx Leaf) (m_leaf t) -> m_root t = ptr (m_leaf t) (plug ctx Leaf) ->
  NoDup (a :: m_leaf t :: locs (plug ctx Leaf)) -> leaf_black (m_leaf t) (nodes t) -> (exists m, rb BLACK m (plug ctx Leaf)) ->
  items (plug ctx Leaf) = l -> ascending l -> node_num t = Z.of_nat (length l) ->
  descend eqb (size (nodes t)) (m_leaf t) (nodes t) (m_root t) (m_leaf t) k = Some (inr (ctx_ptr (m_leaf t) ctx)) ->
  under k (ctx_left ctx) -> over k (ctx_right ctx) ->
  exists t', insert eqb k v c1 c2 (Some a) g t = Some (0, t') /\ holds t' (add (a, (k, v, g)) l).
Proof.
  intros Hnum Hr Hroot Hn Hl (m & Hb) Hi Hs Hlen Hd Hu Ho.
  unfold insert. rewrite (proj2 (Z.ltb_ge _ _) Hnum), Hd. cbn [mbind option_bind].
  pose proof (rep_size _ _ _ _ Hl (proj2 (proj1 (NoDup_cons _ _) Hn)) Hr) as Hsize.
  destruct (proj2 (rep_plug (m_leaf t) (nodes t) ctx (m_root t) Leaf)) as [_ Hc]; [done |].
  rewrite locs_plug in Hn, Hsize. cbn [locs app] in Hn, Hsize. pose proof Hn as Hn0. apart Hn. pose proof (length_ctx ctx).
  destruct (attach (nodes t) (m_leaf t) ctx a k v g (m_root t)) as (h1 & root1 & -> & Hr1 & Hc1 & Hl1); try done; [set_solver | set_solver |].
  cbn [mbind option_bind fst snd]. destruct (rbc_plug ctx _ _ _ Hb eq_refl) as (c' & m' & Ht & Hctx). inversion Ht; subst c' m'.
  destruct (InsertFixup_spec (m_leaf t) (size (nodes t)) h1 ctx root1 (Node (mkInfo a RED k v g) Leaf Leaf) 0)
    as (h' & T & HF & HrT & HiT & HbT & HlT); try done; [lia | by repeat constructor | unfold leaf_black; by rewrite Hl1 | |].
  { cbn. eapply NoDup_Permutation_proper; [| exact Hn0]. solve_Permutation. }
  cbn [ptr ia] in HF. rewrite HF. cbn [mbind option_bind fst snd]. eexists. split; [done |].
  assert (Hadd : items T = add (a, (k, v, g)) l).
  { rewrite HiT, items_split. rewrite <- Hi, items_split. cbn [items app]. by rewrite add_middle. }
  exists T. cbn [m_leaf nodes m_root node_num]. split; [done |]. split; [done |]. split; [| split; [| split; [done |]; split; [done |]; split]].
  - eapply NoDup_Permutation_proper; [| exact Hn0]. rewrite (items_locs _ _ HiT), locs_plug. cbn. solve_Permutation.
  - unfold leaf_black. by rewrite HlT, Hl1.
  - rewrite <- Hi, items_split in *. cbn [items app] in *. rewrite add_middle by done. apply ascending_app in Hs as (HA & HB & _).
    by apply ascending_middle.
  - rewrite length_add, Hlen. lia.
Qed.

(** The abstract insertion: the code and the contents after it. *)
Definition spec_insert (k : K) (v : V) (cover_flag count_flag : bool) (new_node : option loc) (garbage : Z) l : Z * list entry :=
  if MAX_TREE_SIZE <? Z.of_nat (length l) then (-10, l)
  else match find k l with
       | Some _ => (1, touch k v cover_flag count_flag l)
       | None => match new_node with None => (-1, l) | Some a => (0, add (a, (k, v, garbage)) l) end
       end.

(** [insert] implements the insertion into a sorted list, on every branch. *)
Lemma insert_refines t l k v c1 c2 new_node g : holds t l -> (forall a, new_node = Some a -> a ∉ m_leaf t :: l.*1) ->
  exists t', insert eqb k v c1 c2 new_node g t = Some (fst (spec_insert k v c1 c2 new_node g l), t') /\
    holds t' (snd (spec_insert k v c1 c2 new_node g l)).
Proof.
  intros Ht Hnew. pose proof Ht as (T & Hr & Hroot & Hn & Hl & Hb & Hi & Hs & Hlen). unfold spec_insert. rewrite <- Hlen.
  destruct (Z.ltb_spec MAX_TREE_SIZE (node_num t)) as [Hbig|Hsmall].
  { exists t. unfold insert. by rewrite (proj2 (Z.ltb_lt _ _) Hbig). }
  destruct (descend_root t l k T Hr Hn Hl Hi Hs) as [(ctx & i & x & y & Hd & HT & E)|(ctx & Hd & HT & Hu & Ho)]; rewrite <- Hroot in Hd; subst T.
  - assert (Hfind : find k l = Some (entry_of i)).
    { rewrite <- Hi, items_split in *. cbn [items] in *. rewrite <- !app_assoc, !(app_assoc (ctx_left ctx)) in *. by apply find_middle. }
    rewrite Hfind. cbn [fst snd]. unfold insert. rewrite (proj2 (Z.ltb_ge _ _) Hsmall), Hd. cbn [mbind option_bind].
    destruct (proj2 (rep_plug (m_leaf t) (nodes t) ctx (m_root t) (Node i x y))) as [(H1 & _) _]; [done |].
    rewrite H1. cbn [mbind option_bind node_at count].
    destruct (touch_heap (nodes t) v c1 c2 i _ _ _ H1) as (h' & -> & Hh' & Hf). cbn [mbind option_bind].
    eexists. split; [done |]. eapply touch_holds; done.
  - assert (Hfind : find k l = None).
    { rewrite <- Hi, items_split. cbn [items app]. rewrite find_skip by done. by apply find_over. }
    rewrite Hfind. destruct new_node as [a|]; cbn [fst snd].
    + eapply insert_new; try done. apply NoDup_cons. split; [| done]. pose proof (Hnew a eq_refl) as Ha. intros Hin. apply Ha.
      rewrite <- Hi, <- locs_items. done.
    + exists t. unfold insert. rewrite (proj2 (Z.ltb_ge _ _) Hsmall), Hd. done.
Qed.

Lemma search_refines t l k : holds t l ->
  search eqb k t = Some (match find k l with Some _ => 0 | None => -1 end, evalue <$> find k l).
Proof.
  intros (T & Hr & Hroot & Hn & Hl & Hb & Hi & Hs & Hlen). unfold search. rewrite Hroot.
  pose proof (rep_size _ _ _ _ Hl Hn Hr). pose proof (height_locs T).
  rewrite (search_loop_spec _ _ _ T (m_leaf t)); try done; [| by apply NoDup_cons in Hn as [Hn _] | lia | by rewrite Hi].
  cbn [mbind option_bind]. rewrite Hi. by destruct (find k l).
Qed.

(** ** Balance *)

Lemma rb_height c n (t : tree K V) : rb c n t -> (height t <= 2 * n + (if bool_decide (c = RED) then 1 else 0))%nat.
Proof.
  induction 1 as [|i l r n Hi _ IHl _ IHr|i l r n c c' Hi _ IHl _ IHr]; cbn [height]; [lia | |].
  - rewrite bool_decide_eq_true_2 by done. rewrite bool_decide_eq_false_2 in IHl, IHr by done. lia.
  - rewrite bool_decide_eq_false_2 by done. repeat case_bool_decide; lia.
Qed.

Lemma rb_items c n (t : tree K V) : rb c n t -> (2 ^ n <= S (length (items t)))%nat.
Proof. induction 1; cbn [items Nat.pow length]; rewrite ?length_app; cbn [length]; lia. Qed.

Lemma rb_log n (t : tree K V) : rb BLACK n t -> (height t <= 2 * Nat.log2 (S (length (items t))))%nat.
Proof.
  intros H. pose proof (rb_height _ _ _ H) as Hh. rewrite bool_decide_eq_false_2 in Hh by done. pose proof (rb_items _ _ _ H) as Hs.
  enough (n <= Nat.log2 (S (length (items t))))%nat by lia. apply Nat.log2_le_mono in Hs. by rewrite Nat.log2_pow2 in Hs by lia.
Qed.

(** The black height of the nodes below a pointer: [None] where two sides differ
    or a red node has a red child. *)
Fixpoint black_height (fuel : nat) (leaf : loc) (h : heap K V) (a : loc) (above : NODE_COLOR) : option nat :=
  if bool_decide (a = leaf) then Some O
  else match fuel with
       | O => None
       | S fuel =>
           n ← h !! a;
           x ← black_height fuel leaf h (left n) (color n);
           y ← black_height fuel leaf h (right n) (color n);
           if bool_decide (x = y) && negb (bool_decide (above = RED) && bool_decide (color n = RED))
           then Some (if bool_decide (color n = BLACK) then S x else x) else None
       end.

Lemma black_height_rb fuel leaf (h : heap K V) : forall t c m p above, leaf ∉ locs t -> (height t <= fuel)%nat ->
  rep leaf h t p -> rb c m t -> (above = RED -> c = BLACK) -> black_height fuel leaf h (ptr leaf t) above = Some m.
Proof.
  induction fuel as [|fuel IH]; intros [|i l r] c m p above Hl Hh Hr Hb Ha; cbn [height locs ptr rep] in *; try lia;
    cbn [black_height]; try (rewrite bool_decide_eq_true_2 by done; by inversion Hb).
  rewrite bool_decide_eq_false_2 by set_solver. destruct Hr as (H1 & H2 & H3). rewrite H1. cbn [mbind option_bind node_at left right color].
  assert (leaf ∉ locs l /\ leaf ∉ locs r) as [Hll Hlr] by set_solver.
  inversion Hb as [|? ? ? ? Hi Hbl Hbr|? ? ? n c1 c2 Hi Hbl Hbr]; subst; rewrite Hi.
  - rewrite (IH l BLACK m (ia i)), (IH r BLACK m (ia i)); try done; try lia. cbn [mbind option_bind].
    rewrite bool_decide_eq_true_2 by done. destruct above; [by specialize (Ha eq_refl) | done].
  - rewrite (IH l c1 n (ia i)), (IH r c2 n (ia i)); try done; try lia. cbn [mbind option_bind].
    rewrite bool_decide_eq_true_2 by done. by destruct above.
Qed.

Definition balanced (t : QRedBlackTree K V) : bool :=
  bool_decide (is_Some (black_height (size (nodes t)) (m_leaf t) (nodes t) (m_root t) RED)).

Lemma holds_balanced t l : holds t l -> balanced t = true.
Proof.
  intros (T & Hr & Hroot & Hn & Hl & (m & Hb) & Hi & Hs & Hlen). apply bool_decide_eq_true_2. rewrite Hroot.
  pose proof (rep_size _ _ _ _ Hl Hn Hr). pose proof (height_locs T).
  rewrite (black_height_rb _ _ _ T BLACK m (m_leaf t)); try done; [by apply NoDup_cons in Hn as [Hn _] | lia].
Qed.

(** A search visits at most twice the logarithm of the number of entries. *)
Lemma holds_search_log t l k : holds t l ->
  search_loop eqb (2 * Nat.log2 (S (length l))) (m_leaf t) (nodes t) (m_root t) k = Some (evalue <$> find k l).
Proof.
  intros (T & Hr & Hroot & Hn & Hl & (m & Hb) & Hi & Hs & Hlen). rewrite Hroot. pose proof (rb_log m T Hb) as Hh. rewrite Hi in Hh.
  rewrite (search_loop_spec _ _ _ T (m_leaf t)); try done; [by rewrite Hi | by apply NoDup_cons in Hn as [Hn _] | by rewrite Hi].
Qed.

(** ** Sequences of insertions *)

Record call : Type := mkCall { c_key : K; c_value : V; c_cover : bool; c_count : bool; c_new : option loc; c_garbage : Z }.

Fixpoint insert_all (cs : list call) (t : QRedBlackTree K V) : option (list Z * QRedBlackTree K V) :=
  match cs with
  | [] => Some ([], t)
  | c :: cs =>
      r ← insert eqb (c_key c) (c_value c) (c_cover c) (c_count c) (c_new c) (c_garbage c) t;
      s ← insert_all cs (snd r);
      Some (fst r :: fst s, snd s)
  end.

Fixpoint spec_all (cs : list call) l : list Z * list entry :=
  match cs with
  | [] => ([], l)
  | c :: cs =>
      let r := spec_insert (c_key c) (c_value c) (c_cover c) (c_count c) (c_new c) (c_garbage c) l in
      let s := spec_all cs (snd r) in
      (fst r :: fst s, snd s)
  end.

(** [new] returns the address of no node of the tree. *)
Fixpoint fresh (leaf : loc) (cs : list call) l : Prop :=
  match cs with
  | [] => True
  | c :: cs => (forall a, c_new c = Some a -> a ∉ leaf :: l.*1) /\
      fresh leaf cs (snd (spec_insert (c_key c) (c_value c) (c_cover c) (c_count c) (c_new c) (c_garbage c) l))
  end.

Lemma insert_leaf k (v : V) c1 c2 new_node g t r : insert eqb k v c1 c2 new_node g t = Some r -> m_leaf (snd r) = m_leaf t.
Proof. unfold insert. intros H. repeat (case_match || simplify_option_eq); done. Qed.

Lemma insert_all_refines cs : forall t l, holds t l -> fresh (m_leaf t) cs l ->
  exists t', insert_all cs t = Some (fst (spec_all cs l), t') /\ holds t' (snd (spec_all cs l)).
Proof.
  induction cs as [|c cs IH]; intros t l Ht Hf; cbn [insert_all spec_all fresh] in *; [by exists t |]. destruct Hf as [Hc Hf].
  destruct (insert_refines t l (c_key c) (c_value c) (c_cover c) (c_count c) (c_new c) (c_garbage c) Ht Hc) as (t1 & E & Ht1).
  rewrite <- (insert_leaf _ _ _ _ _ _ _ _ E) in Hf. rewrite E. cbn [mbind option_bind fst snd] in *.
  destruct (IH t1 _ Ht1 Hf) as (t2 & -> & Ht2). cbn [mbind option_bind fst snd]. eauto.
Qed.

(** ** Size and destruction *)

Lemma size_loop_spec fuel leaf (h : heap K V) : forall t p z, leaf ∉ locs t -> (height t <= fuel)%nat -> rep leaf h t p ->
  size_loop fuel leaf h (ptr leaf t) z = Some (z + Z.of_nat (length (items t))).
Proof.
  induction fuel as [|fuel IH]; intros [|i x y] p z Hl Hh Hr; cbn [height locs ptr rep items] in *; try lia;
    cbn [size_loop]; try (rewrite bool_decide_eq_true_2 by done; cbn [length]; f_equal; lia).
  rewrite bool_decide_eq_false_2 by set_solver. destruct Hr as (H1 & H2 & H3). rewrite H1. cbn [mbind option_bind node_at left right].
  rewrite (IH x (ia i)); [| set_solver | lia | done]. cbn [mbind option_bind].
  rewrite (IH y (ia i)); [| set_solver | lia | done]. f_equal. rewrite length_app. cbn [length]. lia.
Qed.

(** The tree holds as many nodes as it counts. *)
Lemma GetTreeSize_spec t l : holds t l -> GetTreeSize t = Some (node_num t).
Proof.
  intros (T & Hr & Hroot & Hn & Hl & Hb & Hi & Hs & Hlen). unfold GetTreeSize. rewrite Hroot.
  pose proof (rep_size _ _ _ _ Hl Hn Hr). pose proof (height_locs T).
  rewrite (size_loop_spec _ _ _ T (m_leaf t)); [by rewrite Hi, Hlen | by apply NoDup_cons in Hn as [Hn _] | lia | done].
Qed.

Lemma destroy_loop_spec fuel leaf : forall (h : heap K V) t p, NoDup (leaf :: locs t) -> (height t <= fuel)%nat -> rep leaf h t p ->
  exists h', (if bool_decide (ptr leaf t <> leaf) then destroy_loop fuel leaf h (ptr leaf t) else Some h) = Some h' /\
    (forall a, a ∈ locs t -> h' !! a = None) /\ (forall a, a ∉ locs t -> h' !! a = h !! a).
Proof.
  induction fuel as [|fuel IH]; intros h [|i x y] p Hn Hh Hr; cbn [height locs ptr rep] in *; try lia;
    try (rewrite bool_decide_eq_false_2 by auto; exists h; set_solver).
  destruct Hr as (H1 & H2 & H3). apart Hn. assert (Hil : ia i <> leaf) by set_solver. rewrite bool_decide_eq_true_2 by done. cbn [destroy_loop]. rewrite H1. cbn [mbind option_bind node_at left right].
  assert (Hix : ia i ∉ locs x /\ ia i ∉ locs y) by set_solver. destruct Hix as [Hix Hiy].
  destruct (IH h x (ia i)) as (h1 & -> & Hx1 & Hf1); [apply NoDup_cons; split; [set_solver | done] | lia | done |].
  cbn [mbind option_bind]. rewrite Hf1, H1 by done. cbn [mbind option_bind node_at right].
  assert (Hry : rep leaf h1 y (ia i)) by (eapply rep_frame; [| exact H3]; intros a Ha; apply Hf1; set_solver).
  destruct (IH h1 y (ia i)) as (h2 & -> & Hx2 & Hf2); [apply NoDup_cons; split; [set_solver | done] | lia | done |].
  cbn [mbind option_bind]. rewrite Hf2, Hf1, H1 by done. cbn [mbind option_bind]. eexists. split; [done |]. split.
  - intros a [->|[Ha|Ha]%elem_of_app]%elem_of_cons; [apply lookup_delete_eq | |].
    + destruct (decide (a = ia i)) as [->|Hne]; [apply lookup_delete_eq |]. rewrite lookup_delete_ne by done.
      destruct (decide (a ∈ locs y)) as [Hy|Hy]; [by apply Hx2 | rewrite Hf2 by done; by apply Hx1].
    + destruct (decide (a = ia i)) as [->|Hne]; [apply lookup_delete_eq |]. rewrite lookup_delete_ne by done. by apply Hx2.
  - intros a Ha. rewrite lookup_delete_ne by set_solver. rewrite Hf2, Hf1 by set_solver. done.
Qed.

(** [Destroy] deletes every node once and keeps the leaf. *)
Lemma Destroy_spec t l : holds t l -> exists t', Destroy t = Some (match l with [] => 1 | _ => 0 end, t') /\
  m_root t' = m_leaf t /\ (forall a, a ∈ l.*1 -> nodes t' !! a = None) /\ (forall a, a ∉ l.*1 -> nodes t' !! a = nodes t !! a).
Proof.
  intros (T & Hr & Hroot & Hn & Hl & Hb & Hi & Hs & Hlen). unfold Destroy. rewrite Hroot.
  pose proof (rep_size _ _ _ _ Hl Hn Hr). pose proof (height_locs T).
  destruct (destroy_loop_spec (size (nodes t)) (m_leaf t) (nodes t) T (m_leaf t) Hn) as (h' & E & H1 & H2); [lia | done |].
  assert (Hp : forall a, a ∈ locs T <-> a ∈ l.*1) by (intros a; by rewrite locs_items, Hi).
  destruct T as [|i x y]; cbn [ptr] in *.
  - rewrite bool_decide_eq_true_2 by done. subst l. exists t. set_solver.
  - assert (ia i <> m_leaf t) by (apply NoDup_cons in Hn as [Hn _]; set_solver).
    rewrite bool_decide_eq_true_2 in E by done. rewrite bool_decide_eq_false_2 by done. rewrite E. cbn [mbind option_bind].
    destruct l as [|e l]; [cbn in Hi; by destruct (items x) |]. eexists. split; [done |]. cbn [m_root nodes].
    split; [done |]. split; intros a Ha; [apply H1 | apply H2]; by rewrite Hp.
Qed.

(** C17. A tree built by any calls of [insert], with [new] failing or returning
    fresh nodes, always returns, gives the codes of the insertion into a sorted
    list, and is a red-black tree that holds exactly that list: keys in order, no
    red node below a red one, equal black heights.  [search] then finds the value
    of every key of the list, after at most 2 log2(n+1) nodes, and no other key. *)
Theorem QRedBlackTree_refines leaf n cs : fresh leaf cs [] ->
  exists t, insert_all cs (construct leaf n) = Some (fst (spec_all cs []), t) /\ holds t (snd (spec_all cs [])) /\
    forall k, let r := find k (snd (spec_all cs [])) in
      search eqb k t = Some (match r with Some _ => 0 | None => -1 end, evalue <$> r) /\
      search_loop eqb (2 * Nat.log2 (S (length (snd (spec_all cs []))))) (m_leaf t) (nodes t) (m_root t) k = Some (evalue <$> r).
Proof.
  intros Hf. destruct (insert_all_refines cs (construct leaf n) [] (construct_holds leaf n) Hf) as (t & E & Ht).
  exists t. split; [done |]. split; [done |]. intros k. split; [by apply search_refines | by apply holds_search_log].
Qed.

End contents.

(** ** Concrete trees *)

(** Calls that insert the given keys at the addresses 2, 3, ... *)
Fixpoint calls (a : loc) (ks : list Z) : list (call (K := Z) (V := Z)) :=
  match ks with
  | [] => []
  | k :: ks => mkCall k (10 * k) false true (Some a) 1 :: calls (a + 1)%positive ks
  end.

Definition blank : RBNode Z Z := mkNode BLACK 0 0 0 1%positive 1%positive 1%positive.

Lemma eqb_ltb_Z (a b : Z) : Z.eqb a b = negb (ltb a b) && negb (ltb b a).
Proof. unfold ltb, key_Z. lia. Qed.

Fixpoint freshb (leaf : loc) (cs : list (call (K := Z) (V := Z))) l : bool :=
  match cs with
  | [] => true
  | c :: cs => match c_new c with Some a => bool_decide (a ∉ leaf :: l.*1) | None => true end &&
      freshb leaf cs (snd (spec_insert Z.eqb (c_key c) (c_value c) (c_cover c) (c_count c) (c_new c) (c_garbage c) l))
  end.

Lemma freshb_fresh leaf cs : forall l, freshb leaf cs l = true -> fresh Z.eqb leaf cs l.
Proof.
  induction cs as [|c cs IH]; intros l H; cbn [fresh]; [done |]. apply andb_true_iff in H as [H1 H2].
  split; [| by apply IH]. intros a E. rewrite E in H1. by apply bool_decide_eq_true in H1.
Qed.

Lemma QRedBlackTree_refines_witness :
  spec_all Z.eqb (calls 2%positive [5; 3; 5; 8]) [] =
    ([0; 0; 1; 0], [(3%positive, (3, 30, 1)); (2%positive, (5, 50, 2)); (5%positive, (8, 80, 1))]) /\
  exists t, insert_all Z.eqb (calls 2%positive [5; 3; 5; 8]) (construct 1%positive blank) =
    Some (fst (spec_all Z.eqb (calls 2%positive [5; 3; 5; 8]) []), t) /\ search Z.eqb 8 t = Some (0, Some 80).
Proof.
  split; [vm_compute; reflexivity |].
  destruct (QRedBlackTree_refines Z.eqb eqb_ltb_Z 1%positive blank (calls 2%positive [5; 3; 5; 8])) as (t & E & _ & H).
  - apply freshb_fresh. vm_compute. reflexivity.
  - exists t. split; [exact E |]. exact (proj1 (H 8)).
Defined.

(** The tree of the keys 10, 9, ..., 1. *)
Definition ten : QRedBlackTree Z Z :=
  match insert_all Z.eqb (calls 2%positive [10; 9; 8; 7; 6; 5; 4; 3; 2; 1]) (construct 1%positive blank) with
  | Some (_, t) => t
  | None => construct 1%positive blank
  end.

(** [remove] does not keep the invariant: the right branch of [DeleteFixup]
    compares colours where it means to assign them, so removing 5 from the
    red-black tree of the keys 10, 9, ..., 1 succeeds and leaves a tree that is
    not one. *)
Theorem remove_unbalances :
  holds ten (snd (spec_all Z.eqb (calls 2%positive [10; 9; 8; 7; 6; 5; 4; 3; 2; 1]) [])) /\
  exists t', remove Z.eqb 5 false ten = Some (0, t') /\ search Z.eqb 5 t' = Some (-1, None) /\ forall l, ~ holds t' l.
Proof.
  split.
  - destruct (insert_all_refines Z.eqb eqb_ltb_Z (calls 2%positive [10; 9; 8; 7; 6; 5; 4; 3; 2; 1]) (construct 1%positive blank) [])
      as (t & E & Ht); [apply construct_holds | apply freshb_fresh; vm_compute; reflexivity |].
    unfold ten. by rewrite E.
  - destruct (remove Z.eqb 5 false ten) as [[c t']|] eqn:E; [| vm_compute in E; done].
    assert (H : (match remove Z.eqb 5 false ten with Some (c, t) => (c, search Z.eqb 5 t, balanced t) | None => (0, None, true) end)
      = (0, Some (-1, None), false)) by (vm_compute; reflexivity).
    rewrite E in H. injection H as -> Hs Hb. exists t'. split; [done |]. split; [done |]. intros l Hl.
    apply (holds_balanced Z.eqb eqb_ltb_Z) in Hl. congruence.
Qed.

End RBTree.
