(* ===== verification/HashMap.v ===== *)
(** * Hash maps: src/include/common/qhashmap.h

    [murmurHash] of qfunc.h and [DefaultHash], the class [Hash] both maps are
    templates over, and the maps: [QHashMap], a vector of lists, and
    [QHashMap2], an array of pointers to [std::map].  Both implement a finite
    map, [QHashMap2] when the array [new] returns happens to hold null
    pointers, which its constructor does not write. *)

From stdpp Require Import gmap.
From S2P Require Import Prelude Arrays.
Import Arrays.

Module HashMap.

(** ** The hash function *)

#[local] Notation m := 0x5bd1e995.

(** [while(len >= 4)], and the bytes that are left. *)
Fixpoint murmur_loop (data : bytes) (h : Z) : bytes * Z :=
  match data with
  | a :: b :: c :: d :: data =>
      let k := le_decode [a; b; c; d] in
      let k := u32 (k * m) in
      let k := Z.lxor k (Z.shiftr k 24) in
      let k := u32 (k * m) in
      let h := u32 (h * m) in
      murmur_loop data (Z.lxor h k)
  | _ => (data, h)
  end.

Definition murmurHash (key : bytes) : Z :=
  let '(data, h) := murmur_loop key (u32 (Z.lxor 97 (Z.of_nat (length key)))) in
  let h := match data with
           | [a; b; c] => u32 (Z.lxor (Z.lxor (Z.lxor h (Z.shiftl (byte_val c) 16)) (Z.shiftl (byte_val b) 8)) (byte_val a) * m)
           | [a; b] => u32 (Z.lxor (Z.lxor h (Z.shiftl (byte_val b) 8)) (byte_val a) * m)
           | [a] => u32 (Z.lxor h (byte_val a) * m)
           | _ => h
           end in
  let h := Z.lxor h (Z.shiftr h 13) in
  let h := u32 (h * m) in
  Z.lxor h (Z.shiftr h 15).

(** The template parameter [Hash] of the maps. *)
Class Hash (K : Type) := { numBuckets : Z; hash : K -> Z }.

Class HashLaws (K : Type) {H : Hash K} : Prop := { hash_range k : 0 <= hash k < numBuckets }.

(** [DefaultHash<std::string>] *)
Definition DefaultHash (mNumBuckets : Z) : Hash bytes :=
  {| numBuckets := mNumBuckets; hash key := murmurHash key mod mNumBuckets |}.

Lemma DefaultHash_laws n : 0 < n -> HashLaws bytes (H := DefaultHash n).
Proof. intros Hn. constructor. intros k. cbn. by apply Z.mod_pos_bound. Qed.

(** The result is a 32-bit value. *)
Lemma xor_shift_range h k : is_u32 h -> 0 <= k -> is_u32 (Z.lxor h (Z.shiftr h k)).
Proof.
  intros Hh Hk. unfold is_u32 in *. assert (Hs : 0 <= Z.shiftr h k <= h).
  { rewrite Z.shiftr_div_pow2 by done. split; [apply Z.div_pos; lia |]. apply Z.div_le_upper_bound; [lia |]. nia. }
  split; [apply Z.lxor_nonneg; lia |]. destruct (Z.eq_dec (Z.lxor h (Z.shiftr h k)) 0) as [->|Hz]; [lia |].
  assert (0 <= Z.lxor h (Z.shiftr h k)) by (apply Z.lxor_nonneg; lia). apply Z.log2_lt_pow2; [lia |].
  destruct (Z.eq_dec h 0) as [->|Hh0]; [rewrite Z.shiftr_0_l in Hz; done |].
  eapply Z.le_lt_trans; [apply Z.log2_lxor; lia |].
  rewrite Z.max_l by (apply Z.log2_le_mono; lia). apply Z.log2_lt_pow2; lia.
Qed.

Lemma murmurHash_range key : is_u32 (murmurHash key).
Proof. unfold murmurHash. destruct (murmur_loop _ _) as [data h]. apply xor_shift_range; [apply u32_range | lia]. Qed.

(** ** QHashMap *)

Section model.
Context {K V : Type} {H : Hash K}.
(** The template parameter [Compare]. *)
Variable mComp : K -> K -> bool.

Record QHashMap : Type := mkMap { mElems : list (list (K * V)); mSize : Z }.

(** [Q_ASSERT] of the number of buckets; the vector has that many empty lists. *)
Definition construct : outcome QHashMap :=
  ASSERT 0 <? numBuckets THEN mret (mkMap (replicate (Z.to_nat numBuckets) []) 0).

(** The position an iterator stands at; the length at the end. *)
Fixpoint find_pos (l : list (K * V)) (x : K) : nat :=
  match l with
  | [] => 0
  | e :: l => if mComp (fst e) x then 0 else S (find_pos l x)
  end.

(** The bucket, its list and the iterator. *)
Definition findElement (x : K) (q : QHashMap) : option (Z * list (K * V) * nat) :=
  let bucket := hash x in
  l ← get (mElems q) bucket;
  Some (bucket, l, find_pos l x).

Definition find (x : K) (q : QHashMap) : option (option V) :=
  r ← findElement x q;
  Some (snd <$> snd (fst r) !! snd r).

Definition insert (x : K * V) (q : QHashMap) : option QHashMap :=
  r ← findElement (fst x) q;
  let '(bucket, l, it) := r in
  if bool_decide (it <> length l) then Some q
  else elems ← set (mElems q) bucket (l ++ [x]); Some (mkMap elems (u32 (mSize q + 1))).

Definition erase (x : K) (q : QHashMap) : option QHashMap :=
  r ← findElement x q;
  let '(bucket, l, it) := r in
  if bool_decide (it <> length l)
  then elems ← set (mElems q) bucket (take it l ++ drop (S it) l); Some (mkMap elems (u32 (mSize q - 1)))
  else Some q.

(** ** QHashMap2 *)

(** A pointer of the array: what the memory held, null, or a [std::map]. *)
Context {E : EqDecision K} {C : Countable K}.
Inductive slot : Type := Garbage | Null | Entries (es : gmap K V).

(** [mEntries] is null after [clear]. *)
Record QHashMap2 : Type := mkMap2 { mEntries : option (list slot); mSize2 : Z }.

(** [memory] is what the array [new] returns holds. *)
Definition QHashMap2_construct (memory : list slot) : outcome QHashMap2 :=
  ASSERT 0 <? numBuckets THEN mret (mkMap2 (Some memory) 0).

(** [if(!mEntries[bucket]) mEntries[bucket]=new EntryMap()] *)
Definition QHashMap2_entry (bucket : Z) (q : QHashMap2) : option (list slot * gmap K V) :=
  slots ← mEntries q;
  s ← get slots bucket;
  match s with Garbage => None | Null => Some (slots, ∅) | Entries es => Some (slots, es) end.

Definition QHashMap2_insert (x : K * V) (q : QHashMap2) : option (bool * QHashMap2) :=
  let bucket := hash (fst x) in
  r ← QHashMap2_entry bucket q;
  match snd r !! fst x with
  | Some _ => slots ← set (fst r) bucket (Entries (snd r)); Some (false, mkMap2 (Some slots) (mSize2 q))
  | None => slots ← set (fst r) bucket (Entries (<[fst x := snd x]> (snd r))); Some (true, mkMap2 (Some slots) (u32 (mSize2 q + 1)))
  end.

Definition QHashMap2_update (x : K * V) (q : QHashMap2) : option QHashMap2 :=
  let bucket := hash (fst x) in
  r ← QHashMap2_entry bucket q;
  slots ← set (fst r) bucket (Entries (<[fst x := snd x]> (snd r)));
  Some (mkMap2 (Some slots) (match snd r !! fst x with Some _ => mSize2 q | None => u32 (mSize2 q + 1) end)).

Definition QHashMap2_find (x : K) (q : QHashMap2) : option (option V) :=
  slots ← mEntries q;
  s ← get slots (hash x);
  match s with Garbage => None | Null => Some None | Entries es => Some (es !! x) end.

(** [clear] deletes what every pointer that is not null points to. *)
Definition QHashMap2_clear (q : QHashMap2) : option QHashMap2 :=
  match mEntries q with
  | None => Some q
  | Some slots => if forallb (fun s => match s with Garbage => false | _ => true end) slots then Some (mkMap2 None 0) else None
  end.

End model.

Arguments QHashMap : clear implicits.
Arguments QHashMap2 K V {E C}.
Arguments slot K V {E C}.

(** ** Chains *)

Section refinement.
Context {K V : Type} `{Countable K} {HK : Hash K} {laws : HashLaws K}.
Variable mComp : K -> K -> bool.
(** [Compare] is equality. *)
Hypothesis mComp_eq : forall a b, mComp a b = bool_decide (a = b).
#[local] Notation as_map := (list_to_map (M := gmap K V)).
Implicit Types (l : list (K * V)) (x k : K) (q : QHashMap K V) (M : gmap K V).

Lemma find_pos_lookup l x : snd <$> l !! find_pos mComp l x = as_map l !! x.
Proof.
  induction l as [|[k v] l IH]; cbn; [by rewrite lookup_empty |]. rewrite mComp_eq. case_bool_decide as E.
  - cbn. subst. by rewrite lookup_insert_eq.
  - cbn. by rewrite lookup_insert_ne.
Qed.

Lemma find_pos_end l x : find_pos mComp l x = length l <-> x ∉ l.*1.
Proof.
  induction l as [|[k v] l IH]; cbn; [set_solver |]. rewrite mComp_eq. case_bool_decide as E; [set_solver |].
  rewrite not_elem_of_cons, <- IH. naive_solver.
Qed.

Lemma find_pos_erase l x : NoDup l.*1 ->
  let l' := take (find_pos mComp l x) l ++ drop (S (find_pos mComp l x)) l in
  as_map l' = delete x (as_map l) /\ l' `sublist_of` l.
Proof.
  induction l as [|[k v] l IH]; cbn; [by rewrite delete_empty |]. intros [Hk Hn]%NoDup_cons.
  rewrite mComp_eq. case_bool_decide as E; cbn.
  - subst. rewrite drop_0, delete_insert_eq, delete_id; [split; [done | by apply sublist_cons] |].
    by apply not_elem_of_list_to_map_1.
  - destruct (IH Hn) as [E' Hs]. cbn in E', Hs. rewrite E'. split; [by rewrite delete_insert_ne | by apply sublist_skip].
Qed.

(** ** QHashMap implements a finite map *)

(** Every key is in the list of its bucket, once. *)
Definition well_formed (bs : list (list (K * V))) : Prop :=
  Z.of_nat (length bs) = numBuckets /\
  forall i l, get bs i = Some l -> NoDup l.*1 /\ Forall (fun e => hash (fst e) = i) l.

(** The buckets hold the entries of the map. *)
Definition spread bs M : Prop :=
  well_formed bs /\ forall x, exists l, get bs (hash x) = Some l /\ M !! x = as_map l !! x.

Definition implements q M : Prop := spread (mElems q) M /\ mSize q = u32 (Z.of_nat (size M)).

(** A new list for the bucket of a key, which changes no other key. *)
Lemma spread_bucket bs M M' x l l' :
  spread bs M -> get bs (hash x) = Some l -> NoDup l'.*1 -> Forall (fun e => hash (fst e) = hash x) l' ->
  (forall k, hash k = hash x -> M' !! k = as_map l' !! k) -> (forall k, hash k <> hash x -> M' !! k = M !! k) ->
  spread (<[Z.to_nat (hash x) := l']> bs) M'.
Proof.
  intros ([Hlen Hw] & Hm) Hl Hn Hf Hin Hout. pose proof (get_range _ _ _ Hl) as Hr. split.
  - split; [by rewrite length_insert |]. intros i l0. rewrite get_insert by done.
    destruct (Z.eqb_spec (hash x) i) as [<-|Hne]; [by intros [= <-] | apply Hw].
  - intros k. rewrite get_insert by done. destruct (Z.eqb_spec (hash x) (hash k)) as [Heq|Hne].
    + exists l'. split; [done |]. by apply Hin.
    + destruct (Hm k) as (l0 & E & Hk). exists l0. split; [done |]. by rewrite Hout.
Qed.

(** An entry more, in front of or behind the others of its bucket. *)
Lemma spread_add bs M x v l l' : spread bs M -> get bs (hash x) = Some l -> M !! x = None -> l' ≡ₚ (x, v) :: l ->
  spread (<[Z.to_nat (hash x) := l']> bs) (<[x := v]> M).
Proof.
  intros HM E Hx Hp. pose proof HM as (Hw & Hm). destruct (proj2 Hw _ _ E) as [Hn Hf].
  assert (Hxl : x ∉ l.*1). { destruct (Hm x) as (l0 & E0 & Hx0). simplify_eq. apply not_elem_of_list_to_map. congruence. }
  assert (Hn' : NoDup l'.*1) by (rewrite Hp; by apply NoDup_cons).
  eapply spread_bucket; [exact HM | exact E | exact Hn' | by rewrite Hp; constructor | |].
  - intros k Hk. destruct (Hm k) as (l0 & E0 & Hk0). rewrite Hk, E in E0. injection E0 as <-.
    rewrite (list_to_map_proper l' ((x, v) :: l)) by done. cbn.
    destruct (decide (k = x)) as [->|Hne]; [by rewrite !lookup_insert_eq | by rewrite !lookup_insert_ne].
  - intros k Hk. apply lookup_insert_ne. congruence.
Qed.

(** An entry less. *)
Lemma spread_remove bs M x l l' : spread bs M -> get bs (hash x) = Some l -> l' `sublist_of` l -> as_map l' = delete x (as_map l) ->
  spread (<[Z.to_nat (hash x) := l']> bs) (delete x M).
Proof.
  intros HM E Hs Hd. pose proof HM as (Hw & Hm). destruct (proj2 Hw _ _ E) as [Hn Hf].
  eapply spread_bucket; [exact HM | exact E | | | |].
  - eapply sublist_NoDup; [exact Hn |]. by apply fmap_sublist.
  - rewrite Forall_forall in *. intros e He. apply Hf. eapply elem_of_submseteq; [exact He | by apply sublist_submseteq].
  - intros k Hk. destruct (Hm k) as (l0 & E0 & Hk0). rewrite Hk, E in E0. injection E0 as <-. rewrite Hd.
    destruct (decide (k = x)) as [->|Hne]; [by rewrite !lookup_delete_eq | by rewrite !lookup_delete_ne].
  - intros k Hk. apply lookup_delete_ne. congruence.
Qed.

Lemma spread_empty n : numBuckets = Z.of_nat n -> spread (replicate n []) ∅.
Proof.
  intros Hb. assert (Hg : forall i l, get (replicate n []) i = Some l -> l = ([] : list (K * V)))
    by (intros i l [_ E]%get_Some; by apply lookup_replicate in E as [? _]).
  split; [split |].
  - by rewrite length_replicate.
  - intros i l E. apply Hg in E as ->. by split; constructor.
  - intros x. destruct (get_is_Some (replicate n ([] : list (K * V))) (hash x)) as [l E].
    { rewrite length_replicate, <- Hb. apply hash_range. }
    exists l. split; [done |]. apply Hg in E as ->. by rewrite !lookup_empty.
Qed.

(** The buckets hold every entry of the map once. *)
Lemma NoDup_buckets (bs : list (list (K * V))) : forall off,
  (forall i l, bs !! i = Some l -> NoDup l.*1 /\ Forall (fun e => hash (fst e) = off + Z.of_nat i) l) -> NoDup (concat bs).
Proof.
  induction bs as [|l bs IH]; intros off Hb; cbn; [constructor |]. destruct (Hb O l eq_refl) as [Hn Hf].
  apply NoDup_app. split; [by eapply NoDup_fmap_1 |]. split.
  - intros e He (l' & Hl' & He')%list_elem_of_In%in_concat. apply list_elem_of_In, list_elem_of_lookup_1 in Hl' as (i & Hi).
    destruct (Hb (S i) l' Hi) as [_ Hf']. rewrite Forall_forall in Hf, Hf'. apply list_elem_of_In in He'.
    specialize (Hf e He). specialize (Hf' e He'). cbn beta in *. lia.
  - apply (IH (off + 1)). intros i l' Hi. destruct (Hb (S i) l' Hi) as [Hn' Hf']. split; [done |].
    eapply Forall_impl; [exact Hf' |]. intros e He. cbn beta in *. lia.
Qed.

Lemma spread_perm bs M : spread bs M -> concat bs ≡ₚ map_to_list M.
Proof.
  intros ((Hlen & Hw) & Hm). apply list.NoDup_Permutation.
  - apply (NoDup_buckets bs 0). intros i l Hi. apply (Hw (0 + Z.of_nat i)). apply get_Some. split; [lia |]. by rewrite Z.add_0_l, Nat2Z.id.
  - apply NoDup_map_to_list.
  - intros [x v]. rewrite elem_of_map_to_list. destruct (Hm x) as (l & E & ->). destruct (Hw _ _ E) as [Hn _].
    rewrite <- elem_of_list_to_map by done. apply get_Some in E as [H0 E]. split.
    + intros (l' & Hl' & He)%list_elem_of_In%in_concat. apply list_elem_of_In, list_elem_of_lookup_1 in Hl' as (i & Hi).
      apply list_elem_of_In in He. destruct (Hw (Z.of_nat i) l') as [_ Hf]; [apply get_Some; split; [lia |]; by rewrite Nat2Z.id |].
      rewrite Forall_forall in Hf. specialize (Hf _ He). cbn in Hf. assert (Hi' : i = Z.to_nat (hash x)) by lia. congruence.
    + intros He. apply list_elem_of_In, in_concat. exists l. split; apply list_elem_of_In; [by eapply list_elem_of_lookup_2 | done].
Qed.

Lemma size_delete M x v : M !! x = Some v -> Z.of_nat (size (delete x M)) = Z.of_nat (size M) - 1.
Proof.
  intros Hv. rewrite map_size_delete_Some by eauto. assert (0 < size M)%nat; [| lia].
  apply Nat.neq_0_lt_0. intros H0%map_size_empty_iff. subst M. by rewrite lookup_empty in Hv.
Qed.

Lemma u32_step a d : u32 (u32 a + d) = u32 (a + d).
Proof. unfold u32. by rewrite Zplus_mod_idemp_l. Qed.

Lemma map_find q M x : implements q M -> find mComp x q = Some (M !! x).
Proof.
  intros ((_ & Hm) & _). destruct (Hm x) as (l & E & Hx). unfold find, findElement. rewrite E. cbn [mbind option_bind fst snd].
  by rewrite find_pos_lookup, Hx.
Qed.

Lemma map_insert q M x v : implements q M -> exists q', insert mComp (x, v) q = Some q' /\
  implements q' (match M !! x with Some _ => M | None => <[x := v]> M end).
Proof.
  intros (HM & Hsize). pose proof HM as (_ & Hm). destruct (Hm x) as (l & E & Hx).
  unfold insert, findElement. cbn [fst]. rewrite E. cbn [mbind option_bind]. case_bool_decide as Hit; rewrite find_pos_end in Hit.
  - exists q. split; [done |]. apply dec_stable in Hit. destruct (M !! x) eqn:Ex; [done |].
    symmetry in Hx. by apply not_elem_of_list_to_map in Hx.
  - rewrite not_elem_of_list_to_map in Hit. rewrite Hit in Hx. rewrite Hx, set_in by (by eapply get_range).
    cbn [mbind option_bind]. eexists. split; [done |]. split.
    + eapply spread_add; [done | exact E | done |]. by rewrite Permutation_app_comm.
    + cbn [mSize]. rewrite Hsize, u32_step, map_size_insert_None by done. f_equal. lia.
Qed.

Lemma map_erase q M x : implements q M -> exists q', erase mComp x q = Some q' /\ implements q' (delete x M).
Proof.
  intros (HM & Hsize). pose proof HM as (Hw & Hm). destruct (Hm x) as (l & E & Hx). destruct (proj2 Hw _ _ E) as [Hn _].
  unfold erase, findElement. rewrite E. cbn [mbind option_bind]. case_bool_decide as Hit; rewrite find_pos_end in Hit.
  - apply dec_stable in Hit. destruct (find_pos_erase l x Hn) as [Hd Hs]. cbn in Hd, Hs.
    rewrite set_in by (by eapply get_range). cbn [mbind option_bind]. eexists. split; [done |]. split.
    + by eapply spread_remove.
    + destruct (M !! x) as [v|] eqn:Ex; [| symmetry in Hx; by apply not_elem_of_list_to_map in Hx].
      cbn [mSize]. rewrite Hsize, (size_delete M x v) by done. unfold Z.sub. apply u32_step.
  - rewrite not_elem_of_list_to_map in Hit. rewrite Hit in Hx. exists q. split; [done |]. by rewrite delete_id.
Qed.

Lemma construct_implements : 0 < numBuckets -> exists q, construct (V := V) = Ret q /\ implements q ∅.
Proof.
  intros Hb. unfold construct. rewrite (proj2 (Z.ltb_lt _ _) Hb). cbn. eexists. split; [done |].
  split; [apply spread_empty; lia | done].
Qed.

(** ** Sequences of calls *)

Inductive call : Type := CFind (x : K) | CInsert (x : K) (v : V) | CErase (x : K) | CSize.
Inductive reply : Type := Found (r : option V) | Done | Count (n : Z).

Definition exec (c : call) q : option (reply * QHashMap K V) :=
  match c with
  | CFind x => r ← find mComp x q; Some (Found r, q)
  | CInsert x v => q' ← insert mComp (x, v) q; Some (Done, q')
  | CErase x => q' ← erase mComp x q; Some (Done, q')
  | CSize => Some (Count (mSize q), q)
  end.

Fixpoint exec_calls (cs : list call) q : option (list reply * QHashMap K V) :=
  match cs with
  | [] => Some ([], q)
  | c :: cs => r ← exec c q; s ← exec_calls cs (snd r); Some (fst r :: fst s, snd s)
  end.

(** The same calls on a finite map. *)
Definition spec (c : call) M : reply * gmap K V :=
  match c with
  | CFind x => (Found (M !! x), M)
  | CInsert x v => (Done, match M !! x with Some _ => M | None => <[x := v]> M end)
  | CErase x => (Done, delete x M)
  | CSize => (Count (u32 (Z.of_nat (size M))), M)
  end.

Fixpoint spec_calls (cs : list call) M : list reply * gmap K V :=
  match cs with
  | [] => ([], M)
  | c :: cs => let r := spec c M in let s := spec_calls cs (snd r) in (fst r :: fst s, snd s)
  end.

Lemma exec_implements c q M : implements q M -> exists q', exec c q = Some (fst (spec c M), q') /\ implements q' (snd (spec c M)).
Proof.
  intros HM. destruct c as [x|x v|x|]; cbn [exec spec fst snd].
  - rewrite (map_find q M x HM). by exists q.
  - destruct (map_insert q M x v HM) as (q' & -> & HI). by exists q'.
  - destruct (map_erase q M x HM) as (q' & -> & HI). by exists q'.
  - exists q. split; [| done]. by destruct HM as (_ & ->).
Qed.

Lemma exec_calls_implements cs : forall q M, implements q M ->
  exists q', exec_calls cs q = Some (fst (spec_calls cs M), q') /\ implements q' (snd (spec_calls cs M)).
Proof.
  induction cs as [|c cs IH]; intros q M HM; cbn [exec_calls spec_calls]; [by exists q |].
  destruct (exec_implements c q M HM) as (q1 & -> & H1). cbn [mbind option_bind fst snd].
  destruct (IH q1 _ H1) as (q2 & -> & H2). cbn [mbind option_bind fst snd]. by exists q2.
Qed.

(** C38. A [QHashMap] over any hash function with results in range is a finite
    map: from the constructor, any sequence of find, insert and erase never leaves
    the array and gives the answers of the map, insert keeping the value of a key
    that is there, and size is the number of keys modulo 2^32. *)
Theorem QHashMap_refines cs : 0 < numBuckets ->
  exists q0 q, construct = Ret q0 /\ exec_calls cs q0 = Some (fst (spec_calls cs ∅), q) /\
    implements q (snd (spec_calls cs ∅)).
Proof.
  intros Hb. destruct (construct_implements Hb) as (q0 & E & H0). destruct (exec_calls_implements cs q0 ∅ H0) as (q & Eq & Hq).
  by exists q0, q.
Qed.

(** ** QHashMap2 implements a finite map *)

Implicit Types (p : QHashMap2 K V).

Definition slot_map (s : slot K V) : gmap K V := match s with Entries es => es | _ => ∅ end.

(** Every pointer is null or that of a map; a key is looked up in its bucket. *)
Definition implements2 p M : Prop := exists slots,
  mEntries p = Some slots /\ Z.of_nat (length slots) = numBuckets /\ Forall (fun s => s <> Garbage) slots /\
  mSize2 p = u32 (Z.of_nat (size M)) /\ forall x s, get slots (hash x) = Some s -> M !! x = slot_map s !! x.

Lemma entry_of p M x : implements2 p M -> exists slots es, mEntries p = Some slots /\
  QHashMap2_entry (hash x) p = Some (slots, es) /\ 0 <= hash x < Z.of_nat (length slots) /\ M !! x = es !! x /\
  forall k, hash k = hash x -> M !! k = es !! k.
Proof.
  intros (slots & E & Hl & Hg & _ & Hm). unfold QHashMap2_entry. rewrite E. cbn [mbind option_bind].
  destruct (get_is_Some slots (hash x)) as [s Es]; [rewrite Hl; apply hash_range |]. rewrite Es. cbn [mbind option_bind].
  assert (Hns : s <> Garbage) by (apply get_Some in Es as [_ Es]; exact (Forall_lookup_1 _ _ _ _ Hg Es)).
  exists slots, (slot_map s). split; [done |]. split; [by destruct s |]. split; [by eapply get_range |]. split; [by apply Hm |].
  intros k Hk. apply Hm. by rewrite Hk.
Qed.

(** A new map for the bucket of a key. *)
Lemma implements2_bucket p M M' x slots es n : implements2 p M -> mEntries p = Some slots -> 0 <= hash x < Z.of_nat (length slots) ->
  (forall k, hash k = hash x -> M' !! k = es !! k) -> (forall k, hash k <> hash x -> M' !! k = M !! k) ->
  n = u32 (Z.of_nat (size M')) ->
  exists slots', set slots (hash x) (Entries es) = Some slots' /\ implements2 (mkMap2 (Some slots') n) M'.
Proof.
  intros (slots0 & E0 & Hl & Hg & _ & Hm) E Hr Hin Hout Hn. rewrite E in E0. injection E0 as <-. rewrite set_in by done.
  eexists. split; [done |]. eexists. split; [done |]. split; [by rewrite length_insert |]. split; [by apply Forall_insert |].
  split; [done |]. intros k s. rewrite get_insert by done. destruct (Z.eqb_spec (hash x) (hash k)) as [Heq|Hne].
  - intros [= <-]. by apply Hin.
  - intros Es. rewrite Hout by done. by apply Hm.
Qed.

Lemma put_other M x v (es : gmap K V) : (forall k, hash k = hash x -> M !! k = es !! k) ->
  (forall k, hash k = hash x -> <[x := v]> M !! k = <[x := v]> es !! k) /\
  (forall k, hash k <> hash x -> <[x := v]> M !! k = M !! k).
Proof.
  intros Hin. split; intros k Hk.
  - destruct (decide (k = x)) as [->|Hne]; [by rewrite !lookup_insert_eq | rewrite !lookup_insert_ne by done; by apply Hin].
  - apply lookup_insert_ne. congruence.
Qed.

Lemma map2_find p M x : implements2 p M -> QHashMap2_find x p = Some (M !! x).
Proof.
  intros (slots & E & Hl & Hg & _ & Hm). unfold QHashMap2_find. rewrite E. cbn [mbind option_bind].
  destruct (get_is_Some slots (hash x)) as [s Es]; [rewrite Hl; apply hash_range |]. rewrite Es, (Hm x s Es). cbn [mbind option_bind].
  apply get_Some in Es as [_ Es]. pose proof (Forall_lookup_1 _ _ _ _ Hg Es); destruct s; cbn; by rewrite ?lookup_empty.
Qed.

Lemma size_put M x v : u32 (Z.of_nat (size (<[x := v]> M))) =
  match M !! x with Some _ => u32 (Z.of_nat (size M)) | None => u32 (u32 (Z.of_nat (size M)) + 1) end.
Proof.
  destruct (M !! x) as [w|] eqn:E; [by rewrite map_size_insert_Some by eauto |].
  rewrite map_size_insert_None, u32_step by done. f_equal. lia.
Qed.

Lemma map2_insert p M x v : implements2 p M ->
  exists p', QHashMap2_insert (x, v) p = Some (match M !! x with Some _ => false | None => true end, p') /\
    implements2 p' (match M !! x with Some _ => M | None => <[x := v]> M end).
Proof.
  intros HM. destruct (entry_of p M x HM) as (slots & es & E & He & Hr & Hx & Hin). pose proof HM as (_ & _ & _ & _ & Hsize & _).
  unfold QHashMap2_insert. cbn [fst snd]. rewrite He. cbn [mbind option_bind fst snd]. rewrite <- Hx. destruct (M !! x) as [w|] eqn:Ex.
  - destruct (implements2_bucket p M M x slots es (mSize2 p)) as (slots' & -> & HI); try done. cbn [mbind option_bind]. eauto.
  - destruct (put_other M x v es Hin) as [H1 H2].
    destruct (implements2_bucket p M (<[x := v]> M) x slots (<[x := v]> es) (u32 (mSize2 p + 1))) as (slots' & -> & HI); try done.
    { by rewrite size_put, Ex, Hsize. }
    cbn [mbind option_bind]. eauto.
Qed.

Lemma map2_update p M x v : implements2 p M ->
  exists p', QHashMap2_update (x, v) p = Some p' /\ implements2 p' (<[x := v]> M).
Proof.
  intros HM. destruct (entry_of p M x HM) as (slots & es & E & He & Hr & Hx & Hin). pose proof HM as (_ & _ & _ & _ & Hsize & _).
  unfold QHashMap2_update. cbn [fst snd]. rewrite He. cbn [mbind option_bind fst snd]. rewrite <- Hx.
  destruct (put_other M x v es Hin) as [H1 H2].
  edestruct (implements2_bucket p M (<[x := v]> M) x slots (<[x := v]> es)) as (slots' & -> & HI); try done.
  cbn [mbind option_bind]. eexists. split; [done |]. rewrite size_put, <- Hsize in HI. exact HI.
Qed.

(** After [clear] nothing may be called but [clear]. *)
Lemma map2_clear p M : implements2 p M -> exists p', QHashMap2_clear p = Some p' /\ QHashMap2_clear p' = Some p' /\
  forall x v, QHashMap2_find x p' = None /\ QHashMap2_insert (x, v) p' = None.
Proof.
  intros (slots & E & Hl & Hg & _ & Hm). unfold QHashMap2_clear. rewrite E.
  replace (forallb _ slots) with true; [by eexists |]. symmetry. apply forallb_forall. intros s Hs.
  rewrite Forall_forall in Hg. apply list_elem_of_In in Hs. specialize (Hg s Hs). by destruct s.
Qed.

(** The constructor leaves the pointers as they are: with a null array, an empty map. *)
Lemma map2_construct : 0 < numBuckets ->
  exists p, QHashMap2_construct (V := V) (replicate (Z.to_nat numBuckets) Null) = Ret p /\ implements2 p ∅.
Proof.
  intros Hb. unfold QHashMap2_construct. rewrite (proj2 (Z.ltb_lt _ _) Hb). cbn. eexists. split; [done |]. eexists. split; [done |].
  split; [rewrite length_replicate; lia |]. split; [by apply Forall_replicate |]. split; [done |].
  intros x s [_ [-> _]%lookup_replicate]%get_Some. done.
Qed.

End refinement.

(** ** Concrete maps *)

Definition same (a b : bytes) : bool := bool_decide (a = b).

(** A map of strings with four buckets. *)
Lemma QHashMap_refines_witness :
  let cs := [CInsert (str "a") 1; CInsert (str "b") 2; CInsert (str "a") 3; CFind (str "a"); CErase (str "b"); CFind (str "b"); CSize] in
  fst (spec_calls cs ∅) = [Done; Done; Done; Found (Some 1); Done; Found None; Count 1] /\
  exists q0 q, construct (H := DefaultHash 4) = Ret q0 /\
    exec_calls (HK := DefaultHash 4) same cs q0 = Some (fst (spec_calls cs ∅), q).
Proof.
  cbn zeta. split; [vm_compute; reflexivity |].
  destruct (QHashMap_refines (HK := DefaultHash 4) (laws := DefaultHash_laws 4 eq_refl) same (fun a b => eq_refl)
    [CInsert (str "a") 1; CInsert (str "b") 2; CInsert (str "a") 3; CFind (str "a"); CErase (str "b"); CFind (str "b"); CSize] eq_refl)
    as (q0 & q & E0 & E & _).
  exists q0, q. split; [exact E0 | exact E].
Defined.

(** [QHashMap2] follows whatever pointers the new array holds. *)
Example QHashMap2_find_garbage :
  exists p, QHashMap2_construct (H := DefaultHash 4) (V := Z) [Garbage; Garbage; Garbage; Garbage] = Ret p /\
    forall x, QHashMap2_find (H := DefaultHash 4) x p = None.
Proof.
  eexists. split; [reflexivity |]. intros x. unfold QHashMap2_find. cbn [mEntries mbind option_bind].
  destruct (get _ (hash x)) as [s|] eqn:E; [| done]. apply get_Some in E as [_ E].
  apply list_elem_of_lookup_2 in E. by assert (s = Garbage) as -> by set_solver.
Qed.

End HashMap.
