(* ===== verification/LinearHash.v ===== *)
(** * Chained hash table: src/include/common/qhashmap.h

    [QLinearHash] on an explicit heap of chain nodes: the table of chain heads,
    search, push, pop, the traversal and [clear].  The caller passes the hash
    value with the key.  Following a pointer that is not a node is [None]. *)

From Stdlib Require Import Znumtheory.
From stdpp Require Import gmap.
From S2P Require Import Prelude Arrays HashMap.
Import Arrays.

Module LinearHash.

(** ** The divisor *)

(** [for(int32_t i=2; i*i<=num; ++i)] *)
Fixpoint isPrime_loop (fuel : nat) (i num : Z) : option bool :=
  if i32 (i * i) <=? num then
    match fuel with
    | O => None
    | S fuel => if num mod i =? 0 then Some false else isPrime_loop fuel (i + 1) num
    end
  else Some true.

Definition isPrime (num : Z) : option bool :=
  if num <=? 1 then Some false else isPrime_loop (Z.to_nat num) 2 num.

(** [while(!isPrime(temp)&&temp>2) --temp] *)
Fixpoint divisor_loop (fuel : nat) (temp : Z) : option Z :=
  p ← isPrime temp;
  if negb p && (2 <? temp) then match fuel with O => None | S fuel => divisor_loop fuel (temp - 1) end
  else Some temp.

Definition getDivisor (size : Z) : option Z :=
  temp ← divisor_loop (Z.to_nat size) size;
  Some (if temp =? 2 then size else temp).

(** ** The table *)

Section model.
(** [loc] are the addresses of nodes. *)
Context {K V loc : Type} {E : EqDecision K} {EL : EqDecision loc} {CL : Countable loc}.

Record ChainNode : Type := mkNode { mKey : K; mValue : V; link : option loc }.

#[local] Notation heap := (gmap loc ChainNode).

Record QLinearHash : Type := mkHash {
  nodes : heap;
  mDivisor : Z;
  mBuckets : Z;
  mNowSize : Z;
  pHashTable : list (option loc);
  mTravIndex : Z;
  pTravPos : option loc
}.

(** [None] inside when an assertion fails. *)
Definition construct (size : Z) (h : heap) : option (outcome QLinearHash) :=
  if 0 <? size then
    d ← getDivisor size;
    Some (Ret (mkHash h d size 0 (replicate (Z.to_nat size) None) 0 None))
  else Some Abort.

(** [hashKey%mDivisor]; the divisor is converted to [uint64_t]. *)
Definition hash (hashKey : Z) (q : QLinearHash) : Z := i32 (hashKey mod u64 (mDivisor q)).

(** [while(current&&current->mKey!=key)]: the node before the key and its node. *)
Fixpoint walk (fuel : nat) (h : heap) (prev current : option loc) (key : K) : option (option loc * option loc) :=
  match current with
  | None => Some (prev, None)
  | Some a =>
      match fuel with
      | O => None
      | S fuel =>
          n ← h !! a;
          if bool_decide (mKey n <> key) then walk fuel h current (link n) key else Some (prev, current)
      end
  end.

Definition search (hashKey : Z) (key : K) (q : QLinearHash) : option (option V) :=
  head ← get (pHashTable q) (hash hashKey q);
  r ← walk (size (nodes q)) (nodes q) None head key;
  match snd r with
  | Some a => n ← nodes q !! a; Some (Some (mValue n))
  | None => Some None
  end.

(** [newNode] is what [new] returns. *)
Definition push (hashKey : Z) (key : K) (value : V) (newNode : loc) (q : QLinearHash) : option (bool * QLinearHash) :=
  let hashVal := hash hashKey q in
  head ← get (pHashTable q) hashVal;
  r ← walk (size (nodes q)) (nodes q) None head key;
  match snd r with
  | Some _ => Some (false, q)
  | None =>
      table ← set (pHashTable q) hashVal (Some newNode);
      Some (true, mkHash (<[newNode := mkNode key value head]> (nodes q)) (mDivisor q) (mBuckets q) (i32 (mNowSize q + 1))
                    table (mTravIndex q) (pTravPos q))
  end.

Definition pop (hashKey : Z) (key : K) (q : QLinearHash) : option (bool * QLinearHash) :=
  let hashVal := hash hashKey q in
  head ← get (pHashTable q) hashVal;
  r ← walk (size (nodes q)) (nodes q) None head key;
  match snd r with
  | None => Some (false, q)
  | Some current =>
      n ← nodes q !! current;
      s ← match fst r with
          | None => table ← set (pHashTable q) hashVal (link n); Some (nodes q, table)
          | Some prev => p ← nodes q !! prev; Some (<[prev := mkNode (mKey p) (mValue p) (link n)]> (nodes q), pHashTable q)
          end;
      Some (true, mkHash (delete current (fst s)) (mDivisor q) (mBuckets q) (i32 (mNowSize q - 1)) (snd s) (mTravIndex q) (pTravPos q))
  end.

(** [while(current)] of [clear]. *)
Fixpoint clear_chain (fuel : nat) (h : heap) (current : option loc) (mNowSize : Z) : option (heap * Z) :=
  match current with
  | None => Some (h, mNowSize)
  | Some a =>
      match fuel with
      | O => None
      | S fuel => n ← h !! a; clear_chain fuel (delete a h) (link n) (i32 (mNowSize - 1))
      end
  end.

Fixpoint clear_loop (fuel : nat) (h : heap) (table : list (option loc)) (mNowSize : Z) : option (heap * Z) :=
  match table with
  | [] => Some (h, mNowSize)
  | current :: table => r ← clear_chain fuel h current mNowSize; clear_loop fuel (fst r) table (snd r)
  end.

(** The heads of the chains stay in the table. *)
Definition clear (q : QLinearHash) : option QLinearHash :=
  r ← clear_loop (size (nodes q)) (nodes q) (pHashTable q) (mNowSize q);
  Some (mkHash (fst r) (mDivisor q) (mBuckets q) (snd r) (pHashTable q) (mTravIndex q) (pTravPos q)).

Definition prepareTraversal (q : QLinearHash) : option QLinearHash :=
  p ← get (pHashTable q) 0;
  Some (mkHash (nodes q) (mDivisor q) (mBuckets q) (mNowSize q) (pHashTable q) 0 p).

(** [for(mTravIndex++; mTravIndex<bucket_size(); ++mTravIndex)] *)
Fixpoint trav_loop (fuel : nat) (table : list (option loc)) (mBuckets mTravIndex : Z) : option (Z * option loc) :=
  if mTravIndex <? mBuckets then
    match fuel with
    | O => None
    | S fuel =>
        p ← get table mTravIndex;
        match p with None => trav_loop fuel table mBuckets (mTravIndex + 1) | Some _ => Some (mTravIndex, p) end
    end
  else Some (mTravIndex, None).

(** 0 with a key and a value, or -1. *)
Definition traverse (q : QLinearHash) : option (option (K * V) * QLinearHash) :=
  r ← match pTravPos q with
      | Some _ => Some (mTravIndex q, pTravPos q)
      | None => trav_loop (length (pHashTable q)) (pHashTable q) (mBuckets q) (i32 (mTravIndex q + 1))
      end;
  let moved p := mkHash (nodes q) (mDivisor q) (mBuckets q) (mNowSize q) (pHashTable q) (fst r) p in
  if bool_decide (pTravPos q = None) && (fst r =? mBuckets q) then Some (None, moved (snd r))
  else
    a ← snd r;
    n ← nodes q !! a;
    Some (Some (mKey n, mValue n), moved (link n)).

End model.

Arguments ChainNode : clear implicits.
Arguments QLinearHash K V loc {_ _}.

(** ** The divisor is the greatest prime *)

(** The square of the loop fits an [int32_t]. *)
Definition MAX_NUM : Z := 46340 * 46340.

Lemma no_small_divisor i num : 2 <= i -> 1 < num -> num < i * i -> (forall d, 2 <= d < i -> ~ (d | num)) -> prime num.
Proof.
  intros Hi Hn Hsq Hd. apply prime_alt. split; [lia |]. intros n Hn2 [c Hc].
  destruct (Z_lt_ge_dec n i) as [Hlt|Hge]; [apply (Hd n); [lia | by exists c] |].
  apply (Hd c); [nia | exists n; lia].
Qed.

Lemma isPrime_loop_spec fuel : forall i num, 2 <= i -> 1 < num <= MAX_NUM -> num - i <= Z.of_nat fuel -> i <= 46340 ->
  (forall d, 2 <= d < i -> ~ (d | num)) -> exists b, isPrime_loop fuel i num = Some b /\ (b = true <-> prime num).
Proof.
  induction fuel as [|fuel IH]; intros i num Hi Hn Hf Hmax Hd; cbn [isPrime_loop]; unfold MAX_NUM in *;
    rewrite i32_small by (unfold is_i32, INT32_MAX, INT32_MIN; nia); destruct (Z.leb_spec (i * i) num) as [Hle|Hgt].
  2, 4: exists true; split; [done |]; split; [intros _; apply (no_small_divisor i); [lia | lia | lia | done] | done].
  - nia.
  - destruct (Z.eqb_spec (num mod i) 0) as [Hm|Hm].
    + exists false. split; [done |]. split; [done |]. intros [_ Hp]%prime_alt. exfalso. apply (Hp i); [nia |]. apply Z.mod_divide; lia.
    + assert (i <> 46340) by (intros ->; apply Hm; replace num with (46340 * 46340) by nia; reflexivity).
      apply IH; [lia | lia | lia | lia |]. intros d Hd2. destruct (Z.eq_dec d i) as [->|Hne]; [| apply Hd; lia].
      rewrite <- Z.mod_divide by lia. done.
Qed.

Lemma isPrime_spec num : num <= MAX_NUM -> exists b, isPrime num = Some b /\ (b = true <-> prime num).
Proof.
  intros Hn. unfold isPrime. destruct (Z.leb_spec num 1) as [H1|H1].
  - exists false. split; [done |]. split; [done |]. intros [H _]%prime_alt. lia.
  - apply isPrime_loop_spec; [lia | lia | lia | lia |]. intros d Hd. lia.
Qed.

Lemma divisor_loop_spec fuel : forall temp, 2 <= temp <= MAX_NUM -> temp - 2 <= Z.of_nat fuel ->
  exists p, divisor_loop fuel temp = Some p /\ prime p /\ p <= temp /\ forall r, prime r -> r <= temp -> r <= p.
Proof.
  induction fuel as [|fuel IH]; intros temp Ht Hf; cbn [divisor_loop];
    destruct (isPrime_spec temp (proj2 Ht)) as (b & -> & Hb); cbn [mbind option_bind]; destruct b; cbn [negb andb].
  1, 3: exists temp; split; [done |]; split; [by apply Hb | split; [lia | auto]].
  - assert (temp = 2) as -> by lia. exfalso. destruct Hb as [_ Hb]. discriminate (Hb prime_2).
  - destruct (Z.ltb_spec 2 temp) as [H2|H2].
    + destruct (IH (temp - 1)) as (p & -> & Hp & Hle & Hmax); [lia | lia |]. exists p. split; [done |]. split; [done |]. split; [lia |].
      intros r Hr Hrt. destruct (Z.eq_dec r temp) as [->|Hne]; [| apply Hmax; [done | lia]]. destruct Hb as [_ Hb]. discriminate (Hb Hr).
    + assert (temp = 2) as -> by lia. destruct Hb as [_ Hb]. discriminate (Hb prime_2).
Qed.

(** For two buckets or more the divisor is the greatest prime that is at most
    their number. *)
Lemma getDivisor_spec size : 2 <= size <= MAX_NUM ->
  exists p, getDivisor size = Some p /\ prime p /\ p <= size /\ forall r, prime r -> r <= size -> r <= p.
Proof.
  intros Hs. unfold getDivisor. destruct (divisor_loop_spec (Z.to_nat size) size Hs) as (p & -> & Hp & Hle & Hmax); [lia |].
  cbn [mbind option_bind]. destruct (Z.eqb_spec p 2) as [->|Hne]; [| by exists p].
  assert (size = 2) as ->; [| by exists 2]. destruct (Z.le_gt_cases 3 size) as [H3|]; [| lia].
  pose proof (Hmax 3 prime_3 H3). lia.
Qed.

Lemma getDivisor_range size : 0 < size <= MAX_NUM -> exists d, getDivisor size = Some d /\ 0 < d <= size.
Proof.
  intros Hs. destruct (Z.eq_dec size 1) as [->|Hne]; [exists 1; split; [reflexivity | lia] |].
  destruct (getDivisor_spec size) as (p & -> & Hp & Hle & _); [lia |]. exists p. split; [done |]. destruct Hp. lia.
Qed.

(** ** Chains *)

Section chains.
Context {K V loc : Type} {EK : EqDecision K} {CK : Countable K} {EL : EqDecision loc} {CL : Countable loc}.
#[local] Notation heap := (gmap loc (ChainNode K V loc)).
#[local] Notation entry := (loc * (K * V))%type.
Implicit Types (h : heap) (l : list entry) (p : option loc) (ls : list (list entry)).

Fixpoint chain h p l : Prop :=
  match l with
  | [] => p = None
  | (a, (k, v)) :: l => p = Some a /\ exists next, h !! a = Some (mkNode k v next) /\ chain h next l
  end.

Lemma chain_frame h h' : forall l p, (forall a, a ∈ l.*1 -> h' !! a = h !! a) -> chain h p l -> chain h' p l.
Proof.
  induction l as [|[a [k v]] l IH]; intros p Hf; cbn; [done |]. intros (-> & next & E & Hc). split; [done |].
  exists next. cbn in Hf. split; [rewrite Hf by (by left); done |]. apply IH; [| done]. intros b Hb. apply Hf. by right.
Qed.

Lemma chain_in_dom h : forall l p a, chain h p l -> a ∈ l.*1 -> a ∈ dom h.
Proof.
  induction l as [|[b [k v]] l IH]; intros p a; cbn; [set_solver |]. intros (-> & next & E & Hc) [->|Ha]%elem_of_cons.
  - by eapply elem_of_dom_2.
  - by eapply IH.
Qed.

Lemma chain_size h l p : chain h p l -> NoDup l.*1 -> (length l <= size h)%nat.
Proof.
  intros Hc Hn. rewrite <- (length_fmap fst), <- size_dom, <- (size_list_to_set (C := gset loc)) by done.
  apply subseteq_size. intros a Ha%elem_of_list_to_set. by eapply chain_in_dom.
Qed.

(** The keys of a chain. *)
Definition keys l : list K := l.*2.*1.

(** The node before a position, [prev] when the position is the first. *)
Definition before (prev : option loc) l : option loc := match last l with Some e => Some (fst e) | None => prev end.

Lemma before_cons prev a e l : before (Some a) l = before prev ((a, e) :: l).
Proof. unfold before. rewrite last_cons. by destruct (last l). Qed.

Lemma walk_absent h x : forall l fuel prev p, chain h p l -> (length l <= fuel)%nat -> x ∉ keys l ->
  walk fuel h prev p x = Some (before prev l, None).
Proof.
  induction l as [|[a [k v]] l IH]; intros fuel prev p Hc Hf Hx; cbn [chain length] in *.
  - subst p. by destruct fuel.
  - destruct fuel as [|fuel]; [lia |]. destruct Hc as (-> & next & E & Hc). cbn [walk]. rewrite E. cbn [mbind option_bind mKey link].
    unfold keys in *. cbn in Hx. apply not_elem_of_cons in Hx as [Hxk Hx]. rewrite bool_decide_eq_true_2 by congruence.
    rewrite (IH fuel (Some a) next Hc) by (done || lia). by rewrite (before_cons prev a (k, v)).
Qed.

Lemma walk_present h x v a : forall l1 l2 fuel prev p, chain h p (l1 ++ (a, (x, v)) :: l2) -> (length l1 < fuel)%nat ->
  x ∉ keys l1 -> walk fuel h prev p x = Some (before prev l1, Some a).
Proof.
  induction l1 as [|[b [k w]] l1 IH]; intros l2 fuel prev p Hc Hf Hx; cbn [chain app length] in *; (destruct fuel as [|fuel]; [lia |]);
    destruct Hc as (-> & next & E & Hc); cbn [walk]; rewrite E; cbn [mbind option_bind mKey link].
  - by rewrite bool_decide_eq_false_2 by (intros Hne; by apply Hne).
  - unfold keys in *. cbn in Hx. apply not_elem_of_cons in Hx as [Hxk Hx]. rewrite bool_decide_eq_true_2 by congruence.
    rewrite (IH l2 fuel (Some b) next Hc) by (done || lia). by rewrite (before_cons prev b (k, w)).
Qed.

(** A chain with a key in it, split at the first node of the key. *)
Lemma chain_split l x : x ∈ keys l -> exists l1 a v l2, l = l1 ++ (a, (x, v)) :: l2 /\ x ∉ keys l1.
Proof.
  unfold keys. induction l as [|[a [k v]] l IH]; cbn; [set_solver |]. intros Hx. destruct (decide (x = k)) as [->|Hne].
  - exists [], a, v, l. split; [done | set_solver].
  - apply elem_of_cons in Hx as [Hx|Hx]; [done |]. destruct (IH Hx) as (l1 & b & w & l2 & -> & Hn).
    exists ((a, (k, v)) :: l1), b, w, l2. split; [done |]. cbn. set_solver.
Qed.

Lemma chain_at h a e : forall l1 l2 p, chain h p (l1 ++ (a, e) :: l2) ->
  exists next, h !! a = Some (mkNode (fst e) (snd e) next) /\ chain h next l2.
Proof.
  induction l1 as [|[b [k v]] l1 IH]; intros l2 p; cbn; [destruct e as [k v]; intros (_ & Hc) |];
    [exact Hc | intros (_ & next & _ & Hc); by eapply IH].
Qed.

(** Taking the node after [b] out of a chain. *)
Lemma chain_unlink h a ea b kb vb next : forall l1 l2 p,
  chain h p (l1 ++ (b, (kb, vb)) :: (a, ea) :: l2) -> NoDup (l1 ++ (b, (kb, vb)) :: (a, ea) :: l2).*1 ->
  h !! a = Some (mkNode (fst ea) (snd ea) next) ->
  chain (delete a (<[b := mkNode kb vb next]> h)) p (l1 ++ (b, (kb, vb)) :: l2).
Proof.
  induction l1 as [|[c [k v]] l1 IH]; intros l2 p Hc Hn Ha; cbn [app chain fmap list_fmap fst] in *.
  - destruct ea as [k v]. destruct Hc as (-> & nb & Eb & Hb & na & Ea & Hc). subst nb. rewrite Ha in Ea. injection Ea as <-.
    apply NoDup_cons in Hn as [Hbn Hn]. apply NoDup_cons in Hn as [Han Hn]. split; [done |]. exists next.
    rewrite lookup_delete_ne, lookup_insert_eq by set_solver. split; [done |]. eapply chain_frame; [| exact Hc].
    intros d Hd. rewrite lookup_delete_ne, lookup_insert_ne by set_solver. done.
  - destruct Hc as (-> & nc & Ec & Hc). apply NoDup_cons in Hn as [Hcn Hn]. split; [done |]. exists nc.
    rewrite fmap_app in Hcn. cbn in Hcn. rewrite lookup_delete_ne, lookup_insert_ne by set_solver. split; [done |]. by apply IH.
Qed.

(** One chain of the table, and the others. *)
Lemma concat_at ls i l : ls !! i = Some l -> exists R, concat ls ≡ₚ l ++ R /\
  (forall l', concat (<[i := l']> ls) ≡ₚ l' ++ R) /\ (forall j l', j <> i -> ls !! j = Some l' -> l' ⊆ R).
Proof.
  revert i. induction ls as [|l0 ls IH]; intros [|i] E; cbn in E; try done.
  - injection E as ->. exists (concat ls). split; [done |]. split; [done |]. intros [|j] l' Hj E; cbn in E; [done |].
    intros e He. apply list_elem_of_In, in_concat. exists l'. split; apply list_elem_of_In; [by eapply list_elem_of_lookup_2 | done].
  - destruct (IH i E) as (R & H1 & H2 & H3). exists (l0 ++ R). split; [cbn; rewrite H1; solve_Permutation |].
    split; [intros l'; cbn; rewrite H2; solve_Permutation |]. intros [|j] l' Hj E'; cbn in E'; [injection E' as ->; set_solver |].
    assert (j <> i) by congruence. specialize (H3 j l'). set_solver.
Qed.

Lemma table_frame h h' table ls : Forall2 (chain h) table ls -> (forall a, a ∈ (concat ls).*1 -> h' !! a = h !! a) ->
  Forall2 (chain h') table ls.
Proof.
  induction 1 as [|p l table ls Hc _ IH]; intros Hf; [done |]. cbn [concat] in Hf. rewrite fmap_app in Hf.
  constructor; [eapply chain_frame; [| exact Hc] | apply IH]; intros a Ha; apply Hf; set_solver.
Qed.

(** A change of one chain that leaves the nodes of the others. *)
Lemma table_update h h' table ls i p' l l' : Forall2 (chain h) table ls -> NoDup (concat ls).*1 -> ls !! i = Some l ->
  (forall a, a ∈ (concat ls).*1 -> a ∉ l.*1 -> h' !! a = h !! a) -> chain h' p' l' ->
  Forall2 (chain h') (<[i := p']> table) (<[i := l']> ls).
Proof.
  intros HF Hnd El Hf Hc. destruct (concat_at ls i l El) as (R & HR & _ & Hsub).
  assert (Hlt : (i < length ls)%nat) by (by eapply lookup_lt_Some). pose proof (Forall2_length _ _ _ HF) as Hlen.
  apply Forall2_same_length_lookup_2; [by rewrite !length_insert |]. intros j p0 l0. destruct (decide (j = i)) as [->|Hne].
  - rewrite !list_lookup_insert_eq by lia. congruence.
  - rewrite !list_lookup_insert_ne by done. intros Ep El0. pose proof (Forall2_lookup_lr _ _ _ _ _ _ HF Ep El0) as Hc0.
    eapply chain_frame; [| exact Hc0]. intros a Ha. pose proof (Hsub j l0 Hne El0) as Hs.
    assert (HaR : a ∈ R.*1). { apply list_elem_of_fmap in Ha as (e & -> & He). apply list_elem_of_fmap. eauto. }
    rewrite HR, fmap_app in Hnd. apply NoDup_app in Hnd as (_ & Hdis & _).
    apply Hf; [rewrite HR, fmap_app; set_solver | intros Hal; by apply (Hdis a)].
Qed.

End chains.

(** ** The table implements a finite map *)

Section refinement.
Context {K V loc : Type} {EK : EqDecision K} {CK : Countable K} {EL : EqDecision loc} {CL : Countable loc}.
(** The number of buckets, the divisor, and the hash value callers pass with a key. *)
Variables (n d : Z) (g : K -> Z).
Hypothesis Hd : 0 < d <= n.
Hypothesis Hn : n <= INT32_MAX.
#[local] Notation entry := (loc * (K * V))%type.
#[local] Notation as_map := (list_to_map (M := gmap K V)).
Implicit Types (q : QLinearHash K V loc) (M : gmap K V) (ls : list (list entry)) (l : list entry).

#[local] Instance slots : HashMap.Hash K := {| HashMap.numBuckets := n; HashMap.hash k := i32 (g k mod u64 d) |}.

#[local] Instance slots_laws : HashMap.HashLaws K.
Proof.
  constructor. intros k. cbn. rewrite u64_small by (unfold is_u64, INT32_MAX in *; lia).
  pose proof (Z.mod_pos_bound (g k) d ltac:(lia)). rewrite i32_small; [lia |]. unfold is_i32, INT32_MIN, INT32_MAX in *. lia.
Qed.

Definition contents ls : list (list (K * V)) := (fun l => l.*2) <$> ls.

Definition holds_in q M ls : Prop :=
  mDivisor q = d /\ mBuckets q = n /\ Forall2 (chain (nodes q)) (pHashTable q) ls /\ NoDup (concat ls).*1 /\
  HashMap.spread (contents ls) M /\ mNowSize q = i32 (Z.of_nat (size M)).

Lemma contents_get ls i bs : get (contents ls) i = Some bs <-> exists l, get ls i = Some l /\ bs = l.*2.
Proof.
  unfold get, contents. destruct (0 <=? i); [| naive_solver]. rewrite list_lookup_fmap.
  destruct (ls !! Z.to_nat i); cbn; naive_solver.
Qed.

Lemma contents_insert ls i l : contents (<[i := l]> ls) = <[i := l.*2]> (contents ls).
Proof. unfold contents. by rewrite list_fmap_insert. Qed.

(** The chain of a key. *)
Lemma locate q M ls x : holds_in q M ls -> exists l p,
  0 <= hash (g x) q /\ hash (g x) q = HashMap.hash x /\ get (pHashTable q) (hash (g x) q) = Some p /\ ls !! Z.to_nat (hash (g x) q) = Some l /\
  get (contents ls) (HashMap.hash x) = Some l.*2 /\ chain (nodes q) p l /\ (length l <= size (nodes q))%nat /\ NoDup l.*1 /\
  NoDup (keys l) /\ M !! x = as_map l.*2 !! x.
Proof.
  intros (Ed & _ & HF & Hnd & (Hw & Hm) & _). assert (Eh : hash (g x) q = HashMap.hash x) by (unfold hash; by rewrite Ed).
  destruct (Hm x) as (bs & E & Hx). pose proof E as (l & El & ->)%contents_get. pose proof (proj2 Hw _ _ E) as [Hk _].
  pose proof El as [H0 El0]%get_Some. destruct (Forall2_lookup_r _ _ _ _ _ HF El0) as (p & Ep & Hc).
  destruct (concat_at ls _ l El0) as (R & HR & _). assert (Hl : NoDup l.*1).
  { rewrite HR, fmap_app in Hnd. by apply NoDup_app in Hnd as [? _]. }
  exists l, p. rewrite Eh. repeat (split; [done || (apply get_Some; done) || (by eapply chain_size) |]). done.
Qed.

Lemma present_or_absent l x : NoDup (keys l) ->
  (exists l1 a v l2, l = l1 ++ (a, (x, v)) :: l2 /\ x ∉ keys l1 /\ as_map l.*2 !! x = Some v) \/ (x ∉ keys l /\ as_map l.*2 !! x = None).
Proof.
  intros Hk. destruct (decide (x ∈ keys l)) as [Hx|Hx].
  - left. destruct (chain_split l x Hx) as (l1 & a & v & l2 & -> & Hx1). exists l1, a, v, l2. split; [done |]. split; [done |].
    apply elem_of_list_to_map_1; [done |]. apply list_elem_of_fmap. exists (a, (x, v)). split; [done |]. set_solver.
  - right. split; [done |]. by apply not_elem_of_list_to_map_1.
Qed.

Lemma hash_search q M ls x : holds_in q M ls -> search (g x) x q = Some (M !! x).
Proof.
  intros HM. destruct (locate q M ls x HM) as (l & p & _ & _ & Ep & El & _ & Hc & Hs & Hl & Hk & ->). unfold search. rewrite Ep.
  cbn [mbind option_bind]. destruct (present_or_absent l x Hk) as [(l1 & a & v & l2 & -> & Hx & ->)|[Hx ->]].
  - rewrite length_app in Hs. cbn in Hs. rewrite (walk_present (nodes q) x v a l1 l2) by (done || lia). cbn [mbind option_bind snd].
    destruct (chain_at _ _ _ _ _ _ Hc) as (next & -> & _). done.
  - by rewrite (walk_absent (nodes q) x l) by done.
Qed.

Lemma i32_step a b : i32 (i32 a + b) = i32 (a + b).
Proof. rewrite <- (i32_u32 (i32 a + b)), <- (i32_u32 (a + b)). f_equal. unfold u32. rewrite <- Zplus_mod_idemp_l. fold (u32 (i32 a)). rewrite u32_i32. unfold u32. by rewrite Zplus_mod_idemp_l. Qed.

(** The node of a key taken out of its chain, through the table or through the
    node before it. *)
Lemma unlinked q ls x l1 a w l2 p next : let i := hash (g x) q in
  Forall2 (chain (nodes q)) (pHashTable q) ls -> NoDup (concat ls).*1 -> 0 <= i -> get (pHashTable q) i = Some p ->
  ls !! Z.to_nat i = Some (l1 ++ (a, (x, w)) :: l2) -> chain (nodes q) p (l1 ++ (a, (x, w)) :: l2) -> NoDup (l1 ++ (a, (x, w)) :: l2).*1 ->
  nodes q !! a = Some (mkNode x w next) -> chain (nodes q) next l2 ->
  exists s, match before None l1 with
            | None => table ← set (pHashTable q) i next; Some (nodes q, table)
            | Some prev => r ← nodes q !! prev; Some (<[prev := mkNode (mKey r) (mValue r) next]> (nodes q), pHashTable q)
            end = Some s /\ Forall2 (chain (delete a (fst s))) (snd s) (<[Z.to_nat i := l1 ++ l2]> ls).
Proof.
  intros i HF Hnd Hi Ep El Hc Hl Ea Hc2. unfold before. destruct l1 as [|[b [kb vb]] l1 _] using rev_ind; cbn [last].
  - rewrite set_in by (by eapply get_range). cbn [mbind option_bind]. eexists. split; [done |]. cbn [fst snd app] in *.
    apply NoDup_cons in Hl as [Han Hl]. eapply table_update; [exact HF | done | exact El | |].
    + intros c _ Hcl. apply lookup_delete_ne. set_solver.
    + eapply chain_frame; [| exact Hc2]. intros c Hcl. apply lookup_delete_ne. cbn in Han. set_solver.
  - rewrite last_snoc. rewrite <- app_assoc in *. cbn [app fst] in *.
    destruct (chain_at _ _ _ _ _ _ Hc) as (nb & Eb & _). rewrite Eb. cbn [mbind option_bind mKey mValue fst snd]. eexists. split; [done |].
    cbn [fst snd].
    assert (Hp : <[Z.to_nat i := p]> (pHashTable q) = pHashTable q) by (apply list_insert_id; by apply get_Some in Ep as [_ ?]).
    rewrite <- Hp. eapply table_update; [exact HF | done | exact El | |].
    + intros c _ Hcl. rewrite fmap_app in Hcl. cbn in Hcl. rewrite lookup_delete_ne, lookup_insert_ne by set_solver. done.
    + by eapply chain_unlink.
Qed.

Lemma hash_push q M ls x v a : holds_in q M ls -> a ∉ (concat ls).*1 -> exists q' ls',
  push (g x) x v a q = Some (match M !! x with Some _ => false | None => true end, q') /\
  holds_in q' (match M !! x with Some _ => M | None => <[x := v]> M end) ls' /\
  (concat ls').*1 ≡ₚ match M !! x with Some _ => (concat ls).*1 | None => a :: (concat ls).*1 end.
Proof.
  intros HM Ha. pose proof HM as (Ed & En & HF & Hnd & HS & Hsize).
  destruct (locate q M ls x HM) as (l & p & H0 & Eh & Ep & El & Eb & Hc & Hs & Hl & Hk & Hx). unfold push. rewrite Ep. cbn [mbind option_bind].
  destruct (present_or_absent l x Hk) as [(l1 & b & w & l2 & -> & Hx1 & E)|[Hx1 E]]; rewrite E in Hx; rewrite Hx.
  - rewrite length_app in Hs. cbn in Hs. rewrite (walk_present (nodes q) x w b l1 l2) by (done || lia). cbn [mbind option_bind snd].
    by exists q, ls.
  - rewrite (walk_absent (nodes q) x l) by done. cbn [mbind option_bind snd]. rewrite set_in by (by eapply get_range).
    cbn [mbind option_bind]. eexists _, (<[Z.to_nat (hash (g x) q) := (a, (x, v)) :: l]> ls). split; [done |].
    destruct (concat_at ls _ l El) as (R & HR & HI & _). split; [| by rewrite HI, HR, !fmap_app].
    split; [done |]. split; [done |]. cbn [nodes pHashTable mNowSize]. split; [| split; [| split]].
    + eapply table_update; [exact HF | done | exact El | |].
      * intros b Hb _. apply lookup_insert_ne. set_solver.
      * split; [done |]. exists p. rewrite lookup_insert_eq. split; [done |]. eapply chain_frame; [| exact Hc].
        intros b Hb. apply lookup_insert_ne. rewrite HR, fmap_app in Ha. set_solver.
    + rewrite HI, fmap_app. cbn [fmap list_fmap fst app]. rewrite HR, fmap_app in Ha, Hnd. by apply NoDup_cons.
    + rewrite contents_insert, Eh. by eapply HashMap.spread_add.
    + rewrite Hsize, map_size_insert_None by done. rewrite i32_step. f_equal. lia.
Qed.

Lemma as_map_remove l1 a x w l2 : NoDup (keys (l1 ++ (a, (x, w)) :: l2)) ->
  as_map (l1 ++ l2).*2 = delete x (as_map (l1 ++ (a, (x, w)) :: l2).*2).
Proof.
  intros Hk. assert (Hp : (l1 ++ (a, (x, w)) :: l2).*2 ≡ₚ (x, w) :: (l1 ++ l2).*2) by (rewrite <- Permutation_middle; done).
  rewrite (list_to_map_proper _ _ Hk Hp). cbn. rewrite delete_insert_id; [done |].
  apply not_elem_of_list_to_map_1. unfold keys in Hk. rewrite Hp in Hk. by apply NoDup_cons in Hk as [? _].
Qed.

Lemma hash_pop q M ls x : holds_in q M ls -> exists q' ls',
  pop (g x) x q = Some (match M !! x with Some _ => true | None => false end, q') /\
  holds_in q' (delete x M) ls' /\ (concat ls').*1 ⊆ (concat ls).*1 /\
  match M !! x with
  | Some _ => exists head prev a, get (pHashTable q) (hash (g x) q) = Some head /\
      walk (size (nodes q)) (nodes q) None head x = Some (prev, Some a) /\ (concat ls).*1 ≡ₚ a :: (concat ls').*1
  | None => True
  end.
Proof.
  intros HM. pose proof HM as (Ed & En & HF & Hnd & HS & Hsize).
  destruct (locate q M ls x HM) as (l & p & H0 & Eh & Ep & El & Eb & Hc & Hs & Hl & Hk & Hx). unfold pop. rewrite Ep. cbn [mbind option_bind].
  destruct (present_or_absent l x Hk) as [(l1 & a & w & l2 & -> & Hx1 & E)|[Hx1 E]]; rewrite E in Hx; rewrite Hx.
  2: { rewrite (walk_absent (nodes q) x l) by done. cbn [mbind option_bind snd]. exists q, ls. by rewrite delete_id. }
  rewrite length_app in Hs. cbn in Hs. rewrite (walk_present (nodes q) x w a l1 l2) by (done || lia). cbn [mbind option_bind fst snd].
  destruct (chain_at _ _ _ _ _ _ Hc) as (next & Ea & Hc2). rewrite Ea. cbn [mbind option_bind link fst snd] in *.
  destruct (concat_at ls _ _ El) as (R & HR & HI & _).
  destruct (unlinked q ls x l1 a w l2 p next) as (s & -> & HT); try done. cbn [mbind option_bind].
  eexists _, (<[Z.to_nat (hash (g x) q) := l1 ++ l2]> ls). split; [done |]. split; [| split].
  - split; [done |]. split; [done |]. cbn [nodes pHashTable mNowSize]. split; [exact HT |]. split; [| split].
    + rewrite HI, fmap_app. rewrite HR, fmap_app in Hnd. eapply sublist_NoDup; [exact Hnd |].
      apply sublist_app; [| done]. apply fmap_sublist, sublist_app; [done |]. by apply sublist_cons.
    + rewrite contents_insert, Eh. eapply HashMap.spread_remove; [done | exact Eb | |].
      * apply fmap_sublist, sublist_app; [done |]. by apply sublist_cons.
      * by eapply as_map_remove.
    + rewrite Hsize, (HashMap.size_delete M x w) by done. unfold Z.sub. apply i32_step.
  - rewrite HI, HR, !fmap_app. set_solver.
  - exists p, (before None l1), a. split; [done |]. split; [by apply (walk_present (nodes q) x w a l1 l2); (done || lia) |].
    rewrite HI, HR, !fmap_app. cbn. by rewrite <- Permutation_middle.
Qed.

(** ** Traversal *)

Lemma concat_drop ls j l : ls !! j = Some l -> concat (drop j ls) = l ++ concat (drop (S j) ls).
Proof. intros E. by rewrite (drop_S _ _ _ E). Qed.

Lemma trav_loop_spec (h : gmap loc (ChainNode K V loc)) table ls : Forall2 (chain h) table ls -> Z.of_nat (length table) = n ->
  forall fuel idx, 0 <= idx <= n -> n - idx <= Z.of_nat fuel ->
  (trav_loop fuel table n idx = Some (n, None) /\ concat (drop (Z.to_nat idx) ls) = []) \/
  (exists j e l, trav_loop fuel table n idx = Some (j, Some (fst e)) /\ idx <= j < n /\ chain h (Some (fst e)) (e :: l) /\
     concat (drop (Z.to_nat idx) ls) = (e :: l) ++ concat (drop (S (Z.to_nat j)) ls)).
Proof.
  intros HF Hlen. pose proof (Forall2_length _ _ _ HF) as Hlen2.
  induction fuel as [|fuel IH]; intros idx Hi Hf; cbn [trav_loop]; destruct (Z.ltb_spec idx n) as [Hlt|Hge]; try lia.
  1, 3: left; replace idx with n by lia; split; [done |]; rewrite drop_ge by lia; done.
  destruct (get_is_Some table idx) as [p Ep]; [lia |]. rewrite Ep. cbn [mbind option_bind]. pose proof Ep as [_ Ep']%get_Some.
  destruct (Forall2_lookup_l _ _ _ _ _ HF Ep') as (l & El & Hc). rewrite (concat_drop ls (Z.to_nat idx) l El).
  destruct l as [|[a [k v]] l].
  - cbn [chain] in Hc. subst p. replace (S (Z.to_nat idx)) with (Z.to_nat (idx + 1)) by lia.
    destruct (IH (idx + 1)) as [[E1 E2]|(j & e & l & E1 & Hj & Hc & E2)]; [lia | lia | by left |].
    right. exists j, e, l. split; [done |]. split; [lia |]. done.
  - right. pose proof Hc as (-> & _). exists idx, (a, (k, v)), l. split; [done |]. split; [lia |]. done.
Qed.

(** What a traversal has still to give. *)
Definition pending q ls (rem : list entry) : Prop := exists l,
  chain (nodes q) (pTravPos q) l /\ 0 <= mTravIndex q < n /\ rem = l ++ concat (drop (S (Z.to_nat (mTravIndex q))) ls).

Definition same_table q q' : Prop := nodes q' = nodes q /\ pHashTable q' = pHashTable q /\ mBuckets q' = mBuckets q /\
  mDivisor q' = mDivisor q /\ mNowSize q' = mNowSize q.

Lemma table_length q M ls : holds_in q M ls -> Z.of_nat (length (pHashTable q)) = n.
Proof.
  intros (_ & _ & HF & _ & ((Hlen & _) & _) & _). rewrite (Forall2_length _ _ _ HF). cbn in Hlen. unfold contents in Hlen.
  by rewrite length_fmap in Hlen.
Qed.

(** The loop of [traverse] from a finished chain. *)
Lemma traverse_search q M ls : holds_in q M ls -> 0 <= mTravIndex q < n ->
  let r := trav_loop (length (pHashTable q)) (pHashTable q) (mBuckets q) (i32 (mTravIndex q + 1)) in
  let rest := concat (drop (S (Z.to_nat (mTravIndex q))) ls) in
  (r = Some (n, None) /\ rest = []) \/
  (exists j e l, r = Some (j, Some (fst e)) /\ 0 <= j < n /\ chain (nodes q) (Some (fst e)) (e :: l) /\
     rest = (e :: l) ++ concat (drop (S (Z.to_nat j)) ls)).
Proof.
  intros HM Hi. pose proof (table_length _ _ _ HM) as Hlen. pose proof HM as (_ & -> & HF & _). cbn zeta.
  rewrite i32_small by (unfold is_i32, INT32_MIN, INT32_MAX in *; lia).
  replace (S (Z.to_nat (mTravIndex q))) with (Z.to_nat (mTravIndex q + 1)) by lia.
  destruct (trav_loop_spec _ _ _ HF Hlen (length (pHashTable q)) (mTravIndex q + 1)) as [?|(j & e & l & E1 & Hj & Hc & E2)];
    [lia | lia | by left |]. right. exists j, e, l. split; [done |]. split; [lia |]. done.
Qed.

Lemma traverse_step q M ls e rem : holds_in q M ls -> pending q ls (e :: rem) ->
  exists q', traverse q = Some (Some (snd e), q') /\ pending q' ls rem /\ same_table q q'.
Proof.
  intros HM (l & Hc & Hi & Hrem). pose proof HM as (_ & En & _). unfold traverse.
  assert (exists j a k v l', e = (a, (k, v)) /\ 0 <= j < n /\ chain (nodes q) (Some a) ((a, (k, v)) :: l') /\
    rem = l' ++ concat (drop (S (Z.to_nat j)) ls) /\
    match pTravPos q with
    | Some _ => Some (mTravIndex q, pTravPos q)
    | None => trav_loop (length (pHashTable q)) (pHashTable q) (mBuckets q) (i32 (mTravIndex q + 1))
    end = Some (j, Some a)) as (j & a & k & v & l' & -> & Hj & Hc' & Hrem' & ->).
  { destruct l as [|[a [k v]] l]; cbn [chain app] in *.
    - rewrite Hc. destruct (traverse_search q M ls HM Hi) as [[_ E]|(j & [a [k v]] & l & -> & Hj & Hc' & E)]; rewrite E in Hrem; [done |].
      injection Hrem as -> ->. by exists j, a, k, v, l.
    - injection Hrem as -> ->. destruct Hc as (Ep & Hc). rewrite Ep. by exists (mTravIndex q), a, k, v, l. }
  cbn [mbind option_bind fst snd]. rewrite En, (proj2 (Z.eqb_neq j n)) by lia. rewrite andb_false_r.
  cbn [chain] in Hc'. destruct Hc' as (_ & next & E & Hc'). rewrite E. cbn [mbind option_bind mKey mValue link].
  eexists. split; [done |]. split; [| by repeat split]. exists l'. by cbn [nodes pTravPos mTravIndex].
Qed.

(** After the last entry the traversal reports the end once; another call
    follows a null pointer. *)
Lemma traverse_end q M ls : holds_in q M ls -> pending q ls [] ->
  exists q', traverse q = Some (None, q') /\ traverse q' = None.
Proof.
  intros HM (l & Hc & Hi & Hrem). pose proof HM as (_ & En & _). pose proof (table_length _ _ _ HM) as Hlen.
  symmetry in Hrem. apply app_nil in Hrem as [-> Hrest]. cbn [chain] in Hc. unfold traverse at 1. rewrite Hc.
  destruct (traverse_search q M ls HM Hi) as [[-> _]|(j & e & l & _ & _ & _ & E)]; [| rewrite Hrest in E; done].
  cbn [mbind option_bind fst snd]. rewrite bool_decide_eq_true_2, En, Z.eqb_refl by done. cbn [andb].
  eexists. split; [done |]. unfold traverse. cbn [pTravPos pHashTable mBuckets mTravIndex].
  destruct (length (pHashTable q)) as [|fuel] eqn:El; [lia |]. cbn [trav_loop].
  destruct (Z.eq_dec n INT32_MAX) as [E|E].
  - rewrite E. change (i32 (INT32_MAX + 1)) with INT32_MIN. cbn. done.
  - rewrite i32_small by (unfold is_i32, INT32_MIN, INT32_MAX in *; lia). rewrite (proj2 (Z.ltb_ge (n + 1) n)) by lia.
    cbn [mbind option_bind fst snd]. rewrite (proj2 (Z.eqb_neq (n + 1) n)) by lia. by rewrite andb_false_r.
Qed.

(** [traverse] called for a number of entries. *)
Fixpoint traverse_n (k : nat) q : option (list (K * V) * QLinearHash K V loc) :=
  match k with
  | O => Some ([], q)
  | S k => r ← traverse q; e ← fst r; s ← traverse_n k (snd r); Some (e :: fst s, snd s)
  end.

Lemma same_table_holds q q' M ls : same_table q q' -> holds_in q M ls -> holds_in q' M ls.
Proof. intros (E1 & E2 & E3 & E4 & E5). unfold holds_in. by rewrite E1, E2, E3, E4, E5. Qed.

Lemma traverse_n_spec ls rem : forall q M, holds_in q M ls -> pending q ls rem ->
  exists q', traverse_n (length rem) q = Some (rem.*2, q') /\ holds_in q' M ls /\ pending q' ls [].
Proof.
  induction rem as [|e rem IH]; intros q M HM Hp; cbn [length traverse_n]; [by exists q |].
  destruct (traverse_step q M ls e rem HM Hp) as (q1 & -> & Hp1 & Hs). cbn [mbind option_bind fst snd].
  destruct (IH q1 M (same_table_holds _ _ _ _ Hs HM) Hp1) as (q2 & -> & HM2 & Hp2). cbn [mbind option_bind fst snd]. by exists q2.
Qed.

Lemma contents_concat ls : concat (contents ls) = (concat ls).*2.
Proof. unfold contents. induction ls as [|l ls IH]; cbn; [done |]. by rewrite IH, fmap_app. Qed.

Lemma prepare_pending q M ls : holds_in q M ls ->
  exists q', prepareTraversal q = Some q' /\ holds_in q' M ls /\ pending q' ls (concat ls).
Proof.
  intros HM. pose proof HM as (_ & _ & HF & _). pose proof (table_length _ _ _ HM) as Hlen. unfold prepareTraversal.
  destruct (get_is_Some (pHashTable q) 0) as [p Ep]; [lia |]. rewrite Ep. cbn [mbind option_bind]. eexists. split; [done |].
  split; [by eapply same_table_holds; [| exact HM] |]. apply get_Some in Ep as [_ Ep].
  destruct (Forall2_lookup_l _ _ _ _ _ HF Ep) as (l & El & Hc). exists l. cbn [nodes pTravPos mTravIndex]. split; [done |]. split; [lia |].
  by apply (concat_drop ls 0 l).
Qed.

(** ** Destruction *)

Lemma clear_chain_spec : forall l fuel (h : gmap loc (ChainNode K V loc)) p z, chain h p l -> NoDup l.*1 -> (length l <= fuel)%nat -> is_i32 z ->
  exists h', clear_chain fuel h p z = Some (h', i32 (z - Z.of_nat (length l))) /\
    (forall a, a ∈ l.*1 -> h' !! a = None) /\ (forall a, a ∉ l.*1 -> h' !! a = h !! a).
Proof.
  induction l as [|[a [k v]] l IH]; intros fuel h p z Hc Hl Hf Hz; cbn [chain length] in *.
  - subst p. exists h. rewrite Z.sub_0_r, i32_small by done. split; [by destruct fuel | set_solver].
  - destruct fuel as [|fuel]; [lia |]. destruct Hc as (-> & next & E & Hc). cbn in Hl. apply NoDup_cons in Hl as [Ha Hl].
    cbn [clear_chain]. rewrite E. cbn [mbind option_bind link].
    destruct (IH fuel (delete a h) next (i32 (z - 1))) as (h' & -> & H1 & H2); [| done | lia | apply i32_range |].
    { eapply chain_frame; [| exact Hc]. intros b Hb. apply lookup_delete_ne. set_solver. }
    exists h'. unfold Z.sub. rewrite !i32_step. split; [do 2 f_equal; f_equal; lia |]. cbn. split.
    + intros b [->|Hb]%elem_of_cons; [| by apply H1]. rewrite H2 by done. apply lookup_delete_eq.
    + intros b Hb. rewrite H2 by set_solver. apply lookup_delete_ne. set_solver.
Qed.

Lemma clear_loop_spec fuel : forall table ls (h : gmap loc (ChainNode K V loc)) z, Forall2 (chain h) table ls -> NoDup (concat ls).*1 ->
  Forall (fun l => (length l <= fuel)%nat) ls -> is_i32 z ->
  exists h', clear_loop fuel h table z = Some (h', i32 (z - Z.of_nat (length (concat ls)))) /\
    (forall a, a ∈ (concat ls).*1 -> h' !! a = None) /\ (forall a, a ∉ (concat ls).*1 -> h' !! a = h !! a).
Proof.
  induction table as [|p table IH]; intros ls h z HF Hnd Hlen Hz; inversion HF as [|? l ? ls' Hc HF']; subst; cbn [clear_loop concat].
  - exists h. cbn. rewrite Z.sub_0_r, i32_small by done. set_solver.
  - cbn [concat] in Hnd. rewrite fmap_app in Hnd. apply NoDup_app in Hnd as (Hl & Hdis & Hnd). apply Forall_cons in Hlen as [Hf Hlen].
    destruct (clear_chain_spec l fuel h p z Hc Hl Hf Hz) as (h1 & -> & H1 & H2). cbn [mbind option_bind fst snd].
    assert (HF1 : Forall2 (chain h1) table ls').
    { eapply table_frame; [exact HF' |]. intros a Ha. apply H2. intros Hal. by apply (Hdis a). }
    destruct (IH ls' h1 (i32 (z - Z.of_nat (length l))) HF1 Hnd Hlen (i32_range _)) as (h2 & -> & H3 & H4).
    exists h2. unfold Z.sub. rewrite !i32_step, length_app. split; [do 2 f_equal; f_equal; lia |]. rewrite fmap_app. split.
    + intros a [Ha|Ha]%elem_of_app; [| by apply H3]. rewrite H4; [by apply H1 | by apply Hdis].
    + intros a [Ha Hb]%not_elem_of_app. rewrite H4, H2 by done. done.
Qed.

Lemma hash_clear q M ls : holds_in q M ls -> exists q', clear q = Some q' /\ mNowSize q' = 0 /\ pHashTable q' = pHashTable q /\
  (forall a, a ∈ (concat ls).*1 -> nodes q' !! a = None) /\
  forall x, M !! x <> None -> search (g x) x q' = None.
Proof.
  intros HM. pose proof HM as (Ed & En & HF & Hnd & HS & Hsize). unfold clear.
  assert (Hlen : Forall (fun l => (length l <= size (nodes q))%nat) ls).
  { apply Forall_lookup. intros i l El. destruct (Forall2_lookup_r _ _ _ _ _ HF El) as (p & _ & Hc). eapply chain_size; [exact Hc |].
    destruct (concat_at ls i l El) as (R & HR & _). rewrite HR, fmap_app in Hnd. by apply NoDup_app in Hnd as [? _]. }
  destruct (clear_loop_spec _ _ _ _ (mNowSize q) HF Hnd Hlen) as (h' & -> & H1 & H2); [rewrite Hsize; apply i32_range |].
  cbn [mbind option_bind fst snd]. eexists. split; [done |]. cbn [mNowSize pHashTable nodes]. split; [| split; [done | split; [done |]]].
  - assert (Hc : length (concat ls) = size M).
    { rewrite <- length_map_to_list, <- (HashMap.spread_perm _ _ HS), contents_concat, length_fmap. done. }
    rewrite Hc, Hsize. unfold Z.sub. rewrite i32_step. replace (Z.of_nat (size M) + - Z.of_nat (size M)) with 0 by lia. done.
  - intros x Hx. destruct (locate q M ls x HM) as (l & p & H0 & Eh & Ep & El & Eb & Hc & Hs & Hl & Hk & E). rewrite E in Hx.
    unfold search, hash. cbn [pHashTable nodes mDivisor]. fold (hash (g x) q). rewrite Ep. cbn [mbind option_bind].
    destruct l as [|[a [k v]] l]; [by cbn in Hx; rewrite lookup_empty in Hx |]. cbn [chain] in Hc. destruct Hc as (-> & _).
    assert (Ha : h' !! a = None).
    { apply H1. destruct (concat_at ls _ _ El) as (R & HR & _). rewrite HR, fmap_app. cbn. set_solver. }
    destruct (size h') as [|fuel]; cbn [walk]; rewrite ?Ha; done.
Qed.

(** ** Sequences of calls *)

(** [new] returns an address that is not in use. *)
Variable alloc : gmap loc (ChainNode K V loc) -> loc.
Hypothesis alloc_fresh : forall h, h !! alloc h = None.

Inductive call : Type := CSearch (x : K) | CPush (x : K) (v : V) | CPop (x : K) | CSize.
Inductive reply : Type := Found (r : option V) | Flag (b : bool) | Count (z : Z).

Definition exec (c : call) q : option (reply * QLinearHash K V loc) :=
  match c with
  | CSearch x => r ← search (g x) x q; Some (Found r, q)
  | CPush x v => r ← push (g x) x v (alloc (nodes q)) q; Some (Flag (fst r), snd r)
  | CPop x => r ← pop (g x) x q; Some (Flag (fst r), snd r)
  | CSize => Some (Count (mNowSize q), q)
  end.

Fixpoint exec_calls (cs : list call) q : option (list reply * QLinearHash K V loc) :=
  match cs with
  | [] => Some ([], q)
  | c :: cs => r ← exec c q; s ← exec_calls cs (snd r); Some (fst r :: fst s, snd s)
  end.

(** The same calls on a finite map. *)
Definition spec (c : call) M : reply * gmap K V :=
  match c with
  | CSearch x => (Found (M !! x), M)
  | CPush x v => match M !! x with Some _ => (Flag false, M) | None => (Flag true, <[x := v]> M) end
  | CPop x => (Flag (match M !! x with Some _ => true | None => false end), delete x M)
  | CSize => (Count (i32 (Z.of_nat (size M))), M)
  end.

Fixpoint spec_calls (cs : list call) M : list reply * gmap K V :=
  match cs with
  | [] => ([], M)
  | c :: cs => let r := spec c M in let s := spec_calls cs (snd r) in (fst r :: fst s, snd s)
  end.

Lemma alloc_new q M ls : holds_in q M ls -> alloc (nodes q) ∉ (concat ls).*1.
Proof.
  intros (_ & _ & HF & _) Ha. apply list_elem_of_fmap in Ha as (e & Ea & He). apply list_elem_of_In, in_concat in He as (l & Hl & He).
  apply list_elem_of_In, list_elem_of_lookup_1 in Hl as (i & Hi). destruct (Forall2_lookup_r _ _ _ _ _ HF Hi) as (p & _ & Hc).
  assert (Hd' : alloc (nodes q) ∈ dom (nodes q)).
  { eapply chain_in_dom; [exact Hc |]. rewrite Ea. apply list_elem_of_fmap. exists e. split; [done |]. by apply list_elem_of_In. }
  apply elem_of_dom in Hd' as [w Hw]. by rewrite alloc_fresh in Hw.
Qed.

Lemma exec_holds c q M ls : holds_in q M ls ->
  exists q' ls', exec c q = Some (fst (spec c M), q') /\ holds_in q' (snd (spec c M)) ls'.
Proof.
  intros HM. destruct c as [x|x v|x|]; cbn [exec spec fst snd].
  - rewrite (hash_search q M ls x HM). by exists q, ls.
  - destruct (hash_push q M ls x v _ HM (alloc_new q M ls HM)) as (q' & ls' & -> & HM' & _). exists q', ls'.
    cbn [mbind option_bind fst snd]. by destruct (M !! x).
  - destruct (hash_pop q M ls x HM) as (q' & ls' & -> & HM' & _ & _). by exists q', ls'.
  - exists q, ls. split; [| done]. by destruct HM as (_ & _ & _ & _ & _ & ->).
Qed.

Lemma exec_calls_holds cs : forall q M ls, holds_in q M ls ->
  exists q' ls', exec_calls cs q = Some (fst (spec_calls cs M), q') /\ holds_in q' (snd (spec_calls cs M)) ls'.
Proof.
  induction cs as [|c cs IH]; intros q M ls HM; cbn [exec_calls spec_calls]; [by exists q, ls |].
  destruct (exec_holds c q M ls HM) as (q1 & ls1 & -> & H1). cbn [mbind option_bind fst snd].
  destruct (IH q1 _ ls1 H1) as (q2 & ls2 & -> & H2). cbn [mbind option_bind fst snd]. by exists q2, ls2.
Qed.

(** A whole traversal. *)
Lemma hash_traverse q M ls : holds_in q M ls -> exists q1 q2 q3 es, prepareTraversal q = Some q1 /\
  traverse_n (size M) q1 = Some (es, q2) /\ es ≡ₚ map_to_list M /\ traverse q2 = Some (None, q3) /\ traverse q3 = None.
Proof.
  intros HM. destruct (prepare_pending q M ls HM) as (q1 & E1 & HM1 & Hp).
  destruct (traverse_n_spec ls (concat ls) q1 M HM1 Hp) as (q2 & E2 & HM2 & Hp2). destruct (traverse_end q2 M ls HM2 Hp2) as (q3 & E3 & E4).
  pose proof HM as (_ & _ & _ & _ & HS & _). pose proof (HashMap.spread_perm _ _ HS) as Hperm. rewrite contents_concat in Hperm.
  exists q1, q2, q3, (concat ls).*2. split; [done |]. split; [| done].
  rewrite <- length_map_to_list, <- Hperm, length_fmap. done.
Qed.

Lemma table_empty (h : gmap loc (ChainNode K V loc)) k : Forall2 (chain h) (replicate k None) (replicate k []).
Proof. induction k; constructor; done. Qed.

Lemma construct_holds_in h : holds_in (mkHash h d n 0 (replicate (Z.to_nat n) None) 0 None) ∅ (replicate (Z.to_nat n) []).
Proof.
  assert (Hc : concat (replicate (Z.to_nat n) ([] : list entry)) = []) by (induction (Z.to_nat n); done).
  split; [done |]. split; [done |]. cbn [nodes pHashTable mNowSize]. split; [apply table_empty |]. rewrite Hc. split; [constructor |].
  split; [| done]. unfold contents. rewrite fmap_replicate. cbn. apply HashMap.spread_empty. cbn. lia.
Qed.

End refinement.

(** C37. Until it is cleared a [QLinearHash] of 1 to 46340^2 buckets (a larger size
    makes [i*i] overflow in the search for a prime) is a finite map, for any hash
    values the caller passes with the keys: the constructor returns, its divisor
    is 1 for one bucket and else the greatest prime that is at most the size, any
    sequence of search, push and pop returns and gives the answers of the map, and
    a traversal then gives every entry exactly once before it reports the end; one
    call more follows a null pointer.  [clear] frees every node and counts 0
    entries, but leaves the heads of the chains: the next search for a key that
    was in the map follows a freed pointer. *)
Theorem QLinearHash_refines {K V loc : Type} `{Countable K} `{Countable loc} (n : Z) (g : K -> Z) (alloc : gmap loc (ChainNode K V loc) -> loc) cs :
  1 <= n <= MAX_NUM -> (forall h, h !! alloc h = None) ->
  let M := snd (spec_calls cs ∅) in
  exists q0 q q1 q2 q3 qc es, construct n ∅ = Some (Ret q0) /\
    (if n =? 1 then mDivisor q0 = 1 else prime (mDivisor q0) /\ mDivisor q0 <= n /\ forall r, prime r -> r <= n -> r <= mDivisor q0) /\
    exec_calls g alloc cs q0 = Some (fst (spec_calls cs ∅), q) /\
    prepareTraversal q = Some q1 /\ traverse_n (size M) q1 = Some (es, q2) /\
    es ≡ₚ map_to_list M /\ traverse q2 = Some (None, q3) /\ traverse q3 = None /\
    clear q = Some qc /\ mNowSize qc = 0 /\ (forall x, M !! x <> None -> search (g x) x qc = None).
Proof.
  intros Hn Ha M. assert (Hdiv : exists d, getDivisor n = Some d /\ 0 < d <= n /\
    if n =? 1 then d = 1 else prime d /\ d <= n /\ forall r, prime r -> r <= n -> r <= d).
  { destruct (Z.eqb_spec n 1) as [->|Hne]; [exists 1; split; [done |]; split; [lia | done] |].
    destruct (getDivisor_spec n) as (d & Ed & Hp & Hle & Hmax); [lia |]. exists d. split; [done |]. split; [destruct Hp; lia | done]. }
  destruct Hdiv as (d & Ed & Hd & Hp). assert (Hn' : n <= INT32_MAX) by (unfold MAX_NUM, INT32_MAX in *; lia).
  unfold construct. rewrite (proj2 (Z.ltb_lt 0 n)), Ed by lia. cbn [mbind option_bind].
  destruct (exec_calls_holds n d g Hd Hn' alloc Ha cs _ _ _ (construct_holds_in n d g Hd Hn' ∅)) as (q & ls & E & HM).
  destruct (hash_traverse n d g Hd Hn' q _ ls HM) as (q1 & q2 & q3 & es & H1 & H2 & H3 & H4 & H5).
  destruct (hash_clear n d g Hd Hn' q _ ls HM) as (qc & H6 & H7 & _ & _ & H8).
  eexists _, q, q1, q2, q3, qc, es. do 10 (split; [done |]). done.
Qed.

Lemma QLinearHash_refines_witness :
  let cs := [CPush 5 50; CPush 12 120; CPush 5 51; CSearch 12; CPop 12; CSearch 12; CPush 7 70; CSize] in
  fst (spec_calls cs (∅ : gmap Z Z)) = [Flag true; Flag true; Flag false; Found (Some 120); Flag true; Found None; Flag true; Count 2] /\
  exists q0 q, construct (K := Z) (V := Z) (loc := positive) 10 ∅ = Some (Ret q0) /\
    exec_calls (fun k => k mod 2 ^ 64) (fun h => fresh (dom h)) cs q0 = Some (fst (spec_calls cs ∅), q).
Proof.
  cbn zeta. split; [vm_compute; reflexivity |].
  destruct (QLinearHash_refines (V := Z) (loc := positive) 10 (fun k => k mod 2 ^ 64) (fun h => fresh (dom h))
    [CPush 5 50; CPush 12 120; CPush 5 51; CSearch 12; CPop 12; CSearch 12; CPush 7 70; CSize])
    as (q0 & q & q1 & q2 & q3 & qc & es & E0 & _ & E & _).
  - unfold MAX_NUM. lia.
  - intros h. apply not_elem_of_dom, is_fresh.
  - exists q0, q. split; [exact E0 | exact E].
Defined.

End LinearHash.
