(* ===== verification/Allocator.v ===== *)
(** * Memory allocators: src/include/common/qallocator.h and qallocator.cc

    [QAllocator] cuts pieces of any length from big blocks and gives them back
    all at once.  The blocks are on an explicit heap of block lengths; an address
    is a block and an offset.  Using an index or a block that is not there is
    [None].  The class [Allocator] is what the users of the allocators rely on. *)

From stdpp Require Import gmap.
From S2P Require Import Prelude Arrays.
Import Arrays.

(** ** The heap *)

Module Mem.

(** The live blocks with their lengths, and which of the next requests succeed. *)
Record Mem : Type := mkMem { blocks : gmap nat Z; outcomes : list bool }.

(** [q_new_array<T>(uint32_t size)] of elements of [w] bytes: the size is
    converted to 32 bits. *)
Definition q_new_array (w size : Z) (m : Mem) : option nat * Mem :=
  if default true (head (outcomes m)) then
    let b := fresh (dom (blocks m)) in
    (Some b, mkMem (<[b := w * u32 size]> (blocks m)) (tail (outcomes m)))
  else (None, mkMem (blocks m) (tail (outcomes m))).

(** [q_delete_array]; deleting what is not a live block is undefined. *)
Definition q_delete_array (p : option nat) (m : Mem) : option Mem :=
  match p with
  | None => Some m
  | Some b => _ ← blocks m !! b; Some (mkMem (delete b (blocks m)) (outcomes m))
  end.

Lemma q_new_array_spec w size m r m' : q_new_array w size m = (r, m') ->
  match r with
  | Some b => blocks m !! b = None /\ blocks m' = <[b := w * u32 size]> (blocks m)
  | None => blocks m' = blocks m
  end.
Proof.
  unfold q_new_array. destruct (default true _); intros [= <- <-]; [| done]. split; [| done].
  apply not_elem_of_dom, is_fresh.
Qed.

End Mem.

Abbreviation addr := (nat * Z)%type.

Module Allocator.
Import Mem.

(** ** What users rely on *)

(** Requests for [n] bytes, and giving everything back. *)
Class Allocator (A : Type) : Type := {
  request : Z -> A -> option (option addr * A);
  reset : A -> option A
}.

(** [held l a]: the addresses [l] are in use.  The tables keep one record per
    address, so distinct addresses are what their theorems need; that the pieces
    behind the addresses share no byte is shown of the two allocators below
    ([QAllocator_regions], and [QPoolAllocator_chunks] of the file
    PoolAllocator). *)
Class AllocatorLaws (A : Type) `{Allocator A} : Type := {
  held : gset addr -> A -> Prop;
  serves : Z -> A -> Prop;
  request_ok l n a : held l a -> serves n a -> exists r a', request n a = Some (r, a') /\
    (forall n', serves n' a -> serves n' a') /\
    match r with Some p => p ∉ l /\ held ({[p]} ∪ l) a' | None => held l a' end;
  reset_ok l a : held l a -> exists a', reset a = Some a' /\ held ∅ a' /\ (forall n, serves n a -> serves n a')
}.

(** Giving back one address. *)
Class Recycler (A : Type) `{Allocator A} : Type := recycle : addr -> A -> option A.

Class RecyclerLaws (A : Type) `{AllocatorLaws A, !Recycler A} : Prop :=
  recycle_ok l p a : held l a -> p ∈ l -> exists a', recycle p a = Some a' /\ held (l ∖ {[p]}) a' /\ (forall n, serves n a -> serves n a').

(** ** QAllocator *)

Record QAllocator : Type := mkAllocator {
  pBlockLibrary : option (nat * list (option nat));
  mMaxBlockNum : Z;
  mMaxBlockLen : Z;
  mNowBlockNum : Z;
  mNowBlockLen : Z;
  mTotalLen : Z
}.

Definition construct (maxBlockNum maxBlockLen : Z) : QAllocator := mkAllocator None maxBlockNum maxBlockLen (-1) maxBlockLen 0.

(** The next block of the library, which has [num] entries for blocks of [len]
    bytes: [None] inside when [alloc] returns [NULL].  [QPoolAllocator] does the same. *)
Definition next_block (l : list (option nat)) (num len now : Z) (m : Mem) : option (option (list (option nat)) * Mem) :=
  if num <=? now + 1 then Some (None, m)
  else
    e ← get l (now + 1);
    match e with
    | Some _ => Some (Some l, m)
    | None =>
        let '(b, m) := q_new_array 1 len m in
        match b with
        | Some b => l ← set l (now + 1) (Some b); Some (Some l, m)
        | None => Some (None, m)
        end
    end.

(** [q_new_array<char*>(num)] and [memset] to null pointers: the array has the
    number of entries modulo 2^32, and [memset] may not write past it. *)
Definition new_library (num : Z) (m : Mem) : option (option (nat * list (option nat)) * Mem) :=
  let '(b, m) := q_new_array 8 num m in
  match b with
  | None => Some (None, m)
  | Some b => if u32 num =? num then Some (Some (b, replicate (Z.to_nat num) None), m) else None
  end.

Definition alloc (allocLen : Z) (a : QAllocator) (m : Mem) : option (option addr * QAllocator * Mem) :=
  '(lib, m) ←
    match pBlockLibrary a with
    | Some lib => Some (Some lib, m)
    | None => new_library (mMaxBlockNum a) m
    end;
  match lib with
  | None => Some (None, a, m)
  | Some lib =>
      let keep l := mkAllocator (Some (fst lib, l)) (mMaxBlockNum a) (mMaxBlockLen a) in
      let cut l now len m :=
        e ← get l now;
        b ← e;
        Some (Some (b, len), keep l now (i64 (len + allocLen)) (i64 (mTotalLen a + allocLen)), m) in
      if mMaxBlockLen a - mNowBlockLen a <? allocLen then
        let fails m := Some (None, keep (snd lib) (mNowBlockNum a) (mNowBlockLen a) (mTotalLen a), m) in
        if mMaxBlockLen a <? allocLen then fails m
        else
          r ← next_block (snd lib) (mMaxBlockNum a) (mMaxBlockLen a) (mNowBlockNum a) m;
          match r with
          | (Some l, m) => cut l (mNowBlockNum a + 1) 0 m
          | (None, m) => fails m
          end
      else cut (snd lib) (mNowBlockNum a) (mNowBlockLen a) m
  end.

Abbreviation getAllocLength := mTotalLen (only parsing).

Definition getBufferLength (a : QAllocator) : Z := i64 (i64 (mMaxBlockLen a * mNowBlockNum a) + mNowBlockLen a).

Definition resetAllocator (a : QAllocator) : QAllocator :=
  mkAllocator (pBlockLibrary a) (mMaxBlockNum a) (mMaxBlockLen a) (-1) (mMaxBlockLen a) 0.

(** [~QAllocator] *)
Fixpoint delete_blocks (l : list (option nat)) (m : Mem) : option Mem :=
  match l with
  | [] => Some m
  | p :: l => m ← q_delete_array p m; delete_blocks l m
  end.

Definition destroy (a : QAllocator) (m : Mem) : option Mem :=
  match pBlockLibrary a with
  | None => Some m
  | Some (b, l) => m ← delete_blocks l m; q_delete_array (Some b) m
  end.

Definition freeAllocator (a : QAllocator) (m : Mem) : option (QAllocator * Mem) :=
  m ← destroy a m;
  Some (mkAllocator None (mMaxBlockNum a) (mMaxBlockLen a) (-1) (mMaxBlockLen a) 0, m).

(** ** Regions *)

(** A block, an offset and a length. *)
Abbreviation region := (nat * Z * Z)%type.

Definition disjoint_regions (r r' : region) : Prop :=
  let '(b, o, n) := r in let '(b', o', n') := r' in b <> b' \/ o + n <= o' \/ o' + n' <= o.

Definition total (l : list region) : Z := foldr (fun r t => snd r + t) 0 l.

(** A library of [num] entries in use up to [now]: every block has [len] bytes,
    no two are the same. *)
Record library_ok (num len now : Z) (m : Mem) (l : list (option nat)) : Prop := mkLibraryOk {
  lib_length : length l = Z.to_nat num;
  lib_block (i : nat) b : l !! i = Some (Some b) -> blocks m !! b = Some len;
  lib_inj (i j : nat) b : l !! i = Some (Some b) -> l !! j = Some (Some b) -> i = j;
  lib_used (i : nat) : Z.of_nat i <= now -> exists b, l !! i = Some (Some b)
}.

Lemma new_library_ok num len m : library_ok num len (-1) m (replicate (Z.to_nat num) None).
Proof.
  split; [apply length_replicate | | | lia].
  - by intros i b [? _]%lookup_replicate.
  - by intros i j b [? _]%lookup_replicate.
Qed.

(** A library is created, or the system has no memory. *)
Lemma new_library_spec num m r m' : new_library num m = Some (r, m') ->
  match r with
  | Some (b, l) => l = replicate (Z.to_nat num) None /\ blocks m !! b = None /\ blocks m' = <[b := 8 * num]> (blocks m) /\ outcomes m' = tail (outcomes m)
  | None => blocks m' = blocks m /\ exists o, outcomes m = false :: o
  end.
Proof.
  unfold new_library. destruct (q_new_array 8 num m) as [b m1] eqn:Hnew. pose proof (q_new_array_spec _ _ _ _ _ Hnew) as Hs.
  unfold q_new_array in Hnew. destruct b as [b|].
  - destruct (Z.eqb_spec (u32 num) num) as [Hu|]; [| done]. intros [= <- <-]. rewrite Hu in Hs. destruct Hs as [Hb Hm].
    split; [done |]. split; [done |]. split; [done |]. by destruct (default true _); simplify_eq.
  - intros [= <- <-]. split; [done |]. destruct (outcomes m) as [|[] o]; cbn in Hnew; [done | done | eauto].
Qed.

Lemma new_library_Some num m : 0 <= num < 2 ^ 32 -> is_Some (new_library num m).
Proof.
  intros Hn. unfold new_library. destruct (q_new_array 8 num m) as [[b|] m1]; [| by eexists].
  rewrite (proj2 (Z.eqb_eq _ _)) by (unfold u32; rewrite Z.mod_small; lia). by eexists.
Qed.

Lemma next_block_lib num len now m l : library_ok num len now m l -> -1 <= now < num -> 0 < len < 2 ^ 32 ->
  exists r m', next_block l num len now m = Some (r, m') /\
    match r with
    | Some l' => now + 1 < num /\ library_ok num len (now + 1) m' l' /\ (forall (i : nat) b, l !! i = Some (Some b) -> l' !! i = Some (Some b))
    | None => library_ok num len now m' l /\ (num = now + 1 \/ exists rest, outcomes m = false :: rest)
    end.
Proof.
  intros [L1 L2 L3 L4] Hnow Hlen. unfold next_block. destruct (Z.leb_spec num (now + 1)); [exists None, m; split; [done |]; split; [done | left; lia] |].
  destruct (get_is_Some l (now + 1)) as [e He]; [lia |]. rewrite He. cbn [mbind option_bind]. apply get_Some in He as [Hnn He].
  destruct e as [b|].
  - exists (Some l), m. split; [done |]. split; [lia |]. split; [| done].
    split; try done. intros i Hi. destruct (decide (Z.of_nat i = now + 1)) as [Heq|]; [| apply L4; lia].
    exists b. by replace i with (Z.to_nat (now + 1)) by lia.
  - destruct (q_new_array 1 len m) as [r m'] eqn:Hnew. pose proof (q_new_array_spec _ _ _ _ _ Hnew) as Hs. destruct r as [b|].
    + destruct Hs as [Hfresh Hm']. rewrite set_in by lia. cbn [mbind option_bind]. do 2 eexists. split; [done |]. split; [lia |].
      assert (Hu : 1 * u32 len = len) by (unfold u32; rewrite Z.mod_small; lia). rewrite Hu in Hm'. pose proof (lookup_lt_Some _ _ _ He) as Hlt.
      assert (Hlook : forall i x, <[Z.to_nat (now + 1) := Some b]> l !! i = Some (Some x) ->
        (i = Z.to_nat (now + 1) /\ x = b) \/ (i <> Z.to_nat (now + 1) /\ l !! i = Some (Some x) /\ x <> b)).
      { intros i x. destruct (decide (i = Z.to_nat (now + 1))) as [->|Hne].
        - rewrite list_lookup_insert_eq by done. intros [= ->]. by left.
        - rewrite list_lookup_insert_ne by done. intros Hx. right. split; [done |]. split; [done |]. intros ->. by rewrite (L2 _ _ Hx) in Hfresh. }
      split; [split |].
      * by rewrite length_insert.
      * intros i x [[_ ->]|(_ & Hx & Hne)]%Hlook; rewrite Hm'; [by rewrite lookup_insert_eq | rewrite lookup_insert_ne by done; by apply (L2 i)].
      * intros i j x [[-> ->]|(Hi & Hx & Hne)]%Hlook [[-> ?]|(Hj & Hx' & Hne')]%Hlook; try done. by apply (L3 i j x).
      * intros i Hi. destruct (decide (i = Z.to_nat (now + 1))) as [->|Hne]; [exists b; by apply list_lookup_insert_eq |].
        rewrite list_lookup_insert_ne by done. apply L4. lia.
      * intros i x Hx. rewrite list_lookup_insert_ne; [done |]. intros <-. by rewrite He in Hx.
    + exists None, m'. split; [done |]. split; [| right; unfold q_new_array in Hnew; destruct (outcomes m) as [|[] o]; cbn in Hnew; [done | done | eauto]].
      split; try done. by rewrite Hs.
Qed.

(** A region inside the used part of its block. *)
Definition placed (a : QAllocator) (l : list (option nat)) (r : region) : Prop :=
  let '(b, o, n) := r in exists i : nat, l !! i = Some (Some b) /\ Z.of_nat i <= mNowBlockNum a /\ 0 <= o /\ 0 < n /\
    o + n <= (if decide (Z.of_nat i = mNowBlockNum a) then mNowBlockLen a else mMaxBlockLen a).

Record inv (a : QAllocator) (m : Mem) (live : list region) : Prop := mkInv {
  inv_max : 0 < mMaxBlockNum a < 2 ^ 32 /\ 0 < mMaxBlockLen a < 2 ^ 32 /\ mMaxBlockNum a * mMaxBlockLen a < 2 ^ 63;
  inv_now : -1 <= mNowBlockNum a < mMaxBlockNum a;
  inv_len : 0 <= mNowBlockLen a <= mMaxBlockLen a;
  inv_none : mNowBlockNum a = -1 -> mNowBlockLen a = mMaxBlockLen a;
  inv_lib : match pBlockLibrary a with Some (_, l) => library_ok (mMaxBlockNum a) (mMaxBlockLen a) (mNowBlockNum a) m l /\ Forall (placed a l) live | None => mNowBlockNum a = -1 /\ live = [] end;
  inv_disjoint : ForallOrdPairs disjoint_regions live;
  inv_total : mTotalLen a = total live /\ 0 <= mTotalLen a <= mMaxBlockLen a * mNowBlockNum a + mNowBlockLen a
}.

Lemma construct_inv num len m : 0 < num < 2 ^ 32 -> 0 < len < 2 ^ 32 -> num * len < 2 ^ 63 -> inv (construct num len) m [].
Proof. intros. split; cbn; try lia; try done. constructor. Qed.

Lemma reset_inv a m live : inv a m live -> inv (resetAllocator a) m [].
Proof.
  intros [H1 H2 H3 H4 H5 H6 H7]. split; cbn; try lia; try done; [| constructor].
  destruct (pBlockLibrary a) as [[b l]|]; [| done]. destruct H5 as [[L1 L2 L3 L4] _]. split; [| constructor].
  split; cbn; try done. lia.
Qed.

(** A cut at the end of the current block. *)
Lemma cut_inv a m live lb l now len n t b : inv a m live -> mTotalLen a = t -> pBlockLibrary a = Some (lb, l) -> mNowBlockNum a = now -> mNowBlockLen a = len ->
  0 <= now -> l !! Z.to_nat now = Some (Some b) -> 0 < n -> len + n <= mMaxBlockLen a ->
  inv (mkAllocator (Some (lb, l)) (mMaxBlockNum a) (mMaxBlockLen a) now (i64 (len + n)) (i64 (t + n))) m ((b, len, n) :: live).
Proof.
  intros [H1 H2 H3 H4 H5 H6 H7] <- Hl <- <- Hnow Hb Hn Hlen. rewrite Hl in H5. destruct H5 as [[L1 L2 L3 L4] HP].
  rewrite !i64_pos by nia. split; cbn [mMaxBlockNum mMaxBlockLen mNowBlockNum mNowBlockLen pBlockLibrary mTotalLen]; try lia.
  - split; [done |]. constructor.
    + exists (Z.to_nat (mNowBlockNum a)). cbn. rewrite decide_True by lia. repeat split; (done || lia).
    + apply (Forall_impl _ _ _ HP). intros [[b' o'] n'] (i & G1 & G2 & G3 & G4 & G5). exists i. cbn. case_decide; repeat split; (done || lia).
  - constructor; [| done]. apply (Forall_impl _ _ _ HP). intros [[b' o'] n'] (i & G1 & G2 & G3 & G4 & G5). cbn.
    destruct (decide (b = b')) as [<-|]; [| by left]. right; right. pose proof (L3 _ _ _ G1 Hb) as ->. rewrite decide_True in G5 by lia. lia.
  - cbn [total foldr snd]. fold (total live). lia.
Qed.

(** A new block, or one that is left from before a reset. *)
Definition opened (a : QAllocator) (lb : nat) (l : list (option nat)) : QAllocator :=
  mkAllocator (Some (lb, l)) (mMaxBlockNum a) (mMaxBlockLen a) (mNowBlockNum a + 1) 0 (mTotalLen a).

Lemma next_block_ok a m live lb l : inv a m live -> pBlockLibrary a = Some (lb, l) ->
  exists r m', next_block l (mMaxBlockNum a) (mMaxBlockLen a) (mNowBlockNum a) m = Some (r, m') /\
    match r with
    | Some l' => mNowBlockNum a + 1 < mMaxBlockNum a /\ inv (opened a lb l') m' live /\ (exists b, l' !! Z.to_nat (mNowBlockNum a + 1) = Some (Some b))
    | None => inv a m' live /\ (mMaxBlockNum a = mNowBlockNum a + 1 \/ exists rest, outcomes m = false :: rest)
    end.
Proof.
  intros Hinv Hl. pose proof Hinv as [H1 H2 H3 H4 H5 H6 H7]. rewrite Hl in H5. destruct H5 as [HL HP].
  destruct (next_block_lib _ _ _ _ _ HL) as (r & m' & Hr & Hres); [lia | lia |]. exists r, m'. split; [done |]. destruct r as [l'|].
  - destruct Hres as (Hlt & HL' & Hsub). split; [done |]. split; [| apply (lib_used _ _ _ _ _ HL'); lia].
    split; try (cbn; lia); try done; cbn [opened pBlockLibrary]. split; [done |].
    apply (Forall_impl _ _ _ HP). intros [[b' o'] n'] (i & G1 & G2 & G3 & G4 & G5). exists i. cbn.
    rewrite decide_False by lia. repeat split; [by apply Hsub | lia.. |]. case_decide; lia.
  - destruct Hres as [HL' Hwhy]. split; [| done]. split; try done. by rewrite Hl.
Qed.

(** The library is there, or is created. *)
Definition with_library (lib : nat * list (option nat)) (a : QAllocator) : QAllocator :=
  mkAllocator (Some lib) (mMaxBlockNum a) (mMaxBlockLen a) (mNowBlockNum a) (mNowBlockLen a) (mTotalLen a).

Lemma new_library_inv a m live b m' : inv a m live -> pBlockLibrary a = None ->
  inv (with_library (b, replicate (Z.to_nat (mMaxBlockNum a)) None) a) m' live.
Proof.
  intros [H1 H2 H3 H4 H5 H6 H7] Hl. rewrite Hl in H5. destruct H5 as [Hnow ->]. split; cbn; try done. split; [| constructor].
  rewrite Hnow. apply new_library_ok.
Qed.

(** Why a request is refused. *)
Definition refused (n : Z) (a : QAllocator) (m : Mem) : Prop :=
  mMaxBlockLen a < n \/ (mMaxBlockNum a = mNowBlockNum a + 1 /\ mMaxBlockLen a - mNowBlockLen a < n) \/ false ∈ outcomes m.

Definition same_limits (a a' : QAllocator) : Prop := mMaxBlockNum a' = mMaxBlockNum a /\ mMaxBlockLen a' = mMaxBlockLen a.

Lemma alloc_library_ok n a m live lb l : inv a m live -> 0 < n -> pBlockLibrary a = Some (lb, l) ->
  exists r a' m', alloc n a m = Some (r, a', m') /\ same_limits a a' /\
    match r with Some (b, o) => inv a' m' ((b, o, n) :: live) | None => inv a' m' live /\ refused n a m end.
Proof.
  intros Hinv Hn Hl. pose proof Hinv as [H1 H2 H3 H4 H5 H6 H7]. unfold alloc. rewrite Hl. cbn [mbind option_bind fst snd].
  assert (Hsame : mkAllocator (Some (lb, l)) (mMaxBlockNum a) (mMaxBlockLen a) (mNowBlockNum a) (mNowBlockLen a) (mTotalLen a) = a)
    by (rewrite <- Hl; by destruct a). rewrite Hsame.
  destruct (Z.ltb_spec (mMaxBlockLen a - mNowBlockLen a) n) as [Hlt|Hge].
  - destruct (Z.ltb_spec (mMaxBlockLen a) n); [do 3 eexists; split; [done |]; split; [done |]; split; [done | by left] |].
    destruct (next_block_ok a m live lb l Hinv Hl) as (r & m' & Hr & Hres). rewrite Hr. cbn [mbind option_bind]. destruct r as [l'|].
    + destruct Hres as (Hmax & Hinv' & b & Hb). unfold get. rewrite (proj2 (Z.leb_le _ _)) by lia. rewrite Hb. cbn [mbind option_bind].
      do 3 eexists. split; [done |]. split; [done |]. by apply (cut_inv (opened a lb l')); cbn; (done || lia).
    + destruct Hres as [Hinv' Hwhy]. do 3 eexists. split; [done |]. split; [done |]. split; [done |].
      right. destruct Hwhy as [->|[o Ho]]; [left; lia | right; rewrite Ho; by left].
  - assert (Hnow : 0 <= mNowBlockNum a) by (destruct (decide (mNowBlockNum a = -1)) as [Heq|]; [specialize (H4 Heq); lia | lia]).
    pose proof H5 as Hlib. rewrite Hl in Hlib. destruct Hlib as [[_ _ _ L4] _]. destruct (L4 (Z.to_nat (mNowBlockNum a))) as [b Hb]; [lia |].
    unfold get. rewrite (proj2 (Z.leb_le _ _)) by lia. rewrite Hb. cbn [mbind option_bind].
    do 3 eexists. split; [done |]. split; [done |]. by apply (cut_inv a); (done || lia).
Qed.

Lemma alloc_ok n a m live : inv a m live -> 0 < n ->
  exists r a' m', alloc n a m = Some (r, a', m') /\ same_limits a a' /\
    match r with Some (b, o) => inv a' m' ((b, o, n) :: live) | None => inv a' m' live /\ refused n a m end.
Proof.
  intros Hinv Hn. destruct (pBlockLibrary a) as [[lb l]|] eqn:Hl; [by eapply alloc_library_ok |].
  pose proof (inv_max _ _ _ Hinv) as [Hmax _]. destruct (new_library_Some (mMaxBlockNum a) m) as [[r m'] Hnew]; [lia |].
  pose proof (new_library_spec _ _ _ _ Hnew) as Hs. destruct r as [[b l]|].
  - destruct Hs as (-> & Hfresh & Hm' & Hout). pose proof (new_library_inv a m live b m' Hinv Hl) as Hinv'.
    destruct (alloc_library_ok n _ m' live _ _ Hinv' Hn eq_refl) as (r & a' & m2 & H1 & H2 & H3).
    exists r, a', m2. split; [unfold alloc in *; rewrite Hl, Hnew; exact H1 |]. split; [done |]. destruct r as [[]|]; [done |].
    destruct H3 as [H3 [?|[?|Ho]]]; (split; [done |]); [by left | by right; left | right; right].
    rewrite Hout in Ho. destruct (outcomes m); [by apply not_elem_of_nil in Ho | by right].
  - destruct Hs as [Hm' [o Ho]]. exists None, a, m'. split; [unfold alloc; by rewrite Hl, Hnew |]. split; [done |]. split.
    + destruct Hinv as [H1 H2 H3 H4 H5 H6 H7]. split; try done. by rewrite Hl in *.
    + right; right. rewrite Ho. by left.
Qed.

Lemma alloc_refuses n a m live : inv a m live -> 0 < n -> mMaxBlockLen a < n \/ (mMaxBlockNum a = mNowBlockNum a + 1 /\ mMaxBlockLen a - mNowBlockLen a < n) ->
  exists a' m', alloc n a m = Some (None, a', m').
Proof.
  intros [H1 H2 H3 _ _ _ _] Hn Hc. unfold alloc.
  assert (Hlib : is_Some (match pBlockLibrary a with Some lib => Some (Some lib, m) | None => new_library (mMaxBlockNum a) m end))
    by (destruct (pBlockLibrary a); [by eexists | apply new_library_Some; lia]).
  destruct Hlib as [[[lib|] m1] ->]; cbn [mbind option_bind]; [| eauto]. rewrite (proj2 (Z.ltb_lt _ n)) by lia. destruct (Z.ltb_spec (mMaxBlockLen a) n); [eauto |].
  unfold next_block. rewrite (proj2 (Z.leb_le _ _)) by lia. cbn. eauto.
Qed.

(** [QAllocator] is an allocator: an address in use is the start of a region. *)
#[export] Instance QAllocator_Allocator : Allocator (QAllocator * Mem) := {
  request n x := '(r, a, m) ← alloc n (fst x) (snd x); Some (r, (a, m));
  reset x := Some (resetAllocator (fst x), snd x)
}.

#[export, refine] Instance QAllocator_laws : AllocatorLaws (QAllocator * Mem) := {
  held l x := exists live, inv (fst x) (snd x) live /\ l = list_to_set (fst <$> live);
  serves n x := 0 < n
}.
Proof.
  - intros l n [a m] (live & Hinv & ->) Hn. cbn [fst snd] in *. destruct (alloc_ok n a m live Hinv Hn) as (r & a' & m' & Hr & _ & Hres).
    exists r, (a', m'). cbn. rewrite Hr. split; [done |]. split; [done |]. destruct r as [[b o]|]; [| exists live; by destruct Hres].
    split; [| exists ((b, o, n) :: live); split; [done |]; by rewrite fmap_cons].
    pose proof (inv_disjoint _ _ _ Hres) as Hd. pose proof (inv_lib _ _ _ Hres) as Hlib.
    destruct (pBlockLibrary a') as [[lb l]|]; [| by destruct Hlib as [_ ?]]. destruct Hlib as [_ Hp].
    apply Forall_cons in Hp as [_ Hp]. inversion Hd as [|? ? Hd1 _]; subst. rewrite elem_of_list_to_set, list_elem_of_fmap.
    intros ([[b' o'] n'] & Heq & Hin). cbn in Heq. injection Heq as <- <-. rewrite Forall_forall in Hp, Hd1.
    specialize (Hd1 _ Hin). destruct (Hp _ Hin) as (i & _ & _ & _ & Hpos & _). cbn in Hd1. lia.
  - intros l [a m] (live & Hinv & ->). eexists. split; [done |]. split; [| done]. exists []. split; [by apply reset_inv with live | done].
Defined.

(** ** Sequences of calls *)

Inductive op : Type := Alloc (n : Z) | Reset'.

(** The answers, and the regions that are in use at the end. *)
Fixpoint run (ops : list op) (a : QAllocator) (m : Mem) (live : list region) : option (list (option addr) * QAllocator * Mem * list region) :=
  match ops with
  | [] => Some ([], a, m, live)
  | Alloc n :: ops =>
      '(r, a, m) ← alloc n a m;
      '(rs, a, m, live) ← run ops a m (match r with Some p => (p, n) :: live | None => live end);
      Some (r :: rs, a, m, live)
  | Reset' :: ops => run ops (resetAllocator a) m []
  end.

Lemma run_ok ops a m live : inv a m live -> Forall (fun o => match o with Alloc n => 0 < n | Reset' => True end) ops ->
  exists rs a' m' live', run ops a m live = Some (rs, a', m', live') /\ same_limits a a' /\ inv a' m' live'.
Proof.
  revert a m live. induction ops as [|[n|] ops IH]; intros a m live Hinv Hops.
  - by exists [], a, m, live.
  - apply Forall_cons in Hops as [Hn Hops]. destruct (alloc_ok n a m live Hinv Hn) as (r & a1 & m1 & Hr & [S1 S2] & Hres).
    destruct (IH a1 m1 (match r with Some p => (p, n) :: live | None => live end)) as (rs & a2 & m2 & live2 & Hrun & [S3 S4] & Hinv2);
      [by destruct r as [[]|]; [| destruct Hres] | done |].
    exists (r :: rs), a2, m2, live2. cbn [run]. rewrite Hr. cbn. rewrite Hrun. cbn. split; [done |]. split; [split; congruence | done].
  - apply Forall_cons in Hops as [_ Hops]. destruct (IH (resetAllocator a) m [] (reset_inv _ _ _ Hinv) Hops) as (rs & a2 & m2 & live2 & H1 & H2 & H3).
    exists rs, a2, m2, live2. by split.
Qed.

Lemma ForallOrdPairs_lookup {A} (R : A -> A -> Prop) (l : list A) (i j : nat) x y :
  (forall x y, R x y -> R y x) -> ForallOrdPairs R l -> l !! i = Some x -> l !! j = Some y -> i <> j -> R x y.
Proof.
  intros Hsym H. revert i j. induction H as [|z l Hz Hl IH]; intros i j Hi Hj Hne; [done |].
  rewrite Forall_forall in Hz. destruct i as [|i], j as [|j]; cbn in Hi, Hj; simplify_eq.
  - by apply Hz, list_elem_of_lookup_2 with j.
  - by apply Hsym, Hz, list_elem_of_lookup_2 with i.
  - apply (IH i j); [done | done | lia].
Qed.

(** ** Giving the memory back *)

Lemma delete_blocks_ok (bs : list nat) l m : omap id l = bs -> NoDup bs -> (forall b, b ∈ bs -> is_Some (blocks m !! b)) ->
  exists m', delete_blocks l m = Some m' /\ forall x, blocks m' !! x = if decide (x ∈ bs) then None else blocks m !! x.
Proof.
  revert bs m. induction l as [|[b|] l IH]; intros bs m <- Hnd Hin; cbn [delete_blocks q_delete_array].
  - exists m. split; [done |]. intros x. by rewrite decide_False by apply not_elem_of_nil.
  - cbn in Hnd, Hin. apply NoDup_cons in Hnd as [Hb Hnd]. destruct (Hin b) as [n Hn]; [by left |]. rewrite Hn. cbn [mbind option_bind].
    destruct (IH (omap id l) (mkMem (delete b (blocks m)) (outcomes m)) eq_refl Hnd) as (m' & H1 & H2).
    { intros x Hx. cbn. rewrite lookup_delete_ne; [apply Hin; by right |]. by intros <-. }
    exists m'. split; [done |]. intros x. rewrite H2. cbn [blocks]. cbn.
    destruct (decide (x = b)) as [->|Hne]; [rewrite lookup_delete_eq; repeat case_decide; (done || set_solver) |].
    rewrite lookup_delete_ne by done. repeat case_decide; (done || set_solver).
  - cbn in *. apply IH; done.
Qed.


(** The blocks of an allocator, its library included. *)
Definition owned (lib : option (nat * list (option nat))) : list nat :=
  match lib with Some (b, l) => b :: omap id l | None => [] end.

(** The heap is [h] and the blocks of the allocator. *)
Record owns (h : gmap nat Z) (lib : option (nat * list (option nat))) (m : Mem) : Prop := mkOwns {
  owns_nodup : NoDup (owned lib);
  owns_in x : x ∈ owned lib -> is_Some (blocks m !! x) /\ h !! x = None;
  owns_out x : x ∉ owned lib -> blocks m !! x = h !! x
}.

Lemma omap_insert_None (l : list (option nat)) (i : nat) b : l !! i = Some None -> omap id (<[i := Some b]> l) ≡ₚ b :: omap id l.
Proof.
  revert i. induction l as [|e l IH]; intros i Hi; [done |]. destruct i as [|i]; cbn in Hi; [by injection Hi as -> |].
  cbn. destruct e as [x|]; cbn; [| by apply IH]. rewrite (IH i Hi). apply Permutation_swap.
Qed.

Lemma owns_new h lib lib' b n m m' : owns h lib m -> owned lib' ≡ₚ b :: owned lib -> blocks m !! b = None ->
  blocks m' = <[b := n]> (blocks m) -> owns h lib' m'.
Proof.
  intros [H1 H2 H3] Hp Hb Hm. assert (Hn : b ∉ owned lib) by (intros Hin; destruct (H2 b Hin) as [[? Hs] _]; congruence).
  split.
  - rewrite Hp. by apply NoDup_cons.
  - intros x. rewrite Hp, Hm. intros [->|Hx]%elem_of_cons; [rewrite lookup_insert_eq, <- (H3 b Hn); eauto |].
    rewrite lookup_insert_ne by (intros <-; done). auto.
  - intros x. rewrite Hp, Hm. intros [Hne Hx]%not_elem_of_cons. rewrite lookup_insert_ne by done. auto.
Qed.

Lemma owns_same h lib m m' : owns h lib m -> blocks m' = blocks m -> owns h lib m'.
Proof. intros [H1 H2 H3] Hm. split; [done | ..]; intros x; rewrite Hm; auto. Qed.

Lemma next_block_owns h lb l num len now m r m' : owns h (Some (lb, l)) m -> next_block l num len now m = Some (r, m') ->
  owns h (Some (lb, default l r)) m'.
Proof.
  intros Ho Hnb. unfold next_block in Hnb. destruct (num <=? _); [by simplify_eq |].
  destruct (get l _) as [[x|]|] eqn:Hg; cbn in Hnb; [by simplify_eq | | done]. apply get_Some in Hg as [_ Hg].
  destruct (q_new_array 1 _ m) as [[b|] m2] eqn:Hnew; pose proof (q_new_array_spec _ _ _ _ _ Hnew) as Hs.
  - destruct Hs as [Hb Hm]. destruct (set l _ _) as [l2|] eqn:Hset; [| done]. cbn in Hnb. simplify_eq. apply set_Some in Hset as [_ ->].
    eapply (owns_new h (Some (lb, l)) _ b _ m _ Ho); [| done | exact Hm]. cbn. rewrite (omap_insert_None _ _ _ Hg). apply Permutation_swap.
  - simplify_eq. by apply (owns_same _ _ _ _ Ho).
Qed.

Lemma alloc_owns h n a m r a' m' : owns h (pBlockLibrary a) m -> alloc n a m = Some (r, a', m') -> owns h (pBlockLibrary a') m'.
Proof.
  intros Ho Hr. unfold alloc in Hr.
  destruct (match pBlockLibrary a with Some lib => _ | None => _ end) as [[[lib|] m1]|] eqn:Hlib; cbn [mbind option_bind] in Hr; [| | done].
  2: { simplify_eq. destruct (pBlockLibrary a'); [done |]. apply (owns_same _ _ _ _ Ho). by destruct (new_library_spec _ _ _ _ Hlib). }
  assert (Ho1 : owns h (Some lib) m1).
  { destruct (pBlockLibrary a) as [lib'|]; [by simplify_eq |]. destruct lib as [b l].
    destruct (new_library_spec _ _ _ _ Hlib) as (-> & Hb & Hm & _). eapply (owns_new h None _ b _ m m1 Ho); [| done | exact Hm].
    cbn. clear. by induction (Z.to_nat (mMaxBlockNum a)). }
  clear Hlib Ho. destruct lib as [lb l]. cbn [fst snd] in *.
  destruct (mMaxBlockLen a - mNowBlockLen a <? n); [| by simplify_option_eq].
  destruct (mMaxBlockLen a <? n); [by simplify_eq |]. destruct (next_block l _ _ _ m1) as [[r' m2]|] eqn:Hnb; [| done].
  pose proof (next_block_owns _ _ _ _ _ _ _ _ _ Ho1 Hnb) as Ho2. destruct r' as [l'|]; by simplify_option_eq.
Qed.

Lemma destroy_ok h a m : owns h (pBlockLibrary a) m -> exists m', destroy a m = Some m' /\ blocks m' = h.
Proof.
  intros [H1 H2 H3]. unfold destroy. destruct (pBlockLibrary a) as [[lb l]|]; cbn [owned] in *.
  2: { exists m. split; [done |]. apply map_eq. intros x. apply H3, not_elem_of_nil. }
  apply NoDup_cons in H1 as [Hlb Hnd]. destruct (delete_blocks_ok _ l m eq_refl Hnd) as (m1 & Hm1 & Hl1).
  { intros b Hb. apply H2. by right. }
  rewrite Hm1. cbn [mbind option_bind q_delete_array]. destruct (H2 lb) as [[n Hn] Hh]; [by left |].
  rewrite Hl1, decide_False, Hn by done. cbn. eexists. split; [done |]. apply map_eq. intros x. cbn.
  destruct (decide (x = lb)) as [->|Hne]; [by rewrite lookup_delete_eq |]. rewrite lookup_delete_ne, Hl1 by done.
  case_decide as Hx; [symmetry; apply H2; by right | apply H3]. by apply not_elem_of_cons.
Qed.

(** What [freeAllocator] leaves: the heap as it was before the first request,
    and an allocator that can be used again. *)
Lemma freeAllocator_heap num len m ops rs a m' live :
  run ops (construct num len) m [] = Some (rs, a, m', live) ->
  exists m'', freeAllocator a m' = Some (construct (mMaxBlockNum a) (mMaxBlockLen a), m'') /\ blocks m'' = blocks m.
Proof.
  intros Hrun. assert (Ho : owns (blocks m) (pBlockLibrary a) m').
  { assert (H0 : owns (blocks m) (pBlockLibrary (construct num len)) m)
      by (split; [constructor | by intros x ?%not_elem_of_nil | done]).
    revert H0 Hrun. generalize (construct num len) (@nil region) (blocks m). intros a0 live0 h. revert a0 m live0 rs.
    induction ops as [|[n|] ops IH]; intros a0 m0 live0 rs Ho; cbn [run]; [by intros [= <- <- <- <-] | |].
    - destruct (alloc n a0 m0) as [[[r a1] m1]|] eqn:Hr; [| done]. cbn. intros H. destruct (run ops a1 m1 _) as [[[[rs1 a2] m2] live2]|] eqn:H'; [| done].
      cbn in H. simplify_eq. apply (IH _ _ _ _ (alloc_owns _ _ _ _ _ _ _ Ho Hr) H').
    - apply IH. exact Ho. }
  destruct (destroy_ok _ _ _ Ho) as (m'' & H1 & H2). exists m''. unfold freeAllocator. by rewrite H1.
Qed.

(** ** Alone on the heap *)

(** Blocks are numbered without gaps as long as none is deleted. *)
Definition dense (m : Mem) : Prop := forall b, is_Some (blocks m !! b) -> (b < size (blocks m))%nat.

Lemma fresh_bound (X : gset nat) k : (forall b, b ∈ X -> (b < k)%nat) -> (fresh X <= k)%nat.
Proof.
  intros H. change (fresh X) with (foldr (Nat.max ∘ S) 0%nat (elements X)). assert (Hl : forall b, b ∈ elements X -> (b < k)%nat) by (intros b Hb; apply H; by apply elem_of_elements).
  revert Hl. generalize (elements X). intros l. induction l as [|x l IH]; intros Hl; cbn; [lia |].
  apply Nat.max_lub; [apply (Hl x); by left | apply IH; intros b Hb; apply Hl; by right].
Qed.

Lemma q_new_array_dense w sz m r m' : q_new_array w sz m = (r, m') -> dense m -> dense m'.
Proof.
  unfold q_new_array. destruct (default true _); intros [= <- <-] Hd; [| done]. intros b Hb. cbn [blocks] in *.
  rewrite map_size_insert_None by apply not_elem_of_dom, is_fresh. apply lookup_insert_is_Some in Hb as [<-|[_ Hb]].
  - apply le_n_S, fresh_bound. intros b Hb. apply Hd. by apply elem_of_dom.
  - specialize (Hd b Hb). lia.
Qed.

Lemma alloc_dense n a m r a' m' : alloc n a m = Some (r, a', m') -> dense m -> dense m'.
Proof.
  intros Hr Hd. unfold alloc in Hr.
  destruct (match pBlockLibrary a with Some lib => _ | None => _ end) as [[lib m1]|] eqn:Hlib; cbn [mbind option_bind] in Hr; [| done].
  assert (Hd1 : dense m1).
  { destruct (pBlockLibrary a); [by simplify_eq |]. unfold new_library in Hlib. destruct (q_new_array 8 _ m) as [b m2] eqn:E.
    apply (q_new_array_dense _ _ _ _ _ E) in Hd. destruct b; [destruct (_ =? _); [| done] |]; by simplify_eq. }
  destruct lib as [lib|]; [| by simplify_eq].
  destruct (_ <? n); [| by simplify_option_eq]. destruct (_ <? n); [by simplify_eq |].
  destruct (next_block _ _ _ _ m1) as [[r' m2]|] eqn:Hnb; [| done].
  assert (Hd2 : dense m2); [| destruct r'; by simplify_option_eq].
  unfold next_block in Hnb. destruct (_ <=? _); [by simplify_eq |]. destruct (get _ _) as [[x|]|]; cbn in Hnb; [by simplify_eq | | done].
  destruct (q_new_array 1 _ m1) as [[b|] m3] eqn:E; [destruct (set _ _ _); [| done]; cbn in Hnb |]; simplify_eq; by apply (q_new_array_dense _ _ _ _ _ E).
Qed.

(** The number of a block of an allocator that owns the heap. *)
Lemma owned_bound a m live lb l (i : nat) b : inv a m live -> owns ∅ (pBlockLibrary a) m -> dense m -> pBlockLibrary a = Some (lb, l) ->
  l !! i = Some (Some b) -> Z.of_nat b < 1 + mMaxBlockNum a.
Proof.
  intros Hinv Ho Hd Hl Hb. pose proof (inv_lib _ _ _ Hinv) as Hlib. pose proof (inv_max _ _ _ Hinv) as [Hmax _]. rewrite Hl in Hlib, Ho. destruct Hlib as [[L1 L2 _ _] _].
  specialize (Hd b ltac:(rewrite (L2 i b Hb); eauto)). destruct Ho as [O1 O2 O3].
  assert (Hdom : dom (blocks m) = list_to_set (owned (Some (lb, l)))).
  { apply set_eq. intros x. rewrite elem_of_list_to_set, elem_of_dom. split; [| intros Hx; by apply O2].
    intros Hx. destruct (decide (x ∈ owned (Some (lb, l)))) as [|Hn]; [done |]. rewrite (O3 x Hn), lookup_empty in Hx. by destruct Hx. }
  rewrite <- size_dom, Hdom, size_list_to_set in Hd by done. cbn in Hd.
  assert (Hlen : (length (omap id l) <= length l)%nat) by (clear; induction l as [|[x|] l IH]; cbn; lia). lia.
Qed.

(** ** The contract *)

(** C23. Whatever sequence of requests for at least one byte and resets is made
    of a [QAllocator], with fewer than 2^32 blocks of less than 4 GiB (both are
    given to [q_new_array] as 32-bit sizes), no call uses an index or a block
    that is not there.  The regions handed out since the last reset lie
    inside live blocks of the heap, no two of them share a byte, and
    [getAllocLength] is the sum of their lengths.  In the end a request of [n]
    bytes is refused exactly when [n] is longer than a block, or the last block
    has no room left, unless the system has no memory.  [freeAllocator] gives
    every block back, once, and the heap is as it was before the first call. *)
Theorem QAllocator_regions (maxBlockNum maxBlockLen : Z) (m : Mem) (ops : list op) :
  0 < maxBlockNum < 2 ^ 32 -> 0 < maxBlockLen < 2 ^ 32 -> maxBlockNum * maxBlockLen < 2 ^ 63 ->
  Forall (fun o => match o with Alloc n => 0 < n | Reset' => True end) ops ->
  exists rs a m' live, run ops (construct maxBlockNum maxBlockLen) m [] = Some (rs, a, m', live) /\
    (forall b o n, (b, o, n) ∈ live -> blocks m' !! b = Some maxBlockLen /\ 0 <= o /\ 0 < n /\ o + n <= maxBlockLen) /\
    (forall i j r r', live !! i = Some r -> live !! j = Some r' -> i <> j -> disjoint_regions r r') /\
    getAllocLength a = total live /\ total live <= maxBlockNum * maxBlockLen /\
    (forall n, 0 < n -> outcomes m' = [] ->
      exists r a' m'', alloc n a m' = Some (r, a', m'') /\
        (r = None <-> maxBlockLen < n \/ (mNowBlockNum a + 1 = maxBlockNum /\ maxBlockLen - mNowBlockLen a < n))) /\
    (exists m'', freeAllocator a m' = Some (construct maxBlockNum maxBlockLen, m'') /\ blocks m'' = blocks m).
Proof.
  intros Hn Hl Hp Hops. destruct (run_ok ops _ m [] (construct_inv _ _ m Hn Hl Hp) Hops) as (rs & a & m' & live & Hrun & [S1 S2] & Hinv).
  cbn in S1, S2. exists rs, a, m', live. split; [done |]. rewrite <- S1, <- S2. pose proof (inv_total _ _ _ Hinv) as [T1 T2].
  pose proof (inv_lib _ _ _ Hinv) as Hlib. split_and!.
  - intros b o n Hin. destruct (pBlockLibrary a) as [[lb l]|]; [| destruct Hlib as [_ ->]; by apply not_elem_of_nil in Hin].
    destruct Hlib as [HL HP]. rewrite Forall_forall in HP. destruct (HP _ Hin) as (i & G1 & _ & G3 & G4 & G5).
    split; [by apply (lib_block _ _ _ _ _ HL i) |]. pose proof (inv_len _ _ _ Hinv). case_decide; lia.
  - intros i j r r'. apply ForallOrdPairs_lookup; [| apply (inv_disjoint _ _ _ Hinv)].
    intros [[b o] k] [[b' o'] k']. unfold disjoint_regions. naive_solver.
  - done.
  - pose proof (inv_now _ _ _ Hinv). pose proof (inv_len _ _ _ Hinv). pose proof (inv_max _ _ _ Hinv). nia.
  - intros n Hn' Ho. destruct (alloc_ok n a m' live Hinv Hn') as (r & a' & m2 & Hr & _ & Hres). exists r, a', m2. split; [done |]. split.
    + intros ->. destruct Hres as [_ [?|[?|Hf]]]; [by left | right; lia | rewrite Ho in Hf; by apply not_elem_of_nil in Hf].
    + intros Hc. destruct (alloc_refuses n a m' live Hinv Hn') as (a2 & m3 & Hr2); [naive_solver lia |]. congruence.
  - by apply (freeAllocator_heap _ _ _ _ _ _ _ _ Hrun).
Qed.

Lemma QAllocator_regions_witness :
  exists rs a m' live, run [Alloc 60; Alloc 50; Reset'; Alloc 70; Alloc 30; Alloc 1; Alloc 200] (construct 2 100) (mkMem ∅ []) [] = Some (rs, a, m', live) /\
    (forall b o n, (b, o, n) ∈ live -> blocks m' !! b = Some 100 /\ 0 <= o /\ 0 < n /\ o + n <= 100) /\
    (forall i j r r', live !! i = Some r -> live !! j = Some r' -> i <> j -> disjoint_regions r r') /\
    getAllocLength a = total live /\ total live <= 2 * 100 /\
    (forall n, 0 < n -> outcomes m' = [] ->
      exists r a' m'', alloc n a m' = Some (r, a', m'') /\
        (r = None <-> 100 < n \/ (mNowBlockNum a + 1 = 2 /\ 100 - mNowBlockLen a < n))) /\
    (exists m'', freeAllocator a m' = Some (construct 2 100, m'') /\ blocks m'' = ∅).
Proof. apply (QAllocator_regions 2 100 (mkMem ∅ [])); [lia.. |]. repeat apply Forall_cons_2; try apply Forall_nil_2; lia. Defined.

(** A request of no bytes before any other takes its address from entry -1 of the library. *)
Example alloc_0_out_of_range : alloc 0 (construct 2 100) (mkMem ∅ []) = None.
Proof. vm_compute. reflexivity. Qed.

(** The size of a block is converted to 32 bits: a block of 4 GiB and 16 bytes has 16. *)
Example block_length_wraps :
  ('(r, _, m) ← alloc 100 (construct 2 (2 ^ 32 + 16)) (mkMem ∅ []); '(b, o) ← r; n ← blocks m !! b; Some (o, n)) = Some (0, 16).
Proof. vm_compute. reflexivity. Qed.

(** So is the number of blocks: with 2^32 + 1 of them the library has one entry,
    and [memset] writes past it. *)
Example library_length_wraps : alloc 100 (construct (2 ^ 32 + 1) 1000) (mkMem ∅ []) = None.
Proof. vm_compute. reflexivity. Qed.

End Allocator.
