(* ===== verification/PoolAllocator.v ===== *)
(** * Memory pool: QPoolAllocator of src/include/common/qallocator.h and qallocator.cc

    [QPoolAllocator] hands out chunks of one size.  A chunk starts with a word of
    its own, which links the chunks that were given back; the caller gets the
    bytes after it.  Library, blocks and heap are those of [Allocator]; the
    words in front of the chunks are a map from addresses. *)

From stdpp Require Import gmap.
From S2P Require Import Prelude Arrays Allocator.
Import Arrays Mem Allocator.

Module PoolAllocator.

Record QPoolAllocator : Type := mkPool {
  pBlockLibrary : option (nat * list (option nat));
  pRecycleLibrary : option addr;
  mMutex : bool;
  mMaxChunkNum : Z;
  mNowChunkNum : Z;
  mMaxBlockLen : Z;
  mNowBlockLen : Z;
  mChunkSize : Z;
  mMaxBlockNum : Z;
  mNowBlockNum : Z;
  mRecycleNum : Z;
  mAllocNum : Z
}.

(** [QPoolAllocator()]; the mutex is free. *)
Definition construct : QPoolAllocator := mkPool None None false 0 (-1) 0 (-1) 0 0 (-1) 0 0.

(** The heap and the words in front of the chunks. *)
Record Memory : Type := mkMemory { mem : Mem; words : gmap addr (option addr) }.

Definition init (lChunkSize lMaxBlockNum lChunkNumPerBlock : Z) (a : QPoolAllocator) (w : Memory) : option (Z * QPoolAllocator * Memory) :=
  if (lChunkSize <=? 0) || (lMaxBlockNum <=? 0) || (lChunkNumPerBlock <=? 0) then Some (-1, a, w)
  else
    let chunk := i64 (lChunkSize + 8) in
    '(lib, m) ← new_library lMaxBlockNum (mem w);
    Some (match lib with Some _ => 0 | None => -2 end,
      mkPool lib None (mMutex a) lChunkNumPerBlock (-1) (i64 (lChunkNumPerBlock * chunk)) 0 chunk lMaxBlockNum (-1) 0 0,
      mkMemory m (words w)).

(** [mMutex.lock()] by the thread that holds it never returns. *)
Definition lock (a : QPoolAllocator) : option unit := if mMutex a then None else Some ().

(** The state of an unlocked pool after a change of what the operations change. *)
Definition change (lib : option (nat * list (option nat))) (recycle : option addr) (chunk len now rnum anum : Z) (a : QPoolAllocator) : QPoolAllocator :=
  mkPool lib recycle false (mMaxChunkNum a) chunk (mMaxBlockLen a) len (mChunkSize a) (mMaxBlockNum a) now rnum anum.

(** [sizeof(void* )] bytes after an address. *)
Definition after_word (p : addr) : addr := (fst p, snd p + 8).

Definition alloc (a : QPoolAllocator) (w : Memory) : option (option addr * QPoolAllocator * Memory) :=
  lock a ≫= fun _ =>
  match pRecycleLibrary a with
  | Some p =>
      next ← words w !! p;
      Some (Some (after_word p),
        change (pBlockLibrary a) next (mNowChunkNum a) (mNowBlockLen a) (mNowBlockNum a) (mRecycleNum a - 1) (mAllocNum a) a, w)
  | None =>
      let lib := from_option snd [] (pBlockLibrary a) in
      let cut l chunk len now m :=
        e ← get l now;
        b ← e;
        Some (Some (after_word (b, len)),
          change ((fun x => (fst x, l)) <$> pBlockLibrary a) None (chunk + 1) (i64 (len + mChunkSize a)) now (mRecycleNum a) (mAllocNum a + 1) a, mkMemory m (words w)) in
      if (mNowChunkNum a =? -1) || (mNowChunkNum a =? mMaxChunkNum a) then
        r ← next_block lib (mMaxBlockNum a) (mMaxBlockLen a) (mNowBlockNum a) (mem w);
        match r with
        | (Some l, m) => cut l 0 0 (mNowBlockNum a + 1) m
        | (None, m) => Some (None, a, mkMemory m (words w))
        end
      else cut lib (mNowChunkNum a) (mNowBlockLen a) (mNowBlockNum a) (mem w)
  end.

Definition free (buffer : addr) (a : QPoolAllocator) (w : Memory) : option (QPoolAllocator * Memory) :=
  lock a ≫= fun _ =>
  let p := (fst buffer, snd buffer - 8) in
  Some (change (pBlockLibrary a) (Some p) (mNowChunkNum a) (mNowBlockLen a) (mNowBlockNum a) (mRecycleNum a + 1) (mAllocNum a) a,
        mkMemory (mem w) (<[p := pRecycleLibrary a]> (words w))).

Definition resetAllocator (a : QPoolAllocator) : option QPoolAllocator :=
  lock a ≫= fun _ => Some (change (pBlockLibrary a) None (mMaxChunkNum a) 0 (-1) 0 0 a).

(** [q_delete_array] sets the pointer it is given to null. *)
Definition freeAllocator (a : QPoolAllocator) (w : Memory) : option (QPoolAllocator * Memory) :=
  lock a ≫= fun _ =>
  m ← match pBlockLibrary a with
      | None => Some (mem w)
      | Some (b, l) => m ← delete_blocks l (mem w); q_delete_array (Some b) m
      end;
  Some (change None None (-1) 0 (-1) 0 0 a, mkMemory m (words w)).

(** [~QPoolAllocator] *)
Definition destroy (a : QPoolAllocator) (w : Memory) : option Memory :=
  m ← match pBlockLibrary a with
      | None => Some (mem w)
      | Some (b, l) => m ← delete_blocks l (mem w); q_delete_array (Some b) m
      end;
  Some (mkMemory m (words w)).

Abbreviation getChunkSize := mChunkSize (only parsing).

(** ** Chunks *)

(** The first [n] chunks of a block. *)
Definition chunks (size : Z) (b : nat) (n : nat) : list addr := (fun k => (b, Z.of_nat k * size)) <$> seq 0 n.

(** The chunks handed out since the last reset: all of the blocks before the
    current one, and [chunk] of the current one. *)
Definition handed (size : Z) (full : nat) (l : list (option nat)) (now : Z) (chunk : nat) : list addr :=
  concat ((fun b => chunks size b full) <$> omap id (take (Z.to_nat now) l)) ++
  (if 0 <=? now then match l !! Z.to_nat now with Some (Some b) => chunks size b chunk | _ => [] end else []).

Lemma chunks_S size b n : chunks size b (S n) = chunks size b n ++ [(b, Z.of_nat n * size)].
Proof. unfold chunks. by rewrite seq_S, fmap_app. Qed.

Lemma elem_of_chunks size b n p : p ∈ chunks size b n <-> exists k : nat, (k < n)%nat /\ p = (b, Z.of_nat k * size).
Proof. unfold chunks. rewrite list_elem_of_fmap. setoid_rewrite elem_of_seq. naive_solver lia. Qed.

Lemma NoDup_chunks size b n : 0 < size -> NoDup (chunks size b n).
Proof. intros Hs. apply NoDup_fmap_2_strong; [| apply NoDup_seq]. intros x y _ _ [= H]. nia. Qed.

(** One more chunk of the current block. *)
Lemma handed_next size full l now chunk b : 0 <= now -> l !! Z.to_nat now = Some (Some b) ->
  handed size full l now (S chunk) = handed size full l now chunk ++ [(b, Z.of_nat chunk * size)].
Proof.
  intros Hn Hb. unfold handed. rewrite (proj2 (Z.leb_le _ _) Hn), Hb. by rewrite chunks_S, app_assoc.
Qed.

(** The next block, after a full one. *)
Lemma handed_block size full l now : -1 <= now -> (0 <= now -> exists b, l !! Z.to_nat now = Some (Some b)) ->
  handed size full l (now + 1) 0 = handed size full l now full.
Proof.
  intros Hn Hb. unfold handed at 1. rewrite (proj2 (Z.leb_le 0 (now + 1))) by lia.
  replace (match _ with Some (Some b) => _ | _ => _ end) with (@nil addr) by (by destruct (l !! Z.to_nat (now + 1)) as [[]|]).
  rewrite app_nil_r.
  destruct (decide (0 <= now)) as [Hnow|]; [| unfold handed; replace now with (-1) by lia; done].
  destruct (Hb Hnow) as [b Hb']. replace (Z.to_nat (now + 1)) with (S (Z.to_nat now)) by lia.
  unfold handed. rewrite (take_S_r _ _ _ Hb'), omap_app, fmap_app, concat_app, (proj2 (Z.leb_le _ _) Hnow), Hb'. cbn. by rewrite app_nil_r.
Qed.

Lemma handed_app size full l l' now chunk : (forall (i : nat) b, l !! i = Some (Some b) -> l' !! i = Some (Some b)) ->
  (forall i : nat, Z.of_nat i <= now -> exists b, l !! i = Some (Some b)) ->
  handed size full l' now chunk = handed size full l now chunk.
Proof.
  intros Hsub Hused. unfold handed. f_equal.
  - do 3 f_equal. apply list_eq. intros i. destruct (decide (i < Z.to_nat now)%nat) as [Hi|Hi]; [| by rewrite !lookup_take_ge by lia].
    rewrite !lookup_take_lt by done. destruct (Hused i) as [b Hb]; [lia |]. by rewrite Hb, (Hsub _ _ Hb).
  - destruct (Z.leb_spec 0 now); [| done]. destruct (Hused (Z.to_nat now)) as [b Hb]; [lia |]. by rewrite Hb, (Hsub _ _ Hb).
Qed.

Lemma elem_of_handed size full l now chunk p : p ∈ handed size full l now chunk ->
  exists (i k : nat) b, l !! i = Some (Some b) /\ Z.of_nat i <= now /\ p = (b, Z.of_nat k * size) /\
    (k < (if decide (Z.of_nat i = now) then chunk else full))%nat.
Proof.
  unfold handed. rewrite elem_of_app. intros [H|H].
  - apply list_elem_of_In, in_concat in H as (ps & Hps & Hp). apply list_elem_of_In in Hps, Hp. apply list_elem_of_fmap in Hps as (b & -> & Hb).
    apply list_elem_of_omap in Hb as (e & He & Hid). apply elem_of_take in He as (i & Hi & Hlt).
    destruct e as [b'|]; [| done]. cbn in Hid. injection Hid as ->. apply elem_of_chunks in Hp as (k & Hk & ->).
    exists i, k, b. rewrite decide_False by lia. repeat split; (done || lia).
  - destruct (Z.leb_spec 0 now); [| by apply not_elem_of_nil in H]. destruct (l !! Z.to_nat now) as [[b|]|] eqn:Hb; cbn in H;
      [| by apply not_elem_of_nil in H..].
    apply elem_of_chunks in H as (k & Hk & ->). exists (Z.to_nat now), k, b. rewrite decide_True by lia. repeat split; (done || lia).
Qed.

Lemma length_handed_chunk size full l now chunk b : 0 <= now -> l !! Z.to_nat now = Some (Some b) ->
  length (handed size full l now chunk) = (length (handed size full l now 0) + chunk)%nat.
Proof.
  intros Hn Hb. induction chunk as [|c IH]; [lia |]. rewrite (handed_next _ _ _ _ _ b) by done. rewrite length_app, IH. cbn. lia.
Qed.

Lemma length_handed size full l (n chunk : nat) : (forall i : nat, (i <= n)%nat -> exists b, l !! i = Some (Some b)) ->
  length (handed size full l (Z.of_nat n) chunk) = (n * full + chunk)%nat.
Proof.
  intros Hu. destruct (Hu n ltac:(lia)) as [b Hb]. rewrite <- (Nat2Z.id n) in Hb. rewrite (length_handed_chunk _ _ _ _ _ b) by (done || lia).
  f_equal. clear Hb. induction n as [|n IH]; [unfold handed; by destruct l as [|[]] |].
  replace (Z.of_nat (S n)) with (Z.of_nat n + 1) by lia. rewrite handed_block; [| lia | intros _; rewrite Nat2Z.id; apply Hu; lia].
  destruct (Hu n ltac:(lia)) as [b' Hb]. rewrite <- (Nat2Z.id n) in Hb. rewrite (length_handed_chunk _ _ _ _ _ b') by (done || lia).
  rewrite IH; [lia |]. intros i Hi. apply Hu. lia.
Qed.

Lemma NoDup_handed size full l now chunk : 0 < size -> -1 <= now -> (chunk <= full)%nat ->
  (forall i : nat, Z.of_nat i <= now -> exists b, l !! i = Some (Some b)) ->
  (forall (i j : nat) b, l !! i = Some (Some b) -> l !! j = Some (Some b) -> i = j) ->
  NoDup (handed size full l now chunk).
Proof.
  intros Hs Hn. replace now with (Z.of_nat (Z.to_nat (now + 1)) - 1) by lia. generalize (Z.to_nat (now + 1)). clear now Hn.
  intros n Hc Hu Hinj. revert chunk Hc. induction n as [|n IH]; intros chunk Hc.
  { unfold handed. cbn. by apply NoDup_nil. }
  replace (Z.of_nat (S n) - 1) with (Z.of_nat n) in * by lia. induction chunk as [|c IHc].
  - replace (Z.of_nat n) with (Z.of_nat n - 1 + 1) by lia. rewrite handed_block; [apply IH; [intros i Hi; apply Hu; lia | lia] | lia |].
    intros _. apply Hu. lia.
  - destruct (Hu n ltac:(lia)) as [b Hb]. rewrite (handed_next _ _ _ _ _ b) by (rewrite ?Nat2Z.id; (done || lia)).
    apply NoDup_app. split; [apply IHc; lia |]. split; [| apply NoDup_singleton]. intros p Hp ->%list_elem_of_singleton.
    apply elem_of_handed in Hp as (i & k & b' & Hb' & Hi & [= -> Hk] & Hlt). pose proof (Hinj _ _ _ Hb' Hb) as ->.
    rewrite decide_True in Hlt by done. nia.
Qed.

(** ** The invariant *)

Fixpoint chain (ws : gmap addr (option addr)) (p : option addr) (r : list addr) : Prop :=
  match r with
  | [] => p = None
  | h :: r => p = Some h /\ exists next, ws !! h = Some next /\ chain ws next r
  end.

Lemma chain_insert ws p r h x : chain ws p r -> h ∉ r -> chain (<[h := x]> ws) p r.
Proof.
  revert p. induction r as [|h' r IH]; intros p; [done |]. cbn. intros (-> & next & Hn & Hc) [Hne Hr]%not_elem_of_cons.
  split; [done |]. exists next. rewrite lookup_insert_ne by done. auto.
Qed.

(** Where the next chunk comes from. *)
Definition counters_ok (a : QPoolAllocator) : Prop :=
  (mNowBlockNum a = -1 /\ (mNowChunkNum a = -1 \/ mNowChunkNum a = mMaxChunkNum a)) \/
  (0 <= mNowBlockNum a /\ 0 <= mNowChunkNum a <= mMaxChunkNum a /\ mNowBlockLen a = mNowChunkNum a * mChunkSize a).

(** Every chunk that was handed out is in use ([live], by the address of its
    word) or on the list of those given back. *)
Definition accounts (a : QPoolAllocator) (w : Memory) (l : list (option nat)) (live : list addr) : Prop :=
  exists r, chain (words w) (pRecycleLibrary a) r /\
    r ++ live ≡ₚ handed (mChunkSize a) (Z.to_nat (mMaxChunkNum a)) l (mNowBlockNum a) (Z.to_nat (mNowChunkNum a)) /\
    mRecycleNum a = Z.of_nat (length r) /\ mAllocNum a = Z.of_nat (length r + length live).

Record inv (a : QPoolAllocator) (w : Memory) (live : list addr) : Prop := mkInv {
  inv_sizes : 8 < mChunkSize a /\ 0 < mMaxBlockNum a /\ 0 < mMaxChunkNum a /\ mMaxBlockLen a = mMaxChunkNum a * mChunkSize a /\ mMaxBlockLen a < 2 ^ 32;
  inv_now : -1 <= mNowBlockNum a < mMaxBlockNum a;
  inv_mutex : mMutex a = false;
  inv_counters : counters_ok a;
  inv_lib : exists lb l, pBlockLibrary a = Some (lb, l) /\ library_ok (mMaxBlockNum a) (mMaxBlockLen a) (mNowBlockNum a) (mem w) l /\
    accounts a w l live
}.

Lemma pool_init_inv size num per a w : mMutex a = false -> 0 < size -> 0 < num < 2 ^ 32 -> 0 < per -> per * (size + 8) < 2 ^ 32 -> is_i32 size ->
  exists r a' w', init size num per a w = Some (r, a', w') /\ ((r = 0 /\ inv a' w' [] /\ mChunkSize a' = size + 8 /\ mMaxBlockNum a' = num /\ mMaxChunkNum a' = per) \/
    (r = -2 /\ false ∈ outcomes (mem w))).
Proof.
  intros Hm Hs Hn Hp Hl Hi. unfold init. rewrite !(proj2 (Z.leb_gt _ 0)) by lia. cbn [orb].
  unfold is_i32, INT32_MAX in Hi. rewrite (i64_pos (size + 8)), (i64_pos (per * (size + 8))) by nia.
  destruct (new_library_Some num (mem w)) as [[lib m] Hnew]; [lia |]. rewrite Hnew. pose proof (new_library_spec _ _ _ _ Hnew) as Hlib.
  cbn [mbind option_bind]. do 3 eexists. split; [done |]. destruct lib as [[b l]|].
  - left. split; [done |]. split; [| done]. destruct Hlib as [-> _]. split; cbn; try lia; [done | left; cbn; lia |].
    do 2 eexists. split; [done |]. split; [apply new_library_ok |]. exists []. done.
  - right. split; [done |]. destruct Hlib as [_ [o ->]]. by left.
Qed.

(** A pool that is ready has a library of fewer than 2^32 entries. *)
Lemma init_limits size num per a w a' w' : init size num per a w = Some (0, a', w') -> 0 < num < 2 ^ 32 /\ 0 < per.
Proof.
  unfold init. destruct (Z.leb_spec num 0), (Z.leb_spec per 0); rewrite ?orb_true_r; try (intros; discriminate).
  destruct (size <=? 0); cbn [orb]; [intros; discriminate |].
  unfold new_library. destruct (q_new_array 8 num (mem w)) as [[b|] m]; [| intros; discriminate].
  destruct (Z.eqb_spec (u32 num) num) as [Hu|]; [| intros; discriminate]. intros _. unfold u32 in Hu.
  pose proof (Z.mod_pos_bound num (2 ^ 32) ltac:(lia)). lia.
Qed.

Definition same_sizes (a a' : QPoolAllocator) : Prop :=
  mChunkSize a' = mChunkSize a /\ mMaxBlockNum a' = mMaxBlockNum a /\ mMaxChunkNum a' = mMaxChunkNum a.

(** A chunk that was given back. *)
Lemma recycled_inv a w live p next r : inv a w live -> words w !! p = Some next -> chain (words w) next r ->
  (forall lb l, pBlockLibrary a = Some (lb, l) ->
    (p :: r) ++ live ≡ₚ handed (mChunkSize a) (Z.to_nat (mMaxChunkNum a)) l (mNowBlockNum a) (Z.to_nat (mNowChunkNum a))) ->
  mRecycleNum a = Z.of_nat (S (length r)) -> mAllocNum a = Z.of_nat (S (length r) + length live) ->
  inv (change (pBlockLibrary a) next (mNowChunkNum a) (mNowBlockLen a) (mNowBlockNum a) (mRecycleNum a - 1) (mAllocNum a) a) w (p :: live).
Proof.
  intros [H1 H2 H3 H4 (lb & l & Hl & HL & _)] Hp Hc Hperm Hr Ha. split; try done. exists lb, l. split; [done |]. split; [done |].
  exists r. cbn. split; [done |]. split; [rewrite <- (Hperm _ _ Hl); symmetry; apply Permutation_middle |]. split; lia.
Qed.

(** The next chunk of the current block. *)
Lemma fresh_inv a w live lb l chunk now b m' : 8 < mChunkSize a -> 0 < mMaxBlockNum a -> 0 < mMaxChunkNum a ->
  mMaxBlockLen a = mMaxChunkNum a * mChunkSize a -> mMaxBlockLen a < 2 ^ 32 ->
  0 <= now < mMaxBlockNum a -> 0 <= chunk < mMaxChunkNum a -> library_ok (mMaxBlockNum a) (mMaxBlockLen a) now m' l -> l !! Z.to_nat now = Some (Some b) ->
  live ≡ₚ handed (mChunkSize a) (Z.to_nat (mMaxChunkNum a)) l now (Z.to_nat chunk) -> mRecycleNum a = 0 -> mAllocNum a = Z.of_nat (length live) ->
  inv (change (Some (lb, l)) None (chunk + 1) (i64 (chunk * mChunkSize a + mChunkSize a)) now (mRecycleNum a) (mAllocNum a + 1) a)
    (mkMemory m' (words w)) ((b, chunk * mChunkSize a) :: live).
Proof.
  intros Hs Hn Hm Hl Hw Hnow Hc HL Hb Hperm Hr Ha.
  assert (Hi : i64 (chunk * mChunkSize a + mChunkSize a) = (chunk + 1) * mChunkSize a).
  { rewrite i64_pos by nia. lia. }
  rewrite Hi. split; cbn; try done; [lia | right; cbn; lia |]. exists lb, l. split; [done |]. split; [done |].
  exists []. cbn. split; [done |]. split; [| lia]. replace (Z.to_nat (chunk + 1)) with (S (Z.to_nat chunk)) by lia.
  rewrite (handed_next _ _ _ _ _ b) by (done || lia). rewrite Z2Nat.id by lia. rewrite Hperm. apply Permutation_cons_append.
Qed.

Lemma inv_memory a w live m' ws : inv a w live -> ws = words w ->
  (forall lb l, pBlockLibrary a = Some (lb, l) -> library_ok (mMaxBlockNum a) (mMaxBlockLen a) (mNowBlockNum a) m' l) ->
  inv a (mkMemory m' ws) live.
Proof.
  intros [H1 H2 H3 H4 (lb & l & Hl & HL & Hacc)] -> HL'. split; try done. exists lb, l. split; [done |]. split; [by apply (HL' lb) | done].
Qed.

(** A refused request: no chunk is left, or the system has no memory. *)
Definition refused (a : QPoolAllocator) (w : Memory) (live : list addr) : Prop :=
  Z.of_nat (length live) = mMaxBlockNum a * mMaxChunkNum a \/ false ∈ outcomes (mem w).

Lemma pool_alloc_ok a w live : inv a w live ->
  exists r a' w', alloc a w = Some (r, a', w') /\ same_sizes a a' /\
    match r with Some p => exists h, p = after_word h /\ inv a' w' (h :: live) | None => inv a' w' live /\ refused a w live end.
Proof.
  intros Hinv. pose proof Hinv as [(H1 & H1a & H1b & H1c & H1d) H2 H3 H4 (lb & l & Hl & HL & r & Hc & Hperm & Hr & Ha)].
  unfold alloc, lock. rewrite H3. cbn [mbind option_bind]. destruct r as [|h r]; cbn [chain] in Hc.
  - rewrite Hc, Hl. cbn [from_option snd fmap option_fmap option_map fst]. cbn [app length] in Hperm, Hr, Ha.
    destruct (_ || _) eqn:Hnew.
    + apply orb_prop in Hnew. rewrite !Z.eqb_eq in Hnew.
      assert (Hfull : handed (mChunkSize a) (Z.to_nat (mMaxChunkNum a)) l (mNowBlockNum a) (Z.to_nat (mNowChunkNum a)) =
        handed (mChunkSize a) (Z.to_nat (mMaxChunkNum a)) l (mNowBlockNum a) (Z.to_nat (mMaxChunkNum a))).
      { destruct H4 as [[-> _]|(? & ? & ?)]; [done |]. do 2 f_equal. lia. }
      destruct (next_block_lib _ _ _ _ _ HL) as (res & m' & Hres & Hspec); [lia | nia |]. rewrite Hres. cbn [mbind option_bind]. destruct res as [l'|].
      * destruct Hspec as (Hlt & HL' & Hsub). destruct (lib_used _ _ _ _ _ HL' (Z.to_nat (mNowBlockNum a + 1))) as [b Hb]; [lia |].
        unfold get. rewrite (proj2 (Z.leb_le _ _)), Hb by lia. cbn [mbind option_bind]. do 3 eexists. split; [done |]. split; [done |].
        exists (b, 0). split; [done |]. apply (fresh_inv a w live lb l' 0); try done; try lia.
        change (Z.to_nat 0) with 0%nat. rewrite handed_block; [| lia | intros Hz; apply (lib_used _ _ _ _ _ HL'); lia].
        rewrite (handed_app _ _ l l') by (done || apply HL). by rewrite <- Hfull.
      * destruct Hspec as [HL' Hwhy]. do 3 eexists. split; [done |]. split; [done |]. split.
        { apply (inv_memory a w); [done | done |]. intros lb0 l0 Hl0. rewrite Hl in Hl0. by injection Hl0 as <- <-. }
        destruct Hwhy as [Heq|[o Ho]]; [left | right; rewrite Ho; by left].
        rewrite Hperm, Hfull. rewrite <- (Z2Nat.id (mNowBlockNum a)) by lia. rewrite length_handed; [nia |]. intros i Hi. apply HL. lia.
    + apply orb_false_elim in Hnew as [N1%Z.eqb_neq N2%Z.eqb_neq]. destruct H4 as [[_ [?|?]]|(Hn & Hch & Hlen)]; [done | done |].
      destruct (lib_used _ _ _ _ _ HL (Z.to_nat (mNowBlockNum a))) as [b Hb]; [lia |].
      unfold get. rewrite (proj2 (Z.leb_le _ _)), Hb by lia. cbn [mbind option_bind]. do 3 eexists. split; [done |]. split; [done |].
      exists (b, mNowBlockLen a). split; [done |]. rewrite Hlen. apply (fresh_inv a w live lb l); (done || lia).
  - destruct Hc as (Hrec & next & Hn & Hc). rewrite Hrec, Hn. cbn [mbind option_bind]. do 3 eexists. split; [done |]. split; [done |].
    exists h. split; [done |]. apply (recycled_inv a w live h next r); try done. intros lb0 l0 Hl0. rewrite Hl in Hl0. by injection Hl0 as <- <-.
Qed.

Lemma free_ok a w live h live' : inv a w live -> live ≡ₚ h :: live' ->
  exists a' w', free (after_word h) a w = Some (a', w') /\ same_sizes a a' /\ inv a' w' live'.
Proof.
  intros [(H1 & H1a & H1b & H1c & H1d) H2 H3 H4 (lb & l & Hl & HL & r & Hc & Hperm & Hr & Ha)] Hlive.
  unfold free, lock, after_word. rewrite H3. cbn [mbind option_bind fst snd]. replace (snd h + 8 - 8) with (snd h) by lia.
  rewrite <- surjective_pairing. do 2 eexists. split; [done |]. split; [done |].
  assert (Hnr : h ∉ r).
  { assert (Hnd : NoDup (r ++ live)).
    { rewrite Hperm. apply NoDup_handed; [lia | lia | | apply HL | apply HL]. destruct H4 as [[_ [?|?]]|(? & ? & ?)]; lia. }
    rewrite Hlive in Hnd. apply NoDup_app in Hnd as (_ & Hd & _). intros Hin. apply (Hd h Hin). by left. }
  split; try done. exists lb, l. split; [done |]. split; [done |]. exists (h :: r). cbn. split; [| split].
  - split; [done |]. exists (pRecycleLibrary a). rewrite lookup_insert_eq. split; [done |]. by apply chain_insert.
  - rewrite <- Hperm, Hlive. by rewrite Permutation_middle.
  - rewrite Hlive in Ha. cbn in Ha. lia.
Qed.

Lemma pool_reset_inv a w live : inv a w live -> exists a', resetAllocator a = Some a' /\ same_sizes a a' /\ inv a' w [].
Proof.
  intros [(H1 & H1a & H1b & H1c & H1d) H2 H3 H4 (lb & l & Hl & [L1 L2 L3 L4] & _)]. unfold resetAllocator, lock. rewrite H3. cbn [mbind option_bind].
  eexists. split; [done |]. split; [done |]. split; cbn; try done; [lia | left; cbn; auto |]. exists lb, l. split; [done |].
  split; [split; (done || lia) |]. by exists [].
Qed.

(** ** What users rely on *)

#[export] Instance QPoolAllocator_Allocator : Allocator (QPoolAllocator * Memory) := {
  request n x := '(r, a, w) ← alloc (fst x) (snd x); Some (r, (a, w));
  reset x := a ← resetAllocator (fst x); Some (a, snd x)
}.

#[export] Instance QPoolAllocator_Recycler : Recycler (QPoolAllocator * Memory) :=
  fun p x => free p (fst x) (snd x).

Lemma NoDup_live a w live : inv a w live -> NoDup live.
Proof.
  intros [(H1 & _) H2 _ H4 (lb & l & _ & HL & r & _ & Hperm & _)]. apply (NoDup_app r). rewrite Hperm.
  apply NoDup_handed; [lia | lia | | apply HL | apply HL]. destruct H4 as [[_ [?|?]]|(? & ? & ?)]; lia.
Qed.

#[global] Instance after_word_inj : Inj (=) (=) after_word.
Proof. intros [b o] [b' o'] [= -> H]. f_equal. lia. Qed.

(** A request fits in a chunk. *)
#[export, refine] Instance QPoolAllocator_laws : AllocatorLaws (QPoolAllocator * Memory) := {
  held l x := exists live, inv (fst x) (snd x) live /\ l = list_to_set (after_word <$> live);
  serves n x := 0 < n <= mChunkSize (fst x) - 8
}.
Proof.
  - intros l n [a w] (live & Hinv & ->) Hn. cbn [fst snd] in *. destruct (pool_alloc_ok a w live Hinv) as (r & a' & w' & Hr & [Hs _] & Hres).
    exists r, (a', w'). cbn. rewrite Hr, Hs. split; [done |]. split; [done |]. destruct r as [p|]; [| exists live; by destruct Hres].
    destruct Hres as (h & -> & Hinv'). split; [| by exists (h :: live)]. pose proof (NoDup_live _ _ _ Hinv') as [Hnh _]%NoDup_cons.
    rewrite elem_of_list_to_set, list_elem_of_fmap. by intros (h' & <-%(inj after_word) & Hin).
  - intros l [a w] (live & Hinv & ->). destruct (pool_reset_inv a w live Hinv) as (a' & Ha & [Hs _] & Hinv'). exists (a', w). cbn. rewrite Ha, Hs.
    split; [done |]. split; [by exists [] | done].
Defined.

#[export] Instance QPoolAllocator_recycler_laws : RecyclerLaws (QPoolAllocator * Memory).
Proof.
  intros l p [a w] (live & Hinv & ->) Hp. rewrite elem_of_list_to_set in Hp. apply list_elem_of_fmap in Hp as (h & -> & Hh).
  apply elem_of_Permutation in Hh as [live' Hlive]. destruct (free_ok a w live h live' Hinv Hlive) as (a' & w' & Hf & [Hs _] & Hinv').
  exists (a', w'). cbn [fst snd] in *. unfold recycle, QPoolAllocator_Recycler. cbn [fst snd]. split; [done |]. cbn. rewrite Hs. split; [| done].
  exists live'. split; [done |]. pose proof (NoDup_live _ _ _ Hinv) as Hnd. rewrite Hlive in Hnd. apply NoDup_cons in Hnd as [Hn _].
  apply set_eq. intros x. rewrite elem_of_difference, !elem_of_list_to_set, elem_of_singleton, Hlive, fmap_cons, elem_of_cons.
  split; [naive_solver |]. intros Hx. split; [by right |]. intros ->. apply list_elem_of_fmap in Hx as (h' & Heq & Hin).
  apply (inj after_word) in Heq as ->. done.
Qed.

(** ** Sequences of calls *)

(** A request, giving back one of the chunks in use, a reset. *)
Inductive op : Type := Alloc | Free (i : nat) | Reset'.

Fixpoint run (ops : list op) (a : QPoolAllocator) (w : Memory) (live : list addr) : option (list (option addr) * QPoolAllocator * Memory * list addr) :=
  match ops with
  | [] => Some ([], a, w, live)
  | Alloc :: ops =>
      '(r, a, w) ← alloc a w;
      '(rs, a, w, live) ← run ops a w (match r with Some p => p :: live | None => live end);
      Some (r :: rs, a, w, live)
  | Free i :: ops =>
      match live !! i with
      | Some p => '(a, w) ← free p a w; run ops a w (delete i live)
      | None => run ops a w live
      end
  | Reset' :: ops => a ← resetAllocator a; run ops a w []
  end.

Lemma pool_run_ok ops a w live : inv a w live ->
  exists rs a' w' live', run ops a w (after_word <$> live) = Some (rs, a', w', after_word <$> live') /\ same_sizes a a' /\ inv a' w' live'.
Proof.
  revert a w live. induction ops as [|[|i|] ops IH]; intros a w live Hinv; cbn [run].
  - by exists [], a, w, live.
  - destruct (pool_alloc_ok a w live Hinv) as (r & a1 & w1 & Hr & (S1 & S2 & S3) & Hres). rewrite Hr. cbn.
    assert (Hnext : exists live1, inv a1 w1 live1 /\ match r with Some p => p :: (after_word <$> live) | None => after_word <$> live end = after_word <$> live1).
    { destruct r as [p|]; [destruct Hres as (h & -> & Hi); by exists (h :: live) | destruct Hres as [Hi _]; by exists live]. }
    destruct Hnext as (live1 & Hinv1 & ->). destruct (IH _ _ _ Hinv1) as (rs & a2 & w2 & live2 & Hrun & (S4 & S5 & S6) & Hinv2).
    exists (r :: rs), a2, w2, live2. rewrite Hrun. cbn. split; [done |]. split; [split_and!; congruence | done].
  - rewrite list_lookup_fmap. destruct (live !! i) as [h|] eqn:Hh; cbn; [| by apply IH].
    destruct (free_ok a w live h (delete i live) Hinv (delete_Permutation _ _ _ Hh)) as (a1 & w1 & Hf & (S1 & S2 & S3) & Hinv1). rewrite Hf. cbn.
    rewrite <- list_fmap_delete. destruct (IH _ _ _ Hinv1) as (rs & a2 & w2 & live2 & Hrun & (S4 & S5 & S6) & Hinv2).
    exists rs, a2, w2, live2. split; [done |]. split; [split_and!; congruence | done].
  - destruct (pool_reset_inv a w live Hinv) as (a1 & Ha & (S1 & S2 & S3) & Hinv1). rewrite Ha. cbn.
    destruct (IH _ _ _ Hinv1) as (rs & a2 & w2 & live2 & Hrun & (S4 & S5 & S6) & Hinv2).
    exists rs, a2, w2, live2. split; [done |]. split; [split_and!; congruence | done].
Qed.

(** A chunk in use lies in its block, at a multiple of the chunk size. *)
Lemma live_placed a w live h : inv a w live -> h ∈ live ->
  exists k, blocks (mem w) !! fst h = Some (mMaxBlockLen a) /\ snd h = k * mChunkSize a /\ 0 <= k < mMaxChunkNum a.
Proof.
  intros [H1 H2 _ H4 (lb & l & _ & HL & r & _ & Hperm & _)] Hh.
  assert (Hin : h ∈ r ++ live) by (apply elem_of_app; by right). rewrite Hperm in Hin.
  apply elem_of_handed in Hin as (i & k & b & Hb & Hi & -> & Hk). exists (Z.of_nat k). split; [by apply (lib_block _ _ _ _ _ HL i) |]. split; [done |].
  destruct H4 as [[? ?]|(? & ? & ?)]; case_decide; lia.
Qed.

Lemma live_bound a w live : inv a w live -> Z.of_nat (length live) <= mMaxBlockNum a * mMaxChunkNum a.
Proof.
  intros [H1 H2 _ H4 (lb & l & _ & HL & r & _ & Hperm & _)].
  assert (Hle : (length live <= length (r ++ live))%nat) by (rewrite length_app; lia). rewrite Hperm in Hle.
  destruct H4 as [[Hn _]|(Hn & Hc & _)]; [rewrite Hn in Hle; change (handed _ _ l (-1) _) with (@nil addr) in Hle; cbn [length] in Hle; nia |].
  rewrite <- (Z2Nat.id (mNowBlockNum a)), length_handed in Hle by (lia || intros; apply HL; lia). nia.
Qed.

(** C24. Whatever sequence of requests, of chunks in use given back and of resets
    is made of a pool for pieces of [size] bytes that [init] has made ready (so
    of fewer than 2^32 blocks), with blocks of less than 4 GiB, no call uses an
    index, a block or a word that is not there, and every call unlocks the
    mutex.  The pieces in use are distinct, lie inside live blocks
    of the heap, and share no byte with each other or with the word of a chunk;
    the counters give their number.  The next request is refused exactly when
    all chunks of all blocks are in use, unless the system has no memory. *)
Theorem QPoolAllocator_chunks (size num per : Z) (w0 : Memory) (a : QPoolAllocator) (w : Memory) (ops : list op) :
  0 < size -> is_i32 size -> per * (size + 8) < 2 ^ 32 -> init size num per construct w0 = Some (0, a, w) ->
  exists rs a' w' live, run ops a w [] = Some (rs, a', w', live) /\ NoDup live /\ mMutex a' = false /\
    (forall b o, (b, o) ∈ live -> blocks (mem w') !! b = Some (per * (size + 8)) /\ 8 <= o /\ o + size <= per * (size + 8)) /\
    (forall b o o', (b, o) ∈ live -> (b, o') ∈ live -> o <> o' -> o + size <= o' - 8 \/ o' + size <= o - 8) /\
    mAllocNum a' - mRecycleNum a' = Z.of_nat (length live) /\
    exists r a'' w'', alloc a' w' = Some (r, a'', w'') /\
      (Z.of_nat (length live) = num * per -> r = None) /\
      (r = None -> Z.of_nat (length live) = num * per \/ false ∈ outcomes (mem w')).
Proof.
  intros Hs Hi Hl Hinit. assert (Hpos : 0 < num < 2 ^ 32 /\ 0 < per) by (by eapply init_limits).
  destruct (pool_init_inv size num per construct w0) as (r0 & a0 & w1 & Hi0 & Hcase); [done | lia.. | done |].
  rewrite Hinit in Hi0. simplify_eq. destruct Hcase as [(_ & Hinv & E1 & E2 & E3)|[? _]]; [| done].
  destruct (pool_run_ok ops _ _ _ Hinv) as (rs & a' & w' & live & Hrun & (S1 & S2 & S3) & Hinv').
  assert (Hlen : mMaxBlockLen a' = per * (size + 8)) by (destruct (inv_sizes _ _ _ Hinv') as (_ & _ & _ & -> & _); congruence).
  assert (Hplace : forall b o, (b, o) ∈ after_word <$> live ->
    exists k, blocks (mem w') !! b = Some (per * (size + 8)) /\ o = k * (size + 8) + 8 /\ 0 <= k < per).
  { intros b o ([b' o'] & [= -> ->] & Hh)%list_elem_of_fmap. destruct (live_placed _ _ _ _ Hinv' Hh) as (k & H1 & H2 & H3). cbn in H1, H2.
    exists k. rewrite <- Hlen, <- E1, <- S1, <- E3, <- S3, <- H2. done. }
  exists rs, a', w', (after_word <$> live). split; [done |]. split; [apply (NoDup_fmap_2 after_word), (NoDup_live _ _ _ Hinv') |].
  split; [apply (inv_mutex _ _ _ Hinv') |]. split_and!.
  - intros b o (k & H1 & -> & H3)%Hplace. split; [done |]. nia.
  - intros b o o' (k & _ & -> & Hk)%Hplace (k' & _ & -> & Hk')%Hplace Hne. destruct (Z.lt_trichotomy k k') as [|[->|]]; [left; nia | done | right; nia].
  - destruct (inv_lib _ _ _ Hinv') as (lb & l & _ & _ & r & _ & _ & -> & ->). rewrite length_fmap. lia.
  - destruct (pool_alloc_ok a' w' live Hinv') as (r & a'' & w'' & Hr & (S4 & S5 & S6) & Hres). exists r, a'', w''. rewrite length_fmap. split; [done |].
    replace (num * per) with (mMaxBlockNum a' * mMaxChunkNum a') by congruence. split.
    + intros Hfull. destruct r as [p|]; [| done]. destruct Hres as (h & _ & Hinv2). pose proof (live_bound _ _ _ Hinv2) as Hb. cbn in Hb. rewrite S5, S6 in Hb. lia.
    + intros ->. by destruct Hres.
Qed.

Lemma QPoolAllocator_chunks_witness :
  exists a w rs a' w' live, init 24 2 2 construct (mkMemory (mkMem ∅ []) ∅) = Some (0, a, w) /\
    run [Alloc; Alloc; Alloc; Free 1; Alloc; Alloc; Alloc] a w [] = Some (rs, a', w', live) /\ NoDup live /\ mMutex a' = false /\
    (forall b o, (b, o) ∈ live -> blocks (mem w') !! b = Some 64 /\ 8 <= o /\ o + 24 <= 64) /\
    (forall b o o', (b, o) ∈ live -> (b, o') ∈ live -> o <> o' -> o + 24 <= o' - 8 \/ o' + 24 <= o - 8) /\
    mAllocNum a' - mRecycleNum a' = Z.of_nat (length live) /\
    exists r a'' w'', alloc a' w' = Some (r, a'', w'') /\
      (Z.of_nat (length live) = 4 -> r = None) /\
      (r = None -> Z.of_nat (length live) = 4 \/ false ∈ outcomes (mem w')).
Proof.
  destruct (init 24 2 2 construct (mkMemory (mkMem ∅ []) ∅)) as [[[r a] w]|] eqn:Hi; [| vm_compute in Hi; discriminate].
  assert (Hr : r = 0) by (vm_compute in Hi; congruence). rewrite Hr in Hi |- *. clear Hr.
  destruct (QPoolAllocator_chunks 24 2 2 (mkMemory (mkMem ∅ []) ∅) a w [Alloc; Alloc; Alloc; Free 1; Alloc; Alloc; Alloc])
    as (rs & a' & w' & live & H); [lia | done | lia | exact Hi |].
  exists a, w, rs, a', w', live. split; [reflexivity | exact H].
Defined.

(** A chunk that is given back twice is handed out twice. *)
Example double_free_aliases :
  ('(_, a, w) ← init 24 2 2 construct (mkMemory (mkMem ∅ []) ∅);
   '(p, a, w) ← alloc a w; p ← p; '(a, w) ← free p a w; '(a, w) ← free p a w;
   '(q, a, w) ← alloc a w; '(r, _, _) ← alloc a w; Some (bool_decide (q = r))) = Some true.
Proof. vm_compute. reflexivity. Qed.

(** After [freeAllocator] the pool has no library, and a request follows the null pointer. *)
Example alloc_after_freeAllocator :
  ('(_, a, w) ← init 24 2 2 construct (mkMemory (mkMem ∅ []) ∅); '(a, w) ← freeAllocator a w; alloc a w) = None.
Proof. vm_compute. reflexivity. Qed.

End PoolAllocator.
