(* ===== verification/Stdio.v ===== *)
(** * Stdio: binary files behind a [FILE] pointer

    What the storage classes use of [fseek], [ftell], [fread] and [fwrite] with
    one element: a file is its bytes and a position.  A read is all or nothing;
    a write past the end fills the gap with zeros.  Every write consumes an
    entry of a plan, which says how many bytes reach the disk when it fails;
    without an entry the write succeeds.  Regions of a file are followed through
    writes by their offsets. *)

From S2P Require Import Prelude CLib.

Module Stdio.

Record FILE : Type := mkFILE { content : bytes; pos : nat; plan : list (option nat) }.

(** A new handle on a file. *)
Definition fopen (bs : bytes) (plan : list (option nat)) : FILE := mkFILE bs 0 plan.

Definition fseek_set (p : Z) (f : FILE) : option FILE :=
  if 0 <=? p then Some (mkFILE (content f) (Z.to_nat p) (plan f)) else None.
Definition fseek_cur (d : Z) (f : FILE) : option FILE := fseek_set (Z.of_nat (pos f) + d) f.
Definition fseek_end (f : FILE) : FILE := mkFILE (content f) (length (content f)) (plan f).
Definition ftell (f : FILE) : Z := Z.of_nat (pos f).

(** [fread(buf, n, 1, f)]; an element of no bytes is never read. *)
Definition fread (n : nat) (f : FILE) : option bytes * FILE :=
  if (n =? 0)%nat then (None, f)
  else if (pos f + n <=? length (content f))%nat
  then (Some (slice (pos f) n (content f)), mkFILE (content f) (pos f + n) (plan f))
  else (None, mkFILE (content f) (pos f `max` length (content f)) (plan f)).

Definition put (off : nat) (d c : bytes) : bytes :=
  take off (c ++ replicate (off - length c) NUL) ++ d ++ drop (off + length d) c.

(** [fwrite(d, length d, 1, f)] *)
Definition fwrite (d : bytes) (f : FILE) : bool * FILE :=
  match plan f with
  | Some k :: plan => (false, mkFILE (put (pos f) (take k d) (content f)) (pos f + k `min` length d) plan)
  | p => if (length d =? 0)%nat then (false, f)
         else (true, mkFILE (put (pos f) d (content f)) (pos f + length d) (tl p))
  end.

(** ** Regions *)

Definition region (c : bytes) (off : nat) (bs : bytes) : Prop := forall i x, bs !! i = Some x -> c !! (off + i)%nat = Some x.

Lemma put_lookup off d c i : put off d c !! i =
  if decide (i < off)%nat then (if decide (i < length c)%nat then c !! i else Some NUL)
  else if decide (i < off + length d)%nat then d !! (i - off)%nat else c !! i.
Proof.
  unfold put. assert (Hl : length (take off (c ++ replicate (off - length c) NUL)) = off)
    by (rewrite length_take, length_app, length_replicate; lia).
  case_decide as H1.
  - rewrite lookup_app_l by lia. rewrite lookup_take_lt by done. case_decide as H2; [by rewrite lookup_app_l |].
    rewrite lookup_app_r by lia. apply lookup_replicate_2. lia.
  - rewrite lookup_app_r by lia. rewrite Hl. case_decide as H2; [by rewrite lookup_app_l by lia |].
    rewrite lookup_app_r, lookup_drop by lia. f_equal. lia.
Qed.

Lemma length_put off d c : length (put off d c) = ((off + length d) `max` length c)%nat.
Proof. unfold put. rewrite !length_app, length_take, length_app, length_replicate, length_drop. lia. Qed.

Lemma region_nil c off : region c off [].
Proof. intros i x E. by rewrite lookup_nil in E. Qed.

Lemma region_app c off a b : region c off (a ++ b) <-> region c off a /\ region c (off + length a) b.
Proof.
  split.
  - intros H. split; intros i x E.
    + apply H. by rewrite lookup_app_l by (by eapply lookup_lt_Some).
    + rewrite <- Nat.add_assoc. apply H. rewrite lookup_app_r by lia. by replace (length a + i - length a)%nat with i by lia.
  - intros [Ha Hb] i x E. apply lookup_app_Some in E as [E|[Hle E]]; [by apply Ha |].
    specialize (Hb _ _ E). by replace (off + i)%nat with (off + length a + (i - length a))%nat by lia.
Qed.

Lemma region_bound c off bs : bs <> [] -> region c off bs -> (off + length bs <= length c)%nat.
Proof.
  intros Hne H. destruct (lookup_lt_is_Some_2 bs (length bs - 1)) as [x E]; [destruct bs; [done | cbn; lia] |].
  specialize (H _ _ E). apply lookup_lt_Some in H. destruct bs; [done | cbn in *; lia].
Qed.

Lemma region_slice c off bs : region c off bs -> slice off (length bs) c = bs.
Proof.
  intros H. apply list_eq. intros i. destruct (Nat.lt_ge_cases i (length bs)) as [Hi|Hi].
  - rewrite lookup_slice by done. destruct (lookup_lt_is_Some_2 bs i Hi) as [x E]. by rewrite E, (H _ _ E).
  - pose proof (length_slice_le off (length bs) c). rewrite !lookup_ge_None_2; [done | lia..].
Qed.

Lemma region_put_same off d c : region (put off d c) off d.
Proof.
  intros i x E. pose proof (lookup_lt_Some _ _ _ E). rewrite put_lookup. case_decide; [lia |]. case_decide; [| lia].
  by replace (off + i - off)%nat with i by lia.
Qed.

Lemma region_put_other off d c off' bs : (off' + length bs <= off \/ off + length d <= off')%nat ->
  region c off' bs -> region (put off d c) off' bs.
Proof.
  intros Hd H i x E. pose proof (lookup_lt_Some _ _ _ E). specialize (H _ _ E). pose proof (lookup_lt_Some _ _ _ H).
  rewrite put_lookup. case_decide; [by case_decide; [| lia] |]. case_decide; [lia | done].
Qed.

(** A write into a region that is known. *)
Lemma region_put_middle off a d x b c : length d = length x -> region c off (a ++ x ++ b) ->
  region (put (off + length a) d c) off (a ++ d ++ b).
Proof.
  rewrite !region_app. intros Hl (Ha & Hx & Hb). split; [apply region_put_other; [lia | done] |].
  split; [apply region_put_same |]. rewrite Hl. apply region_put_other; [lia | done].
Qed.

(** ** Reads and writes of regions *)

Lemma fread_region f bs : bs <> [] -> region (content f) (pos f) bs ->
  fread (length bs) f = (Some bs, mkFILE (content f) (pos f + length bs) (plan f)).
Proof.
  intros Hne H. pose proof (region_bound _ _ _ Hne H). unfold fread. destruct bs as [|b bs]; [done |].
  cbn [length Nat.eqb]. rewrite (proj2 (Nat.leb_le _ _)) by (cbn in *; lia). do 3 f_equal. exact (region_slice _ _ (b :: bs) H).
Qed.

Lemma fread_end n f : (length (content f) < pos f + n)%nat -> fst (fread n f) = None.
Proof.
  intros H. unfold fread. destruct (Nat.eqb_spec n 0); [done |]. by rewrite (proj2 (Nat.leb_gt _ _)) by lia.
Qed.

Lemma fwrite_whole d f : d <> [] -> plan f = [] ->
  fwrite d f = (true, mkFILE (put (pos f) d (content f)) (pos f + length d) []).
Proof. intros Hne E. unfold fwrite. rewrite E. by destruct d. Qed.

Lemma put_put p a b c : put (p + length a) b (put p a c) = put p (a ++ b) c.
Proof.
  apply list_eq. intros i. rewrite !put_lookup, length_put, length_app.
  repeat case_decide; try lia; try done.
  all: first [by rewrite lookup_app_l by lia | rewrite lookup_app_r by lia; f_equal; lia].
Qed.

Lemma put_end d c : put (length c) d c = c ++ d.
Proof. unfold put. rewrite Nat.sub_diag, app_nil_r, firstn_all, drop_ge by lia. by rewrite app_nil_r. Qed.

(** Overwriting the middle of a region. *)
Lemma put_around p a x y b c : region c p (a ++ x ++ b) -> length x = length y -> y <> [] ->
  put (p + length a) y c = put p (a ++ y ++ b) c.
Proof.
  intros Hr Hl Hy. assert (a ++ x ++ b <> []) by (destruct a, x, y; done). pose proof (region_bound _ _ _ ltac:(eassumption) Hr) as Hb. rewrite !length_app in Hb.
  apply list_eq. intros i. rewrite !put_lookup, !length_app. repeat case_decide; try lia; try done.
  - destruct (lookup_lt_is_Some_2 a (i - p)) as [z Hz]; [lia |]. rewrite lookup_app_l, Hz by lia.
    specialize (Hr (i - p)%nat z). rewrite lookup_app_l in Hr by lia. rewrite <- (Hr Hz). f_equal. lia.
  - rewrite lookup_app_r, lookup_app_l by lia. f_equal. lia.
  - rewrite lookup_app_r, lookup_app_r by lia. destruct (lookup_lt_is_Some_2 b (i - p - length a - length y)) as [z Hz]; [lia |].
    rewrite Hz. specialize (Hr (i - p)%nat z). rewrite lookup_app_r, lookup_app_r in Hr by lia.
    rewrite <- Hr; [f_equal; lia |]. rewrite <- Hz. f_equal. lia.
Qed.

Lemma fread_at n c p bs : region c p bs -> length bs = n -> n <> 0%nat -> fread n (mkFILE c p []) = (Some bs, mkFILE c (p + n) []).
Proof. intros H <- Hn. rewrite fread_region; [done | by destruct bs | done]. Qed.

End Stdio.
