(* ===== verification/HashSearch.v ===== *)
(** * Hash table over allocators: src/include/common/qhashsearch.h

    [QHashSearch<uint64_t>] keeps chains of nodes that it takes from a memory
    pool ([allocator_FL_], for values of one length) or from an allocator for
    pieces of any length ([allocator_VL_]).  The operations are written against
    the class [Allocator]; nodes and chains are those of [LinearHash], at the
    addresses the allocator gives. *)

From stdpp Require Import gmap.
From S2P Require Import Prelude CLib Arrays HashMap LinearHash Allocator PoolAllocator Stdio.
Import Arrays LinearHash Allocator Stdio.

Module HashSearch.

Abbreviation node := (ChainNode Z bytes addr).

Section model.
(** The allocators for values of one length and of any length, and what the
    memory of a new node holds where the value will be. *)
Context {F L : Type} `{!Allocator F, !Recycler F, !Allocator L}.
Variable was : addr -> bytes.

(** The bytes of a node behind its link are its key and its value. *)
Record QHashSearch : Type := mkSearch {
  data_len_ : Z;
  data_num_ : Z;
  bucket_size_ : Z;
  hash_table_ : list (option addr);
  memory : gmap addr node;
  allocator_FL_ : option F;
  allocator_VL_ : option L;
  traversal_index_ : Z;
  traversal_pos_ : option addr;
  initialized_ : Z
}.

(** [QHashSearch()] *)
Definition construct : QHashSearch := mkSearch (-1) 0 0 [] ∅ None None (-1) None 0.

(** The arguments after the source's: whether there is memory for the table,
    what [new] returns for the allocator, and what [init] of the pool returns. *)
Definition init (bucket_size data_len : Z) (table : bool) (vl : option L) (fl : option F) (pool : Z) (q : QHashSearch) : Z * QHashSearch :=
  let started hash_table fl vl i := mkSearch data_len 0 bucket_size hash_table ∅ fl vl
    (if i =? 1 then 0 else traversal_index_ q) (if i =? 1 then mjoin (head hash_table) else traversal_pos_ q) (if i =? 1 then 1 else initialized_ q) in
  if negb table then (-1, started [] (allocator_FL_ q) (allocator_VL_ q) 0)
  else
    let hash_table := replicate (Z.to_nat bucket_size) None in
    if data_len <? 0 then
      match vl with
      | None => (-2, started hash_table (allocator_FL_ q) None 0)
      | Some _ => (0, started hash_table (allocator_FL_ q) vl 1)
      end
    else
      match fl with
      | None => (-3, started hash_table None (allocator_VL_ q) 0)
      | Some _ => if negb (pool =? 0) then (-4, started hash_table fl (allocator_VL_ q) 0) else (0, started hash_table fl (allocator_VL_ q) 1)
      end.

Definition getHashValue (key : Z) (q : QHashSearch) : Z :=
  let iIndex := i32 (key mod u64 (bucket_size_ q)) in if iIndex <? 0 then i32 (iIndex * -1) else iIndex.

(** [if(iIndex<0)] of the operations: the caller may pass the bucket. *)
Definition bucket_of (key iIndex : Z) (q : QHashSearch) : Z := if iIndex <? 0 then getHashValue key q else iIndex.

(** [*vppRetBuf]: the value of a node, [NULL] when values have no bytes. *)
Definition ret_FL (p : addr) (q : QHashSearch) : option addr := if data_len_ q =? 0 then None else Some p.

Definition with_table (num : Z) (table : list (option addr)) (nodes : gmap addr node) (fl : option F) (vl : option L) (q : QHashSearch) : QHashSearch :=
  mkSearch (data_len_ q) num (bucket_size_ q) table nodes fl vl (traversal_index_ q) (traversal_pos_ q) (initialized_ q).

(** [while(p)]: the node before the one with the key, and that node. *)
Definition find (iIndex key : Z) (q : QHashSearch) : option (option addr * (option addr * option addr)) :=
  head ← get (hash_table_ q) iIndex;
  r ← walk (size (memory q)) (memory q) None head key;
  Some (head, r).

(** The code, and the address of the value. *)
Definition addKey_FL (key : Z) (vpData : option bytes) (iIndex : Z) (q : QHashSearch) : option (Z * option addr * QHashSearch) :=
  let iIndex := bucket_of key iIndex q in
  '(head, (_, p)) ← find iIndex key q;
  match p with
  | Some p => Some (1, ret_FL p q, q)
  | None =>
      f ← allocator_FL_ q;
      '(p, f) ← request (8 + 8 + data_len_ q) f;
      match p with
      | None => Some (-1, None, with_table (data_num_ q) (hash_table_ q) (memory q) (Some f) (allocator_VL_ q) q)
      | Some p =>
          let value := if 0 <? data_len_ q then match vpData with Some v => take (Z.to_nat (data_len_ q)) v | None => was p end else [] in
          table ← set (hash_table_ q) iIndex (Some p);
          Some (0, ret_FL p q,
            with_table (i32 (data_num_ q + 1)) table (<[p := mkNode key value head]> (memory q)) (Some f) (allocator_VL_ q) q)
      end
  end.

Definition searchKey_FL (key iIndex : Z) (q : QHashSearch) : option (Z * option addr) :=
  '(_, (_, p)) ← find (bucket_of key iIndex q) key q;
  Some (match p with Some p => (0, ret_FL p q) | None => (-1, None) end).

Definition updateKey_FL (key : Z) (vpData : option bytes) (iIndex : Z) (q : QHashSearch) : option (Z * option addr * QHashSearch) :=
  '(_, (_, p)) ← find (bucket_of key iIndex q) key q;
  match p with
  | Some p =>
      n ← memory q !! p;
      let value := match vpData with Some v => if 0 <? data_len_ q then take (Z.to_nat (data_len_ q)) v else mValue n | None => mValue n end in
      Some (0, ret_FL p q,
        with_table (data_num_ q) (hash_table_ q) (<[p := mkNode (mKey n) value (link n)]> (memory q)) (allocator_FL_ q) (allocator_VL_ q) q)
  | None => Some (-1, None, q)
  end.

Definition deleteKey_FL (key iIndex : Z) (q : QHashSearch) : option (Z * QHashSearch) :=
  let iIndex := bucket_of key iIndex q in
  '(_, (before, p)) ← find iIndex key q;
  match p with
  | Some p =>
      n ← memory q !! p;
      s ← match before with
          | None => table ← set (hash_table_ q) iIndex (link n); Some (memory q, table)
          | Some b => r ← memory q !! b; Some (<[b := mkNode (mKey r) (mValue r) (link n)]> (memory q), hash_table_ q)
          end;
      f ← allocator_FL_ q;
      f ← recycle p f;
      Some (0, with_table (i32 (data_num_ q - 1)) (snd s) (delete p (fst s)) (Some f) (allocator_VL_ q) q)
  | None => Some (-1, q)
  end.

(** [*lpRetDataLen] and [*vppRetBuf] of a node with a value of any length. *)
Definition ret_VL (p : addr) (value : bytes) : Z * option addr := (Z.of_nat (length value), if (length value =? 0)%nat then None else Some p).

Definition addKey_VL (key : Z) (vpData : bytes) (data_len : Z) (q : QHashSearch) : option (Z * (Z * option addr) * QHashSearch) :=
  if data_len <? 0 then Some (-1, (0, None), q)
  else
    let iIndex := getHashValue key q in
    '(head, (_, p)) ← find iIndex key q;
    match p with
    | Some p => n ← memory q !! p; Some (1, ret_VL p (mValue n), q)
    | None =>
        l ← allocator_VL_ q;
        '(p, l) ← request (8 + 8 + 4 + data_len) l;
        match p with
        | None => Some (-1, (0, None), with_table (data_num_ q) (hash_table_ q) (memory q) (allocator_FL_ q) (Some l) q)
        | Some p =>
            let value := take (Z.to_nat data_len) vpData in
            table ← set (hash_table_ q) iIndex (Some p);
            Some (0, ret_VL p value,
              with_table (i32 (data_num_ q + 1)) table (<[p := mkNode key value head]> (memory q)) (allocator_FL_ q) (Some l) q)
        end
    end.

Definition searchKey_VL (key : Z) (q : QHashSearch) : option (Z * (Z * option addr)) :=
  '(_, (_, p)) ← find (getHashValue key q) key q;
  match p with
  | Some p => n ← memory q !! p; Some (0, ret_VL p (mValue n))
  | None => Some (-1, (0, None))
  end.

(** The nodes are gone: the allocators hand their memory out again. *)
Definition clear (q : QHashSearch) : option QHashSearch :=
  vl ← match allocator_VL_ q with Some l => Some <$> reset l | None => Some None end;
  fl ← match allocator_FL_ q with Some f => Some <$> reset f | None => Some None end;
  Some (mkSearch (data_len_ q) 0 (bucket_size_ q) (replicate (length (hash_table_ q)) None) ∅ fl vl 0 None (initialized_ q)).



(** *** Persistence *)

(** [while(p)] of [save]: the keys and values of a chain. *)
Fixpoint chain_entries (fuel : nat) (h : gmap addr node) (p : option addr) : option (list (Z * bytes)) :=
  match p with
  | None => Some []
  | Some a =>
      match fuel with
      | O => None
      | S fuel => n ← h !! a; es ← chain_entries fuel h (link n); Some ((mKey n, mValue n) :: es)
      end
  end.

Fixpoint table_entries (h : gmap addr node) (table : list (option addr)) : option (list (Z * bytes)) :=
  match table with
  | [] => Some []
  | p :: table => es ← chain_entries (size h) h p; rest ← table_entries h table; Some (es ++ rest)
  end.

(** The calls of [fwrite] for an entry. *)
Definition entry_writes (data_len : Z) (e : Z * bytes) : list bytes :=
  le_encode 8 (fst e) :: (if data_len <? 0 then [le_encode 4 (Z.of_nat (length (snd e))); snd e] else if data_len =? 0 then [] else [snd e]).

(** [if(fwrite(...)!=1) goto err] in turn. *)
Fixpoint write_all (writes : list bytes) (f : FILE) : bool * FILE :=
  match writes with
  | [] => (true, f)
  | bs :: writes => let '(ok, f) := fwrite bs f in if ok then write_all writes f else (false, f)
  end.

(** The code and the file; 0 is returned whether the writes succeed or not. *)
Definition save (opens : bool) (plan : list (option nat)) (q : QHashSearch) : option (Z * bytes) :=
  if initialized_ q =? 0 then Some (-1, [])
  else if negb opens then Some (-2, [])
  else
    es ← table_entries (memory q) (hash_table_ q);
    let '(ok, f) := write_all ([le_encode 4 0xEEEEEEEE; le_encode 4 (bucket_size_ q); le_encode 4 (data_num_ q); le_encode 4 (data_len_ q)] ++
      concat (entry_writes (data_len_ q) <$> es)) (fopen [] plan) in
    if ok then
      f ← fseek_set 0 f;
      Some (0, content (snd (fwrite (le_encode 4 0xFFFFFFFF) f)))
    else Some (0, content f).

(** [while(fread(...))] of [load] for values of any length; the buffer has
    1 MiB.  What stops the loop makes no difference to what follows. *)
Fixpoint load_VL (fuel : nat) (f : FILE) (q : QHashSearch) : option QHashSearch :=
  match fuel with
  | O => None
  | S fuel =>
      match fread 12 f with
      | (None, _) => Some q
      | (Some head, f) =>
          let len := i32 (le_decode (drop 8 head)) in
          if (len <? 0) || (2 ^ 20 <? len) then None
          else
            match fread (Z.to_nat len) f with
            | (None, _) => Some q
            | (Some buffer, f) =>
                '(code, _, q) ← addKey_VL (le_decode (take 8 head)) buffer len q;
                if code =? 0 then load_VL fuel f q else Some q
            end
      end
  end.

Fixpoint load_FL (fuel : nat) (f : FILE) (buffer : bytes) (q : QHashSearch) : option QHashSearch :=
  match fuel with
  | O => None
  | S fuel =>
      match fread 8 f with
      | (None, _) => Some q
      | (Some key, f) =>
          let add buffer f :=
            '(code, _, q) ← addKey_FL (le_decode key) (Some buffer) (-1) q;
            if code =? 0 then load_FL fuel f buffer q else Some q in
          if data_len_ q =? 0 then add buffer f
          else if 2 ^ 20 <? data_len_ q then None
          else
            match fread (Z.to_nat (data_len_ q)) f with
            | (None, _) => Some q
            | (Some buffer, f) => add buffer f
            end
      end
  end.

(** [load] after its first test; [buffer] is what the buffer holds. *)
Definition load_file (file buffer : bytes) (q : QHashSearch) : option (Z * QHashSearch) :=
  let '(iFlag, f) := fread 4 (fopen file []) in
  let '(bucket_size, f1) := fread 4 f in
  let '(data_num, f2) := fread 4 f1 in
  let '(data_len, f3) := fread 4 f2 in
  let num := from_option (fun bs => i32 (le_decode bs)) 0 in
  '(num, q) ←
    (if negb (bool_decide (le_decode <$> iFlag = Some 0xFFFFFFFF)) then Some (0, q)
     else match bucket_size, data_num, data_len with
          | None, _, _ => Some (0, q)
          | _, None, _ => Some (0, q)
          | _, n, None => Some (num n, q)
          | _, n, _ => q ← (if data_len_ q <? 0 then load_VL (S (length file)) f3 q else load_FL (S (length file)) f3 buffer q); Some (num n, q)
          end);
  Some (if data_num_ q =? num then 0 else -4, q).

Definition load (opens memory : bool) (file buffer : bytes) (q : QHashSearch) : option (Z * QHashSearch) :=
  if initialized_ q =? 1 then Some (-1, q)
  else if negb opens then Some (-2, q)
  else if negb memory then Some (-3, q)
  else load_file file buffer q.

End model.

Arguments QHashSearch : clear implicits.

(** ** The table is a chained hash table *)

Section table.
Context {F L : Type} `{!Allocator F, !Recycler F, !Allocator L}.
(** The number of buckets. *)
Variable n : Z.
Hypothesis Hn : 0 < n <= INT32_MAX.

#[local] Notation state := (QHashSearch F L).
#[local] Notation entry := (addr * (Z * bytes))%type.
Implicit Types (q : state) (M : gmap Z bytes) (ls : list (list entry)).

Definition table_of q : QLinearHash Z bytes addr :=
  mkHash (memory q) (bucket_size_ q) (bucket_size_ q) (data_num_ q) (hash_table_ q) (traversal_index_ q) (traversal_pos_ q).

Definition table_holds q M ls : Prop := holds_in n n (fun k => k) (table_of q) M ls.

#[local] Lemma Hd : 0 < n <= n.
Proof. lia. Qed.
#[local] Lemma Hmax : n <= INT32_MAX.
Proof. lia. Qed.

Lemma getHashValue_hash q M ls k : table_holds q M ls -> getHashValue k q = hash k (table_of q) /\ 0 <= hash k (table_of q).
Proof.
  intros HM. destruct (locate n n (fun k => k) Hd (table_of q) M ls k HM) as (l & p & H0 & _). split; [| done].
  unfold getHashValue. fold (hash k (table_of q)) in *. unfold hash, table_of in *. cbn [mDivisor] in *.
  by rewrite (proj2 (Z.ltb_ge _ 0)).
Qed.

(** The bucket the caller passes is the one of the key, if any. *)
Definition index_ok (k iIndex : Z) q : Prop := iIndex < 0 \/ iIndex = getHashValue k q.

Lemma bucket_of_hash q M ls k i : table_holds q M ls -> index_ok k i q -> bucket_of k i q = hash k (table_of q).
Proof.
  intros HM Hi. destruct (getHashValue_hash q M ls k HM) as [E H0]. unfold bucket_of. destruct Hi as [Hi| ->].
  - by rewrite (proj2 (Z.ltb_lt _ _) Hi).
  - rewrite E. by rewrite (proj2 (Z.ltb_ge _ _) H0).
Qed.

(** What a lookup finds. *)
Lemma find_spec q M ls k : table_holds q M ls ->
  exists head prev p, find (hash k (table_of q)) k q = Some (head, (prev, p)) /\ get (hash_table_ q) (hash k (table_of q)) = Some head /\
    walk (size (memory q)) (memory q) None head k = Some (prev, p) /\
    match p with
    | Some a => exists v next, M !! k = Some v /\ memory q !! a = Some (mkNode k v next)
    | None => M !! k = None
    end.
Proof.
  intros HM. destruct (locate n n (fun k => k) Hd (table_of q) M ls k HM) as (l & p & _ & _ & Ep & _ & _ & Hc & Hs & _ & Hk & Hx).
  cbn [table_of pHashTable nodes] in *. unfold find. fold (hash k (table_of q)). rewrite Ep. cbn [mbind option_bind].
  destruct (present_or_absent n n (fun k => k) Hd Hmax l k Hk) as [(l1 & a & v & l2 & -> & Hx1 & E)|[Hx1 E]].
  - rewrite length_app in Hs. cbn in Hs.
    assert (Hw : walk (size (memory q)) (memory q) None p k = Some (before None l1, Some a)) by (apply (walk_present (memory q) k v a l1 l2); (done || lia)).
    rewrite Hw. cbn [mbind option_bind]. exists p, (before None l1), (Some a). split; [done |]. split; [done |]. split; [done |].
    destruct (chain_at _ _ _ _ _ _ Hc) as (next & Ea & _). exists v, next. by rewrite Hx.
  - assert (Hw : walk (size (memory q)) (memory q) None p k = Some (before None l, None)) by (by apply (walk_absent (memory q) k l)).
    rewrite Hw. cbn [mbind option_bind]. exists p, (before None l), None. by rewrite Hx.
Qed.

(** The addresses of the nodes. *)
Definition nodes_of ls : gset addr := list_to_set (concat ls).*1.

(** A new node at the head of its chain. *)
Definition pushed (k : Z) (v : bytes) (p : addr) (head : option addr) (table : list (option addr)) (fl : option F) (vl : option L) q : state :=
  with_table (i32 (data_num_ q + 1)) table (<[p := mkNode k v head]> (memory q)) fl vl q.

Lemma push_holds q M ls k v p head prev fl vl : table_holds q M ls -> M !! k = None -> p ∉ nodes_of ls ->
  get (hash_table_ q) (hash k (table_of q)) = Some head -> walk (size (memory q)) (memory q) None head k = Some (prev, None) ->
  exists table ls', set (hash_table_ q) (hash k (table_of q)) (Some p) = Some table /\
    table_holds (pushed k v p head table fl vl q) (<[k := v]> M) ls' /\ nodes_of ls' = {[p]} ∪ nodes_of ls.
Proof.
  intros HM Hk Hp Hhead Hw. unfold nodes_of in Hp. rewrite elem_of_list_to_set in Hp.
  destruct (hash_push n n (fun k => k) Hd Hmax (table_of q) M ls k v p HM Hp) as (q' & ls' & E & HM' & Hperm). rewrite Hk in *.
  unfold push in E. cbn [table_of pHashTable nodes] in E. fold (table_of q) in E. rewrite Hhead in E. cbn [mbind option_bind] in E. rewrite Hw in E. cbn [mbind option_bind snd] in E.
  destruct (set (hash_table_ q) (hash k (table_of q)) (Some p)) as [table|]; [| done]. cbn [mbind option_bind] in E. injection E as <-.
  exists table, ls'. split; [done |]. split; [exact HM' |]. unfold nodes_of. by rewrite Hperm, list_to_set_cons.
Qed.

(** A node taken out of its chain. *)
Lemma pop_holds q M ls k v head prev a nd fl vl : table_holds q M ls -> M !! k = Some v ->
  get (hash_table_ q) (hash k (table_of q)) = Some head -> walk (size (memory q)) (memory q) None head k = Some (prev, Some a) ->
  memory q !! a = Some nd ->
  exists s ls', match prev with
      | None => table ← set (hash_table_ q) (hash k (table_of q)) (link nd); Some (memory q, table)
      | Some b => r ← memory q !! b; Some (<[b := mkNode (mKey r) (mValue r) (link nd)]> (memory q), hash_table_ q)
      end = Some s /\
    table_holds (with_table (i32 (data_num_ q - 1)) (snd s) (delete a (fst s)) fl vl q) (delete k M) ls' /\
    a ∈ nodes_of ls /\ nodes_of ls' = nodes_of ls ∖ {[a]}.
Proof.
  intros HM Hk Hhead Hw Ha. pose proof HM as (_ & _ & _ & Hnd & _).
  destruct (hash_pop n n (fun k => k) Hd Hmax (table_of q) M ls k HM) as (q' & ls' & E & HM' & _ & Hsome). rewrite Hk in *.
  destruct Hsome as (head' & prev' & a' & E1 & E2 & Hperm). cbn [table_of pHashTable nodes] in E1, E2. fold (table_of q) in E1.
  rewrite Hhead in E1. injection E1 as <-. rewrite Hw in E2. injection E2 as <- <-.
  unfold pop in E. cbn [table_of pHashTable nodes] in E. fold (table_of q) in E. rewrite Hhead in E. cbn [mbind option_bind] in E. rewrite Hw in E.
  cbn [mbind option_bind fst snd] in E. rewrite Ha in E. cbn [mbind option_bind] in E.
  destruct (match prev with None => _ | Some _ => _ end) as [s|]; [| done]. cbn [mbind option_bind] in E. injection E as <-.
  exists s, ls'. split; [done |]. split; [exact HM' |]. unfold nodes_of. rewrite (list_to_set_perm_L _ _ Hperm). rewrite Hperm in Hnd. apply NoDup_cons in Hnd as [Hna _].
  rewrite list_to_set_cons. set_solver.
Qed.

(** Another value for a node. *)
Lemma chain_overwrite (h : gmap addr node) a k v v' next l2 : forall l1 p, chain h p (l1 ++ (a, (k, v)) :: l2) -> NoDup (l1 ++ (a, (k, v)) :: l2).*1 ->
  h !! a = Some (mkNode k v next) -> chain (<[a := mkNode k v' next]> h) p (l1 ++ (a, (k, v')) :: l2).
Proof.
  induction l1 as [|[b [kb vb]] l1 IH]; intros p Hc Hnd Ha; cbn [app chain fmap list_fmap fst] in *.
  - destruct Hc as (-> & next' & E & Hc). rewrite Ha in E. injection E as <-. split; [done |]. exists next. rewrite lookup_insert_eq. split; [done |].
    apply NoDup_cons in Hnd as [Hna _]. eapply chain_frame; [| exact Hc]. intros b Hb. apply lookup_insert_ne. set_solver.
  - destruct Hc as (-> & nb & E & Hc). apply NoDup_cons in Hnd as [Hnb Hnd]. split; [done |]. exists nb. rewrite lookup_insert_ne.
    + split; [done |]. by apply IH.
    + intros <-. apply Hnb. rewrite fmap_app. set_solver.
Qed.

Lemma as_map_overwrite (l1 l2 : list entry) a k v v' : NoDup (keys (l1 ++ (a, (k, v)) :: l2)) ->
  (list_to_map (l1 ++ (a, (k, v')) :: l2).*2 : gmap Z bytes) = <[k := v']> (list_to_map (l1 ++ (a, (k, v)) :: l2).*2).
Proof.
  intros Hk. assert (Hp : forall w, (l1 ++ (a, (k, w)) :: l2).*2 ≡ₚ (k, w) :: (l1 ++ l2).*2) by (intros w; by rewrite <- Permutation_middle).
  assert (Hk' : NoDup (keys (l1 ++ (a, (k, v')) :: l2))) by (unfold keys in *; rewrite !fmap_app in *; exact Hk).
  rewrite (list_to_map_proper _ _ Hk (Hp v)), (list_to_map_proper _ _ Hk' (Hp v')). cbn. by rewrite insert_insert_eq.
Qed.

Lemma overwrite_holds q M ls k v v' a next fl vl : table_holds q M ls -> M !! k = Some v -> memory q !! a = Some (mkNode k v next) ->
  (exists head prev, get (hash_table_ q) (hash k (table_of q)) = Some head /\ walk (size (memory q)) (memory q) None head k = Some (prev, Some a)) ->
  exists ls', table_holds (with_table (data_num_ q) (hash_table_ q) (<[a := mkNode k v' next]> (memory q)) fl vl q) (<[k := v']> M) ls' /\
    nodes_of ls' = nodes_of ls.
Proof.
  intros HM Hk Ha (head & prev & Hhead & Hw). pose proof HM as (Ed & En & HF & Hnd & HS & Hsize).
  destruct (locate n n (fun k => k) Hd (table_of q) M ls k HM) as (l & p & H0 & Eh & Ep & El & Eb & Hc & Hs & Hl & Hkeys & Hx).
  cbn [table_of pHashTable nodes] in *. fold (table_of q) in *. rewrite Hhead in Ep. injection Ep as <-.
  destruct (present_or_absent n n (fun k => k) Hd Hmax l k Hkeys) as [(l1 & a' & w & l2 & -> & Hx1 & E)|[Hx1 E]]; [| congruence].
  rewrite length_app in Hs. cbn in Hs. rewrite (walk_present (memory q) k w a' l1 l2) in Hw by (done || lia). injection Hw as <- ->.
  assert (w = v) as -> by congruence. destruct (concat_at ls _ _ El) as (R & HR & HI & _).
  exists (<[Z.to_nat (hash k (table_of q)) := l1 ++ (a, (k, v')) :: l2]> ls). split.
  - split; [done |]. split; [done |]. cbn [table_of nodes pHashTable mNowSize with_table memory hash_table_ data_num_].
    assert (Hp : <[Z.to_nat (hash k (table_of q)) := head]> (hash_table_ q) = hash_table_ q) by (apply list_insert_id; by apply get_Some in Hhead as [_ ?]).
    split; [| split; [| split]].
    + rewrite <- Hp. eapply table_update; [exact HF | done | exact El | |].
      * intros c _ Hcl. rewrite fmap_app in Hcl. cbn in Hcl. apply lookup_insert_ne. set_solver.
      * by apply (chain_overwrite (memory q) a k v).
    + rewrite HI, fmap_app, fmap_app. rewrite HR, fmap_app, fmap_app in Hnd. exact Hnd.
    + rewrite contents_insert, Eh. eapply HashMap.spread_bucket; [exact HS | exact Eb | | | |].
      * unfold keys in Hkeys. rewrite !fmap_app in *. exact Hkeys.
      * destruct HS as [Hw _]. destruct (proj2 Hw _ _ Eb) as [_ Hf]. rewrite fmap_app, Forall_app in *. cbn in *. rewrite Forall_cons in *. done.
      * intros k' Hk'. rewrite (as_map_overwrite l1 l2 a k v v') by done. destruct HS as [_ Hm]. destruct (Hm k') as (l0 & E0 & Hk0).
        rewrite Hk', Eb in E0. injection E0 as <-. destruct (decide (k' = k)) as [->|Hne]; [by rewrite !lookup_insert_eq |].
        rewrite !lookup_insert_ne by done. by rewrite Hk0.
      * intros k' Hk'. apply lookup_insert_ne. congruence.
    + cbn [table_of mNowSize] in Hsize. rewrite Hsize. by rewrite map_size_insert_Some by eauto.
  - unfold nodes_of. rewrite HI, HR, !fmap_app. done.
Qed.

End table.

(** ** The table as a finite map *)

(** The calls; with [hint] the caller passes the bucket of the key. *)
Inductive call : Type :=
  | Add (key : Z) (v : bytes) (hint : bool)
  | Find (key : Z) (hint : bool)
  | Update (key : Z) (v : bytes) (hint : bool)
  | Delete (key : Z) (hint : bool)
  | Num
  | Clear.

Definition shown (v : bytes) : option bytes := match v with [] => None | _ => Some v end.

(** The code and the bytes behind the address a call gives back, for a map from
    keys to values; [answer_full] is an allocator that refuses. *)
Inductive answer (M : gmap Z bytes) : call -> Z * option bytes -> gmap Z bytes -> Prop :=
  | answer_add k v h : M !! k = None -> answer M (Add k v h) (0, shown v) (<[k := v]> M)
  | answer_full k v h : M !! k = None -> answer M (Add k v h) (-1, None) M
  | answer_dup k v h w : M !! k = Some w -> answer M (Add k v h) (1, shown w) M
  | answer_found k h w : M !! k = Some w -> answer M (Find k h) (0, shown w) M
  | answer_missing k h : M !! k = None -> answer M (Find k h) (-1, None) M
  | answer_update k v h w : M !! k = Some w -> answer M (Update k v h) (0, shown v) (<[k := v]> M)
  | answer_no_update k v h : M !! k = None -> answer M (Update k v h) (-1, None) M
  | answer_delete k h w : M !! k = Some w -> answer M (Delete k h) (0, None) (delete k M)
  | answer_no_delete k h : M !! k = None -> answer M (Delete k h) (-1, None) M
  | answer_num : answer M Num (i32 (Z.of_nat (size M)), None) M
  | answer_clear : answer M Clear (0, None) ∅.

Inductive answers : gmap Z bytes -> list call -> list (Z * option bytes) -> gmap Z bytes -> Prop :=
  | answers_nil M : answers M [] [] M
  | answers_cons M c r M1 cs rs M2 : answer M c r M1 -> answers M1 cs rs M2 -> answers M (c :: cs) (r :: rs) M2.

(** What holds of the values of the calls holds of those of the map. *)
Lemma answers_values (P : Z -> bytes -> Prop) cs M rs M' : answers M cs rs M' ->
  Forall (fun c => match c with Add k v _ | Update k v _ => P k v | _ => True end) cs -> map_Forall P M ->
  map_Forall P M' /\ (size M' <= size M + length cs)%nat.
Proof.
  induction 1 as [M|M c r M1 cs rs M2 Ha _ IH]; intros Hcs HM; [split; [done | lia] |]. apply Forall_cons in Hcs as [Hc Hcs].
  assert (HM1 : map_Forall P M1 /\ (size M1 <= size M + 1)%nat).
  { destruct Ha; cbn in Hc; try (split; [done | lia]).
    - split; [by apply map_Forall_insert_2 |]. rewrite map_size_insert_None by done. lia.
    - split; [by apply map_Forall_insert_2 |]. rewrite map_size_insert_Some by eauto. lia.
    - split; [by apply map_Forall_delete |]. pose proof (map_subseteq_size _ _ (delete_subseteq M k)). lia.
    - split; [apply map_Forall_empty |]. rewrite map_size_empty. lia. }
  destruct HM1 as [HM1 Hs1]. destruct (IH Hcs HM1) as [HM2 Hs2]. split; [done |]. cbn. lia.
Qed.

Section contract.
Context {F L : Type} `{!Allocator F, !AllocatorLaws F, !Recycler F, !RecyclerLaws F, !Allocator L, !AllocatorLaws L}.
Variable was : addr -> bytes.
#[local] Notation state := (QHashSearch F L).

Definition deref (p : option addr) (q : state) : option bytes := p ≫= fun a => mValue <$> memory q !! a.

(** A call on a table for values of any length ([vl]) or of one length. *)
Definition exec (vl : bool) (c : call) (q : state) : option (Z * option bytes * state) :=
  let index k (hint : bool) := if hint then getHashValue k q else -1 in
  match c with
  | Add k v h =>
      if vl then '(code, (_, p), q) ← addKey_VL k v (Z.of_nat (length v)) q; Some (code, deref p q, q)
      else '(code, p, q) ← addKey_FL was k (Some v) (index k h) q; Some (code, deref p q, q)
  | Find k h =>
      if vl then '(code, (_, p)) ← searchKey_VL k q; Some (code, deref p q, q)
      else '(code, p) ← searchKey_FL k (index k h) q; Some (code, deref p q, q)
  | Update k v h => '(code, p, q) ← updateKey_FL k (Some v) (index k h) q; Some (code, deref p q, q)
  | Delete k h => '(code, q) ← deleteKey_FL k (index k h) q; Some (code, None, q)
  | Num => Some (data_num_ q, None, q)
  | Clear => q ← clear q; Some (0, None, q)
  end.

Fixpoint execs (vl : bool) (cs : list call) (q : state) : option (list (Z * option bytes) * state) :=
  match cs with
  | [] => Some ([], q)
  | c :: cs => '(code, d, q) ← exec vl c q; '(rs, q) ← execs vl cs q; Some ((code, d) :: rs, q)
  end.

Variables (n dl : Z) (sizes : Z -> Prop).
Hypothesis Hn : 0 < n <= INT32_MAX.

(** The table holds the map, and its nodes are what it has from its allocator. *)
Record inv (vl : bool) (q : state) (M : gmap Z bytes) : Prop := mkInv {
  inv_len : data_len_ q = dl;
  inv_table : exists ls, table_holds n q M ls /\
    if vl then exists l, allocator_VL_ q = Some l /\ allocator_FL_ q = None /\ held (nodes_of ls) l /\ forall sz, sizes sz -> serves sz l
    else 0 <= dl /\ map_Forall (fun _ v => Z.of_nat (length v) = dl) M /\
      exists f, allocator_FL_ q = Some f /\ allocator_VL_ q = None /\ held (nodes_of ls) f /\ serves (8 + 8 + dl) f
}.

Definition accepts (vl : bool) (c : call) : Prop :=
  match c with
  | Add _ v _ => if vl then sizes (8 + 8 + 4 + Z.of_nat (length v)) else Z.of_nat (length v) = dl
  | Update _ v _ => vl = false /\ Z.of_nat (length v) = dl
  | Delete _ _ => vl = false
  | _ => True
  end.

Lemma index_hint k (h : bool) (q : state) : index_ok k (if h then getHashValue k q else -1) q.
Proof. destruct h; [by right | left; lia]. Qed.

Lemma deref_ret_FL p (q q' : state) k v next : data_len_ q = dl -> Z.of_nat (length v) = dl -> memory q' !! p = Some (mkNode k v next) ->
  deref (ret_FL p q) q' = shown v.
Proof.
  intros Hl Hv Hp. unfold ret_FL. rewrite Hl. destruct (Z.eqb_spec dl 0); destruct v; cbn in *; try lia; [done |]. by rewrite Hp.
Qed.

Lemma deref_ret_VL p v (q : state) k next : memory q !! p = Some (mkNode k v next) ->
  deref (if (length v =? 0)%nat then None else Some p) q = shown v.
Proof. intros Hp. destruct v; cbn; [done |]. by rewrite Hp. Qed.

Lemma exec_find vl q M k h : inv vl q M ->
  exists r q', exec vl (Find k h) q = Some (r, q') /\ answer M (Find k h) r M /\ inv vl q' M.
Proof.
  intros Hinv. pose proof Hinv as [Hlen (ls & HM & Hal)]. destruct (find_spec n Hn q M ls k HM) as (head & prev & p & Hf & _ & _ & Hp).
  assert (Hok : exists r, exec vl (Find k h) q = Some (r, q) /\ answer M (Find k h) r M); [| destruct Hok as (r & H1 & H2); by exists r, q].
  cbn [exec]. destruct vl.
  - unfold searchKey_VL. rewrite (proj1 (getHashValue_hash n Hn q M ls k HM)), Hf. cbn [mbind option_bind]. destruct p as [a|].
    + destruct Hp as (v & next & Hv & Ha). rewrite Ha. cbn [mbind option_bind ret_VL mValue]. eexists. split; [done |].
      rewrite (deref_ret_VL a v q k next Ha). by apply answer_found.
    + eexists. split; [done |]. by apply answer_missing.
  - unfold searchKey_FL. rewrite (bucket_of_hash n Hn q M ls k _ HM (index_hint k h q)), Hf. cbn [mbind option_bind]. destruct p as [a|].
    + destruct Hp as (v & next & Hv & Ha). destruct Hal as (_ & Hvals & _). eexists. split; [done |].
      rewrite (deref_ret_FL a q q k v next) by (done || by apply (Hvals k v)). by apply answer_found.
    + eexists. split; [done |]. by apply answer_missing.
Qed.

Lemma exec_add_VL q M k v h : inv true q M -> accepts true (Add k v h) ->
  exists r q' M', exec true (Add k v h) q = Some (r, q') /\ answer M (Add k v h) r M' /\ inv true q' M'.
Proof.
  intros Hinv Hacc. pose proof Hinv as [Hlen (ls & HM & l & Hl & Hfl & Hheld & Hserves)]. cbn in Hacc.
  destruct (find_spec n Hn q M ls k HM) as (head & prev & p & Hf & Hhead & Hw & Hp).
  cbn [exec]. unfold addKey_VL. rewrite (proj2 (Z.ltb_ge _ 0)) by lia.
  rewrite (proj1 (getHashValue_hash n Hn q M ls k HM)), Hf. cbn [mbind option_bind]. destruct p as [a|].
  - destruct Hp as (w & next & Hm & Ha). rewrite Ha. cbn [mbind option_bind ret_VL mValue]. do 3 eexists. split; [done |].
    rewrite (deref_ret_VL a w q k next Ha). split; [by apply answer_dup | done].
  - rewrite Hl. cbn [mbind option_bind]. destruct (request_ok _ _ l Hheld (Hserves _ Hacc)) as (r & l' & Hr & Hs' & Hres). rewrite Hr. cbn [mbind option_bind].
    destruct r as [a|].
    + destruct Hres as [Hna Hheld']. rewrite Nat2Z.id, take_ge by lia.
      destruct (push_holds n Hn q M ls k v a head prev (allocator_FL_ q) (Some l') HM Hp Hna Hhead Hw) as (table & ls' & Hset & HM' & Hnodes).
      rewrite Hset. cbn [mbind option_bind ret_VL]. do 3 eexists. split; [done |].
      rewrite (deref_ret_VL a v _ k head) by apply lookup_insert_eq. split; [by apply answer_add |].
      split; [done |]. exists ls'. split; [exact HM' |]. exists l'. rewrite Hnodes. by repeat (split; [done |]); auto.
    + do 3 eexists. split; [done |]. split; [by apply answer_full |]. split; [done |]. exists ls. split; [exact HM |]. exists l'. by repeat (split; [done |]); auto.
Qed.

Lemma exec_add_FL q M k v h : inv false q M -> accepts false (Add k v h) ->
  exists r q' M', exec false (Add k v h) q = Some (r, q') /\ answer M (Add k v h) r M' /\ inv false q' M'.
Proof.
  intros Hinv Hacc. pose proof Hinv as [Hlen (ls & HM & Hdl & Hvals & f & Hfl & Hvl & Hheld & Hserves)]. cbn in Hacc.
  destruct (find_spec n Hn q M ls k HM) as (head & prev & p & Hf & Hhead & Hw & Hp).
  cbn [exec]. unfold addKey_FL. rewrite (bucket_of_hash n Hn q M ls k _ HM (index_hint k h q)), Hf. cbn [mbind option_bind]. destruct p as [a|].
  - destruct Hp as (w & next & Hm & Ha). do 3 eexists. split; [done |].
    rewrite (deref_ret_FL a q q k w next) by (done || by apply (Hvals k w)). split; [by apply answer_dup | done].
  - rewrite Hfl. cbn [mbind option_bind]. rewrite Hlen. destruct (request_ok _ _ f Hheld Hserves) as (r & f' & Hr & Hs' & Hres). rewrite Hr. cbn [mbind option_bind].
    destruct r as [a|].
    + destruct Hres as [Hna Hheld'].
      assert (Hval : (if 0 <? dl then take (Z.to_nat dl) v else []) = v).
      { destruct (Z.ltb_spec 0 dl); [by apply take_ge; lia |]. destruct v; [done | cbn in *; lia]. }
      rewrite Hval. destruct (push_holds n Hn q M ls k v a head prev (Some f') (allocator_VL_ q) HM Hp Hna Hhead Hw) as (table & ls' & Hset & HM' & Hnodes).
      rewrite Hset. cbn [mbind option_bind]. do 3 eexists. split; [done |].
      rewrite (deref_ret_FL a q _ k v head) by (done || apply lookup_insert_eq). split; [by apply answer_add |].
      split; [done |]. exists ls'. split; [exact HM' |]. split; [done |]. split; [by apply map_Forall_insert_2 |]. exists f'. rewrite Hnodes. by repeat (split; [done |]); auto.
    + do 3 eexists. split; [done |]. split; [by apply answer_full |]. split; [done |]. exists ls. split; [exact HM |]. split; [done |]. split; [done |].
      exists f'. by repeat (split; [done |]); auto.
Qed.

Lemma exec_update q M k v h : inv false q M -> accepts false (Update k v h) ->
  exists r q' M', exec false (Update k v h) q = Some (r, q') /\ answer M (Update k v h) r M' /\ inv false q' M'.
Proof.
  intros Hinv [_ Hacc]. pose proof Hinv as [Hlen (ls & HM & Hdl & Hvals & f & Hfl & Hvl & Hheld & Hserves)].
  destruct (find_spec n Hn q M ls k HM) as (head & prev & p & Hf & Hhead & Hw & Hp).
  cbn [exec]. unfold updateKey_FL. rewrite (bucket_of_hash n Hn q M ls k _ HM (index_hint k h q)), Hf. cbn [mbind option_bind]. destruct p as [a|].
  - destruct Hp as (w & next & Hm & Ha). rewrite Ha, Hlen. cbn [mbind option_bind mKey mValue link].
    assert (Hval : (if 0 <? dl then take (Z.to_nat dl) v else w) = v).
    { pose proof (Hvals k w Hm) as Hwl. cbn in Hwl. destruct (Z.ltb_spec 0 dl); [by apply take_ge; lia |]. destruct v, w; (done || cbn in *; lia). }
    rewrite Hval. destruct (overwrite_holds n Hn q M ls k w v a next (allocator_FL_ q) (allocator_VL_ q) HM Hm Ha) as (ls' & HM' & Hnodes); [eauto |].
    do 3 eexists. split; [done |]. rewrite (deref_ret_FL a q _ k v next) by (done || apply lookup_insert_eq). split; [by eapply answer_update |].
    split; [done |]. exists ls'. split; [exact HM' |]. split; [done |]. split; [by apply map_Forall_insert_2 |]. exists f. rewrite Hnodes. by repeat (split; [done |]); auto.
  - do 3 eexists. split; [done |]. split; [by apply answer_no_update | done].
Qed.

Lemma hash_exec_delete q M k h : inv false q M ->
  exists r q' M', exec false (Delete k h) q = Some (r, q') /\ answer M (Delete k h) r M' /\ inv false q' M'.
Proof.
  intros Hinv. pose proof Hinv as [Hlen (ls & HM & Hdl & Hvals & f & Hfl & Hvl & Hheld & Hserves)].
  destruct (find_spec n Hn q M ls k HM) as (head & prev & p & Hf & Hhead & Hw & Hp).
  cbn [exec]. unfold deleteKey_FL. rewrite (bucket_of_hash n Hn q M ls k _ HM (index_hint k h q)), Hf. cbn [mbind option_bind]. destruct p as [a|].
  - destruct Hp as (w & next & Hm & Ha). rewrite Ha. cbn [mbind option_bind].
    assert (Hpop : forall fl, exists s ls', match prev with
        | None => table ← set (hash_table_ q) (hash k (table_of q)) next; Some (memory q, table)
        | Some b => r ← memory q !! b; Some (<[b := mkNode (mKey r) (mValue r) next]> (memory q), hash_table_ q)
        end = Some s /\
      table_holds n (with_table (i32 (data_num_ q - 1)) (snd s) (delete a (fst s)) fl (allocator_VL_ q) q) (delete k M) ls' /\
      a ∈ nodes_of ls /\ nodes_of ls' = nodes_of ls ∖ {[a]})
      by (intros fl; by apply (pop_holds n Hn q M ls k w head prev a (mkNode k w next))).
    destruct (Hpop None) as (s0 & ls0 & _ & _ & Hin & _). destruct (recycle_ok _ a f Hheld Hin) as (f' & Hrec & Hheld' & Hserves').
    destruct (Hpop (Some f')) as (s & ls' & Hs & HM' & _ & Hnodes). cbn [link]. rewrite Hs. cbn [mbind option_bind]. rewrite Hfl. cbn [mbind option_bind].
    rewrite Hrec. cbn [mbind option_bind]. do 3 eexists. split; [done |]. split; [by eapply answer_delete |]. split; [done |].
    exists ls'. split; [exact HM' |]. split; [done |]. split; [by apply map_Forall_delete |]. exists f'. rewrite Hnodes. by repeat (split; [done |]); auto.
  - do 3 eexists. split; [done |]. split; [by apply answer_no_delete | done].
Qed.

Lemma empty_holds ln fl vl i0 ini : table_holds n (mkSearch ln 0 n (replicate (Z.to_nat n) None) ∅ fl vl 0 i0 ini : state) ∅ (replicate (Z.to_nat n) []).
Proof.
  pose proof (construct_holds_in (K := Z) (V := bytes) (loc := addr) n n (fun k => k) (Hd n Hn) (Hmax n Hn) ∅) as H. exact H.
Qed.

Lemma exec_clear vl q M : inv vl q M -> exists q', exec vl Clear q = Some (0, None, q') /\ inv vl q' ∅.
Proof.
  intros [Hlen (ls & HM & Hal)]. pose proof (table_length _ _ _ _ _ _ HM) as Hlt. cbn in Hlt. pose proof HM as (_ & Hb & _). cbn in Hb.
  assert (Hrep : length (hash_table_ q) = Z.to_nat n) by lia. assert (Hnone : nodes_of (replicate (Z.to_nat n) []) = ∅).
  { unfold nodes_of. generalize (Z.to_nat n). intros k. induction k as [|k IH]; [done | exact IH]. }
  cbn [exec]. unfold clear. rewrite Hrep, Hb. destruct vl.
  - destruct Hal as (l & Hl & Hf & Hheld & Hserves). rewrite Hl, Hf. destruct (reset_ok _ l Hheld) as (l' & Hr & Hheld' & Hserves').
    rewrite Hr. cbn [mbind option_bind fmap option_fmap option_map]. eexists. split; [done |]. split; [done |].
    exists (replicate (Z.to_nat n) []). split; [apply empty_holds |]. exists l'. rewrite Hnone. by repeat (split; [done |]); auto.
  - destruct Hal as (Hdl & Hvals & f & Hf & Hl & Hheld & Hserves). rewrite Hl, Hf. destruct (reset_ok _ f Hheld) as (f' & Hr & Hheld' & Hserves').
    rewrite Hr. cbn [mbind option_bind fmap option_fmap option_map]. eexists. split; [done |]. split; [done |].
    exists (replicate (Z.to_nat n) []). split; [apply empty_holds |]. split; [done |]. split; [apply map_Forall_empty |].
    exists f'. rewrite Hnone. by repeat (split; [done |]); auto.
Qed.

Lemma hash_exec_ok vl c q M : inv vl q M -> accepts vl c -> exists r q' M', exec vl c q = Some (r, q') /\ answer M c r M' /\ inv vl q' M'.
Proof.
  intros Hinv Hacc. destruct c as [k v h|k h|k v h|k h| |].
  - destruct vl; [by apply exec_add_VL | by apply exec_add_FL].
  - destruct (exec_find vl q M k h Hinv) as (r & q' & H1 & H2 & H3). by exists r, q', M.
  - pose proof Hacc as [-> _]. by apply exec_update.
  - cbn in Hacc. subst vl. by apply hash_exec_delete.
  - exists (data_num_ q, None), q, M. split; [done |]. split; [| done]. pose proof Hinv as [_ (ls & (_ & _ & _ & _ & _ & Hsize) & _)].
    cbn in Hsize. rewrite Hsize. apply answer_num.
  - destruct (exec_clear vl q M Hinv) as (q' & H1 & H2). exists (0, None), q', ∅. split; [done |]. split; [apply answer_clear | done].
Qed.

Lemma hash_execs_ok vl cs : forall q M, inv vl q M -> Forall (accepts vl) cs ->
  exists rs q' M', execs vl cs q = Some (rs, q') /\ answers M cs rs M' /\ inv vl q' M'.
Proof.
  induction cs as [|c cs IH]; intros q M Hinv Hacc; cbn [execs]; [exists [], q, M; split; [done |]; split; [constructor | done] |].
  apply Forall_cons in Hacc as [Hc Hacc]. destruct (hash_exec_ok vl c q M Hinv Hc) as ([code d] & q1 & M1 & H1 & H2 & H3). rewrite H1. cbn [mbind option_bind].
  destruct (IH q1 M1 H3 Hacc) as (rs & q2 & M2 & G1 & G2 & G3). rewrite G1. cbn [mbind option_bind].
  exists ((code, d) :: rs), q2, M2. split; [done |]. split; [by econstructor | done].
Qed.

(** *** Traversal *)







(** *** Persistence *)

Lemma chain_entries_ok (h : gmap addr node) l : forall fuel p, chain h p l -> (length l <= fuel)%nat -> chain_entries fuel h p = Some l.*2.
Proof.
  induction l as [|[a [k v]] l IH]; intros fuel p Hc Hf; cbn [chain length] in *; [subst p; by destruct fuel |].
  destruct fuel as [|fuel]; [lia |]. destruct Hc as (-> & next & E & Hc). cbn [chain_entries]. rewrite E. cbn [mbind option_bind link].
  rewrite (IH fuel next Hc) by lia. done.
Qed.

Lemma table_entries_ok (q : state) M ls : table_holds n q M ls -> table_entries (memory q) (hash_table_ q) = Some (concat ls).*2.
Proof.
  intros (_ & _ & HF & Hnd & _). cbn [table_of nodes pHashTable] in HF. revert Hnd. induction HF as [|p l table ls' Hc HF IH]; intros Hnd; [done |].
  cbn [concat table_entries] in *. rewrite fmap_app in Hnd. apply NoDup_app in Hnd as (Hl & _ & Hnd).
  rewrite (chain_entries_ok _ l) by (done || by apply (chain_size _ _ p)). rewrite (IH Hnd). cbn. by rewrite fmap_app.
Qed.

Lemma write_all_ok ws c : Forall (fun bs => bs <> []) ws ->
  exists p, write_all ws (mkFILE c (length c) []) = (true, mkFILE (c ++ concat ws) p []).
Proof.
  revert c. induction ws as [|bs ws IH]; intros c H; cbn [write_all concat]; [exists (length c); by rewrite app_nil_r |].
  apply Forall_cons in H as [Hb H]. rewrite fwrite_whole by done. cbn [content pos]. rewrite put_end, <- length_app.
  destruct (IH (c ++ bs) H) as [p Hp]. exists p. by rewrite Hp, <- app_assoc.
Qed.

(** The file of a table, once all writes have succeeded. *)
Definition saved (q : state) (es : list (Z * bytes)) : bytes :=
  le_encode 4 0xFFFFFFFF ++ le_encode 4 (bucket_size_ q) ++ le_encode 4 (data_num_ q) ++ le_encode 4 (data_len_ q) ++
  concat (concat (entry_writes (data_len_ q) <$> es)).

Lemma save_ok vl q M : inv vl q M -> initialized_ q = 1 -> (vl = true -> data_len_ q < 0 /\ map_Forall (fun _ v => v <> []) M) ->
  exists es, save true [] q = Some (0, saved q es) /\ es ≡ₚ map_to_list M.
Proof.
  intros [Hlen (ls & HM & Hal)] Hi Hvl. pose proof HM as (_ & _ & _ & _ & HS & _). pose proof (HashMap.spread_perm _ _ HS) as Hperm.
  rewrite contents_concat in Hperm. exists (concat ls).*2. split; [| exact Hperm].
  unfold save. rewrite Hi. cbn [Z.eqb negb]. rewrite (table_entries_ok q M ls HM). cbn [mbind option_bind]. unfold fopen.
  change (mkFILE [] 0 []) with (mkFILE [] (length (@nil byte)) []).
  destruct (write_all_ok ([le_encode 4 0xEEEEEEEE; le_encode 4 (bucket_size_ q); le_encode 4 (data_num_ q); le_encode 4 (data_len_ q)] ++
    concat (entry_writes (data_len_ q) <$> (concat ls).*2)) []) as [p Hp].
  - apply Forall_app. split; [repeat constructor; apply le_encode_nonempty; lia |]. apply Forall_concat, Forall_fmap, Forall_forall. intros [k v] He.
    assert (Hkv : M !! k = Some v) by (apply elem_of_map_to_list; by rewrite <- Hperm). unfold entry_writes. cbn [fst snd compose].
    destruct vl.
    + destruct (Hvl eq_refl) as [Hneg Hne]. rewrite (proj2 (Z.ltb_lt _ _) Hneg). repeat constructor; [apply le_encode_nonempty; lia.. |]. by apply (Hne k v).
    + destruct Hal as (Hdl & Hvals & _). rewrite (proj2 (Z.ltb_ge _ 0)) by lia. pose proof (Hvals k v Hkv) as Hv. cbn in Hv.
      destruct (Z.eqb_spec (data_len_ q) 0); repeat constructor; try (apply le_encode_nonempty; lia). intros ->. cbn in Hv. lia.
  - rewrite Hp. cbn [fseek_set]. unfold fseek_set. cbn [Z.leb Z.compare mbind option_bind content plan].
    rewrite fwrite_whole by (done || (apply le_encode_nonempty; lia)). cbn [snd content pos]. done.
Qed.

(** What comes after the header. *)
Definition payload (es : list (Z * bytes)) : bytes := concat (concat (entry_writes dl <$> es)).

Definition entry_ok (vl : bool) (e : Z * bytes) : Prop :=
  0 <= fst e < 2 ^ 64 /\ Z.of_nat (length (snd e)) <= 2 ^ 20 /\
  if vl then snd e <> [] /\ sizes (8 + 8 + 4 + Z.of_nat (length (snd e))) else Z.of_nat (length (snd e)) = dl.

(** The insertions of the entries one after the other, and whether the
    allocator grants all of them. *)
Definition replay (es : list (Z * bytes)) : list call := (fun e => Add (fst e) (snd e) false) <$> es.
Definition granted (rs : list (Z * option bytes)) : bool := forallb (fun r => fst r =? 0) rs.

(** The table [q'] holds the entries, or fewer when one of their insertions
    into [q] is refused. *)
Definition loaded (vl : bool) (es : list (Z * bytes)) (M0 : gmap Z bytes) (q q' : state) : Prop :=
  exists M' rs q3, inv vl q' M' /\ M' ⊆ list_to_map es ∪ M0 /\ execs vl (replay es) q = Some (rs, q3) /\
    if granted rs then M' = list_to_map es ∪ M0 else (size M' < size M0 + length es)%nat.

Lemma loaded_end vl M0 q : inv vl q M0 -> loaded vl [] M0 q q.
Proof. intros Hinv. exists M0, [], q. cbn. by rewrite (left_id_L ∅ (∪)). Qed.

Lemma entries_accepted vl es : Forall (entry_ok vl) es -> Forall (accepts vl) (replay es).
Proof.
  intros Hok. apply Forall_fmap. eapply Forall_impl; [exact Hok |]. intros [k v] (_ & _ & H). destruct vl; cbn in *; [by destruct H | done].
Qed.

Lemma loaded_stop vl k v es M0 q q1 d : inv vl q1 M0 -> (forall k', k' ∈ k :: es.*1 -> M0 !! k' = None) -> Forall (entry_ok vl) es ->
  exec vl (Add k v false) q = Some (-1, d, q1) -> loaded vl ((k, v) :: es) M0 q q1.
Proof.
  intros Hinv Hk Hok Hex. destruct (hash_execs_ok vl (replay es) q1 M0 Hinv (entries_accepted _ _ Hok)) as (rs & q3 & _ & He & _).
  exists M0, ((-1, d) :: rs), q3. split; [done |]. split; [| split; [| cbn; lia]].
  - apply map_union_subseteq_r, map_disjoint_spec. intros k' x y Hx Hy. apply elem_of_list_to_map_2 in Hx.
    rewrite (Hk k') in Hy; [done |]. apply (list_elem_of_fmap_2 fst) in Hx. exact Hx.
  - cbn [replay fmap list_fmap execs fst snd]. rewrite Hex. cbn [mbind option_bind]. fold (replay es). by rewrite He.
Qed.

Lemma loaded_step vl k v es M0 q q1 q' d : k ∉ es.*1 -> M0 !! k = None -> exec vl (Add k v false) q = Some (0, d, q1) ->
  loaded vl es (<[k := v]> M0) q1 q' -> loaded vl ((k, v) :: es) M0 q q'.
Proof.
  intros Hk Hm Hex (M' & rs & q3 & Hinv & Hsub & He & Hsize). assert (Hu : list_to_map ((k, v) :: es) ∪ M0 = list_to_map es ∪ <[k := v]> M0).
  { cbn. rewrite <- insert_union_l, insert_union_r; [done |]. by apply not_elem_of_list_to_map_1. }
  exists M', ((0, d) :: rs), q3. rewrite Hu. split; [done |]. split; [done |]. split.
  - cbn [replay fmap list_fmap execs fst snd]. rewrite Hex. cbn [mbind option_bind]. fold (replay es). by rewrite He.
  - change (granted ((0, d) :: rs)) with (granted rs). destruct (granted rs); [done |].
    rewrite map_size_insert_None in Hsize by done. cbn. lia.
Qed.

Lemma keys_tail M0 k v (es : list (Z * bytes)) : k ∉ es.*1 -> (forall k', k' ∈ (k :: es.*1) -> M0 !! k' = None) ->
  forall k', k' ∈ es.*1 -> (<[k := v]> M0 : gmap Z bytes) !! k' = None.
Proof. intros Hk Hm k' Hk'. rewrite lookup_insert_ne by (intros <-; done). apply Hm. by right. Qed.

Lemma addKey_VL_exec q M k v : inv true q M -> sizes (8 + 8 + 4 + Z.of_nat (length v)) -> M !! k = None ->
  exists code x d q', addKey_VL k v (Z.of_nat (length v)) q = Some (code, x, q') /\ exec true (Add k v false) q = Some (code, d, q') /\
    ((code = 0 /\ inv true q' (<[k := v]> M)) \/ (code = -1 /\ inv true q' M)).
Proof.
  intros Hinv Hs Hm. destruct (hash_exec_ok true (Add k v false) q M Hinv Hs) as (r & q' & M' & He & Ha & Hinv'). cbn [exec] in *.
  destruct (addKey_VL k v (Z.of_nat (length v)) q) as [[[code x] q1]|]; [| done]. cbn [mbind option_bind] in *. destruct x as [x1 x2].
  injection He as <- <-. eexists code, (x1, x2), _, q1. split; [done |]. split; [done |]. inversion Ha; subst; (congruence || auto).
Qed.

Lemma fread_at_end k c p : (length c < p + k)%nat -> exists f, fread k (mkFILE c p []) = (None, f).
Proof. intros H. pose proof (fread_end k (mkFILE c p []) H) as Hf. destruct (fread k (mkFILE c p [])) as [r f]. cbn in Hf. subst r. by exists f. Qed.

Lemma load_VL_ok c es : dl < 0 -> forall fuel p q M0, inv true q M0 -> region c p (payload es) -> (p + length (payload es))%nat = length c ->
  (length es < fuel)%nat -> Forall (entry_ok true) es -> NoDup es.*1 -> (forall k, k ∈ es.*1 -> M0 !! k = None) ->
  exists q', load_VL fuel (mkFILE c p []) q = Some q' /\ loaded true es M0 q q'.
Proof.
  intros Hdl. induction es as [|[k v] es IH]; intros fuel p q M0 Hinv Hr Hend Hf Hok Hnd Hm; (destruct fuel as [|fuel]; [cbn in Hf; lia |]); cbn [load_VL].
  - destruct (fread_at_end 12 c p) as [f' ->]; [cbn in *; lia |]. exists q. split; [done |]. by apply loaded_end.
  - apply Forall_cons in Hok as [(Hk & Hlen & Hne & Hsz) Hok]. cbn [fst snd] in *. cbn [fmap list_fmap fst] in Hnd, Hm. apply NoDup_cons in Hnd as [Hnk Hnd].
    assert (Hpay : payload ((k, v) :: es) = (le_encode 8 k ++ le_encode 4 (Z.of_nat (length v))) ++ v ++ payload es).
    { unfold payload. cbn [fmap list_fmap concat]. rewrite concat_app. unfold entry_writes at 1. rewrite (proj2 (Z.ltb_lt _ _) Hdl). cbn [fst snd concat].
      by rewrite app_nil_r, <- !app_assoc. }
    rewrite Hpay in Hr, Hend. rewrite !region_app, !length_app, !length_le_encode in Hr. destruct Hr as (Hr1 & Hr2 & Hr3).
    rewrite (fread_at 12 c p (le_encode 8 k ++ le_encode 4 (Z.of_nat (length v)))); [| by apply region_app; rewrite length_le_encode | by rewrite length_app, !length_le_encode | done].
    rewrite drop_app_length', take_app_length' by (by rewrite length_le_encode).
    rewrite i32_le_decode, i32_small by (unfold is_i32, INT32_MIN, INT32_MAX; lia).
    rewrite (proj2 (Z.ltb_ge _ 0)), (proj2 (Z.ltb_ge _ _)) by lia. cbn [orb]. rewrite Nat2Z.id.
    rewrite (fread_at (length v) c _ v); [| done | done | by destruct v].
    rewrite le_decode_encode, Z.mod_small by (cbn; lia).
    destruct (addKey_VL_exec q M0 k v Hinv Hsz) as (code & x & d & q1 & Hadd & Hex & Hcase); [apply Hm; by left |]. rewrite Hadd. cbn [mbind option_bind].
    destruct Hcase as [[-> Hinv1]|[-> Hinv1]].
    + cbn [Z.eqb]. destruct (IH fuel (p + 12 + length v)%nat q1 _ Hinv1) as (q' & Hload & Hl);
        [by replace (p + 12)%nat with (p + (8 + 4))%nat by lia | rewrite !length_app, !length_le_encode in Hend; lia | cbn in Hf; lia | done | done
        | by apply keys_tail |].
      exists q'. split; [done |]. eapply loaded_step; [done | apply Hm; by left | done | done].
    + exists q1. split; [done |]. by eapply loaded_stop.
Qed.

Lemma addKey_FL_exec q M k v buffer : inv false q M -> Z.of_nat (length v) = dl -> M !! k = None -> (dl <> 0 -> buffer = v) ->
  exists code x d q', addKey_FL was k (Some buffer) (-1) q = Some (code, x, q') /\ exec false (Add k v false) q = Some (code, d, q') /\
    ((code = 0 /\ inv false q' (<[k := v]> M)) \/ (code = -1 /\ inv false q' M)).
Proof.
  intros Hinv Hs Hm Hb. assert (Hsame : addKey_FL was k (Some buffer) (-1) q = addKey_FL was k (Some v) (-1) q).
  { destruct (decide (dl = 0)) as [Hz|Hz]; [| by rewrite Hb]. unfold addKey_FL. rewrite (inv_len _ _ _ Hinv), Hz. done. }
  rewrite Hsame. destruct (hash_exec_ok false (Add k v false) q M Hinv Hs) as (r & q' & M' & He & Ha & Hinv'). cbn [exec] in *.
  destruct (addKey_FL was k (Some v) (-1) q) as [[[code x] q1]|]; [| done]. cbn [mbind option_bind] in *.
  injection He as <- <-. eexists code, x, _, q1. split; [done |]. split; [done |]. inversion Ha; subst; (congruence || auto).
Qed.

Lemma load_FL_ok c es : 0 <= dl <= 2 ^ 20 -> forall fuel p buffer q M0, inv false q M0 -> region c p (payload es) -> (p + length (payload es))%nat = length c ->
  (length es < fuel)%nat -> Forall (entry_ok false) es -> NoDup es.*1 -> (forall k, k ∈ es.*1 -> M0 !! k = None) ->
  exists q', load_FL was fuel (mkFILE c p []) buffer q = Some q' /\ loaded false es M0 q q'.
Proof.
  intros Hdl. induction es as [|[k v] es IH]; intros fuel p buffer q M0 Hinv Hr Hend Hf Hok Hnd Hm; (destruct fuel as [|fuel]; [cbn in Hf; lia |]); cbn [load_FL].
  - destruct (fread_at_end 8 c p) as [f' ->]; [cbn in *; lia |]. exists q. split; [done |]. by apply loaded_end.
  - apply Forall_cons in Hok as [(Hk & Hlen & Hsz) Hok]. cbn [fst snd] in *. cbn [fmap list_fmap fst] in Hnd, Hm. apply NoDup_cons in Hnd as [Hnk Hnd].
    assert (Hpay : payload ((k, v) :: es) = le_encode 8 k ++ v ++ payload es).
    { unfold payload. cbn [fmap list_fmap concat]. rewrite concat_app. unfold entry_writes at 1. rewrite (proj2 (Z.ltb_ge dl 0)) by lia. cbn [fst snd].
      destruct (Z.eqb_spec dl 0); cbn [concat]; rewrite ?app_nil_r, <- ?app_assoc; [| done]. destruct v; [done | cbn in *; lia]. }
    rewrite Hpay in Hr, Hend. rewrite !region_app, length_le_encode in Hr. destruct Hr as (Hr1 & Hr2 & Hr3).
    rewrite (fread_at 8 c p _ Hr1) by (by rewrite ?length_le_encode). rewrite (inv_len _ _ _ Hinv), le_decode_encode, Z.mod_small by (cbn; lia).
    assert (Hnext : forall buffer', (dl <> 0 -> buffer' = v) -> exists q',
      ('(code, _, q) ← addKey_FL was k (Some buffer') (-1) q; if code =? 0 then load_FL was fuel (mkFILE c (p + 8 + length v) []) buffer' q else Some q) = Some q' /\
      loaded false ((k, v) :: es) M0 q q').
    { intros buffer' Hb. destruct (addKey_FL_exec q M0 k v buffer' Hinv Hsz) as (code & x & d & q1 & Hadd & Hex & Hcase); [apply Hm; by left | done |].
      rewrite Hadd. cbn [mbind option_bind]. destruct Hcase as [[-> Hinv1]|[-> Hinv1]].
      - cbn [Z.eqb]. destruct (IH fuel (p + 8 + length v)%nat buffer' q1 _ Hinv1) as (q' & Hload & Hl);
          [done | rewrite !length_app, length_le_encode in Hend; lia | cbn in Hf; lia | done | done | by apply keys_tail |].
        exists q'. split; [done |]. eapply loaded_step; [done | apply Hm; by left | done | done].
      - exists q1. split; [done |]. by eapply loaded_stop. }
    destruct (Z.eqb_spec dl 0) as [Hz|Hz].
    + destruct v; [| cbn in *; lia]. cbn [length] in Hnext. rewrite Nat.add_0_r in Hnext. by apply Hnext.
    + rewrite (proj2 (Z.ltb_ge (2 ^ 20) dl)) by lia. rewrite (fread_at (Z.to_nat dl) c _ v Hr2) by lia.
      replace (Z.to_nat dl) with (length v) by lia. by apply Hnext.
Qed.

Lemma length_es_payload es : (length es <= length (payload es))%nat.
Proof.
  unfold payload. induction es as [|e es IH]; cbn [fmap list_fmap concat length]; [lia |]. rewrite concat_app, length_app. unfold entry_writes at 1.
  cbn [concat]. rewrite length_app, length_le_encode. lia.
Qed.

(** Loading the file of a table into an empty table. *)
Lemma load_file_ok vl q M q2 es buffer : inv vl q2 ∅ -> data_len_ q = dl -> bucket_size_ q = n -> (if vl then dl < 0 else 0 <= dl <= 2 ^ 20) ->
  es ≡ₚ map_to_list M -> data_num_ q = Z.of_nat (size M) -> Z.of_nat (size M) <= INT32_MAX -> Forall (entry_ok vl) es ->
  exists q' rs q3 M', load_file was (saved q es) buffer q2 = Some (if granted rs then 0 else -4, q') /\
    execs vl (replay es) q2 = Some (rs, q3) /\ inv vl q' M' /\ if granted rs then M' = M else M' ⊂ M.
Proof.
  intros Hinv Hl Hb Hdl Hes Hnum Hsize Hok. unfold load_file, fopen. set (file := saved q es).
  assert (Hfile : region file 0 (saved q es)) by (intros i x; done). unfold saved in Hfile. rewrite Hl in Hfile. fold (payload es) in Hfile.
  rewrite !region_app, !length_le_encode in Hfile. destruct Hfile as (R1 & R2 & R3 & R4 & R5).
  assert (Hlen : length file = (16 + length (payload es))%nat).
  { unfold file, saved. rewrite Hl. fold (payload es). rewrite !length_app, !length_le_encode. lia. }
  rewrite (fread_at 4 file 0 _ R1) by (by rewrite ?length_le_encode). rewrite (fread_at 4 file _ _ R2) by (by rewrite ?length_le_encode).
  rewrite (fread_at 4 file _ _ R3) by (by rewrite ?length_le_encode). rewrite (fread_at 4 file _ _ R4) by (by rewrite ?length_le_encode).
  cbn [fmap option_fmap option_map]. rewrite le_decode_encode. change (0xFFFFFFFF mod 256 ^ Z.of_nat 4) with 0xFFFFFFFF. rewrite bool_decide_true by done. cbn [negb].
  rewrite (inv_len _ _ _ Hinv). cbn [from_option]. rewrite i32_le_decode, i32_small by (rewrite Hnum; unfold is_i32, INT32_MIN, INT32_MAX in *; lia).
  assert (Hload : exists q', (if dl <? 0 then load_VL (S (length file)) (mkFILE file (0 + 4 + 4 + 4 + 4) []) q2
      else load_FL was (S (length file)) (mkFILE file (0 + 4 + 4 + 4 + 4) []) buffer q2) = Some q' /\ loaded vl es ∅ q2 q').
  { assert (Hnd : NoDup es.*1) by (rewrite Hes; apply NoDup_fst_map_to_list). pose proof (length_es_payload es).
    destruct vl; [rewrite (proj2 (Z.ltb_lt _ _) Hdl); apply load_VL_ok | rewrite (proj2 (Z.ltb_ge _ _)) by lia; apply load_FL_ok]; (done || lia). }
  destruct Hload as (q' & Hq & M' & rs & q3 & Hinv' & Hsub & He & Hcase). cbn [Nat.add] in *. rewrite Hq. cbn [mbind option_bind].
  assert (HM : list_to_map es = M). { rewrite (list_to_map_proper es (map_to_list M)) by (rewrite ?Hes; apply NoDup_fst_map_to_list || done). apply list_to_map_to_list. }
  rewrite (right_id_L ∅ (∪)), HM in *. pose proof Hinv' as [_ (ls & (_ & _ & _ & _ & _ & Hs') & _)]. cbn in Hs'.
  assert (Hle : (size M' <= size M)%nat) by (by apply map_subseteq_size). rewrite i32_small in Hs' by (unfold is_i32, INT32_MIN, INT32_MAX in *; lia).
  rewrite Hs', Hnum. exists q', rs, q3, M'. rewrite map_size_empty in Hcase.
  assert (length es = size M) as Hles by (by rewrite Hes, length_map_to_list).
  destruct (granted rs).
  - subst M'. by rewrite Z.eqb_refl.
  - rewrite (proj2 (Z.eqb_neq _ _)) by lia. split; [done |]. split; [done |]. split; [done |]. split; [done |].
    intros Hsup. apply map_subseteq_size in Hsup. lia.
Qed.

Lemma exec_initialized vl c (q q' : state) r : exec vl c q = Some (r, q') -> initialized_ q' = initialized_ q.
Proof.
  intros He. destruct c; cbn [exec] in He; unfold addKey_VL, addKey_FL, searchKey_VL, searchKey_FL, updateKey_FL, deleteKey_FL, clear, find in He;
    repeat (case_match; simplify_option_eq; try done).
  by injection He as _ <-.
Qed.

Lemma execs_initialized vl cs : forall (q q' : state) rs, execs vl cs q = Some (rs, q') -> initialized_ q' = initialized_ q.
Proof.
  induction cs as [|c cs IH]; intros q q' rs; cbn [execs]; [by intros [= <- <-] |].
  destruct (exec vl c q) as [[[code d] q1]|] eqn:E; [| done]. cbn [mbind option_bind]. destruct (execs vl cs q1) as [[rs1 q2]|] eqn:E1; [| done].
  cbn [mbind option_bind]. intros [= <- <-]. by rewrite (IH _ _ _ E1), (exec_initialized _ _ _ _ _ E).
Qed.

(** *** A new table *)

(** The allocator a table starts with. *)
Definition ready (vl : bool) (f : F) (l : L) : Prop :=
  if vl then dl < 0 /\ held ∅ l /\ (forall sz, sizes sz -> serves sz l) else 0 <= dl /\ held ∅ f /\ serves (8 + 8 + dl) f.

Lemma hash_init_inv vl f l : ready vl f l -> exists q, init n dl true (Some l) (Some f) 0 construct = (0, q) /\ inv vl q ∅ /\ initialized_ q = 1.
Proof.
  assert (Hnone : nodes_of (replicate (Z.to_nat n) []) = ∅).
  { unfold nodes_of. generalize (Z.to_nat n). intros k. induction k as [|k IH]; [done | exact IH]. }
  assert (Hhead : mjoin (head (replicate (Z.to_nat n) (@None addr))) = None) by (by destruct (Z.to_nat n)).
  intros Hr. unfold init. cbn [negb Z.eqb construct allocator_FL_ allocator_VL_ traversal_index_ traversal_pos_ initialized_]. destruct vl.
  - destruct Hr as (Hneg & Hheld & Hserves). rewrite (proj2 (Z.ltb_lt _ _) Hneg). eexists. split; [done |]. split; [| done]. split; [done |].
    exists (replicate (Z.to_nat n) []). split; [apply empty_holds |]. exists l. rewrite Hnone. by repeat (split; [done |]).
  - destruct Hr as (Hpos & Hheld & Hserves). rewrite (proj2 (Z.ltb_ge _ _)) by lia. eexists. split; [done |]. split; [| done]. split; [done |].
    exists (replicate (Z.to_nat n) []). split; [apply empty_holds |]. split; [done |]. split; [apply map_Forall_empty |]. exists f. rewrite Hnone.
    by repeat (split; [done |]).
Qed.

End contract.

(** ** The allocators of the library *)

#[local] Existing Instances PoolAllocator.QPoolAllocator_Allocator PoolAllocator.QPoolAllocator_Recycler
  PoolAllocator.QPoolAllocator_laws PoolAllocator.QPoolAllocator_recycler_laws.

Definition new_pool (dl : Z) : PoolAllocator.QPoolAllocator * PoolAllocator.Memory :=
  let w0 := PoolAllocator.mkMemory (Mem.mkMem ∅ []) ∅ in
  match PoolAllocator.init (8 + 8 + dl) 1000 1000 PoolAllocator.construct w0 with
  | Some (_, a, w) => (a, w)
  | None => (PoolAllocator.construct, w0)
  end.

Definition new_allocator : QAllocator * Mem.Mem := (Allocator.construct 2000 (2 ^ 20), Mem.mkMem ∅ []).

(** Both are ready for a table, with the limits [init] and the constructors give them. *)
Lemma allocators_ready dl (vl : bool) : (if vl then dl < 0 else 0 <= dl <= 2 ^ 20) ->
  ready dl (fun sz => 0 < sz) vl (new_pool dl) new_allocator.
Proof.
  intros Hdl. destruct vl.
  - split; [done |]. split; [| done]. exists []. split; [| done]. by apply Allocator.construct_inv.
  - split; [lia |]. unfold new_pool.
    destruct (PoolAllocator.pool_init_inv (8 + 8 + dl) 1000 1000 PoolAllocator.construct (PoolAllocator.mkMemory (Mem.mkMem ∅ []) ∅)) as (r & a & w & Hi & Hc);
      [done | lia.. | unfold is_i32, INT32_MIN, INT32_MAX; lia |].
    rewrite Hi. destruct Hc as [(-> & Hinv & Hs & _)|[_ Ho]]; [| by apply not_elem_of_nil in Ho].
    split; [by exists [] |]. cbn. lia.
Qed.



(** C21. [save] writes every entry of a table (with keys of 64 bits and values of
    at most 1 MiB, not empty when their length may vary), and what [load] does
    with the file after its first test puts the entries into an empty table of
    the same kind: it returns 0 when the allocator grants the insertion of every
    entry, and the table then answers further calls from the saved map; it
    returns -4 when an insertion is refused, and the table then holds only a part
    of the map.  But [load] itself returns -1 for every table that [init] has
    prepared, and reads nothing. *)
Theorem QHashSearch_persists {F L : Type} `{!Allocator F, !AllocatorLaws F, !Recycler F, !RecyclerLaws F, !Allocator L, !AllocatorLaws L}
    (was : addr -> bytes) (n dl : Z) (sizes : Z -> Prop) (vl : bool) (f f2 : F) (l l2 : L) (cs later : list call) (buffer : bytes) :
  0 < n <= INT32_MAX -> dl <= 2 ^ 20 -> ready dl sizes vl f l -> ready dl sizes vl f2 l2 ->
  Forall (accepts dl sizes vl) cs -> Forall (accepts dl sizes vl) later -> Z.of_nat (length cs) <= INT32_MAX ->
  Forall (fun c => match c with Add k v _ | Update k v _ => entry_ok dl sizes vl (k, v) | _ => True end) cs ->
  exists q0 rs q M file q2 es rs2 q3 q' M' rs' q'' M'', init n dl true (Some l) (Some f) 0 construct = (0, q0) /\
    execs was vl cs q0 = Some (rs, q) /\ answers ∅ cs rs M /\
    save true [] q = Some (0, file) /\ init n dl true (Some l2) (Some f2) 0 construct = (0, q2) /\
    es ≡ₚ map_to_list M /\ execs was vl (replay es) q2 = Some (rs2, q3) /\
    load_file was file buffer q2 = Some (if granted rs2 then 0 else -4, q') /\
    (if granted rs2 then M' = M else M' ⊂ M) /\
    execs was vl later q' = Some (rs', q'') /\ answers M' later rs' M'' /\
    load was true true file buffer q2 = Some (-1, q2).
Proof.
  intros Hn Hmax Hr Hr2 Hcs Hlater Hlen Hok. destruct (hash_init_inv n dl sizes Hn vl f l Hr) as (q0 & Hi & Hinv & Hini).
  destruct (hash_execs_ok was n dl sizes Hn vl cs q0 ∅ Hinv Hcs) as (rs & q & M & He & Ha & Hinv').
  destruct (hash_init_inv n dl sizes Hn vl f2 l2 Hr2) as (q2 & Hi2 & Hinv2 & Hini2). rewrite <- (execs_initialized was vl cs q0 q rs He) in Hini.
  destruct (answers_values (fun k v => entry_ok dl sizes vl (k, v)) cs ∅ rs M Ha Hok (map_Forall_empty _)) as [HM Hs]. rewrite map_size_empty in Hs.
  destruct (save_ok n dl sizes vl q M Hinv' Hini) as (es & Hsave & Hes).
  { intros ->. rewrite (inv_len _ _ _ _ _ _ Hinv'). split; [apply Hr |]. intros k v Hkv. by destruct (HM k v Hkv) as (_ & _ & Hne & _). }
  pose proof Hinv' as [_ (ls & (_ & Hb & _ & _ & _ & Hnum) & _)]. cbn in Hb, Hnum.
  destruct (load_file_ok was n dl sizes Hn vl q M q2 es buffer Hinv2 (inv_len _ _ _ _ _ _ Hinv') Hb) as (q' & rs2 & q3 & M' & Hload & Hre & Hq' & Hcase).
  { destruct vl; destruct Hr; [done | lia]. }
  { done. } { rewrite Hnum. apply i32_small. unfold is_i32, INT32_MIN, INT32_MAX in *. lia. } { lia. }
  { apply Forall_forall. intros [k v] He'. apply HM. apply elem_of_map_to_list. by rewrite <- Hes. }
  destruct (hash_execs_ok was n dl sizes Hn vl later q' M' Hq' Hlater) as (rs' & q'' & M'' & E1 & E2 & _).
  exists q0, rs, q, M, (saved q es), q2, es, rs2, q3, q', M', rs', q'', M''. do 11 (split; [done |]). unfold load. by rewrite Hini2.
Qed.

Lemma QHashSearch_persists_witness :
  let cs := [Add 5 (str "five") false; Add 12 (str "twelve") false; Add (2 ^ 64 - 1) (str "last") false] in
  let later := [Find 12 false; Add 5 (str "cinq") false] in
  exists q0 rs q M file q2 es rs2 q3 q' M' rs' q'' M'', init 7 (-1) true (Some new_allocator) (Some (new_pool (-1))) 0 construct = (0, q0) /\
    execs (fun _ => []) true cs q0 = Some (rs, q) /\ answers ∅ cs rs M /\
    save true [] q = Some (0, file) /\ init 7 (-1) true (Some new_allocator) (Some (new_pool (-1))) 0 construct = (0, q2) /\
    es ≡ₚ map_to_list M /\ execs (fun _ => []) true (replay es) q2 = Some (rs2, q3) /\
    load_file (fun _ => []) file [] q2 = Some (if granted rs2 then 0 else -4, q') /\
    (if granted rs2 then M' = M else M' ⊂ M) /\
    execs (fun _ => []) true later q' = Some (rs', q'') /\ answers M' later rs' M'' /\
    load (fun _ => []) true true file [] q2 = Some (-1, q2).
Proof.
  apply (QHashSearch_persists (fun _ => []) 7 (-1) (fun sz => 0 < sz) true (new_pool (-1)) (new_pool (-1)) new_allocator new_allocator).
  - unfold INT32_MAX. lia.
  - lia.
  - apply allocators_ready. lia.
  - apply allocators_ready. lia.
  - repeat apply Forall_cons_2; try apply Forall_nil_2; done.
  - repeat apply Forall_cons_2; try apply Forall_nil_2; done.
  - unfold INT32_MAX. cbn. lia.
  - repeat apply Forall_cons_2; try apply Forall_nil_2; done.
Defined.

(** A value of no bytes ends [save], which reports success: the file keeps the
    mark of an unfinished one. *)
Example save_empty_value :
  (let '(_, q) := init 7 (-1) true (Some new_allocator) (Some (new_pool (-1))) 0 construct in
   '(_, q) ← execs (fun _ => []) true [Add 5 [] false] q;
   '(code, file) ← save true [] q;
   Some (code, take 4 file)) = Some (0, le_encode 4 0xEEEEEEEE).
Proof. vm_compute. reflexivity. Qed.

End HashSearch.
