(* ===== verification/StrId.v ===== *)
(** * Numbering of strings: src/include/common/qstridallocator.h

    [QStrIDAllocator] gives every string a number and keeps the numbering in a
    file.  A string is found by its 64-bit digest in a [QHashSearch], whose values
    are pointers to records cut from a [QAllocator]; the array [is_map_] finds the
    record of a number.  Memory is addressed by the eight bytes of a pointer.
    Undefined behaviour, a failed assertion and locking a mutex twice are [None]. *)

From stdpp Require Import gmap.
From S2P Require Import Prelude CLib Arrays HashMap LinearHash QMD5 Allocator PoolAllocator Stdio HashSearch.
Import Arrays LinearHash Allocator Stdio.

Module StrId.

Section model.
Context {F A : Type} `{!Allocator F, !Recycler F, !Allocator A}.
(** What the memory of a new node of the table holds, and the bytes of a pointer. *)
Variable was : addr -> bytes.
Variable ptr : addr -> bytes.

(** [pieces] is the memory that the allocator has handed out. *)
Record QStrIDAllocator : Type := mkStrId {
  string_max_ : Z;
  string_now_ : Z;
  rdb_fp_ : FILE;
  rdb_length_ : Z;
  is_map_ : list (option bytes);
  si_map_ : HashSearch.QHashSearch F A;
  allocator_ : A;
  pieces : gmap bytes bytes;
  mutex_ : bool
}.

(** The object of a constructor that sets nothing but the members that have a
    constructor of their own. *)
Definition construct (max now length : Z) (a : A) : QStrIDAllocator :=
  mkStrId max now (fopen [] []) length [] HashSearch.construct a ∅ false.

Definition with_file (f : FILE) (q : QStrIDAllocator) : QStrIDAllocator :=
  mkStrId (string_max_ q) (string_now_ q) f (rdb_length_ q) (is_map_ q) (si_map_ q) (allocator_ q) (pieces q) (mutex_ q).
Definition with_memory (a : A) (m : gmap bytes bytes) (q : QStrIDAllocator) : QStrIDAllocator :=
  mkStrId (string_max_ q) (string_now_ q) (rdb_fp_ q) (rdb_length_ q) (is_map_ q) (si_map_ q) a m (mutex_ q).
Definition with_table (si : HashSearch.QHashSearch F A) (q : QStrIDAllocator) : QStrIDAllocator :=
  mkStrId (string_max_ q) (string_now_ q) (rdb_fp_ q) (rdb_length_ q) (is_map_ q) si (allocator_ q) (pieces q) (mutex_ q).

(** The record at [p] gets the next number. *)
Definition enter (p : bytes) (size : Z) (q : QStrIDAllocator) : option QStrIDAllocator :=
  m ← set (is_map_ q) (string_now_ q) (Some p);
  Some (mkStrId (string_max_ q) (u32 (string_now_ q + 1)) (rdb_fp_ q) (i64 (rdb_length_ q + size)) m (si_map_ q) (allocator_ q) (pieces q) (mutex_ q)).

(** [while(1)] of [init]: the records of the file. *)
Fixpoint read_records (fuel : nat) (q : QStrIDAllocator) : option (Z * QStrIDAllocator) :=
  match fuel with
  | O => None
  | S fuel =>
      match fread 16 (rdb_fp_ q) with
      | (None, f) => if rdb_length_ q =? ftell f then Some (0, with_file f q) else None
      | (Some read_buf, f) =>
          let len := i32 (le_decode (slice 12 4 read_buf)) in
          let size := i32 (i32 (16 + len) + 8) in
          '(p, a) ← request size (allocator_ q);
          match p with
          | None => Some (-6, with_memory a (pieces q) (with_file f q))
          | Some p =>
              if i32 (len + 8) <? 0 then None
              else
                match fread (Z.to_nat (i32 (len + 8))) f with
                | (None, f) => Some (-7, with_memory a (<[ptr p := read_buf]> (pieces q)) (with_file f q))
                | (Some rest, f) =>
                    let q := with_memory a (<[ptr p := read_buf ++ rest]> (pieces q)) (with_file f q) in
                    if negb (string_now_ q =? le_decode (take 4 read_buf)) then None
                    else
                      '(code, _, si) ← HashSearch.addKey_FL was (le_decode (slice 4 8 read_buf)) (Some (ptr p)) (-1) (si_map_ q);
                      let q := with_table si q in
                      if code <? 0 then Some (-8, q) else q ← enter (ptr p) size q; read_records fuel q
                end
          end
      end
  end.

(** The arguments after the source's: whether there is memory for [is_map_], what
    the initialisation of the table meets, the file, if there is one, whether it
    can be opened, and what becomes of later writes. *)
Definition init (string_max : Z) (rdb_file : option bytes) (array table : bool) (fl : option F) (pool : Z)
    (file : option bytes) (opens : bool) (plan : list (option nat)) (q : QStrIDAllocator) : option (Z * QStrIDAllocator) :=
  match rdb_file with
  | None => Some (-1, q)
  | Some name =>
      if string_max =? 0 then Some (-1, q)
      else if (256 <=? length name)%nat then None
      else
        let started is_map si := mkStrId string_max (string_now_ q) (rdb_fp_ q) (rdb_length_ q) is_map si (allocator_ q) (pieces q) (mutex_ q) in
        if negb array then Some (-2, started [] (si_map_ q))
        else
          let is_map := replicate (Z.to_nat string_max) None in
          let '(r, si) := HashSearch.init (i32 (string_max `div` 2 + 1)) 8 table None fl pool (si_map_ q) in
          if negb (r =? 0) then Some (-3, started is_map si)
          else
            let ready f := mkStrId string_max 0 f 0 is_map si (allocator_ q) (pieces q) (mutex_ q) in
            match file with
            | None => if opens then Some (0, ready (fopen [] plan)) else Some (-4, ready (rdb_fp_ q))
            | Some bs => if opens then read_records (S (length bs)) (ready (fopen bs plan)) else Some (-5, ready (rdb_fp_ q))
            end
  end.

(** [id, md5, len, str, flg] *)
Definition record (id md5 : Z) (s : bytes) : bytes :=
  le_encode 4 id ++ le_encode 8 md5 ++ le_encode 4 (Z.of_nat (length s)) ++ s ++ str "!@#$$#@!".

(** The part of [str2id] between locking and unlocking: the code and [id]. *)
Definition find_or_add (md5 : Z) (s : bytes) (flush : bool) (q : QStrIDAllocator) : option (Z * option Z * QStrIDAllocator) :=
  '(found, val) ← HashSearch.searchKey_FL md5 (-1) (si_map_ q);
  if found =? 0 then
    p ← HashSearch.deref val (si_map_ q);
    piece ← pieces q !! p;
    Some (1, Some (le_decode (take 4 piece)), q)
  else if string_max_ q <=? string_now_ q then Some (-2, None, q)
  else
    let size := u32 (4 + 8 + 4 + Z.of_nat (length s) + 8) in
    '(p, a) ← request size (allocator_ q);
    match p with
    | None => Some (-3, None, with_memory a (pieces q) q)
    | Some p =>
        let buf := record (string_now_ q) md5 s in
        if size <? Z.of_nat (length buf) then None
        else
          let '(ok, f) := fwrite buf (rdb_fp_ q) in
          let q := with_file f (with_memory a (<[ptr p := buf]> (pieces q)) q) in
          if negb ok then Some (-4, None, q)
          else if negb flush then Some (-5, None, q)
          else
            '(code, _, si) ← HashSearch.addKey_FL was md5 (Some (ptr p)) (-1) (si_map_ q);
            let q := with_table si q in
            if negb (code =? 0) then Some (-6, None, q)
            else q' ← enter (ptr p) size q; Some (0, Some (string_now_ q), q')
    end.

(** [ctx] is the memory of the context of MD5 on the stack, [flush] whether
    [fflush] succeeds. *)
Definition str2id (ctx : bytes) (flush : bool) (str : option bytes) (str_len : Z) (q : QStrIDAllocator) : option (Z * option Z * QStrIDAllocator) :=
  match str with
  | None => Some (-1, None, q)
  | Some s =>
      if str_len =? 0 then Some (-1, None, q)
      else if Z.of_nat (length s) <? str_len then None
      else
        let s := take (Z.to_nat str_len) s in
        let md5 := Qmd5.MD5Bits64 ctx s in
        if mutex_ q then None else find_or_add md5 s flush q
  end.

(** The code, and [str], [str_len] and [md5]. *)
Definition id2str (id : Z) (q : QStrIDAllocator) : option (Z * option (bytes * Z * Z)) :=
  if string_now_ q <=? id then Some (-1, None)
  else
    buf ← get (is_map_ q) id;
    match buf with
    | None => Some (-2, None)
    | Some p =>
        piece ← pieces q !! p;
        if negb (id =? le_decode (take 4 piece)) then None
        else
          let str_len := le_decode (slice 12 4 piece) in
          Some (0, Some (slice 16 (Z.to_nat str_len) piece, str_len, le_decode (slice 4 8 piece)))
    end.

End model.

Arguments QStrIDAllocator : clear implicits.


(** ** Numbering strings by their digests *)

Definition digest (s : bytes) : Z := Qmd5.MD5Bits64 (replicate 64 NUL) s.



(** A string with the memory of the stack and the result of [fflush]; a number. *)
Inductive call : Type := Str2id (s ctx : bytes) (flush : bool) | Id2str (id : Z).
Inductive reply : Type := Number (code : Z) (id : option Z) | Text (code : Z) (r : option (bytes * Z * Z)).







(** *** Records *)










Section contract.
Context {F A : Type} `{!Allocator F, !AllocatorLaws F, !Recycler F, !RecyclerLaws F, !Allocator A, !AllocatorLaws A}.
Variable was : addr -> bytes.
(** Pointers are eight bytes; two addresses in use have different ones. *)
Variable ptr : addr -> bytes.
Hypothesis ptr_length : forall p, length (ptr p) = 8%nat.
Hypothesis ptr_inj : forall l (a : A) p p', held l a -> p ∈ l -> p' ∈ l -> ptr p = ptr p' -> p = p'.

#[local] Notation state := (QStrIDAllocator F A).

Definition exec (c : call) (q : state) : option (reply * state) :=
  match c with
  | Str2id s ctx flush => '(code, id, q) ← str2id was ptr ctx flush (Some s) (Z.of_nat (length s)) q; Some (Number code id, q)
  | Id2str id => '(code, r) ← id2str id q; Some (Text code r, q)
  end.

Fixpoint execs (cs : list call) (q : state) : option (list reply * state) :=
  match cs with
  | [] => Some ([], q)
  | c :: cs => '(r, q) ← exec c q; '(rs, q) ← execs cs q; Some (r :: rs, q)
  end.

Variable max : Z.
Hypothesis Hmax : 0 < max < 2 ^ 32 - 2.

(** The number of buckets. *)
#[local] Notation n := (max `div` 2 + 1).


(** Digests to pointers. *)
Definition index (D : list bytes) (ps : list addr) : gmap Z bytes := list_to_map (zip (digest <$> D) (ptr <$> ps)).



(** *** The index *)

Lemma index_keys D ps : length ps = length D -> (zip (digest <$> D) (ptr <$> ps)).*1 = digest <$> D.
Proof. intros Hl. apply fst_zip. rewrite !length_fmap. lia. Qed.

Lemma index_lookup D ps (i : nat) s p : length ps = length D -> NoDup (digest <$> D) -> D !! i = Some s -> ps !! i = Some p ->
  index D ps !! digest s = Some (ptr p).
Proof.
  intros Hl Hnd Hs Hp. unfold index. apply elem_of_list_to_map; [by rewrite index_keys |].
  apply list_elem_of_lookup_2 with i. rewrite lookup_zip_with, !list_lookup_fmap, Hs, Hp. done.
Qed.




(** *** Changes of the state *)





(** *** Calls of the table *)



(** *** A string *)




(** *** Calls *)





(** *** Opening *)






(** Unused allocators for the table and for the records. *)
Definition ready (f : F) (a : A) : Prop := held ∅ f /\ serves (8 + 8 + 8) f /\ held ∅ a /\ forall sz, 0 < sz -> serves sz a.


End contract.

(** ** The allocators of the library *)

#[local] Existing Instances PoolAllocator.QPoolAllocator_Allocator PoolAllocator.QPoolAllocator_Recycler
  PoolAllocator.QPoolAllocator_laws PoolAllocator.QPoolAllocator_recycler_laws.

(** Pointers made of the number of the block and the offset. *)
Definition pointer (p : addr) : bytes := le_encode 4 (Z.of_nat (fst p)) ++ le_encode 4 (snd p).

(** A [QAllocator] that owns the heap: the numbers of its blocks fit a pointer. *)
#[local, refine] Instance alone : AllocatorLaws (QAllocator * Mem.Mem) := {
  held l x := (exists live, Allocator.inv (fst x) (snd x) live /\ l = list_to_set (fst <$> live)) /\
    owns ∅ (pBlockLibrary (fst x)) (snd x) /\ dense (snd x) /\ mMaxBlockNum (fst x) < 2 ^ 31;
  serves n x := 0 < n
}.
Proof.
  - intros l n [a m] (Hl & Ho & Hd & Hm) Hn. destruct (request_ok (AllocatorLaws := QAllocator_laws) l n (a, m) Hl Hn) as (r & [a' m'] & Hr & _ & Hres).
    exists r, (a', m'). split; [done |]. split; [done |]. cbn in Hr, Ho, Hd, Hm. destruct (alloc n a m) as [[[r1 a1] m1]|] eqn:Ha; [| done]. cbn in Hr. injection Hr as -> -> ->.
    assert (Hkeep : owns ∅ (pBlockLibrary a') m' /\ dense m' /\ mMaxBlockNum a' < 2 ^ 31).
    { split; [by apply (alloc_owns _ _ _ _ _ _ _ Ho Ha) |]. split; [by apply (alloc_dense _ _ _ _ _ _ Ha) |].
      destruct Hl as (live & Hinv & _). destruct (alloc_ok n a m live Hinv Hn) as (r2 & a2 & m2 & Ha2 & [Hs _] & _). simplify_eq. lia. }
    destruct r as [p|]; [destruct Hres as [Hp Hh]; split; [done |] |]; done.
  - intros l [a m] (Hl & Ho & Hd & Hm). destruct (reset_ok (AllocatorLaws := QAllocator_laws) l (a, m) Hl) as (x & Hx & Hh & _).
    exists x. split; [done |]. split; [| done]. cbn in Hx. injection Hx as <-. done.
Defined.





(** A file that is opened again: the code, if the call returns. *)
Definition reopened (max : Z) (file : bytes) : option Z :=
  fst <$> init (fun _ => []) pointer max (Some (str "ids.rdb")) true true (Some (HashSearch.new_pool 8)) 0 (Some file) true []
    (construct 0 0 0 HashSearch.new_allocator).

(** The replies, and the file opened again with the same limit and with a smaller one. *)
Definition numbering (plan : list (option nat)) (max smaller : Z) (cs : list call) : option (list reply * option Z * option Z) :=
  '(_, q) ← init (fun _ => []) pointer max (Some (str "ids.rdb")) true true (Some (HashSearch.new_pool 8)) 0 None true plan
    (construct 0 0 0 HashSearch.new_allocator);
  '(rs, q) ← execs (fun _ => []) pointer cs q;
  Some (rs, reopened max (content (rdb_fp_ q)), reopened smaller (content (rdb_fp_ q))).

(** After a write that failed half way the numbering goes on, but its file can
    not be read again. *)
Example torn_record_spoils_file :
  numbering [Some 5%nat] 10 10 [Str2id (str "a") (replicate 64 NUL) true; Str2id (str "b") (replicate 64 NUL) true] =
  Some ([Number (-4) None; Number 0 (Some 0)], Some (-6), Some (-6)).
Proof. vm_compute. reflexivity. Qed.

(** A file with more strings than the limit is written past the end of [is_map_]. *)
Example smaller_limit_overflows :
  numbering [] 3 2 [Str2id (str "a") (replicate 64 NUL) true; Str2id (str "b") (replicate 64 NUL) true; Str2id (str "c") (replicate 64 NUL) true] =
  Some ([Number 0 (Some 0); Number 0 (Some 1); Number 0 (Some 2)], Some 0, None).
Proof. vm_compute. reflexivity. Qed.

End StrId.
