(* ===== verification/StoreManager.v ===== *)
(** * Hash file store: src/include/common/qstoremanager.h

    [QStoreManager] keeps keys in a hash file of buckets chained through
    overflow buckets, and values in a data file.  Both files are modelled byte
    by byte; every operation is the source's sequence of seeks, reads and
    writes, with the code it returns at each of them. *)

From S2P Require Import Prelude CLib Stdio.
Import Stdio.

Module StoreManager.

Abbreviation I_STORE_FILE_MARK := (str "@QHSM1.0") (only parsing).
Abbreviation I_STORE_BEGIN_MARK := (0xBBBBBBBBBBBBBBBB)%Z (only parsing).
Abbreviation I_STORE_END_MARK := (0xEEEEEEEEEEEEEEEE)%Z (only parsing).

Record QStoreManager : Type := mkStore {
  m_iDataLen : Z;
  m_iBucketNum : Z;
  m_iBucketOverflowNum : Z;
  m_iBucketSize : Z;
  m_iElementLen : Z;
  m_iBucketLen : Z;
  m_fpHash : FILE;
  m_fpData : FILE
}.

(** [sizeof(uint64_t)+3*sizeof(int32_t)] *)
Abbreviation m_iHeadLen := 20%Z (only parsing).

Definition set_hash f (s : QStoreManager) := mkStore (m_iDataLen s) (m_iBucketNum s) (m_iBucketOverflowNum s) (m_iBucketSize s)
  (m_iElementLen s) (m_iBucketLen s) f (m_fpData s).
Definition set_data f (s : QStoreManager) := mkStore (m_iDataLen s) (m_iBucketNum s) (m_iBucketOverflowNum s) (m_iBucketSize s)
  (m_iElementLen s) (m_iBucketLen s) (m_fpHash s) f.
Definition set_overflow n (s : QStoreManager) := mkStore (m_iDataLen s) (m_iBucketNum s) n (m_iBucketSize s)
  (m_iElementLen s) (m_iBucketLen s) (m_fpHash s) (m_fpData s).

(** ** Statements

    A statement goes on with a value, or returns ([inl]) a code and what it
    has copied to the caller's buffer; [None] is a loop that was not given enough
    rounds. *)

Definition M (A : Type) : Type := QStoreManager -> option ((Z * bytes + A) * QStoreManager).

#[export] Instance M_ret : MRet M := fun A a s => Some (inr a, s).
#[export] Instance M_bind : MBind M := fun A B k m s =>
  match m s with Some (inr a, s) => k a s | Some (inl e, s) => Some (inl e, s) | None => None end.

Definition ret {A} (code : Z) : M A := fun s => Some (inl (code, []), s).
Definition ret_data {A} (code : Z) (bs : bytes) : M A := fun s => Some (inl (code, bs), s).
Definition state : M QStoreManager := fun s => Some (inr s, s).

(** [if(fseek(...)==-1) return code] and the like, on the hash file. *)
Definition seek (p : Z) (code : Z) : M unit := fun s =>
  match fseek_set p (m_fpHash s) with Some f => Some (inr (), set_hash f s) | None => Some (inl (code, []), s) end.
Definition skip (d : Z) (code : Z) : M unit := fun s =>
  match fseek_cur d (m_fpHash s) with Some f => Some (inr (), set_hash f s) | None => Some (inl (code, []), s) end.
Definition read (n : nat) (code : Z) : M Z := fun s =>
  match fread n (m_fpHash s) with
  | (Some bs, f) => Some (inr (le_decode bs), set_hash f s)
  | (None, f) => Some (inl (code, []), set_hash f s)
  end.
Definition write (bs : bytes) (code : Z) : M unit := fun s =>
  let '(ok, f) := fwrite bs (m_fpHash s) in
  if ok then Some (inr (), set_hash f s) else Some (inl (code, []), set_hash f s).

(** The same on the data file. *)
Definition data_seek (p : Z) (code : Z) : M unit := fun s =>
  match fseek_set p (m_fpData s) with Some f => Some (inr (), set_data f s) | None => Some (inl (code, []), s) end.
Definition data_end : M Z := fun s => let f := fseek_end (m_fpData s) in Some (inr (ftell f), set_data f s).
Definition data_read (n : nat) (code : Z) : M bytes := fun s =>
  match fread n (m_fpData s) with
  | (Some bs, f) => Some (inr bs, set_data f s)
  | (None, f) => Some (inl (code, []), set_data f s)
  end.
Definition data_write (bs : bytes) (code : Z) : M unit := fun s =>
  let '(ok, f) := fwrite bs (m_fpData s) in
  if ok then Some (inr (), set_data f s) else Some (inl (code, []), set_data f s).

(** ** Operations *)

Definition get_bucket_position (bucketIndex : Z) (s : QStoreManager) : Z :=
  i32 (m_iHeadLen + i32 (bucketIndex * m_iBucketLen s)).

(** [for(int32_t i=0; i<m_iBucketSize; ++i)] of the two insertions: [value]
    writes the value and its position; the codes of [addKey_VL] are one lower. *)
Fixpoint add_slots (n : nat) (key : Z) (value : M unit) (vl : Z) : M unit :=
  match n with
  | O => mret ()
  | S n =>
      readKey ← read 8 (-2);
      if readKey =? key then ret 1
      else if readKey =? 0 then
        skip (-8) (-3);;
        write (le_encode 8 key) (-4);;
        write [x00] (-5);;
        value;;
        ret 0
      else
        s ← state;
        skip (m_iElementLen s - 8) (-11 - vl);;
        add_slots n key value vl
  end.

(** [Q_FOREVER] of the two insertions. *)
Fixpoint add_loop (fuel : nat) (key : Z) (value : M unit) (vl : Z) (bucketPos : Z) : M False :=
  match fuel with
  | O => fun _ => None
  | S fuel =>
      seek bucketPos (-1);;
      s ← state;
      add_slots (Z.to_nat (m_iBucketSize s)) key value vl;;
      overflowBucketIndex ← read 4 (-12 - vl);
      if i32 overflowBucketIndex =? 0 then
        s ← state;
        (fun s => Some (inr (), set_overflow (i32 (m_iBucketOverflowNum s + 1)) s));;
        let bucketIndex := i32 (m_iBucketNum s + i32 (m_iBucketOverflowNum s + 1)) in
        let bucketPos := get_bucket_position bucketIndex s in
        skip (-4) (-13 - vl);;
        write (le_encode 4 bucketIndex) (-14 - vl);;
        seek bucketPos (-15 - vl);;
        write (replicate (Z.to_nat (m_iBucketLen s)) NUL) (-16 - vl);;
        add_loop fuel key value vl bucketPos
      else
        s ← state;
        add_loop fuel key value vl (get_bucket_position (i32 overflowBucketIndex) s)
  end.

(** A code, the copied bytes and the state.  A walk that meets no bucket twice
    has fewer rounds than the hash file has bytes, and an insertion one more. *)
Definition finish (m : nat -> M False) (s : QStoreManager) : option (Z * bytes * QStoreManager) :=
  match m (S (length (content (m_fpHash s)))) s with
  | Some (inl r, s) => Some (r, s)
  | Some (inr e, _) => match e with end
  | None => None
  end.

Abbreviation first_bucket key s := (get_bucket_position (i32 (key mod m_iBucketNum s)) s) (only parsing).

(** The data file gets the mark, the value and the mark, the hash file the
    position. *)
Definition addKey_FL (key : Z) (vpData : bytes) (s : QStoreManager) : option (Z * bytes * QStoreManager) :=
  let value :=
    s ← state;
    if 0 <? m_iDataLen s then
      vPosition ← data_end;
      data_write (le_encode 8 I_STORE_BEGIN_MARK) (-7);;
      data_write (take (Z.to_nat (m_iDataLen s)) vpData) (-8);;
      data_write (le_encode 8 I_STORE_END_MARK) (-9);;
      write (le_encode 8 vPosition) (-10)
    else mret () in
  finish (fun fuel => add_loop fuel key value 0 (first_bucket key s)) s.

Definition addKey_VL (key : Z) (vpData : bytes) (s : QStoreManager) : option (Z * bytes * QStoreManager) :=
  let value :=
    vPosition ← data_end;
    data_write (le_encode 8 I_STORE_BEGIN_MARK) (-7);;
    data_write (le_encode 4 (Z.of_nat (length vpData))) (-8);;
    data_write vpData (-9);;
    data_write (le_encode 8 I_STORE_END_MARK) (-10);;
    write (le_encode 8 vPosition) (-11) in
  finish (fun fuel => add_loop fuel key value 1 (first_bucket key s)) s.

(** [Q_FOREVER] of the searches and the removals: a bucket, then the next one. *)
Fixpoint chain_loop (fuel : nat) (slots : M unit) (eread enone : Z) (bucketPos : Z) : M False :=
  match fuel with
  | O => fun _ => None
  | S fuel =>
      seek bucketPos (-1);;
      slots;;
      overflowBucketIndex ← read 4 eread;
      if i32 overflowBucketIndex =? 0 then ret enone
      else
        s ← state;
        chain_loop fuel slots eread enone (get_bucket_position (i32 overflowBucketIndex) s)
  end.

(** The slots of [searchKey_FL]; [vpData] tells whether the caller wants the value. *)
Fixpoint search_slots_FL (n : nat) (key : Z) (vpData : bool) (maxDataSize : Z) : M unit :=
  match n with
  | O => mret ()
  | S n =>
      readKey ← read 8 (-2);
      deleteFlag ← read 1 (-3);
      s ← state;
      if (readKey =? key) && (deleteFlag =? 0) then
        if (0 <? m_iDataLen s) && vpData then
          if maxDataSize <? m_iDataLen s then ret (-4)
          else
            dataOffset ← read 8 (-5);
            data_seek (i64 dataOffset) (-6);;
            magic_mark ← data_read 8 (-7);
            if negb (le_decode magic_mark =? I_STORE_BEGIN_MARK) then ret (-7)
            else
              value ← data_read (Z.to_nat (m_iDataLen s)) (-8);
              magic_mark ← data_read 8 (-9);
              if negb (le_decode magic_mark =? I_STORE_END_MARK) then ret_data (-9) value
              else ret_data 0 value
        else ret 0
      else if readKey =? 0 then ret (-10)
      else
        skip (m_iElementLen s - 8 - 1) (-11);;
        search_slots_FL n key vpData maxDataSize
  end.

Definition searchKey_FL (key : Z) (vpData : bool) (maxDataSize : Z) (s : QStoreManager) : option (Z * bytes * QStoreManager) :=
  finish (fun fuel => chain_loop fuel (search_slots_FL (Z.to_nat (m_iBucketSize s)) key vpData maxDataSize) (-12) (-13)
    (first_bucket key s)) s.

Fixpoint search_slots_VL (n : nat) (key : Z) (maxDataSize : Z) : M unit :=
  match n with
  | O => mret ()
  | S n =>
      readKey ← read 8 (-2);
      deleteFlag ← read 1 (-3);
      dataOffset ← read 8 (-4);
      if (readKey =? key) && (deleteFlag =? 0) then
        data_seek (i64 dataOffset) (-5);;
        magic_mark ← data_read 8 (-6);
        if negb (le_decode magic_mark =? I_STORE_BEGIN_MARK) then ret (-6)
        else
          len ← data_read 4 (-7);
          let dataLen := i32 (le_decode len) in
          if (maxDataSize <? dataLen) || (dataLen <=? 0) then ret (-8)
          else
            value ← data_read (Z.to_nat dataLen) (-9);
            magic_mark ← data_read 8 (-10);
            if negb (le_decode magic_mark =? I_STORE_END_MARK) then ret_data (-10) value
            else ret_data dataLen value
      else if readKey =? 0 then ret (-11)
      else search_slots_VL n key maxDataSize
  end.

Definition searchKey_VL (key maxDataSize : Z) (s : QStoreManager) : option (Z * bytes * QStoreManager) :=
  finish (fun fuel => chain_loop fuel (search_slots_VL (Z.to_nat (m_iBucketSize s)) key maxDataSize) (-12) (-13)
    (first_bucket key s)) s.

(** The slots of the two removals, which are the same.  The source writes the
    mark straight after it has read the key, without the call of [fseek] that
    ISO C asks for between a read and a write of one stream; the model takes the
    write to happen at the position the read left, as glibc's streams do. *)
Fixpoint delete_slots (n : nat) (key : Z) : M unit :=
  match n with
  | O => mret ()
  | S n =>
      readKey ← read 8 (-2);
      if readKey =? key then write [x01] (-3);; ret 0
      else if readKey =? 0 then ret 1
      else
        s ← state;
        skip (m_iElementLen s - 8) (-4);;
        delete_slots n key
  end.

Definition deleteKey_FL (key : Z) (s : QStoreManager) : option (Z * bytes * QStoreManager) :=
  finish (fun fuel => chain_loop fuel (delete_slots (Z.to_nat (m_iBucketSize s)) key) (-5) (-6) (first_bucket key s)) s.

Definition deleteKey_VL (key : Z) (s : QStoreManager) : option (Z * bytes * QStoreManager) :=
  finish (fun fuel => chain_loop fuel (delete_slots (Z.to_nat (m_iBucketSize s)) key) (-5) (-6) (first_bucket key s)) s.

(** ** Opening *)

(** [(m_iElementLen)*m_iBucketSize+sizeof(int32_t)] and the length of an element. *)
Definition element_len (iDataLen : Z) : Z := if negb (iDataLen =? 0) then 17 else 9.
Definition bucket_len (iBucketSize iDataLen : Z) : Z := i32 (i32 (element_len iDataLen * iBucketSize) + 4).

(** The [fwrite] calls of a new hash file: the header gives the codes from -7
    down to -10, every bucket -11. *)
Fixpoint create_loop (writes : list bytes) (code : Z) (f : FILE) : Z * FILE :=
  match writes with
  | [] => (0, f)
  | bs :: writes =>
      let '(ok, f) := fwrite bs f in
      if ok then create_loop writes ((code - 1) `max` (-11)) f else (code, f)
  end.

(** [name] is the caller's string, [hash] and [data] the two files where they
    exist, [memory] the results of the allocation and of the calls of [fopen],
    [overflow] what the object holds before [init], which does not set it. *)
Definition init (name : bytes) (iBucketNum iBucketSize iDataLen : Z) (hash data : option bytes) (overflow : Z)
    (memory opens_hash opens_data : bool) (plan dplan : list (option nat)) : Z * option QStoreManager :=
  if (length (cstr name) =? 0)%nat || (iBucketNum <=? 0) || (iBucketSize <=? 0) then (-1, None)
  else match hash with
       | Some h =>
           if negb opens_hash then (-4, None)
           else
             let f := fopen h plan in
             let '(mark, f) := fread 8 f in
             if negb (bool_decide (mark = Some I_STORE_FILE_MARK)) then (-5, None)
             else
               let '(num, f) := fread 4 f in
               let '(size, f) := fread 4 f in
               let '(len, f) := fread 4 f in
               match num, size, len with
               | None, _, _ => (-6, None)
               | _, None, _ => (-7, None)
               | _, _, None => (-8, None)
               | Some num, Some size, Some len =>
                   let len := i32 (le_decode len) in
                   let size := i32 (le_decode size) in
                   let store d := mkStore len (i32 (le_decode num)) overflow size (element_len len) (bucket_len size len) f d in
                   if negb memory then (-9, None)
                   else if negb (len =? 0) then
                     match data with
                     | Some d => if opens_data then (0, Some (store (fopen d dplan))) else (-10, None)
                     | None => (-10, None)
                     end
                   else (0, Some (store (fopen [] [])))
               end
       | None =>
           if negb memory then (-4, None)
           else if negb opens_hash then (-5, None)
           else if negb (iDataLen =? 0) && negb opens_data then (-6, None)
           else
             let header := [I_STORE_FILE_MARK; le_encode 4 iBucketNum; le_encode 4 iBucketSize; le_encode 4 iDataLen] in
             let buckets := replicate (Z.to_nat iBucketNum) (replicate (Z.to_nat (bucket_len iBucketSize iDataLen)) NUL) in
             let '(code, f) := create_loop (header ++ buckets) (-7) (fopen [] plan) in
             if code =? 0
             then (0, Some (mkStore iDataLen iBucketNum overflow iBucketSize (element_len iDataLen) (bucket_len iBucketSize iDataLen)
                              f (fopen [] dplan)))
             else (code, None)
       end.

End StoreManager.
