(* ===== verification/StoreMap.v ===== *)
(** * Hash file store, the proofs: src/include/common/qstoremanager.h

    The hash file holds, for every base bucket, a path of buckets with the
    elements of the keys that hash to it; the data file holds the values.  The
    operations of [StoreManager] implement a finite map from keys to values
    with a mark for the removed ones. *)

From stdpp Require Import gmap.
From S2P Require Import Prelude CLib Stdio StoreManager.
Import Stdio StoreManager.

Module StoreMap.

(** ** Statements on states *)

Lemma bindM {A B} (m : M A) (k : A -> M B) s a s' : m s = Some (inr a, s') -> (m ≫= k) s = k a s'.
Proof. intros E. unfold mbind, M_bind. by rewrite E. Qed.

Lemma retM {A B} (m : M A) (k : A -> M B) s r s' : m s = Some (inl r, s') -> (m ≫= k) s = Some (inl r, s').
Proof. intros E. unfold mbind, M_bind. by rewrite E. Qed.

Section store.
(** The parameters a store keeps: the length of the values, the buckets, the slots of a bucket. *)
Variables (dl N Sz : Z).
Hypothesis HN : 0 < N.
Hypothesis HSz : 0 < Sz.

Definition E : nat := if negb (dl =? 0) then 17 else 9.
Definition S' : nat := Z.to_nat Sz.
Definition L : nat := E * S' + 4.

(** A state whose next writes succeed. *)
Definition st (ov : Z) (c : bytes) (p : nat) (dc : bytes) (dp : nat) : QStoreManager :=
  mkStore dl N ov Sz (Z.of_nat E) (Z.of_nat L) (mkFILE c p []) (mkFILE dc dp []).

Lemma read_st n code bs ov c p dc dp : region c p bs -> length bs = n -> n <> 0%nat ->
  read n code (st ov c p dc dp) = Some (inr (le_decode bs), st ov c (p + n) dc dp).
Proof.
  intros H <- Hn. unfold read. cbn [m_fpHash st]. rewrite fread_region; [done | by destruct bs | done].
Qed.

Lemma skip_st d code ov c p dc dp : 0 <= Z.of_nat p + d ->
  skip d code (st ov c p dc dp) = Some (inr (), st ov c (Z.to_nat (Z.of_nat p + d)) dc dp).
Proof.
  intros H. unfold skip, fseek_cur, fseek_set. cbn [m_fpHash st pos]. by rewrite (proj2 (Z.leb_le _ _) H).
Qed.

Lemma seek_st q code ov c p dc dp : 0 <= q -> seek q code (st ov c p dc dp) = Some (inr (), st ov c (Z.to_nat q) dc dp).
Proof. intros H. unfold seek, fseek_set. cbn [m_fpHash st pos]. by rewrite (proj2 (Z.leb_le _ _) H). Qed.

Lemma write_st bs code ov c p dc dp : bs <> [] ->
  write bs code (st ov c p dc dp) = Some (inr (), st ov (put p bs c) (p + length bs) dc dp).
Proof. intros H. unfold write. cbn [m_fpHash st]. by rewrite fwrite_whole. Qed.

Lemma data_write_st bs code ov c p dc : bs <> [] ->
  data_write bs code (st ov c p dc (length dc)) = Some (inr (), st ov c p (dc ++ bs) (length (dc ++ bs))).
Proof.
  intros H. unfold data_write. cbn [m_fpData st]. rewrite fwrite_whole by done. cbn [content pos]. rewrite put_end, length_app. done.
Qed.

Lemma data_read_st n code bs ov c p dc dp : region dc dp bs -> length bs = n -> n <> 0%nat ->
  data_read n code (st ov c p dc dp) = Some (inr bs, st ov c p dc (dp + n)).
Proof.
  intros H <- Hn. unfold data_read. cbn [m_fpData st]. rewrite fread_region; [done | by destruct bs | done].
Qed.

Lemma data_seek_st q code ov c p dc dp : 0 <= q -> data_seek q code (st ov c p dc dp) = Some (inr (), st ov c p dc (Z.to_nat q)).
Proof. intros H. unfold data_seek, fseek_set. cbn [m_fpData st pos]. by rewrite (proj2 (Z.leb_le _ _) H). Qed.

(** ** Elements and buckets *)

Record elem : Type := mkElem { ekey : Z; edel : bool; epos : Z }.

Definition enc_pos (q : Z) : bytes := if negb (dl =? 0) then le_encode 8 q else [].
Definition enc_elem (e : elem) : bytes := le_encode 8 (ekey e) ++ [if edel e then x01 else x00] ++ enc_pos (epos e).

Definition enc_elems (es : list elem) : bytes := concat (enc_elem <$> es).

Definition enc_bucket (es : list elem) (next : Z) : bytes :=
  enc_elems es ++ replicate (E * (S' - length es)) NUL ++ le_encode 4 next.

Definition is_key (k : Z) : Prop := 0 < k < 2 ^ 64.

Lemma length_enc_elem e : length (enc_elem e) = E.
Proof. unfold enc_elem, enc_pos, E. destruct (negb (dl =? 0)); rewrite !length_app, ?length_le_encode; reflexivity. Qed.

Lemma length_enc_elems es : length (enc_elems es) = (E * length es)%nat.
Proof. unfold enc_elems. induction es as [|e es IH]; cbn [fmap list_fmap concat length]; [lia |]. rewrite length_app, length_enc_elem, IH. lia. Qed.

Lemma length_enc_bucket es next : (length es <= S')%nat -> length (enc_bucket es next) = L.
Proof. intros H. unfold enc_bucket, L. rewrite !length_app, length_enc_elems, length_replicate, length_le_encode. nia. Qed.

Lemma E_pos : (9 <= E)%nat.
Proof. unfold E. destruct (negb _); lia. Qed.

Lemma S_pos : (0 < S')%nat.
Proof. unfold S'. lia. Qed.

Lemma key_read k : is_key k -> le_decode (le_encode 8 k) = k.
Proof. intros [H1 H2]. rewrite le_decode_encode. apply Z.mod_small. cbn. lia. Qed.

Definition base (b : nat) : nat := 20 + b * L.

(** ** The slots of a bucket *)

Definition keys (es : list elem) : list Z := ekey <$> es.

Lemma region_elem c p e : region c p (enc_elem e) ->
  region c p (le_encode 8 (ekey e)) /\ region c (p + 8) [if edel e then x01 else x00] /\ region c (p + 9) (enc_pos (epos e)).
Proof.
  unfold enc_elem. rewrite !region_app, length_le_encode. intros (H1 & H2 & H3). cbn [length] in H3.
  by replace (p + 9)%nat with (p + 8 + 1)%nat by lia.
Qed.

Lemma read_key_st code e ov c p dc dp : region c p (enc_elem e) -> is_key (ekey e) ->
  read 8 code (st ov c p dc dp) = Some (inr (ekey e), st ov c (p + 8) dc dp).
Proof.
  intros (H & _)%region_elem Hk. rewrite (read_st 8 code _ _ _ _ _ _ H); [| by rewrite length_le_encode | done]. by rewrite key_read.
Qed.

Lemma read_flag_st code e ov c p dc dp : region c p (enc_elem e) ->
  read 1 code (st ov c (p + 8) dc dp) = Some (inr (if edel e then 1 else 0), st ov c (p + 9) dc dp).
Proof.
  intros (_ & H & _)%region_elem. rewrite (read_st 1 code _ _ _ _ _ _ H) by done.
  replace (p + 8 + 1)%nat with (p + 9)%nat by lia. by destruct (edel e).
Qed.

Lemma key_neq_0 k : is_key k -> (k =? 0) = false.
Proof. intros [H _]. apply Z.eqb_neq. lia. Qed.

(** A scan that passes over elements one by one passes over a list of them. *)
Lemma scan_elems (slots : nat -> M unit) (passes : elem -> Prop) ov c dc dp :
  (forall e n p, region c p (enc_elem e) -> is_key (ekey e) -> passes e ->
     slots (S n) (st ov c p dc dp) = slots n (st ov c (p + E) dc dp)) ->
  forall es n p, region c p (enc_elems es) -> Forall is_key (keys es) -> Forall passes es ->
  slots (length es + n)%nat (st ov c p dc dp) = slots n (st ov c (p + E * length es) dc dp).
Proof.
  intros Hstep. induction es as [|e es IH]; intros n p Hr Hk Hp.
  - cbn. by rewrite Nat.mul_0_r, Nat.add_0_r.
  - unfold enc_elems in Hr. cbn [fmap list_fmap concat] in Hr. apply region_app in Hr as [He Hr].
    apply Forall_cons in Hk as [Hke Hk]. apply Forall_cons in Hp as [Hpe Hp]. rewrite length_enc_elem in Hr.
    cbn [length]. replace (S (length es) + n)%nat with (S (length es + n)) by lia. rewrite (Hstep e) by done.
    rewrite IH by done. do 2 f_equal. lia.
Qed.

Lemma add_pass key value vl ov c dc dp e n p : region c p (enc_elem e) -> is_key (ekey e) -> ekey e <> key ->
  add_slots (S n) key value vl (st ov c p dc dp) = add_slots n key value vl (st ov c (p + E) dc dp).
Proof.
  intros Hr Hk Hne. cbn [add_slots]. rewrite (bindM _ _ _ _ _ (read_key_st _ _ _ _ _ _ _ Hr Hk)).
  rewrite (proj2 (Z.eqb_neq _ _) Hne), (key_neq_0 _ Hk). pose proof E_pos.
  rewrite (bindM _ _ _ (st ov c (p + 8) dc dp) (st ov c (p + 8) dc dp)) by done. cbn [m_iElementLen st].
  erewrite bindM; [| apply skip_st; lia]. do 2 f_equal. lia.
Qed.

Lemma add_dup key value vl ov c dc dp e n p : region c p (enc_elem e) -> is_key (ekey e) -> ekey e = key ->
  add_slots (S n) key value vl (st ov c p dc dp) = Some (inl (1, []), st ov c (p + 8) dc dp).
Proof.
  intros Hr Hk <-. cbn [add_slots]. rewrite (bindM _ _ _ _ _ (read_key_st _ _ _ _ _ _ _ Hr Hk)). by rewrite Z.eqb_refl.
Qed.

Lemma read_zero_st n code ov c p dc dp : region c p (replicate n NUL) -> n <> 0%nat ->
  read n code (st ov c p dc dp) = Some (inr 0, st ov c (p + n) dc dp).
Proof.
  intros H Hn. rewrite (read_st n code _ _ _ _ _ _ H) by (try done; apply length_replicate).
  do 3 f_equal. clear. induction n as [|n IH]; cbn [replicate le_decode]; [done |]. by rewrite IH.
Qed.

Lemma add_free key value vl ov c dc dp n p : is_key key -> region c p (replicate 8 NUL) ->
  add_slots (S n) key value vl (st ov c p dc dp) =
    (value ≫= fun _ => ret 0) (st ov (put p (le_encode 8 key ++ [x00]) c) (p + 9) dc dp).
Proof.
  intros Hk Hr. cbn [add_slots]. rewrite (bindM _ _ _ _ _ (read_zero_st 8 _ _ _ _ _ _ Hr ltac:(done))).
  destruct Hk as [Hk _]. rewrite (proj2 (Z.eqb_neq 0 key)) by lia. rewrite Z.eqb_refl.
  erewrite bindM; [| apply skip_st; lia]. replace (Z.to_nat (Z.of_nat (p + 8) + -8)) with p by lia.
  erewrite bindM; [| apply write_st; by rewrite <- length_zero_iff_nil, length_le_encode]. rewrite length_le_encode.
  erewrite bindM; [| apply write_st; done]. cbn [length]. replace (p + 8 + 1)%nat with (p + 9)%nat by lia.
  replace (p + 8)%nat with (p + length (le_encode 8 key))%nat by (by rewrite length_le_encode). by rewrite put_put.
Qed.

Lemma search_FL_pass key vp mx ov c dc dp e n p : region c p (enc_elem e) -> is_key (ekey e) -> (ekey e <> key \/ edel e = true) ->
  search_slots_FL (S n) key vp mx (st ov c p dc dp) = search_slots_FL n key vp mx (st ov c (p + E) dc dp).
Proof.
  intros Hr Hk Hne. cbn [search_slots_FL]. rewrite (bindM _ _ _ _ _ (read_key_st _ _ _ _ _ _ _ Hr Hk)).
  rewrite (bindM _ _ _ _ _ (read_flag_st _ _ _ _ _ _ _ Hr)).
  rewrite (bindM _ _ _ (st ov c (p + 9) dc dp) (st ov c (p + 9) dc dp)) by done.
  replace ((ekey e =? key) && ((if edel e then 1 else 0) =? 0)) with false
    by (destruct Hne as [Hne| ->]; [by rewrite (proj2 (Z.eqb_neq _ _) Hne) | by rewrite andb_false_r]).
  rewrite (key_neq_0 _ Hk). cbn [m_iElementLen st]. pose proof E_pos. erewrite bindM; [| apply skip_st; lia]. do 2 f_equal. lia.
Qed.

Lemma search_VL_pass key mx ov c dc dp e n p : dl <> 0 -> region c p (enc_elem e) -> is_key (ekey e) -> (ekey e <> key \/ edel e = true) ->
  search_slots_VL (S n) key mx (st ov c p dc dp) = search_slots_VL n key mx (st ov c (p + E) dc dp).
Proof.
  intros Hdl Hr Hk Hne. cbn [search_slots_VL]. rewrite (bindM _ _ _ _ _ (read_key_st _ _ _ _ _ _ _ Hr Hk)).
  rewrite (bindM _ _ _ _ _ (read_flag_st _ _ _ _ _ _ _ Hr)). pose proof Hr as (_ & _ & Hp)%region_elem.
  unfold enc_pos in Hp. unfold E. rewrite (proj2 (Z.eqb_neq _ _) Hdl) in *. cbn [negb] in *.
  erewrite bindM; [| apply (read_st 8 _ _ _ _ _ _ _ Hp); [by rewrite length_le_encode | done]].
  replace ((ekey e =? key) && ((if edel e then 1 else 0) =? 0)) with false
    by (destruct Hne as [Hne| ->]; [by rewrite (proj2 (Z.eqb_neq _ _) Hne) | by rewrite andb_false_r]).
  rewrite (key_neq_0 _ Hk). do 2 f_equal. lia.
Qed.

Lemma delete_pass key ov c dc dp e n p : region c p (enc_elem e) -> is_key (ekey e) -> ekey e <> key ->
  delete_slots (S n) key (st ov c p dc dp) = delete_slots n key (st ov c (p + E) dc dp).
Proof.
  intros Hr Hk Hne. cbn [delete_slots]. rewrite (bindM _ _ _ _ _ (read_key_st _ _ _ _ _ _ _ Hr Hk)).
  rewrite (proj2 (Z.eqb_neq _ _) Hne), (key_neq_0 _ Hk). pose proof E_pos.
  rewrite (bindM _ _ _ (st ov c (p + 8) dc dp) (st ov c (p + 8) dc dp)) by done. cbn [m_iElementLen st].
  erewrite bindM; [| apply skip_st; lia]. do 2 f_equal. lia.
Qed.

(** ** Buckets *)

Lemma bucket_parts c b es next : (length es <= S')%nat -> region c (base b) (enc_bucket es next) ->
  region c (base b) (enc_elems es) /\ region c (base b + E * length es) (replicate (E * (S' - length es)) NUL) /\
  region c (base b + E * S') (le_encode 4 next).
Proof.
  intros Hl. unfold enc_bucket. rewrite !region_app, length_enc_elems, length_replicate. intros (H1 & H2 & H3).
  split; [done |]. split; [done |]. by replace (base b + E * S')%nat with (base b + E * length es + E * (S' - length es))%nat by nia.
Qed.

Lemma enc_elems_app es es' : enc_elems (es ++ es') = enc_elems es ++ enc_elems es'.
Proof. unfold enc_elems. by rewrite fmap_app, concat_app. Qed.

Lemma enc_elems_one e : enc_elems [e] = enc_elem e.
Proof. unfold enc_elems. cbn [fmap list_fmap concat]. apply app_nil_r. Qed.

Lemma bucket_put_elem c b es e es' next e' : region c (base b) (enc_bucket (es ++ e :: es') next) ->
  region (put (base b + E * length es) (enc_elem e') c) (base b) (enc_bucket (es ++ e' :: es') next).
Proof.
  unfold enc_bucket. rewrite !length_app. cbn [length]. rewrite !(cons_middle _ es), !enc_elems_app, !enc_elems_one, <- !app_assoc.
  rewrite <- (length_enc_elems es). apply region_put_middle. by rewrite !length_enc_elem.
Qed.

Lemma bucket_put_new c b es next e : (length es < S')%nat -> region c (base b) (enc_bucket es next) ->
  region (put (base b + E * length es) (enc_elem e) c) (base b) (enc_bucket (es ++ [e]) next).
Proof.
  intros Hl. unfold enc_bucket. rewrite length_app, enc_elems_app, enc_elems_one, <- !app_assoc. cbn [length].
  replace (E * (S' - length es))%nat with (E + E * (S' - (length es + 1)))%nat by nia. rewrite replicate_add, <- !app_assoc.
  rewrite <- (length_enc_elems es). apply region_put_middle. by rewrite length_enc_elem, length_replicate.
Qed.

Lemma bucket_put_next c b es next next' : (length es <= S')%nat -> region c (base b) (enc_bucket es next) ->
  region (put (base b + E * S') (le_encode 4 next') c) (base b) (enc_bucket es next').
Proof.
  intros Hl H. unfold enc_bucket in *. rewrite app_assoc in *.
  replace (E * S')%nat with (length (enc_elems es ++ replicate (E * (S' - length es)) NUL))
    by (rewrite length_app, length_enc_elems, length_replicate; nia).
  rewrite <- (app_nil_r (le_encode 4 next')). apply (region_put_middle _ _ _ (le_encode 4 next)); [by rewrite !length_app, !length_le_encode |].
  by rewrite app_nil_r.
Qed.

(** A write inside a bucket leaves the others. *)
Lemma other_bucket c b off d x reg : x <> b -> (off + length d <= L)%nat -> (length reg <= L)%nat ->
  region c (base x) reg -> region (put (base b + off) d c) (base x) reg.
Proof.
  intros Hne Ho Hr. apply region_put_other. unfold base.
  destruct (Nat.lt_ge_cases x b); [left | right]; nia.
Qed.

(** A bucket of zeros is an empty bucket. *)
Lemma empty_bucket : replicate L NUL = enc_bucket [] 0.
Proof.
  unfold enc_bucket, L. cbn [length]. rewrite Nat.sub_0_r. replace (le_encode 4 0) with (replicate 4 NUL) by reflexivity.
  by rewrite replicate_add.
Qed.

(** ** Paths *)

(** Buckets chained from the first one to the last, all full but the last. *)
Inductive path (c : bytes) : list nat -> list elem -> Prop :=
  | path_last b es : (length es <= S')%nat -> region c (base b) (enc_bucket es 0) -> path c [b] es
  | path_next b b' bs es es' : length es = S' -> b' <> 0%nat -> region c (base b) (enc_bucket es (Z.of_nat b')) ->
      path c (b' :: bs) es' -> path c (b :: b' :: bs) (es ++ es').

(** A position the source computes in 32 bits. *)
Definition fits (b : nat) : Prop := Z.of_nat (base b) < 2 ^ 31.

Lemma fits_index b : fits b -> i32 (Z.of_nat b) = Z.of_nat b.
Proof. unfold fits, base. intros H. apply i32_small. unfold is_i32, INT32_MIN, INT32_MAX. pose proof E_pos. unfold L in H. nia. Qed.

Lemma position_st b ov c p dc dp : fits b -> get_bucket_position (Z.of_nat b) (st ov c p dc dp) = Z.of_nat (base b).
Proof.
  intros H. unfold get_bucket_position. cbn [m_iBucketLen st]. unfold fits, base in *.
  rewrite (i32_small (Z.of_nat b * Z.of_nat L)) by (unfold is_i32, INT32_MIN, INT32_MAX; nia).
  rewrite i32_small by (unfold is_i32, INT32_MIN, INT32_MAX; nia). lia.
Qed.

Lemma path_frame c c' bs es : path c bs es ->
  (forall b reg, b ∈ bs -> (length reg <= L)%nat -> region c (base b) reg -> region c' (base b) reg) -> path c' bs es.
Proof.
  induction 1 as [b es Hl Hr|b b' bs es es' Hl Hb Hr Hp IH]; intros Hf.
  - apply path_last; [done |]. apply Hf; [set_solver | by rewrite length_enc_bucket | done].
  - apply path_next; [done | done | apply Hf; [set_solver | rewrite length_enc_bucket; lia | done] |].
    apply IH. intros x reg Hx. apply Hf. set_solver.
Qed.

Lemma path_bound c bs es b : path c bs es -> b ∈ bs -> (b < length c)%nat.
Proof.
  assert (Hb : forall x es next, (length es <= S')%nat -> region c (base x) (enc_bucket es next) -> (x < length c)%nat).
  { intros x es0 next Hl Hr. pose proof (length_enc_bucket es0 next Hl) as HL.
    assert (Hlen : (0 < length (enc_bucket es0 next))%nat) by (rewrite HL; unfold L; lia).
    apply region_bound in Hr; [| by intros H; rewrite H in Hlen; cbn in Hlen; lia]. rewrite HL in Hr. unfold base, L in Hr. lia. }
  induction 1 as [x es' Hl Hr|x b' bs es1 es2 Hl Hb' Hr Hp IH].
  - intros ->%list_elem_of_singleton. eauto.
  - intros [->|Hin]%elem_of_cons; [apply (Hb x es1 (Z.of_nat b')); (done || lia) | by apply IH].
Qed.

(** The link to the next bucket. *)
Lemma read_next_st code c b es next ov p dc dp : (length es <= S')%nat -> region c (base b) (enc_bucket es (Z.of_nat next)) -> fits next ->
  p = (base b + E * S')%nat ->
  read 4 code (st ov c p dc dp) = Some (inr (Z.of_nat next), st ov c (p + 4) dc dp).
Proof.
  intros Hl (_ & _ & H)%bucket_parts Hf ->; [| done]. rewrite (read_st 4 code _ _ _ _ _ _ H); [| by rewrite length_le_encode | done].
  rewrite le_decode_encode, Z.mod_small; [done |]. unfold fits, base, L in Hf. pose proof E_pos. cbn. nia.
Qed.

(** Bytes of the header, or of a bucket that is not among [bs]. *)
Definition outside (bs : list nat) (q : nat) (reg : bytes) : Prop :=
  (q + length reg <= 20)%nat \/ exists x, q = base x /\ x ∉ bs /\ (length reg <= L)%nat.

Lemma outside_put c bs b off d q reg : outside bs q reg -> b ∈ bs -> (off + length d <= L)%nat ->
  region c q reg -> region (put (base b + off) d c) q reg.
Proof.
  intros [Hq|(x & -> & Hx & Hl)] Hb Ho.
  - apply region_put_other. left. unfold base. lia.
  - apply other_bucket; [by intros -> | done | done].
Qed.

Lemma outside_mono bs bs' q reg : outside bs' q reg -> (forall b, b ∈ bs -> b ∈ bs') -> outside bs q reg.
Proof. intros [H|(x & -> & Hx & Hl)] Hs; [by left |]. right. exists x. split; [done |]. split; [| done]. intros Hb. by apply Hx, Hs. Qed.

(** The slot at [q] holds the element [e], which comes after [es1] and before
    [es2] on a path; it can be overwritten. *)
Record slot_at (c : bytes) (bs : list nat) (es1 : list elem) (e : elem) (es2 : list elem) (q : nat) : Prop := mkSlotAt {
  slot_region : region c q (enc_elem e);
  slot_path e' : path (put q (enc_elem e') c) bs (es1 ++ e' :: es2);
  slot_outside e' q' reg : outside bs q' reg -> region c q' reg -> region (put q (enc_elem e') c) q' reg
}.

Lemma path_put c bs es b off d : path c bs es -> b ∉ bs -> (off + length d <= L)%nat -> path (put (base b + off) d c) bs es.
Proof.
  intros Hp Hb Ho. apply (path_frame c); [done |]. intros x reg Hx Hl. apply other_bucket; [by intros -> | done | done].
Qed.

(** The slots before the last one, where the element is. *)
Lemma slot_in_bucket c b es e es' next : (length (es ++ e :: es') <= S')%nat -> region c (base b) (enc_bucket (es ++ e :: es') next) ->
  region c (base b + E * length es) (enc_elem e) /\ (E * length es + E <= L)%nat.
Proof.
  intros Hl (H & _)%bucket_parts; [| done]. rewrite length_app in Hl. cbn [length] in Hl. split; [| unfold L; nia].
  rewrite (cons_middle _ es), !enc_elems_app, !enc_elems_one, !region_app, length_enc_elems in H. by destruct H as (_ & H & _).
Qed.

Lemma slot_last c b es e es' : (length (es ++ e :: es') <= S')%nat -> region c (base b) (enc_bucket (es ++ e :: es') 0) ->
  slot_at c [b] es e es' (base b + E * length es).
Proof.
  intros Hl Hr. destruct (slot_in_bucket _ _ _ _ _ _ Hl Hr) as [H HL]. split; [done | |].
  - intros e'. apply path_last; [by rewrite length_app in * |]. by apply bucket_put_elem with e.
  - intros e' q' reg Ho. apply outside_put with [b]; [done | set_solver | by rewrite length_enc_elem].
Qed.

Lemma slot_first c b b' bs es e es' es2 : length (es ++ e :: es') = S' -> b' <> 0%nat ->
  region c (base b) (enc_bucket (es ++ e :: es') (Z.of_nat b')) -> path c (b' :: bs) es2 -> b ∉ b' :: bs ->
  slot_at c (b :: b' :: bs) es e (es' ++ es2) (base b + E * length es).
Proof.
  intros Hl Hb' Hr Hp Hb. destruct (slot_in_bucket c b es e es' (Z.of_nat b')) as [H HL]; [lia | done |]. split; [done | |].
  - intros e'. rewrite app_comm_cons, app_assoc. apply path_next; [by rewrite length_app in * | done | by apply bucket_put_elem with e |].
    apply path_put; [done | done | by rewrite length_enc_elem].
  - intros e' q' reg Ho. apply outside_put with (b :: b' :: bs); [done | set_solver | by rewrite length_enc_elem].
Qed.

Lemma slot_next c b b' bs es es1 e es2 q : length es = S' -> b' <> 0%nat -> b ∉ b' :: bs ->
  region c (base b) (enc_bucket es (Z.of_nat b')) -> slot_at c (b' :: bs) es1 e es2 q -> slot_at c (b :: b' :: bs) (es ++ es1) e es2 q.
Proof.
  intros Hl Hb' Hb Hr [H1 H2 H3]. split; [done | |].
  - intros e'. rewrite <- app_assoc. apply path_next; [done | done | | apply H2]. apply H3; [| done].
    right. exists b. split; [done |]. split; [done |]. rewrite length_enc_bucket; lia.
  - intros e' q' reg Ho. apply H3. apply outside_mono with (b :: b' :: bs); [done | set_solver].
Qed.

(** ** Walks along a path *)

Section walk.
(** A pass over the slots that leaves the files. *)
Variables (slots : nat -> M unit) (passes : elem -> Prop) (ov : Z) (c dc : bytes) (dp : nat).
Hypothesis slots_end : slots 0%nat = mret ().
Hypothesis slots_pass : forall e n p, region c p (enc_elem e) -> is_key (ekey e) -> passes e ->
  slots (S n) (st ov c p dc dp) = slots n (st ov c (p + E) dc dp).

Lemma bucket_pass b es next n : (length es <= S')%nat -> region c (base b) (enc_bucket es next) -> Forall is_key (keys es) -> Forall passes es ->
  (length es + n = S')%nat -> slots S' (st ov c (base b) dc dp) = slots n (st ov c (base b + E * length es) dc dp).
Proof.
  intros Hl (H & _)%bucket_parts Hk Hp <-; [| done]. by apply (scan_elems slots passes ov c dc dp slots_pass).
Qed.

Lemma bucket_full b es next : length es = S' -> region c (base b) (enc_bucket es next) -> Forall is_key (keys es) -> Forall passes es ->
  slots S' (st ov c (base b) dc dp) = Some (inr (), st ov c (base b + E * S') dc dp).
Proof. intros Hl Hr Hk Hp. rewrite (bucket_pass b es next 0) by (done || lia). by rewrite slots_end, Hl. Qed.

Lemma bucket_reaches b es e es' next : (length (es ++ e :: es') <= S')%nat -> region c (base b) (enc_bucket (es ++ e :: es') next) ->
  Forall is_key (keys es) -> Forall passes es ->
  exists n, slots S' (st ov c (base b) dc dp) = slots (S n) (st ov c (base b + E * length es) dc dp).
Proof.
  intros Hl (H & _)%bucket_parts Hk Hp; [| done]. rewrite (cons_middle _ es), enc_elems_app, region_app in H. destruct H as [H _].
  rewrite length_app in Hl. cbn [length] in Hl. exists (S' - length es - 1)%nat.
  rewrite <- (scan_elems slots passes ov c dc dp slots_pass) by done. f_equal. lia.
Qed.

Lemma bucket_room b es next : (length es < S')%nat -> region c (base b) (enc_bucket es next) -> Forall is_key (keys es) -> Forall passes es ->
  exists n, slots S' (st ov c (base b) dc dp) = slots (S n) (st ov c (base b + E * length es) dc dp) /\
    region c (base b + E * length es) (replicate E NUL).
Proof.
  intros Hl Hr Hk Hp. exists (S' - length es - 1)%nat. rewrite (bucket_pass b es next (S' - length es)) by (done || lia).
  split; [f_equal; lia |]. apply bucket_parts in Hr as (_ & H & _); [| lia].
  replace (E * (S' - length es))%nat with (E + E * (S' - length es - 1))%nat in H by nia.
  rewrite replicate_add, region_app in H. by destruct H as [H _].
Qed.

Variables (er en : Z).

Lemma seek_base b code p : seek (Z.of_nat (base b)) code (st ov c p dc dp) = Some (inr (), st ov c (base b) dc dp).
Proof. rewrite seek_st by lia. by rewrite Nat2Z.id. Qed.

(** A full bucket: the walk goes on in the next one. *)
Lemma chain_next fuel b b' es p : length es = S' -> region c (base b) (enc_bucket es (Z.of_nat b')) -> fits b' -> b' <> 0%nat ->
  Forall is_key (keys es) -> Forall passes es ->
  exists p', chain_loop (S fuel) (slots S') er en (Z.of_nat (base b)) (st ov c p dc dp) =
    chain_loop fuel (slots S') er en (Z.of_nat (base b')) (st ov c p' dc dp).
Proof.
  intros Hl Hr Hf Hb Hk Hp. exists (base b + E * S' + 4)%nat. cbn [chain_loop]. rewrite (bindM _ _ _ _ _ (seek_base _ _ _)).
  rewrite (bindM _ _ _ _ _ (bucket_full b es _ Hl Hr Hk Hp)).
  erewrite bindM; [| apply (read_next_st _ c b es); [lia | done | done | done]].
  rewrite fits_index by done. rewrite (proj2 (Z.eqb_neq _ 0)) by lia.
  erewrite bindM; [| done]. by rewrite position_st.
Qed.

Lemma chain_hit bs es : path c bs es -> forall es1 e es2 (r : nat -> Z * bytes) (s' : nat -> QStoreManager) b fuel p,
  es = es1 ++ e :: es2 -> Forall is_key (keys es) -> Forall passes es1 -> Forall fits bs -> NoDup bs ->
  (forall n q, region c q (enc_elem e) -> slots (S n) (st ov c q dc dp) = Some (inl (r q), s' q)) ->
  head bs = Some b -> (length bs <= fuel)%nat ->
  exists q, chain_loop fuel (slots S') er en (Z.of_nat (base b)) (st ov c p dc dp) = Some (inl (r q), s' q) /\
    slot_at c bs es1 e es2 q.
Proof.
  induction 1 as [b es Hl Hr|b b' bs es es' Hl Hb Hr Hp IH]; intros es1 e es2 r s' b0 fuel p He Hk Hpa Hf Hnd Hhit [= <-] Hfuel;
    (destruct fuel as [|fuel]; [cbn in Hfuel; lia |]).
  - subst es. unfold keys in Hk. rewrite fmap_app in Hk. apply Forall_app in Hk as [Hk _].
    destruct (bucket_reaches b es1 e es2 0) as [n Hn]; [done.. |]. exists (base b + E * length es1)%nat.
    pose proof (slot_last c b es1 e es2 Hl Hr) as Hs. split; [| done]. cbn [chain_loop].
    rewrite (bindM _ _ _ _ _ (seek_base _ _ _)). apply retM. rewrite Hn. apply Hhit, Hs.
  - apply NoDup_cons in Hnd as [Hnb Hnd]. apply Forall_cons in Hf as [_ Hf]. unfold keys in Hk. rewrite fmap_app in Hk.
    pose proof Hk as [Hk1 Hk2]%Forall_app.
    destruct (app_eq_inv _ _ _ _ He) as [(k & Hes & He')|(k & Hes & He')].
    + destruct k as [|e' k].
      * rewrite app_nil_r in Hes. cbn in He'. subst es1 es'. rewrite <- (app_nil_r es).
        destruct (chain_next fuel b b' es p) as [p' Hn]; [done | done | by apply Forall_cons in Hf as [? _] | done | done | done |].
        rewrite Hn. destruct (IH [] e es2 r s' b' fuel p') as (q & Hq & Hs); [done.. | cbn in *; lia |].
        exists q. split; [done |]. by apply slot_next.
      * injection He' as <- ->. subst es.
        destruct (bucket_reaches b es1 e k (Z.of_nat b')) as [n Hn]; [lia | done | | done |].
        { rewrite fmap_app in Hk1. by apply Forall_app in Hk1 as [? _]. }
        exists (base b + E * length es1)%nat.
        pose proof (slot_first c b b' bs es1 e k es' Hl Hb Hr Hp Hnb) as Hs. split; [| done]. cbn [chain_loop].
        rewrite (bindM _ _ _ _ _ (seek_base _ _ _)). apply retM. rewrite Hn. apply Hhit, Hs.
    + subst es1 es'. apply Forall_app in Hpa as [Hpa1 Hpa2].
      destruct (chain_next fuel b b' es p) as [p' Hn]; [done | done | by apply Forall_cons in Hf as [? _] | done | done | done |].
      rewrite Hn. destruct (IH k e es2 r s' b' fuel p') as (q & Hq & Hs); [done.. | cbn in *; lia |].
      exists q. split; [done |]. by apply slot_next.
Qed.

Lemma chain_miss bs es : path c bs es -> forall (z : Z) b fuel p, Forall is_key (keys es) -> Forall passes es -> Forall fits bs ->
  (forall n q, region c q (replicate E NUL) -> exists q', slots (S n) (st ov c q dc dp) = Some (inl (z, []), st ov c q' dc dp)) ->
  head bs = Some b -> (length bs <= fuel)%nat ->
  exists r q, chain_loop fuel (slots S') er en (Z.of_nat (base b)) (st ov c p dc dp) = Some (inl (r, []), st ov c q dc dp) /\
    (r = z \/ r = en).
Proof.
  induction 1 as [b es Hl Hr|b b' bs es es' Hl Hb Hr Hp IH]; intros z b0 fuel p Hk Hpa Hf Hz [= <-] Hfuel;
    (destruct fuel as [|fuel]; [cbn in Hfuel; lia |]).
  - cbn [chain_loop]. rewrite (bindM _ _ _ _ _ (seek_base _ _ _)).
    destruct (decide (length es < S')%nat) as [Hlt|Hge].
    + destruct (bucket_room b es 0 Hlt Hr Hk Hpa) as (n & Hn & Hrep). destruct (Hz n _ Hrep) as [q' Hq].
      exists z, q'. split; [| by left]. apply retM. by rewrite Hn.
    + exists en, (base b + E * S' + 4)%nat. split; [| by right].
      rewrite (bindM _ _ _ _ _ (bucket_full b es _ ltac:(lia) Hr Hk Hpa)).
      erewrite bindM; [| apply (read_next_st _ c b es 0); [lia | done | | done]]; [done |].
      apply Forall_cons in Hf as [Hf _]. unfold fits, base in *. lia.
  - apply Forall_cons in Hf as [_ Hf]. unfold keys in Hk. rewrite fmap_app in Hk. apply Forall_app in Hk as [Hk1 Hk2].
    apply Forall_app in Hpa as [Hpa1 Hpa2].
    destruct (chain_next fuel b b' es p) as [p' Hn]; [done | done | by apply Forall_cons in Hf as [? _] | done | done | done |].
    rewrite Hn. apply IH; [done.. | cbn in *; lia].
Qed.

End walk.

(** ** Insertion along a path *)

Section insertion.
(** What the insertion does with the value: data file [dc] becomes [dc'] and the position [q] is written. *)
Variables (key q vl : Z) (value : M unit) (dc dc' : bytes) (dp dp' : nat).
Hypothesis Hkey : is_key key.
Hypothesis Hvalue : forall ov c p, (p <= length c)%nat ->
  value (st ov c p dc dp) = Some (inr (), st ov (put p (enc_pos q) c) (p + length (enc_pos q)) dc' dp').

Definition differs (e : elem) : Prop := ekey e <> key.

Lemma add_here ov c b es fuel p : (length es < S')%nat -> region c (base b) (enc_bucket es 0) -> Forall is_key (keys es) -> Forall differs es ->
  exists p', add_loop (S fuel) key value vl (Z.of_nat (base b)) (st ov c p dc dp) =
    Some (inl (0, []), st ov (put (base b + E * length es) (enc_elem (mkElem key false q)) c) p' dc' dp').
Proof.
  intros Hl Hr Hk Hd.
  destruct (bucket_room (fun n => add_slots n key value vl) differs ov c dc dp) with (b := b) (es := es) (next := 0)
    as (n & Hn & Hz); [intros; by eapply add_pass | done.. |].
  exists (base b + E * length es + 9 + length (enc_pos q))%nat. cbn [add_loop]. rewrite (bindM _ _ _ _ _ (seek_base _ _ _ _ _ _ _)).
  erewrite bindM; [| done]. cbn [m_iBucketSize st]. change (Z.to_nat Sz) with S'. apply retM. rewrite Hn.
  pose proof E_pos. rewrite add_free; [| done |].
  - erewrite bindM; [| apply Hvalue; rewrite length_put, length_app, length_le_encode; cbn [length]; lia]. unfold ret. do 3 f_equal.
    replace (base b + E * length es + 9)%nat with (base b + E * length es + length (le_encode 8 key ++ [x00]))%nat
      by (by rewrite length_app, length_le_encode).
    rewrite put_put, <- app_assoc. done.
  - replace (replicate E NUL) with (replicate 8 NUL ++ replicate (E - 8) NUL) in Hz by (rewrite <- replicate_add; f_equal; lia).
    rewrite region_app in Hz. by destruct Hz.
Qed.

(** Where the new element is after the insertion. *)
Record inserted (ov : Z) (c : bytes) (bs : list nat) (es : list elem) (ov' : Z) (c' : bytes) (bs' : list nat) : Prop := mkInserted {
  ins_path : path c' (bs ++ bs') (es ++ [mkElem key false q]);
  ins_new : (bs' = [] /\ ov' = ov) \/ (bs' = [Z.to_nat (N + (ov + 1))] /\ ov' = ov + 1);
  ins_outside q' reg : outside (bs ++ bs') q' reg -> region c q' reg -> region c' q' reg
}.

Lemma inserted_here ov c b es : (length es < S')%nat -> region c (base b) (enc_bucket es 0) ->
  inserted ov c [b] es ov (put (base b + E * length es) (enc_elem (mkElem key false q)) c) [].
Proof.
  intros Hl Hr. split; [| by left |].
  - apply path_last; [rewrite length_app; cbn; lia |]. by apply bucket_put_new.
  - intros q' reg Ho. apply outside_put with [b]; [done | set_solver |]. rewrite length_enc_elem. unfold L. nia.
Qed.

(** The bucket is full: a new one, linked to it. *)
Definition chained (ov : Z) (b : nat) (c : bytes) : bytes :=
  put (base (Z.to_nat (N + (ov + 1)))) (replicate L NUL) (put (base b + E * S') (le_encode 4 (N + (ov + 1))) c).

Lemma add_grow ov c b es fuel p : length es = S' -> region c (base b) (enc_bucket es 0) -> Forall is_key (keys es) -> Forall differs es ->
  0 <= ov -> fits b -> fits (Z.to_nat (N + (ov + 1))) ->
  exists p', add_loop (S fuel) key value vl (Z.of_nat (base b)) (st ov c p dc dp) =
    add_loop fuel key value vl (Z.of_nat (base (Z.to_nat (N + (ov + 1))))) (st (ov + 1) (chained ov b c) p' dc dp).
Proof.
  intros Hl Hr Hk Hd Hov Hfb Hf. pose proof (fits_index _ Hf) as Hi. rewrite Z2Nat.id in Hi by lia.
  assert (Hov' : i32 (ov + 1) = ov + 1).
  { unfold fits, base, L in Hf. pose proof E_pos. apply i32_small. unfold is_i32, INT32_MIN, INT32_MAX. nia. }
  eexists. cbn [add_loop]. rewrite (bindM _ _ _ _ _ (seek_base _ _ _ _ _ _ _)).
  erewrite bindM; [| done]. cbn [m_iBucketSize st]. change (Z.to_nat Sz) with S'.
  erewrite bindM; [| apply (bucket_full (fun n => add_slots n key value vl) differs ov c dc dp) with (es := es) (next := 0);
    [done | intros; by eapply add_pass | done..]].
  erewrite bindM; [| apply (read_next_st _ c b es 0); [lia | done | unfold fits, base in *; lia | done]].
  change (i32 (Z.of_nat 0) =? 0) with true. cbn iota.
  erewrite bindM; [| done]. erewrite bindM; [| done]. cbn [m_iBucketNum m_iBucketOverflowNum m_iBucketLen st].
  rewrite !Hov', Hi. replace (get_bucket_position (N + (ov + 1)) _) with (Z.of_nat (base (Z.to_nat (N + (ov + 1)))));
    [| rewrite <- (Z2Nat.id (N + (ov + 1))) at 2 by lia; symmetry; by apply position_st].
  change (set_overflow (ov + 1) (st ov c ?p dc dp)) with (st (ov + 1) c p dc dp).
  erewrite bindM; [| apply skip_st; lia].
  erewrite bindM; [| apply write_st; by rewrite <- length_zero_iff_nil, length_le_encode].
  erewrite bindM; [| apply seek_base].
  erewrite bindM; [| apply write_st; rewrite <- length_zero_iff_nil, length_replicate; unfold L; lia].
  unfold chained. rewrite Nat2Z.id. replace (Z.to_nat (Z.of_nat (base b + E * S' + 4) + -4)) with (base b + E * S')%nat by lia. done.
Qed.

Lemma chained_path ov c b es : length es = S' -> region c (base b) (enc_bucket es 0) -> 0 <= ov -> b <> Z.to_nat (N + (ov + 1)) ->
  region (chained ov b c) (base b) (enc_bucket es (N + (ov + 1))) /\
  region (chained ov b c) (base (Z.to_nat (N + (ov + 1)))) (enc_bucket [] 0) /\
  (forall q' reg, outside [b; Z.to_nat (N + (ov + 1))] q' reg -> region c q' reg -> region (chained ov b c) q' reg).
Proof.
  intros Hl Hr Hov Hb. unfold chained. rewrite empty_bucket. assert (Hlen : length (enc_bucket [] 0) = L) by (apply length_enc_bucket; cbn; lia).
  split; [| split].
  - rewrite <- (Nat.add_0_r (base (Z.to_nat _))). apply other_bucket; [done | lia | rewrite length_enc_bucket; lia |]. apply bucket_put_next with 0; [lia | done].
  - apply region_put_same.
  - intros q' reg Ho H. rewrite <- (Nat.add_0_r (base (Z.to_nat _))). apply outside_put with [b; Z.to_nat (N + (ov + 1))]; [done | set_solver | lia |].
    apply outside_put with [b; Z.to_nat (N + (ov + 1))]; [done | set_solver | rewrite length_le_encode; unfold L; lia | done].
Qed.

Lemma add_next ov c fuel b b' es p : length es = S' -> region c (base b) (enc_bucket es (Z.of_nat b')) -> fits b' -> b' <> 0%nat ->
  Forall is_key (keys es) -> Forall differs es ->
  exists p', add_loop (S fuel) key value vl (Z.of_nat (base b)) (st ov c p dc dp) =
    add_loop fuel key value vl (Z.of_nat (base b')) (st ov c p' dc dp).
Proof.
  intros Hl Hr Hf Hb Hk Hd. eexists. cbn [add_loop]. rewrite (bindM _ _ _ _ _ (seek_base _ _ _ _ _ _ _)).
  erewrite bindM; [| done]. cbn [m_iBucketSize st]. change (Z.to_nat Sz) with S'.
  erewrite bindM; [| apply (bucket_full (fun n => add_slots n key value vl) differs ov c dc dp) with (es := es) (next := Z.of_nat b');
    [done | intros; by eapply add_pass | done..]].
  erewrite bindM; [| apply (read_next_st _ c b es); [lia | done | done | done]].
  rewrite fits_index by done. rewrite (proj2 (Z.eqb_neq _ 0)) by lia.
  erewrite bindM; [| done]. by rewrite position_st.
Qed.

Lemma inserted_next ov c b b' bs es es' ov' c' bs' : length es = S' -> b' <> 0%nat -> b ∉ b' :: bs -> b <> Z.to_nat (N + (ov + 1)) ->
  region c (base b) (enc_bucket es (Z.of_nat b')) -> inserted ov c (b' :: bs) es' ov' c' bs' ->
  inserted ov c (b :: b' :: bs) (es ++ es') ov' c' bs'.
Proof.
  intros Hl Hb' Hb Hne Hr [H1 H2 H3]. split; [| done |].
  - rewrite <- app_assoc. apply path_next; [done | done | | exact H1]. apply H3; [| done]. right. exists b.
    split; [done |]. split; [| rewrite length_enc_bucket; lia].
    rewrite not_elem_of_app. split; [done |]. destruct H2 as [[-> _]|[-> _]]; [apply not_elem_of_nil | by rewrite list_elem_of_singleton].
  - intros q' reg Ho. apply H3. apply outside_mono with ((b :: b' :: bs) ++ bs'); [done |]. intros x Hx. by right.
Qed.

Lemma inserted_grow ov c b es : length es = S' -> region c (base b) (enc_bucket es 0) -> 0 <= ov -> b <> Z.to_nat (N + (ov + 1)) ->
  inserted ov c [b] es (ov + 1)
    (put (base (Z.to_nat (N + (ov + 1))) + E * 0) (enc_elem (mkElem key false q)) (chained ov b c)) [Z.to_nat (N + (ov + 1))].
Proof.
  intros Hl Hr Hov Hb. destruct (chained_path ov c b es) as (H1 & H2 & H3); [done.. |]. pose proof S_pos.
  destruct (inserted_here (ov + 1) (chained ov b c) (Z.to_nat (N + (ov + 1))) []) as [P _ F]; [cbn; lia | done |].
  cbn [length app] in *. split; [| by right |].
  - cbn [app]. apply path_next; [done | lia | | exact P]. rewrite Z2Nat.id by lia. apply F; [| done].
    right. exists b. split; [done |]. split; [set_solver | rewrite length_enc_bucket; lia].
  - intros q' reg Ho Hreg. apply F; [| by apply H3]. apply outside_mono with ([b] ++ [Z.to_nat (N + (ov + 1))]); [done | set_solver].
Qed.

Lemma add_new c bs es : path c bs es -> forall ov b fuel p, Forall is_key (keys es) -> Forall differs es ->
  0 <= ov -> Forall fits bs -> fits (Z.to_nat (N + (ov + 1))) -> NoDup bs -> Z.to_nat (N + (ov + 1)) ∉ bs ->
  head bs = Some b -> (length bs < fuel)%nat ->
  exists ov' c' bs' p', add_loop fuel key value vl (Z.of_nat (base b)) (st ov c p dc dp) = Some (inl (0, []), st ov' c' p' dc' dp') /\
    inserted ov c bs es ov' c' bs'.
Proof.
  induction 1 as [b es Hl Hr|b b' bs es es' Hl Hb Hr Hp IH]; intros ov b0 fuel p Hk Hd Hov Hf Hnb Hnd Hnew [= <-] Hfuel;
    (destruct fuel as [|fuel]; [cbn in Hfuel; lia |]).
  - destruct (decide (length es < S')%nat) as [Hlt|Hge].
    + destruct (add_here ov c b es fuel p) as [p' H]; [done.. |]. do 4 eexists. split; [exact H |]. by apply inserted_here.
    + destruct (add_grow ov c b es fuel p) as [p1 H]; [lia | done.. | by apply Forall_cons in Hf as [? _] | done |].
      destruct fuel as [|fuel]; [cbn in Hfuel; lia |]. pose proof S_pos.
      assert (b <> Z.to_nat (N + (ov + 1))) by (intros ->; apply Hnew; by left).
      destruct (chained_path ov c b es) as (_ & H2 & _); [lia | done.. |].
      destruct (add_here (ov + 1) (chained ov b c) (Z.to_nat (N + (ov + 1))) [] fuel p1) as [p2 H']; [cbn; lia | done | by constructor.. |].
      do 4 eexists. split; [by rewrite H |]. apply inserted_grow; [lia | done..].
  - apply NoDup_cons in Hnd as [Hbn Hnd]. apply Forall_cons in Hf as [_ Hf]. apply not_elem_of_cons in Hnew as [Hne Hnew].
    unfold keys in Hk. rewrite fmap_app in Hk. apply Forall_app in Hk as [Hk1 Hk2]. apply Forall_app in Hd as [Hd1 Hd2].
    destruct (add_next ov c fuel b b' es p) as [p1 H]; [done | done | by apply Forall_cons in Hf as [? _] | done.. |].
    destruct (IH ov b' fuel p1) as (ov' & c' & bs' & p2 & H2 & Hi); [done.. | cbn in *; lia |].
    do 4 eexists. split; [by rewrite H |]. by apply inserted_next.
Qed.

Lemma keys_split es : key ∈ keys es -> exists es1 e es2, es = es1 ++ e :: es2 /\ ekey e = key /\ Forall differs es1.
Proof.
  clear. induction es as [|e es IH]; [by intros ?%not_elem_of_nil |]. cbn. intros [H|H]%elem_of_cons; [by exists [], e, es |].
  destruct (decide (ekey e = key)); [by exists [], e, es |]. destruct (IH H) as (es1 & e' & es2 & -> & He & Hd).
  exists (e :: es1), e', es2. split; [done |]. split; [done |]. by constructor.
Qed.

(** A key that is there, live or removed. *)
Lemma add_present c bs es : path c bs es -> forall ov b fuel p, Forall is_key (keys es) -> key ∈ keys es -> Forall fits bs ->
  head bs = Some b -> (length bs <= fuel)%nat ->
  exists p', add_loop fuel key value vl (Z.of_nat (base b)) (st ov c p dc dp) = Some (inl (1, []), st ov c p' dc dp).
Proof.
  assert (Hb : forall b es next ov fuel p, (length es <= S')%nat -> region c (base b) (enc_bucket es next) -> Forall is_key (keys es) -> key ∈ keys es ->
    exists p', add_loop (S fuel) key value vl (Z.of_nat (base b)) (st ov c p dc dp) = Some (inl (1, []), st ov c p' dc dp)).
  { intros b es0 next ov fuel p Hl Hr Hk (es1 & e & es2 & -> & He & Hd)%keys_split.
    unfold keys in Hk. rewrite fmap_app in Hk. apply Forall_app in Hk as [Hk1 Hk2]. apply Forall_cons in Hk2 as [Hke _].
    destruct (bucket_reaches (fun n => add_slots n key value vl) differs ov c dc dp) with (b := b) (es := es1) (e := e) (es' := es2) (next := next)
      as [n Hn]; [intros; by eapply add_pass | done.. |].
    eexists. cbn [add_loop]. rewrite (bindM _ _ _ _ _ (seek_base _ _ _ _ _ _ _)).
    erewrite bindM; [| done]. cbn [m_iBucketSize st]. change (Z.to_nat Sz) with S'. apply retM. rewrite Hn.
    apply add_dup with e; [by eapply slot_in_bucket | done | done]. }
  induction 1 as [b es Hl Hr|b b' bs es es' Hl Hb' Hr Hp IH]; intros ov b0 fuel p Hk Hi Hf [= <-] Hfuel;
    (destruct fuel as [|fuel]; [cbn in Hfuel; lia |]).
  - by apply Hb with es 0.
  - unfold keys in Hk, Hi. rewrite fmap_app in Hk, Hi. apply Forall_app in Hk as [Hk1 Hk2]. apply Forall_cons in Hf as [_ Hf].
    destruct (decide (key ∈ keys es)) as [Hi1|Hi1]; [apply Hb with es (Z.of_nat b'); (done || lia) |].
    apply elem_of_app in Hi as [Hi|Hi]; [done |].
    destruct (add_next ov c fuel b b' es p) as [p1 H]; [done | done | by apply Forall_cons in Hf as [? _] | done | done | |].
    { apply Forall_forall. intros e He Heq. apply Hi1. apply list_elem_of_fmap. by exists e. }
    rewrite H. apply IH; [done.. | cbn in *; lia].
Qed.

End insertion.

(** ** The two searches and the removal on an element *)

Definition stored (record : bytes -> bytes) (dc : bytes) (e : elem) (v : bytes) : Prop :=
  0 <= epos e < 2 ^ 63 /\ region dc (Z.to_nat (epos e)) (record v).

Definition record_FL (v : bytes) : bytes :=
  if 0 <? dl then le_encode 8 I_STORE_BEGIN_MARK ++ v ++ le_encode 8 I_STORE_END_MARK else [].
Definition record_VL (v : bytes) : bytes :=
  le_encode 8 I_STORE_BEGIN_MARK ++ le_encode 4 (Z.of_nat (length v)) ++ v ++ le_encode 8 I_STORE_END_MARK.

Definition valid_FL (v : bytes) : Prop := 0 < dl -> Z.of_nat (length v) = dl.
Definition valid_VL (v : bytes) : Prop := 0 < Z.of_nat (length v) < 2 ^ 31.

Definition found_FL (vp : bool) (mx : Z) (v : bytes) : Z * bytes :=
  if (0 <? dl) && vp then if mx <? dl then (-4, []) else (0, v) else (0, []).
Definition found_VL (mx : Z) (v : bytes) : Z * bytes :=
  if mx <? Z.of_nat (length v) then (-8, []) else (Z.of_nat (length v), v).

Lemma mark_read m : 0 <= m < 2 ^ 64 -> le_decode (le_encode 8 m) = m.
Proof. intros H. rewrite le_decode_encode. apply Z.mod_small. cbn. lia. Qed.

Lemma read_pos_st code e ov c p dc dp : dl <> 0 -> region c p (enc_elem e) -> 0 <= epos e < 2 ^ 63 ->
  read 8 code (st ov c (p + 9) dc dp) = Some (inr (epos e), st ov c (p + 17) dc dp).
Proof.
  intros Hdl (_ & _ & Hp)%region_elem He. unfold enc_pos in Hp. rewrite (proj2 (Z.eqb_neq _ _) Hdl) in Hp. cbn [negb] in Hp.
  rewrite (read_st 8 code _ _ _ _ _ _ Hp) by (try done; apply length_le_encode). rewrite mark_read by lia. do 3 f_equal. lia.
Qed.

(** The first steps of a search on the element it looks for. *)
Ltac search_elem Hr Hk He :=
  rewrite (bindM _ _ _ _ _ (read_key_st _ _ _ _ _ _ _ Hr Hk)), (bindM _ _ _ _ _ (read_flag_st _ _ _ _ _ _ _ Hr)).

Lemma region_record_FL dc p v : 0 < dl -> region dc p (record_FL v) ->
  region dc p (le_encode 8 I_STORE_BEGIN_MARK) /\ region dc (p + 8) v /\ region dc (p + 8 + length v) (le_encode 8 I_STORE_END_MARK).
Proof. intros Hlt. unfold record_FL. rewrite (proj2 (Z.ltb_lt _ _) Hlt), !region_app, length_le_encode. done. Qed.

Lemma search_FL_hit vp mx ov c dc dp e v : is_key (ekey e) -> edel e = false ->
  stored record_FL dc e v -> valid_FL v ->
  exists k dq, forall n q, region c q (enc_elem e) ->
    search_slots_FL (S n) (ekey e) vp mx (st ov c q dc dp) = Some (inl (found_FL vp mx v), st ov c (q + k) dc dq).
Proof.
  intros Hk He [Hpos Hst] Hv. unfold found_FL. destruct ((0 <? dl) && vp) eqn:Hc; [destruct (mx <? dl) eqn:Hmx |].
  - exists 9%nat, dp. intros n q Hr. cbn [search_slots_FL]. search_elem Hr Hk He. erewrite bindM; [| done].
    rewrite He, !Z.eqb_refl. cbn [andb m_iDataLen st]. by rewrite Hc, Hmx.
  - exists 17%nat. eexists. intros n q Hr. cbn [search_slots_FL]. search_elem Hr Hk He. erewrite bindM; [| done].
    rewrite He, !Z.eqb_refl. cbn [andb m_iDataLen st]. rewrite Hc, Hmx.
    apply andb_prop in Hc as [Hlt _]. apply Z.ltb_lt in Hlt. destruct (region_record_FL _ _ _ Hlt Hst) as (H1 & H2 & H3).
    specialize (Hv Hlt). erewrite bindM; [| apply read_pos_st; [lia | done | done]]. rewrite i64_pos by lia.
    erewrite bindM; [| apply data_seek_st; lia].
    erewrite bindM; [| apply (data_read_st 8 _ _ _ _ _ _ _ H1); [by rewrite length_le_encode | done]].
    rewrite mark_read by done. rewrite Z.eqb_refl. cbn [negb].
    erewrite bindM; [| apply (data_read_st (Z.to_nat dl) _ v); [done | lia | lia]].
    erewrite bindM; [| apply (data_read_st 8 _ (le_encode 8 I_STORE_END_MARK));
      [by replace (Z.to_nat dl) with (length v) by lia | by rewrite length_le_encode | done]].
    rewrite mark_read by done. by rewrite Z.eqb_refl.
  - exists 9%nat, dp. intros n q Hr. cbn [search_slots_FL]. search_elem Hr Hk He. erewrite bindM; [| done].
    rewrite He, !Z.eqb_refl. cbn [andb m_iDataLen st]. by rewrite Hc.
Qed.

Lemma search_VL_hit mx ov c dc dp e v : dl <> 0 -> is_key (ekey e) -> edel e = false ->
  stored record_VL dc e v -> valid_VL v ->
  exists k dq, forall n q, region c q (enc_elem e) ->
    search_slots_VL (S n) (ekey e) mx (st ov c q dc dp) = Some (inl (found_VL mx v), st ov c (q + k) dc dq).
Proof.
  intros Hdl Hk He [Hpos Hst] Hv. unfold found_VL. exists 17%nat. unfold record_VL in Hst. rewrite !region_app, !length_le_encode in Hst.
  destruct Hst as (H1 & H2 & H3 & H4).
  assert (Hlen : i32 (le_decode (le_encode 4 (Z.of_nat (length v)))) = Z.of_nat (length v)).
  { unfold valid_VL in Hv. rewrite le_decode_encode, Z.mod_small by (cbn; lia). apply i32_small. unfold is_i32, INT32_MIN, INT32_MAX. lia. }
  destruct (mx <? Z.of_nat (length v)) eqn:Hmx; eexists; intros n q Hr; cbn [search_slots_VL]; search_elem Hr Hk He.
  all: erewrite bindM; [| apply read_pos_st; [done | done | done]]; rewrite He, !Z.eqb_refl; cbn [andb].
  all: rewrite i64_pos by lia; erewrite bindM; [| apply data_seek_st; lia].
  all: erewrite bindM; [| apply (data_read_st 8 _ _ _ _ _ _ _ H1); [by rewrite length_le_encode | done]].
  all: rewrite mark_read by done; rewrite Z.eqb_refl; cbn [negb].
  all: erewrite bindM; [| apply (data_read_st 4 _ _ _ _ _ _ _ H2); [by rewrite length_le_encode | done]].
  all: rewrite Hlen, Hmx; cbn [orb].
  1: done.
  unfold valid_VL in Hv. rewrite (proj2 (Z.leb_gt _ 0)) by lia.
  erewrite bindM; [| apply (data_read_st _ _ v); [done | lia | lia]].
  erewrite bindM; [| apply (data_read_st 8 _ (le_encode 8 I_STORE_END_MARK));
    [by rewrite Nat2Z.id | by rewrite length_le_encode | done]].
  rewrite mark_read by done. by rewrite Z.eqb_refl.
Qed.

Lemma zero_parts c q : region c q (replicate E NUL) ->
  region c q (replicate 8 NUL) /\ region c (q + 8) (replicate 1 NUL) /\ region c (q + 9) (replicate (E - 9) NUL).
Proof.
  pose proof E_pos. replace (replicate E NUL) with (replicate 8 NUL ++ replicate 1 NUL ++ replicate (E - 9) NUL)
    by (rewrite <- !replicate_add; f_equal; lia).
  rewrite !region_app, !length_replicate. by replace (q + 8 + 1)%nat with (q + 9)%nat by lia.
Qed.

Lemma search_FL_zero key vp mx ov c dc dp n q : is_key key -> region c q (replicate E NUL) ->
  exists q', search_slots_FL (S n) key vp mx (st ov c q dc dp) = Some (inl (-10, []), st ov c q' dc dp).
Proof.
  intros [Hk _] (H1 & H2 & _)%zero_parts. eexists. cbn [search_slots_FL].
  rewrite (bindM _ _ _ _ _ (read_zero_st 8 _ _ _ _ _ _ H1 ltac:(done))), (bindM _ _ _ _ _ (read_zero_st 1 _ _ _ _ _ _ H2 ltac:(done))).
  erewrite bindM; [| done]. rewrite (proj2 (Z.eqb_neq 0 key)) by lia. done.
Qed.

Lemma search_VL_zero key mx ov c dc dp n q : dl <> 0 -> is_key key -> region c q (replicate E NUL) ->
  exists q', search_slots_VL (S n) key mx (st ov c q dc dp) = Some (inl (-11, []), st ov c q' dc dp).
Proof.
  intros Hdl [Hk _] (H1 & H2 & H3)%zero_parts. eexists. cbn [search_slots_VL].
  replace (E - 9)%nat with 8%nat in H3 by (unfold E; by rewrite (proj2 (Z.eqb_neq _ _) Hdl)).
  rewrite (bindM _ _ _ _ _ (read_zero_st 8 _ _ _ _ _ _ H1 ltac:(done))), (bindM _ _ _ _ _ (read_zero_st 1 _ _ _ _ _ _ H2 ltac:(done))).
  erewrite bindM; [| apply read_zero_st; [replace (q + 8 + 1)%nat with (q + 9)%nat by lia; exact H3 | done]].
  rewrite (proj2 (Z.eqb_neq 0 key)) by lia. done.
Qed.

Lemma delete_zero key ov c dc dp n q : is_key key -> region c q (replicate E NUL) ->
  exists q', delete_slots (S n) key (st ov c q dc dp) = Some (inl (1, []), st ov c q' dc dp).
Proof.
  intros [Hk _] (H1 & _)%zero_parts. eexists. cbn [delete_slots].
  rewrite (bindM _ _ _ _ _ (read_zero_st 8 _ _ _ _ _ _ H1 ltac:(done))). rewrite (proj2 (Z.eqb_neq 0 key)) by lia. done.
Qed.

Definition removed (e : elem) : elem := mkElem (ekey e) true (epos e).

Lemma delete_hit ov c dc dp e n q : region c q (enc_elem e) -> is_key (ekey e) ->
  delete_slots (S n) (ekey e) (st ov c q dc dp) = Some (inl (0, []), st ov (put q (enc_elem (removed e)) c) (q + 9) dc dp).
Proof.
  intros Hr Hk. cbn [delete_slots]. rewrite (bindM _ _ _ _ _ (read_key_st _ _ _ _ _ _ _ Hr Hk)), Z.eqb_refl.
  erewrite bindM; [| by apply write_st]. unfold ret. unfold enc_elem in *. cbn [removed ekey edel epos].
  rewrite <- (put_around q _ [if edel e then x01 else x00] [x01] _ c) by done. rewrite length_le_encode. cbn [length].
  by replace (q + 8 + 1)%nat with (q + 9)%nat by lia.
Qed.

(** ** The values *)

Definition value_FL (v : bytes) : M unit :=
  s ← state;
  if 0 <? m_iDataLen s then
    vPosition ← data_end;
    data_write (le_encode 8 I_STORE_BEGIN_MARK) (-7);;
    data_write (take (Z.to_nat (m_iDataLen s)) v) (-8);;
    data_write (le_encode 8 I_STORE_END_MARK) (-9);;
    write (le_encode 8 vPosition) (-10)
  else mret ().

Definition value_VL (v : bytes) : M unit :=
  vPosition ← data_end;
  data_write (le_encode 8 I_STORE_BEGIN_MARK) (-7);;
  data_write (le_encode 4 (Z.of_nat (length v))) (-8);;
  data_write v (-9);;
  data_write (le_encode 8 I_STORE_END_MARK) (-10);;
  write (le_encode 8 vPosition) (-11).

Lemma data_end_st ov c p dc dp : data_end (st ov c p dc dp) = Some (inr (Z.of_nat (length dc)), st ov c p dc (length dc)).
Proof. done. Qed.

Lemma value_FL_st v ov c p dc dp : 0 <= dl -> valid_FL v -> (p <= length c)%nat ->
  value_FL v (st ov c p dc dp) = Some (inr (), st ov (put p (enc_pos (Z.of_nat (length dc))) c) (p + length (enc_pos (Z.of_nat (length dc))))
    (dc ++ record_FL v) (if 0 <? dl then length (dc ++ record_FL v) else dp)).
Proof.
  intros Hdl Hv Hp. unfold value_FL, record_FL, enc_pos. erewrite bindM; [| done]. cbn [m_iDataLen st].
  destruct (0 <? dl) eqn:Hlt; [apply Z.ltb_lt in Hlt; specialize (Hv Hlt) | apply Z.ltb_ge in Hlt].
  - rewrite (proj2 (Z.eqb_neq dl 0)) by lia. cbn [negb]. rewrite (bindM _ _ _ _ _ (data_end_st _ _ _ _ _)).
    rewrite take_ge by lia.
    erewrite bindM; [| apply data_write_st, le_encode_nonempty; lia].
    erewrite bindM; [| apply data_write_st; intros ->; cbn in *; lia].
    erewrite bindM; [| apply data_write_st, le_encode_nonempty; lia].
    rewrite write_st by (apply le_encode_nonempty; lia). by rewrite <- !app_assoc.
  - replace dl with 0 by lia. cbn [negb Z.eqb length]. rewrite app_nil_r, Nat.add_0_r. unfold put. replace (p - length c)%nat with 0%nat by lia.
    cbn [replicate app length]. by rewrite Nat.add_0_r, app_nil_r, take_drop.
Qed.

Lemma value_VL_st v ov c p dc dp : dl <> 0 -> valid_VL v ->
  value_VL v (st ov c p dc dp) = Some (inr (), st ov (put p (enc_pos (Z.of_nat (length dc))) c) (p + length (enc_pos (Z.of_nat (length dc))))
    (dc ++ record_VL v) (length (dc ++ record_VL v))).
Proof.
  intros Hdl Hv. unfold value_VL, record_VL, enc_pos. rewrite (bindM _ _ _ _ _ (data_end_st _ _ _ _ _)).
  rewrite (proj2 (Z.eqb_neq dl 0)) by lia. cbn [negb]. unfold valid_VL in Hv.
  erewrite bindM; [| apply data_write_st, le_encode_nonempty; lia].
  erewrite bindM; [| apply data_write_st, le_encode_nonempty; lia].
  erewrite bindM; [| apply data_write_st; intros ->; cbn in *; lia].
  erewrite bindM; [| apply data_write_st, le_encode_nonempty; lia].
  rewrite write_st by (apply le_encode_nonempty; lia). by rewrite <- !app_assoc.
Qed.

(** ** The invariant *)

Definition header : bytes := I_STORE_FILE_MARK ++ le_encode 4 N ++ le_encode 4 Sz ++ le_encode 4 dl.

Definition home (key : Z) : nat := Z.to_nat (key mod N).

Definition inside (j : nat) : Prop := Z.of_nat j < N.

Lemma home_inside key : inside (home key).
Proof. unfold inside, home. pose proof (Z.mod_pos_bound key N HN). lia. Qed.

Section layout.
(** How a value is kept, and which values can be. *)
Variables (record : bytes -> bytes) (valid : bytes -> Prop).

(** The elements of base bucket [j] are [es j], in the buckets [bs j]; [m] gives
    the mark and the value of every key; there are at most [n] overflow buckets
    and [d] bytes of data. *)
Record layout (n d : Z) (m : gmap Z (bool * bytes)) (ov : Z) (c dc : bytes) (bs : nat -> list nat) (es : nat -> list elem) : Prop := mkLayout {
  lay_ov : 0 <= ov <= n;
  lay_data : Z.of_nat (length dc) <= d;
  lay_head : region c 0 header;
  lay_path j : inside j -> path c (bs j) (es j);
  lay_first j : inside j -> head (bs j) = Some j;
  lay_range j b : inside j -> b ∈ bs j -> Z.of_nat b <= N + ov;
  lay_nodup j : inside j -> NoDup (bs j);
  lay_disj i j b : inside i -> inside j -> b ∈ bs i -> b ∈ bs j -> i = j;
  lay_home j e : inside j -> e ∈ es j -> is_key (ekey e) /\ home (ekey e) = j;
  lay_uniq j : inside j -> NoDup (keys (es j));
  lay_elem j e : inside j -> e ∈ es j -> exists v, m !! ekey e = Some (edel e, v) /\ valid v /\ stored record dc e v;
  lay_map k x : m !! k = Some x -> k ∈ keys (es (home k))
}.

Definition upd {A} (j : nat) (x : A) (f : nat -> A) : nat -> A := fun i => if decide (i = j) then x else f i.

Lemma stored_app dc ext e v : stored record dc e v -> stored record (dc ++ ext) e v.
Proof. intros [H1 H2]. split; [done |]. intros i x Hi. rewrite lookup_app_l; [by apply H2 |]. by eapply lookup_lt_Some, H2. Qed.

(** The elements of one base bucket change: the key [k] gets the mark and the value [x]. *)
Record changes (ov : Z) (c dc : bytes) (bs : nat -> list nat) (es : nat -> list elem)
    (k : Z) (x : bool * bytes) (n' d' ov' : Z) (c' ext : bytes) (new : list nat) (es' : list elem) : Prop := mkChanges {
  ch_ov : ov <= ov' <= n';
  ch_data : Z.of_nat (length (dc ++ ext)) <= d';
  ch_path : path c' (bs (home k) ++ new) es';
  ch_outside q reg : outside (bs (home k) ++ new) q reg -> region c q reg -> region c' q reg;
  ch_new b : b ∈ new -> N + ov < Z.of_nat b <= N + ov';
  ch_nodup : NoDup new;
  ch_uniq : NoDup (keys es');
  ch_old e : e ∈ es' -> ekey e <> k -> e ∈ es (home k);
  ch_key e : e ∈ es' -> ekey e = k -> edel e = x.1 /\ valid x.2 /\ stored record (dc ++ ext) e x.2;
  ch_in : k ∈ keys es';
  ch_keep k' : k' ∈ keys (es (home k)) -> k' ∈ keys es'
}.

Lemma layout_changes n d m ov c dc bs es k x n' d' ov' c' ext new es' : layout n d m ov c dc bs es -> is_key k ->
  changes ov c dc bs es k x n' d' ov' c' ext new es' ->
  layout n' d' (<[k := x]> m) ov' c' (dc ++ ext) (upd (home k) (bs (home k) ++ new) bs) (upd (home k) es' es).
Proof.
  intros [Lov Ldata Lhead Lpath Lfirst Lrange Lnodup Ldisj Lhome Luniq Lelem Lmap] Hk
    [Cov Cdata Cpath Cout Cnew Cnodup Cuniq Cold Ckey Cin Ckeep].
  pose proof (home_inside k) as Hj. set (j := home k) in *.
  assert (Hfresh : forall i b, inside i -> b ∈ bs i -> b ∈ new -> False).
  { intros i b Hi Hb Hn. specialize (Lrange i b Hi Hb). specialize (Cnew b Hn). lia. }
  split; [lia | done | | | | | | | | | |].
  - apply Cout; [| done]. left. unfold header. rewrite !length_app, !length_le_encode. cbn. lia.
  - intros i Hi. unfold upd. case_decide as Hij; [done |]. apply (path_frame c); [by apply Lpath |]. intros b reg Hb Hl.
    apply Cout. right. exists b. split; [done |]. split; [| done].
    intros [Hin|Hin]%elem_of_app; [apply Hij; by apply (Ldisj i j b) | by apply (Hfresh i b)].
  - intros i Hi. unfold upd. case_decide as Hij; [| by apply Lfirst]. subst i. specialize (Lfirst j Hj). by destruct (bs j).
  - intros i b Hi. unfold upd. case_decide as Hij; [| intros Hb; specialize (Lrange i b Hi Hb); lia].
    intros [Hb|Hb]%elem_of_app; [specialize (Lrange j b Hj Hb); lia | apply Cnew; done].
  - intros i Hi. unfold upd. case_decide as Hij; [| by apply Lnodup]. apply NoDup_app. split; [by apply Lnodup |]. split; [| done].
    intros b Hb Hn. by apply (Hfresh j b).
  - intros i i' b Hi Hi'. unfold upd. repeat case_decide; subst; rewrite ?elem_of_app.
    + done.
    + intros [Hb|Hb] Hb'; [symmetry; by apply (Ldisj i' j b) | exfalso; by apply (Hfresh i' b)].
    + intros Hb' [Hb|Hb]; [by apply (Ldisj i j b) | exfalso; by apply (Hfresh i b)].
    + apply Ldisj; done.
  - intros i e Hi. unfold upd. case_decide as Hij; [| by apply Lhome]. subst i. intros He.
    destruct (decide (ekey e = k)) as [->|Hne]; [done |]. apply Lhome; [done | by apply Cold].
  - intros i Hi. unfold upd. case_decide; [done | by apply Luniq].
  - assert (Hother : forall i e, inside i -> e ∈ es i -> ekey e <> k ->
      exists v, <[k := x]> m !! ekey e = Some (edel e, v) /\ valid v /\ stored record (dc ++ ext) e v).
    { intros i e Hi He Hne. destruct (Lelem i e Hi He) as (v & Hv & Hval & Hs). exists v. rewrite lookup_insert_ne by done.
      split; [done |]. split; [done |]. by apply stored_app. }
    intros i e Hi. unfold upd. case_decide as Hij.
    + subst i. intros He. destruct (decide (ekey e = k)) as [Heq|Hne]; [| apply (Hother j); auto].
      destruct (Ckey e He Heq) as (Hd & Hval & Hs). exists x.2. rewrite Heq, lookup_insert_eq, Hd. by destruct x.
    + intros He. apply (Hother i); [done | done |]. intros Heq. apply Hij. destruct (Lhome i e Hi He) as [_ <-]. by rewrite Heq.
  - intros k' x' Hx'. unfold upd. destruct (decide (k' = k)) as [->|Hne].
    + fold j. by rewrite decide_True by done.
    + rewrite lookup_insert_ne in Hx' by done. specialize (Lmap _ _ Hx'). case_decide as Hij; [apply Ckeep; by rewrite <- Hij | done].
Qed.

(** ** Operations on a layout *)

(** Every bucket has a position that fits the source's 32 bits. *)
Definition space (n : Z) : Prop := 20 + (N + n + 1) * Z.of_nat L < 2 ^ 31.

Lemma space_fits n b : space n -> Z.of_nat b <= N + n + 1 -> fits b.
Proof. unfold space, fits, base. nia. Qed.

Lemma finish_st m s r s' : m (S (length (content (m_fpHash s)))) s = Some (inl r, s') -> finish m s = Some (r, s').
Proof. intros H. unfold finish. by rewrite H. Qed.

Section operation.
Context (n d : Z) (m : gmap Z (bool * bytes)) (ov : Z) (c dc : bytes) (bs : nat -> list nat) (es : nat -> list elem).
Context (Hlay : layout n d m ov c dc bs es) (Hspace : space n) (key : Z) (Hkey : is_key key).

Let j := home key.

Lemma first_bucket_st w p dp : first_bucket key (st w c p dc dp) = Z.of_nat (base j).
Proof.
  cbn [m_iBucketNum st]. pose proof (home_inside key) as Hj. pose proof (lay_ov _ _ _ _ _ _ _ _ Hlay).
  assert (Hf : fits j) by (apply space_fits with n; [done | unfold inside, j in *; lia]).
  replace (key mod N) with (Z.of_nat j) by (unfold j, home; pose proof (Z.mod_pos_bound key N HN); lia).
  rewrite fits_index by done. by apply position_st.
Qed.

Lemma buckets_fit : Forall fits (bs j).
Proof.
  apply Forall_forall. intros b Hb. apply space_fits with n; [done |]. pose proof (lay_ov _ _ _ _ _ _ _ _ Hlay).
  pose proof (lay_range _ _ _ _ _ _ _ _ Hlay j b (home_inside key) Hb). lia.
Qed.

Lemma buckets_length : (length (bs j) <= length c)%nat.
Proof.
  rewrite <- (length_seq (length c) 0). apply submseteq_length, NoDup_submseteq; [apply (lay_nodup _ _ _ _ _ _ _ _ Hlay), home_inside |].
  intros b Hb. apply elem_of_seq. split; [lia |].
  by apply (path_bound _ _ _ _ (lay_path _ _ _ _ _ _ _ _ Hlay j (home_inside key))).
Qed.

Lemma home_keys : Forall is_key (keys (es j)).
Proof.
  apply Forall_fmap, Forall_forall. intros e He. by apply (lay_home _ _ _ _ _ _ _ _ Hlay j e (home_inside key) He).
Qed.

Lemma absent_differs : m !! key = None -> Forall (differs key) (es j).
Proof.
  intros Hm. apply Forall_forall. intros e He Heq.
  destruct (lay_elem _ _ _ _ _ _ _ _ Hlay j e (home_inside key) He) as (v & Hv & _). by rewrite Heq, Hm in Hv.
Qed.

(** The element of a key of the map. *)
Lemma present_split x : m !! key = Some x -> exists es1 e es2, es j = es1 ++ e :: es2 /\ ekey e = key /\
  edel e = x.1 /\ valid x.2 /\ stored record dc e x.2 /\ Forall (differs key) es1 /\ Forall (differs key) es2.
Proof.
  intros Hm. destruct (keys_split key (es j) (lay_map _ _ _ _ _ _ _ _ Hlay key x Hm)) as (es1 & e & es2 & Hes & He & Hd).
  exists es1, e, es2. split; [done |]. split; [done |].
  destruct (lay_elem _ _ _ _ _ _ _ _ Hlay j e (home_inside key)) as (v & Hv & Hval & Hst); [rewrite Hes; set_solver |].
  rewrite He, Hm in Hv. injection Hv as ->. cbn [fst snd]. repeat split; [done.. | by apply Hst | by apply Hst | by apply Hst | done |].
  pose proof (lay_uniq _ _ _ _ _ _ _ _ Hlay j (home_inside key)) as Hu. rewrite Hes in Hu. unfold keys in Hu.
  rewrite fmap_app, fmap_cons in Hu. apply NoDup_app in Hu as (_ & _ & Hu). apply NoDup_cons in Hu as [Hn _].
  apply Forall_forall. intros e' He' Heq. apply Hn. rewrite He, <- Heq. apply list_elem_of_fmap. by exists e'.
Qed.

(** Searches: [slots] passes over other keys and removed ones.  Only insertions
    use the number of overflow buckets, so here it is any [w]. *)
Lemma search_ok w (slots : nat -> M unit) (found : bytes -> Z * bytes) (z en er : Z) p dp :
  slots 0%nat = mret () ->
  (forall e n p, region c p (enc_elem e) -> is_key (ekey e) -> (ekey e <> key \/ edel e = true) ->
    slots (S n) (st w c p dc dp) = slots n (st w c (p + E) dc dp)) ->
  (forall n q, region c q (replicate E NUL) -> exists q', slots (S n) (st w c q dc dp) = Some (inl (z, []), st w c q' dc dp)) ->
  (forall e v, ekey e = key -> edel e = false -> stored record dc e v -> valid v -> exists k dq, forall n q, region c q (enc_elem e) ->
    slots (S n) (st w c q dc dp) = Some (inl (found v), st w c (q + k) dc dq)) ->
  match m !! key with
  | Some (false, v) => exists p' dq, finish (fun fuel => chain_loop fuel (slots S') er en (first_bucket key (st w c p dc dp))) (st w c p dc dp) =
      Some (found v, st w c p' dc dq)
  | _ => exists r p', finish (fun fuel => chain_loop fuel (slots S') er en (first_bucket key (st w c p dc dp))) (st w c p dc dp) =
      Some ((r, []), st w c p' dc dp) /\ (r = z \/ r = en)
  end.
Proof.
  intros Hend Hpass Hzero Hhit. rewrite first_bucket_st. pose proof (lay_path _ _ _ _ _ _ _ _ Hlay j (home_inside key)) as Hp.
  pose proof (lay_first _ _ _ _ _ _ _ _ Hlay j (home_inside key)) as Hh. pose proof buckets_length.
  assert (Hmiss : Forall (fun e => ekey e <> key \/ edel e = true) (es j) ->
    exists r p', finish (fun fuel => chain_loop fuel (slots S') er en (Z.of_nat (base j))) (st w c p dc dp) =
      Some ((r, []), st w c p' dc dp) /\ (r = z \/ r = en)).
  { intros Ha. destruct (chain_miss slots _ w c dc dp Hend Hpass er en _ _ Hp z j (S (length c)) p home_keys Ha buckets_fit Hzero Hh)
      as (r & q & Hr & Hor); [lia |]. exists r, q. split; [by apply finish_st | done]. }
  assert (Hd : forall l, Forall (differs key) l -> Forall (fun e => ekey e <> key \/ edel e = true) l)
    by (intros l Hl; apply (Forall_impl _ _ _ Hl); intros e; by left).
  destruct (m !! key) as [[[] v]|] eqn:Hm.
  - destruct (present_split _ Hm) as (es1 & e & es2 & Hes & He & Hde & _ & _ & H1 & H2). apply Hmiss. rewrite Hes.
    apply Forall_app. split; [by apply Hd |]. constructor; [by right | by apply Hd].
  - destruct (present_split _ Hm) as (es1 & e & es2 & Hes & He & Hde & Hval & Hst & H1 & H2).
    destruct (Hhit e v He Hde Hst Hval) as (k & dq & Hq).
    destruct (chain_hit slots _ w c dc dp Hend Hpass er en _ _ Hp es1 e es2 (fun _ => found v) (fun q => st w c (q + k) dc dq) j
      (S (length c)) p Hes home_keys (Hd _ H1) buckets_fit) as (q & Hr & _);
      [apply (lay_nodup _ _ _ _ _ _ _ _ Hlay), home_inside | done | done | lia |].
    exists (q + k)%nat, dq. by apply finish_st.
  - apply Hmiss, Hd, absent_differs, Hm.
Qed.

(** The removal marks the element of the key. *)
Lemma removed_changes x es1 e es2 c' : m !! key = Some x -> es j = es1 ++ e :: es2 -> ekey e = key -> valid x.2 -> stored record dc e x.2 ->
  Forall (differs key) es1 -> Forall (differs key) es2 -> path c' (bs j) (es1 ++ removed e :: es2) ->
  (forall q reg, outside (bs j) q reg -> region c q reg -> region c' q reg) ->
  changes ov c dc bs es key (true, x.2) n d ov c' [] [] (es1 ++ removed e :: es2).
Proof.
  intros Hm Hes He Hval Hst H1 H2 Hp Ho. pose proof (lay_ov _ _ _ _ _ _ _ _ Hlay).
  assert (Hkeys : keys (es1 ++ removed e :: es2) = keys (es j)) by (rewrite Hes; unfold keys; by rewrite !fmap_app, !fmap_cons).
  assert (Hcase : forall e', e' ∈ es1 ++ removed e :: es2 -> e' = removed e \/ (e' ∈ es j /\ differs key e')).
  { intros e'. rewrite Hes, !elem_of_app, !elem_of_cons. rewrite Forall_forall in H1, H2. intros [?|[->|?]]; [right | by left | right]; auto. }
  split; fold j; rewrite ?app_nil_r; try done; try lia.
  - apply (lay_data _ _ _ _ _ _ _ _ Hlay).
  - by intros b ?%not_elem_of_nil.
  - by apply NoDup_nil.
  - rewrite Hkeys. apply (lay_uniq _ _ _ _ _ _ _ _ Hlay), home_inside.
  - intros e' [->|[Hin _]]%Hcase Hne; [by destruct Hne | done].
  - intros e' [->|[_ Hd]]%Hcase Heq; [| by destruct Hd]. done.
  - rewrite Hkeys. by apply (lay_map _ _ _ _ _ _ _ _ Hlay key x).
  - intros k' Hk'. by rewrite Hkeys.
Qed.

Lemma delete_ok w p dp :
  match m !! key with
  | Some (_, v) => exists c' p' bs' es', deleteKey_FL key (st w c p dc dp) = Some ((0, []), st w c' p' dc dp) /\
      layout n d (<[key := (true, v)]> m) ov c' dc bs' es'
  | None => exists r p', deleteKey_FL key (st w c p dc dp) = Some ((r, []), st w c p' dc dp) /\ (r = 1 \/ r = -6)
  end.
Proof.
  unfold deleteKey_FL. cbn [m_iBucketSize st]. change (Z.to_nat Sz) with S'. rewrite first_bucket_st.
  pose proof (lay_path _ _ _ _ _ _ _ _ Hlay j (home_inside key)) as Hp. pose proof buckets_length.
  pose proof (lay_first _ _ _ _ _ _ _ _ Hlay j (home_inside key)) as Hh.
  assert (Hpass : forall e n p, region c p (enc_elem e) -> is_key (ekey e) -> differs key e ->
    delete_slots (S n) key (st w c p dc dp) = delete_slots n key (st w c (p + E) dc dp)) by (intros; by eapply delete_pass).
  destruct (m !! key) as [[del v]|] eqn:Hm.
  - destruct (present_split _ Hm) as (es1 & e & es2 & Hes & He & _ & Hval & Hst & H1 & H2).
    destruct (chain_hit (fun n => delete_slots n key) _ w c dc dp eq_refl Hpass (-5) (-6) _ _ Hp es1 e es2 (fun _ => (0, []))
      (fun q => st w (put q (enc_elem (removed e)) c) (q + 9) dc dp) j (S (length c)) p Hes home_keys H1 buckets_fit)
      as (q & Hr & Hs); [apply (lay_nodup _ _ _ _ _ _ _ _ Hlay), home_inside | | done | lia |].
    { intros n' q Hq. rewrite <- He. apply delete_hit; [done | by rewrite He]. }
    assert (Hc : changes ov c dc bs es key (true, (del, v).2) n d ov (put q (enc_elem (removed e)) c) [] [] (es1 ++ removed e :: es2))
      by (apply removed_changes; [done.. | apply Hs | apply Hs]).
    do 4 eexists. split; [by apply finish_st |]. pose proof (layout_changes _ _ _ _ _ _ _ _ _ _ _ _ _ _ _ _ _ Hlay Hkey Hc) as Hl.
    rewrite app_nil_r in Hl. exact Hl.
  - destruct (chain_miss (fun n => delete_slots n key) _ w c dc dp eq_refl Hpass (-5) (-6) _ _ Hp 1 j (S (length c)) p home_keys
      (absent_differs Hm) buckets_fit) as (r & q & Hr & Hor); [intros; by apply delete_zero | done | lia |].
    exists r, q. split; [by apply finish_st | done].
Qed.

(** The insertion appends an element. *)
Lemma inserted_changes v ov' c' new : m !! key = None -> valid v -> d < 2 ^ 63 -> stored record (dc ++ record v) (mkElem key false (Z.of_nat (length dc))) v ->
  inserted key (Z.of_nat (length dc)) ov c (bs j) (es j) ov' c' new ->
  changes ov c dc bs es key (false, v) (n + 1) (d + Z.of_nat (length (record v))) ov' c' (record v) new
    (es j ++ [mkElem key false (Z.of_nat (length dc))]).
Proof.
  intros Hm Hval Hd Hst [Hp Hn Ho]. pose proof (lay_ov _ _ _ _ _ _ _ _ Hlay). pose proof (lay_data _ _ _ _ _ _ _ _ Hlay).
  pose proof (absent_differs Hm) as Ha. rewrite Forall_forall in Ha.
  assert (Hcase : forall e, e ∈ es j ++ [mkElem key false (Z.of_nat (length dc))] -> e ∈ es j \/ e = mkElem key false (Z.of_nat (length dc)))
    by (intros e; rewrite elem_of_app, list_elem_of_singleton; done).
  split; fold j; try done.
  - destruct Hn as [[_ ->]|[_ ->]]; lia.
  - rewrite length_app. lia.
  - intros b Hb. destruct Hn as [[-> ->]|[-> ->]]; [by apply not_elem_of_nil in Hb |]. apply list_elem_of_singleton in Hb. subst b. lia.
  - destruct Hn as [[-> _]|[-> _]]; [apply NoDup_nil; done | apply NoDup_singleton].
  - unfold keys. rewrite fmap_app. apply NoDup_app. split; [apply (lay_uniq _ _ _ _ _ _ _ _ Hlay), home_inside |].
    split; [| apply NoDup_singleton]. intros k (e & -> & He)%list_elem_of_fmap Hk. apply list_elem_of_singleton in Hk. by apply (Ha e He).
  - intros e [He| ->]%Hcase Hne; [done | by destruct Hne].
  - intros e [He| ->]%Hcase Heq; [by destruct (Ha e He) | done].
  - unfold keys. rewrite fmap_app, elem_of_app. right. by apply list_elem_of_singleton.
  - intros k Hk. unfold keys in *. rewrite fmap_app, elem_of_app. by left.
Qed.

Lemma add_ok value vl v p dp dp' : valid v -> d < 2 ^ 63 ->
  (forall ov c p, (p <= length c)%nat -> value (st ov c p dc dp) =
    Some (inr (), st ov (put p (enc_pos (Z.of_nat (length dc))) c) (p + length (enc_pos (Z.of_nat (length dc)))) (dc ++ record v) dp')) ->
  match m !! key with
  | Some _ => exists p', finish (fun fuel => add_loop fuel key value vl (first_bucket key (st ov c p dc dp))) (st ov c p dc dp) =
      Some ((1, []), st ov c p' dc dp)
  | None => exists ov' c' p' bs' es', finish (fun fuel => add_loop fuel key value vl (first_bucket key (st ov c p dc dp))) (st ov c p dc dp) =
      Some ((0, []), st ov' c' p' (dc ++ record v) dp') /\
      layout (n + 1) (d + Z.of_nat (length (record v))) (<[key := (false, v)]> m) ov' c' (dc ++ record v) bs' es'
  end.
Proof.
  intros Hval Hd Hvalue. rewrite first_bucket_st. pose proof (lay_ov _ _ _ _ _ _ _ _ Hlay). pose proof (lay_data _ _ _ _ _ _ _ _ Hlay).
  pose proof (lay_path _ _ _ _ _ _ _ _ Hlay j (home_inside key)) as Hp. pose proof buckets_length.
  pose proof (lay_first _ _ _ _ _ _ _ _ Hlay j (home_inside key)) as Hh.
  destruct (m !! key) as [x|] eqn:Hm.
  - destruct (add_present key vl value dc dp c _ _ Hp ov j (S (length c)) p home_keys) as [p' Hr];
      [by apply (lay_map _ _ _ _ _ _ _ _ Hlay key x) | apply buckets_fit | done | lia |].
    exists p'. by apply finish_st.
  - destruct (add_new key (Z.of_nat (length dc)) vl value dc (dc ++ record v) dp dp' Hkey Hvalue c _ _ Hp ov j (S (length c)) p home_keys
      (absent_differs Hm)) as (ov' & c' & new & p' & Hr & Hi); [lia | apply buckets_fit | | | | done | lia |].
    + apply space_fits with n; [done | lia].
    + apply (lay_nodup _ _ _ _ _ _ _ _ Hlay), home_inside.
    + intros Hin. pose proof (lay_range _ _ _ _ _ _ _ _ Hlay j _ (home_inside key) Hin). lia.
    + do 5 eexists. split; [by apply finish_st |]. eapply layout_changes; [done | done |]. apply inserted_changes; [done.. | | done].
      split; cbn [epos]; [lia |]. rewrite Nat2Z.id. intros i y Hy. rewrite lookup_app_r by lia. by replace (length dc + i - length dc)%nat with i by lia.
Qed.

End operation.

End layout.

(** ** Opening *)

Lemma create_loop_ok ws code c : Forall (fun bs => bs <> []) ws ->
  exists p, create_loop ws code (mkFILE c (length c) []) = (0, mkFILE (c ++ concat ws) p []).
Proof.
  revert code c. induction ws as [|bs ws IH]; intros code c H; cbn [create_loop concat].
  - exists (length c). by rewrite app_nil_r.
  - apply Forall_cons in H as [Hb H]. rewrite fwrite_whole by done. cbn [content pos]. rewrite put_end, <- length_app.
    destruct (IH ((code - 1) `max` -11) (c ++ bs) H) as [p Hp]. exists p. by rewrite Hp, <- app_assoc.
Qed.

Lemma lens : space 0 -> element_len dl = Z.of_nat E /\ bucket_len Sz dl = Z.of_nat L.
Proof.
  intros Hs. assert (Hel : element_len dl = Z.of_nat E) by (unfold element_len, E; by destruct (negb (dl =? 0))). split; [done |].
  unfold bucket_len. rewrite Hel. unfold space, L in *. pose proof E_pos.
  assert (Hb : Z.of_nat (E * S') = Z.of_nat E * Sz) by (unfold S'; lia).
  rewrite (i32_small (Z.of_nat E * Sz)) by (unfold is_i32, INT32_MIN, INT32_MAX; nia).
  rewrite i32_small by (unfold is_i32, INT32_MIN, INT32_MAX; nia). lia.
Qed.

Definition fresh : bytes := header ++ concat (replicate (Z.to_nat N) (replicate L NUL)).

Lemma zeros_region k n (j : nat) : (j < k)%nat -> region (concat (replicate k (replicate n NUL))) (j * n) (replicate n NUL).
Proof.
  revert j. induction k as [|k IH]; intros j Hj; [lia |]. cbn [replicate concat]. intros i x Hi.
  pose proof (lookup_lt_Some _ _ _ Hi) as Hl. rewrite length_replicate in Hl. destruct j as [|j].
  - rewrite lookup_app_l by (rewrite length_replicate; lia). done.
  - rewrite lookup_app_r, length_replicate by (rewrite length_replicate; lia).
    rewrite <- (IH j ltac:(lia) i x Hi). f_equal. lia.
Qed.

Lemma fresh_layout record valid w : 0 <= w -> layout record valid w 0 ∅ w fresh [] (fun j => [j]) (fun _ => []).
Proof.
  intros Hw.
  assert (Hh : length header = 20%nat) by (unfold header; rewrite !length_app, !length_le_encode; reflexivity).
  split; try done.
  - intros i x Hi. unfold fresh. cbn [Nat.add]. by apply lookup_app_l_Some.
  - intros j Hj. apply path_last; [cbn; lia |]. rewrite <- empty_bucket. intros i x Hi.
    unfold fresh, base. rewrite lookup_app_r by lia. rewrite Hh.
    rewrite <- (zeros_region (Z.to_nat N) L j ltac:(unfold inside in Hj; lia) i x Hi). f_equal. lia.
  - intros j b Hj ->%list_elem_of_singleton. unfold inside in Hj. lia.
  - intros j _. apply NoDup_singleton.
  - by intros i j b _ _ ->%list_elem_of_singleton ->%list_elem_of_singleton.
  - by intros j e _ ?%not_elem_of_nil.
  - intros j _. apply NoDup_nil. done.
  - by intros j e _ ?%not_elem_of_nil.
Qed.

Lemma init_fresh name data w : cstr name <> [] -> space 0 ->
  exists p, init name N Sz dl None data w true true true [] [] = (0, Some (st w fresh p [] 0)).
Proof.
  intros Hn Hs. destruct (lens Hs) as [He Hb]. unfold init. rewrite He, Hb, Nat2Z.id.
  rewrite (proj2 (Nat.eqb_neq _ 0)) by (by rewrite length_zero_iff_nil).
  rewrite (proj2 (Z.leb_gt N 0)), (proj2 (Z.leb_gt Sz 0)) by lia. cbn [orb negb]. rewrite andb_false_r.
  unfold fopen. change (mkFILE [] 0 []) with (mkFILE [] (length (@nil byte)) []).
  destruct (create_loop_ok ([I_STORE_FILE_MARK; le_encode 4 N; le_encode 4 Sz; le_encode 4 dl] ++ replicate (Z.to_nat N) (replicate L NUL)) (-7) [])
    as [p Hp].
  - apply Forall_app. split; [repeat constructor; try done; apply le_encode_nonempty; lia |]. apply Forall_replicate.
    rewrite <- length_zero_iff_nil, length_replicate. unfold L. lia.
  - rewrite Hp. cbn [Z.eqb]. exists p. unfold st, fresh, header. cbn [length]. by do 4 f_equal.
Qed.

Lemma init_reopen name num size len c dc w : cstr name <> [] -> 0 < num -> 0 < size -> space 0 -> is_i32 dl -> is_i32 N -> is_i32 Sz ->
  (dl = 0 -> dc = []) -> region c 0 header ->
  exists p, init name num size len (Some c) (Some dc) w true true true [] [] = (0, Some (st w c p dc 0)).
Proof.
  intros Hn Hnum Hsize Hs Hdl Hn32 Hs32 Hdc Hh. destruct (lens Hs) as [He Hb]. unfold init.
  rewrite (proj2 (Nat.eqb_neq _ 0)) by (by rewrite length_zero_iff_nil).
  rewrite (proj2 (Z.leb_gt num 0)), (proj2 (Z.leb_gt size 0)) by lia. cbn [orb negb]. unfold fopen.
  unfold header in Hh. rewrite !region_app, !length_le_encode in Hh. destruct Hh as (H1 & H2 & H3 & H4).
  change (length I_STORE_FILE_MARK) with 8%nat in *. rewrite (fread_at _ _ _ _ H1) by done. rewrite bool_decide_true by done. cbn [negb].
  rewrite (fread_at _ _ _ _ H2), (fread_at _ _ _ _ H3), (fread_at _ _ _ _ H4) by (try apply length_le_encode; done).
  rewrite !i32_le_decode, !i32_small by done. rewrite He, Hb. eexists.
  destruct (dl =? 0) eqn:Hz; cbn [negb]; [| done]. rewrite Hdc by (by apply Z.eqb_eq). done.
Qed.

End store.

(** ** The store as a map *)

Inductive op : Type :=
  | Add (key : Z) (vpData : bytes)
  | Find (key : Z) (vpData : bool) (maxDataSize : Z)
  | Delete (key : Z).

(** The operations for values of a fixed length, or ([vl]) of any length. *)
Definition exec (vl : bool) (o : op) : QStoreManager -> option (Z * bytes * QStoreManager) :=
  match o with
  | Add key v => if vl then addKey_VL key v else addKey_FL key v
  | Find key vp mx => if vl then searchKey_VL key mx else searchKey_FL key vp mx
  | Delete key => if vl then deleteKey_VL key else deleteKey_FL key
  end.

Fixpoint execs (vl : bool) (ops : list op) (s : QStoreManager) : option (list (Z * bytes) * QStoreManager) :=
  match ops with
  | [] => Some ([], s)
  | o :: ops => '(r, s) ← exec vl o s; '(rs, s) ← execs vl ops s; Some (r :: rs, s)
  end.

Section contract.
Variables (dl : Z) (vl : bool).

Definition found (vp : bool) (mx : Z) (v : bytes) : Z * bytes := if vl then found_VL mx v else found_FL dl vp mx v.
Definition record (v : bytes) : bytes := if vl then record_VL v else record_FL dl v.
Definition valid (v : bytes) : Prop := if vl then valid_VL v else valid_FL dl v.

(** What an operation returns for a map from keys to a mark (the key has been
    removed) and a value, and the map after it. *)
Inductive answer (m : gmap Z (bool * bytes)) : op -> Z * bytes -> gmap Z (bool * bytes) -> Prop :=
  | answer_add k v : m !! k = None -> answer m (Add k v) (0, []) (<[k := (false, v)]> m)
  | answer_again k v x : m !! k = Some x -> answer m (Add k v) (1, []) m
  | answer_found k vp mx v : m !! k = Some (false, v) -> answer m (Find k vp mx) (found vp mx v) m
  | answer_missing k vp mx r : (forall v, m !! k <> Some (false, v)) -> r = (if vl then -11 else -10) \/ r = -13 ->
      answer m (Find k vp mx) (r, []) m
  | answer_delete k del v : m !! k = Some (del, v) -> answer m (Delete k) (0, []) (<[k := (true, v)]> m)
  | answer_nothing k r : m !! k = None -> r = 1 \/ r = -6 -> answer m (Delete k) (r, []) m.

Inductive answers : gmap Z (bool * bytes) -> list op -> list (Z * bytes) -> gmap Z (bool * bytes) -> Prop :=
  | answers_nil m : answers m [] [] m
  | answers_cons m o r m1 ops rs m2 : answer m o r m1 -> answers m1 ops rs m2 -> answers m (o :: ops) (r :: rs) m2.

Definition key_of (o : op) : Z := match o with Add k _ => k | Find k _ _ => k | Delete k => k end.
Definition accepts (o : op) : Prop := is_key (key_of o) /\ match o with Add _ v => valid v | _ => True end.
Definition is_add (o : op) : bool := match o with Add _ _ => true | _ => false end.

(** Buckets and bytes an operation may add. *)
Definition buckets_of (o : op) : Z := if is_add o then 1 else 0.
Definition bytes_of (o : op) : Z := match o with Add _ v => Z.of_nat (length (record v)) | _ => 0 end.
Definition total (f : op -> Z) (ops : list op) : Z := foldr (fun o t => f o + t) 0 ops.

Variables (N Sz : Z).
Hypothesis HN : 0 < N.
Hypothesis HSz : 0 < Sz.
Hypothesis Hmode : if vl then dl <> 0 else 0 <= dl.

(** The object holds [w] for the number of overflow buckets, which insertions need to be right. *)
Record holds (exact : bool) (n d : Z) (m : gmap Z (bool * bytes)) (s : QStoreManager) : Prop := mkHolds {
  hold_layout : exists w ov c p dc dp bs es, s = st dl N Sz w c p dc dp /\ (exact = true -> w = ov) /\
    layout dl N Sz record valid n d m ov c dc bs es
}.

Lemma layout_mono n d n' d' m ov c dc bs es : n <= n' -> d <= d' -> layout dl N Sz record valid n d m ov c dc bs es ->
  layout dl N Sz record valid n' d' m ov c dc bs es.
Proof. intros Hn Hd H. destruct H. split; try done; lia. Qed.

(** An object that counts more overflow buckets than there are leaves a gap. *)
Lemma layout_raise n d m ov w c dc bs es : ov <= w -> layout dl N Sz record valid n d m ov c dc bs es ->
  layout dl N Sz record valid w d m w c dc bs es.
Proof. intros Hw H. destruct H. split; try done; [lia |]. intros j b Hj Hb. specialize (lay_range0 j b Hj Hb). lia. Qed.

Lemma exec_add exact n d m s k v : exact = true -> holds exact n d m s -> space dl N Sz n -> d < 2 ^ 63 -> accepts (Add k v) ->
  exists r s' m', exec vl (Add k v) s = Some (r, s') /\ answer m (Add k v) r m' /\
    holds exact (n + 1) (d + Z.of_nat (length (record v))) m' s'.
Proof.
  intros -> [(w & ov & c & p & dc & dp & bs & es & -> & Hw & Hl)] Hs Hd [Hk Hv]. rewrite (Hw eq_refl) in *. clear w Hw. cbn in Hk, Hv.
  set (dp' := if vl then length (dc ++ record v) else if 0 <? dl then length (dc ++ record v) else dp).
  set (value := if vl then value_VL v else value_FL v).
  assert (Hvalue : forall ov c p, (p <= length c)%nat -> value (st dl N Sz ov c p dc dp) =
    Some (inr (), st dl N Sz ov (put p (enc_pos dl (Z.of_nat (length dc))) c) (p + length (enc_pos dl (Z.of_nat (length dc)))) (dc ++ record v) dp')).
  { intros ov' c' p' Hp. unfold value, dp', record, valid in *. destruct vl; [by apply value_VL_st | by apply value_FL_st]. }
  pose proof (add_ok dl N Sz HN HSz record valid n d m ov c dc bs es Hl Hs k Hk value (if vl then 1 else 0) v p dp dp' Hv Hd Hvalue) as H.
  assert (Hexec : exec vl (Add k v) (st dl N Sz ov c p dc dp) =
    finish (fun fuel => add_loop fuel k value (if vl then 1 else 0) (first_bucket k (st dl N Sz ov c p dc dp))) (st dl N Sz ov c p dc dp))
    by (cbn [exec]; by destruct vl).
  rewrite Hexec. destruct (m !! k) as [x|] eqn:Hm.
  - destruct H as [p' ->]. do 3 eexists. split; [done |]. split; [by eapply answer_again |]. split. do 8 eexists. split; [done |]. split; [done |].
    apply (layout_mono n d); [lia | lia | done].
  - destruct H as (ov' & c' & p' & bs' & es' & -> & Hl'). do 3 eexists. split; [done |]. split; [by apply answer_add |]. split.
    do 8 eexists. split; [done |]. split; [done | exact Hl'].
Qed.

Lemma exec_search exact n d m s k vp mx : holds exact n d m s -> space dl N Sz n -> is_key k ->
  exists r s', exec vl (Find k vp mx) s = Some (r, s') /\ answer m (Find k vp mx) r m /\ holds exact n d m s'.
Proof.
  intros [(w & ov & c & p & dc & dp & bs & es & -> & Hw & Hl)] Hs Hk.
  set (slots := fun n => if vl then search_slots_VL n k mx else search_slots_FL n k vp mx).
  pose proof (search_ok dl N Sz HN HSz record valid n d m ov c dc bs es Hl Hs k Hk w slots (found vp mx) (if vl then -11 else -10) (-13) (-12) p dp)
    as H.
  assert (Hexec : exec vl (Find k vp mx) (st dl N Sz w c p dc dp) =
    finish (fun fuel => chain_loop fuel (slots (S' Sz)) (-12) (-13) (first_bucket k (st dl N Sz w c p dc dp))) (st dl N Sz w c p dc dp))
    by (cbn [exec]; unfold slots; by destruct vl).
  assert (Hmiss : (exists r p', finish (fun fuel => chain_loop fuel (slots (S' Sz)) (-12) (-13) (first_bucket k (st dl N Sz w c p dc dp)))
      (st dl N Sz w c p dc dp) = Some ((r, []), st dl N Sz w c p' dc dp) /\ (r = (if vl then -11 else -10) \/ r = -13)) ->
    (forall v, m !! k <> Some (false, v)) ->
    exists r s', exec vl (Find k vp mx) (st dl N Sz w c p dc dp) = Some (r, s') /\ answer m (Find k vp mx) r m /\ holds exact n d m s').
  { rewrite Hexec. intros (r & p' & -> & Hr) Hm. do 2 eexists. split; [done |]. split; [by apply answer_missing |]. split. eauto 12. }
  destruct (m !! k) as [[[] v]|] eqn:Hm; [apply Hmiss; [| done] | | apply Hmiss; [| done]].
  1, 3: apply H; clear H.
  all: try (destruct H as (p' & dq & H); [.. | rewrite Hexec, H; do 2 eexists; split; [done |]; split; [by apply answer_found |]; split; eauto 12]).
  all: clear Hmiss Hexec; unfold slots, found, valid, record in *; destruct vl; try done.
  all: try (intros; by eapply search_VL_pass). all: try (intros; by eapply search_FL_pass).
  all: try (intros; by apply search_VL_zero). all: try (intros; by apply search_FL_zero).
  all: intros e v' <- He Hst Hv; (by apply search_VL_hit) || (by apply search_FL_hit).
Qed.

Lemma exec_delete exact n d m s k : holds exact n d m s -> space dl N Sz n -> is_key k ->
  exists r s' m', exec vl (Delete k) s = Some (r, s') /\ answer m (Delete k) r m' /\ holds exact n d m' s'.
Proof.
  intros [(w & ov & c & p & dc & dp & bs & es & -> & Hw & Hl)] Hs Hk.
  pose proof (delete_ok dl N Sz HN HSz record valid n d m ov c dc bs es Hl Hs k Hk w p dp) as H.
  replace (exec vl (Delete k) (st dl N Sz w c p dc dp)) with (deleteKey_FL k (st dl N Sz w c p dc dp)) by (cbn [exec]; by destruct vl).
  destruct (m !! k) as [[del v]|] eqn:Hm.
  - destruct H as (c' & p' & bs' & es' & -> & Hl'). do 3 eexists. split; [done |]. split; [by eapply answer_delete |]. split. eauto 12.
  - destruct H as (r & p' & -> & Hr). do 3 eexists. split; [done |]. split; [by apply answer_nothing |]. split. eauto 12.
Qed.

Lemma exec_ok exact n d m s o : holds exact n d m s -> (is_add o = true -> exact = true) -> accepts o ->
  space dl N Sz n -> d < 2 ^ 63 ->
  exists r s' m', exec vl o s = Some (r, s') /\ answer m o r m' /\ holds exact (n + buckets_of o) (d + bytes_of o) m' s'.
Proof.
  intros Hh Hx Ho Hs Hd. destruct o as [k v|k vp mx|k].
  - by apply exec_add; [apply Hx | ..].
  - destruct (exec_search exact n d m s k vp mx) as (r & s' & H1 & H2 & H3); [done | done | apply Ho |].
    exists r, s', m. cbn [buckets_of is_add bytes_of]. by rewrite !Z.add_0_r.
  - cbn [buckets_of is_add bytes_of]. rewrite !Z.add_0_r. apply exec_delete; [done | done | apply Ho].
Qed.

Lemma total_nonneg f ops : (forall o, 0 <= f o) -> 0 <= total f ops.
Proof. intros Hf. unfold total. induction ops as [|o ops IH]; cbn [foldr]; [lia |]. specialize (Hf o). lia. Qed.

Lemma execs_ok exact ops n d m s : holds exact n d m s -> Forall (fun o => is_add o = true -> exact = true) ops -> Forall accepts ops ->
  space dl N Sz (n + total buckets_of ops) -> d + total bytes_of ops < 2 ^ 63 ->
  exists rs s' m', execs vl ops s = Some (rs, s') /\ answers m ops rs m' /\
    holds exact (n + total buckets_of ops) (d + total bytes_of ops) m' s'.
Proof.
  assert (Hb : forall o, 0 <= buckets_of o) by (intros o; unfold buckets_of; by destruct (is_add o)).
  assert (Hy : forall o, 0 <= bytes_of o) by (intros []; cbn; lia).
  revert n d m s. induction ops as [|o ops IH]; intros n d m s Hh Hx Ha Hs Hd.
  - exists [], s, m. split; [done |]. split; [constructor |]. cbn. by rewrite !Z.add_0_r.
  - apply Forall_cons in Hx as [Hx1 Hx]. apply Forall_cons in Ha as [Ha1 Ha]. cbn [total foldr] in *. fold (total buckets_of ops) (total bytes_of ops) in *.
    pose proof (Hb o). pose proof (Hy o). pose proof (total_nonneg _ ops Hb). pose proof (total_nonneg _ ops Hy).
    destruct (exec_ok exact n d m s o) as (r & s1 & m1 & F1 & F2 & F3); [done | done | done | unfold space in *; nia | lia |].
    destruct (IH _ _ _ _ F3 Hx Ha) as (rs & s2 & m2 & G1 & G2 & G3); [by rewrite <- Z.add_assoc | lia |].
    exists (r :: rs), s2, m2. cbn [execs]. rewrite F1. cbn. rewrite G1. split; [done |]. split; [by econstructor |].
    by rewrite !Z.add_assoc.
Qed.

End contract.

Lemma total_zero f ops : (forall o, f o = 0) -> total f ops = 0.
Proof. intros Hf. unfold total. induction ops as [|o ops IH]; cbn [foldr]; [done |]. by rewrite Hf, IH. Qed.

Lemma total_app f ops later : total f (ops ++ later) = total f ops + total f later.
Proof. unfold total. induction ops as [|o ops IH]; cbn [foldr app]; [done |]. rewrite IH. lia. Qed.

Lemma only_searches dl vl later : Forall (fun o => is_add o = false) later ->
  total buckets_of later = 0 /\ total (bytes_of dl vl) later = 0.
Proof. unfold total. induction 1 as [|o l Ho Hl [IH1 IH2]]; [done |]. cbn [foldr]. rewrite IH1, IH2. by destruct o. Qed.

Lemma space_params dl N Sz n : 0 < N -> 0 < Sz -> 0 <= n -> space dl N Sz n -> space dl N Sz 0 /\ is_i32 N /\ is_i32 Sz.
Proof.
  intros HN HSz Hn Hs. unfold space, L, is_i32, INT32_MIN, INT32_MAX in *. pose proof (E_pos dl). unfold S' in *. repeat split; nia.
Qed.

(** C19. A new store answers every sequence of insertions, searches and removals
    as a map from keys to values with a mark for the removed keys does, through
    any chain of overflow buckets: an insertion returns 1 for a key that is
    there, even removed, and 0 otherwise; a search returns the value of a live
    key; a removal returns 0 for a key that is or was there, and for another one
    1 or -6 (the comment of the source has 1), according to whether its bucket
    has a free slot.  The number of overflow buckets, which neither the
    constructor nor [init] sets, is any [w0] that is not negative.  Closed and
    opened again by an object that holds any number [w], the store answers
    searches and removals from the same map, and insertions too if [w] is not
    below the number the first object held when it was closed.  The keys are not
    0, which marks a free slot; a value has the fixed length, or where the length
    varies at least one byte; the writes succeed; and the bucket positions fit 32
    bits. *)
Theorem QStoreManager_refines (name : bytes) (N Sz dl w0 w : Z) (vl : bool) (ops later : list op) :
  cstr name <> [] -> 0 < N -> 0 < Sz -> is_i32 dl -> (if vl then dl <> 0 else 0 <= dl) -> 0 <= w0 ->
  Forall (accepts dl vl) (ops ++ later) ->
  space dl N Sz (w0 + total buckets_of ops) -> total (bytes_of dl vl) (ops ++ later) < 2 ^ 63 ->
  exists s0 rs s1 m1 s2,
    init name N Sz dl None None w0 true true true [] [] = (0, Some s0) /\
    execs vl ops s0 = Some (rs, s1) /\ answers dl vl ∅ ops rs m1 /\
    init name N Sz dl (Some (content (m_fpHash s1))) (Some (content (m_fpData s1))) w true true true [] [] = (0, Some s2) /\
    (Forall (fun o => is_add o = false) later \/
     m_iBucketOverflowNum s1 <= w /\ space dl N Sz (w + total buckets_of later) ->
     exists rs' s3 m2, execs vl later s2 = Some (rs', s3) /\ answers dl vl m1 later rs' m2).
Proof.
  intros Hname HN HSz Hdl Hmode Hw0 [Ha1 Ha2]%Forall_app Hs Hd. rewrite total_app in Hd.
  assert (Hb : forall o, 0 <= buckets_of o) by (intros o; unfold buckets_of; by destruct (is_add o)).
  assert (Hy : forall o, 0 <= bytes_of dl vl o) by (intros []; cbn; lia).
  pose proof (total_nonneg _ ops Hb). pose proof (total_nonneg _ later Hy).
  destruct (space_params dl N Sz (w0 + total buckets_of ops)) as (Hs0 & HN32 & HSz32); [done | done | lia | done |].
  destruct (init_fresh dl N Sz HN HSz name None w0 Hname Hs0) as [p Hi].
  destruct (execs_ok dl vl N Sz HN HSz Hmode true ops w0 0 ∅ (st dl N Sz w0 (fresh dl N Sz) p [] 0)) as (rs & s1 & m1 & H1 & H2 & [H3]);
    [split; do 8 eexists; split; [done |]; split; [done | by apply fresh_layout] | by apply Forall_true | done | done | lia |].
  destruct H3 as (w1 & ov & c & p1 & dc & dp & bs & es & -> & Hw1 & Hlay).
  destruct (init_reopen dl N Sz HN HSz name N Sz dl c dc w Hname HN HSz Hs0 Hdl HN32 HSz32) as [p2 Hr].
  { intros ->. destruct vl; [done |]. pose proof (lay_data _ _ _ _ _ _ _ _ _ _ _ _ _ Hlay) as Hlen.
    rewrite (total_zero (bytes_of 0 false)) in Hlen by (by intros []). destruct dc; [done | cbn in Hlen; lia]. }
  { apply (lay_head _ _ _ _ _ _ _ _ _ _ _ _ _ Hlay). }
  do 5 eexists. split; [exact Hi |]. split; [exact H1 |]. split; [exact H2 |]. split; [exact Hr |].
  intros [Hl|[Hw Hs']].
  - destruct (only_searches dl vl later Hl) as [Hz1 Hz2].
    destruct (execs_ok dl vl N Sz HN HSz Hmode false later (w0 + total buckets_of ops) (0 + total (bytes_of dl vl) ops) m1
      (st dl N Sz w c p2 dc 0)) as (rs' & s3 & m2 & G1 & G2 & _);
      [split; exists w, ov, c, p2, dc, 0%nat, bs, es; split; [done |]; split; [done | exact Hlay] | | done | by rewrite Hz1, Z.add_0_r | lia | eauto].
    apply (Forall_impl _ _ _ Hl). by intros o ->.
  - cbn [m_iBucketOverflowNum st] in Hw. rewrite (Hw1 eq_refl) in Hw.
    destruct (execs_ok dl vl N Sz HN HSz Hmode true later w (0 + total (bytes_of dl vl) ops) m1 (st dl N Sz w c p2 dc 0))
      as (rs' & s3 & m2 & G1 & G2 & _); [| by apply Forall_true | done | done | lia | eauto].
    split. do 8 eexists. split; [done |]. split; [done | by eapply layout_raise].
Qed.

(** Two buckets of one slot: the third key of a bucket is on an overflow bucket
    of an overflow bucket.  Both objects hold garbage that is large enough. *)
Lemma QStoreManager_refines_witness : exists s0 rs s1 m1 s2,
  let ops := [Add 1 (str "one"); Add 3 (str "drei"); Add 5 (str "cinq"); Delete 3; Add 3 (str "tres")] in
  let later := [Find 5 true 10; Find 3 true 10; Delete 7; Add 7 (str "sept"); Find 7 true 10] in
  init (str "store") 2 1 (-1) None None 4 true true true [] [] = (0, Some s0) /\
  execs true ops s0 = Some (rs, s1) /\ answers (-1) true ∅ ops rs m1 /\
  init (str "store") 2 1 (-1) (Some (content (m_fpHash s1))) (Some (content (m_fpData s1))) 77 true true true [] [] = (0, Some s2) /\
  (Forall (fun o => is_add o = false) later \/ m_iBucketOverflowNum s1 <= 77 /\ space (-1) 2 1 (77 + total buckets_of later) ->
   exists rs' s3 m2, execs true later s2 = Some (rs', s3) /\ answers (-1) true m1 later rs' m2).
Proof.
  apply (QStoreManager_refines (str "store") 2 1 (-1) 4 77 true); try done.
  repeat apply Forall_cons_2; try apply Forall_nil_2; split; done.
Defined.

(** ** Where the object's number of overflow buckets matters

    It is not kept in the file, and [init] does not compute it.  One bucket of
    one slot with two keys is opened again by an object that holds 0: the next
    insertion takes the overflow bucket of the second key for a new one, and
    that key is gone. *)
Example reopened_store_loses_key :
  (s0 ← snd (init (str "s") 1 1 0 None None 0 true true true [] []);
   '(_, s1) ← execs false [Add 1 []; Add 2 []] s0;
   s2 ← snd (init (str "s") 1 1 0 (Some (content (m_fpHash s1))) None 0 true true true [] []);
   '(rs, _) ← execs false [Find 2 false 0; Add 3 []; Find 3 false 0; Find 2 false 0] s2;
   Some (map fst rs)) = Some [0; 0; 0; -13].
Proof. vm_compute. reflexivity. Qed.

(** A new store whose object holds -2 takes the base bucket for its first
    overflow bucket: the second insertion overwrites the first key. *)
Example negative_counter_loses_key :
  (s0 ← snd (init (str "s") 1 1 0 None None (-2) true true true [] []);
   '(rs, _) ← execs false [Add 1 []; Add 2 []; Find 1 false 0; Find 2 false 0] s0;
   Some (map fst rs)) = Some [0; 0; -13; 0].
Proof. vm_compute. reflexivity. Qed.

(** Key 0 is taken for one that is there as soon as a slot is free. *)
Example key_zero_exists :
  (s0 ← snd (init (str "s") 1 2 0 None None 0 true true true [] []);
   '(rs, _) ← execs false [Add 0 []; Find 0 false 0] s0;
   Some (map fst rs)) = Some [1; 0].
Proof. vm_compute. reflexivity. Qed.

(** A removal of a key that is not there, with and without a free slot. *)
Example absent_removals :
  (s0 ← snd (init (str "s") 1 1 0 None None 0 true true true [] []);
   '(rs, _) ← execs false [Delete 5; Add 1 []; Delete 5] s0;
   Some (map fst rs)) = Some [1; 0; -6].
Proof. vm_compute. reflexivity. Qed.

(** A data file that is full: the insertion fails after it has written the key,
    which later searches find with the value of another key. *)
Example failed_insertion_aliases :
  (s0 ← snd (init (str "s") 1 4 4 None None 0 true true true [] [None; None; None; Some 0%nat]);
   '(rs, _) ← execs false [Add 1 (str "AAAA"); Add 2 (str "BBBB"); Find 2 true 4; Add 2 (str "BBBB")] s0;
   Some rs) = Some [(0, []); (-7, []); (0, str "AAAA"); (1, [])].
Proof. vm_compute. reflexivity. Qed.

End StoreMap.
