(* ===== verification/LBScheduler.v ===== *)
(** * Load balancing: src/include/common/qlbscheduler.h and qlbscheduler.cc

    [QLBScheduler] reads servers with weights from a file and picks one per
    request, in turn, in turn by weight, or by the hash of a key.  Reading past
    the end of the server list and locking a mutex twice are [None]; so is a
    loop that runs longer than its fuel.  The weighted turns are compared with
    the rounds they are meant to be. *)

From S2P Require Import Prelude CLib Arrays ConfigReader.
Import Arrays Config.

Module LBScheduler.

(** ** The scheduler *)

Record serverInfo : Type := mkServer { addr : bytes; weight : Z }.

Inductive scheduling : Type :=
  | RoundRobin
  | WeightedRoundRobin
  | LeastConnection
  | WeightedLeastConnection
  | LocalityBasedLeastConnection
  | DestinationHashing
  | SourceHashing.

Record QLBScheduler : Type := mkScheduler {
  server_vec_ : list serverInfo;
  server_iter_ : Z;
  current_weight_ : Z;
  mutex_ : bool
}.

Definition construct : QLBScheduler := mkScheduler [] 0 0 false.

(** *** The configuration file *)

(** [ss.find_first_of(sep, pos)] from [pos] on, [rest] being what follows. *)
Fixpoint find_first_of (sep rest : bytes) (pos : nat) : option nat :=
  match rest with
  | [] => None
  | b :: rest => if bool_decide (b ∈ sep) then Some pos else find_first_of sep rest (S pos)
  end.

(** The loop of [q_split_any]; every round moves [start] when [sep] is not
    empty, and there is no round when it is. *)
Fixpoint split_any_loop (fuel : nat) (ss sep : bytes) (start extra : nat) : option (list bytes) :=
  match fuel with
  | O => None
  | S fuel =>
      match find_first_of sep (drop (start + extra) ss) (start + extra) with
      | Some end_ =>
          rest ← split_any_loop fuel ss sep (end_ + (if (length sep =? 0)%nat then 0 else 1)) (if (length sep =? 0)%nat then 1 else 0);
          Some (substr start (end_ - start) ss :: rest)
      | None => Some [drop start ss]
      end
  end.

Definition q_split_any (ss sep : bytes) : option (list bytes) := split_any_loop (S (length ss)) ss sep 0 0.

(** The server of a line, if there is one. *)
Definition read_server (line : bytes) : option (option serverInfo) :=
  if starts_with (str "#") line || starts_with (str "//") line then Some None
  else
    let buf := line ++ [NUL] in
    let '(buf_len, buf) := cancelEnter buf (Z.to_nat (strlen buf)) in
    if (buf_len =? 0)%nat then Some None
    else
      params ← q_split_any (take buf_len buf) [x20; x09];
      match params with
      | [p; q] => Some (Some (mkServer p (atoi q)))
      | _ => Some None
      end.

(** [while(fgets(...))]; every turn consumes a byte of the file. *)
Fixpoint read_servers (fuel : nat) (file : bytes) (servers : list serverInfo) : option (list serverInfo) :=
  match fuel with
  | O => None
  | S fuel =>
      match fgets 1024 file with
      | None => Some servers
      | Some (line, rest) =>
          s ← read_server line;
          read_servers fuel rest (match s with Some s => servers ++ [s] | None => servers end)
      end
  end.

(** [file] is what the file holds, if it can be opened. *)
Definition init (file : option bytes) (s : QLBScheduler) : option (Z * QLBScheduler) :=
  match file with
  | None => Some (-1, s)
  | Some file =>
      servers ← read_servers (S (length file)) file (server_vec_ s);
      Some (0, mkScheduler servers (server_iter_ s) (current_weight_ s) (mutex_ s))
  end.

(** *** Weights *)

Definition max_weight (servers : list serverInfo) : Z :=
  foldl (fun m s => if m <? weight s then weight s else m) 0 (drop 1 servers).

Definition min_weight (servers : list serverInfo) : option Z :=
  s ← get servers 0;
  Some (foldl (fun m s => if weight s <? m then weight s else m) (weight s) (drop 1 servers)).

(** [while(min>=1)], with [min] as fuel. *)
Fixpoint gcd_loop (fuel : nat) (servers : list serverInfo) (min : Z) : Z :=
  match fuel with
  | O => min
  | S fuel =>
      if 1 <=? min then
        if forallb (fun s => Z.rem (weight s) min =? 0) servers then min else gcd_loop fuel servers (min - 1)
      else min
  end.

Definition gcd (servers : list serverInfo) : option Z :=
  min ← min_weight servers;
  Some (gcd_loop (Z.to_nat min) servers min).

(** *** Choosing a server *)

(** [(j+1)%server_vec_.size()] *)
Abbreviation next servers j := ((j + 1) mod Z.of_nat (length servers))%Z (only parsing).

(** [do ... while(j!=server_iter_)] *)
Fixpoint rr_loop (fuel : nat) (servers : list serverInfo) (iter j : Z) : option (option Z) :=
  match fuel with
  | O => None
  | S fuel =>
      let j := next servers j in
      s ← get servers j;
      if 0 <? weight s then Some (Some j) else if j =? iter then Some None else rr_loop fuel servers iter j
  end.

Definition get_server_RR (s : QLBScheduler) : option (Z * QLBScheduler) :=
  if mutex_ s then None
  else
    r ← rr_loop (length (server_vec_ s)) (server_vec_ s) (server_iter_ s) (server_iter_ s);
    match r with
    | Some j => Some (j, mkScheduler (server_vec_ s) j (current_weight_ s) false)
    | None => Some (-1, s)
    end.

(** [for(;;)]: the index, if it is not -1, and [current_weight_]. *)
Fixpoint wrr_loop (fuel : nat) (servers : list serverInfo) (cw j : Z) : option (option Z * Z) :=
  match fuel with
  | O => None
  | S fuel =>
      let j := next servers j in
      cw ← (if j =? 0 then g ← gcd servers; let cw := i32 (cw - g) in Some (if cw <=? 0 then max_weight servers else cw) else Some cw);
      if (j =? 0) && (cw =? 0) then Some (None, cw)
      else
        s ← get servers j;
        if cw <=? weight s then Some (Some j, cw) else wrr_loop fuel servers cw j
  end.

Definition get_server_WRR (fuel : nat) (s : QLBScheduler) : option (Z * QLBScheduler) :=
  if mutex_ s then None
  else
    '(r, cw) ← wrr_loop fuel (server_vec_ s) (current_weight_ s) (server_iter_ s);
    match r with
    | Some j => Some (j, mkScheduler (server_vec_ s) j cw false)
    | None => Some (-1, mkScheduler (server_vec_ s) (server_iter_ s) cw false)
    end.

(** [do ... while(j!=i)]: [j] only grows. *)
Fixpoint dh_loop (fuel : nat) (servers : list serverInfo) (i j : Z) : option Z :=
  match fuel with
  | O => None
  | S fuel =>
      s ← get servers j;
      if 0 <? weight s then Some j else if j + 1 =? i then Some (-1) else dh_loop fuel servers i (j + 1)
  end.

Definition get_server_DH (hash_key : Z) (s : QLBScheduler) : option Z :=
  let i := hash_key mod Z.of_nat (length (server_vec_ s)) in
  dh_loop (S (length (server_vec_ s))) (server_vec_ s) i i.

Definition get_server_SH (hash_key : Z) (s : QLBScheduler) : option Z :=
  let i := hash_key mod Z.of_nat (length (server_vec_ s)) in
  dh_loop (S (length (server_vec_ s))) (server_vec_ s) i i.

(** The index and what is written to [*server]. *)
Definition get_server (fuel : nat) (sched : scheduling) (hash_key : Z) (s : QLBScheduler) : option (Z * option serverInfo * QLBScheduler) :=
  if (length (server_vec_ s) =? 0)%nat then Some (-1, None, s)
  else
    '(server_index, s) ←
      match sched with
      | RoundRobin => get_server_RR s
      | WeightedRoundRobin => get_server_WRR fuel s
      | DestinationHashing => i ← get_server_DH hash_key s; Some (i, s)
      | SourceHashing => i ← get_server_SH hash_key s; Some (i, s)
      | _ => Some (-1, s)
      end;
    if 0 <=? server_index then server ← get (server_vec_ s) server_index; Some (server_index, Some server, s)
    else Some (server_index, None, s).


(** ** Reading a file of servers *)

Lemma find_first_of_first sep a b t : forall pos, Forall (fun x => x ∉ sep) a -> b ∈ sep -> find_first_of sep (a ++ b :: t) pos = Some (pos + length a)%nat.
Proof.
  induction a as [|x a IH]; intros pos Ha Hb; cbn.
  - rewrite bool_decide_true by done. f_equal. lia.
  - apply Forall_cons in Ha as [Hx Ha]. rewrite bool_decide_false, IH by done. f_equal. lia.
Qed.

Lemma find_first_of_none sep a : forall pos, Forall (fun x => x ∉ sep) a -> find_first_of sep a pos = None.
Proof. induction a as [|x a IH]; intros pos Ha; cbn; [done |]. apply Forall_cons in Ha as [Hx Ha]. by rewrite bool_decide_false, IH. Qed.

Lemma q_split_any_two sep a b c : sep <> [] -> Forall (fun x => x ∉ sep) a -> b ∈ sep -> Forall (fun x => x ∉ sep) c ->
  q_split_any (a ++ b :: c) sep = Some [a; c].
Proof.
  intros Hs Ha Hb Hc. unfold q_split_any. destruct (length (a ++ b :: c)) as [|f] eqn:El; [rewrite length_app in El; cbn in El; lia |].
  cbn [split_any_loop Nat.add]. rewrite drop_0, find_first_of_first by done. cbn [Nat.add mbind option_bind].
  rewrite (proj2 (Nat.eqb_neq (length sep) 0)) by (by destruct sep). rewrite Nat.add_0_r.
  replace (length a + 1)%nat with (length (a ++ [b])) by (rewrite length_app; cbn; lia). rewrite (cons_middle b a c), app_assoc, drop_app_length.
  rewrite find_first_of_none by done. cbn [mbind option_bind]. unfold substr. rewrite drop_0, Nat.sub_0_r, <- app_assoc, take_app_length. done.
Qed.

(** A line with a server, or a comment. *)
Inductive item : Type := Server (s : serverInfo) | Remark_ (text : bytes).

Definition item_line (i : item) : bytes :=
  match i with Server s => addr s ++ x20 :: fmt_d (weight s) | Remark_ text => str "#" ++ text end.

Definition item_ok (i : item) : Prop :=
  match i with
  | Server s => addr s <> [] /\ Forall (fun b => b ∉ [x20; x09; x0a; NUL]) (addr s) /\ starts_with (str "#") (addr s) = false /\
      starts_with (str "//") (addr s) = false /\ is_i32 (weight s) /\ (length (addr s) <= 1000)%nat
  | Remark_ text => x0a ∉ text /\ (length text <= 1000)%nat
  end.

Definition servers_of (items : list item) : list serverInfo := omap (fun i => match i with Server s => Some s | Remark_ _ => None end) items.

Definition render (items : list item) : bytes := concat ((fun i => item_line i ++ [x0a]) <$> items).

Lemma digit_plain b : 45 <= byte_val b <= 57 -> b ∉ [x20; x09; x0a; x0d; NUL].
Proof. intros Hb Hin. repeat (apply elem_of_cons in Hin as [->|Hin]; [revert Hb; cbn; lia |]). by apply not_elem_of_nil in Hin. Qed.

Lemma fmt_d_plain w : is_i32 w -> fmt_d w <> [] /\ (length (fmt_d w) <= 20)%nat /\ Forall (fun b => b ∉ [x20; x09; x0a; x0d; NUL]) (fmt_d w).
Proof.
  intros Hw. unfold is_i32, INT32_MIN, INT32_MAX in Hw.
  assert (Hu : forall z, 0 <= z <= 2 ^ 31 -> fmt_u z <> [] /\ (length (fmt_u z) <= 10)%nat /\ Forall (fun b => b ∉ [x20; x09; x0a; x0d; NUL]) (fmt_u z)).
  { intros z Hz. split; [unfold fmt_u; intros E; apply fmap_nil_inv in E; by apply to_base_nonempty in E |].
    split; [apply length_fmt_u; change (Z.of_nat 10) with 10; lia |]. unfold fmt_u. apply Forall_fmap.
    pose proof (to_base_range 10 z ltac:(lia) ltac:(lia)) as Hr. apply (Forall_impl _ _ _ Hr). intros d Hd. apply digit_plain. rewrite digit_char_val; lia. }
  unfold fmt_d. destruct (Z.ltb_spec w 0); [| destruct (Hu w) as (H1 & H2 & H3); [lia |]; split; [done |]; split; [lia | done]].
  destruct (Hu (- w)) as (H1 & H2 & H3); [lia |]. split; [done |]. split; [cbn; lia |]. apply Forall_cons. split; [apply digit_plain; cbn; lia | done].
Qed.

(** A line is read as its server. *)
Lemma read_server_item i : item_ok i -> read_server (item_line i ++ [x0a]) = Some (match i with Server s => Some s | Remark_ _ => None end).
Proof.
  destruct i as [[a w]|text]; cbn [item_line item_ok addr weight]; [| done]. intros (Hne & Ha & Hhash & Hslash & Hw & Hl).
  destruct (fmt_d_plain w Hw) as (Hf & _ & Hp). unfold read_server.
  assert (Hstart : starts_with (str "#") ((a ++ x20 :: fmt_d w) ++ [x0a]) || starts_with (str "//") ((a ++ x20 :: fmt_d w) ++ [x0a]) = false).
  { destruct a as [|x [|y a]]; [done | |]; cbn in Hhash, Hslash |- *; rewrite Hhash; [by rewrite andb_false_r | exact Hslash]. }
  rewrite Hstart. assert (Hsep : Forall (fun x => x ∉ [x20; x09]) a) by (apply (Forall_impl _ _ _ Ha); set_solver).
  assert (Hsep' : Forall (fun x => x ∉ [x20; x09]) (fmt_d w)) by (apply (Forall_impl _ _ _ Hp); set_solver).
  destruct (cancelEnter_spec (a ++ x20 :: fmt_d w) [x0a]) as [z Hz].
  - rewrite last_app, last_cons. destruct (last (fmt_d w)) as [b|] eqn:Eb; [| by apply last_None in Eb]. 
    apply last_Some_elem_of in Eb. rewrite Forall_forall in Hp. specialize (Hp b Eb). unfold is_enter.
    destruct (beqb_spec b x20), (beqb_spec b x0d), (beqb_spec b x0a); subst; try done; set_solver.
  - by repeat constructor.
  - unfold no_nul. apply Forall_app. split; [apply (Forall_impl _ _ _ Ha); set_solver |]. apply Forall_cons. split; [done | apply (Forall_impl _ _ _ Hp); set_solver].
  - by destruct a.
  - rewrite <- app_assoc, Hz. rewrite (proj2 (Nat.eqb_neq _ 0)) by (rewrite length_app; cbn; lia).
    rewrite take_app_length, q_split_any_two by (done || set_solver). cbn [mbind option_bind].
    rewrite <- (app_nil_r (fmt_d w)) at 1. by rewrite atoi_fmt_d.
Qed.

Lemma fgets_line i rest : item_ok i -> fgets 1024 (item_line i ++ x0a :: rest) = Some (item_line i ++ [x0a], rest).
Proof.
  intros Hi. assert (Hl : x0a ∉ item_line i /\ (length (item_line i) < 1023)%nat).
  { destruct i as [[a w]|text]; cbn [item_line item_ok addr weight] in *.
    - destruct Hi as (_ & Ha & _ & _ & Hw & Hl). destruct (fmt_d_plain w Hw) as (_ & Hf & Hp). rewrite Forall_forall in Ha, Hp. split.
      + intros [Hin|[?|Hin]%elem_of_cons]%elem_of_app; [specialize (Ha _ Hin); set_solver | done | specialize (Hp _ Hin); set_solver].
      + rewrite length_app. cbn. lia.
    - destruct Hi as [Hn Hl]. split; [by intros [?|?]%elem_of_cons | cbn; lia]. }
  unfold fgets. destruct (item_line i ++ x0a :: rest) eqn:E; [by destruct (item_line i) |]. rewrite <- E. destruct Hl. by rewrite get_line_newline by (done || lia).
Qed.

Lemma read_servers_render items : forall fuel acc, Forall item_ok items -> (length (render items) < fuel)%nat ->
  read_servers fuel (render items) acc = Some (acc ++ servers_of items).
Proof.
  induction items as [|i items IH]; intros fuel acc Hi Hf; (destruct fuel as [|fuel]; [lia |]); cbn [read_servers]; [by rewrite app_nil_r |].
  apply Forall_cons in Hi as [Hi His]. change (render (i :: items)) with ((item_line i ++ [x0a]) ++ render items) in *. rewrite length_app in Hf.
  rewrite <- app_assoc. cbn [app]. rewrite fgets_line, read_server_item by done. cbn [mbind option_bind]. rewrite IH by (done || rewrite length_app in Hf; cbn in Hf; lia).
  destruct i; cbn; [by rewrite <- app_assoc | done].
Qed.

(** A file of server lines and comments gives exactly its servers. *)
Lemma init_render items : Forall item_ok items -> init (Some (render items)) construct = Some (0, mkScheduler (servers_of items) 0 0 false).
Proof. intros Hi. unfold init. cbn [server_vec_ construct]. by rewrite read_servers_render by (done || lia). Qed.

(** ** Rounds *)

(** The servers that take part in a round, and the rounds of a cycle: their
    thresholds go down from the greatest weight in steps of the common divisor. *)
Definition round (ws : list Z) (c : Z) : list Z := filter (fun j => c <= default 0 (get ws j)) (seqZ 0 (Z.of_nat (length ws))).

Definition common (ws : list Z) : Z := foldr Z.gcd 0 ws.
Definition highest (ws : list Z) : Z := foldr Z.max 0 ws.

(** The thresholds [k * g], ..., [g]. *)
Fixpoint thresholds (g : Z) (k : nat) : list Z :=
  match k with O => [] | S k => Z.of_nat (S k) * g :: thresholds g k end.

(** The first server is left out of the greatest weight. *)
Definition cycle (ws : list Z) : list Z :=
  concat (round ws <$> thresholds (common ws) (Z.to_nat (highest (tail ws) / common ws))).

(** How often an index is in a list. *)
Definition times (j : Z) (l : list Z) : Z := Z.of_nat (length (filter (fun x => x = j) l)).

(** *** The common divisor *)

Lemma common_divides ws w : w ∈ ws -> (common ws | w).
Proof.
  induction ws as [|x ws IH]; [by intros ?%not_elem_of_nil |]. cbn. intros [->|H]%elem_of_cons; [apply Z.gcd_divide_l |].
  etransitivity; [apply Z.gcd_divide_r | by apply IH].
Qed.

Lemma common_greatest ws d : (forall w, w ∈ ws -> (d | w)) -> (d | common ws).
Proof.
  induction ws as [|x ws IH]; intros H; cbn; [apply Z.divide_0_r |]. apply Z.gcd_greatest; [apply H; by left |].
  apply IH. intros w Hw. apply H. by right.
Qed.

Lemma common_pos ws w : w ∈ ws -> 0 < w -> 1 <= common ws <= w.
Proof.
  intros Hw Hpos. pose proof (common_divides ws w Hw) as Hd. apply Z.divide_pos_le in Hd as Hle; [| done]. split; [| done].
  assert (0 <= common ws) by (destruct ws; [done | apply Z.gcd_nonneg]). destruct (decide (common ws = 0)) as [E|]; [| lia].
  rewrite E in Hd. apply Z.divide_0_l in Hd. lia.
Qed.

#[local] Notation weights servers := (weight <$> servers).

Lemma gcd_loop_common servers fuel : forall m, 1 <= common (weights servers) <= m -> (Z.to_nat m <= fuel)%nat ->
  gcd_loop fuel servers m = common (weights servers).
Proof.
  induction fuel as [|fuel IH]; intros m Hm Hf; [lia |]. cbn [gcd_loop]. rewrite (proj2 (Z.leb_le 1 m)) by lia.
  destruct (forallb _ servers) eqn:E.
  - apply Z.le_antisymm; [| lia]. apply Z.divide_pos_le; [lia |]. apply common_greatest. intros w (x & -> & Hx)%list_elem_of_fmap.
    rewrite forallb_forall in E. specialize (E x). rewrite <- list_elem_of_In in E. specialize (E Hx). apply Z.eqb_eq, Z.rem_divide in E; [done | lia].
  - apply IH; [| lia]. split; [lia |]. destruct (decide (common (weights servers) = m)) as [Heq|]; [| lia].
    enough (forallb (fun s => Z.rem (weight s) m =? 0) servers = true) by congruence. apply forallb_forall. intros x Hx%list_elem_of_In.
    apply Z.eqb_eq, Z.rem_divide; [lia |]. rewrite <- Heq. apply common_divides. by apply list_elem_of_fmap_2.
Qed.

Lemma fold_min servers m : let r := foldl (fun m s => if weight s <? m then weight s else m) m servers in
  r <= m /\ (forall s, s ∈ servers -> r <= weight s) /\ (r = m \/ exists s, s ∈ servers /\ r = weight s).
Proof.
  revert m. induction servers as [|x servers IH]; intros m; cbn.
  - split; [lia |]. split; [by intros s ?%not_elem_of_nil | by left].
  - destruct (IH (if weight x <? m then weight x else m)) as (H1 & H2 & H3). destruct (Z.ltb_spec (weight x) m).
    + split; [lia |]. split; [intros s [->|Hs]%elem_of_cons; [done | auto] |]. right. destruct H3 as [H3|(s & Hs & H3)]; [exists x; split; [by left | done] | exists s; split; [by right | done]].
    + split; [done |]. split; [intros s [->|Hs]%elem_of_cons; [lia | auto] |]. destruct H3 as [H3|(s & Hs & H3)]; [by left | right; exists s; split; [by right | done]].
Qed.

Lemma gcd_spec servers : servers <> [] -> Forall (fun s => 1 <= weight s) servers -> gcd servers = Some (common (weights servers)).
Proof.
  intros Hne Hpos. destruct servers as [|x servers]; [done |]. unfold gcd, min_weight. change (get (x :: servers) 0) with (Some x). cbn [mbind option_bind]. rewrite skipn_cons, drop_0.
  destruct (fold_min servers (weight x)) as (H1 & H2 & H3). set (m := foldl _ (weight x) servers) in *. f_equal.
  assert (Hm : exists s, s ∈ x :: servers /\ m = weight s) by (destruct H3 as [->|(s & Hs & ->)]; [exists x; split; [by left | done] | exists s; split; [by right | done]]).
  destruct Hm as (s & Hs & Hm). rewrite Forall_forall in Hpos. apply gcd_loop_common; [| done]. rewrite Hm. apply common_pos; [by apply list_elem_of_fmap_2 |].
  specialize (Hpos s Hs). lia.
Qed.

Lemma highest_in l : l <> [] -> Forall (fun x => 0 <= x) l -> highest l ∈ l.
Proof.
  induction l as [|x [|y l] IH]; intros Hne Hl; [done | |]; apply Forall_cons in Hl as [Hx Hl].
  - cbn. rewrite Z.max_l by done. by left.
  - specialize (IH ltac:(done) Hl). change (highest (x :: y :: l)) with (Z.max x (highest (y :: l))).
    destruct (Z.max_spec x (highest (y :: l))) as [[_ ->]|[_ ->]]; [by right | by left].
Qed.

Lemma max_weight_spec servers : max_weight servers = highest (tail (weights servers)).
Proof.
  assert (H : forall l m, 0 <= m -> foldl (fun m s => if m <? weight s then weight s else m) m l = Z.max m (highest (weights l))).
  { induction l as [|x l IH]; intros m Hm; cbn; [lia |]. destruct (Z.ltb_spec m (weight x)); rewrite IH by lia; unfold highest; lia. }
  unfold max_weight. rewrite H by lia. destruct servers as [|x servers]; [done |]. cbn [drop tail fmap list_fmap].
  apply Z.max_r. unfold highest. generalize (weights servers). intros l. induction l; cbn; lia.
Qed.

(** *** Calls in a row *)

Fixpoint calls (fuel k : nat) (s : QLBScheduler) : option (list Z * QLBScheduler) :=
  match k with
  | O => Some ([], s)
  | S k =>
      '(j, _, s) ← get_server fuel WeightedRoundRobin 0 s;
      '(js, s) ← calls fuel k s;
      Some (j :: js, s)
  end.

Lemma calls_app fuel k k' s js s1 js' s2 : calls fuel k s = Some (js, s1) -> calls fuel k' s1 = Some (js', s2) ->
  calls fuel (k + k') s = Some (js ++ js', s2).
Proof.
  revert s js. induction k as [|k IH]; intros s js; cbn [calls Nat.add]; [by intros [= <- <-] |].
  destruct (get_server fuel WeightedRoundRobin 0 s) as [[[j o] s']|]; [| done]. cbn [mbind option_bind].
  destruct (calls fuel k s') as [[js0 s0]|] eqn:E; [| done]. cbn [mbind option_bind]. intros [= <- <-] E2. by rewrite (IH s' js0 E E2).
Qed.

Section rounds.
Variable servers : list serverInfo.
#[local] Notation n := (Z.of_nat (length servers)).
#[local] Notation ws := (weights servers).
#[local] Notation g := (common ws).
#[local] Notation M := (highest (tail ws)).
Hypothesis Hn : 2 <= n.
Hypothesis Hw : Forall (fun s => 1 <= weight s <= INT32_MAX) servers.

Definition w_at (j : Z) : Z := default 0 (get ws j).

Lemma w_at_get j : 0 <= j < n -> exists s, get servers j = Some s /\ weight s = w_at j /\ 1 <= w_at j <= INT32_MAX.
Proof.
  intros Hj. destruct (get_is_Some servers j Hj) as [s Hs]. exists s. split; [done |]. pose proof Hs as [_ Hl]%get_Some.
  assert (E : w_at j = weight s) by (unfold w_at, get; rewrite (proj2 (Z.leb_le _ _)) by lia; by rewrite list_lookup_fmap, Hl).
  rewrite E. split; [done |]. rewrite Forall_lookup in Hw. by apply (Hw _ _ Hl).
Qed.

Lemma g_range : 1 <= g /\ (forall j, 0 <= j < n -> (g | w_at j)).
Proof.
  split.
  - destruct (w_at_get 0) as (s & Hs & Hws & Hr); [lia |]. apply get_Some in Hs as [_ Hs]. apply (common_pos _ (weight s)); [| lia].
    apply list_elem_of_fmap_2. by apply list_elem_of_lookup_2 with (Z.to_nat 0).
  - intros j Hj. destruct (w_at_get j Hj) as (s & Hs & <- & _). apply get_Some in Hs as [_ Hs]. apply common_divides, list_elem_of_fmap_2.
    by apply list_elem_of_lookup_2 with (Z.to_nat j).
Qed.

(** The greatest weight is that of a server behind the first. *)
Lemma M_server : 1 <= M <= INT32_MAX /\ (exists j, 1 <= j < n /\ w_at j = M) /\ (g | M).
Proof.
  assert (Hlen : (length (tail ws) = length servers - 1)%nat) by (rewrite <- (length_fmap weight servers); destruct ws; cbn; lia).
  assert (Hin : M ∈ tail ws).
  { apply highest_in; [intros E; rewrite E in Hlen; cbn in Hlen; lia |]. assert (Hall : Forall (fun x => 0 <= x) ws)
      by (apply Forall_fmap; apply (Forall_impl _ _ _ Hw); cbn; lia). by destruct Hall. }
  apply list_elem_of_lookup in Hin as [i Hi]. rewrite lookup_tail in Hi. pose proof (lookup_lt_Some _ _ _ Hi) as Hlt. rewrite length_fmap in Hlt.
  assert (Hwj : w_at (Z.of_nat (S i)) = M) by (unfold w_at, get; rewrite (proj2 (Z.leb_le _ _)), Nat2Z.id, Hi by lia; done).
  destruct (w_at_get (Z.of_nat (S i))) as (s & _ & _ & Hr); [lia |]. rewrite Hwj in Hr. split; [done |]. split; [exists (Z.of_nat (S i)); split; [lia | done] |].
  rewrite <- Hwj. apply g_range. lia.
Qed.

Lemma next_small j : 0 <= j < n - 1 -> next servers j = j + 1.
Proof. intros Hj. apply Z.mod_small. lia. Qed.

Lemma next_last : next servers (n - 1) = 0.
Proof. replace (n - 1 + 1) with n by lia. apply Z.mod_same. lia. Qed.

(** The threshold after [c]. *)
Definition after (c : Z) : Z := if c - g <=? 0 then M else c - g.

(** The next index of a round. *)
Lemma wrr_found f c j j' : 0 <= j < j' -> j' < n -> (forall i, j < i < j' -> w_at i < c) -> c <= w_at j' ->
  Z.of_nat f >= j' - j -> wrr_loop f servers c j = Some (Some j', c).
Proof.
  intros Hj Hj' Hlow Hhigh Hf. revert j Hj Hlow Hf. induction f as [|f IH]; intros j Hj Hlow Hf; [lia |]. cbn [wrr_loop].
  rewrite next_small by lia. rewrite (proj2 (Z.eqb_neq (j + 1) 0)) by lia. cbn [mbind option_bind andb].
  destruct (w_at_get (j + 1)) as (s & Hs & Hws & _); [lia |]. rewrite Hs. cbn [mbind option_bind]. rewrite Hws.
  destruct (decide (j + 1 = j')) as [->|Hd]; [by rewrite (proj2 (Z.leb_le _ _)) |].
  rewrite (proj2 (Z.leb_gt _ _)) by (apply Hlow; lia). apply IH; [lia | | lia]. intros i Hi. apply Hlow. lia.
Qed.

(** The rest of a round that has nobody left. *)
Lemma wrr_skip f c j : 0 <= j < n -> (forall i, j < i < n -> w_at i < c) -> Z.of_nat f >= n - 1 - j ->
  exists f', wrr_loop f servers c j = wrr_loop f' servers c (n - 1) /\ Z.of_nat f' = Z.of_nat f - (n - 1 - j).
Proof.
  revert j. induction f as [|f IH]; intros j Hj Hlow Hf; [assert (j = n - 1) as -> by lia; exists O; split; [done | lia] |].
  destruct (decide (j = n - 1)) as [->|Hd]; [exists (S f); split; [done | lia] |].
  destruct (IH (j + 1)) as (f' & E & Hf'); [lia | intros i Hi; apply Hlow; lia | lia |]. exists f'. split; [| lia].
  cbn [wrr_loop]. rewrite next_small by lia. rewrite (proj2 (Z.eqb_neq (j + 1) 0)) by lia. cbn [mbind option_bind andb].
  destruct (w_at_get (j + 1)) as (s & Hs & Hws & _); [lia |]. rewrite Hs. cbn [mbind option_bind]. rewrite Hws.
  rewrite (proj2 (Z.leb_gt _ _)) by (apply Hlow; lia). exact E.
Qed.

Lemma after_range c : 0 <= c <= M -> 1 <= after c <= M.
Proof. intros Hc. pose proof M_server as [HM _]. pose proof g_range as [Hg _]. unfold after. destruct (Z.leb_spec (c - g) 0); lia. Qed.

(** The first index of the next round. *)
Lemma wrr_wrap f c j x : 0 <= c <= M -> 0 <= j < n -> (forall i, j < i < n -> w_at i < c) ->
  0 <= x < n -> (forall i, 0 <= i < x -> w_at i < after c) -> after c <= w_at x -> Z.of_nat f >= 2 * n ->
  wrr_loop f servers c j = Some (Some x, after c).
Proof.
  intros Hc Hj Hlow Hx Hlow' Hhigh Hf. destruct (wrr_skip f c j Hj Hlow) as (f' & -> & Hf'); [lia |]. destruct f' as [|f']; [lia |].
  pose proof (after_range c Hc) as Ha. pose proof M_server as [HM _]. pose proof g_range as [Hg Hdiv].
  assert (Hgw : g <= INT32_MAX) by (destruct (w_at_get 0) as (s & _ & _ & Hr); [lia |]; pose proof (Z.divide_pos_le g (w_at 0) ltac:(lia) (Hdiv 0 ltac:(lia))); lia).
  cbn [wrr_loop]. rewrite next_last, Z.eqb_refl, gcd_spec, max_weight_spec by
    (first [intros ->; cbn in Hn; lia | apply (Forall_impl _ _ _ Hw); cbn; lia]). cbn [mbind option_bind].
  rewrite i32_small by (unfold is_i32, INT32_MIN, INT32_MAX in *; lia). fold (after c). rewrite (proj2 (Z.eqb_neq (after c) 0)) by lia. cbn [andb].
  destruct (w_at_get 0) as (s & Hs & Hws & _); [lia |]. rewrite Hs. cbn [mbind option_bind]. rewrite Hws.
  destruct (decide (x = 0)) as [->|Hd]; [by rewrite (proj2 (Z.leb_le _ _)) |]. rewrite (proj2 (Z.leb_gt _ _)) by (apply Hlow'; lia).
  apply wrr_found; [lia | lia | intros i Hi; apply Hlow'; lia | done | lia].
Qed.

Lemma filter_seqZ_nil (P : Z -> Prop) `{forall x, Decision (P x)} a m : filter P (seqZ a m) = [] -> forall i, a <= i < a + m -> ~ P i.
Proof.
  intros E i Hi HP. assert (Hin : i ∈ filter P (seqZ a m)) by (apply list_elem_of_filter; split; [done | by apply elem_of_seqZ]).
  rewrite E in Hin. by apply not_elem_of_nil in Hin.
Qed.

Lemma filter_seqZ_all (P : Z -> Prop) `{forall x, Decision (P x)} l : Forall P l -> filter P l = l.
Proof. induction 1 as [|x l Hx Hl IH]; [done |]. rewrite filter_cons, decide_True by done. by rewrite IH. Qed.

Lemma filter_seqZ_cons (P : Z -> Prop) `{forall x, Decision (P x)} x R : forall m a, filter P (seqZ a (Z.of_nat m)) = x :: R ->
  a <= x < a + Z.of_nat m /\ P x /\ (forall i, a <= i < x -> ~ P i) /\ R = filter P (seqZ (x + 1) (a + Z.of_nat m - x - 1)).
Proof.
  induction m as [|m IH]; intros a; [by rewrite seqZ_nil |]. rewrite seqZ_cons by lia. rewrite filter_cons.
  replace (Z.pred (Z.of_nat (S m))) with (Z.of_nat m) by lia. destruct (decide (P a)) as [HP|HP].
  - intros [= <- <-]. split; [lia |]. split; [done |]. split; [lia |]. do 2 f_equal; lia.
  - intros E. destruct (IH _ E) as (H1 & H2 & H3 & H4). split; [lia |]. split; [done |]. split.
    + intros i Hi. destruct (decide (i = a)) as [->|]; [done | apply H3; lia].
    + rewrite H4. do 2 f_equal; lia.
Qed.

(** *** Shares *)

Lemma times_app j l l' : times j (l ++ l') = times j l + times j l'.
Proof. unfold times. rewrite filter_app, length_app. lia. Qed.

Lemma times_NoDup j l : NoDup l -> times j l = if decide (j ∈ l) then 1 else 0.
Proof.
  unfold times. induction 1 as [|x l Hx Hl IH]; [by rewrite decide_False by apply not_elem_of_nil |]. rewrite filter_cons.
  destruct (decide (x = j)) as [->|Hne].
  - rewrite decide_False in IH by done. rewrite decide_True by (by left). cbn [length]. lia.
  - rewrite IH. destruct (decide (j ∈ l)); [by rewrite decide_True by (by right) |]. rewrite decide_False; [done |]. by intros [->|?]%elem_of_cons.
Qed.

Lemma times_round j c : 0 <= j < n -> times j (round ws c) = if decide (c <= w_at j) then 1 else 0.
Proof.
  intros Hj. rewrite times_NoDup by (apply NoDup_filter, NoDup_seqZ). unfold round. rewrite length_fmap.
  destruct (decide (c <= w_at j)) as [H|H]; [rewrite decide_True; [done |] | rewrite decide_False; [done |]]; rewrite list_elem_of_filter, elem_of_seqZ; [split; [done | lia] |].
  by intros [? _].
Qed.

Lemma times_cycle j : 0 <= j < n -> times j (cycle ws) = Z.min (w_at j) M / g.
Proof.
  intros Hj. destruct g_range as [Hg Hd]. destruct (Hd j Hj) as [v Hv]. destruct M_server as (HM & _ & q & Hq).
  assert (H : forall k : nat, times j (concat (round ws <$> thresholds g k)) = Z.min v (Z.of_nat k)).
  { destruct (w_at_get j Hj) as (_ & _ & _ & Hr & _). assert (0 <= v) by nia.
    induction k as [|k IH]; [cbn; unfold times; cbn; lia |]. cbn [thresholds fmap list_fmap concat]. rewrite times_app, IH, times_round by done.
    rewrite Hv. case_decide; nia. }
  unfold cycle. rewrite H, Hv, Hq, Z.mul_min_distr_nonneg_r, !Z.div_mul by lia. assert (0 <= q) by nia. lia.
Qed.

(** *** The calls of a round *)

Variable fuel : nat.
Hypothesis Hfuel : 2 * n <= Z.of_nat fuel.
#[local] Notation at_ j c := (mkScheduler servers j c false).

(** Who is left in the round after [j]. *)
Definition left_in (c j : Z) : list Z := filter (fun i => c <= w_at i) (seqZ (j + 1) (n - 1 - j)).

Lemma get_server_found j c x c' : wrr_loop fuel servers c j = Some (Some x, c') -> 0 <= x < n ->
  exists o, get_server fuel WeightedRoundRobin 0 (at_ j c) = Some (x, o, at_ x c').
Proof.
  intros E Hx. unfold get_server, get_server_WRR. cbn [server_vec_ mutex_ current_weight_ server_iter_]. rewrite (proj2 (Nat.eqb_neq _ 0)) by lia.
  rewrite E. cbn [mbind option_bind server_vec_]. rewrite (proj2 (Z.leb_le 0 x)) by lia.
  destruct (w_at_get x Hx) as (s & Hs & _). rewrite Hs. cbn. eauto.
Qed.

Lemma calls_rest c R : forall j, 0 <= j < n -> left_in c j = R ->
  exists j', calls fuel (length R) (at_ j c) = Some (R, at_ j' c) /\ 0 <= j' < n /\ left_in c j' = [].
Proof.
  induction R as [|x R IH]; intros j Hj HR; [by exists j |]. unfold left_in in HR.
  replace (n - 1 - j) with (Z.of_nat (Z.to_nat (n - 1 - j))) in HR by lia. apply filter_seqZ_cons in HR as (Hx & HP & Hlow & HR).
  destruct (get_server_found j c x c) as [o Ho]; [| lia |].
  { apply wrr_found; [lia | lia | intros i Hi; specialize (Hlow i); lia | done | lia]. }
  destruct (IH x) as (j' & Hc & Hj' & He); [lia | rewrite HR; unfold left_in; f_equal; f_equal; lia |].
  exists j'. cbn [length calls]. rewrite Ho. cbn [mbind option_bind]. rewrite Hc. done.
Qed.

(** A whole round. *)
Lemma calls_round c j : 0 <= c <= M -> 0 <= j < n -> left_in c j = [] ->
  exists j', calls fuel (length (round ws (after c))) (at_ j c) = Some (round ws (after c), at_ j' (after c)) /\ 0 <= j' < n /\ left_in (after c) j' = [].
Proof.
  intros Hc Hj He. pose proof (after_range c Hc) as Ha. destruct M_server as (HM & (m & Hm & HwM) & _).
  destruct (round ws (after c)) as [|x R] eqn:HR; unfold round in HR; rewrite length_fmap in HR; fold w_at in HR.
  { exfalso. apply (filter_seqZ_nil _ _ _ HR m); [lia |]. fold (w_at m). lia. }
  apply filter_seqZ_cons in HR as (Hx & HP & Hlow & HR). fold (w_at x) in HP.
  destruct (get_server_found j c x (after c)) as [o Ho]; [| lia |].
  { apply wrr_wrap; try lia.
    - intros i Hi. unfold left_in in He. pose proof (filter_seqZ_nil _ _ _ He i). cbn in *. lia.
    - intros i Hi. specialize (Hlow i). fold (w_at i) in Hlow. lia. }
  destruct (calls_rest (after c) R x) as (j' & Hcs & Hj' & He'); [lia | rewrite HR; unfold left_in; f_equal; f_equal; lia |].
  exists j'. cbn [length calls]. rewrite Ho. cbn [mbind option_bind]. rewrite Hcs. done.
Qed.

(** The rounds from a threshold down. *)
Lemma calls_thresholds k : forall c j, 0 <= c <= M -> Z.of_nat (S k) * g <= M -> after c = Z.of_nat (S k) * g -> 0 <= j < n -> left_in c j = [] ->
  let turn := concat (round ws <$> thresholds g (S k)) in
  exists j', calls fuel (length turn) (at_ j c) = Some (turn, at_ j' g) /\ 0 <= j' < n /\ left_in g j' = [].
Proof.
  induction k as [|k IH]; intros c j Hc Hk Ha Hj He turn; subst turn; destruct (calls_round c j Hc Hj He) as (j1 & H1 & Hj1 & He1); rewrite Ha in *;
    cbn [thresholds fmap list_fmap concat] in *.
  - rewrite app_nil_r. exists j1. by rewrite Z.mul_1_l in *.
  - pose proof g_range as [Hg _]. destruct (IH (Z.of_nat (S (S k)) * g) j1) as (j2 & H2 & Hj2 & He2); [lia | lia | | done | done |].
    { unfold after. rewrite (proj2 (Z.leb_gt _ 0)) by lia. lia. }
    exists j2. split; [| done]. rewrite length_app. by eapply calls_app.
Qed.

Lemma calls_cycle c j : 0 <= c <= g -> 0 <= j < n -> left_in c j = [] ->
  exists j', calls fuel (length (cycle ws)) (at_ j c) = Some (cycle ws, at_ j' g) /\ 0 <= j' < n /\ left_in g j' = [].
Proof.
  intros Hc Hj He. pose proof g_range as [Hg _]. destruct M_server as (HM & _ & q & Hq). unfold cycle. rewrite Hq, Z.div_mul by lia.
  assert (1 <= q) by nia. replace (Z.to_nat q) with (S (Z.to_nat (q - 1))) by lia. apply calls_thresholds; [nia | nia | | done | done].
  unfold after. rewrite (proj2 (Z.leb_le _ 0)), Hq by lia. f_equal. lia.
Qed.

Lemma calls_cycles k : forall c j, 0 <= c <= g -> 0 <= j < n -> left_in c j = [] ->
  exists j' c', calls fuel (k * length (cycle ws)) (at_ j c) = Some (concat (replicate k (cycle ws)), at_ j' c').
Proof.
  induction k as [|k IH]; intros c j Hc Hj He; [by exists j, c |]. destruct (calls_cycle c j Hc Hj He) as (j1 & H1 & Hj1 & He1).
  pose proof g_range as [Hg _]. destruct (IH g j1) as (j2 & c2 & H2); [lia | done | done |]. exists j2, c2. cbn. by eapply calls_app.
Qed.

End rounds.

(** C27. A scheduler that has read a file of at least two servers with positive
    weights (and comments) chooses by weight as follows, whatever the number of
    calls.  Each server but the first is chosen once, and then the choices repeat
    a cycle in which server [j] comes exactly [w / g] times, [w] being its weight
    and [g] the greatest common divisor of the weights.  The first server comes
    less often than its weight says when its weight is greater than all others.
    Every call returns after at most two passes over the servers. *)
Theorem get_server_WRR_cycles (items : list item) (fuel k : nat) :
  let servers := servers_of items in
  Forall item_ok items -> (2 <= length servers)%nat -> (2 * length servers <= fuel)%nat -> Forall (fun s => 1 <= weight s <= INT32_MAX) servers ->
  let ws := weights servers in
  let n := Z.of_nat (length servers) in
  exists s s', init (Some (render items)) construct = Some (0, s) /\
    calls fuel (length servers - 1 + k * length (cycle ws)) s =
      Some (seqZ 1 (n - 1) ++ concat (replicate k (cycle ws)), s') /\
    forall (j : nat) w, ws !! j = Some w -> times (Z.of_nat j) (cycle ws) = Z.min w (highest (tail ws)) / common ws /\ (common ws | w).
Proof.
  intros servers Hit Hn Hf Hw ws n. assert (Hn' : 2 <= n) by lia. assert (Hf' : 2 * n <= Z.of_nat fuel) by lia.
  destruct (calls_rest servers Hn' Hw fuel Hf' 0 (seqZ 1 (n - 1)) 0) as (j1 & H1 & Hj1 & He1); [lia | |].
  { unfold left_in. fold n. rewrite Z.add_0_l, Z.sub_0_r. apply filter_seqZ_all. apply Forall_forall. intros i Hi%elem_of_seqZ.
    destruct (w_at_get servers Hw i) as (_ & _ & _ & Hr); lia. }
  destruct (calls_cycles servers Hn' Hw fuel Hf' k 0 j1) as (j2 & c2 & H2); [destruct (g_range servers Hn' Hw); lia | done | done |].
  exists (mkScheduler servers 0 0 false), (mkScheduler servers j2 c2 false). split; [by apply init_render |]. split.
  - rewrite length_seqZ in H1. replace (Z.to_nat (n - 1)) with (length servers - 1)%nat in H1 by lia. by eapply calls_app.
  - intros j w Hj. pose proof (lookup_lt_Some _ _ _ Hj) as Hlt. unfold ws in Hlt. rewrite length_fmap in Hlt.
    assert (Hwj : w_at servers (Z.of_nat j) = w) by (unfold w_at, get; fold ws; rewrite (proj2 (Z.leb_le _ _)), Nat2Z.id, Hj by lia; done).
    rewrite (times_cycle servers Hn' Hw) by lia. rewrite Hwj. split; [done |]. apply common_divides. by apply list_elem_of_lookup_2 with j.
Qed.

Lemma get_server_WRR_cycles_witness :
  let items := [Remark_ (str " cluster"); Server (mkServer (str "10.0.0.1:80") 2); Server (mkServer (str "10.0.0.2:80") 6); Server (mkServer (str "10.0.0.3:80") 4)] in
  let ws := weights (servers_of items) in
  exists s s', init (Some (render items)) construct = Some (0, s) /\
    calls 6 (3 - 1 + 2 * length (cycle ws)) s =
      Some (seqZ 1 (3 - 1) ++ concat (replicate 2 (cycle ws)), s') /\
    forall (j : nat) w, ws !! j = Some w -> times (Z.of_nat j) (cycle ws) = Z.min w (highest (tail ws)) / common ws /\ (common ws | w).
Proof.
  intros items ws. apply (get_server_WRR_cycles items 6 2); [| cbn; lia | cbn; lia |].
  1: repeat apply Forall_cons_2; try apply Forall_nil_2; cbn; repeat split; try done; try lia; try (by apply (bool_decide_unpack _)).
  repeat apply Forall_cons_2; try apply Forall_nil_2; unfold INT32_MAX; cbn; lia.
Defined.

(** ** Turns without weights, and hashing *)

Section turns.
Variable servers : list serverInfo.
#[local] Notation n := (Z.of_nat (length servers)).
Hypothesis Hn : 0 < n.

Lemma w_at_server j : 0 <= j < n -> exists s, get servers j = Some s /\ weight s = w_at servers j.
Proof.
  intros Hj. destruct (get_is_Some servers j Hj) as [s Hs]. exists s. split; [done |]. pose proof Hs as [_ Hl]%get_Some.
  unfold w_at, get. rewrite (proj2 (Z.leb_le _ _)) by lia. by rewrite list_lookup_fmap, Hl.
Qed.

(** The index [d] places after [iter]. *)
Definition turn (iter d : Z) : Z := (iter + d) mod n.

Lemma turn_range iter d : 0 <= turn iter d < n.
Proof. apply Z.mod_pos_bound. lia. Qed.

Lemma next_turn iter d : next servers (turn iter d) = turn iter (d + 1).
Proof. unfold turn. rewrite Zplus_mod_idemp_l. f_equal. lia. Qed.

Lemma turn_full iter d : 0 <= iter < n -> 1 <= d <= n -> turn iter d = iter <-> d = n.
Proof.
  intros Hi Hd. unfold turn. split.
  - intros E. destruct (decide (d = n)) as [|Hne]; [done |]. exfalso. destruct (Z.lt_ge_cases (iter + d) n).
    + rewrite Z.mod_small in E by lia. lia.
    + rewrite <- (Z.mod_add _ (-1)), Z.mod_small in E by lia. lia.
  - intros ->. rewrite <- (Z.mod_add _ (-1)), Z.mod_small by lia. lia.
Qed.

Lemma rr_loop_spec iter fuel : 0 <= iter < n -> forall d, 0 <= d -> Z.of_nat fuel = n - d -> 0 < n - d ->
  exists r, rr_loop fuel servers iter (turn iter d) = Some r /\
    match r with
    | Some j => exists e, d < e <= n /\ j = turn iter e /\ 0 < w_at servers j /\ forall e', d < e' < e -> w_at servers (turn iter e') <= 0
    | None => forall e, d < e <= n -> w_at servers (turn iter e) <= 0
    end.
Proof.
  intros Hi. induction fuel as [|fuel IH]; intros d Hd Hf Hlt; [lia |]. cbn [rr_loop]. rewrite next_turn.
  destruct (w_at_server (turn iter (d + 1)) (turn_range _ _)) as (s & Hs & Hw). rewrite Hs. cbn [mbind option_bind]. rewrite Hw.
  destruct (Z.ltb_spec 0 (w_at servers (turn iter (d + 1)))) as [Hpos|Hneg].
  { exists (Some (turn iter (d + 1))). split; [done |]. exists (d + 1). split; [lia |]. split; [done |]. split; [done |]. lia. }
  destruct (Z.eqb_spec (turn iter (d + 1)) iter) as [E|E].
  - apply turn_full in E; [| lia | lia]. exists None. split; [done |]. intros e He. by replace e with (d + 1) by lia.
  - destruct (IH (d + 1)) as (r & Hr & Hres); [lia | lia | |].
    { destruct (decide (d + 1 = n)) as [E'|]; [| lia]. destruct E. apply turn_full; lia. }
    exists r. split; [done |]. destruct r as [j|].
    + destruct Hres as (e & He & Hj & Hp & Hlow). exists e. split; [lia |]. split; [done |]. split; [done |].
      intros e' He'. destruct (decide (e' = d + 1)) as [->|]; [done | apply Hlow; lia].
    + intros e He. destruct (decide (e = d + 1)) as [->|]; [done | apply Hres; lia].
Qed.

Lemma dh_loop_spec i fuel : forall j, 0 <= i <= j -> Z.of_nat fuel > n - j ->
  match dh_loop fuel servers i j with
  | Some r => j <= r < n /\ 0 < w_at servers r /\ forall e, j <= e < r -> w_at servers e <= 0
  | None => forall e, j <= e < n -> w_at servers e <= 0
  end.
Proof.
  induction fuel as [|fuel IH]; intros j Hj Hf; [cbn; lia |]. cbn [dh_loop].
  destruct (get servers j) as [s|] eqn:Hs; cbn [mbind option_bind]; [| apply get_None in Hs; lia].
  pose proof (get_range _ _ _ Hs) as Hr. destruct (w_at_server j) as (s' & Hs' & Hw); [lia |]. rewrite Hs in Hs'. injection Hs' as <-.
  rewrite Hw. destruct (Z.ltb_spec 0 (w_at servers j)); [split; [lia |]; split; [done | lia] |].
  rewrite (proj2 (Z.eqb_neq (j + 1) i)) by lia. specialize (IH (j + 1) ltac:(lia) ltac:(lia)). destruct (dh_loop fuel servers i (j + 1)).
  - destruct IH as (H1 & H2 & H3). split; [lia |]. split; [done |]. intros e He. destruct (decide (e = j)) as [->|]; [done | apply H3; lia].
  - intros e He. destruct (decide (e = j)) as [->|]; [done | apply IH; lia].
Qed.

End turns.

(** C34. Without weights the scheduler chooses the next server with a positive
    weight in cyclic order, and remembers it, or returns -1 exactly when no
    server has one.  By hash it chooses the first server with a positive weight
    from the place of the key on; when there is none up to the end of the list
    it reads past the end, even if a server before that place is alive. *)
Theorem get_server_turns (servers : list serverInfo) (iter cw key : Z) (fuel : nat) :
  servers <> [] -> 0 <= iter < Z.of_nat (length servers) -> 0 <= key ->
  let s := mkScheduler servers iter cw false in
  let w := w_at servers in
  (exists j o s', get_server fuel RoundRobin key s = Some (j, o, s') /\
    ((j = -1 /\ s' = s /\ forall e, 1 <= e <= Z.of_nat (length servers) -> w (turn servers iter e) <= 0) \/
     (exists e, 1 <= e <= Z.of_nat (length servers) /\ j = turn servers iter e /\ 0 < w j /\ (forall e', 1 <= e' < e -> w (turn servers iter e') <= 0) /\
        s' = mkScheduler servers j cw false))) /\
  forall sched, sched = DestinationHashing \/ sched = SourceHashing ->
    match get_server fuel sched key s with
    | Some (j, o, s') => s' = s /\ key mod Z.of_nat (length servers) <= j < Z.of_nat (length servers) /\ 0 < w j /\
        forall e, key mod Z.of_nat (length servers) <= e < j -> w e <= 0
    | None => forall e, key mod Z.of_nat (length servers) <= e < Z.of_nat (length servers) -> w e <= 0
    end.
Proof.
  intros Hne Hi Hk s w. assert (Hn : 0 < Z.of_nat (length servers)) by (destruct servers; [done | cbn; lia]).
  assert (Hlen : (length servers =? 0)%nat = false) by (apply Nat.eqb_neq; lia). split.
  - destruct (rr_loop_spec servers Hn iter (length servers) Hi 0) as (r & Hr & Hres); [lia.. |].
    assert (E0 : turn servers iter 0 = iter) by (unfold turn; rewrite Z.add_0_r; by apply Z.mod_small). rewrite E0 in Hr.
    unfold get_server, get_server_RR. cbn [s server_vec_ mutex_ server_iter_ current_weight_]. rewrite Hlen, Hr. cbn [mbind option_bind]. destruct r as [j|].
    + destruct Hres as (e & He & -> & Hp & Hlow). cbn [mbind option_bind]. pose proof (turn_range servers Hn iter e) as Ht. rewrite (proj2 (Z.leb_le 0 _)) by lia.
      destruct (w_at_server servers (turn servers iter e) Ht) as (sv & Hsv & _). cbn [server_vec_]. rewrite Hsv. cbn. do 3 eexists. split; [done |].
      right. exists e. split; [lia |]. split; [done |]. split; [done |]. split; [intros e' He'; apply Hlow; lia | done].
    + cbn. do 3 eexists. split; [done |]. left. split; [done |]. split; [done |]. intros e He. apply Hres. lia.
  - assert (Hm : 0 <= key mod Z.of_nat (length servers) < Z.of_nat (length servers)) by (apply Z.mod_pos_bound; lia).
    pose proof (dh_loop_spec servers (key mod Z.of_nat (length servers)) (S (length servers)) (key mod Z.of_nat (length servers)) ltac:(lia) ltac:(lia)) as Hd.
    intros sched [->| ->]; unfold get_server, get_server_DH, get_server_SH; cbn [s server_vec_]; rewrite Hlen; (destruct (dh_loop _ servers _ _) as [j|]; cbn [mbind option_bind]; [| done]);
      destruct Hd as (H1 & H2 & H3); rewrite (proj2 (Z.leb_le 0 j)) by lia; (destruct (w_at_server servers j) as (sv & Hsv & _); [lia |]); change (server_vec_ s) with servers; rewrite Hsv; cbn; done.
Qed.

Lemma get_server_turns_witness :
  let servers := [mkServer (str "a") 0; mkServer (str "b") 3; mkServer (str "c") 0] in
  let s := mkScheduler servers 1 0 false in
  let w := w_at servers in
  (exists j o s', get_server 0 RoundRobin 5 s = Some (j, o, s') /\
    ((j = -1 /\ s' = s /\ forall e, 1 <= e <= 3 -> w (turn servers 1 e) <= 0) \/
     (exists e, 1 <= e <= 3 /\ j = turn servers 1 e /\ 0 < w j /\ (forall e', 1 <= e' < e -> w (turn servers 1 e') <= 0) /\
        s' = mkScheduler servers j 0 false))) /\
  forall sched, sched = DestinationHashing \/ sched = SourceHashing ->
    match get_server 0 sched 5 s with
    | Some (j, o, s') => s' = s /\ 5 mod 3 <= j < 3 /\ 0 < w j /\ forall e, 5 mod 3 <= e < j -> w e <= 0
    | None => forall e, 5 mod 3 <= e < 3 -> w e <= 0
    end.
Proof. intros servers s w. apply (get_server_turns servers 1 0 5 0); [done | cbn; lia | lia]. Defined.

(** A key that hashes to a place behind the last live server reads past the list. *)
Example hashing_reads_past_the_end :
  get_server 10 DestinationHashing 5 (mkScheduler [mkServer (str "a") 1; mkServer (str "b") 3; mkServer (str "c") 0] 0 0 false) = None.
Proof. vm_compute. reflexivity. Qed.

(** The only server of a list is never chosen by weight. *)
Example single_server_is_refused :
  (fun r => fst (fst r)) <$> get_server 10 WeightedRoundRobin 0 (mkScheduler [mkServer (str "a") 5] 0 0 false) = Some (-1).
Proof. vm_compute. reflexivity. Qed.

(** The first requests go to servers that are down. *)
Example dead_server_is_chosen :
  (fun r => fst (fst r)) <$> get_server 10 WeightedRoundRobin 0 (mkScheduler [mkServer (str "a") 5; mkServer (str "b") 0] 0 0 false) = Some 1.
Proof. vm_compute. reflexivity. Qed.

(** A server that is down makes the divisor 0: only the servers of the greatest
    weight are chosen. *)
Example dead_server_starves_others :
  fst <$> calls 20 8 (mkScheduler [mkServer (str "a") 5; mkServer (str "b") 6; mkServer (str "c") 0] 0 0 false) = Some [1; 2; 1; 1; 1; 1; 1; 1].
Proof. vm_compute. reflexivity. Qed.

End LBScheduler.
