(* ===== verification/AdList.v ===== *)
(** * AdList: the doubly linked list of src/include/common/qadlist.h and .cc

    Nodes, lists and iterators are cells of one memory, and every access
    through a pointer that is NULL, freed or of another type is a fault.
    [q_malloc] of qglobal.h ends the process when the system has no memory.
    The methods [dup] and [match] of a list are functions on the addresses of
    values, and the calls of [free] are recorded in order.  The main theorem
    relates a client that creates a list, uses it in any way and releases it
    to a list of values, with no fault and no cell left behind. *)

From S2P Require Import Prelude.

Module AdList.

(** ** Memory *)

(** NULL is [None]; a [void*] is its address, 0 for NULL. *)
Abbreviation ptr := (option positive) (only parsing).

Record listNode : Type := mkNode { prev : ptr; next : ptr; value : Z }.

Record listIter : Type := mkIter { it_next : ptr; direction : Z }.

Record adlist : Type := mkList {
  head : ptr;
  tail : ptr;
  dup : option (Z -> Z);
  free : bool;                     (* whether a free method is set *)
  match_ : option (Z -> Z -> Z);
  len : Z
}.

Inductive cell : Type :=
  | Node (n : listNode)
  | Iter (i : listIter)
  | List (l : adlist).

(** [freed]: the values given to the free methods, [clock]: requests made. *)
Record mem : Type := mkMem { cells : gmap positive cell; freed : list Z; clock : nat }.

(** No result at all is a fault. *)
Definition M (A : Type) : Type := mem -> option (outcome (A * mem)).

#[export] Instance M_ret : MRet M := fun A a m => Some (Ret (a, m)).
#[export] Instance M_bind : MBind M := fun A B f x m =>
  match x m with
  | None => None
  | Some Abort => Some Abort
  | Some (Ret (a, m)) => f a m
  end.

Definition fault {A} : M A := fun _ => None.

Definition deref (p : ptr) : M cell := fun m =>
  match p with
  | Some p => match cells m !! p with Some c => Some (Ret (c, m)) | None => None end
  | None => None
  end.

Definition write (p : ptr) (c : cell) : M unit := fun m =>
  match p with
  | Some p => match cells m !! p with Some _ => Some (Ret (tt, mkMem (<[p := c]> (cells m)) (freed m) (clock m))) | None => None end
  | None => None
  end.

Definition get_node (p : ptr) : M listNode := c ← deref p; match c with Node n => mret n | _ => fault end.
Definition get_iter (p : ptr) : M listIter := c ← deref p; match c with Iter i => mret i | _ => fault end.
Definition get_list (p : ptr) : M adlist := c ← deref p; match c with List l => mret l | _ => fault end.

(** Assignments to one member. *)
Definition set_prev (p q : ptr) : M unit := n ← get_node p; write p (Node (mkNode q (next n) (value n))).
Definition set_next (p q : ptr) : M unit := n ← get_node p; write p (Node (mkNode (prev n) q (value n))).
Definition set_value (p : ptr) (v : Z) : M unit := n ← get_node p; write p (Node (mkNode (prev n) (next n) v)).
Definition set_head (p q : ptr) : M unit := l ← get_list p; write p (List (mkList q (tail l) (dup l) (free l) (match_ l) (len l))).
Definition set_tail (p q : ptr) : M unit := l ← get_list p; write p (List (mkList (head l) q (dup l) (free l) (match_ l) (len l))).
Definition set_len (p : ptr) (n : Z) : M unit := l ← get_list p; write p (List (mkList (head l) (tail l) (dup l) (free l) (match_ l) n)).
Definition set_methods (p : ptr) (d : option (Z -> Z)) (f : bool) (mt : option (Z -> Z -> Z)) : M unit :=
  l ← get_list p; write p (List (mkList (head l) (tail l) d f mt (len l))).
Definition set_iter (p q : ptr) (d : Z) : M unit := _ ← get_iter p; write p (Iter (mkIter q d)).

(** A call of the free method of a list, if it has one. *)
Definition call_free (f : bool) (v : Z) : M unit := fun m =>
  Some (Ret (tt, mkMem (cells m) (if f then freed m ++ [v] else freed m) (clock m))).

(** A bound for the loops that follow the pointers of a list. *)
Definition room : M nat := fun m => Some (Ret (S (size (cells m)), m)).

Section code.
(** Which requests the system refuses, where it places the others, and what
    is in fresh memory. *)
Variable fails : nat -> bool.
Variable place : nat -> gmap positive cell -> positive.
Variables (junk_node : listNode) (junk_iter : listIter) (junk_list : adlist).

(** ** Operations *)

(** [Q_FATAL] calls [abort]. *)
Definition q_malloc (c : cell) : M ptr := fun m =>
  if fails (clock m) then Some Abort
  else let p := place (clock m) (cells m) in
       Some (Ret (Some p, mkMem (<[p := c]> (cells m)) (freed m) (S (clock m)))).

Definition q_free (p : ptr) : M unit := fun m =>
  match p with
  | None => Some (Ret (tt, m))
  | Some p => match cells m !! p with Some _ => Some (Ret (tt, mkMem (delete p (cells m)) (freed m) (clock m))) | None => None end
  end.

Definition listCreate : M ptr :=
  list ← q_malloc (List junk_list);
  match list with
  | None => mret None
  | Some _ =>
      set_tail list None;; set_head list None;;
      set_len list 0;;
      set_methods list None false None;;
      mret list
  end.

Fixpoint release_loop (len : nat) (list current : ptr) : M unit :=
  match len with
  | O => mret tt
  | S len =>
      c ← get_node current;
      l ← get_list list;
      call_free (free l) (value c);;
      q_free current;;
      release_loop len list (next c)
  end.

Definition listRelease (list : ptr) : M unit :=
  l ← get_list list;
  release_loop (Z.to_nat (len l)) list (head l);;
  q_free list.

Definition listAddNodeHead (list : ptr) (v : Z) : M ptr :=
  node ← q_malloc (Node junk_node);
  match node with
  | None => mret None
  | Some _ =>
      set_value node v;;
      l ← get_list list;
      (if len l =? 0 then
         set_tail list node;; set_head list node;;
         set_next node None;; set_prev node None
       else
         set_prev node None;;
         set_next node (head l);;
         set_prev (head l) node;;
         set_head list node);;
      set_len list (u32 (len l + 1));;
      mret list
  end.

Definition listAddNodeTail (list : ptr) (v : Z) : M ptr :=
  node ← q_malloc (Node junk_node);
  match node with
  | None => mret None
  | Some _ =>
      set_value node v;;
      l ← get_list list;
      (if len l =? 0 then
         set_tail list node;; set_head list node;;
         set_next node None;; set_prev node None
       else
         set_prev node (tail l);;
         set_next node None;;
         set_next (tail l) node;;
         set_tail list node);;
      set_len list (u32 (len l + 1));;
      mret list
  end.

Definition listInsertNode (list old_node : ptr) (v after : Z) : M ptr :=
  node ← q_malloc (Node junk_node);
  match node with
  | None => mret None
  | Some _ =>
      set_value node v;;
      (if negb (after =? 0) then
         set_prev node old_node;;
         o ← get_node old_node;
         set_next node (next o);;
         l ← get_list list;
         if decide (tail l = old_node) then set_tail list node else mret tt
       else
         set_next node old_node;;
         o ← get_node old_node;
         set_prev node (prev o);;
         l ← get_list list;
         if decide (head l = old_node) then set_head list node else mret tt);;
      n ← get_node node;
      (match prev n with Some _ => set_next (prev n) node | None => mret tt end);;
      n ← get_node node;
      (match next n with Some _ => set_prev (next n) node | None => mret tt end);;
      l ← get_list list;
      set_len list (u32 (len l + 1));;
      mret list
  end.

Definition listDelNode (list node : ptr) : M unit :=
  n ← get_node node;
  (match prev n with
   | Some _ => set_next (prev n) (next n)
   | None => set_head list (next n)
   end);;
  n ← get_node node;
  (match next n with
   | Some _ => set_prev (next n) (prev n)
   | None => set_tail list (prev n)
   end);;
  l ← get_list list;
  n ← get_node node;
  call_free (free l) (value n);;
  q_free node;;
  set_len list (u32 (len l - 1)).

Abbreviation AL_START_HEAD := 0%Z (only parsing).
Abbreviation AL_START_TAIL := 1%Z (only parsing).

Definition listGetIterator (list : ptr) (dir : Z) : M ptr :=
  iter ← q_malloc (Iter junk_iter);
  match iter with
  | None => mret None
  | Some _ =>
      l ← get_list list;
      set_iter iter (if dir =? AL_START_HEAD then head l else tail l) dir;;
      mret iter
  end.

Definition listReleaseIterator (iter : ptr) : M unit := q_free iter.

Definition listRewind (list li : ptr) : M unit := l ← get_list list; set_iter li (head l) AL_START_HEAD.

Definition listRewindTail (list li : ptr) : M unit := l ← get_list list; set_iter li (tail l) AL_START_TAIL.

Definition listNext (iter : ptr) : M ptr :=
  i ← get_iter iter;
  match it_next i with
  | None => mret None
  | Some current =>
      c ← get_node (Some current);
      set_iter iter (if direction i =? AL_START_HEAD then next c else prev c) (direction i);;
      mret (Some current)
  end.

Fixpoint dup_loop (fuel : nat) (copy iter : ptr) : M ptr :=
  match fuel with
  | O => fault
  | S fuel =>
      node ← listNext iter;
      match node with
      | None => listReleaseIterator iter;; mret copy
      | Some _ =>
          l ← get_list copy;
          c ← get_node node;
          let v := match dup l with Some d => d (value c) | None => value c end in
          if match dup l with Some _ => v =? 0 | None => false end then
            listRelease copy;; listReleaseIterator iter;; mret None
          else
            a ← listAddNodeTail copy v;
            match a with
            | None => listRelease copy;; listReleaseIterator iter;; mret None
            | Some _ => dup_loop fuel copy iter
            end
      end
  end.

Definition listDup (orig : ptr) : M ptr :=
  fuel ← room;
  copy ← listCreate;
  match copy with
  | None => mret None
  | Some _ =>
      o ← get_list orig;
      set_methods copy (dup o) (free o) (match_ o);;
      iter ← listGetIterator orig AL_START_HEAD;
      dup_loop fuel copy iter
  end.

Fixpoint search_loop (fuel : nat) (list iter : ptr) (key : Z) : M ptr :=
  match fuel with
  | O => fault
  | S fuel =>
      node ← listNext iter;
      match node with
      | None => listReleaseIterator iter;; mret None
      | Some _ =>
          l ← get_list list;
          c ← get_node node;
          if match match_ l with Some f => negb (f (value c) key =? 0) | None => key =? value c end
          then listReleaseIterator iter;; mret node
          else search_loop fuel list iter key
      end
  end.

Definition listSearchKey (list : ptr) (key : Z) : M ptr :=
  fuel ← room;
  iter ← listGetIterator list AL_START_HEAD;
  search_loop fuel list iter key.

(** [while(index-- && n) n = ...] *)
Fixpoint index_loop (fuel : nat) (index : Z) (n : ptr) (follow : listNode -> ptr) : M ptr :=
  match fuel with
  | O => fault
  | S fuel =>
      if index =? 0 then mret n
      else match n with
           | None => mret None
           | Some _ => c ← get_node n; index_loop fuel (index - 1) (follow c) follow
           end
  end.

(** The negation of the least [long] overflows. *)
Definition listIndex (list : ptr) (index : Z) : M ptr :=
  fuel ← room;
  l ← get_list list;
  if index <? 0 then
    if index =? - 2 ^ 63 then fault
    else index_loop fuel (- index - 1) (tail l) prev
  else index_loop fuel index (head l) next.

Definition listRotate (list : ptr) : M unit :=
  l ← get_list list;
  if len l <=? 1 then mret tt
  else
    t ← get_node (tail l);
    set_tail list (prev t);;
    set_next (prev t) None;;
    set_prev (head l) (tail l);;
    set_prev (tail l) None;;
    set_next (tail l) (head l);;
    set_head list (tail l).

(** ** A client *)

Inductive op : Type :=
  | AddHead (v : Z)
  | AddTail (v : Z)
  | Insert (index v after : Z)       (* beside the node at an index *)
  | Delete (index : Z)               (* the node at an index *)
  | DeleteKey (key : Z)              (* the first node a key matches *)
  | Search (key : Z)
  | Index (index : Z)
  | Rotate
  | Walk (dir : Z)                   (* one iterator, used three times *)
  | Copy                             (* a copy, read and released *)
  | Length.

Inductive result : Type :=
  | Unit
  | Found (v : option Z)
  | Number (n : Z)
  | Values (vs : list Z)
  | Copied (vs : option (list Z)).

Fixpoint collect (fuel : nat) (iter : ptr) : M (list Z) :=
  match fuel with
  | O => fault
  | S fuel =>
      node ← listNext iter;
      match node with
      | None => mret []
      | Some _ => c ← get_node node; vs ← collect fuel iter; mret (value c :: vs)
      end
  end.

Definition walk (al : ptr) (dir : Z) : M (list Z) :=
  fuel ← room;
  iter ← listGetIterator al dir;
  v1 ← collect fuel iter;
  listRewind al iter;;
  v2 ← collect fuel iter;
  listRewindTail al iter;;
  v3 ← collect fuel iter;
  listReleaseIterator iter;;
  mret (v1 ++ v2 ++ v3).

Definition value_of (node : ptr) : M (option Z) :=
  match node with None => mret None | Some _ => c ← get_node node; mret (Some (value c)) end.

Definition exec (o : op) (al : ptr) : M result :=
  match o with
  | AddHead v => listAddNodeHead al v;; mret Unit
  | AddTail v => listAddNodeTail al v;; mret Unit
  | Insert i v after =>
      n ← listIndex al i;
      match n with None => mret (Found None) | Some _ => listInsertNode al n v after;; mret Unit end
  | Delete i =>
      n ← listIndex al i;
      match n with None => mret (Found None) | Some _ => listDelNode al n;; mret Unit end
  | DeleteKey key =>
      n ← listSearchKey al key;
      match n with None => mret (Found None) | Some _ => listDelNode al n;; mret Unit end
  | Search key => n ← listSearchKey al key; v ← value_of n; mret (Found v)
  | Index i => n ← listIndex al i; v ← value_of n; mret (Found v)
  | Rotate => listRotate al;; mret Unit
  | Walk dir => vs ← walk al dir; mret (Values vs)
  | Copy =>
      copy ← listDup al;
      match copy with
      | None => mret (Copied None)
      | Some _ => vs ← walk copy AL_START_HEAD; listRelease copy;; mret (Copied (Some vs))
      end
  | Length => l ← get_list al; mret (Number (len l))
  end.

Fixpoint run (os : list op) (al : ptr) : M (list result) :=
  match os with
  | [] => mret []
  | o :: os => r ← exec o al; rs ← run os al; mret (r :: rs)
  end.

(** Create a list, set its methods, use it and release it. *)
Definition client (d : option (Z -> Z)) (f : bool) (mt : option (Z -> Z -> Z)) (os : list op) : M (list result) :=
  al ← listCreate;
  set_methods al d f mt;;
  rs ← run os al;
  listRelease al;;
  mret rs.

End code.

(** ** Rules for the memory *)

Section proofs.
Variable fails : nat -> bool.
Variable place : nat -> gmap positive cell -> positive.
Variables (junk_node : listNode) (junk_iter : listIter) (junk_list : adlist).
Hypothesis place_fresh : forall k c, c !! place k c = None.

(** The program does not fault, it ends early only for want of memory, and
    its result is as [Q] says. *)
Definition wp {A} (x : M A) (Q : A -> mem -> Prop) (s : mem) : Prop :=
  match x s with
  | None => False
  | Some Abort => exists k, fails k = true
  | Some (Ret (a, s)) => Q a s
  end.

Definition upd (s : mem) (p : positive) (c : cell) : mem := mkMem (<[p := c]> (cells s)) (freed s) (clock s).

Lemma wp_ret {A} (a : A) Q s : Q a s -> wp (mret a) Q s.
Proof. done. Qed.

Lemma wp_bind {A B} (x : M A) (g : A -> M B) Q s : wp x (fun a s => wp (g a) Q s) s -> wp (x ≫= g) Q s.
Proof. unfold wp, mbind, M_bind. destruct (x s) as [[[a s']|]|]; done. Qed.

Lemma wp_mono {A} (x : M A) (Q Q' : A -> mem -> Prop) s : wp x Q s -> (forall a s, Q a s -> Q' a s) -> wp x Q' s.
Proof. unfold wp. destruct (x s) as [[[a s']|]|]; eauto. Qed.

Lemma wp_deref p c Q s : cells s !! p = Some c -> Q c s -> wp (deref (Some p)) Q s.
Proof. unfold wp, deref. by intros ->. Qed.

Lemma wp_write p c c' Q s : cells s !! p = Some c' -> Q tt (upd s p c) -> wp (write (Some p) c) Q s.
Proof. unfold wp, write. by intros ->. Qed.

Lemma wp_get_node p n Q s : cells s !! p = Some (Node n) -> Q n s -> wp (get_node (Some p)) Q s.
Proof. intros Hp HQ. by eapply wp_bind, wp_deref. Qed.

Lemma wp_get_iter p i Q s : cells s !! p = Some (Iter i) -> Q i s -> wp (get_iter (Some p)) Q s.
Proof. intros Hp HQ. by eapply wp_bind, wp_deref. Qed.

Lemma wp_get_list p l Q s : cells s !! p = Some (List l) -> Q l s -> wp (get_list (Some p)) Q s.
Proof. intros Hp HQ. by eapply wp_bind, wp_deref. Qed.

Lemma wp_set_prev p n q Q s : cells s !! p = Some (Node n) -> Q tt (upd s p (Node (mkNode q (next n) (value n)))) -> wp (set_prev (Some p) q) Q s.
Proof. intros Hp HQ. eapply wp_bind, wp_get_node; [done |]. by eapply wp_write. Qed.

Lemma wp_set_next p n q Q s : cells s !! p = Some (Node n) -> Q tt (upd s p (Node (mkNode (prev n) q (value n)))) -> wp (set_next (Some p) q) Q s.
Proof. intros Hp HQ. eapply wp_bind, wp_get_node; [done |]. by eapply wp_write. Qed.

Lemma wp_set_value p n v Q s : cells s !! p = Some (Node n) -> Q tt (upd s p (Node (mkNode (prev n) (next n) v))) -> wp (set_value (Some p) v) Q s.
Proof. intros Hp HQ. eapply wp_bind, wp_get_node; [done |]. by eapply wp_write. Qed.

Lemma wp_set_head p l q Q s : cells s !! p = Some (List l) ->
  Q tt (upd s p (List (mkList q (tail l) (dup l) (free l) (match_ l) (len l)))) -> wp (set_head (Some p) q) Q s.
Proof. intros Hp HQ. eapply wp_bind, wp_get_list; [done |]. by eapply wp_write. Qed.

Lemma wp_set_tail p l q Q s : cells s !! p = Some (List l) ->
  Q tt (upd s p (List (mkList (head l) q (dup l) (free l) (match_ l) (len l)))) -> wp (set_tail (Some p) q) Q s.
Proof. intros Hp HQ. eapply wp_bind, wp_get_list; [done |]. by eapply wp_write. Qed.

Lemma wp_set_len p l n Q s : cells s !! p = Some (List l) ->
  Q tt (upd s p (List (mkList (head l) (tail l) (dup l) (free l) (match_ l) n))) -> wp (set_len (Some p) n) Q s.
Proof. intros Hp HQ. eapply wp_bind, wp_get_list; [done |]. by eapply wp_write. Qed.

Lemma wp_set_methods p l d f mt Q s : cells s !! p = Some (List l) ->
  Q tt (upd s p (List (mkList (head l) (tail l) d f mt (len l)))) -> wp (set_methods (Some p) d f mt) Q s.
Proof. intros Hp HQ. eapply wp_bind, wp_get_list; [done |]. by eapply wp_write. Qed.

Lemma wp_set_iter p i q d Q s : cells s !! p = Some (Iter i) -> Q tt (upd s p (Iter (mkIter q d))) -> wp (set_iter (Some p) q d) Q s.
Proof. intros Hp HQ. eapply wp_bind, wp_get_iter; [done |]. by eapply wp_write. Qed.

Lemma wp_free p c Q s : cells s !! p = Some c -> Q tt (mkMem (delete p (cells s)) (freed s) (clock s)) -> wp (q_free (Some p)) Q s.
Proof. unfold wp, q_free. by intros ->. Qed.

Lemma wp_malloc c Q s :
  (forall p, cells s !! p = None -> Q (Some p) (mkMem (<[p := c]> (cells s)) (freed s) (S (clock s)))) -> wp (q_malloc fails place c) Q s.
Proof. intros HQ. unfold wp, q_malloc. destruct (fails (clock s)) eqn:E; [by exists (clock s) | by apply HQ]. Qed.

Lemma wp_call_free (f : bool) v Q s : Q tt (mkMem (cells s) (if f then freed s ++ [v] else freed s) (clock s)) -> wp (call_free f v) Q s.
Proof. done. Qed.

Lemma wp_room Q s : Q (S (size (cells s))) s -> wp room Q s.
Proof. done. Qed.

(** ** Chains of nodes *)

(** The addresses and values of the nodes of a chain, in order. *)
Implicit Types (ns a b : list (positive * Z)) (c F : gmap positive cell).

Definition firstp (ns : list (positive * Z)) (nx : ptr) : ptr := match ns with [] => nx | (p, _) :: _ => Some p end.
Definition lastp (pv : ptr) (ns : list (positive * Z)) : ptr := match last ns with Some (p, _) => Some p | None => pv end.

(** A chain between the nodes [pv] and [nx]. *)
Fixpoint seg (c : gmap positive cell) (pv : ptr) (ns : list (positive * Z)) (nx : ptr) : Prop :=
  match ns with
  | [] => True
  | (p, x) :: ns => c !! p = Some (Node (mkNode pv (firstp ns nx) x)) /\ seg c (Some p) ns nx
  end.

Lemma lastp_snoc pv a p x : lastp pv (a ++ [(p, x)]) = Some p.
Proof. unfold lastp. by rewrite last_snoc. Qed.

Lemma lastp_cons pv p x a : lastp pv ((p, x) :: a) = lastp (Some p) a.
Proof. unfold lastp. rewrite last_cons. by destruct (last a) as [[]|]. Qed.

Lemma firstp_app a b nx : firstp (a ++ b) nx = firstp a (firstp b nx).
Proof. by destruct a as [|[]]. Qed.

Lemma seg_app c pv a b nx : seg c pv (a ++ b) nx <-> seg c pv a (firstp b nx) /\ seg c (lastp pv a) b nx.
Proof.
  revert pv. induction a as [|[p x] a IH]; intros pv; [cbn; tauto |]. cbn [app seg]. rewrite IH, lastp_cons, firstp_app. tauto.
Qed.

Lemma seg_lookup c pv a p x b nx : seg c pv (a ++ (p, x) :: b) nx -> c !! p = Some (Node (mkNode (lastp pv a) (firstp b nx) x)).
Proof. by intros [_ [H _]]%seg_app. Qed.

Lemma seg_frame c c' pv ns nx : seg c pv ns nx -> (forall q, q ∈ ns.*1 -> c' !! q = c !! q) -> seg c' pv ns nx.
Proof.
  revert pv. induction ns as [|[p x] ns IH]; intros pv Hs Hc; [done |]. destruct Hs as [Hp Hs]. split; [rewrite Hc; [done | left] |].
  apply IH; [done |]. intros q Hq. apply Hc. by right.
Qed.

(** Every node of a chain is in memory. *)
Lemma seg_node c pv ns nx q : seg c pv ns nx -> q ∈ ns.*1 -> exists n, c !! q = Some (Node n).
Proof.
  intros Hs ([p x] & -> & Hq)%list_elem_of_fmap. apply list_elem_of_split in Hq as (a & b & ->). apply seg_lookup in Hs. eauto.
Qed.

(** A chain whose end, or whose beginning, is linked to another node. *)
Lemma seg_end c c' pv a nx nx' :
  seg c pv a nx -> NoDup a.*1 ->
  (forall a' q x, a = a' ++ [(q, x)] -> c' !! q = Some (Node (mkNode (lastp pv a') nx' x))) ->
  (forall q, q ∈ a.*1 -> Some q <> lastp None a -> c' !! q = c !! q) -> seg c' pv a nx'.
Proof.
  intros Hs Hnd He Hf. destruct a as [|[q x] a' _] using rev_ind; [done |]. apply seg_app. apply seg_app in Hs as [Hs _].
  rewrite fmap_app in Hnd. apply NoDup_app in Hnd as (_ & Hq & _). cbn [firstp] in *. split; [| split; [by apply He | done]].
  apply (seg_frame c); [done |]. intros r Hr. apply Hf; [rewrite fmap_app; set_solver |]. rewrite lastp_snoc. intros [= ->]. apply (Hq q Hr). left.
Qed.

Lemma seg_begin c c' pv pv' b nx :
  seg c pv b nx -> NoDup b.*1 ->
  (forall q x b', b = (q, x) :: b' -> c' !! q = Some (Node (mkNode pv' (firstp b' nx) x))) ->
  (forall q, q ∈ b.*1 -> Some q <> firstp b None -> c' !! q = c !! q) -> seg c' pv' b nx.
Proof.
  intros Hs Hnd He Hf. destruct b as [|[q x] b']; [done |]. destruct Hs as [_ Hs]. apply NoDup_cons in Hnd as [Hq Hnd]. split; [by apply He |].
  apply (seg_frame c); [done |]. intros r Hr. apply Hf; [by right |]. intros [= ->]. by apply Hq.
Qed.

(** ** Lists *)

Variables (d : option (Z -> Z)) (f : bool) (mt : option (Z -> Z -> Z)).

Definition record ns : cell := List (mkList (firstp ns None) (lastp None ns) d f mt (Z.of_nat (length ns))).

(** In the memory [c] the list [l] with the nodes [ns] stands beside [F]. *)
Record own F c (l : positive) ns : Prop := {
  own_record : c !! l = Some (record ns);
  own_seg : seg c None ns None;
  own_nodup : NoDup ns.*1;
  own_list_new : F !! l = None;
  own_nodes_new : forall q, q ∈ ns.*1 -> F !! q = None;
  own_rest : forall q, q <> l -> q ∉ ns.*1 -> c !! q = F !! q
}.

Lemma own_apart F c l ns : own F c l ns -> l ∉ ns.*1.
Proof. intros [Hl Hs _ _ _ _] Hin. destruct (seg_node _ _ _ _ _ Hs Hin) as [n Hn]. unfold record in Hl. congruence. Qed.

Lemma lastp_elem a q : lastp None a = Some q -> q ∈ a.*1.
Proof. unfold lastp. destruct (last a) as [[p x]|] eqn:E; [| done]. intros [= ->]. apply last_Some_elem_of in E. apply list_elem_of_fmap. by exists (q, x). Qed.

Lemma firstp_elem b q : firstp b None = Some q -> q ∈ b.*1.
Proof. destruct b as [|[p x] b]; [done |]. intros [= ->]. left. Qed.

Lemma own_insert F c c' l a b p v :
  own F c l (a ++ b) -> c !! p = None ->
  c' !! l = Some (record (a ++ (p, v) :: b)) ->
  c' !! p = Some (Node (mkNode (lastp None a) (firstp b None) v)) ->
  (forall a' q x, a = a' ++ [(q, x)] -> c' !! q = Some (Node (mkNode (lastp None a') (Some p) x))) ->
  (forall q x b', b = (q, x) :: b' -> c' !! q = Some (Node (mkNode (Some p) (firstp b' None) x))) ->
  (forall q, q <> l -> q <> p -> Some q <> lastp None a -> Some q <> firstp b None -> c' !! q = c !! q) ->
  own F c' l (a ++ (p, v) :: b).
Proof.
  intros Ho Hp Hl Hp' Ha Hb Hr. pose proof (own_apart _ _ _ _ Ho) as Hap. destruct Ho as [Hl0 Hs Hnd HFl HF Hrest].
  assert (Hpl : p <> l) by (intros ->; unfold record in Hl0; congruence).
  assert (Hpn : p ∉ (a ++ b).*1) by (intros Hin; destruct (seg_node _ _ _ _ _ Hs Hin) as [n Hn]; congruence).
  apply seg_app in Hs as [Hsa Hsb]. rewrite fmap_app in *. apply NoDup_app in Hnd as (Hna & Hab & Hnb).
  assert (Hdiff : forall q, q ∈ a.*1 ++ b.*1 -> q <> l /\ q <> p) by (intros q Hq; split; intros ->; done).
  constructor; [done | | | done | |].
  - apply seg_app. split; [| split; [done |]].
    + eapply seg_end; [done.. |]. intros q Hq Hne. apply Hr; try apply Hdiff; try done; [set_solver.. |]. intros E. symmetry in E. apply firstp_elem in E. by apply (Hab q).
    + eapply seg_begin; [done.. |]. intros q Hq Hne. apply Hr; try apply Hdiff; try done; [set_solver.. |]. intros E. symmetry in E. apply lastp_elem in E. by apply (Hab q).
  - rewrite fmap_app. cbn. apply NoDup_app. split; [done |]. split; [| apply NoDup_cons; set_solver].
    intros q Hq [->|Hq']%elem_of_cons; [set_solver | by apply (Hab q)].
  - intros q. rewrite fmap_app. cbn. intros [Hq|[->|Hq]%elem_of_cons]%elem_of_app; [apply HF; set_solver | | apply HF; set_solver].
    by rewrite <- Hrest.
  - intros q Hq Hn. rewrite fmap_app in Hn. cbn in Hn. rewrite Hr; [apply Hrest; set_solver | done | set_solver | |].
    + intros E. symmetry in E. apply lastp_elem in E. set_solver.
    + intros E. symmetry in E. apply firstp_elem in E. set_solver.
Qed.

Lemma own_remove F c c' l a p v b :
  own F c l (a ++ (p, v) :: b) ->
  c' !! l = Some (record (a ++ b)) -> c' !! p = None ->
  (forall a' q x, a = a' ++ [(q, x)] -> c' !! q = Some (Node (mkNode (lastp None a') (firstp b None) x))) ->
  (forall q x b', b = (q, x) :: b' -> c' !! q = Some (Node (mkNode (lastp None a) (firstp b' None) x))) ->
  (forall q, q <> l -> q <> p -> Some q <> lastp None a -> Some q <> firstp b None -> c' !! q = c !! q) ->
  own F c' l (a ++ b).
Proof.
  intros Ho Hl Hp Ha Hb Hr. pose proof (own_apart _ _ _ _ Ho) as Hap. destruct Ho as [Hl0 Hs Hnd HFl HF Hrest].
  apply seg_app in Hs as [Hsa [_ Hsb]]. rewrite fmap_app in *. cbn in Hnd, Hap, HF, Hrest. apply NoDup_app in Hnd as (Hna & Hab & [Hpb Hnb]%NoDup_cons).
  assert (Hdiff : forall q, q ∈ a.*1 ++ b.*1 -> q <> l /\ q <> p) by (intros q Hq; split; intros ->; set_solver).
  constructor; [done | | | done | |].
  - apply seg_app. split.
    + eapply seg_end; [done.. |]. intros q Hq Hne. apply Hr; try apply Hdiff; try done; [set_solver.. |]. intros E. symmetry in E. apply firstp_elem in E. apply (Hab q); [done | by right].
    + eapply seg_begin; [done.. |]. intros q Hq Hne. apply Hr; try apply Hdiff; try done; [set_solver.. |]. intros E. symmetry in E. apply lastp_elem in E. apply (Hab q); [done | by right].
  - rewrite fmap_app. apply NoDup_app. split; [done |]. split; [| done]. intros q Hq Hq'. apply (Hab q); [done | by right].
  - intros q. rewrite fmap_app. intros Hq. apply HF. set_solver.
  - intros q Hq Hn. rewrite fmap_app in Hn. destruct (decide (q = p)) as [->|Hqp]; [rewrite Hp, HF by set_solver; done |].
    rewrite Hr; [apply Hrest; set_solver | done | done | |].
    + intros E. symmetry in E. apply lastp_elem in E. set_solver.
    + intros E. symmetry in E. apply firstp_elem in E. set_solver.
Qed.

Ltac lk := cbn [cells upd freed clock]; repeat first [rewrite lookup_insert_ne by congruence | rewrite lookup_delete_ne by congruence]; first [apply lookup_insert_eq | eassumption].

(** One step of a program. *)
Ltac wp_step :=
  lazymatch goal with
  | |- wp (_ ≫= _) _ _ => apply wp_bind
  | |- wp (mret _) _ _ => apply wp_ret
  | |- wp room _ _ => apply wp_room
  | |- wp (call_free _ _) _ _ => apply wp_call_free
  | |- wp (get_node _) _ _ => eapply wp_get_node; [lk |]
  | |- wp (get_list _) _ _ => eapply wp_get_list; [lk |]
  | |- wp (get_iter _) _ _ => eapply wp_get_iter; [lk |]
  | |- wp (set_prev _ _) _ _ => eapply wp_set_prev; [lk |]
  | |- wp (set_next _ _) _ _ => eapply wp_set_next; [lk |]
  | |- wp (set_value _ _) _ _ => eapply wp_set_value; [lk |]
  | |- wp (set_head _ _) _ _ => eapply wp_set_head; [lk |]
  | |- wp (set_tail _ _) _ _ => eapply wp_set_tail; [lk |]
  | |- wp (set_len _ _) _ _ => eapply wp_set_len; [lk |]
  | |- wp (set_methods _ _ _ _) _ _ => eapply wp_set_methods; [lk |]
  | |- wp (set_iter _ _ _) _ _ => eapply wp_set_iter; [lk |]
  | |- wp (q_free _) _ _ => eapply wp_free; [lk |]
  end; cbn [prev next value head tail dup free match_ len it_next direction].

Ltac wp_steps := repeat wp_step.

(** Where an insertion changes nothing. *)
Ltac lks := cbn [cells upd]; repeat first [rewrite lookup_insert_eq | rewrite lookup_insert_ne by congruence | rewrite lookup_delete_ne by congruence].

Lemma own_len F c l ns : own F c l ns -> (S (length ns) <= size c)%nat.
Proof.
  intros Ho. pose proof (own_apart _ _ _ _ Ho) as Hap. destruct Ho as [Hl Hs Hnd _ _ _].
  assert (Hsub : list_to_set (l :: ns.*1) ⊆ dom c).
  { intros q. rewrite elem_of_list_to_set, elem_of_dom. intros [->|Hq]%elem_of_cons; [by eexists |]. destruct (seg_node _ _ _ _ _ Hs Hq) as [n Hn]. by eexists. }
  apply subseteq_size in Hsub. rewrite size_dom, size_list_to_set in Hsub by (by apply NoDup_cons). cbn in Hsub. by rewrite length_fmap in Hsub.
Qed.

Lemma wp_listAddNodeHead F l ns v Q s :
  own F (cells s) l ns -> Z.of_nat (S (length ns)) < 2 ^ 32 ->
  (forall p c k, own F c l ((p, v) :: ns) -> Q (Some l) (mkMem c (freed s) k)) ->
  wp (listAddNodeHead fails place junk_node (Some l) v) Q s.
Proof.
  intros Ho Hlen HQ. pose proof (own_record _ _ _ _ Ho) as Hl. unfold record in Hl. unfold listAddNodeHead.
  apply wp_bind, wp_malloc. intros p Hp. assert (Hpl : p <> l) by congruence. do 4 wp_step.
  assert (Hu : u32 (Z.of_nat (length ns) + 1) = Z.of_nat (S (length ns))) by (rewrite u32_small; unfold is_u32; lia).
  destruct ns as [|[h x] ns]; cbn [length firstp] in *.
  - change (Z.of_nat 0 =? 0) with true. cbn iota. wp_steps. apply (HQ p). apply (own_insert F (cells s) _ l [] [] p v); [done | done | | | | |].
    + lks. by rewrite Hu.
    + by lks.
    + by intros [] ? ? ?.
    + done.
    + intros q Hq Hqp _ _. by lks.
  - pose proof (own_seg _ _ _ _ Ho) as [Hh _]. assert (Hhl : h <> l) by congruence. assert (Hhp : h <> p) by congruence.
    rewrite (proj2 (Z.eqb_neq _ 0)) by lia. wp_steps. apply (HQ p). apply (own_insert F (cells s) _ l [] ((h, x) :: ns) p v); [done | done | | | | |].
    + lks. rewrite Hu. unfold record. cbn [app]. by rewrite !lastp_cons.
    + by lks.
    + by intros [] ? ? ?.
    + intros q y b' [= <- <- <-]. by lks.
    + intros q Hq Hqp _ Hqh. cbn in Hqh. by lks.
Qed.

(** The node at a place of the list and its neighbours are distinct. *)
Lemma own_node F c l a p x b : own F c l (a ++ (p, x) :: b) ->
  c !! p = Some (Node (mkNode (lastp None a) (firstp b None) x)) /\ p <> l /\ lastp None a <> Some p /\ firstp b None <> Some p /\
  (forall q, lastp None a = Some q -> firstp b None <> Some q).
Proof.
  intros Ho. pose proof (own_apart _ _ _ _ Ho) as Hap. destruct Ho as [_ Hs Hnd _ _ _]. rewrite fmap_app in *. cbn in Hap, Hnd.
  apply NoDup_app in Hnd as (_ & Hab & [Hpb _]%NoDup_cons). split; [by apply seg_lookup in Hs |]. split; [set_solver |].
  split; [intros E%lastp_elem; apply (Hab p E); left |]. split; [intros E%firstp_elem; done |].
  intros q Ha%lastp_elem Hb%firstp_elem. apply (Hab q Ha). by right.
Qed.

Lemma own_last F c l a p x b : own F c l (a ++ (p, x) :: b) -> c !! p = Some (Node (mkNode (lastp None a) (firstp b None) x)) /\ p <> l.
Proof. intros Ho. destruct (own_node _ _ _ _ _ _ _ Ho) as (H1 & H2 & _). done. Qed.

Lemma wp_listAddNodeTail F l ns v Q s :
  own F (cells s) l ns -> Z.of_nat (S (length ns)) < 2 ^ 32 ->
  (forall p c k, own F c l (ns ++ [(p, v)]) -> Q (Some l) (mkMem c (freed s) k)) ->
  wp (listAddNodeTail fails place junk_node (Some l) v) Q s.
Proof.
  intros Ho Hlen HQ. pose proof (own_record _ _ _ _ Ho) as Hl. unfold record in Hl. unfold listAddNodeTail.
  apply wp_bind, wp_malloc. intros p Hp. assert (Hpl : p <> l) by congruence. do 4 wp_step.
  assert (Hu : u32 (Z.of_nat (length ns) + 1) = Z.of_nat (S (length ns))) by (rewrite u32_small; unfold is_u32; lia).
  destruct ns as [|[t x] ns _] using rev_ind.
  - change (Z.of_nat (length []) =? 0) with true. cbn iota. wp_steps. apply (HQ p). apply (own_insert F (cells s) _ l [] [] p v); [done | done | | | | |].
    + lks. by rewrite Hu.
    + by lks.
    + by intros [] ? ? ?.
    + done.
    + intros q Hq Hqp _ _. by lks.
  - destruct (own_last _ _ _ _ _ _ _ Ho) as [Ht Htl]. assert (Htp : t <> p) by congruence. rewrite !lastp_snoc in *.
    rewrite (proj2 (Z.eqb_neq _ 0)) by (rewrite length_app; cbn; lia). wp_steps. apply (HQ p). 
    apply (own_insert F (cells s) _ l (ns ++ [(t, x)]) [] p v); [by rewrite app_nil_r | done | | | | |].
    + lks. rewrite Hu. unfold record. rewrite lastp_snoc, <- app_assoc. do 3 f_equal; [by rewrite !firstp_app | rewrite !length_app; cbn; lia].
    + lks. by rewrite lastp_snoc.
    + intros a' q y [-> [= <- <-]]%app_inj_tail. by lks.
    + done.
    + intros q Hq Hqp Hqt _. rewrite lastp_snoc in Hqt. by lks.
Qed.

Lemma lastp_app pv a b : lastp pv (a ++ b) = lastp (lastp pv a) b.
Proof. unfold lastp. rewrite last_app. by destruct (last b) as [[]|]. Qed.

Lemma length_middle a (n : positive * Z) b : length (a ++ n :: b) = S (length (a ++ b)).
Proof. rewrite !length_app. cbn. lia. Qed.

Lemma own_not_last F c l a q x n b : own F c l (a ++ (q, x) :: n :: b) -> lastp None (a ++ (q, x) :: n :: b) <> Some q.
Proof.
  intros Ho%own_nodup. rewrite fmap_app in Ho. cbn in Ho. apply NoDup_app in Ho as (_ & _ & [Hq _]%NoDup_cons).
  destruct n as [r y]. rewrite lastp_app, lastp_cons. intros E. apply Hq. apply (lastp_elem ((r, y) :: b)). by rewrite lastp_cons in *.
Qed.

Lemma own_not_first F c l n a q x b : own F c l ((n :: a) ++ (q, x) :: b) -> firstp ((n :: a) ++ (q, x) :: b) None <> Some q.
Proof. intros Ho%own_nodup. destruct n as [r y]. cbn. intros [= ->]. cbn in Ho. apply NoDup_cons in Ho as [Hn _]. rewrite fmap_app in Hn. cbn in Hn. set_solver. Qed.

Lemma wp_insert_after F l a q x b v after Q s :
  own F (cells s) l (a ++ (q, x) :: b) -> Z.of_nat (S (length (a ++ (q, x) :: b))) < 2 ^ 32 -> after <> 0 ->
  (forall p c k, own F c l (a ++ (q, x) :: (p, v) :: b) -> Q (Some l) (mkMem c (freed s) k)) ->
  wp (listInsertNode fails place junk_node (Some l) (Some q) v after) Q s.
Proof.
  intros Ho Hlen Ha HQ. pose proof (own_record _ _ _ _ Ho) as Hl. unfold record in Hl. unfold listInsertNode.
  destruct (own_node _ _ _ _ _ _ _ Ho) as (Hq & Hql & _ & Hbq & _). pose proof (fun n b' => own_not_last F (cells s) l a q x n b') as Hnl.
  assert (Hu : forall p, u32 (Z.of_nat (length (a ++ (q, x) :: b)) + 1) = Z.of_nat (length ((a ++ [(q, x)]) ++ (p, v) :: b))).
  { intros p. rewrite u32_small by (unfold is_u32; lia). rewrite (length_middle (a ++ _)), <- app_assoc. cbn [app]. lia. }
  assert (Hf : forall p, firstp (a ++ (q, x) :: b) None = firstp ((a ++ [(q, x)]) ++ (p, v) :: b) None) by (intros; by rewrite <- app_assoc, !firstp_app).
  apply wp_bind, wp_malloc. intros p Hp. assert (Hpl : p <> l) by congruence. assert (Hpq : p <> q) by congruence.
  specialize (HQ p). replace (a ++ (q, x) :: (p, v) :: b) with ((a ++ [(q, x)]) ++ (p, v) :: b) in HQ by (by rewrite <- app_assoc).
  assert (Ho' := Ho). replace (a ++ (q, x) :: b) with ((a ++ [(q, x)]) ++ b) in Ho by (by rewrite <- app_assoc).
  rewrite (proj2 (Z.eqb_neq after 0)) by done. cbn [negb]. destruct b as [|[r y] b]; cbn [firstp] in *.
  - wp_steps. rewrite decide_True by (by rewrite lastp_snoc). wp_steps. apply HQ.
    apply (own_insert F (cells s) _ l (a ++ [(q, x)]) [] p v); [done | done | | | | |].
    + lks. rewrite Hu with p, (Hf p). unfold record. by rewrite lastp_snoc.
    + lks. by rewrite lastp_snoc.
    + intros a' q' y [-> [= <- <-]]%app_inj_tail. by lks.
    + done.
    + intros q' Hq' Hqp Hqt _. rewrite lastp_snoc in Hqt. by lks.
  - pose proof (own_last _ _ _ _ _ _ _ Ho) as [Hr Hrl]. rewrite lastp_snoc in Hr. assert (Hrq : r <> q) by congruence. assert (Hrp : r <> p) by congruence.
    wp_steps. rewrite decide_False by (by eapply Hnl). wp_steps. apply HQ.
    apply (own_insert F (cells s) _ l (a ++ [(q, x)]) ((r, y) :: b) p v); [done | done | | | | |].
    + lks. rewrite Hu with p, (Hf p). unfold record. rewrite !lastp_app, !lastp_cons. done.
    + lks. by rewrite lastp_snoc.
    + intros a' q' z [-> [= <- <-]]%app_inj_tail. by lks.
    + intros q' z b' [= <- <- <-]. by lks.
    + intros q' Hq' Hqp Hqt Hqr. rewrite lastp_snoc in Hqt. cbn in Hqr. by lks.
Qed.

Lemma wp_insert_before F l a q x b v Q s :
  own F (cells s) l (a ++ (q, x) :: b) -> Z.of_nat (S (length (a ++ (q, x) :: b))) < 2 ^ 32 ->
  (forall p c k, own F c l (a ++ (p, v) :: (q, x) :: b) -> Q (Some l) (mkMem c (freed s) k)) ->
  wp (listInsertNode fails place junk_node (Some l) (Some q) v 0) Q s.
Proof.
  intros Ho Hlen HQ. pose proof (own_record _ _ _ _ Ho) as Hl. unfold record in Hl. unfold listInsertNode.
  destruct (own_node _ _ _ _ _ _ _ Ho) as (Hq & Hql & Haq & _).
  assert (Hu : forall p, u32 (Z.of_nat (length (a ++ (q, x) :: b)) + 1) = Z.of_nat (length (a ++ (p, v) :: (q, x) :: b))).
  { intros p. rewrite u32_small by (unfold is_u32; lia). rewrite (length_middle a (p, v)). lia. }
  assert (Hf : forall p, lastp None (a ++ (q, x) :: b) = lastp None (a ++ (p, v) :: (q, x) :: b)) by (intros; by rewrite !lastp_app, !lastp_cons).
  apply wp_bind, wp_malloc. intros p Hp. assert (Hpl : p <> l) by congruence. assert (Hpq : p <> q) by congruence. specialize (HQ p).
  change (0 =? 0) with true. cbn [negb]. destruct a as [|[r y] a _] using rev_ind.
  - change (lastp None []) with (@None positive) in *. wp_steps. rewrite decide_True by done. wp_steps. apply HQ. apply (own_insert F (cells s) _ l [] ((q, x) :: b) p v); [done | done | | | | |].
    + lks. by rewrite Hu with p, (Hf p).
    + by lks.
    + by intros [] ? ? ?.
    + intros q' y b' [= <- <- <-]. by lks.
    + intros q' Hq' Hqp _ Hqt. cbn in Hqt. by lks.
  - rewrite lastp_snoc in *. assert (Hr : cells s !! r = Some (Node (mkNode (lastp None a) (Some q) y)) /\ r <> l).
    { rewrite <- app_assoc in Ho. by apply own_last in Ho. }
    destruct Hr as [Hr Hrl]. assert (Hrp : r <> p) by congruence. assert (Hrq : r <> q) by congruence.
    wp_steps. rewrite decide_False.
    2: { destruct a as [|n a]; [by cbn; intros [= ->] |]. by apply (own_not_first F (cells s) l n (a ++ [(r, y)]) q x b). }
    wp_steps. apply HQ. apply (own_insert F (cells s) _ l (a ++ [(r, y)]) ((q, x) :: b) p v); [done | done | | | | |].
    + lks. rewrite Hu with p, (Hf p). unfold record. by rewrite !firstp_app.
    + lks. by rewrite lastp_snoc.
    + intros a' q' z [-> [= <- <-]]%app_inj_tail. by lks.
    + intros q' z b' [= <- <- <-]. by lks.
    + intros q' Hq' Hqp Hqt Hqr. rewrite lastp_snoc in Hqt. cbn in Hqr. by lks.
Qed.

Lemma wp_listDelNode F l a q x b Q s :
  own F (cells s) l (a ++ (q, x) :: b) -> Z.of_nat (length (a ++ (q, x) :: b)) < 2 ^ 32 ->
  (forall c, own F c l (a ++ b) -> Q tt (mkMem c (if f then freed s ++ [x] else freed s) (clock s))) ->
  wp (listDelNode (Some l) (Some q)) Q s.
Proof.
  intros Ho Hlen HQ. pose proof (own_record _ _ _ _ Ho) as Hl. unfold record in Hl. unfold listDelNode.
  destruct (own_node _ _ _ _ _ _ _ Ho) as (Hq & Hql & Haq & Hbq & Hab).
  assert (Hu : u32 (Z.of_nat (length (a ++ (q, x) :: b)) - 1) = Z.of_nat (length (a ++ b))).
  { rewrite length_middle in *. rewrite u32_small; unfold is_u32; lia. }
  apply wp_bind. eapply wp_get_node; [done |]. cbn [prev next value]. destruct a as [|[r y] a _] using rev_ind; [| rewrite lastp_snoc in *].
  - change (lastp None []) with (@None positive) in *. destruct b as [|[t z] b]; cbn [firstp app] in *.
    + wp_steps. apply HQ. apply (own_remove F (cells s) _ l [] q x []); [done | | | by intros [] ? ? ? | done |].
      * lks. by rewrite Hu.
      * lks. apply lookup_delete_eq.
      * intros q' Hq' Hqp _ _. by lks.
    + assert (Ht : cells s !! t = Some (Node (mkNode (Some q) (firstp b None) z)) /\ t <> l) by (by apply (own_last F (cells s) l [(q, x)] t z b)).
      destruct Ht as [Ht Htl]. assert (Htq : t <> q) by congruence.
      wp_steps. apply HQ. apply (own_remove F (cells s) _ l [] q x ((t, z) :: b)); [done | | | by intros [] ? ? ? | |].
      * lks. rewrite Hu. unfold record. cbn [app]. by rewrite !lastp_cons.
      * lks. apply lookup_delete_eq.
      * intros q' y b' [= <- <- <-]. by lks.
      * intros q' Hq' Hqp _ Hqt. cbn in Hqt. by lks.
  - assert (Hr : cells s !! r = Some (Node (mkNode (lastp None a) (Some q) y)) /\ r <> l).
    { rewrite <- app_assoc in Ho. by apply own_last in Ho. }
    destruct Hr as [Hr Hrl]. assert (Hrq : r <> q) by congruence. specialize (Hab r eq_refl).
    destruct b as [|[t z] b]; cbn [firstp] in *.
    + wp_steps. apply HQ. apply (own_remove F (cells s) _ l (a ++ [(r, y)]) q x []); [done | | | | done |].
      * lks. rewrite Hu. unfold record. rewrite app_nil_r, lastp_snoc. by rewrite <- app_assoc, !firstp_app.
      * lks. apply lookup_delete_eq.
      * intros a' q' z [-> [= <- <-]]%app_inj_tail. by lks.
      * intros q' Hq' Hqp Hqt _. rewrite lastp_snoc in Hqt. by lks.
    + assert (Ht : cells s !! t = Some (Node (mkNode (Some q) (firstp b None) z)) /\ t <> l).
      { replace ((a ++ [(r, y)]) ++ (q, x) :: (t, z) :: b) with (((a ++ [(r, y)]) ++ [(q, x)]) ++ (t, z) :: b) in Ho by (by rewrite <- app_assoc).
        apply own_last in Ho. by rewrite lastp_snoc in Ho. }
      destruct Ht as [Ht Htl]. assert (Htq : t <> q) by congruence. assert (Htr : t <> r) by congruence.
      wp_steps. apply HQ. apply (own_remove F (cells s) _ l (a ++ [(r, y)]) q x ((t, z) :: b)); [done | | | | |].
      * lks. rewrite Hu. unfold record. rewrite !lastp_app, !lastp_cons. by rewrite <- !app_assoc, !firstp_app.
      * lks. apply lookup_delete_eq.
      * intros a' q' z' [-> [= <- <-]]%app_inj_tail. by lks.
      * intros q' z' b' [= <- <- <-]. lks. by rewrite lastp_snoc.
      * intros q' Hq' Hqp Hqt Hqr. rewrite lastp_snoc in Hqt. cbn in Hqr. by lks.
Qed.

(** The list without its last node, which is no longer in memory. *)
Lemma own_detach F c l a r z t x :
  own F c l ((a ++ [(r, z)]) ++ [(t, x)]) ->
  own F (<[l := record (a ++ [(r, z)])]> (delete t (<[r := Node (mkNode (lastp None a) None z)]> c))) l (a ++ [(r, z)]).
Proof.
  intros Ho. destruct (own_node _ _ _ _ _ _ _ Ho) as (Ht & Htl & Hrt & _). rewrite lastp_snoc in Hrt.
  assert (Hrl : r <> l) by (rewrite <- app_assoc in Ho; apply own_last in Ho as [_ Ho]; done). assert (Hrt' : r <> t) by congruence.
  rewrite <- (app_nil_r (a ++ [(r, z)])) at 2. apply (own_remove F c _ l (a ++ [(r, z)]) t x []); [done | | | | done |].
  - lks. by rewrite app_nil_r.
  - lks. apply lookup_delete_eq.
  - intros a' q' z' [-> [= <- <-]]%app_inj_tail. by lks.
  - intros q' Hq' Hqp Hqt _. rewrite lastp_snoc in Hqt. by lks.
Qed.

Lemma wp_listRotate F l a t x Q s :
  own F (cells s) l (a ++ [(t, x)]) -> (forall c, own F c l ((t, x) :: a) -> Q tt (mkMem c (freed s) (clock s))) ->
  wp (listRotate (Some l)) Q s.
Proof.
  intros Ho HQ. pose proof (own_record _ _ _ _ Ho) as Hl. unfold record in Hl. unfold listRotate. do 2 wp_step.
  destruct (own_node _ _ _ _ _ _ _ Ho) as (Ht & Htl & Hat & _). rewrite lastp_snoc. destruct a as [|[r z] a _] using rev_ind.
  { cbn [length app]. change (Z.of_nat 1 <=? 1) with true. cbn iota. apply wp_ret. destruct s. by apply HQ. }
  rewrite (proj2 (Z.leb_gt _ 1)) by (rewrite !length_app; cbn; lia).
  pose proof (own_detach _ _ _ _ _ _ _ _ Ho) as Hd. set (cm := <[l := _]> _) in Hd. rewrite lastp_snoc in *. cbn [firstp] in Ht.
  assert (Hr : cells s !! r = Some (Node (mkNode (lastp None a) (Some t) z)) /\ r <> l).
  { rewrite <- app_assoc in Ho. by apply own_last in Ho. }
  destruct Hr as [Hr Hrl]. assert (Hrt : r <> t) by congruence.
  assert (Hlen : Z.of_nat (length ((a ++ [(r, z)]) ++ [(t, x)])) = Z.of_nat (length ((t, x) :: a ++ [(r, z)]))) by (rewrite length_app; cbn; lia).
  assert (Hcm : cm !! t = None) by (unfold cm; lks; apply lookup_delete_eq).
  destruct a as [|[h y] a]; cbn [firstp app] in *.
  - wp_steps. apply HQ. apply (own_insert F cm _ l [] [(r, z)] t x); [done | done | | | | |].
    + by lks.
    + by lks.
    + by intros [] ? ? ?.
    + intros q' y b' [= <- <- <-]. by lks.
    + intros q' Hq' Hqp _ Hqh. cbn in Hqh. unfold cm. by lks.
  - pose proof (own_seg _ _ _ _ Ho) as [Hh _]. cbn [app] in Hh. 
    assert (Hhl : h <> l) by congruence. assert (Hht : h <> t) by (pose proof (own_not_first F (cells s) l (h, y) (a ++ [(r, z)]) t x [] Ho) as E; intros ->; by apply E).
    assert (Hhr : h <> r).
    { rewrite <- app_assoc in Ho. pose proof (own_not_first F (cells s) l (h, y) a r z [(t, x)] Ho) as E. intros ->. by apply E. }
    wp_steps. apply HQ. apply (own_insert F cm _ l [] ((h, y) :: a ++ [(r, z)]) t x); [done | done | | | | |].
    + lks. unfold record. cbn [app]. by rewrite Hlen, !lastp_cons, lastp_snoc.
    + by lks.
    + by intros [] ? ? ?.
    + intros q' y' b' [= <- <- <-]. lks. by rewrite !firstp_app.
    + intros q' Hq' Hqp _ Hqh. cbn in Hqh. unfold cm. destruct (decide (q' = r)) as [->|]; by lks.
Qed.

(** *** Indices *)

Lemma wp_index_next pv b Q s : forall fuel i, seg (cells s) pv b None -> (length b < fuel)%nat -> 0 <= i ->
  Q (firstp (drop (Z.to_nat i) b) None) s -> wp (index_loop fuel i (firstp b None) next) Q s.
Proof.
  revert pv. induction b as [|[p x] b IH]; intros pv fuel i Hs Hf Hi HQ; (destruct fuel as [|fuel]; [cbn in Hf; lia |]); cbn [index_loop firstp].
  - destruct (i =? 0); apply wp_ret; by destruct (Z.to_nat i).
  - destruct (Z.eqb_spec i 0) as [->|Hne]; [by apply wp_ret |]. destruct Hs as [Hp Hs]. cbn [length] in Hf. wp_steps.
    apply (IH (Some p)); [done | lia | lia |]. replace (Z.to_nat i) with (S (Z.to_nat (i - 1))) in HQ by lia. done.
Qed.

Lemma wp_index_prev nx a Q s : forall fuel i, seg (cells s) None a nx -> (length a < fuel)%nat -> 0 <= i ->
  Q (lastp None (take (length a - Z.to_nat i) a)) s -> wp (index_loop fuel i (lastp None a) prev) Q s.
Proof.
  revert nx. induction a as [|[p x] a IH] using rev_ind; intros nx fuel i Hs Hf Hi HQ; (destruct fuel as [|fuel]; [lia |]); cbn [index_loop].
  - destruct (i =? 0); by apply wp_ret.
  - destruct (Z.eqb_spec i 0) as [->|Hne]; [rewrite Nat.sub_0_r, take_ge in HQ by done; by apply wp_ret |]. apply seg_app in Hs as [Hs [Hp _]].
    rewrite length_app in *. cbn [length] in *. rewrite lastp_snoc. wp_steps. eapply IH; [done | lia | lia |].
    rewrite take_app_le in HQ by lia. by replace (length a - Z.to_nat (i - 1))%nat with (length a + 1 - Z.to_nat i)%nat by lia.
Qed.

(** The place an index means: from the end when it is negative. *)
Definition pos_of (i : Z) (n : nat) : option nat :=
  let k := if i <? 0 then Z.of_nat n + i else i in
  if (0 <=? k) && (k <? Z.of_nat n) then Some (Z.to_nat k) else None.

Lemma wp_listIndex F l ns i Q s : own F (cells s) l ns -> - 2 ^ 63 < i ->
  Q (k ← pos_of i (length ns); fst <$> ns !! k) s -> wp (listIndex (Some l) i) Q s.
Proof.
  intros Ho Hi HQ. pose proof (own_len _ _ _ _ Ho) as Hn. destruct Ho as [Hl Hs _ _ _ _]. unfold record in Hl. unfold listIndex. do 4 wp_step.
  unfold pos_of in HQ. destruct (Z.ltb_spec i 0).
  - rewrite (proj2 (Z.eqb_neq _ _)) by lia. eapply wp_index_prev; [done | lia | lia |].
    destruct (Z.leb_spec 0 (Z.of_nat (length ns) + i)) as [Hk|Hk]; cbn [andb] in HQ.
    + rewrite (proj2 (Z.ltb_lt _ _)) in HQ by lia. cbn [mbind option_bind] in HQ.
      destruct (lookup_lt_is_Some_2 ns (Z.to_nat (Z.of_nat (length ns) + i))) as [[p x] Hp]; [lia |]. rewrite Hp in HQ.
      replace (length ns - Z.to_nat (- i - 1))%nat with (S (Z.to_nat (Z.of_nat (length ns) + i))) by lia. rewrite (take_S_r _ _ _ Hp), lastp_snoc. done.
    + replace (length ns - Z.to_nat (- i - 1))%nat with 0%nat by lia. done.
  - eapply wp_index_next; [done | lia | lia |]. rewrite (proj2 (Z.leb_le 0 i)) in HQ by lia. cbn [andb] in HQ. destruct (Z.ltb_spec i (Z.of_nat (length ns))).
    + cbn [mbind option_bind] in HQ. destruct (lookup_lt_is_Some_2 ns (Z.to_nat i)) as [[p x] Hp]; [lia |]. rewrite Hp in HQ. by rewrite (drop_S _ _ _ Hp).
    + by rewrite drop_ge by lia.
Qed.

(** *** Iterators *)

Lemma wp_listNext_none it dir Q s : cells s !! it = Some (Iter (mkIter None dir)) -> Q None s -> wp (listNext (Some it)) Q s.
Proof. intros Hit HQ. unfold listNext. wp_steps. done. Qed.

Lemma wp_listNext_some it dir q n Q s : cells s !! it = Some (Iter (mkIter (Some q) dir)) -> cells s !! q = Some (Node n) ->
  Q (Some q) (upd s it (Iter (mkIter (if dir =? 0 then next n else prev n) dir))) -> wp (listNext (Some it)) Q s.
Proof. intros Hit Hq HQ. unfold listNext. wp_steps. done. Qed.

Lemma upd_same s p e : cells s !! p = Some e -> upd s p e = s.
Proof. intros H. unfold upd. rewrite insert_id by done. by destruct s. Qed.

Lemma upd_upd s p e e' : upd (upd s p e) p e' = upd s p e'.
Proof. unfold upd. cbn. by rewrite insert_insert_eq. Qed.

Lemma seg_upd s pv ns nx p e i : seg (cells s) pv ns nx -> cells s !! p = Some (Iter i) -> seg (cells (upd s p e)) pv ns nx.
Proof. intros Hs Hp. apply (seg_frame (cells s)); [done |]. intros q Hq. destruct (seg_node _ _ _ _ _ Hs Hq) as [n Hn]. cbn. rewrite lookup_insert_ne; congruence. Qed.

Lemma wp_collect_next it pv b Q : forall fuel s, seg (cells s) pv b None -> cells s !! it = Some (Iter (mkIter (firstp b None) 0)) -> (length b < fuel)%nat ->
  Q b.*2 (upd s it (Iter (mkIter None 0))) -> wp (collect fuel (Some it)) Q s.
Proof.
  revert pv Q. induction b as [|[p x] b IH]; intros pv Q fuel s Hs Hit Hf HQ; (destruct fuel as [|fuel]; [cbn in Hf; lia |]); cbn [collect]; apply wp_bind.
  - eapply wp_listNext_none; [done |]. apply wp_ret. by rewrite upd_same in HQ.
  - pose proof Hs as [Hp Hs']. eapply wp_listNext_some; [done | done |]. cbn [Z.eqb next]. assert (Hne : it <> p) by (intros ->; cbn in Hit; congruence).
    do 3 wp_step. eapply IH; [by eapply seg_upd | lks; done | cbn in Hf; lia |]. apply wp_ret. by rewrite upd_upd.
Qed.

Lemma wp_collect_prev it nx a dir Q : dir <> 0 -> forall fuel s, seg (cells s) None a nx -> cells s !! it = Some (Iter (mkIter (lastp None a) dir)) -> (length a < fuel)%nat ->
  Q (reverse a.*2) (upd s it (Iter (mkIter None dir))) -> wp (collect fuel (Some it)) Q s.
Proof.
  intros Hd. revert nx Q. induction a as [|[p x] a IH] using rev_ind; intros nx Q fuel s Hs Hit Hf HQ; (destruct fuel as [|fuel]; [lia |]); cbn [collect]; apply wp_bind.
  - eapply wp_listNext_none; [done |]. apply wp_ret. by rewrite upd_same in HQ.
  - pose proof Hs as [Hs' [Hp _]]%seg_app. rewrite lastp_snoc in Hit. eapply wp_listNext_some; [done | done |]. rewrite (proj2 (Z.eqb_neq dir 0)) by done. cbn [prev].
    assert (Hne : it <> p) by congruence. rewrite length_app in Hf. cbn in Hf.
    do 3 wp_step. eapply IH; [by eapply seg_upd | lks; done | lia |]. apply wp_ret. rewrite upd_upd. rewrite fmap_app, reverse_app in HQ. done.
Qed.

Lemma seg_fresh c pv ns nx p e : seg c pv ns nx -> c !! p = None -> seg (<[p := e]> c) pv ns nx.
Proof. intros Hs Hp. apply (seg_frame c); [done |]. intros q Hq. destruct (seg_node _ _ _ _ _ Hs Hq) as [n Hn]. rewrite lookup_insert_ne; congruence. Qed.

Lemma wp_listGetIterator F l ns dir Q s : own F (cells s) l ns ->
  (forall it k, cells s !! it = None -> it <> l ->
    Q (Some it) (mkMem (<[it := Iter (mkIter (if dir =? 0 then firstp ns None else lastp None ns) dir)]> (cells s)) (freed s) k)) ->
  wp (listGetIterator fails place junk_iter (Some l) dir) Q s.
Proof.
  intros [Hl _ _ _ _ _] HQ. unfold record in Hl. apply wp_bind, wp_malloc. intros it Hit. assert (Hne : it <> l) by congruence.
  wp_steps. unfold upd. cbn. rewrite insert_insert_eq. by apply HQ.
Qed.

Lemma wp_walk F l ns dir Q s : own F (cells s) l ns ->
  (forall k, Q ((if dir =? 0 then ns.*2 else reverse ns.*2) ++ ns.*2 ++ reverse ns.*2) (mkMem (cells s) (freed s) k)) ->
  wp (walk fails place junk_iter (Some l) dir) Q s.
Proof.
  intros Ho HQ. pose proof (own_len _ _ _ _ Ho) as Hn. unfold walk. do 2 wp_step. apply wp_bind. eapply wp_listGetIterator; [done |]. intros it k Hit Hil.
  specialize (HQ k). set (c1 := <[it := _]> (cells s)). set (s0 := mkMem (cells s) (freed s) k) in *. destruct Ho as [Hl Hs _ _ _ _]. unfold record in Hl.
  assert (Hseg : forall i, seg (cells (upd s0 it (Iter i))) None ns None) by (intros i; by apply seg_fresh).
  change (mkMem c1 _ _) with (upd s0 it (Iter (mkIter (if dir =? 0 then firstp ns None else lastp None ns) dir))).
  apply wp_bind.
  assert (Hc : forall Q' : list Z -> mem -> Prop, Q' (if dir =? 0 then ns.*2 else reverse ns.*2) (upd s0 it (Iter (mkIter None dir))) ->
    wp (collect (S (size (cells s))) (Some it)) Q' (upd s0 it (Iter (mkIter (if dir =? 0 then firstp ns None else lastp None ns) dir)))).
  { intros Q' HQ'. destruct (Z.eqb_spec dir 0) as [->|Hd].
    - eapply wp_collect_next; [done | lks; done | lia |]. by rewrite upd_upd.
    - eapply wp_collect_prev; [done | done | lks; done | lia |]. by rewrite upd_upd. }
  apply Hc. unfold listRewind, listRewindTail, listReleaseIterator. do 4 wp_step. rewrite upd_upd. wp_step.
  eapply wp_collect_next; [done | lks; done | lia |]. rewrite upd_upd. do 4 wp_step. rewrite upd_upd. wp_step.
  eapply (wp_collect_prev it None ns 1); [done | done | lks; done | lia |]. rewrite upd_upd. wp_steps. cbn. rewrite delete_insert_id by done. done.
Qed.

Definition matches (x key : Z) : bool := match mt with Some g => negb (g x key =? 0) | None => key =? x end.

Lemma wp_search_loop l r it pv b key Q : match_ r = mt -> forall fuel s,
  cells s !! l = Some (List r) -> seg (cells s) pv b None -> cells s !! it = Some (Iter (mkIter (firstp b None) 0)) -> (length b < fuel)%nat ->
  Q (fst ∘ snd <$> list_find (fun n => matches n.2 key) b) (mkMem (delete it (cells s)) (freed s) (clock s)) ->
  wp (search_loop fuel (Some l) (Some it) key) Q s.
Proof.
  intros Hr. revert pv. induction b as [|[p x] b IH]; intros pv fuel s Hl Hs Hit Hf HQ; (destruct fuel as [|fuel]; [cbn in Hf; lia |]); cbn [search_loop]; apply wp_bind.
  - eapply wp_listNext_none; [done |]. unfold listReleaseIterator. wp_steps. done.
  - pose proof Hs as [Hp Hs']. eapply wp_listNext_some; [done | done |]. cbn [Z.eqb next]. cbn [firstp] in Hit.
    assert (Hne : it <> p) by congruence. assert (Hnl : it <> l) by congruence. do 4 wp_step. rewrite Hr.
    change (match mt with Some f => negb (f x key =? 0) | None => key =? x end) with (matches x key). cbn [list_find] in HQ.
    unfold listReleaseIterator. destruct (matches x key) eqn:E.
    + rewrite decide_True in HQ by (cbn; by rewrite E). wp_steps. cbn. by rewrite delete_insert_eq.
    + rewrite decide_False in HQ by (cbn; rewrite E; by intros []). eapply IH; [by lks | by eapply seg_upd | by lks | cbn in Hf; lia |].
      cbn [upd cells freed clock]. rewrite delete_insert_eq. by destruct (list_find _ b) as [[]|].
Qed.

Lemma wp_listSearchKey F l ns key Q s : own F (cells s) l ns ->
  (forall k, Q (fst ∘ snd <$> list_find (fun n => matches n.2 key) ns) (mkMem (cells s) (freed s) k)) ->
  wp (listSearchKey fails place junk_iter (Some l) key) Q s.
Proof.
  intros Ho HQ. pose proof (own_len _ _ _ _ Ho) as Hn. unfold listSearchKey. do 2 wp_step. apply wp_bind. eapply wp_listGetIterator; [done |]. intros it k Hit Hil.
  destruct Ho as [Hl Hs _ _ _ _]. unfold record in Hl. eapply wp_search_loop; [| by lks | by eapply seg_fresh | by lks | lia |]; [done |].
  cbn. rewrite delete_insert_id by done. apply HQ.
Qed.

(** *** Creating, releasing and copying *)

Lemma wp_release_loop F l r pv b Q : free r = f -> forall s,
  cells s !! l = Some (List r) -> seg (cells s) pv b None -> NoDup b.*1 -> (forall q, q ∈ b.*1 -> F !! q = None) ->
  (forall q, q <> l -> q ∉ b.*1 -> cells s !! q = F !! q) ->
  (forall c, (forall q, q <> l -> c !! q = F !! q) -> c !! l = Some (List r) -> Q tt (mkMem c (freed s ++ if f then b.*2 else []) (clock s))) ->
  wp (release_loop (length b) (Some l) (firstp b None)) Q s.
Proof.
  intros Hfr. revert pv. induction b as [|[p x] b IH]; intros pv s Hl Hs Hnd HF Hr HQ; cbn [release_loop length firstp].
  - apply wp_ret. specialize (HQ (cells s)). destruct s. cbn in HQ. replace (if f then [] else []) with (@nil Z) in HQ by (by destruct f).
    rewrite app_nil_r in HQ. apply HQ; [| done]. intros q Hq. apply Hr; [done |]. by apply not_elem_of_nil.
  - destruct Hs as [Hp Hs]. cbn in Hnd, HF, Hr. apply NoDup_cons in Hnd as [Hpb Hnd]. assert (Hpl : p <> l) by congruence.
    do 5 wp_step. wp_step. rewrite Hfr. do 2 wp_step. apply (IH (Some p)); cbn [cells freed clock].
    + by lks.
    + apply (seg_frame (cells s)); [done |]. intros q Hq. rewrite lookup_delete_ne; [done | set_solver].
    + done.
    + intros q Hq. apply HF. by right.
    + intros q Hq Hqb. destruct (decide (q = p)) as [->|]; [rewrite lookup_delete_eq, HF by left; done |]. rewrite lookup_delete_ne by done. apply Hr; [done |]. set_solver.
    + intros c Hc Hcl. specialize (HQ c Hc Hcl). destruct f; [rewrite <- app_assoc | rewrite app_nil_r in *]; done.
Qed.

Lemma wp_listRelease F l ns Q s : own F (cells s) l ns ->
  Q tt (mkMem F (freed s ++ if f then ns.*2 else []) (clock s)) -> wp (listRelease (Some l)) Q s.
Proof.
  intros [Hl Hs Hnd HFl HF Hr] HQ. unfold record in Hl. unfold listRelease. do 3 wp_step. rewrite Nat2Z.id.
  eapply (wp_release_loop F l); [| done.. |]; [done |]. intros c Hc Hcl. wp_steps. cbn.
  replace (delete l c) with F; [done |]. apply map_eq. intros q. destruct (decide (q = l)) as [->|]; [by rewrite lookup_delete_eq |].
  rewrite lookup_delete_ne by done. symmetry. by apply Hc.
Qed.

Lemma wp_listCreate Q s :
  (forall p k, cells s !! p = None -> Q (Some p) (mkMem (<[p := List (mkList None None None false None 0)]> (cells s)) (freed s) k)) ->
  wp (listCreate fails place junk_list) Q s.
Proof. intros HQ. apply wp_bind, wp_malloc. intros p Hp. wp_steps. unfold upd. cbn. rewrite !insert_insert_eq. by apply HQ. Qed.

Lemma own_empty c p : c !! p = None -> own c (<[p := record []]> c) p [].
Proof.
  intros Hp. constructor; [apply lookup_insert_eq | done | by apply NoDup_nil | done | by intros ? ?%not_elem_of_nil |].
  intros q Hq _. by rewrite lookup_insert_ne.
Qed.

(** Another cell beside the list. *)
Lemma own_beside F c l ns q e : own F c l ns -> q <> l -> q ∉ ns.*1 -> own (<[q := e]> F) (<[q := e]> c) l ns.
Proof.
  intros [Hl Hs Hnd HFl HF Hr] Hql Hqn. constructor; [by rewrite lookup_insert_ne | | done | by rewrite lookup_insert_ne | |].
  - apply (seg_frame c); [done |]. intros r Hrn. rewrite lookup_insert_ne; [done | set_solver].
  - intros r Hrn. rewrite lookup_insert_ne; [by apply HF | set_solver].
  - intros r Hrl Hrn. destruct (decide (q = r)) as [->|]; [by rewrite !lookup_insert_eq | rewrite !lookup_insert_ne by done; by apply Hr].
Qed.

Lemma own_without F c l ns q : own F c l ns -> q <> l -> q ∉ ns.*1 -> own (delete q F) (delete q c) l ns.
Proof.
  intros [Hl Hs Hnd HFl HF Hr] Hql Hqn. constructor; [by rewrite lookup_delete_ne | | done | by rewrite lookup_delete_ne | |].
  - apply (seg_frame c); [done |]. intros r Hrn. rewrite lookup_delete_ne; [done | set_solver].
  - intros r Hrn. rewrite lookup_delete_ne; [by apply HF | set_solver].
  - intros r Hrl Hrn. destruct (decide (q = r)) as [->|]; [by rewrite !lookup_delete_eq | rewrite !lookup_delete_ne by done; by apply Hr].
Qed.

(** What was there before is not part of the list. *)
Lemma own_other F c l ns q e : own F c l ns -> F !! q = Some e -> q <> l /\ (q ∉ ns.*1) /\ c !! q = Some e.
Proof.
  intros [_ _ _ HFl HF Hr] Hq. assert (q <> l) by congruence. assert (q ∉ ns.*1) by (intros Hin; rewrite HF in Hq; done). by rewrite Hr.
Qed.

(** The values of a copy, up to the first that [dup] does not give. *)
Fixpoint copies (xs : list Z) : list Z * bool :=
  match xs with
  | [] => ([], true)
  | x :: xs =>
      match d with
      | Some g => if g x =? 0 then ([], false) else (g x :: (copies xs).1, (copies xs).2)
      | None => (x :: (copies xs).1, (copies xs).2)
      end
  end.

Lemma wp_dup_loop c0 l2 it Q : c0 !! it = None -> forall b pv fuel s ns,
  seg c0 pv b None -> own (<[it := Iter (mkIter (firstp b None) 0)]> c0) (cells s) l2 ns ->
  Z.of_nat (length ns + length b) < 2 ^ 32 -> (length b < fuel)%nat ->
  (if (copies b.*2).2 then forall c k ns', own c0 c l2 ns' -> ns'.*2 = ns.*2 ++ (copies b.*2).1 -> Q (Some l2) (mkMem c (freed s) k)
   else forall k, Q None (mkMem c0 (freed s ++ if f then ns.*2 ++ (copies b.*2).1 else []) k)) ->
  wp (dup_loop fails place junk_node fuel (Some l2) (Some it)) Q s.
Proof.
  intros Hit. induction b as [|[p x] b IH]; intros pv fuel s ns Hs Ho Hlen Hf HQ; (destruct fuel as [|fuel]; [cbn in Hf; lia |]); cbn [dup_loop]; apply wp_bind.
  all: destruct (own_other _ _ _ _ it _ Ho (lookup_insert_eq _ _ _)) as (Hil & Hin & Hi).
  - eapply wp_listNext_none; [done |]. unfold listReleaseIterator. wp_steps. eapply HQ; [| by rewrite app_nil_r].
    rewrite <- (delete_insert_id c0 it (Iter (mkIter None 0)) Hit). by apply own_without.
  - pose proof Hs as [Hp Hs']. assert (Hip : it <> p) by congruence. cbn [firstp] in *.
    assert (Hp' : cells s !! p = Some (Node (mkNode pv (firstp b None) x))) by (apply (own_other _ _ _ _ p _ Ho); by lks).
    eapply wp_listNext_some; [done | done |]. cbn [Z.eqb next].
    pose proof (own_beside _ _ _ _ it (Iter (mkIter (firstp b None) 0)) Ho Hil Hin) as Ho'. rewrite insert_insert_eq in Ho'.
    pose proof (own_record _ _ _ _ Ho) as Hl. unfold record in Hl. change (<[it := _]> (cells s)) with (cells (upd s it (Iter (mkIter (firstp b None) 0)))) in Ho'.
    assert (Hstep : forall v, match d with Some g => v = g x /\ g x <> 0 | None => v = x end ->
      wp (a ← listAddNodeTail fails place junk_node (Some l2) v;
          match a with None => listRelease (Some l2);; listReleaseIterator (Some it);; mret None | Some _ => dup_loop fails place junk_node fuel (Some l2) (Some it) end)
        Q (upd s it (Iter (mkIter (firstp b None) 0)))).
    { intros v Hv. apply wp_bind. cbn in Hf, Hlen. eapply wp_listAddNodeTail; [done | lia |]. intros r c k Hc. eapply IH; [done | done | rewrite length_app; cbn; lia | lia |].
      cbn [freed upd fmap list_fmap copies fst snd] in HQ |- *. rewrite fmap_app. cbn. rewrite <- app_assoc. cbn.
      destruct d as [g|]; [destruct Hv as [-> Hg]; rewrite (proj2 (Z.eqb_neq _ 0)) in HQ by done | subst v]; done. }
    do 4 wp_step. destruct d as [g|] eqn:Ed; [| by apply Hstep]. destruct (Z.eqb_spec (g x) 0) as [Hg|Hg]; [| by apply Hstep].
    apply wp_bind. eapply wp_listRelease; [done |]. unfold listReleaseIterator. wp_steps. cbn. rewrite delete_insert_id by done.
    cbn [fmap list_fmap copies fst snd] in HQ. rewrite Ed, Hg in HQ. cbn in HQ. rewrite app_nil_r in HQ. apply HQ.
Qed.

Lemma wp_listDup F l ns Q s : own F (cells s) l ns -> Z.of_nat (length ns) < 2 ^ 32 ->
  (if (copies ns.*2).2 then forall c k l2 ns', own (cells s) c l2 ns' -> ns'.*2 = (copies ns.*2).1 -> Q (Some l2) (mkMem c (freed s) k)
   else forall k, Q None (mkMem (cells s) (freed s ++ if f then (copies ns.*2).1 else []) k)) ->
  wp (listDup fails place junk_node junk_iter junk_list (Some l)) Q s.
Proof.
  intros Ho Hlen HQ. pose proof (own_len _ _ _ _ Ho) as Hn. unfold listDup. do 3 wp_step. eapply wp_listCreate. intros l2 k Hl2.
  pose proof (own_record _ _ _ _ Ho) as Hl. unfold record in Hl. assert (Hne : l2 <> l) by congruence. wp_steps.
  unfold upd. cbn [cells freed clock]. rewrite insert_insert_eq. change (List (mkList None None d f mt 0)) with (record []).
  pose proof (own_empty _ _ Hl2) as Ho2.
  assert (Ho' : own (<[l2 := record []]> F) (<[l2 := record []]> (cells s)) l ns).
  { apply own_beside; [done | done |]. intros Hin. destruct (seg_node _ _ _ _ _ (own_seg _ _ _ _ Ho) Hin). congruence. }
  eapply wp_listGetIterator; [exact Ho' |]. cbn [cells freed]. intros it k' Hit _. cbn [Z.eqb].
  assert (Hil : it <> l2) by (intros ->; by rewrite lookup_insert_eq in Hit). rewrite lookup_insert_ne in Hit by done.
  eapply (wp_dup_loop (cells s) l2 it Q Hit ns None _ _ []); [apply (own_seg _ _ _ _ Ho) | | cbn; lia | lia |].
  - apply own_beside; [done | done | by apply not_elem_of_nil].
  - cbn [freed fmap list_fmap app]. destruct ((copies ns.*2).2); [| apply HQ]. intros c k'' ns' Hc Hns. by eapply HQ.
Qed.

(** ** The list of values *)

Definition find_key (key : Z) (xs : list Z) : option (nat * Z) := list_find (fun x => matches x key) xs.

(** What an operation answers, what it makes of the values, and what it gives
    to the free method. *)
Definition step (o : op) (xs : list Z) : result * list Z * list Z :=
  match o with
  | AddHead v => (Unit, v :: xs, [])
  | AddTail v => (Unit, xs ++ [v], [])
  | Insert i v after =>
      match pos_of i (length xs) with
      | None => (Found None, xs, [])
      | Some k => let k := if after =? 0 then k else S k in (Unit, take k xs ++ v :: drop k xs, [])
      end
  | Delete i =>
      match pos_of i (length xs) with
      | None => (Found None, xs, [])
      | Some k => (Unit, delete k xs, option_list (xs !! k))
      end
  | DeleteKey key =>
      match find_key key xs with
      | None => (Found None, xs, [])
      | Some (k, x) => (Unit, delete k xs, [x])
      end
  | Search key => (Found (snd <$> find_key key xs), xs, [])
  | Index i => (Found (k ← pos_of i (length xs); xs !! k), xs, [])
  | Rotate => (Unit, option_list (last xs) ++ take (length xs - 1) xs, [])
  | Walk dir => (Values ((if dir =? 0 then xs else reverse xs) ++ xs ++ reverse xs), xs, [])
  | Copy => let '(vs, whole) := copies xs in (Copied (if whole then Some (vs ++ vs ++ reverse vs) else None), xs, vs)
  | Length => (Number (Z.of_nat (length xs)), xs, [])
  end.

Fixpoint steps (os : list op) (xs : list Z) : list result * list Z * list Z :=
  match os with
  | [] => ([], xs, [])
  | o :: os =>
      let '(r, xs1, fr1) := step o xs in
      let '(rs, xs2, fr2) := steps os xs1 in
      (r :: rs, xs2, fr1 ++ fr2)
  end.

(** The least [long] is not an index. *)
Definition op_ok (o : op) : Prop :=
  match o with Insert i _ _ | Delete i | Index i => - 2 ^ 63 < i < 2 ^ 63 | _ => True end.

Lemma pos_of_lt i n k : pos_of i n = Some k -> (k < n)%nat.
Proof. unfold pos_of. destruct (_ && _) eqn:E; [| done]. intros [= <-]. apply andb_true_iff in E. lia. Qed.

Lemma length_step o xs : (length (step o xs).1.2 <= S (length xs))%nat.
Proof.
  destruct o; cbn -[copies]; try lia.
  - rewrite length_app. cbn. lia.
  - destruct (pos_of _ _); cbn; [| lia]. rewrite length_app, length_take. cbn. rewrite length_drop. lia.
  - destruct (pos_of _ _) as [k|] eqn:E; cbn; [| lia]. apply pos_of_lt in E. rewrite length_delete by (by apply lookup_lt_is_Some). lia.
  - destruct (find_key _ _) as [[k x]|] eqn:E; cbn; [| lia]. apply list_find_Some in E as [E _]. rewrite length_delete by (by eexists). lia.
  - rewrite length_app, length_take. destruct (last xs); cbn; lia.
  - destruct (copies xs). cbn. lia.
Qed.

(** A list split where a position or a key is. *)
Lemma split_at ns k x : ns.*2 !! k = Some x -> exists a q b, ns = a ++ (q, x) :: b /\ length a = k.
Proof.
  rewrite list_lookup_fmap. destruct (ns !! k) as [[q y]|] eqn:E; cbn; [| done]. intros [= ->].
  exists (take k ns), q, (drop (S k) ns). split; [by rewrite take_drop_middle |]. rewrite length_take. apply lookup_lt_Some in E. lia.
Qed.

Lemma pointer_at a q x b : (a ++ (q, x) :: b) !! length a = Some (q, x).
Proof. by apply list_lookup_middle. Qed.

Lemma delete_at a (q : positive) (x : Z) b : delete (length a) ((a ++ (q, x) :: b).*2) = (a ++ b).*2.
Proof.
  rewrite !fmap_app. cbn. rewrite <- (length_fmap snd a). by apply delete_middle.
Qed.

Lemma find_node key ns : find_key key ns.*2 = (fun r => (r.1, r.2.2)) <$> list_find (fun n : positive * Z => matches n.2 key) ns.
Proof. unfold find_key. rewrite list_find_fmap. done. Qed.

Lemma pos_pointer ns i : (k ← pos_of i (length ns); fst <$> ns !! k) =
  match pos_of i (length ns.*2) with Some k => fst <$> ns !! k | None => None end.
Proof. rewrite length_fmap. by destruct (pos_of i (length ns)). Qed.

Lemma pos_split ns i k : pos_of i (length ns.*2) = Some k -> exists a q x b, ns = a ++ (q, x) :: b /\ length a = k.
Proof.
  intros Hk%pos_of_lt. destruct (lookup_lt_is_Some_2 _ _ Hk) as [x Hx]. destruct (split_at _ _ _ Hx) as (a & q & b & H). by exists a, q, x, b.
Qed.

Lemma rotated a (t : positive) (x : Z) : option_list (last (a ++ [(t, x)]).*2) ++ take (length (a ++ [(t, x)]).*2 - 1) (a ++ [(t, x)]).*2 = ((t, x) :: a).*2.
Proof.
  rewrite fmap_app. cbn [fmap list_fmap snd]. rewrite last_snoc, length_app. cbn [option_list app length]. f_equal. rewrite Nat.add_sub. apply take_app_length.
Qed.

Lemma inserted a b (p : positive) (v : Z) : (a ++ (p, v) :: b).*2 = take (length a) (a ++ b).*2 ++ v :: drop (length a) (a ++ b).*2.
Proof. rewrite !fmap_app. cbn [fmap list_fmap snd]. by rewrite <- (length_fmap snd a), take_app_length, drop_app_length. Qed.

(** An operation does what [step] says. *)
Definition served (o : op) : Prop := forall F l ns Q s, own F (cells s) l ns -> op_ok o -> Z.of_nat (S (length ns)) < 2 ^ 32 ->
  (forall c k ns', own F c l ns' -> ns'.*2 = (step o ns.*2).1.2 -> Q (step o ns.*2).1.1 (mkMem c (freed s ++ if f then (step o ns.*2).2 else []) k)) ->
  wp (exec fails place junk_node junk_iter junk_list o (Some l)) Q s.

Lemma none_freed (fr : list Z) : fr ++ (if f then [] else []) = fr.
Proof. destruct f; apply app_nil_r. Qed.

Ltac serve := intros F l ns Q s Ho Hok Hlen HQ; cbn [exec step op_ok fst snd] in *; rewrite ?none_freed in HQ; apply wp_bind.

(** A node that an index or a key finds. *)
Ltac at_index := match goal with Ho : own _ _ _ ?ns |- wp (listIndex _ ?i) _ _ =>
  eapply wp_listIndex; [done | lia |]; rewrite pos_pointer; destruct (pos_of i (length ns.*2)) as [n|] eqn:E; cbn [fst snd mbind option_bind] in *;
  [ destruct (pos_split _ _ _ E) as (a & q & x & b & -> & <-); rewrite ?list_lookup_fmap, pointer_at in *; cbn [fmap option_fmap option_map fst snd option_list] in * |] end.

Ltac at_key := match goal with HQ : context [find_key _ (_ <$> ?ns)] |- _ =>
  eapply wp_listSearchKey; [done |]; intros k; rewrite find_node in HQ; destruct (list_find _ ns) as [[n [q x]]|] eqn:E; cbn in HQ |- *;
  [ apply list_find_Some in E as [E _]; destruct (split_at ns n x) as (a & q' & b & -> & <-); [by rewrite list_lookup_fmap, E |]; rewrite pointer_at in E; simplify_eq |] end.

Lemma served_insert i v after : served (Insert i v after).
Proof.
  serve. at_index; [| rewrite ?none_freed in HQ; wp_steps; destruct s; by eapply HQ]. rewrite none_freed in HQ. apply wp_bind. destruct (Z.eqb_spec after 0) as [->|Ha].
  - eapply wp_insert_before; [done | done |]. intros p c k Hc. apply wp_ret. eapply HQ; [done |]. apply inserted.
  - eapply wp_insert_after; [done.. |]. intros p c k Hc. apply wp_ret. eapply HQ; [done |].
    pose proof (inserted (a ++ [(q, x)]) b p v) as H. rewrite <- !app_assoc, length_app, Nat.add_comm in H. exact H.
Qed.

Lemma served_delete i : served (Delete i).
Proof.
  serve. at_index; [| rewrite ?none_freed in HQ; wp_steps; destruct s; by eapply HQ]. apply wp_bind. eapply wp_listDelNode; [done | lia |]. intros c Hc. apply wp_ret.
  specialize (HQ c (clock s) (a ++ b) Hc). rewrite delete_at in HQ. specialize (HQ eq_refl). destruct f; [done | by rewrite app_nil_r in HQ].
Qed.

Lemma served_delete_key key : served (DeleteKey key).
Proof.
  serve. at_key; [| rewrite ?none_freed in HQ; wp_steps; by eapply HQ]. apply wp_bind. eapply (wp_listDelNode F l a q x b); [done | cbn; lia |]. intros c Hc. apply wp_ret. cbn.
  specialize (HQ c k (a ++ b) Hc). rewrite delete_at in HQ. specialize (HQ eq_refl). destruct f; [done | by rewrite app_nil_r in HQ].
Qed.

Lemma served_search key : served (Search key).
Proof. serve. at_key; [| rewrite ?none_freed in HQ; wp_steps; by eapply HQ]. destruct (own_last _ _ _ _ _ _ _ Ho) as [Hq _]. wp_steps. by eapply HQ. Qed.

Lemma served_index i : served (Index i).
Proof. serve. at_index; [| unfold value_of; wp_steps; destruct s; by eapply HQ]. destruct (own_last _ _ _ _ _ _ _ Ho) as [Hq _]. unfold value_of. wp_steps. destruct s. by eapply HQ. Qed.

Lemma served_rotate : served Rotate.
Proof.
  serve. destruct ns as [|[t x] ns _] using rev_ind.
  - unfold listRotate. pose proof (own_record _ _ _ _ Ho) as Hl. unfold record in Hl. do 2 wp_step. change (_ <=? 1) with true. wp_steps. destruct s. by eapply HQ.
  - eapply wp_listRotate; [done |]. intros c Hc. apply wp_ret. eapply HQ; [done |]. symmetry. apply rotated.
Qed.

Lemma served_copy : served Copy.
Proof.
  serve. eapply wp_listDup; [done | lia |]. destruct (copies ns.*2) as [vs whole] eqn:E. cbn [fst snd] in HQ |- *. destruct whole.
  - intros c k l2 ns2 Hc Hns. apply wp_bind. eapply wp_walk; [done |]. intros k'. apply wp_bind. eapply wp_listRelease; [done |]. apply wp_ret. cbn.
    rewrite Hns. by eapply HQ.
  - intros k. apply wp_ret. by eapply HQ.
Qed.

Lemma wp_exec o : served o.
Proof.
  destruct o; [| | apply served_insert | apply served_delete | apply served_delete_key | apply served_search | apply served_index | apply served_rotate | | apply served_copy |]; serve.
  - eapply wp_listAddNodeHead; [done | done |]. intros p c k Hc. apply wp_ret. by eapply HQ.
  - eapply wp_listAddNodeTail; [done | done |]. intros p c k Hc. apply wp_ret. eapply HQ; [done |]. by rewrite fmap_app.
  - eapply wp_walk; [done |]. intros k. apply wp_ret. by eapply HQ.
  - pose proof (own_record _ _ _ _ Ho) as Hl. unfold record in Hl. wp_steps. rewrite length_fmap in HQ. destruct s. by eapply HQ.
Qed.

Lemma wp_run F l os Q : forall ns s, own F (cells s) l ns -> Forall op_ok os -> Z.of_nat (length ns + length os) < 2 ^ 32 ->
  (forall c k ns', own F c l ns' -> ns'.*2 = (steps os ns.*2).1.2 -> Q (steps os ns.*2).1.1 (mkMem c (freed s ++ if f then (steps os ns.*2).2 else []) k)) ->
  wp (run fails place junk_node junk_iter junk_list os (Some l)) Q s.
Proof.
  revert Q. induction os as [|o os IH]; intros Q ns s Ho Hok Hlen HQ; cbn [run steps fst snd] in *.
  - apply wp_ret. rewrite none_freed in HQ. destruct s. by eapply HQ.
  - apply Forall_cons in Hok as [Ho1 Hok]. cbn [length] in Hlen. apply wp_bind. eapply wp_exec; [done | done | lia |]. intros c k ns' Hc Hns.
    pose proof (length_step o ns.*2) as Hl. destruct (step o ns.*2) as [[r xs1] fr1]. cbn [fst snd] in *. subst xs1. rewrite !length_fmap in Hl.
    apply wp_bind. eapply IH; [exact Hc | done | lia |]. intros c' k' ns2 Hc' Hns'. apply wp_ret. destruct (steps os ns'.*2) as [[rs xs2] fr2]. cbn [fst snd freed] in *.
    specialize (HQ c' k' ns2 Hc' Hns'). destruct f; [rewrite <- app_assoc | rewrite !app_nil_r in *]; done.
Qed.

Lemma wp_client os m : Forall op_ok os -> Z.of_nat (length os) < 2 ^ 32 ->
  wp (client fails place junk_node junk_iter junk_list d f mt os)
    (fun rs m' => rs = (steps os []).1.1 /\ freed m' = freed m ++ (if f then (steps os []).2 ++ (steps os []).1.2 else []) /\ cells m' = cells m) m.
Proof.
  intros Hok Hlen. apply wp_bind, wp_listCreate. intros l k Hl. do 2 wp_step. unfold upd. cbn [cells freed clock]. rewrite insert_insert_eq.
  apply wp_bind. eapply (wp_run (cells m) l os _ []); [by apply own_empty | done | done |].
  intros c k' ns Hc Hns. apply wp_bind. eapply wp_listRelease; [done |]. apply wp_ret. cbn [freed cells] in *. rewrite Hns. split; [done |].
  split; [| done]. destruct f; [by rewrite <- app_assoc | by rewrite !app_nil_r].
Qed.

End proofs.

(** C22. A client creates a list, sets its methods, adds nodes at both ends and
    beside others, deletes, searches, indexes from both ends, rotates, walks in
    both directions, copies and finally releases it, in any order.  Wherever
    the system places the nodes, no access faults, and the process ends early
    only when the system refuses memory.  The answers are those of a list of
    values.  The values given to the free method are those deleted, those of the
    released copies and in the end those left, in this order, and the memory is
    what it was before. *)
Theorem adlist_refines (fails : nat -> bool) (place : nat -> gmap positive cell -> positive) junk_node junk_iter junk_list
    (d : option (Z -> Z)) (f : bool) (mt : option (Z -> Z -> Z)) (os : list op) (m : mem) :
  (forall k c, c !! place k c = None) -> Forall op_ok os -> Z.of_nat (length os) < 2 ^ 32 ->
  match client fails place junk_node junk_iter junk_list d f mt os m with
  | None => False
  | Some Abort => exists k, fails k = true
  | Some (Ret (rs, m')) =>
      let '(answers, xs, fr) := steps d mt os [] in
      rs = answers /\ freed m' = freed m ++ (if f then fr ++ xs else []) /\ cells m' = cells m
  end.
Proof.
  intros Hpl Hok Hlen. pose proof (wp_client fails place junk_node junk_iter junk_list Hpl d f mt os m Hok Hlen) as H. unfold wp in H.
  by destruct (steps d mt os []) as [[answers xs] fr].
Qed.

(** Memory for five hundred requests, placed where nothing is. *)
Definition fresh_place (k : nat) (c : gmap positive cell) : positive := fresh (dom c).

Lemma fresh_place_new k c : c !! fresh_place k c = None.
Proof. apply not_elem_of_dom. apply is_fresh. Qed.

Definition sample_ops : list op :=
  [AddTail 20; AddHead 10; AddTail 30; Insert (-1) 25 0; Insert 0 15 1; Walk 1; Rotate; Delete 1; Search 25; DeleteKey 20; Index (-2); Copy; Length].

Lemma adlist_refines_witness :
  match client (fun k => (500 <=? k)%nat) fresh_place (mkNode None None 0) (mkIter None 0) (mkList None None None false None 0)
      (Some (fun x => x + 1)) true (Some (fun x k => if x / 5 =? k / 5 then 1 else 0)) sample_ops (mkMem ∅ [] 0) with
  | None => False
  | Some Abort => exists k, (500 <=? k)%nat = true
  | Some (Ret (rs, m')) =>
      let '(answers, xs, fr) := steps (Some (fun x => x + 1)) (Some (fun x k => if x / 5 =? k / 5 then 1 else 0)) sample_ops [] in
      rs = answers /\ freed m' = [] ++ (if true then fr ++ xs else []) /\ cells m' = ∅
  end.
Proof.
  apply (adlist_refines (fun k => (500 <=? k)%nat) fresh_place (mkNode None None 0) (mkIter None 0) (mkList None None None false None 0)
    (Some (fun x => x + 1)) true (Some (fun x k => if x / 5 =? k / 5 then 1 else 0)) sample_ops (mkMem ∅ [] 0)).
  - apply fresh_place_new.
  - unfold sample_ops. repeat apply Forall_cons_2; try apply Forall_nil_2; cbn; lia.
  - cbn. lia.
Defined.

(** The same client, run.  The values 10 and 20 are deleted, then the copy of
    30, 15 and 25 is released, and the list itself in the end. *)
Example sample_run :
  match client (fun k => (500 <=? k)%nat) fresh_place (mkNode None None 0) (mkIter None 0) (mkList None None None false None 0)
      (Some (fun x => x + 1)) true (Some (fun x k => if x / 5 =? k / 5 then 1 else 0)) sample_ops (mkMem ∅ [] 0) with
  | Some (Ret (rs, m')) => Some (rs, freed m')
  | _ => None
  end = Some ([Unit; Unit; Unit; Unit; Unit; Values [30; 25; 20; 15; 10; 10; 15; 20; 25; 30; 30; 25; 20; 15; 10];
    Unit; Unit; Found (Some 25); Unit; Found (Some 15); Copied (Some [31; 16; 26; 31; 16; 26; 26; 16; 31]); Number 3],
    [10; 20; 31; 16; 26; 30; 15; 25]).
Proof. vm_compute. reflexivity. Qed.

(** A value that can not be duplicated ends the copy, and what was copied is
    released. *)
Example failing_copy :
  match client (fun k => (500 <=? k)%nat) fresh_place (mkNode None None 0) (mkIter None 0) (mkList None None None false None 0)
      (Some (fun x => if x =? 3 then 0 else x + 10)) true None [AddTail 1; AddTail 2; AddTail 3; AddTail 4; Copy] (mkMem ∅ [] 0) with
  | Some (Ret (rs, m')) => Some (rs, freed m')
  | _ => None
  end = Some ([Unit; Unit; Unit; Unit; Copied None], [11; 12; 1; 2; 3; 4]).
Proof. vm_compute. reflexivity. Qed.

End AdList.
