(* ===== verification/Distance.v ===== *)
(** * Distance: the edit distance of src/include/common/qdistance.h

    [calMinEditDistance] recurses on the two strings from the front.  The
    specification does not know this recursion: a string becomes another by
    single edits at any place, one after the other, and the function gives
    the least number of edits.  The distances between vectors of doubles are
    not modelled. *)

From S2P Require Import Prelude CLib.

Module Distance.

(** [str1_len] and [str2_len] bytes from [str1] and [str2] on.  The calls in
    which only [str2] moves are the inner recursion. *)
Fixpoint calMinEditDistance (str1 : bytes) : bytes -> Z :=
  fix inner (str2 : bytes) : Z :=
    match str1, str2 with
    | [], _ => Z.of_nat (length str2)
    | _, [] => Z.of_nat (length str1)
    | x :: str1', y :: str2' =>
        if beqb x y then calMinEditDistance str1' str2'
        else
          let dis1 := calMinEditDistance str1' str2' in
          let dis2 := inner str2' in
          let dis3 := calMinEditDistance str1' str2 in
          let dis1 := if dis1 <? dis2 then dis1 else dis2 in
          let dis1 := if dis1 <? dis3 then dis1 else dis3 in
          dis1 + 1
    end.

(** ** Edits *)

(** One character replaced, inserted or removed. *)
Inductive edit : bytes -> bytes -> Prop :=
  | Replace u x y v : edit (u ++ x :: v) (u ++ y :: v)
  | Insert u y v : edit (u ++ v) (u ++ y :: v)
  | Remove u x v : edit (u ++ x :: v) (u ++ v).

Inductive edits : nat -> bytes -> bytes -> Prop :=
  | edits_none s : edits 0 s s
  | edits_one n s t u : edit s t -> edits n t u -> edits (S n) s u.

(** ** Alignments of the two strings *)

Inductive align : nat -> bytes -> bytes -> Prop :=
  | align_nil : align 0 [] []
  | align_same n x s t : align n s t -> align n (x :: s) (x :: t)
  | align_replace n x y s t : align n s t -> align (S n) (x :: s) (y :: t)
  | align_insert n y s t : align n s t -> align (S n) s (y :: t)
  | align_remove n x s t : align n s t -> align (S n) (x :: s) t.

#[local] Hint Constructors align : core.

Lemma align_refl s : align 0 s s.
Proof. induction s; auto. Qed.

Lemma align_all_inserted t : align (length t) [] t.
Proof. induction t; cbn; auto. Qed.

Lemma align_all_removed s : align (length s) s [].
Proof. induction s; cbn; auto. Qed.

(** Aligned within [n] differences. *)
Definition within (n : nat) (s t : bytes) : Prop := exists m, (m <= n)%nat /\ align m s t.

Lemma within_of n s t : align n s t -> within n s t.
Proof. intros H. by exists n. Qed.

Lemma within_drop_left x s t n : align n (x :: s) t -> within (S n) s t.
Proof.
  remember (x :: s) as xs eqn:E. intros H. revert s E. induction H as [|n z s t H IH|n z y s t H IH|n y s t H IH|n z s t H IH]; intros s0 E; simplify_eq.
  - exists (S n). auto.
  - exists (S n). split; [lia | auto].
  - destruct (IH s0 eq_refl) as (m & Hm & Ha). exists (S m). split; [lia | auto].
  - exists n. split; [lia | done].
Qed.

Lemma within_drop_right y s t n : align n s (y :: t) -> within (S n) s t.
Proof.
  remember (y :: t) as ys eqn:E. intros H. revert t E. induction H as [|n z s t H IH|n z w s t H IH|n w s t H IH|n z s t H IH]; intros t0 E; simplify_eq.
  - exists (S n). auto.
  - exists (S n). split; [lia | auto].
  - exists n. split; [lia | done].
  - destruct (IH t0 eq_refl) as (m & Hm & Ha). exists (S m). split; [lia | auto].
Qed.

(** Equal first characters may stay together. *)
Lemma within_same x s t n : align n (x :: s) (x :: t) -> within n s t.
Proof.
  inversion 1; subst; [by apply within_of | | |].
  - exists n0. split; [lia | done].
  - by eapply within_drop_left.
  - by eapply within_drop_right.
Qed.

(** An edit of the first string changes the number of differences by at most one. *)
Lemma edit_within s s' t n : edit s s' -> align n s' t -> within (S n) s t.
Proof.
  intros He. revert t n. destruct He as [u x y v|u y v|u x v]; induction u as [|z u IH]; intros t n H; cbn in *.
  all: try (remember (z :: _) as zs eqn:E in H; revert E; induction H as [|m w s t H IHH|m w c s t H IHH|m c s t H IHH|m w s t H IHH]; intros E; simplify_eq;
    [ destruct (IH _ _ H) as (k & Hk & Ha); exists k; auto
    | destruct (IH _ _ H) as (k & Hk & Ha); exists (S k); split; [lia | auto]
    | destruct (IHH eq_refl) as (k & Hk & Ha); exists (S k); split; [lia | auto]
    | destruct (IH _ _ H) as (k & Hk & Ha); exists (S k); split; [lia | auto] ]).
  - remember (y :: v) as ys eqn:E. revert E. induction H as [|m w s t H IHH|m w c s t H IHH|m c s t H IHH|m w s t H IHH]; intros E; simplify_eq.
    + exists (S m). auto.
    + exists (S m). split; [lia | auto].
    + destruct (IHH eq_refl) as (k & Hk & Ha). exists (S k). split; [lia | auto].
    + exists (S m). split; [lia | auto].
  - by eapply within_drop_left.
  - exists (S n). auto.
Qed.

Lemma edits_within n s t : edits n s t -> within n s t.
Proof.
  induction 1 as [s|n s t u He _ (m & Hm & Ha)]; [exists 0%nat; split; [lia | apply align_refl] |].
  destruct (edit_within _ _ _ _ He Ha) as (k & Hk & Hb). exists k. split; [lia | done].
Qed.

Lemma edit_cons x s t : edit s t -> edit (x :: s) (x :: t).
Proof. intros [u y z v|u z v|u y v]; rewrite !app_comm_cons; constructor. Qed.

Lemma edits_cons x n s t : edits n s t -> edits n (x :: s) (x :: t).
Proof. induction 1; econstructor; eauto using edit_cons. Qed.

Lemma align_edits n s t : align n s t -> edits n s t.
Proof.
  induction 1 as [|n x s t H IH|n x y s t H IH|n y s t H IH|n x s t H IH]; [constructor | by apply edits_cons | ..].
  - apply (edits_one _ _ (y :: s)); [apply (Replace []) | by apply edits_cons].
  - apply (edits_one _ _ (y :: s)); [apply (Insert []) | by apply edits_cons].
  - apply (edits_one _ _ s); [apply (Remove []) | done].
Qed.

Lemma edits_app n m s t u : edits n s t -> edits m t u -> edits (n + m) s u.
Proof. induction 1; intros H'; [done |]. econstructor; eauto. Qed.

Lemma edits_sym n s t : edits n s t -> edits n t s.
Proof.
  induction 1 as [s|n s t u He _ IH]; [constructor |]. replace (S n) with (n + 1)%nat by lia. apply (edits_app _ _ _ t); [done |].
  apply (edits_one _ _ s); [| constructor]. destruct He; constructor.
Qed.

(** ** The recursion *)

Lemma cal_nil t : calMinEditDistance [] t = Z.of_nat (length t).
Proof. by destruct t. Qed.

Lemma cal_nil_r s : calMinEditDistance s [] = Z.of_nat (length s).
Proof. by destruct s. Qed.

Lemma cal_cons x s y t : calMinEditDistance (x :: s) (y :: t) =
  if beqb x y then calMinEditDistance s t
  else Z.min (Z.min (calMinEditDistance s t) (calMinEditDistance (x :: s) t)) (calMinEditDistance s (y :: t)) + 1.
Proof.
  transitivity (if beqb x y then calMinEditDistance s t
    else let d1 := if calMinEditDistance s t <? calMinEditDistance (x :: s) t then calMinEditDistance s t else calMinEditDistance (x :: s) t in
         (if d1 <? calMinEditDistance s (y :: t) then d1 else calMinEditDistance s (y :: t)) + 1); [done |]. cbv zeta.
  destruct (beqb x y); [done |]. repeat case_match; lia.
Qed.

Lemma cal_align s : forall t, exists n, align n s t /\ calMinEditDistance s t = Z.of_nat n.
Proof.
  induction s as [|x s IHs]; intros t; [rewrite cal_nil; eauto using align_all_inserted |].
  induction t as [|y t IHt]; [rewrite cal_nil_r; eauto using align_all_removed |]. rewrite cal_cons. destruct (beqb_spec x y) as [->|Hne].
  - destruct (IHs t) as (n & Hn & ->). eauto.
  - destruct (IHs t) as (n1 & Hn1 & ->), IHt as (n2 & Hn2 & ->), (IHs (y :: t)) as (n3 & Hn3 & ->).
    destruct (Z.min_spec (Z.min (Z.of_nat n1) (Z.of_nat n2)) (Z.of_nat n3)) as [[_ ->]|[_ ->]]; [destruct (Z.min_spec (Z.of_nat n1) (Z.of_nat n2)) as [[_ ->]|[_ ->]] |].
    + exists (S n1). split; [auto | lia].
    + exists (S n2). split; [auto | lia].
    + exists (S n3). split; [auto | lia].
Qed.

Lemma cal_least s : forall t n, align n s t -> calMinEditDistance s t <= Z.of_nat n.
Proof.
  assert (Hlen : forall s t n, align n s t -> Z.abs (Z.of_nat (length s) - Z.of_nat (length t)) <= Z.of_nat n) by (induction 1; cbn [length]; lia).
  induction s as [|x s IHs]; intros t; [intros n H%Hlen; rewrite cal_nil; cbn in H; lia |].
  induction t as [|y t IHt]; intros n H; [apply Hlen in H; rewrite cal_nil_r; cbn [length] in *; lia |]. rewrite cal_cons. destruct (beqb_spec x y) as [->|Hne].
  - apply within_same in H as (m & Hm & Ha). apply IHs in Ha. lia.
  - inversion H as [| |m ? ? ? ? H'|m ? ? ? H'|m ? ? ? H']; subst; [done | apply IHs in H' | apply IHt in H' | apply IHs in H']; lia.
Qed.

Lemma cal_le_max s : forall t, calMinEditDistance s t <= Z.max (Z.of_nat (length s)) (Z.of_nat (length t)).
Proof.
  induction s as [|x s IHs]; intros t; [rewrite cal_nil; lia |]. destruct t as [|y t]; [rewrite cal_nil_r; lia |].
  specialize (IHs t). rewrite cal_cons. cbn [length] in *. destruct (beqb x y); lia.
Qed.

Lemma cal_edits n s t : edits n s t -> calMinEditDistance s t <= Z.of_nat n.
Proof. intros (m & Hm & Ha)%edits_within. apply cal_least in Ha. lia. Qed.

(** C35. The function returns the least number of single edits (a character
    replaced, inserted or removed at any place) that turn one string into the
    other.  The result is never more than the longer length, so that the
    32-bit additions do not overflow, and it is a metric on strings. *)
Theorem calMinEditDistance_least (s t : bytes) :
  (exists n, calMinEditDistance s t = Z.of_nat n /\ edits n s t /\ forall m, edits m s t -> (n <= m)%nat) /\
  calMinEditDistance s t <= Z.max (Z.of_nat (length s)) (Z.of_nat (length t)) /\
  (calMinEditDistance s t = 0 <-> s = t) /\
  calMinEditDistance s t = calMinEditDistance t s /\
  forall u, calMinEditDistance s u <= calMinEditDistance s t + calMinEditDistance t u.
Proof.
  destruct (cal_align s t) as (n & Hn & E). split; [| split; [apply cal_le_max | split; [| split]]].
  - exists n. split; [done |]. split; [by apply align_edits |]. intros m Hm%cal_edits. lia.
  - split; [| intros ->; pose proof (cal_least t t 0 (align_refl t)); destruct (cal_align t t) as (k & _ & Ek); lia].
    intros E0. apply align_edits in Hn. replace n with 0%nat in Hn by lia. by inversion Hn.
  - destruct (cal_align t s) as (m & Hm & E'). apply align_edits, edits_sym, cal_edits in Hn, Hm. lia.
  - intros u. destruct (cal_align t u) as (m & Hm & E'). apply align_edits in Hn, Hm. pose proof (cal_edits _ _ _ (edits_app _ _ _ _ _ Hn Hm)). lia.
Qed.

Example distance_kitten : calMinEditDistance (str "kitten") (str "sitting") = 3.
Proof. vm_compute. reflexivity. Qed.

End Distance.
